(* ===== verification/_CoqProject ===== *)
-Q . S2P
Prelude.v
RustStd.v
Http.v
GrpcFraming.v
Metadata.v
Framing.v
ClientMetadata.v
Base64Std.v
ClientStatus.v
ClientCodec.v
H2ts.v
Reflection.v
HttpRule.v
HttpBuild.v
Transcode.v
DynPool.v
RestTests.v
EchoRest.v
JsonFrame.v
WsCodec.v
WsStream.v
WsServe.v
WsQueues.v
WsTimers.v
Fetch.v
ClientState.v
ClientChannel.v
ClientCalls.v
ClientTyped.v
TonicService.v
Drain.v
Schema.v
ReflectLoad.v
Server.v
EndToEnd.v
TonicTunnel.v
Examples.v
StubDemo.v
TestEcho.v
Conformance.v
ConformanceDriver.v
StubRunner.v
DriverMain.v
ServerTests.v
ClientTests.v
