(* ===== verification/Prelude.v ===== *)
(** * grpc-webnext, verified

    A model of the Rust implementation of grpc-webnext (gRPC for browsers over Fetch and
    WebSockets) and the theorems that make it correct. Paths below are under [src/rust/]:
    [S/] is [crates/grpc-webnext/src/] (the server and proxy library), [K/] is
    [crates/grpc-webnext-client/src/] (the wasm client), [E/] is [crates/testecho/src/] and
    [X/] is [examples/].

    ** The program

    One port answers five surfaces: native gRPC (passed through), Fetch with binary bodies
    ([application/grpc-webnext+proto]), Fetch with JSON bodies ([+json], and REST routes of
    [google.api.http] annotations), WebSockets that carry one stream in frames, and WebSockets
    that tunnel HTTP/2 (h2ts). Every surface ends in a [Backend]: an in-process tonic router or
    an upstream channel. JSON needs descriptors, bundled or loaded from the upstream by
    reflection. The client speaks the h2ts surface, with a byte API and a tonic transport.

    ** Files, in dependency order

    - [Prelude] notations, byte strings, [run] (a computation that may panic) and [result],
      big-endian integers, and generic lemmas and hints. [RustStd]: the parts of Rust's
      standard library the sources use (string splitting, integer parsing and printing with
      their widths, UTF-8 validation and lossy decoding, [Duration]).
    - [Http]: the classes [Http] and [Tonic], interfaces of the [http] and [tonic] crates with
      their laws, and a concrete instance. [Reflection]: the class [Reflect], the interface of
      [prost_reflect] and [serde_json], with its laws and a concrete instance.
    - [GrpcFraming] ([S/grpc_framing.rs]), [Metadata] ([S/metadata.rs]), [Framing]
      ([S/framing.rs]), [H2ts] ([S/h2ts.rs], the size limit): bytes and headers on the wire.
    - [HttpRule] and [HttpBuild] ([S/httprule.rs]: templates and the router; request messages
      from path, query and body), [Transcode] ([S/transcode.rs]). [DynPool]: a typed instance of
      [Reflect] over schema tables; [RestTests] the schemas of the sources' tests and of
      [crates/testecho/proto/echo.proto] as such tables, and the unit tests of these two files;
      [EchoRest] the REST surface of the echo service.
    - [JsonFrame] ([S/json_frame.rs]), [WsCodec] ([S/frame.rs], and decoding and closing in
      [S/ws.rs]), [WsStream] ([run_stream] of [S/ws.rs]), [WsServe] ([serve] and
      [handle_frame] of [S/ws.rs]), with its queues in [WsQueues] and its timers in
      [WsTimers]: the WebSocket surface.
    - [Fetch] ([S/fetch.rs]): routing of requests and the Fetch surfaces.
    - [Drain] ([S/drain.rs], and [run] of [S/lib.rs]), [Schema] ([S/schema.rs]), [ReflectLoad]
      ([S/reflect.rs]), [Server] ([S/lib.rs], [S/backend.rs], [S/codec.rs], [fetch::handle] and
      [h2ts::serve]): the servers around the surfaces.
    - [ClientMetadata], [ClientStatus], [ClientCodec] ([K/metadata.rs], [K/status.rs],
      [K/codec.rs]), [Base64Std] (the standard base64, an instance), [ClientState] ([K/state.rs], [K/url.rs]), [ClientChannel] and [ClientCalls]
      ([K/client.rs]: the connection; the calls), [ClientTyped] (the four call shapes of
      [K/client.rs], [K/typed.rs], [K/web.rs], [X/tonic-stub-client/src/dial.rs]),
      [TonicService] ([K/tonic_service.rs]).
    - [EndToEnd]: the client and the in-process server joined by the tunnel; [TonicTunnel]: the
      same for a generated stub over the tonic transport. [Examples]: the entry points
      ([S/bin/proxy.rs], [crates/devserver/src/main.rs], the example servers' mains, the
      readiness line) and the Greeter service ([X/greeter-server/src/main.rs]). [StubDemo]: the
      stub client's demo ([X/tonic-stub-client/src/main.rs]) as a computation that prints.
    - [TestEcho] ([E/lib.rs]), [Conformance] ([X/conformance-server/src/main.rs]),
      [ConformanceDriver] ([X/conformance-driver/src/]: [cases.rs], [run.rs]),
      [StubRunner] (its [stubs.rs]) and [DriverMain] (its [main.rs]). [ServerTests] and
      [ClientTests]: the socket-free tests of [crates/grpc-webnext/tests/], of [K/] and of the
      driver, as computations on the model.

    ** How code is modelled

    Definitions keep the source's names where Rocq allows. A Rust string is its UTF-8 bytes, a
    [usize] or [u64] an [N] (additions that could overflow are written out), an [i32] a [Z].
    A function that can panic returns [run], a [Result] is [result], so a handler that may do
    both returns [run (result ..)]. Async code is cut at its awaits: what a future gives is an
    input (the frames of a body, a backend's response, which of a call and its deadline comes
    first), and where tasks interleave there is a step function over events:
    - [WsServe.step]: the read loop, the writer, the stream tasks and the backend of one
      connection, with its queues at their capacities: a send into a full queue waits;
    - [WsTimers.tstep]: the same with instants: what the timers allow, and what has arrived;
    - [ClientChannel.step]: the calls, dials and connection deaths of one client;
    - [Drain.step]: the accept loop, the connections and the drain controller of one server.
    Theorems about these hold for every list of events. A [tokio] or [futures] channel is a
    list or a version counter. Outside [WsServe] a queue has room and a timer is an event or a
    count of what arrives before it; [WsTimers] has clocks, in nanoseconds without a bound.

    Third-party code is a parameter: the classes above, [Base64], [FrameCodec] (the protobuf
    and JSON codecs of frames), [Pb] (the conformance messages), and function arguments for
    [prost] decoding of a file descriptor, percent decoding, [{:?}] formatting and URI
    parsing. [Stub] and [Service] ([TonicTunnel]) are the code tonic generates on the two
    sides. What a theorem needs of them is a hypothesis or a law, and each law has a concrete
    instance, which the witnesses use. [prost_reflect] panics when a field is set to a value of
    another type, and so does [Reflection.set_field_checked].

    ** What the theorems show

    - Wire formats: framing round trips under any chunking ([GrpcFraming], [Framing]); client
      and server agree on the bytes ([ClientCodec]); metadata, statuses and deadlines survive
      the headers ([Metadata], [ClientMetadata]); JSON and protobuf frames correspond
      ([JsonFrame]).
    - Limits and panics: message size limits are exact ([H2ts], [Fetch], [Server]), integer
      coercion ([HttpBuild]), and the inputs that make the code panic ([HttpRule], [Fetch]).
    - REST: templates parse back, the router picks the first binding that accepts, captures
      win over the body, compiled bindings are well typed, and building a request sets no
      ill-typed value, so it panics in percent decoding only ([HttpRule], [HttpBuild],
      [Transcode]). What the routes of [echo.proto] answer, for every input ([EchoRest]).
    - Streams: a call's messages and status arrive exactly, once, then the end, on WebSocket
      frames ([WsStream], [WsServe]), Fetch ([Fetch]), the byte client ([ClientCalls]) and the
      tonic transport ([TonicService]).
    - Connections: invariants of every interleaving, one dial shared by concurrent calls,
      redialing, draining and closing ([WsServe], [ClientChannel], [Drain]). The queues of a
      WebSocket connection lose and reorder nothing, a parked send completes, and a connection
      that left its loop ends; a read loop parked on a stalled backend hears nothing else
      ([WsQueues]). The keepalive and the close wait fire exactly when they say, a peer that
      answers its pings is kept, and one that does can be dropped after such a stall
      ([WsTimers]).
    - Descriptors: the loader closes over dependencies and terminates, orders files, and reads
      back what a reflection server serves ([ReflectLoad], [TestEcho]); snapshots are the
      latest loaded ([Schema]).
    - Composition: which JSON requests reach the backend ([Fetch]), what of a client's upload
      the router reads ([Server]), a typed call and a generated stub's call through the tunnel
      ([EndToEnd], [TonicTunnel]), the demo's transcript over it ([StubDemo]), a stream task
      on a connection's queues ([WsQueues]), and the conformance driver's run against the
      conformance service ([ConformanceDriver]).
    - Entry points: typed calls and dialing ([ClientTyped]), configurations from the
      environment and the readiness line ([Examples]), and the conformance driver's command
      line, verdicts and exit code ([DriverMain]).
    - The sources' own unit tests hold of the model ([RestTests], [ServerTests], [ClientTests]).

    ** Fuel

    Recursion that is not structural has fuel, and a lemma that the fuel given is enough:
    twice the bytes of a body for [H2ts.inspect_fuel], one more than the bytes left for the
    de-framers ([GrpcFraming.drain_fuel], [ClientCodec.push_loop]), one more than the number of
    files for [ReflectLoad.visit], ten groups of seven bits for [ReflectLoad.varint]. Where the
    code itself waits on a peer ([ReflectLoad.drive], [ClientCalls.finish],
    [ConformanceDriver.drain_loop]) the theorems give the number of turns that ends it; the
    fuel of [DriverMain] is that of its cases' runs, and enough of it always exists.

    ** Not modelled

    Sockets, TLS, HTTP/2 and WebSocket framing, hyper, tonic and the h2ts engine (third-party);
    logging; parsing the conformance cases from YAML; binding listeners and spawning tasks and
    child processes in the mains; the JSON forms of the well-known types (and the one unit test
    about them), which are the library's; the integration tests, which drive real sockets; build
    scripts and generated code; the Go, Node and TypeScript implementations. *)
From stdpp Require Export prelude list gmap strings.
From Stdlib Require Export Strings.Byte.
From Stdlib Require Strings.String.
From Stdlib Require Import NArith ZArith Lia.

#[export] Set Warnings "-clear-no-such-hyp,-register-all".

#[global] Open Scope N_scope.
#[global] Open Scope list_scope.

Declare Scope wn_scope.
Delimit Scope wn_scope with wn.
#[global] Open Scope wn_scope.

(** ** Bytes and strings

    A Rust [u8] is a [byte]; [Vec<u8>], [Bytes], [BytesMut] and [&[u8]] are byte lists, and
    so are [String] and [&str] (a Rust string is its UTF-8 bytes; where the encoding
    matters the predicate [RustStd.utf8_valid] says so). [$ "..."] is a string literal. *)

Abbreviation bytes := (list byte).
Abbreviation str := (list byte).

Notation "$ s" := (Stdlib.Strings.String.list_byte_of_string s%string)
  (at level 8, s constr at level 0) : wn_scope.

(** Lengths are [usize] values: binary naturals, so that a length read from the wire can be
    compared without ever being unfolded into a unary number. *)

Definition blen {A} (l : list A) : N := N.of_nat (length l).
Definition btake {A} (n : N) (l : list A) : list A := take (N.to_nat n) l.
Definition bdrop {A} (n : N) (l : list A) : list A := drop (N.to_nat n) l.

(** [n as u8]. *)
Definition byte_of_N (n : N) : byte := default x00 (Byte.of_N (n mod 256)).

Definition two32 : N := 4294967296.
Definition two64 : N := 18446744073709551616.

(** [(n as u32).to_be_bytes()], and [u32::from_be_bytes]. *)
Definition be32 (n : N) : bytes :=
  [byte_of_N (n / 16777216); byte_of_N (n / 65536); byte_of_N (n / 256); byte_of_N n].
Definition u32_be (a b c d : byte) : N :=
  Byte.to_N a * 16777216 + Byte.to_N b * 65536 + Byte.to_N c * 256 + Byte.to_N d.

(** ** Computations that may panic

    [run A] is a Rust computation of type [A] that either returns or panics (a slice off a
    char boundary, an overflowing time addition). *)

Inductive run (A : Type) : Type :=
| Done (a : A)
| Panic.
Arguments Done {A} a.
Arguments Panic {A}.

#[global] Instance run_ret : MRet run := fun A a => Done a.
#[global] Instance run_bind : MBind run :=
  fun A B f m => match m with Done a => f a | Panic => Panic end.
#[global] Instance run_fmap : FMap run :=
  fun A B f m => match m with Done a => Done (f a) | Panic => Panic end.

(** [run_map f l]: run [f] on every element in order. *)
Fixpoint run_map {A B} (f : A -> run B) (l : list A) : run (list B) :=
  match l with
  | [] => Done []
  | x :: l' => y ← f x; ys ← run_map f l'; Done (y :: ys)
  end.

(** ** [Result] *)

Inductive result (E A : Type) : Type :=
| Ok (a : A)
| Err (e : E).
Arguments Ok {E A} a.
Arguments Err {E A} e.

#[global] Instance result_ret {E} : MRet (result E) := fun A a => Ok a.
#[global] Instance result_bind {E} : MBind (result E) :=
  fun A B f m => match m with Ok a => f a | Err e => Err e end.

Definition ok {E A} (r : result E A) : option A := match r with Ok a => Some a | Err _ => None end.
Definition is_ok {E A} (r : result E A) : bool := match r with Ok _ => true | Err _ => false end.
Definition map_err {E E' A} (f : E -> E') (r : result E A) : result E' A :=
  match r with Ok a => Ok a | Err e => Err (f e) end.
Definition ok_or {E A} (e : E) (o : option A) : result E A :=
  match o with Some a => Ok a | None => Err e end.

(** A fallible computation that may also panic: the [?] operator on both layers. *)
Definition rbind {E A B} (m : run (result E A)) (f : A -> run (result E B)) : run (result E B) :=
  match m with
  | Done (Ok a) => f a
  | Done (Err e) => Done (Err e)
  | Panic => Panic
  end.
Notation "x <-? m ;; k" := (rbind m (fun x => k))
  (at level 100, m at next level, right associativity) : wn_scope.

#[global] Instance byte_eq_dec : EqDecision byte := Byte.byte_eq_dec.
#[global] Instance byte_countable : Countable byte.
Proof.
  apply (inj_countable Byte.to_N Byte.of_N). apply Byte.of_to_N.
Defined.
#[global] Instance run_eq_dec {A} `{EqDecision A} : EqDecision (run A).
Proof. solve_decision. Defined.
#[global] Instance result_eq_dec {E A} `{EqDecision E, EqDecision A} : EqDecision (result E A).
Proof. solve_decision. Defined.

(** ** Transition sequences of a labelled step function *)

Section steps.
Context {S L O : Type} (step : S -> L -> S * list O).

Fixpoint run_steps (s : S) (ls : list L) : S * list O :=
  match ls with
  | [] => (s, [])
  | l :: ls' =>
      let '(s1, o1) := step s l in
      let '(s2, o2) := run_steps s1 ls' in
      (s2, o1 ++ o2)
  end.
End steps.

(** ** Tactics and hints *)

(** [case_match_all]: split on every [match] scrutinee in sight, closing impossible cases. *)
Ltac case_match_all := repeat (case_match; simplify_eq/=; try done).

(** [nlia]: [lia] with quotients and remainders as opaque quantities. *)
Ltac nlia :=
  repeat match goal with
  | H : context [N.modulo ?a ?b] |- _ => let x := fresh "m" in set (x := N.modulo a b) in *; clearbody x
  | H : context [N.div ?a ?b] |- _ => let x := fresh "q" in set (x := N.div a b) in *; clearbody x
  | |- context [N.modulo ?a ?b] => let x := fresh "m" in set (x := N.modulo a b) in *; clearbody x
  | |- context [N.div ?a ?b] => let x := fresh "q" in set (x := N.div a b) in *; clearbody x
  | H : context [N.pow ?a ?b] |- _ => let x := fresh "p" in set (x := N.pow a b) in *; clearbody x
  end; lia.

(** [decide_closed]: settle every decidable equation between closed terms. *)
Ltac decide_closed := repeat first [rewrite decide_True by done | rewrite decide_False by done].

Create HintDb webnext discriminated.
Create Rewrite HintDb webnext.
#[global] Hint Constants Transparent : webnext.

(** ** Lemmas on bytes and words *)

Lemma to_N_lt (b : byte) : Byte.to_N b < 256.
Proof. pose proof (Byte.to_N_bounded b). lia. Qed.

Lemma to_N_byte_of_N n : Byte.to_N (byte_of_N n) = n mod 256.
Proof.
  unfold byte_of_N. destruct (Byte.of_N (n mod 256)) as [b|] eqn:E; simpl.
  - symmetry. by apply Byte.to_of_N in E.
  - apply Byte.of_N_None_iff in E. pose proof (N.mod_lt n 256). lia.
Qed.

Lemma to_N_inj a b : Byte.to_N a = Byte.to_N b -> a = b.
Proof. intros H. pose proof (Byte.of_to_N a). pose proof (Byte.of_to_N b). congruence. Qed.

Lemma byte_of_to_N b : byte_of_N (Byte.to_N b) = b.
Proof. apply to_N_inj. rewrite to_N_byte_of_N. apply N.mod_small, to_N_lt. Qed.

Lemma u32_be_lt a b c d : u32_be a b c d < two32.
Proof.
  unfold u32_be, two32.
  pose proof (to_N_lt a); pose proof (to_N_lt b); pose proof (to_N_lt c); pose proof (to_N_lt d). lia.
Qed.

Lemma u32_be_be32 n :
  u32_be (byte_of_N (n / 16777216)) (byte_of_N (n / 65536)) (byte_of_N (n / 256)) (byte_of_N n)
  = n mod two32.
Proof.
  unfold u32_be, two32. rewrite !to_N_byte_of_N.
  replace (n / 16777216) with (n / 256 / 256 / 256) by (by rewrite !N.Div0.div_div).
  replace (n / 65536) with (n / 256 / 256) by (by rewrite !N.Div0.div_div).
  generalize (N.div_mod' n 256). generalize (N.mod_lt n 256).
  generalize (n mod 256) as r0. generalize (n / 256) as q1. intros q1 r0.
  generalize (N.div_mod' q1 256). generalize (N.mod_lt q1 256).
  generalize (q1 mod 256) as r1. generalize (q1 / 256) as q2. intros q2 r1.
  generalize (N.div_mod' q2 256). generalize (N.mod_lt q2 256).
  generalize (q2 mod 256) as r2. generalize (q2 / 256) as q3. intros q3 r2.
  pose proof (N.div_mod' q3 256). pose proof (N.mod_lt q3 256).
  intros. apply N.mod_unique with (q := q3 / 256); lia.
Qed.

Lemma div_256 x d : d < 256 -> (x * 256 + d) / 256 = x.
Proof. intros. symmetry. apply N.div_unique with d; lia. Qed.

Lemma mod_256 x d : d < 256 -> (x * 256 + d) mod 256 = d.
Proof. intros. symmetry. apply N.mod_unique with x; lia. Qed.

Lemma be32_u32_be a b c d : be32 (u32_be a b c d) = [a; b; c; d].
Proof.
  pose proof (to_N_lt a); pose proof (to_N_lt b); pose proof (to_N_lt c); pose proof (to_N_lt d).
  unfold be32.
  replace (u32_be a b c d)
    with (((Byte.to_N a * 256 + Byte.to_N b) * 256 + Byte.to_N c) * 256 + Byte.to_N d)
    by (unfold u32_be; lia).
  change 16777216 with (256 * (256 * 256)). change 65536 with (256 * 256).
  rewrite <- !N.Div0.div_div. rewrite !div_256 by done.
  repeat f_equal; apply to_N_inj; rewrite to_N_byte_of_N; [by apply N.mod_small|..]; by apply mod_256.
Qed.

Lemma length_be32 n : length (be32 n) = 4%nat.
Proof. done. Qed.

(** ** Lemmas on lengths and slices *)

Lemma blen_nil {A} : blen (@nil A) = 0.
Proof. done. Qed.

Lemma blen_cons {A} (x : A) l : blen (x :: l) = 1 + blen l.
Proof. unfold blen. simpl. lia. Qed.

Lemma blen_app {A} (l k : list A) : blen (l ++ k) = blen l + blen k.
Proof. unfold blen. rewrite length_app. lia. Qed.

Lemma btake_app {A} (l k : list A) : btake (blen l) (l ++ k) = l.
Proof. unfold btake, blen. rewrite Nat2N.id. apply take_app_length. Qed.

Lemma bdrop_app {A} (l k : list A) : bdrop (blen l) (l ++ k) = k.
Proof. unfold bdrop, blen. rewrite Nat2N.id. apply drop_app_length. Qed.

Lemma btake_bdrop {A} n (l : list A) : btake n l ++ bdrop n l = l.
Proof. apply take_drop. Qed.

Lemma blen_btake {A} n (l : list A) : n <= blen l -> blen (btake n l) = n.
Proof. unfold blen, btake. rewrite length_take. lia. Qed.

Lemma blen_bdrop {A} n (l : list A) : blen (bdrop n l) = blen l - n.
Proof. unfold blen, bdrop. rewrite length_drop. lia. Qed.

Lemma btake_app_le {A} n (l k : list A) : n <= blen l -> btake n (l ++ k) = btake n l.
Proof. unfold btake, blen. intros. apply take_app_le. lia. Qed.

Lemma bdrop_app_le {A} n (l k : list A) : n <= blen l -> bdrop n (l ++ k) = bdrop n l ++ k.
Proof. unfold bdrop, blen. intros. apply drop_app_le. lia. Qed.

Lemma bdrop_app_ge {A} n (l k : list A) : blen l <= n -> bdrop n (l ++ k) = bdrop (n - blen l) k.
Proof.
  unfold bdrop, blen. intros. rewrite drop_app_ge by lia. f_equal. lia.
Qed.

Lemma bdrop_all {A} n (l : list A) : blen l <= n -> bdrop n l = [].
Proof. unfold bdrop, blen. intros. apply drop_ge. lia. Qed.

#[global] Hint Rewrite @blen_nil @blen_cons @blen_app : webnext.
#[global] Hint Resolve to_N_lt u32_be_lt : webnext.

(** [blia]: linear arithmetic over lengths of concatenations. *)
Ltac blia := autorewrite with webnext in *; lia.

(** ** Lemmas on the run monad *)

Lemma run_map_done {A B} (f : A -> run B) (g : A -> B) l :
  Forall (fun x => f x = Done (g x)) l -> run_map f l = Done (map g l).
Proof. induction 1 as [|x l Hx _ IH]; simpl; [done|]. by rewrite Hx, IH. Qed.

Lemma run_steps_app {S L O} (step : S -> L -> S * list O) s l1 l2 :
  run_steps step s (l1 ++ l2) =
  let '(s1, o1) := run_steps step s l1 in
  let '(s2, o2) := run_steps step s1 l2 in (s2, o1 ++ o2).
Proof.
  revert s. induction l1 as [|l l1 IH]; intros s; simpl; [by destruct run_steps|].
  destruct (step s l) as [s' o']. rewrite IH.
  destruct (run_steps step s' l1) as [s1 o1]. destruct (run_steps step s1 l2) as [s2 o2].
  by rewrite app_assoc.
Qed.

(** An invariant of every step holds after every sequence of steps. *)
Lemma run_steps_inv {S L O} (step : S -> L -> S * list O) (I : S -> Prop) s ls :
  (forall s l, I s -> I (step s l).1) -> I s -> I (run_steps step s ls).1.
Proof.
  intros Hstep. revert s. induction ls as [|l ls IH]; intros s Hs; simpl; [done|].
  specialize (Hstep s l Hs). destruct (step s l) as [s1 o1]. simpl in Hstep.
  specialize (IH s1 Hstep). by destruct (run_steps step s1 ls).
Qed.

(** Under an invariant, what holds of every step's outputs holds of the whole run's. *)
Lemma run_steps_out {S L O} (step : S -> L -> S * list O) (I : S -> Prop) (P : O -> Prop) s ls :
  (forall s l, I s -> I (step s l).1 /\ Forall P (step s l).2) -> I s ->
  I (run_steps step s ls).1 /\ Forall P (run_steps step s ls).2.
Proof.
  intros Hstep. revert s. induction ls as [|l ls IH]; intros s Hs; simpl; [by split|].
  destruct (Hstep s l Hs) as [H1 H2]. destruct (step s l) as [s1 o1]. simpl in *.
  destruct (IH s1 H1) as [H3 H4]. destruct (run_steps step s1 ls) as [s2 o2]. simpl in *.
  split; [done|]. by apply Forall_app.
Qed.

(** A quantity that every step accounts for is accounted for by the whole run. *)
Lemma run_steps_count {S L O} (step : S -> L -> S * list O) (I : S -> Prop) (c : list O -> nat) (w : S -> nat) s ls :
  (forall a b, c (a ++ b) = (c a + c b)%nat) -> c [] = 0%nat ->
  (forall s l, I s -> I (step s l).1 /\ (w (step s l).1 = w s + c (step s l).2)%nat) -> I s ->
  I (run_steps step s ls).1 /\ (w (run_steps step s ls).1 = w s + c (run_steps step s ls).2)%nat.
Proof.
  intros Happ Hnil Hstep. revert s. induction ls as [|l ls IH]; intros s Hs; simpl; [rewrite Hnil; split; [done|lia]|].
  destruct (Hstep s l Hs) as [H1 H2]. destruct (step s l) as [s1 o1]. simpl in *.
  destruct (IH s1 H1) as [H3 H4]. destruct (run_steps step s1 ls) as [s2 o2]. simpl in *.
  split; [done|]. rewrite Happ. lia.
Qed.

(** A relation between the outputs so far and the state that every step keeps. *)
Lemma run_steps_trace {S L O} (step : S -> L -> S * list O) (I : list O -> S -> Prop) s ls acc :
  (forall acc s l, I acc s -> I (acc ++ (step s l).2) (step s l).1) -> I acc s ->
  I (acc ++ (run_steps step s ls).2) (run_steps step s ls).1.
Proof.
  intros Hstep. revert s acc. induction ls as [|l ls IH]; intros s acc Hs; simpl; [by rewrite app_nil_r|].
  specialize (Hstep acc s l Hs). destruct (step s l) as [s1 o1]. simpl in Hstep.
  specialize (IH s1 (acc ++ o1) Hstep). destruct (run_steps step s1 ls) as [s2 o2]. simpl in *. by rewrite app_assoc.
Qed.
