(* ===== verification/RustStd.v ===== *)
(** * The parts of the Rust standard library the sources use

    String slicing, splitting and trimming, integer parsing and printing, UTF-8 validation
    and [String::from_utf8_lossy], [std::time::Duration]. Strings are their UTF-8 bytes, so
    an operation on an ASCII separator is the same operation on bytes. *)
From S2P Require Import Prelude.

Definition bN (b : byte) : N := Byte.to_N b.
Definition in_range (lo hi : N) (b : byte) : bool := (lo <=? bN b) && (bN b <=? hi).

(** ** Splitting, trimming, joining *)

(** [s.split(c)]: never empty, adjacent separators give empty pieces. *)
Fixpoint split (c : byte) (s : str) : list str :=
  match s with
  | [] => [[]]
  | x :: s' =>
      if decide (x = c) then [] :: split c s'
      else match split c s' with
           | p :: ps => (x :: p) :: ps
           | [] => [[x]]
           end
  end.

(** [s.split_once(c)] *)
Fixpoint split_once (c : byte) (s : str) : option (str * str) :=
  match s with
  | [] => None
  | x :: s' =>
      if decide (x = c) then Some ([], s')
      else match split_once c s' with
           | Some (a, b) => Some (x :: a, b)
           | None => None
           end
  end.

(** [s.trim_start_matches(c)], [s.trim_end_matches(c)], [s.trim_matches(c)] *)
Fixpoint trim_start (c : byte) (s : str) : str :=
  match s with
  | x :: s' => if decide (x = c) then trim_start c s' else s
  | [] => []
  end.
Definition trim_end (c : byte) (s : str) : str := rev (trim_start c (rev s)).
Definition trim_matches (c : byte) (s : str) : str := trim_end c (trim_start c s).

(** [s.strip_prefix(c)], [s.strip_suffix(c)] for a [char] pattern. *)
Definition strip_prefix (c : byte) (s : str) : option str :=
  match s with x :: s' => if decide (x = c) then Some s' else None | [] => None end.
Definition strip_suffix (c : byte) (s : str) : option str :=
  match rev s with x :: s' => if decide (x = c) then Some (rev s') else None | [] => None end.

(** [parts.join(sep)] *)
Fixpoint join (sep : str) (parts : list str) : str :=
  match parts with
  | [] => []
  | [p] => p
  | p :: ps => p ++ sep ++ join sep ps
  end.

(** [s.starts_with(p)], [s.ends_with(p)] *)
Fixpoint starts_with (p s : str) : bool :=
  match p, s with
  | [], _ => true
  | x :: p', y :: s' => bool_decide (x = y) && starts_with p' s'
  | _ :: _, [] => false
  end.
Definition ends_with (p s : str) : bool := starts_with (rev p) (rev s).

(** [s.contains(sub)] *)
Fixpoint contains (sub s : str) : bool :=
  starts_with sub s || match s with [] => false | _ :: s' => contains sub s' end.

Definition nonempty {A} (s : list A) : bool := match s with [] => false | _ => true end.

(** ** ASCII case *)

Definition upper (b : byte) : byte := if in_range 97 122 b then byte_of_N (bN b - 32) else b.
Definition lower (b : byte) : byte := if in_range 65 90 b then byte_of_N (bN b + 32) else b.
Definition to_ascii_uppercase (s : str) : str := map upper s.
Definition to_ascii_lowercase (s : str) : str := map lower s.
Definition is_ascii_alphanumeric (b : byte) : bool :=
  in_range 48 57 b || in_range 65 90 b || in_range 97 122 b.

(** ** Integers *)

(** [(c as char).to_digit(radix)] *)
Definition to_digit (radix : N) (b : byte) : option N :=
  let d := if in_range 48 57 b then Some (bN b - 48)
           else if in_range 97 122 b then Some (bN b - 87)
           else if in_range 65 90 b then Some (bN b - 55)
           else None in
  match d with Some v => if v <? radix then Some v else None | None => None end.

(** The accumulation loop of [from_str_radix]: overflow past [max] is an error. *)
Fixpoint digits_value (radix max acc : N) (s : str) : option N :=
  match s with
  | [] => Some acc
  | c :: s' =>
      match to_digit radix c with
      | Some d => if max <? acc * radix + d then None else digits_value radix max (acc * radix + d) s'
      | None => None
      end
  end.

(** [uN::from_str_radix(s, radix)]: an empty string and a lone sign are errors, a leading
    [+] is accepted, and for an unsigned type [-] is just not a digit. *)
Definition parse_uint (radix max : N) (s : str) : option N :=
  match s with
  | [] => None
  | c :: s' =>
      if decide (c = "+"%byte) then match s' with [] => None | _ => digits_value radix max 0 s' end
      else digits_value radix max 0 s
  end.

Definition u8_max : N := 255.
Definition u32_max : N := 4294967295.
Definition u64_max : N := 18446744073709551615.
Definition parse_u32 (s : str) : option N := parse_uint 10 u32_max s.
Definition parse_u64 (s : str) : option N := parse_uint 10 u64_max s.

(** [iN::from_str(s)] for the type with values [-(max+1) ..= max]. *)
Definition parse_sint (max : N) (s : str) : option Z :=
  match s with
  | c :: s' =>
      if decide (c = "-"%byte) then
        match s' with [] => None | _ => Z.opp ∘ Z.of_N <$> digits_value 10 (max + 1) 0 s' end
      else Z.of_N <$> parse_uint 10 max s
  | [] => None
  end.
Definition parse_i32 : str -> option Z := parse_sint 2147483647.
Definition parse_i64 : str -> option Z := parse_sint 9223372036854775807.

(** [format!("{n}")]: the decimal digits; [N.log2 n + 1] bounds their number. *)
Fixpoint dec_digits (fuel : nat) (n : N) (acc : str) : str :=
  match fuel with
  | O => acc
  | S fuel =>
      let acc := byte_of_N (48 + n mod 10) :: acc in
      if n / 10 =? 0 then acc else dec_digits fuel (n / 10) acc
  end.
Definition fmt_dec (n : N) : str := dec_digits (S (N.to_nat (N.log2 n))) n [].

(** [format!("{b:02X}")] *)
Definition hex_digit (n : N) : byte := if n <? 10 then byte_of_N (48 + n) else byte_of_N (55 + n).
Definition fmt_02X (b : byte) : str := [hex_digit (bN b / 16); hex_digit (bN b mod 16)].

(** ** UTF-8 *)

Definition is_cont (b : byte) : bool := in_range 128 191 b.

(** [s.is_char_boundary(i)] seen from position [i]: true at the end, else the byte there
    must not be a continuation byte. *)
Definition boundary_here (tail : str) : bool :=
  match tail with [] => true | b :: _ => negb (is_cont b) end.

(** The second byte allowed after a three- or four-byte lead. *)
Definition second3 (b0 b1 : byte) : bool :=
  if bN b0 =? 224 then in_range 160 191 b1
  else if bN b0 =? 237 then in_range 128 159 b1
  else is_cont b1.
Definition second4 (b0 b1 : byte) : bool :=
  if bN b0 =? 240 then in_range 144 191 b1
  else if bN b0 =? 244 then in_range 128 143 b1
  else is_cont b1.

(** [bytes.utf8_chunks()]: a valid character, or a maximal invalid prefix. *)
Inductive chunk : Type :=
| Valid (c : bytes)
| Invalid (c : bytes).

(** One step of the decoder at lead byte [b0]: is it a character, and how many of the
    following bytes go with it. *)
Definition utf8_step (b0 : byte) (s1 : bytes) : bool * nat :=
  if bN b0 <? 128 then (true, 0%nat)
  else if in_range 194 223 b0 then
    match s1 with b1 :: _ => (is_cont b1, if is_cont b1 then 1%nat else 0%nat) | [] => (false, 0%nat) end
  else if in_range 224 239 b0 then
    match s1 with
    | b1 :: b2 :: _ =>
        if second3 b0 b1 then (is_cont b2, if is_cont b2 then 2%nat else 1%nat) else (false, 0%nat)
    | [b1] => (false, if second3 b0 b1 then 1%nat else 0%nat)
    | [] => (false, 0%nat)
    end
  else if in_range 240 244 b0 then
    match s1 with
    | b1 :: b2 :: b3 :: _ =>
        if second4 b0 b1 then
          if is_cont b2 then (is_cont b3, if is_cont b3 then 3%nat else 2%nat) else (false, 1%nat)
        else (false, 0%nat)
    | [b1; b2] => (false, if second4 b0 b1 then if is_cont b2 then 2%nat else 1%nat else 0%nat)
    | [b1] => (false, if second4 b0 b1 then 1%nat else 0%nat)
    | [] => (false, 0%nat)
    end
  else (false, 0%nat).

(** Every step consumes its lead byte, so the length is enough fuel. *)
Fixpoint utf8_chunks_fuel (fuel : nat) (s : bytes) : list chunk :=
  match fuel, s with
  | S fuel, b0 :: s1 =>
      let '(valid, k) := utf8_step b0 s1 in
      (if valid then Valid (b0 :: take k s1) else Invalid (b0 :: take k s1))
        :: utf8_chunks_fuel fuel (drop k s1)
  | _, _ => []
  end.
Definition utf8_chunks (s : bytes) : list chunk := utf8_chunks_fuel (length s) s.

Definition chunk_valid (c : chunk) : bool := match c with Valid _ => true | Invalid _ => false end.
Definition chunk_raw (c : chunk) : bytes := match c with Valid b | Invalid b => b end.
Definition chunk_lossy (c : chunk) : bytes :=
  match c with Valid b => b | Invalid _ => [xef; xbf; xbd] end.

(** [std::str::from_utf8(s).is_ok()], and [String::from_utf8_lossy(s)]. *)
Definition utf8_valid (s : bytes) : bool := forallb chunk_valid (utf8_chunks s).
Definition from_utf8_lossy (s : bytes) : str := concat (map chunk_lossy (utf8_chunks s)).
Definition from_utf8 (s : bytes) : option str := if utf8_valid s then Some s else None.
Definition is_ascii (s : bytes) : bool := forallb (fun b => bN b <? 128) s.

(** [s.is_char_boundary(i)] for [i <= s.len()]. *)
Definition is_char_boundary (s : str) (i : N) : bool := (i =? 0) || boundary_here (bdrop i s).

(** ** [str::trim]: Unicode White_Space at both ends *)

(** One leading white-space character, and one trailing one of a reversed string. *)
Definition strip_ws (s : str) : option str :=
  match s with
  | b0 :: s1 =>
      if in_range 9 13 b0 || (bN b0 =? 32) then Some s1
      else match s1 with
      | b1 :: s2 =>
          if (bN b0 =? 194) && ((bN b1 =? 133) || (bN b1 =? 160)) then Some s2
          else match s2 with
          | b2 :: s3 =>
              if (bN b0 =? 225) && (bN b1 =? 154) && (bN b2 =? 128) then Some s3
              else if (bN b0 =? 226) && (bN b1 =? 128)
                      && (in_range 128 138 b2 || in_range 168 169 b2 || (bN b2 =? 175)) then Some s3
              else if (bN b0 =? 226) && (bN b1 =? 129) && (bN b2 =? 159) then Some s3
              else if (bN b0 =? 227) && (bN b1 =? 128) && (bN b2 =? 128) then Some s3
              else None
          | [] => None
          end
      | [] => None
      end
  | [] => None
  end.
Definition strip_ws_rev (s : str) : option str :=
  match s with
  | b0 :: s1 =>
      match strip_ws [b0] with
      | Some _ => Some s1
      | None =>
          match s1 with
          | b1 :: s2 =>
              match strip_ws [b1; b0] with
              | Some [] => Some s2
              | _ => match s2 with
                     | b2 :: s3 => match strip_ws [b2; b1; b0] with Some [] => Some s3 | _ => None end
                     | [] => None
                     end
              end
          | [] => None
          end
      end
  | [] => None
  end.
Fixpoint strip_while (strip : str -> option str) (fuel : nat) (s : str) : str :=
  match fuel with
  | O => s
  | S fuel => match strip s with Some s' => strip_while strip fuel s' | None => s end
  end.
Definition trim (s : str) : str :=
  let s := strip_while strip_ws (length s) s in
  rev (strip_while strip_ws_rev (length s) (rev s)).

(** [a.cmp(b)] on strings: lexicographic on bytes; [str_le a b] is [a.cmp(b) != Greater]. *)
Fixpoint str_le (a b : str) : bool :=
  match a, b with
  | [], _ => true
  | _ :: _, [] => false
  | x :: a', y :: b' => if bN x =? bN y then str_le a' b' else bN x <? bN y
  end.

(** ** Durations *)

Record duration : Type := mkDuration { secs : N; nanos : N }.
#[global] Instance duration_eq_dec : EqDecision duration.
Proof. solve_decision. Defined.

Definition from_secs (n : N) : duration := mkDuration n 0.
Definition from_millis (n : N) : duration := mkDuration (n / 1000) (n mod 1000 * 1000000).
Definition from_micros (n : N) : duration := mkDuration (n / 1000000) (n mod 1000000 * 1000).
Definition from_nanos (n : N) : duration := mkDuration (n / 1000000000) (n mod 1000000000).
Definition as_millis (d : duration) : N := secs d * 1000 + nanos d / 1000000.
Definition as_nanos (d : duration) : N := secs d * 1000000000 + nanos d.
Definition duration_wf (d : duration) : Prop := secs d < two64 /\ nanos d < 1000000000.

(** [a + b]: panics when the seconds overflow [u64]. *)
Definition duration_add (a b : duration) : run duration :=
  let n := nanos a + nanos b in
  let s := secs a + secs b + (if n <? 1000000000 then 0 else 1) in
  if s <? two64 then Done (mkDuration s (if n <? 1000000000 then n else n - 1000000000)) else Panic.

(** [n.checked_mul(k)] on [u64]. *)
Definition checked_mul_u64 (n k : N) : option N := if n * k <? two64 then Some (n * k) else None.

(** ** Lemmas *)

Lemma starts_with_spec p s : starts_with p s = true <-> exists r, s = p ++ r.
Proof.
  revert s. induction p as [|c p IH]; intros s; [split; [by exists s|done]|].
  destruct s as [|d s]; cbn [starts_with]; [split; [done|by intros [r Hr]]|]. split.
  - intros [Hc Hp]%andb_prop. apply bool_decide_eq_true in Hc as ->. apply IH in Hp as [r ->]. by exists r.
  - intros [r [= -> ->]]. apply andb_true_intro. split; [by apply bool_decide_eq_true|]. apply IH. by exists r.
Qed.

Lemma contains_spec sub s : contains sub s = true <-> exists a b, s = a ++ sub ++ b.
Proof.
  induction s as [|c s IH]; cbn [contains]; rewrite orb_true_iff, starts_with_spec.
  - split; [intros [[r Hr]|]; [exists [], r; by destruct sub|done]|]. intros (a & b & Hab). left. exists b. by destruct a.
  - rewrite IH. split.
    + intros [[r ->]|(a & b & ->)]; [by exists [], r|by exists (c :: a), b].
    + intros ([|d a] & b & Hab); [left; by exists b|right]. injection Hab as <- ->. by exists a, b.
Qed.

Example split_ex : split "/"%byte $"a//b" = [$"a"; []; $"b"].
Proof. reflexivity. Qed.

Example from_utf8_lossy_ex : from_utf8_lossy [x41; xe2; x82; x42] = [x41; xef; xbf; xbd; x42].
Proof. reflexivity. Qed.

Example trim_ex : trim ($" 9 " ++ [xc2; xa0; xe3; x80; x80]) = $"9" /\ trim [xc3; xa9; x20] = [xc3; xa9].
Proof. split; reflexivity. Qed.

Example fmt_dec_ex : fmt_dec 18446744073709551615 = $"18446744073709551615" /\ fmt_dec 0 = $"0".
Proof. split; vm_compute; reflexivity. Qed.

Lemma split_nonempty c s : split c s <> [].
Proof. induction s as [|x s IH]; simpl; [done|]. case_decide; [done|]. by destruct (split c s). Qed.

Lemma join_cons sep p ps : ps <> [] -> join sep (p :: ps) = p ++ sep ++ join sep ps.
Proof. by destruct ps. Qed.

Lemma join_split c s : join [c] (split c s) = s.
Proof.
  induction s as [|x s IH]; [done|]. simpl. case_decide as E.
  - subst. rewrite join_cons by apply split_nonempty. simpl. by rewrite IH.
  - destruct (split c s) as [|p [|q ps]] eqn:Es; simpl in *; congruence.
Qed.

Lemma split_no_sep c s : Forall (fun p => c ∉ p) (split c s).
Proof.
  induction s as [|x s IH]; simpl; [repeat constructor; set_solver|].
  case_decide; [constructor; [set_solver|done]|].
  destruct (split c s) as [|p ps]; [repeat constructor; set_solver|].
  inversion IH; subst. constructor; [set_solver|done].
Qed.

Lemma split_app_sep c p s : c ∉ p -> split c (p ++ c :: s) = p :: split c s.
Proof.
  induction p as [|x p IH]; intros Hp; simpl.
  - by rewrite decide_True.
  - rewrite decide_False by set_solver. rewrite IH by set_solver. done.
Qed.

Lemma split_no_sep_singleton c p : c ∉ p -> split c p = [p].
Proof.
  induction p as [|x p IH]; intros Hp; simpl; [done|].
  rewrite decide_False by set_solver. by rewrite IH by set_solver.
Qed.

Lemma split_join c ps : ps <> [] -> Forall (fun p => c ∉ p) ps -> split c (join [c] ps) = ps.
Proof.
  intros Hne H. induction H as [|p ps Hp Hps IH]; [done|].
  destruct ps as [|q ps]; simpl.
  - by apply split_no_sep_singleton.
  - rewrite split_app_sep by done. f_equal. by apply IH.
Qed.

Lemma split_once_app c a b : c ∉ a -> split_once c (a ++ c :: b) = Some (a, b).
Proof.
  induction a as [|x a IH]; intros Ha; simpl; [by rewrite decide_True|].
  rewrite decide_False by set_solver. by rewrite IH by set_solver.
Qed.

Lemma split_once_None c s : split_once c s = None <-> c ∉ s.
Proof.
  induction s as [|x s IH]; simpl; [set_solver|].
  destruct (decide (x = c)); [set_solver|].
  destruct (split_once c s) as [[a b]|]; [|set_solver].
  split; [done|]. intros H. exfalso. enough (Some (a, b) = None) by done. apply IH. set_solver.
Qed.

Lemma split_once_Some c s a b : split_once c s = Some (a, b) <-> s = a ++ c :: b /\ c ∉ a.
Proof.
  split; [|intros [-> ?]; by apply split_once_app].
  revert a b. induction s as [|x s IH]; intros a b; simpl; [done|].
  destruct (decide (x = c)) as [->|]; [intros; simplify_eq; set_solver|].
  destruct (split_once c s) as [[a' b']|]; [|done]. intros [= <- <-].
  destruct (IH a' b' eq_refl) as [-> ?]. set_solver.
Qed.

Lemma trim_start_head c s x s' : trim_start c s = x :: s' -> x <> c.
Proof. induction s as [|y s IH]; simpl; [done|]. case_decide; [done|congruence]. Qed.

Lemma nonempty_true {A} (s : list A) : nonempty s = true <-> s <> [].
Proof. by destruct s. Qed.

(** Raw bytes are partitioned by the chunks, so a fully valid string is its own lossy
    decoding. *)
Lemma utf8_chunks_fuel_raw fuel s :
  (length s <= fuel)%nat -> concat (map chunk_raw (utf8_chunks_fuel fuel s)) = s.
Proof.
  revert s. induction fuel as [|fuel IH]; intros [|b0 s1] Hl; simpl in *; try done; try lia.
  destruct (utf8_step b0 s1) as [valid k]. simpl.
  rewrite IH by (rewrite length_drop; lia).
  destruct valid; simpl; by rewrite take_drop.
Qed.

Lemma utf8_chunks_raw s : concat (map chunk_raw (utf8_chunks s)) = s.
Proof. by apply utf8_chunks_fuel_raw. Qed.

Lemma from_utf8_lossy_valid s : utf8_valid s = true -> from_utf8_lossy s = s.
Proof.
  unfold utf8_valid, from_utf8_lossy. intros H.
  rewrite <- (utf8_chunks_raw s) at 2. f_equal. apply map_ext_in. intros c Hc.
  rewrite forallb_forall in H. specialize (H c Hc). by destruct c.
Qed.

Lemma is_ascii_cons b s : is_ascii (b :: s) = (bN b <? 128) && is_ascii s.
Proof. done. Qed.

Lemma ascii_utf8_valid s : is_ascii s = true -> utf8_valid s = true.
Proof.
  unfold utf8_valid, utf8_chunks. generalize (length s) as n. intros n. revert n.
  induction s as [|b s IH]; intros [|n]; try done. rewrite is_ascii_cons. intros [Hb Hs]%andb_prop.
  cbn [utf8_chunks_fuel]. unfold utf8_step. rewrite Hb. cbn. by apply IH.
Qed.

Lemma ascii_not_cont b : bN b < 128 -> is_cont b = false.
Proof. unfold is_cont, in_range. intros. destruct (N.leb_spec 128 (bN b)); [lia|done]. Qed.

Lemma ascii_boundary s : is_ascii s = true -> boundary_here s = true.
Proof.
  destruct s as [|b s]; [done|]. rewrite is_ascii_cons, andb_true_iff, N.ltb_lt. intros [H _].
  simpl. by rewrite ascii_not_cont.
Qed.

Lemma duration_add_wf a b d : duration_wf a -> duration_wf b -> duration_add a b = Done d ->
  duration_wf d /\ as_nanos d = as_nanos a + as_nanos b.
Proof.
  unfold duration_wf, duration_add, as_nanos. intros [Ha1 Ha2] [Hb1 Hb2] H.
  destruct (N.ltb_spec (nanos a + nanos b) 1000000000); case_match eqn:E; simplify_eq/=;
    apply N.ltb_lt in E; lia.
Qed.

Lemma from_millis_wf n : n < two64 -> duration_wf (from_millis n).
Proof.
  unfold duration_wf, from_millis, two64. simpl. intros.
  pose proof (N.mod_lt n 1000). pose proof (N.Div0.div_le_upper_bound n 1000 n). lia.
Qed.

Lemma bN_byte_of_N n : n < 256 -> bN (byte_of_N n) = n.
Proof. intros. unfold bN. rewrite to_N_byte_of_N. by apply N.mod_small. Qed.

Lemma lt10_cases (P : N -> Prop) :
  P 0 -> P 1 -> P 2 -> P 3 -> P 4 -> P 5 -> P 6 -> P 7 -> P 8 -> P 9 -> forall d, d < 10 -> P d.
Proof.
  intros. destruct d as [|p]; [done|].
  do 4 (destruct p as [p|p|]; try done; try lia).
Qed.

Lemma to_digit_dec d : d < 10 -> to_digit 10 (byte_of_N (48 + d)) = Some d.
Proof. revert d. apply lt10_cases; reflexivity. Qed.

Lemma dec_digits_acc fuel n acc : dec_digits fuel n acc = dec_digits fuel n [] ++ acc.
Proof.
  revert n acc. induction fuel as [|fuel IH]; intros n acc; simpl; [done|].
  destruct (n / 10 =? 0); [done|]. rewrite IH, (IH _ [_]). by rewrite <- app_assoc.
Qed.

Lemma digits_value_app radix max a l1 l2 :
  digits_value radix max a (l1 ++ l2) =
  match digits_value radix max a l1 with Some v => digits_value radix max v l2 | None => None end.
Proof.
  revert a. induction l1 as [|c l1 IH]; intros a; simpl; [done|].
  destruct (to_digit radix c); [|done]. by destruct (max <? _).
Qed.

Lemma digits_value_dec fuel n max : n < 2 ^ N.of_nat fuel -> n <= max -> (0 < fuel)%nat ->
  digits_value 10 max 0 (dec_digits fuel n []) = Some n.
Proof.
  revert n. induction fuel as [|fuel IH]; intros n Hn Hmax Hf; [lia|].
  rewrite Nat2N.inj_succ, N.pow_succ_r' in Hn. cbn -[N.mul N.div N.modulo to_digit].
  pose proof (N.mod_lt n 10 ltac:(done)) as Hmod. pose proof (N.div_mod' n 10) as Hdm.
  destruct (N.eqb_spec (n / 10) 0) as [E|E].
  - cbn -[N.mul N.add to_digit]. rewrite to_digit_dec by done.
    destruct (N.ltb_spec max (0 * 10 + n mod 10)); [nlia|]. f_equal. nlia.
  - assert (fuel <> 0%nat) as Hf0 by (intros ->; change (2 ^ N.of_nat 0) with 1 in Hn; nlia).
    rewrite dec_digits_acc, digits_value_app, IH; [|nlia..].
    cbn -[N.mul N.add to_digit]. rewrite to_digit_dec by done.
    destruct (N.ltb_spec max (n / 10 * 10 + n mod 10)); [nlia|]. f_equal. nlia.
Qed.

Lemma dec_digits_all fuel n acc :
  forallb (in_range 48 57) acc = true -> forallb (in_range 48 57) (dec_digits fuel n acc) = true.
Proof.
  revert n acc. induction fuel as [|fuel IH]; intros n acc H; simpl; [done|].
  assert (in_range 48 57 (byte_of_N (48 + n mod 10)) = true) as Hd.
  { pose proof (N.mod_lt n 10 ltac:(done)). revert H0. generalize (n mod 10).
    apply lt10_cases; reflexivity. }
  destruct (n / 10 =? 0); simpl; [by rewrite Hd|]. apply IH. simpl. by rewrite Hd.
Qed.

Lemma dec_digits_nonempty fuel n acc : dec_digits (S fuel) n acc <> [].
Proof.
  revert n acc. induction fuel as [|fuel IH]; intros n acc; simpl.
  - by destruct (n / 10 =? 0).
  - destruct (n / 10 =? 0); [done|]. apply IH.
Qed.

(** Printing a number and parsing it back at the same width. *)
Lemma parse_fmt_dec n max : n <= max -> parse_uint 10 max (fmt_dec n) = Some n.
Proof.
  intros Hmax. unfold fmt_dec, parse_uint.
  pose proof (dec_digits_all (S (N.to_nat (N.log2 n))) n [] eq_refl) as Hall.
  pose proof (dec_digits_nonempty (N.to_nat (N.log2 n)) n []) as Hne.
  pose proof (digits_value_dec (S (N.to_nat (N.log2 n))) n max) as Hv.
  destruct (dec_digits _ n []) as [|c s]; [done|]. simpl in Hall.
  rewrite decide_False.
  - apply Hv; [|done|lia]. rewrite Nat2N.inj_succ, N2Nat.id.
    destruct (N.eq_dec n 0) as [->|]; [done|]. apply N.log2_spec. lia.
  - intros ->. done.
Qed.

Lemma forallb_impl {A} (p q : A -> bool) l :
  (forall x, p x = true -> q x = true) -> forallb p l = true -> forallb q l = true.
Proof. rewrite !forallb_forall. auto. Qed.

Lemma fmt_dec_digits n : forallb (in_range 48 57) (fmt_dec n) = true.
Proof. by apply dec_digits_all. Qed.

Lemma in_range_spec lo hi b : in_range lo hi b = true <-> lo <= bN b <= hi.
Proof. unfold in_range. rewrite andb_true_iff, !N.leb_le. done. Qed.

Lemma parse_hex_02X b : parse_uint 16 u8_max (fmt_02X b) = Some (bN b).
Proof. destruct b; reflexivity. Qed.

Lemma is_ascii_app a b : is_ascii (a ++ b) = is_ascii a && is_ascii b.
Proof. apply forallb_app. Qed.

Lemma digits_value_le radix max a s v : a <= max -> digits_value radix max a s = Some v -> v <= max.
Proof.
  revert a. induction s as [|c s IH]; intros a Ha; simpl; [by intros [= <-]|].
  destruct (to_digit radix c) as [d|]; [|done].
  destruct (N.ltb_spec max (a * radix + d)); [done|]. by apply IH.
Qed.

Lemma parse_uint_le max s v : parse_uint 10 max s = Some v -> v <= max.
Proof.
  unfold parse_uint. destruct s as [|c s]; [done|].
  case_decide; [destruct s; [done|]|]; apply digits_value_le; lia.
Qed.

Lemma digits_value_mono radix max max' a s v :
  max <= max' -> digits_value radix max a s = Some v -> digits_value radix max' a s = Some v.
Proof.
  intros Hm. revert a. induction s as [|c s IH]; intros a; simpl; [done|].
  destruct (to_digit radix c) as [d|]; [|done].
  destruct (N.ltb_spec max (a * radix + d)); [done|]. destruct (N.ltb_spec max' (a * radix + d)); [lia|]. apply IH.
Qed.

(** Decimal text of a number above the type's maximum is refused. *)
Lemma parse_fmt_dec_overflow n max : max < n -> parse_uint 10 max (fmt_dec n) = None.
Proof.
  intros Hn. destruct (parse_uint 10 max (fmt_dec n)) as [v|] eqn:E; [|done]. exfalso.
  pose proof (parse_uint_le _ _ _ E) as Hv.
  enough (parse_uint 10 n (fmt_dec n) = Some v) as E' by (rewrite parse_fmt_dec in E' by lia; simplify_eq; lia).
  revert E. unfold parse_uint. destruct (fmt_dec n) as [|c s]; [done|].
  case_decide; [destruct s; [done|]|]; apply digits_value_mono; lia.
Qed.

Lemma parse_sint_range max s v :
  parse_sint max s = Some v -> (- (Z.of_N max + 1) <= v <= Z.of_N max)%Z.
Proof.
  unfold parse_sint. destruct s as [|c s]; [done|]. case_decide.
  - destruct s as [|d s]; [done|]. intros (w & Hw & ->)%fmap_Some.
    apply digits_value_le in Hw; [|lia]. simpl. lia.
  - intros (w & Hw & ->)%fmap_Some. apply parse_uint_le in Hw. lia.
Qed.

(** [str_le] is a total order. *)
#[global] Instance str_le_refl : Reflexive str_le.
Proof. intros a. induction a as [|x a IH]; simpl; [done|]. by rewrite N.eqb_refl. Qed.

#[global] Instance str_le_trans : Transitive str_le.
Proof.
  intros a. induction a as [|x a IH]; intros [|y b] [|z c]; simpl; try done.
  destruct (N.eqb_spec (bN x) (bN y)), (N.eqb_spec (bN y) (bN z)), (N.eqb_spec (bN x) (bN z));
    try lia; [apply IH|rewrite ?Is_true_true, ?N.ltb_lt; lia..].
Qed.

Lemma str_le_antisym a b : str_le a b -> str_le b a -> a = b.
Proof.
  revert b. induction a as [|x a IH]; intros [|y b]; simpl; try done.
  destruct (N.eqb_spec (bN x) (bN y)) as [E|E], (N.eqb_spec (bN y) (bN x)); try lia.
  - intros. apply to_N_inj in E as ->. f_equal. by apply IH.
  - rewrite !Is_true_true, !N.ltb_lt. lia.
Qed.

Lemma str_le_total a b : str_le a b \/ str_le b a.
Proof.
  revert b. induction a as [|x a IH]; intros [|y b]; simpl; auto.
  destruct (N.eqb_spec (bN x) (bN y)) as [E|E], (N.eqb_spec (bN y) (bN x)); try lia; [apply IH|].
  rewrite !Is_true_true, !N.ltb_lt. lia.
Qed.
