(* ===== verification/Http.v ===== *)
(** * Interfaces of the [http] and [tonic] crates

    [http::HeaderMap] and [tonic::metadata::MetadataMap] are not part of this repository:
    the operations the sources call are the methods of the classes [Http] and [Tonic], and
    the documented behaviour the proofs rely on is stated by [HttpLaws] and [TonicLaws].
    Header names appear as their canonical (lower-case) text, [HeaderName::as_str]. The
    module [AssocHttp] gives concrete instances, so every hypothesis here is satisfiable. *)
From S2P Require Import Prelude RustStd.

(** Bytes of visible ASCII, the ones [HeaderValue::from_str] accepts. *)
Definition visible (s : str) : bool := forallb (in_range 32 126) s.

Class Http : Type := {
  HeaderValue : Type;
  HeaderMap : Type;
  header_name : bytes -> option str;          (** [HeaderName::from_bytes(..)], canonical text *)
  value_from_str : str -> option HeaderValue; (** [HeaderValue::from_str(..).ok()] *)
  to_str : HeaderValue -> option str;         (** [value.to_str().ok()] *)
  hm_new : HeaderMap;
  hm_append : HeaderMap -> str -> HeaderValue -> HeaderMap;
  hm_insert : HeaderMap -> str -> HeaderValue -> HeaderMap;
  hm_get : HeaderMap -> str -> option HeaderValue;
  hm_get_all : HeaderMap -> str -> list HeaderValue;
  hm_iter : HeaderMap -> list (str * HeaderValue)
}.

(** The values an entry list holds for one name. *)
Definition values_of {V} (k : str) (l : list (str * V)) : list V :=
  map snd (filter (fun p => p.1 = k) l).

Class HttpLaws (H : Http) : Prop := {
  get_all_new k : hm_get_all hm_new k = [];
  get_all_append m k v k' :
    hm_get_all (hm_append m k v) k' = hm_get_all m k' ++ (if decide (k = k') then [v] else []);
  get_all_insert m k v k' :
    hm_get_all (hm_insert m k v) k' = if decide (k = k') then [v] else hm_get_all m k';
  get_head m k : hm_get m k = head (hm_get_all m k);
  iter_get_all m k : values_of k (hm_iter m) = hm_get_all m k;
  to_str_ascii v s : to_str v = Some s -> is_ascii s = true;
  from_str_visible s : visible s = true -> exists v, value_from_str s = Some v /\ to_str v = Some s
}.

(** [m.contains_key(k)], [m.is_empty()] through the values. *)
Definition contains_key `{Http} (m : HeaderMap) (k : str) : bool :=
  match hm_get m k with Some _ => true | None => false end.
Definition hm_is_empty `{Http} (m : HeaderMap) : bool :=
  match hm_iter m with [] => true | _ => false end.

(** Two maps that answer every lookup alike; iteration order between names is unspecified,
    so this and not equality is the equality of header maps. *)
Definition hm_equiv `{Http} : relation HeaderMap := fun m1 m2 => forall k, hm_get_all m1 k = hm_get_all m2 k.

(** An entry of [MetadataMap::iter]. *)
Inductive KeyAndValueRef (A B : Type) : Type :=
| KvAscii (name : str) (v : A)
| KvBinary (name : str) (v : B).
Arguments KvAscii {A B} name v.
Arguments KvBinary {A B} name v.

Definition kv_name {A B} (e : KeyAndValueRef A B) : str :=
  match e with KvAscii n _ | KvBinary n _ => n end.

Class Tonic (H : Http) : Type := {
  AsciiValue : Type;                          (** [MetadataValue<Ascii>] *)
  BinaryValue : Type;                         (** [MetadataValue<Binary>] *)
  MetadataMap : Type;
  ascii_key : str -> option str;              (** [s.parse::<AsciiMetadataKey>().ok()] *)
  binary_key : str -> option str;             (** [s.parse::<BinaryMetadataKey>().ok()] *)
  ascii_value : str -> option AsciiValue;     (** [MetadataValue::try_from(s).ok()] *)
  ascii_to_str : AsciiValue -> option str;    (** [v.to_str().ok()] *)
  binary_value : bytes -> BinaryValue;        (** [MetadataValue::from_bytes(b)] *)
  binary_to_bytes : BinaryValue -> option bytes; (** [v.to_bytes().ok()] *)
  md_new : MetadataMap;
  md_append : MetadataMap -> str -> AsciiValue -> MetadataMap;
  md_append_bin : MetadataMap -> str -> BinaryValue -> MetadataMap;
  md_iter : MetadataMap -> list (KeyAndValueRef AsciiValue BinaryValue);
  md_from_headers : HeaderMap -> MetadataMap;
  md_into_headers : MetadataMap -> HeaderMap
}.

(** The entries of one key, in order. *)
Definition entries_of {A B} (k : str) (l : list (KeyAndValueRef A B)) : list (KeyAndValueRef A B) :=
  filter (fun e => kv_name e = k) l.

Class TonicLaws (H : Http) (T : Tonic H) : Prop := {
  iter_new : md_iter md_new = [];
  iter_append m k v k' :
    entries_of k' (md_iter (md_append m k v))
    = entries_of k' (md_iter m) ++ (if decide (k = k') then [KvAscii k v] else []);
  iter_append_bin m k v k' :
    entries_of k' (md_iter (md_append_bin m k v))
    = entries_of k' (md_iter m) ++ (if decide (k = k') then [KvBinary k v] else []);
  ascii_key_name s k : ascii_key s = Some k -> header_name s = Some k;
  binary_key_name s k : binary_key s = Some k -> header_name s = Some k;
  ascii_value_str s v : ascii_value s = Some v -> ascii_to_str v = Some s;
  binary_value_bytes b : binary_to_bytes (binary_value b) = Some b;
  into_from_headers h : hm_equiv (md_into_headers (md_from_headers h)) h
}.

(** ** Lemmas *)

Section facts.
Context `{HL : HttpLaws}.

#[export] Instance hm_equiv_equivalence : Equivalence hm_equiv.
Proof.
  split; unfold hm_equiv; [done|by intros ??|]. intros a b c H1 H2 k. by rewrite H1.
Qed.

#[export] Instance hm_append_proper : Proper (hm_equiv ==> eq ==> eq ==> hm_equiv) hm_append.
Proof. intros m m' Hm k _ <- v _ <- k'. by rewrite !get_all_append, Hm. Qed.

#[export] Instance hm_get_proper : Proper (hm_equiv ==> eq ==> eq) hm_get.
Proof. intros m m' Hm k _ <-. by rewrite !get_head, Hm. Qed.

Lemma get_new k : hm_get hm_new k = None.
Proof. by rewrite get_head, get_all_new. Qed.

Lemma contains_key_iff m k : contains_key m k = true <-> hm_get_all m k <> [].
Proof. unfold contains_key. rewrite get_head. by destruct (hm_get_all m k). Qed.

(** Appending every entry of a list that satisfies [P] adds, name by name, the values it
    has for the names satisfying [P]. *)
Lemma get_all_foldl_append (P : str -> bool) l m k :
  hm_get_all (foldl (fun m p => if P p.1 then m else hm_append m p.1 p.2) m l) k
  = hm_get_all m k ++ (if P k then [] else values_of k l).
Proof.
  revert m. induction l as [|[n v] l IH]; intros m; simpl.
  - destruct (P k); by rewrite app_nil_r.
  - rewrite IH. unfold values_of. rewrite filter_cons. simpl.
    destruct (P n) eqn:En; [|rewrite get_all_append]; destruct (decide (n = k)) as [->|]; simpl.
    + by rewrite En.
    + done.
    + rewrite En. by rewrite <- app_assoc.
    + by rewrite app_nil_r.
Qed.
End facts.

(** ** Concrete instances *)

Module AssocHttp.

Definition token (b : byte) : bool :=
  is_ascii_alphanumeric b || bool_decide (b = "-"%byte) || bool_decide (b = "_"%byte)
  || bool_decide (b = "."%byte).
Definition name (s : bytes) : option str :=
  if nonempty s && forallb token s then Some (to_ascii_lowercase s) else None.

#[export] Instance http : Http := {|
  HeaderValue := str;
  HeaderMap := list (str * str);
  header_name := name;
  value_from_str s := if visible s then Some s else None;
  to_str s := if visible s then Some s else None;
  hm_new := [];
  hm_append m k v := m ++ [(k, v)];
  hm_insert m k v := filter (fun p => p.1 <> k) m ++ [(k, v)];
  hm_get m k := head (values_of k m);
  hm_get_all m k := values_of k m;
  hm_iter m := m
|}.

Definition bin_suffix (s : str) : bool := ends_with $"-bin" s.

#[export] Instance tonic : Tonic http := {|
  AsciiValue := str;
  BinaryValue := bytes;
  MetadataMap := list (KeyAndValueRef str bytes);
  ascii_key s := if bin_suffix s then None else name s;
  binary_key s := if bin_suffix s then name s else None;
  ascii_value s := if visible s then Some s else None;
  ascii_to_str s := Some s;
  binary_value b := b;
  binary_to_bytes b := Some b;
  md_new := [];
  md_append m k v := m ++ [KvAscii k v];
  md_append_bin m k v := m ++ [KvBinary k v];
  md_iter m := m;
  md_from_headers h := map (fun p => KvAscii p.1 p.2) h;
  md_into_headers m := map (fun e => match e with KvAscii k v => (k, v) | KvBinary k v => (k, v) end) m
|}.

Lemma values_of_app {V} k (l1 l2 : list (str * V)) : values_of k (l1 ++ l2) = values_of k l1 ++ values_of k l2.
Proof. unfold values_of. by rewrite filter_app, map_app. Qed.

Lemma values_of_insert k v k' (m : list (str * str)) :
  values_of k' (filter (fun p => p.1 <> k) m ++ [(k, v)]) = if decide (k = k') then [v] else values_of k' m.
Proof.
  rewrite values_of_app. unfold values_of at 2. rewrite filter_cons. simpl.
  destruct (decide (k = k')) as [->|Hne].
  - enough (values_of k' (filter (fun p => p.1 <> k') m) = []) as -> by done.
    unfold values_of. rewrite list_filter_filter.
    induction m as [|[n x] m IH]; [done|]. rewrite filter_cons. simpl.
    destruct (decide _) as [[]|]; [done|apply IH].
  - simpl. rewrite app_nil_r. unfold values_of. f_equal. rewrite list_filter_filter.
    apply list_filter_iff. intros [n x]. simpl. naive_solver.
Qed.

#[global] Instance http_laws : HttpLaws http.
Proof.
  split; simpl.
  - done.
  - intros m k v k'. rewrite values_of_app. f_equal. unfold values_of. rewrite filter_cons. simpl.
    by destruct (decide (k = k')).
  - intros m k v k'. apply values_of_insert.
  - done.
  - done.
  - intros v s. destruct (visible v) eqn:E; [|done]. intros [= <-].
    unfold visible, is_ascii in *. rewrite forallb_forall in *. intros b Hb. specialize (E b Hb).
    unfold in_range, bN in *. apply andb_prop in E as [_ E]. apply N.leb_le in E. apply N.ltb_lt. lia.
  - intros s Hs. exists s. by rewrite Hs.
Qed.

Lemma into_from (h : list (str * str)) :
  map (fun e : KeyAndValueRef str bytes => match e with KvAscii k v => (k, v) | KvBinary k v => (k, v) end)
    (map (fun p => KvAscii p.1 p.2) h) = h.
Proof. induction h as [|[k v] h IH]; simpl; congruence. Qed.

#[global] Instance tonic_laws : TonicLaws http tonic.
Proof.
  split; simpl.
  - done.
  - intros m k v k'. unfold entries_of. rewrite filter_app, filter_cons. simpl. by destruct (decide (k = k')).
  - intros m k v k'. unfold entries_of. rewrite filter_app, filter_cons. simpl. by destruct (decide (k = k')).
  - intros s k. by destruct (bin_suffix s).
  - intros s k. by destruct (bin_suffix s).
  - intros s v. destruct (visible s); congruence.
  - done.
  - intros h. rewrite into_from. reflexivity.
Qed.

End AssocHttp.
