(* ===== verification/GrpcFraming.v ===== *)
(** * gRPC wire framing ([rust/crates/grpc-webnext/src/grpc_framing.rs])

    [frame], the incremental [Deframer] and [deframe_all] of the server, with the chunked
    use [ws.rs] makes of the deframer ([push] a body chunk, then pull messages until there
    is none). *)
From S2P Require Import Prelude.

Definition HEADER_LEN : N := 5.

(** [pub fn frame(message: &[u8]) -> Bytes]: flag byte, [put_u32(len as u32)], message. *)
Definition frame (message : bytes) : bytes :=
  x00 :: be32 (blen message) ++ message.
Arguments frame message : simpl never.

Module Deframer.

Record t : Type := mk { buf : bytes }.

Definition new : t := mk [].

(** [pub fn push(&mut self, chunk: &[u8])] *)
Definition push (self : t) (chunk : bytes) : t := mk (buf self ++ chunk).

(** [pub fn next_message(&mut self) -> Option<Bytes>]: the length is peeked, and nothing
    is consumed unless the whole message is buffered. *)
Definition next_message (self : t) : option bytes * t :=
  if decide (blen (buf self) < HEADER_LEN) then (None, self)
  else match buf self with
  | _ :: b1 :: b2 :: b3 :: b4 :: _ =>
      let len := u32_be b1 b2 b3 b4 in
      if decide (blen (buf self) < HEADER_LEN + len) then (None, self)
      else
        let b := bdrop HEADER_LEN (buf self) in
        (Some (btake len b), mk (bdrop len b))
  | _ => (None, self)
  end.

(** [pub fn is_empty(&self) -> bool] *)
Definition is_empty (self : t) : bool := match buf self with [] => true | _ => false end.

(** [while let Some(m) = d.next_message() { out.push(m) }]: every message consumes at
    least the five header bytes, so the buffer's length bounds the iterations
    ([drain_fuel_stable], [drain_done]). *)
Fixpoint drain_fuel (fuel : nat) (self : t) : list bytes * t :=
  match fuel with
  | O => ([], self)
  | S fuel =>
      match next_message self with
      | (Some m, self') => let '(ms, d) := drain_fuel fuel self' in (m :: ms, d)
      | (None, self') => ([], self')
      end
  end.

Definition drain (self : t) : list bytes * t := drain_fuel (S (length (buf self))) self.

(** The loop of [ws::run_stream]: push each data frame, pull what is complete. *)
Fixpoint feed (self : t) (chunks : list bytes) : list bytes * t :=
  match chunks with
  | [] => ([], self)
  | c :: chunks' =>
      let '(ms, d) := drain (push self c) in
      let '(ms', d') := feed d chunks' in
      (ms ++ ms', d')
  end.

End Deframer.

(** [pub fn deframe_all(body: &[u8]) -> Vec<Bytes>] *)
Definition deframe_all (body : bytes) : list bytes :=
  (Deframer.drain (Deframer.push Deframer.new body)).1.

(** ** Lemmas *)

Module DeframerFacts.
Import Deframer.

(** The one way [next_message] can succeed. *)
Lemma next_message_Some d m d' :
  next_message d = (Some m, d') <->
  exists flag b1 b2 b3 b4,
    buf d = flag :: b1 :: b2 :: b3 :: b4 :: m ++ buf d' /\ blen m = u32_be b1 b2 b3 b4.
Proof.
  destruct d as [b]. unfold next_message, HEADER_LEN. simpl. split.
  - intros H. case_decide as E1; [done|].
    destruct b as [|flag [|b1 [|b2 [|b3 [|b4 b]]]]]; try done.
    case_decide as E2; [done|]. simplify_eq/=.
    exists flag, b1, b2, b3, b4. unfold bdrop at 1. simpl.
    change (bdrop 5 (flag :: b1 :: b2 :: b3 :: b4 :: b)) with b.
    rewrite btake_bdrop. split; [done|]. apply blen_btake. blia.
  - intros (flag & b1 & b2 & b3 & b4 & -> & Hlen).
    rewrite decide_False by blia. rewrite decide_False by blia.
    change (bdrop 5 (flag :: b1 :: b2 :: b3 :: b4 :: m ++ buf d')) with (m ++ buf d').
    rewrite <- Hlen, btake_app, bdrop_app. by destruct d'.
Qed.

Lemma next_message_None d d' : next_message d = (None, d') -> d' = d.
Proof. unfold next_message. repeat case_match; intros; simplify_eq; done. Qed.

(** Appending bytes does not change a message that is already complete. *)
Lemma next_message_push d m d' c :
  next_message d = (Some m, d') -> next_message (push d c) = (Some m, push d' c).
Proof.
  rewrite !next_message_Some. intros (f & b1 & b2 & b3 & b4 & Hb & Hl).
  exists f, b1, b2, b3, b4. split; [|done]. simpl. rewrite Hb. simpl. by rewrite <- app_assoc.
Qed.

Lemma next_message_shrinks d m d' :
  next_message d = (Some m, d') -> (length (buf d') < length (buf d))%nat.
Proof.
  intros (f & b1 & b2 & b3 & b4 & -> & _)%next_message_Some. simpl. rewrite length_app. lia.
Qed.

(** Enough fuel: any bound at least the buffer's length gives the same drain. *)
Lemma drain_fuel_stable n1 n2 d :
  (length (buf d) < n1)%nat -> (length (buf d) < n2)%nat -> drain_fuel n1 d = drain_fuel n2 d.
Proof.
  revert n2 d. induction n1 as [|n1 IH]; intros [|n2] d H1 H2; try lia. simpl.
  destruct (next_message d) as [[m|] d'] eqn:E; [|done].
  apply next_message_shrinks in E. by rewrite (IH n2) by lia.
Qed.

Lemma drain_unfold d :
  drain d = match next_message d with
            | (Some m, d') => let '(ms, d'') := drain d' in (m :: ms, d'')
            | (None, d') => ([], d')
            end.
Proof.
  unfold drain at 1. simpl. destruct (next_message d) as [[m|] d'] eqn:E; [|done].
  apply next_message_shrinks in E. unfold drain.
  by rewrite (drain_fuel_stable _ (S (length (buf d')))) by lia.
Qed.

(** Induction along the messages of a buffer. *)
Lemma drain_ind (P : t -> Prop) :
  (forall d, next_message d = (None, d) -> P d) ->
  (forall d m d', next_message d = (Some m, d') -> P d' -> P d) ->
  forall d, P d.
Proof.
  intros Hn Hs d. remember (length (buf d)) as n eqn:Hlen. revert d Hlen.
  induction n as [n IH] using lt_wf_ind; intros d ->.
  destruct (next_message d) as [[m|] d'] eqn:E.
  - eapply Hs; [done|]. eapply IH; [|done]. by eapply next_message_shrinks.
  - pose proof (next_message_None _ _ E) as ->. by apply Hn.
Qed.

(** The drain stops only when no complete message is left. *)
Lemma drain_done d : next_message (drain d).2 = (None, (drain d).2).
Proof.
  induction d as [d E|d m d' E IH] using drain_ind; rewrite drain_unfold, E; [done|].
  by destruct (drain d').
Qed.

(** Draining a prefix first and then the rest is draining everything at once. *)
Lemma drain_push d c :
  drain (push d c) = let '(ms, d1) := drain d in let '(ms', d2) := drain (push d1 c) in (ms ++ ms', d2).
Proof.
  induction d as [d E|d m d' E IH] using drain_ind.
  - rewrite (drain_unfold d), E. by destruct (drain (push d c)).
  - rewrite (drain_unfold (push d c)), (next_message_push _ _ _ c E), IH.
    rewrite (drain_unfold d), E. destruct (drain d') as [ms d1].
    by destruct (drain (push d1 c)).
Qed.

Lemma push_push d a b : push (push d a) b = push d (a ++ b).
Proof. unfold push. simpl. by rewrite app_assoc. Qed.

Lemma drain_idemp d ms d' : drain d = (ms, d') -> drain d' = ([], d').
Proof.
  intros E. pose proof (drain_done d) as H. rewrite E in H. simpl in H.
  by rewrite drain_unfold, H.
Qed.

Lemma feed_concat_aux d chunks :
  next_message d = (None, d) -> feed d chunks = drain (push d (concat chunks)).
Proof.
  revert d. induction chunks as [|c chunks IH]; intros d Hd; simpl.
  - unfold push. rewrite app_nil_r, drain_unfold. destruct d as [b]. simpl in *. by rewrite Hd.
  - rewrite <- push_push, (drain_push (push d c) (concat chunks)). destruct (drain (push d c)) as [ms d1] eqn:E.
    rewrite IH; [done|]. pose proof (drain_done (push d c)) as H. by rewrite E in H.
Qed.

Lemma next_message_frame m rest :
  blen m < two32 -> next_message (mk (frame m ++ rest)) = (Some m, mk rest).
Proof.
  intros Hm. apply next_message_Some. unfold frame. simpl.
  eexists _, _, _, _, _. split; [done|]. rewrite u32_be_be32. by rewrite N.mod_small.
Qed.

Lemma drain_frames ms rest :
  Forall (fun m => blen m < two32) ms ->
  drain (mk (concat (map frame ms) ++ rest)) =
  let '(ms', d) := drain (mk rest) in (ms ++ ms', d).
Proof.
  induction 1 as [|m ms Hm _ IH]; cbn [map concat]; [simpl; by destruct (drain (mk rest))|].
  rewrite <- app_assoc, drain_unfold, next_message_frame by done.
  rewrite IH. by destruct (drain (mk rest)).
Qed.

Lemma drain_nil : drain (mk []) = ([], mk []).
Proof. done. Qed.

(** What a drain returns is what the buffer encodes, flag bytes aside: a buffer is a
    sequence of [flag len message] records and a rest too short to hold one more. *)
Inductive parses : bytes -> list bytes -> bytes -> Prop :=
| parses_rest b : next_message (mk b) = (None, mk b) -> parses b [] b
| parses_msg flag m ms b rest :
    blen m < two32 -> parses b ms rest -> parses (flag :: be32 (blen m) ++ m ++ b) (m :: ms) rest.

Lemma drain_parses b : parses b (drain (mk b)).1 (buf (drain (mk b)).2).
Proof.
  change b with (buf (mk b)) at 1. generalize (mk b) as d. clear b.
  induction d as [d E|d m d' E IH] using drain_ind; rewrite drain_unfold, E; simpl.
  - constructor. by destruct d.
  - destruct (drain d') as [ms d'']. simpl in *.
    apply next_message_Some in E as (f & b1 & b2 & b3 & b4 & -> & Hl).
    replace (f :: b1 :: b2 :: b3 :: b4 :: m ++ buf d') with (f :: be32 (blen m) ++ m ++ buf d')
      by (by rewrite Hl, be32_u32_be).
    constructor; [|done]. rewrite Hl. apply u32_be_lt.
Qed.
End DeframerFacts.

(** ** Properties *)

(** Chunking is invisible: however the HTTP/2 body stream splits the bytes, the messages
    pulled and the bytes left over are those of the whole body. *)
Theorem feed_chunking_invisible (chunks : list bytes) :
  Deframer.feed Deframer.new chunks = Deframer.drain (Deframer.push Deframer.new (concat chunks)).
Proof. by apply DeframerFacts.feed_concat_aux. Qed.

(** C18: Round trip over any transport chunking: framing messages shorter than 2^32 bytes and
    de-framing the stream they make gives the messages back, in order, with nothing left. *)
Theorem frame_feed_roundtrip (ms : list bytes) (chunks : list bytes)
  (Hlen : Forall (fun m => blen m < two32) ms)
  (Hwire : concat chunks = concat (map frame ms)) :
  Deframer.feed Deframer.new chunks = (ms, Deframer.new) /\ deframe_all (concat chunks) = ms.
Proof.
  assert (Deframer.feed Deframer.new chunks = Deframer.drain (Deframer.push Deframer.new (concat chunks))) as ->
    by by apply DeframerFacts.feed_concat_aux.
  unfold deframe_all. rewrite Hwire.
  unfold Deframer.push. simpl. rewrite <- (app_nil_r (concat _)).
  rewrite DeframerFacts.drain_frames by done. rewrite DeframerFacts.drain_nil. simpl.
  by rewrite app_nil_r.
Qed.

(** ** Witnesses *)

Lemma frame_feed_roundtrip_witness :
  Deframer.feed Deframer.new [[x00; x00; x00]; [x00; x01; x41; x00]; [x00; x00; x00; x00]] = ([[x41]; []], Deframer.new)
  /\ deframe_all (concat [[x00; x00; x00]; [x00; x01; x41; x00]; [x00; x00; x00; x00]]) = [[x41]; []].
Proof.
  apply (frame_feed_roundtrip [[x41]; []]); [|reflexivity].
  repeat constructor.
Defined.
