(* ===== verification/Metadata.v ===== *)
(** * Metadata and header values ([rust/crates/grpc-webnext/src/metadata.rs])

    The denylist, header <-> metadata conversion, [grpc-timeout] parsing and printing, the
    status read off a response, and the [grpc-message] percent coding. *)
From S2P Require Import Prelude RustStd Http.

Definition DENY : list str :=
  [$"host"; $"connection"; $"content-length"; $"content-type"; $"keep-alive";
   $"proxy-connection"; $"transfer-encoding"; $"te"; $"upgrade"; $"grpc-timeout";
   $"grpc-status"; $"grpc-message"; $"grpc-status-details-bin"; $"grpc-encoding";
   $"grpc-accept-encoding"].

Definition is_denied (name : str) : bool := bool_decide (name ∈ DENY).
Definition is_denied_str (key : str) : bool := bool_decide (key ∈ DENY).

(** ** Percent coding of [grpc-message] *)

Definition passes_through (b : byte) : bool :=
  is_ascii_alphanumeric b
  || bool_decide (b ∈ [" "; "-"; "_"; "."; "/"; ":"]%byte).

Fixpoint percent_encode (s : str) : str :=
  match s with
  | [] => []
  | b :: s' => if passes_through b then b :: percent_encode s' else "%"%byte :: fmt_02X b ++ percent_encode s'
  end.

(** The byte loop of [percent_decode]. [&s[i + 1..i + 3]] is a [&str] slice: it panics
    unless both ends are char boundaries. *)
Fixpoint percent_decode_bytes (s : bytes) : run bytes :=
  match s with
  | [] => Done []
  | c :: s1 =>
      match s1 with
      | h1 :: ((h2 :: s3) as s2) =>
          if decide (c = "%"%byte) then
            if boundary_here s1 && boundary_here s3 then
              match parse_uint 16 u8_max [h1; h2] with
              | Some v => out ← percent_decode_bytes s3; Done (byte_of_N v :: out)
              | None => out ← percent_decode_bytes s1; Done (c :: out)
              end
            else Panic
          else out ← percent_decode_bytes s1; Done (c :: out)
      | _ => out ← percent_decode_bytes s1; Done (c :: out)
      end
  end.

Definition percent_decode (s : str) : run str := from_utf8_lossy <$> percent_decode_bytes s.

(** ** [grpc-timeout] *)

(** The unit table of [parse_grpc_timeout], applied to the parsed value. *)
Definition timeout_of (n : N) (unit : str) : option duration :=
  if decide (unit = $"H") then from_secs <$> checked_mul_u64 n 3600
  else if decide (unit = $"M") then from_secs <$> checked_mul_u64 n 60
  else if decide (unit = $"S") then Some (from_secs n)
  else if decide (unit = $"m") then Some (from_millis n)
  else if decide (unit = $"u") then Some (from_micros n)
  else if decide (unit = $"n") then Some (from_nanos n)
  else None.

(** The value of the header: [raw.split_at(raw.len() - 1)] panics off a char boundary. *)
Definition parse_timeout_text (raw : str) : run (option duration) :=
  match raw with
  | [] => Done None
  | _ =>
      let mid := blen raw - 1 in
      if is_char_boundary raw mid then
        Done (n ← parse_u64 (btake mid raw); timeout_of n (bdrop mid raw))
      else Panic
  end.

Definition parse_grpc_timeout `{Http} (headers : HeaderMap) : run (option duration) :=
  match hm_get headers $"grpc-timeout" with
  | None => Done None
  | Some v => match to_str v with None => Done None | Some raw => parse_timeout_text raw end
  end.

(** The header text [format_grpc_timeout] writes. *)
Definition format_grpc_timeout (d : duration) : str :=
  fmt_dec (N.min (as_millis d) u64_max) ++ $"m".

Definition grpc_timeout_from_millis (timeout_millis : N) : option duration :=
  if timeout_millis =? 0 then None else Some (from_millis timeout_millis).

(** [crate::DEADLINE_GRACE] ([lib.rs]). *)
Definition DEADLINE_GRACE : duration := from_millis 500.

(** ** Metadata of a frame *)

Inductive metadatum_value : Type :=
| AsciiVal (s : str)
| BinVal (b : bytes).

Record Metadatum : Type := mkMetadatum { key : str; value : option metadatum_value }.

#[global] Instance metadatum_value_eq_dec : EqDecision metadatum_value.
Proof. solve_decision. Defined.
#[global] Instance Metadatum_eq_dec : EqDecision Metadatum.
Proof. solve_decision. Defined.
#[global] Instance metadatum_value_countable : Countable metadatum_value.
Proof.
  apply (inj_countable' (fun v => match v with AsciiVal s => inl s | BinVal b => inr b end)
    (fun x => match x with inl s => AsciiVal s | inr b => BinVal b end)).
  by intros [].
Defined.
#[global] Instance Metadatum_countable : Countable Metadatum.
Proof.
  apply (inj_countable' (fun m => (key m, value m)) (fun x => mkMetadatum x.1 x.2)). by intros [].
Defined.

Section metadata.
Context {H : Http} {T : Tonic H}.

Definition request_headers_to_metadata (headers : HeaderMap) : MetadataMap :=
  md_from_headers
    (foldl (fun m p => if is_denied p.1 then m else hm_append m p.1 p.2) hm_new (hm_iter headers)).

Definition merge_metadata_into_headers (meta : MetadataMap) (headers : HeaderMap) : HeaderMap :=
  foldl (fun m p => if is_denied p.1 then m else hm_append m p.1 p.2) headers
    (hm_iter (md_into_headers meta)).

(** One iteration of the loop of [metadata_vec_to_metadata]. *)
Definition metadatum_step (md : MetadataMap) (m : Metadatum) : MetadataMap :=
  match header_name (key m) with
  | None => md
  | Some n =>
      if is_denied n then md
      else match value m with
      | Some (AsciiVal s) =>
          match ascii_key (key m), ascii_value s with
          | Some k, Some v => md_append md k v
          | _, _ => md
          end
      | Some (BinVal b) =>
          match binary_key (key m) with
          | Some k => md_append_bin md k (binary_value b)
          | None => md
          end
      | None => md
      end
  end.

Definition metadata_vec_to_metadata (items : list Metadatum) : MetadataMap :=
  foldl metadatum_step md_new items.

(** One entry of the loop of [metadata_to_vec]. *)
Definition entry_to_metadatum (e : KeyAndValueRef AsciiValue BinaryValue) : option Metadatum :=
  match e with
  | KvAscii name v =>
      if is_denied_str name then None
      else (fun s => mkMetadatum name (Some (AsciiVal s))) <$> ascii_to_str v
  | KvBinary name v =>
      if is_denied_str name then None
      else (fun b => mkMetadatum name (Some (BinVal b))) <$> binary_to_bytes v
  end.

Definition metadata_to_vec (meta : MetadataMap) : list Metadatum :=
  omap entry_to_metadatum (md_iter meta).

(** [read_status]: trailers first, then headers; an unreadable code is 0. *)
Definition read_status (trailers headers : HeaderMap) : run (N * str) :=
  let get := fun name =>
    match hm_get trailers name with Some v => Some v | None => hm_get headers name end in
  let code := default 0 (v ← get $"grpc-status"; s ← to_str v; parse_u32 s) in
  message ← match (v ← get $"grpc-message"; to_str v) with
            | Some s => percent_decode s
            | None => Done []
            end;
  Done (code, message).
End metadata.

(** ** Lemmas *)

Section percent.

Lemma percent_decode_plain c t : c <> "%"%byte ->
  percent_decode_bytes (c :: t) = (out ← percent_decode_bytes t; Done (c :: out)).
Proof. intros Hc. destruct t as [|h1 [|h2 t]]; [done..|]. simpl. by rewrite decide_False. Qed.

Lemma percent_decode_pct h1 h2 t :
  percent_decode_bytes ("%"%byte :: h1 :: h2 :: t) =
  if boundary_here (h1 :: h2 :: t) && boundary_here t then
    match parse_uint 16 u8_max [h1; h2] with
    | Some v => out ← percent_decode_bytes t; Done (byte_of_N v :: out)
    | None => out ← percent_decode_bytes (h1 :: h2 :: t); Done ("%"%byte :: out)
    end
  else Panic.
Proof. reflexivity. Qed.

Lemma passes_through_visible b : passes_through b = true -> in_range 32 126 b = true /\ b <> "%"%byte.
Proof. by destruct b. Qed.

Lemma fmt_02X_visible b : visible (fmt_02X b) = true.
Proof. by destruct b. Qed.

Lemma visible_ascii s : visible s = true -> is_ascii s = true.
Proof.
  apply forallb_impl. intros b. rewrite in_range_spec, N.ltb_lt. lia.
Qed.

Lemma percent_encode_visible s : visible (percent_encode s) = true.
Proof.
  induction s as [|b s IH]; [done|]. simpl. destruct (passes_through b) eqn:E; simpl.
  - apply passes_through_visible in E as [E _]. by rewrite E.
  - change (visible ([hex_digit (bN b / 16); hex_digit (bN b mod 16)] ++ percent_encode s) = true).
    unfold visible. rewrite forallb_app. apply andb_true_intro. split; [apply fmt_02X_visible|done].
Qed.

Lemma percent_decode_encode_bytes s : percent_decode_bytes (percent_encode s) = Done s.
Proof.
  induction s as [|b s IH]; [done|]. simpl. destruct (passes_through b) eqn:E.
  - apply passes_through_visible in E as [_ E]. by rewrite percent_decode_plain, IH.
  - unfold fmt_02X. cbn [app]. rewrite percent_decode_pct.
    change [hex_digit (bN b / 16); hex_digit (bN b mod 16)] with (fmt_02X b).
    rewrite parse_hex_02X, (ascii_boundary (percent_encode s)), IH
      by apply visible_ascii, percent_encode_visible.
    replace (boundary_here _) with true by (by destruct b). simpl.
    unfold bN. by rewrite byte_of_to_N.
Qed.

Lemma percent_decode_bytes_ascii n s :
  (length s <= n)%nat -> is_ascii s = true -> exists out, percent_decode_bytes s = Done out.
Proof.
  revert s. induction n as [|n IH]; intros [|c s] Hl Ha; simpl in Hl; try lia; [by eexists..|].
  rewrite is_ascii_cons, andb_true_iff in Ha. destruct Ha as [Hc Ha].
  destruct (IH s) as [out Hout]; [lia|done|].
  destruct (decide (c = "%"%byte)) as [->|Hne].
  - destruct s as [|h1 [|h2 s]]; [by eexists..|].
    pose proof Ha as Ha'. rewrite !is_ascii_cons, !andb_true_iff in Ha'. destruct Ha' as (_ & _ & Hs).
    destruct (IH s) as [out' Hout']; [simpl in *; lia|done|].
    rewrite percent_decode_pct, (ascii_boundary _ Ha), (ascii_boundary _ Hs). simpl andb. cbv iota.
    destruct (parse_uint 16 u8_max [h1; h2]); rewrite ?Hout, ?Hout'; by eexists.
  - rewrite percent_decode_plain, Hout by done. by eexists.
Qed.
End percent.

Lemma percent_decode_ascii s : is_ascii s = true -> exists out, percent_decode s = Done out.
Proof.
  intros H. destruct (percent_decode_bytes_ascii (length s) s) as [out Ho]; [done..|].
  unfold percent_decode. rewrite Ho. by eexists.
Qed.

(** Text without escapes decodes to itself. *)
Lemma percent_decode_id s : is_ascii s = true -> "%"%byte ∉ s -> percent_decode s = Done s.
Proof.
  intros Ha Hp. unfold percent_decode. assert (percent_decode_bytes s = Done s) as ->.
  { clear Ha. induction s as [|c s IH]; [done|]. rewrite not_elem_of_cons in Hp. destruct Hp as [Hc Hp].
    by rewrite percent_decode_plain, IH by congruence. }
  cbn. by rewrite from_utf8_lossy_valid by (by apply ascii_utf8_valid).
Qed.

Lemma percent_decode_encode s : utf8_valid s = true -> percent_decode (percent_encode s) = Done s.
Proof.
  intros H. unfold percent_decode. rewrite percent_decode_encode_bytes. simpl.
  by rewrite from_utf8_lossy_valid.
Qed.

(** ** Lemmas on timeouts *)

Lemma boundary_at_ascii s i : is_ascii s = true -> is_char_boundary s i = true.
Proof.
  intros H. unfold is_char_boundary. rewrite ascii_boundary; [by rewrite orb_true_r|].
  unfold bdrop. rewrite <- (take_drop (N.to_nat i) s), is_ascii_app in H. by apply andb_prop in H as [_ H].
Qed.

Lemma parse_timeout_text_app s u :
  is_ascii (s ++ [u]) = true ->
  parse_timeout_text (s ++ [u]) = Done (n ← parse_u64 s; timeout_of n [u]).
Proof.
  intros Ha. unfold parse_timeout_text. destruct (s ++ [u]) as [|x l] eqn:E; [by destruct s|].
  rewrite <- E in *. rewrite boundary_at_ascii by done.
  replace (blen (s ++ [u]) - 1) with (blen s) by blia. by rewrite btake_app, bdrop_app.
Qed.

(** A millisecond count, as both sides print it. *)
Lemma parse_timeout_millis n :
  parse_timeout_text (fmt_dec n ++ $"m") = Done (if n <=? u64_max then Some (from_millis n) else None).
Proof.
  change ($"m") with ["m"%byte]. rewrite parse_timeout_text_app.
  - unfold parse_u64. destruct (N.leb_spec n u64_max).
    + by rewrite parse_fmt_dec.
    + by rewrite parse_fmt_dec_overflow.
  - rewrite is_ascii_app, andb_true_r. apply (forallb_impl (in_range 48 57)); [|apply fmt_dec_digits].
    intros b. rewrite in_range_spec, N.ltb_lt. lia.
Qed.

Lemma parse_timeout_text_ascii raw :
  is_ascii raw = true ->
  parse_timeout_text raw = Done None \/
  exists n u, parse_u64 (btake (blen raw - 1) raw) = Some n /\
              parse_timeout_text raw = Done (timeout_of n [u]).
Proof.
  intros Ha. destruct raw as [|x l] using rev_ind; [by left|].
  rewrite parse_timeout_text_app by done.
  replace (blen (l ++ [x]) - 1) with (blen l) by blia. rewrite btake_app.
  destruct (parse_u64 l) as [n|]; [right|by left]. by exists n, x.
Qed.

Lemma parse_u64_lt s n : parse_u64 s = Some n -> n < two64.
Proof.
  intros H%parse_uint_le. unfold u64_max, two64 in *. lia.
Qed.

(** A parsed timeout is a well-formed duration far enough from the top of the range that
    the grace can be added: the units with a fractional part cannot fill the seconds. *)
Lemma timeout_of_wf n u d : n < two64 -> timeout_of n u = Some d ->
  duration_wf d /\ (secs d < two64 - 1 \/ nanos d = 0).
Proof.
  intros Hn H.
  assert (d = from_millis n \/ d = from_micros n \/ d = from_nanos n \/ exists k, k < two64 /\ d = from_secs k)
    as Hcases.
  { revert H. unfold timeout_of, checked_mul_u64. repeat case_decide; try done.
    1: destruct (N.ltb_spec (n * 3600) two64); [|done].
    2: destruct (N.ltb_spec (n * 60) two64); [|done].
    all: intros [= <-]; eauto 8. }
  assert (forall b, 1 < b -> n / b < two64 - 1) as Hq.
  { intros b Hb. apply N.Div0.div_lt_upper_bound. unfold two64 in *. nia. }
  unfold duration_wf. destruct Hcases as [->|[->|[->|(k & Hk & ->)]]]; simpl.
  - specialize (Hq 1000 ltac:(done)). pose proof (N.mod_lt n 1000 ltac:(done)). nlia.
  - specialize (Hq 1000000 ltac:(done)). pose proof (N.mod_lt n 1000000 ltac:(done)). nlia.
  - specialize (Hq 1000000000 ltac:(done)). pose proof (N.mod_lt n 1000000000 ltac:(done)). nlia.
  - lia.
Qed.

Lemma duration_add_grace d :
  duration_wf d -> secs d < two64 - 1 \/ nanos d = 0 ->
  exists d', duration_add d DEADLINE_GRACE = Done d' /\ as_nanos d' = as_nanos d + 500000000.
Proof.
  intros Hwf Hd. assert (exists d', duration_add d DEADLINE_GRACE = Done d') as [d' Hd'].
  - unfold duration_add, duration_wf in *. change (secs DEADLINE_GRACE) with 0.
    change (nanos DEADLINE_GRACE) with 500000000. unfold two64 in *.
    destruct (N.ltb_spec (nanos d + 500000000) 1000000000).
    + destruct (N.ltb_spec (secs d + 0 + 0) 18446744073709551616); [eauto|lia].
    + destruct (N.ltb_spec (secs d + 0 + 1) 18446744073709551616); [eauto|lia].
  - exists d'. split; [done|]. apply duration_add_wf in Hd'; [|done|done]. by destruct Hd' as [_ ->].
Qed.

(** ** Lemmas on metadata *)

Section metadata_facts.
Context {H : Http} {HL : HttpLaws H} {T : Tonic H} {TL : TonicLaws H T}.

(** What survives the trip through a [MetadataMap]: the canonical key, if the key is legal,
    of the right kind for its value, and not denied. *)
Definition normalize (m : Metadatum) : option Metadatum :=
  match header_name (key m), value m with
  | Some n, Some (AsciiVal s) =>
      if is_denied n then None
      else match ascii_key (key m), ascii_value s with
      | Some k, Some _ => Some (mkMetadatum k (Some (AsciiVal s)))
      | _, _ => None
      end
  | Some n, Some (BinVal b) =>
      if is_denied n then None
      else (fun k => mkMetadatum k (Some (BinVal b))) <$> binary_key (key m)
  | _, _ => None
  end.

Lemma entries_of_snoc {A B} k (l : list (KeyAndValueRef A B)) e :
  entries_of k (l ++ [e]) = entries_of k l ++ (if decide (kv_name e = k) then [e] else []).
Proof. unfold entries_of. rewrite filter_app, filter_cons. by destruct (decide _). Qed.

Lemma entry_to_metadatum_key e m : entry_to_metadatum e = Some m -> key m = kv_name e.
Proof.
  destruct e as [n v|n v]; simpl; destruct (is_denied_str n); try done; intros H';
    apply fmap_Some in H' as (x & _ & ->); done.
Qed.

(** Filtering the produced list by key is producing from the entries of that key. *)
Lemma filter_omap_entries k l :
  filter (fun m => key m = k) (omap entry_to_metadatum l) = omap entry_to_metadatum (entries_of k l).
Proof.
  unfold entries_of. induction l as [|e l IH]; [done|].
  rewrite (filter_cons (fun e => kv_name e = k)). csimpl.
  destruct (entry_to_metadatum e) as [m|] eqn:E.
  - rewrite filter_cons, (entry_to_metadatum_key _ _ E).
    destruct (decide (kv_name e = k)); csimpl; rewrite ?E; by rewrite IH.
  - destruct (decide (kv_name e = k)); csimpl; rewrite ?E; by rewrite IH.
Qed.

Lemma metadatum_step_spec md m k :
  omap entry_to_metadatum (entries_of k (md_iter (metadatum_step md m)))
  = omap entry_to_metadatum (entries_of k (md_iter md))
    ++ filter (fun m => key m = k) (match normalize m with Some m' => [m'] | None => [] end).
Proof.
  unfold metadatum_step, normalize.
  destruct (header_name (key m)) as [n|] eqn:En; [|by rewrite app_nil_r].
  destruct (is_denied n) eqn:Ed; [by destruct (value m) as [[]|]; rewrite app_nil_r|].
  destruct (value m) as [[s|b]|]; [| |by rewrite app_nil_r].
  - destruct (ascii_key (key m)) as [k'|] eqn:Ek; [|by rewrite app_nil_r].
    destruct (ascii_value s) as [v|] eqn:Ev; [|by rewrite app_nil_r].
    rewrite iter_append, omap_app. f_equal. rewrite filter_cons. simpl.
    apply ascii_key_name in Ek. simplify_eq. apply ascii_value_str in Ev.
    destruct (decide _); [|done]. simpl. unfold is_denied, is_denied_str in *. by rewrite Ed, Ev.
  - destruct (binary_key (key m)) as [k'|] eqn:Ek; simpl; [|by rewrite app_nil_r].
    rewrite iter_append_bin, omap_app. f_equal. rewrite filter_cons. simpl.
    apply binary_key_name in Ek. simplify_eq.
    destruct (decide _); [|done]. simpl. unfold is_denied, is_denied_str in *.
    by rewrite Ed, binary_value_bytes.
Qed.
End metadata_facts.

(** ** Properties *)

Section properties.
Context {H : Http} {HL : HttpLaws H} {T : Tonic H} {TL : TonicLaws H T}.

(** C33: Denied headers (hop-by-hop, framing, set by gRPC itself) are never forwarded and every
    other one keeps all of its values in order, when request headers become metadata and
    when metadata is merged into response headers. *)
Theorem deny_filter_exact (headers : HeaderMap) (meta : MetadataMap) (k : str) :
  hm_get_all (md_into_headers (request_headers_to_metadata headers)) k
    = (if is_denied k then [] else hm_get_all headers k)
  /\ hm_get_all (merge_metadata_into_headers meta headers) k
    = hm_get_all headers k ++ (if is_denied k then [] else hm_get_all (md_into_headers meta) k).
Proof.
  split.
  - unfold request_headers_to_metadata. rewrite into_from_headers.
    rewrite get_all_foldl_append, get_all_new, iter_get_all. done.
  - unfold merge_metadata_into_headers. by rewrite get_all_foldl_append, iter_get_all.
Qed.

(** Frame metadata through a [MetadataMap] and back: key by key, in order, exactly the
    entries whose key is legal, of the kind of its value and not denied come back, under
    the canonical key; binary values are the raw bytes they were. *)
Theorem metadata_vec_roundtrip (items : list Metadatum) (k : str) :
  filter (fun m => key m = k) (metadata_to_vec (metadata_vec_to_metadata items))
  = filter (fun m => key m = k) (omap normalize items).
Proof.
  unfold metadata_to_vec, metadata_vec_to_metadata. rewrite filter_omap_entries.
  induction items as [|m items IH] using rev_ind; [simpl; by rewrite iter_new|].
  rewrite foldl_app. simpl. rewrite metadatum_step_spec, IH, omap_app, filter_app. done.
Qed.

(** The status survives its trip through response headers: what [json_fetch_response]
    writes (a decimal [grpc-status] and a percent-encoded [grpc-message]) reads back as
    the same code and message, whatever the message's characters. *)
Theorem read_status_roundtrip (code : N) (msg : str) (headers : HeaderMap) (vc vm : HeaderValue)
  (Hcode : code <= u32_max) (Hmsg : utf8_valid msg = true)
  (Hvc : value_from_str (fmt_dec code) = Some vc)
  (Hvm : value_from_str (percent_encode msg) = Some vm) :
  read_status (hm_append (hm_append hm_new $"grpc-status" vc) $"grpc-message" vm) headers = Done (code, msg).
Proof.
  assert (visible (fmt_dec code) = true) as Hvis.
  { apply (forallb_impl (in_range 48 57)); [|apply fmt_dec_digits].
    intros b. rewrite !in_range_spec. lia. }
  destruct (from_str_visible _ Hvis) as (vc' & Hc1 & Hc2).
  destruct (from_str_visible _ (percent_encode_visible msg)) as (vm' & Hm1 & Hm2). simplify_eq.
  unfold read_status. rewrite !get_head, !get_all_append, !get_all_new. decide_closed. simpl.
  rewrite Hc2, Hm2. simpl. rewrite percent_decode_encode by done. simpl.
  unfold parse_u32. by rewrite parse_fmt_dec.
Qed.

(** Reading a status, or a [grpc-timeout], from any header maps returns: header text is
    ASCII, so neither the slice in [percent_decode] nor [split_at] can panic. *)
Theorem header_readers_total (trailers headers : HeaderMap) :
  (exists code msg, read_status trailers headers = Done (code, msg))
  /\ exists t, parse_grpc_timeout headers = Done t.
Proof.
  split.
  - unfold read_status.
    match goal with
    | |- context [match ?v with Some s => percent_decode s | None => _ end] =>
        destruct v as [s|] eqn:E; [|by eexists _, _]
    end.
    destruct (percent_decode_ascii s) as [out Ho].
    { apply bind_Some in E as (x & _ & Hx). by eapply to_str_ascii. }
    rewrite Ho. by eexists _, _.
  - unfold parse_grpc_timeout. destruct (hm_get headers _) as [v|]; [|by eexists].
    destruct (to_str v) as [raw|] eqn:E; [|by eexists].
    destruct (parse_timeout_text_ascii raw) as [->|(n & u & _ & ->)]; [|by eexists..].
    by eapply to_str_ascii.
Qed.

(** Whatever [grpc-timeout] a client sends, the forwarded deadline [d + DEADLINE_GRACE]
    is computed without overflow and is 500 ms later. *)
Theorem timeout_grace_no_overflow (headers : HeaderMap) (d : duration)
  (Hd : parse_grpc_timeout headers = Done (Some d)) :
  duration_wf d /\
  exists d', duration_add d DEADLINE_GRACE = Done d' /\ as_nanos d' = as_nanos d + 500000000.
Proof.
  unfold parse_grpc_timeout in Hd. destruct (hm_get headers _) as [v|]; [|done].
  destruct (to_str v) as [raw|] eqn:E; [|done]. apply to_str_ascii in E.
  destruct (parse_timeout_text_ascii raw E) as [Hr|(n & u & Hn & Hr)]; rewrite Hr in Hd; [done|].
  injection Hd as Hd. apply parse_u64_lt in Hn.
  destruct (timeout_of_wf n [u] d) as [Hwf Hs]; [done..|].
  split; [done|]. by apply duration_add_grace.
Qed.
End properties.

(** A deadline written by [format_grpc_timeout] and read back by [parse_grpc_timeout] is the
    deadline to the millisecond, for every duration Rust can represent up to the [u64]
    range of milliseconds (beyond which it saturates). *)
Theorem grpc_timeout_roundtrip (d : duration) :
  parse_timeout_text (format_grpc_timeout d) = Done (Some (from_millis (N.min (as_millis d) u64_max))).
Proof.
  unfold format_grpc_timeout. rewrite parse_timeout_millis.
  destruct (N.leb_spec (N.min (as_millis d) u64_max) u64_max); [done|lia].
Qed.

(** ** Witnesses *)

Lemma read_status_roundtrip_witness :
  read_status (H := AssocHttp.http)
    [($"grpc-status", $"5"); ($"grpc-message", $"no %25 such: %C3%A9")] [] = Done (5, $"no % such: " ++ [xc3; xa9]).
Proof.
  exact (read_status_roundtrip (H := AssocHttp.http) 5 ($"no % such: " ++ [xc3; xa9]) []
           $"5" $"no %25 such: %C3%A9" ltac:(unfold u32_max; lia) eq_refl eq_refl eq_refl).
Defined.

Lemma timeout_grace_no_overflow_witness :
  exists d', duration_add (from_secs 18446744073709551615) DEADLINE_GRACE = Done d'
             /\ as_nanos d' = as_nanos (from_secs 18446744073709551615) + 500000000.
Proof.
  apply (timeout_grace_no_overflow (H := AssocHttp.http) [($"grpc-timeout", $"18446744073709551615S")]).
  vm_compute. reflexivity.
Defined.

Lemma deny_filter_exact_witness :
  let hs := [($"content-type", $"application/grpc"); ($"x-a", $"1"); ($"x-a", $"2")] in
  let md := request_headers_to_metadata (H := AssocHttp.http) (T := AssocHttp.tonic) hs in
  hm_get_all (Http := AssocHttp.http) (md_into_headers md) $"content-type" = []
  /\ hm_get_all (Http := AssocHttp.http) (md_into_headers md) $"x-a" = [$"1"; $"2"].
Proof.
  intros hs md. split; unfold md.
  - rewrite (proj1 (deny_filter_exact (H := AssocHttp.http) (T := AssocHttp.tonic) hs [] $"content-type")).
    vm_compute. reflexivity.
  - rewrite (proj1 (deny_filter_exact (H := AssocHttp.http) (T := AssocHttp.tonic) hs [] $"x-a")).
    vm_compute. reflexivity.
Defined.

Lemma metadata_vec_roundtrip_witness :
  filter (fun m => key m = $"x-a")
    (metadata_to_vec (T := AssocHttp.tonic) (metadata_vec_to_metadata
       [mkMetadatum $"X-A" (Some (AsciiVal $"1")); mkMetadatum $"te" (Some (AsciiVal $"trailers"));
        mkMetadatum $"x-a" (Some (BinVal [x01]))]))
  = [mkMetadatum $"x-a" (Some (AsciiVal $"1"))].
Proof.
  rewrite (metadata_vec_roundtrip (T := AssocHttp.tonic)). vm_compute. reflexivity.
Defined.

Lemma header_readers_total_witness :
  exists t, parse_grpc_timeout (H := AssocHttp.http) [($"grpc-timeout", $"12q")] = Done t.
Proof. exact (proj2 (header_readers_total (H := AssocHttp.http) [] _)). Defined.
