(* ===== verification/Framing.v ===== *)
(** * Fetch unary framing ([rust/crates/grpc-webnext/src/framing.rs])

    A unary body is two 4-byte-big-endian length-prefixed blocks, the message and the
    [Trailer]. The protobuf coding of [Trailer] is generated code over [prost]: a parameter,
    with its round trip as the hypothesis where one is needed. *)
From S2P Require Import Prelude RustStd GrpcFraming Metadata.

Definition LEN_PREFIX : N := 4.

Record Trailer : Type := mkTrailer {
  status_code : N;
  status_message : str;
  trailers : list Metadatum
}.

#[global] Instance Trailer_eq_dec : EqDecision Trailer.
Proof. solve_decision. Defined.

Definition EMPTY_MESSAGE_BLOCK : bytes := [x00; x00; x00; x00].

(** [encode_request_body]: one [u32 len | message] block. *)
Definition encode_request_body (message : bytes) : bytes := be32 (blen message) ++ message.

Section framing.
Context {DecodeError : Type}.
Context (trailer_encode : Trailer -> bytes) (trailer_decode : bytes -> result DecodeError Trailer).

Inductive FetchError : Type :=
| TooLarge (limit : N)
| Truncated (expected had : N)
| Decode (e : DecodeError).

Definition encode_response_body (message : bytes) (trailer : Trailer) : bytes :=
  let trailer_len := blen (trailer_encode trailer) in
  be32 (blen message) ++ message ++ be32 trailer_len ++ trailer_encode trailer.

Definition encode_trailer_block (trailer : Trailer) : bytes :=
  let trailer_len := blen (trailer_encode trailer) in
  be32 trailer_len ++ trailer_encode trailer.

(** [take_block(body: &mut Bytes)]: the block and the advanced body. *)
Definition take_block (body : bytes) : result FetchError (bytes * bytes) :=
  match body with
  | b1 :: b2 :: b3 :: b4 :: rest =>
      let len := u32_be b1 b2 b3 b4 in
      if decide (blen rest < len) then Err (Truncated len (blen rest))
      else Ok (btake len rest, bdrop len rest)
  | _ => Err (Truncated LEN_PREFIX (blen body))
  end.

Definition decode_response_body (body : bytes) (limit : N) : result FetchError (bytes * Trailer) :=
  if decide (limit < blen body) then Err (TooLarge limit)
  else
    '(message, body) ← take_block body;
    '(trailer_bytes, _) ← take_block body;
    trailer ← map_err Decode (trailer_decode trailer_bytes);
    Ok (message, trailer).

(** ** Lemmas *)

Lemma take_block_block m rest :
  blen m < two32 -> take_block (be32 (blen m) ++ m ++ rest) = Ok (m, rest).
Proof.
  intros Hm. unfold take_block. simpl. rewrite u32_be_be32, N.mod_small by done.
  rewrite decide_False by blia. by rewrite btake_app, bdrop_app.
Qed.

Lemma take_block_Ok body m rest :
  take_block body = Ok (m, rest) <-> body = be32 (blen m) ++ m ++ rest /\ blen m < two32.
Proof.
  split; [|intros [-> ?]; by apply take_block_block].
  unfold take_block. destruct body as [|b1 [|b2 [|b3 [|b4 body]]]]; try done.
  case_decide as Hd; [done|]. intros [= <- <-].
  pose proof (u32_be_lt b1 b2 b3 b4). rewrite blen_btake by lia.
  by rewrite be32_u32_be, btake_bdrop.
Qed.
End framing.

(** A trailer codec with the round trip, one byte per bit of the trailer's code: the concrete
    instance behind the witnesses of the theorems that assume a codec. *)
Module TrailerCodec.
#[global] Instance Trailer_countable : Countable Trailer.
Proof.
  apply (inj_countable' (fun t => (status_code t, status_message t, trailers t)) (fun x => mkTrailer x.1.1 x.1.2 x.2)).
  by intros [].
Defined.

Fixpoint bits (p : positive) : bytes :=
  match p with xH => [] | xO p => x00 :: bits p | xI p => x01 :: bits p end.
Fixpoint unbits (b : bytes) : positive :=
  match b with [] => xH | x00 :: b => xO (unbits b) | _ :: b => xI (unbits b) end.

Definition enc (t : Trailer) : bytes := bits (encode t).
Definition dec (b : bytes) : result unit Trailer :=
  match decode (unbits b) with Some t => Ok t | None => Err tt end.

Lemma unbits_bits p : unbits (bits p) = p.
Proof. induction p; cbn; congruence. Qed.

Lemma dec_enc t : dec (enc t) = Ok t.
Proof. unfold dec, enc. by rewrite unbits_bits, decode_encode. Qed.
End TrailerCodec.

(** ** Properties *)

(** The streaming response of [unary_proto] forwards a gRPC message block minus its flag
    byte and appends [encode_trailer_block]: the bytes are exactly those the buffered
    [encode_response_body] writes, and a gRPC frame is a flag byte before the block the
    client prefixed ([frame_upstream_request]). *)
Theorem streamed_body_is_buffered_body (enc : Trailer -> bytes) (message : bytes) (t : Trailer) :
  frame message = x00 :: encode_request_body message
  /\ bdrop 1 (frame message) ++ encode_trailer_block enc t = encode_response_body enc message t
  /\ EMPTY_MESSAGE_BLOCK ++ encode_trailer_block enc t = encode_response_body enc [] t.
Proof.
  split; [done|]. split; [|done].
  unfold encode_response_body, encode_trailer_block, frame, bdrop. simpl. done.
Qed.

(** Decoding accepts exactly the encodings: a decode succeeds with [(message, t)] if and only
    if the body is within the limit and is the two blocks of [message] and of trailer bytes
    that decode to [t], followed by bytes it ignores; each length fits [u32]. *)
Theorem decode_response_body_exact {DecodeError} (dec : bytes -> result DecodeError Trailer)
  (body : bytes) (limit : N) (message : bytes) (t : Trailer) :
  decode_response_body dec body limit = Ok (message, t) <->
  blen body <= limit /\
  exists tb rest, body = be32 (blen message) ++ message ++ be32 (blen tb) ++ tb ++ rest
    /\ dec tb = Ok t /\ blen message < two32 /\ blen tb < two32.
Proof.
  unfold decode_response_body. split.
  - case_decide as Hl; [done|]. intros E. split; [lia|].
    destruct (take_block body) as [[m b1]|] eqn:E1; [|done]. simpl in E.
    destruct (take_block b1) as [[tb b2]|] eqn:E2; [|done]. simpl in E.
    destruct (dec tb) as [t'|] eqn:E3; [|done]. simpl in E. simplify_eq.
    apply take_block_Ok in E1 as [-> ?], E2 as [-> ?]. by exists tb, b2.
  - intros (Hl & tb & rest & -> & Ht & Hm & Htb). rewrite decide_False by lia.
    rewrite take_block_block by done. cbn [mbind result_bind].
    rewrite take_block_block by done. cbn [mbind result_bind]. by rewrite Ht.
Qed.

(** Every failure is classified by what is actually missing: over the limit, a block shorter
    than its declared length (with both lengths reported), or trailer bytes [prost] refuses. *)
Theorem decode_response_body_errors {DecodeError} (dec : bytes -> result DecodeError Trailer)
  (body : bytes) (limit : N) (e : FetchError)
  (Herr : decode_response_body dec body limit = Err e) :
  match e with
  | TooLarge l => l = limit /\ limit < blen body
  | Truncated expected had => had < expected <= N.max LEN_PREFIX u32_max /\ had <= blen body <= limit
  | Decode err => blen body <= limit /\
      exists m tb rest, body = be32 (blen m) ++ m ++ be32 (blen tb) ++ tb ++ rest /\ dec tb = Err err
  end.
Proof.
  assert (forall b e', take_block (DecodeError := DecodeError) b = Err e' -> blen b <= limit ->
    exists x h, e' = Truncated x h /\ h < x <= N.max LEN_PREFIX u32_max /\ h <= blen b) as Htb.
  { intros b e' Hb Hl. unfold take_block in Hb. unfold LEN_PREFIX, u32_max in *.
    destruct b as [|b1 [|b2 [|b3 [|b4 b]]]]; simplify_eq/=; try (eexists _, _; split; [done|]; blia).
    case_decide; simplify_eq/=. pose proof (u32_be_lt b1 b2 b3 b4). unfold two32 in *.
    eexists _, _. split; [done|]. blia. }
  unfold decode_response_body in Herr. case_decide as Hl; [by simplify_eq|].
  destruct (take_block body) as [[m b1]|e1] eqn:E1; simpl in Herr; simplify_eq.
  - apply take_block_Ok in E1 as [-> Hm].
    destruct (take_block b1) as [[tb b2]|e2] eqn:E2; simpl in Herr; simplify_eq.
    + apply take_block_Ok in E2 as [-> ?].
      destruct (dec tb) as [t|err] eqn:E3; simpl in Herr; simplify_eq.
      split; [lia|]. by exists m, tb, b2.
    + destruct (Htb b1 e) as (x & h & -> & ? & ?); [done|blia|]. blia.
  - destruct (Htb body e) as (x & h & -> & ? & ?); [done|lia|]. blia.
Qed.

(** ** Witnesses *)

Lemma decode_response_body_errors_witness :
  decode_response_body (fun _ => Err tt) [x00; x00; x00; x09; x01] 100 = Err (Truncated 9 1) /\
  (1 < 9 <= N.max LEN_PREFIX u32_max /\ 1 <= blen [x00; x00; x00; x09; x01] <= 100).
Proof.
  split; [reflexivity|].
  exact (decode_response_body_errors (fun _ => Err tt) [x00; x00; x00; x09; x01] 100 (Truncated 9 1) eq_refl).
Defined.
