(* ===== verification/ClientMetadata.v ===== *)
(** * Call metadata of the wasm client ([rust/crates/grpc-webnext-client/src/metadata.rs])

    Multi-valued metadata with case-insensitive keys, and its conversion to and from wire
    headers. The [base64] crate is the class [Base64]. A [HashMap<String, String>] is the
    list of its entries in the (unspecified) order its iterator yields them, with distinct
    keys. *)
From stdpp Require Import sorting.
From S2P Require Import Prelude RustStd Metadata.

Class Base64 : Type := {
  b64_encode : bytes -> str;                 (** [STANDARD.encode] *)
  b64_decode : str -> option bytes;          (** [STANDARD.decode(..).ok()] *)
  b64_decode_no_pad : str -> option bytes    (** [STANDARD_NO_PAD.decode(..).ok()] *)
}.
Class Base64Laws (B : Base64) : Prop := b64_decode_encode b : b64_decode (b64_encode b) = Some b.

Inductive MetadataValue : Type :=
| Ascii (s : str)
| Binary (b : bytes).
#[global] Instance MetadataValue_eq_dec : EqDecision MetadataValue.
Proof. solve_decision. Defined.

(** [struct Metadata { entries }] *)
Record Metadata : Type := mkMetadata { entries : list (str * MetadataValue) }.
#[global] Instance Metadata_eq_dec : EqDecision Metadata.
Proof. solve_decision. Defined.

Definition md_empty : Metadata := mkMetadata [].
Definition is_empty (self : Metadata) : bool := match entries self with [] => true | _ => false end.
Definition len (self : Metadata) : N := blen (entries self).

Definition remove (self : Metadata) (key : str) : Metadata :=
  let key := to_ascii_lowercase key in
  mkMetadata (filter (fun e => e.1 <> key) (entries self)).

Definition insert (self : Metadata) (key : str) (value : str) : Metadata :=
  mkMetadata (entries (remove self key) ++ [(to_ascii_lowercase key, Ascii value)]).

(** [insert_bin]: the [debug_assert!] on the key's suffix is compiled out of a release build. *)
Definition insert_bin (self : Metadata) (key : str) (value : bytes) : Metadata :=
  mkMetadata (entries (remove self key) ++ [(to_ascii_lowercase key, Binary value)]).

Definition append (self : Metadata) (key : str) (value : str) : Metadata :=
  mkMetadata (entries self ++ [(to_ascii_lowercase key, Ascii value)]).

(** The [find_map]s of [get] and [get_bin]. *)
Fixpoint find_ascii (key : str) (l : list (str * MetadataValue)) : option str :=
  match l with
  | [] => None
  | (k, Ascii s) :: l' => if decide (k = key) then Some s else find_ascii key l'
  | _ :: l' => find_ascii key l'
  end.
Fixpoint find_binary (key : str) (l : list (str * MetadataValue)) : option bytes :=
  match l with
  | [] => None
  | (k, Binary b) :: l' => if decide (k = key) then Some b else find_binary key l'
  | _ :: l' => find_binary key l'
  end.

Definition get (self : Metadata) (key : str) : option str :=
  find_ascii (to_ascii_lowercase key) (entries self).
Definition get_bin (self : Metadata) (key : str) : option bytes :=
  find_binary (to_ascii_lowercase key) (entries self).

Definition FRAMING : list str :=
  [$"content-type"; $"content-length"; $"te"; $"grpc-encoding"; $"grpc-accept-encoding";
   $"grpc-timeout"; $"user-agent"; $"date"; $"trailer"].
Definition is_framing_header (key : str) : bool := bool_decide (key ∈ FRAMING).

(** [entries.sort_by(|a, b| a.0.cmp(&b.0))]: a stable sort by key. *)
Fixpoint insert_sorted {V} (e : str * V) (l : list (str * V)) : list (str * V) :=
  match l with
  | [] => [e]
  | e' :: l' => if str_le e.1 e'.1 then e :: l else e' :: insert_sorted e l'
  end.
Definition sort_by_key {V} (l : list (str * V)) : list (str * V) := foldr insert_sorted [] l.

Section wire.
Context {B : Base64}.

Definition value_to_wire (v : MetadataValue) : str :=
  match v with Ascii s => s | Binary b => b64_encode b end.

Definition to_headers (self : Metadata) : list (str * str) :=
  map (fun e => (e.1, value_to_wire e.2)) (entries self).

(** The body of the loop of [from_headers]: the entry pushed for one header, if any. *)
Definition header_entry (h : str * str) : option (str * MetadataValue) :=
  let key := to_ascii_lowercase h.1 in
  if starts_with $":" key || is_framing_header key then None
  else if ends_with $"-bin" key then
    match (match b64_decode h.2 with Some b => Some b | None => b64_decode_no_pad h.2 end) with
    | Some b => Some (key, Binary b)
    | None => Some (key, Ascii h.2)
    end
  else Some (key, Ascii h.2).

Definition from_headers (headers : list (str * str)) : Metadata :=
  mkMetadata (sort_by_key (omap header_entry headers)).
End wire.

(** ** Lemmas *)

Lemma lower_lower b : lower (lower b) = lower b.
Proof. by destruct b. Qed.

Lemma to_ascii_lowercase_idemp s : to_ascii_lowercase (to_ascii_lowercase s) = to_ascii_lowercase s.
Proof. unfold to_ascii_lowercase. rewrite map_map. apply map_ext, lower_lower. Qed.

Definition key_le {V} : relation (str * V) := fun a b => str_le a.1 b.1.

Lemma insert_sorted_perm {V} (e : str * V) l : insert_sorted e l ≡ₚ e :: l.
Proof.
  induction l as [|e' l IH]; simpl; [done|]. destruct (str_le e.1 e'.1); [done|].
  rewrite IH. apply Permutation_swap.
Qed.

Lemma sort_by_key_perm {V} (l : list (str * V)) : sort_by_key l ≡ₚ l.
Proof. induction l as [|e l IH]; simpl; [done|]. by rewrite insert_sorted_perm, IH. Qed.

Lemma insert_sorted_sorted {V} (e : str * V) l :
  StronglySorted key_le l -> StronglySorted key_le (insert_sorted e l).
Proof.
  induction 1 as [|e' l Hs IH Hall]; simpl; [by repeat constructor|].
  destruct (str_le e.1 e'.1) eqn:E.
  - constructor; [by constructor|]. constructor; [unfold key_le; by rewrite E|].
    eapply Forall_impl; [exact Hall|]. intros x Hx. unfold key_le in *. etrans; [|exact Hx]. by rewrite E.
  - constructor; [done|]. rewrite insert_sorted_perm. constructor; [|done].
    unfold key_le. destruct (str_le_total e'.1 e.1); [done|]. by rewrite E in H.
Qed.

Lemma sort_by_key_sorted {V} (l : list (str * V)) : StronglySorted key_le (sort_by_key l).
Proof. induction l; simpl; [constructor|by apply insert_sorted_sorted]. Qed.

(** With distinct keys a sorted list is determined by its set of entries. *)
Lemma sorted_unique {V} (l1 l2 : list (str * V)) :
  l1 ≡ₚ l2 -> NoDup (map fst l1) -> StronglySorted key_le l1 -> StronglySorted key_le l2 -> l1 = l2.
Proof.
  intros Hp Hnd Hs1 Hs2. revert l2 Hp Hs2. induction Hs1 as [|x l1 Hs1 IH Hall1]; intros l2 Hp Hs2.
  - by apply Permutation_nil in Hp.
  - destruct Hs2 as [|y l2 Hs2 Hall2]; [by apply Permutation_sym, Permutation_nil in Hp|].
    simpl in Hnd. apply NoDup_cons in Hnd as [Hx Hnd].
    assert (x = y) as ->.
    { assert (y ∈ x :: l1) as Hy by (rewrite Hp; set_solver).
      assert (x ∈ y :: l2) as Hx2 by (rewrite <- Hp; set_solver).
      apply elem_of_cons in Hy as [|Hy]; [done|]. apply elem_of_cons in Hx2 as [|Hx2]; [done|].
      rewrite Forall_forall in Hall1, Hall2.
      assert (x.1 = y.1) as Heq by (apply str_le_antisym; [by apply Hall1|by apply Hall2]).
      destruct Hx. rewrite Heq. by apply list_elem_of_fmap_2. }
    f_equal. apply IH; [done| |done]. by eapply Permutation_cons_inv.
Qed.

Lemma find_ascii_app key l1 l2 :
  find_ascii key (l1 ++ l2) = match find_ascii key l1 with Some s => Some s | None => find_ascii key l2 end.
Proof.
  induction l1 as [|[k [s|b]] l1 IH]; simpl; [done| |done]. by destruct (decide (k = key)).
Qed.

Lemma find_binary_app key l1 l2 :
  find_binary key (l1 ++ l2) = match find_binary key l1 with Some s => Some s | None => find_binary key l2 end.
Proof.
  induction l1 as [|[k [s|b]] l1 IH]; simpl; [done|done|]. by destruct (decide (k = key)).
Qed.

Lemma find_ascii_remove key key' l :
  find_ascii key' (filter (fun e => e.1 <> key) l) = if decide (key = key') then None else find_ascii key' l.
Proof.
  induction l as [|[k [s|b]] l IH]; [by destruct (decide _)|..]; rewrite filter_cons; simpl;
    repeat case_decide; simplify_eq/=; rewrite ?IH; repeat case_decide; naive_solver.
Qed.

Lemma find_binary_remove key key' l :
  find_binary key' (filter (fun e => e.1 <> key) l) = if decide (key = key') then None else find_binary key' l.
Proof.
  induction l as [|[k [s|b]] l IH]; [by destruct (decide _)|..]; rewrite filter_cons; simpl;
    repeat case_decide; simplify_eq/=; rewrite ?IH; repeat case_decide; naive_solver.
Qed.

Lemma key_in {V} (k : str) (v : V) l : (k, v) ∈ l -> k ∈ map fst l.
Proof. intros Hin. change k with (k, v).1. by apply list_elem_of_fmap_2. Qed.

(** With distinct keys the first match is the only one. *)
Lemma find_ascii_Some key l s : NoDup (map fst l) -> find_ascii key l = Some s <-> (key, Ascii s) ∈ l.
Proof.
  induction l as [|[k [x|x]] l IH]; simpl; intros Hnd; [set_solver|..];
    apply NoDup_cons in Hnd as [Hk Hnd]; rewrite elem_of_cons, <- IH by done.
  - case_decide as E; [subst|naive_solver]. split; [naive_solver|].
    intros [|Hs]; [congruence|]. rewrite IH in Hs by done. apply key_in in Hs. done.
  - naive_solver.
Qed.

Lemma find_binary_Some key l s : NoDup (map fst l) -> find_binary key l = Some s <-> (key, Binary s) ∈ l.
Proof.
  induction l as [|[k [x|x]] l IH]; simpl; intros Hnd; [set_solver|..];
    apply NoDup_cons in Hnd as [Hk Hnd]; rewrite elem_of_cons, <- IH by done.
  - naive_solver.
  - case_decide as E; [subst|naive_solver]. split; [naive_solver|].
    intros [|Hs]; [congruence|]. rewrite IH in Hs by done. apply key_in in Hs. done.
Qed.

Lemma option_ext {A} (o1 o2 : option A) : (forall x, o1 = Some x <-> o2 = Some x) -> o1 = o2.
Proof. destruct o1 as [x|], o2 as [y|]; intros Hx; [by apply Hx| | |done]; naive_solver. Qed.

Lemma find_perm l1 l2 key : l1 ≡ₚ l2 -> NoDup (map fst l1) ->
  find_ascii key l1 = find_ascii key l2 /\ find_binary key l1 = find_binary key l2.
Proof.
  intros Hp Hnd. assert (NoDup (map fst l2)) by (by rewrite <- Hp).
  split; apply option_ext; intros s.
  - by rewrite !find_ascii_Some, Hp.
  - by rewrite !find_binary_Some, Hp.
Qed.

Section wire_facts.
Context {B : Base64}.

Lemma header_entry_key h e : header_entry h = Some e -> e.1 = to_ascii_lowercase h.1.
Proof. unfold header_entry. repeat case_match; intros; simplify_eq/=; done. Qed.

Lemma omap_header_entry_nodup l :
  NoDup (map (fun h => to_ascii_lowercase h.1) l) -> NoDup (map fst (omap header_entry l)).
Proof.
  induction l as [|h l IH]; simpl; [done|]. intros [Hh Hnd]%NoDup_cons.
  destruct (header_entry h) as [e|] eqn:E; [|by apply IH]. simpl. constructor; [|by apply IH].
  rewrite (header_entry_key _ _ E). intros Hin. apply Hh.
  apply list_elem_of_fmap in Hin as (e' & He' & Hin). apply list_elem_of_omap in Hin as (h' & Hh' & Eh').
  rewrite He', (header_entry_key _ _ Eh'). apply (list_elem_of_fmap_2 (fun h => to_ascii_lowercase h.1)). done.
Qed.

(** Metadata a caller may hold: canonical distinct keys that are call metadata, with a
    binary value exactly under a [-bin] key. *)
Definition wire_entry (e : str * MetadataValue) : Prop :=
  to_ascii_lowercase e.1 = e.1 /\ starts_with $":" e.1 = false /\ is_framing_header e.1 = false /\
  ends_with $"-bin" e.1 = match e.2 with Binary _ => true | Ascii _ => false end.
Definition wire_metadata (md : Metadata) : Prop :=
  NoDup (map fst (entries md)) /\ Forall wire_entry (entries md).

Lemma header_entry_to_wire {BL : Base64Laws B} e :
  wire_entry e -> header_entry (e.1, value_to_wire e.2) = Some e.
Proof.
  intros (Hl & Hc & Hf & Hb). unfold header_entry. cbn [fst snd]. rewrite Hl, Hc, Hf, Hb. cbn [orb].
  destruct e as [k [s|b]]; simpl; [done|]. by rewrite b64_decode_encode.
Qed.

Lemma omap_header_entry_to_headers {BL : Base64Laws B} md :
  Forall wire_entry (entries md) -> omap header_entry (to_headers md) = entries md.
Proof.
  unfold to_headers. induction 1 as [|e l He _ IH]; [done|]. simpl.
  rewrite header_entry_to_wire by done. by f_equal.
Qed.
End wire_facts.

(** ** Properties *)

Section properties.
Context {B : Base64} {BL : Base64Laws B}.

(** [from_headers] does not depend on the iteration order of the [HashMap] it reads: the
    final sort makes the metadata a function of the headers themselves, as long as no two
    header names differ only in case. *)
Theorem from_headers_order_independent (l1 l2 : list (str * str))
  (Hperm : l1 ≡ₚ l2) (Hnd : NoDup (map (fun h => to_ascii_lowercase h.1) l1)) :
  from_headers l1 = from_headers l2.
Proof.
  unfold from_headers. f_equal. apply sorted_unique; try apply sort_by_key_sorted.
  - rewrite !sort_by_key_perm. by rewrite Hperm.
  - rewrite sort_by_key_perm. by apply omap_header_entry_nodup.
Qed.

(** Wire round trip: rendering metadata to headers and reading it back, in whatever order
    the header map yields them, answers every [get] and [get_bin] as the original does;
    binary values come back as the raw bytes. *)
Theorem metadata_wire_roundtrip (md : Metadata) (wire : list (str * str)) (k : str)
  (Hmd : wire_metadata md) (Hwire : wire ≡ₚ to_headers md) :
  get (from_headers wire) k = get md k /\ get_bin (from_headers wire) k = get_bin md k
  /\ len (from_headers wire) = len md.
Proof.
  destruct Hmd as [Hnd Hall].
  assert (entries (from_headers wire) ≡ₚ entries md) as Hp.
  { unfold from_headers. simpl. rewrite sort_by_key_perm, Hwire. by rewrite omap_header_entry_to_headers. }
  assert (NoDup (map fst (entries (from_headers wire)))) by (by rewrite Hp).
  split; [|split].
  - by apply find_perm.
  - by apply find_perm.
  - unfold len, blen. by rewrite Hp.
Qed.
End properties.

(** [insert] and [insert_bin] replace every value of the key, of either kind and in any case
    of the letters, and touch no other key; [append] leaves an existing first value first. *)
Theorem insert_get (md : Metadata) (key key' : str) (v : str) (b : bytes) :
  let same := to_ascii_lowercase key = to_ascii_lowercase key' in
  (get (insert md key v) key' = if decide same then Some v else get md key')
  /\ (get_bin (insert md key v) key' = if decide same then None else get_bin md key')
  /\ (get_bin (insert_bin md key b) key' = if decide same then Some b else get_bin md key')
  /\ (get (insert_bin md key b) key' = if decide same then None else get md key')
  /\ (get (append md key v) key' =
        match get md key' with Some s => Some s | None => if decide same then Some v else None end).
Proof.
  unfold get, get_bin, insert, insert_bin, append, remove. simpl.
  rewrite !find_ascii_app, !find_binary_app, !find_ascii_remove, !find_binary_remove. simpl.
  repeat split; destruct (decide _); try done;
    repeat (destruct (find_ascii _ _) || destruct (find_binary _ _)); done.
Qed.

(** The comment on [is_framing_header] says it mirrors the server's denylist; the two lists
    disagree in both directions. *)
Theorem framing_is_not_the_denylist :
  is_denied $"connection" = true /\ is_framing_header $"connection" = false
  /\ is_denied $"grpc-status" = true /\ is_framing_header $"grpc-status" = false
  /\ is_denied $"user-agent" = false /\ is_framing_header $"user-agent" = true.
Proof. vm_compute. auto 6. Qed.

(** ** Witnesses *)

(** A self-inverse coding, standing in for base64. *)
Definition plain64 : Base64 := {| b64_encode b := b; b64_decode s := Some s; b64_decode_no_pad s := Some s |}.
#[export] Instance plain64_laws : Base64Laws plain64.
Proof. done. Qed.

Lemma from_headers_order_independent_witness :
  from_headers (B := plain64) [($"x-b", $"2"); ($"X-A", $"1"); (($":status"), $"200")]
  = from_headers (B := plain64) [(($":status"), $"200"); ($"X-A", $"1"); ($"x-b", $"2")].
Proof.
  apply (from_headers_order_independent (B := plain64)).
  - apply (Permutation_rev [($"x-b", $"2"); ($"X-A", $"1"); ($":status", $"200")]).
  - apply (bool_decide_unpack _). vm_compute. exact I.
Defined.

Lemma metadata_wire_roundtrip_witness :
  let md := mkMetadata [($"x-z-bin", Binary [x00; xff]); ($"x-a", Ascii $"v")] in
  get_bin (from_headers (B := plain64) (rev (to_headers (B := plain64) md))) $"X-Z-Bin" = Some [x00; xff].
Proof.
  intros md.
  destruct (metadata_wire_roundtrip (B := plain64) md (rev (to_headers (B := plain64) md)) $"X-Z-Bin")
    as (_ & H & _).
  - split.
    + apply (bool_decide_unpack _). vm_compute. exact I.
    + repeat constructor; vm_compute; done.
  - symmetry. apply Permutation_rev.
  - rewrite H. reflexivity.
Defined.
