(* ===== verification/Base64Std.v ===== *)
(** * The standard base64 alphabet

    An instance of the class [Base64] of [ClientMetadata.v] that computes: the engines
    [STANDARD] (padding required) and [STANDARD_NO_PAD] (padding refused) of the [base64]
    crate, both refusing non-zero trailing bits. The sources only call the crate; this is the
    instance on which their concrete texts are evaluated. [tonic64] is an instance of [Tonic]
    over it: a binary metadata value is kept as base64 without padding, and both forms are
    read. *)
From S2P Require Import Prelude RustStd Http ClientMetadata.

Module Std64.

Definition alphabet : str := $"ABCDEFGHIJKLMNOPQRSTUVWXYZabcdefghijklmnopqrstuvwxyz0123456789+/".
Definition digit (n : N) : byte := default x00 (alphabet !! N.to_nat (n mod 64)).
Definition value (c : byte) : option N :=
  if in_range 65 90 c then Some (bN c - 65)
  else if in_range 97 122 c then Some (bN c - 71)
  else if in_range 48 57 c then Some (bN c + 4)
  else if bN c =? 43 then Some 62
  else if bN c =? 47 then Some 63
  else None.

(** The digits of three, two and one bytes. *)
Definition d0 (x : byte) : byte := digit (bN x / 4).
Definition d1 (x y : N) : byte := digit (x mod 4 * 16 + y / 16).
Definition d2 (y z : N) : byte := digit (y mod 16 * 4 + z / 64).
Definition d3 (z : byte) : byte := digit (bN z mod 64).

Fixpoint encode (b : bytes) : str :=
  match b with
  | [] => []
  | [x] => [d0 x; d1 (bN x) 0; "="%byte; "="%byte]
  | [x; y] => [d0 x; d1 (bN x) (bN y); d2 (bN y) 0; "="%byte]
  | x :: y :: z :: b' => d0 x :: d1 (bN x) (bN y) :: d2 (bN y) (bN z) :: d3 z :: encode b'
  end.

Fixpoint encode_no_pad (b : bytes) : str :=
  match b with
  | [] => []
  | [x] => [d0 x; d1 (bN x) 0]
  | [x; y] => [d0 x; d1 (bN x) (bN y); d2 (bN y) 0]
  | x :: y :: z :: b' => d0 x :: d1 (bN x) (bN y) :: d2 (bN y) (bN z) :: d3 z :: encode_no_pad b'
  end.

Definition quad (a b c d : byte) : option bytes :=
  a ← value a; b ← value b; c ← value c; d ← value d;
  Some [byte_of_N (a * 4 + b / 16); byte_of_N (b mod 16 * 16 + c / 4); byte_of_N (c mod 4 * 64 + d)].
Definition last2 (a b c : byte) : option bytes :=
  a ← value a; b ← value b; c ← value c;
  if c mod 4 =? 0 then Some [byte_of_N (a * 4 + b / 16); byte_of_N (b mod 16 * 16 + c / 4)] else None.
Definition last1 (a b : byte) : option bytes :=
  a ← value a; b ← value b; if b mod 16 =? 0 then Some [byte_of_N (a * 4 + b / 16)] else None.

Fixpoint decode (s : str) : option bytes :=
  match s with
  | [] => Some []
  | a :: b :: c :: d :: s' =>
      if decide (s' = [] /\ d = "="%byte) then
        if decide (c = "="%byte) then last1 a b else last2 a b c
      else g ← quad a b c d; r ← decode s'; Some (g ++ r)
  | _ => None
  end.
Fixpoint decode_no_pad (s : str) : option bytes :=
  match s with
  | [] => Some []
  | [a; b] => last1 a b
  | [a; b; c] => last2 a b c
  | a :: b :: c :: d :: s' => g ← quad a b c d; r ← decode_no_pad s'; Some (g ++ r)
  | _ => None
  end.

#[export] Instance std64 : Base64 := {|
  b64_encode := encode; b64_decode := decode; b64_decode_no_pad := decode_no_pad
|}.

#[local] Existing Instance AssocHttp.http.
#[export] Instance tonic64 : Tonic AssocHttp.http := {|
  AsciiValue := str;
  BinaryValue := str;
  MetadataMap := list (KeyAndValueRef str str);
  ascii_key s := if AssocHttp.bin_suffix s then None else AssocHttp.name s;
  binary_key s := if AssocHttp.bin_suffix s then AssocHttp.name s else None;
  ascii_value s := if visible s then Some s else None;
  ascii_to_str s := if visible s then Some s else None;
  binary_value b := encode_no_pad b;
  binary_to_bytes v := match decode_no_pad v with Some b => Some b | None => decode v end;
  md_new := [];
  md_append m k v := m ++ [KvAscii k v];
  md_append_bin m k v := m ++ [KvBinary k v];
  md_iter m := m;
  md_from_headers h := map (fun p : str * str => if AssocHttp.bin_suffix p.1 then KvBinary p.1 p.2 else KvAscii p.1 p.2) h;
  md_into_headers m := map (fun e => match e with KvAscii k v => (k, v) | KvBinary k v => (k, v) end) m
|}.

(** ** Lemmas *)

Definition digits_ok : bool :=
  forallb (fun n => bool_decide (value (digit (N.of_nat n)) = Some (N.of_nat n))
                    && bool_decide (digit (N.of_nat n) <> "="%byte)) (seq 0 64).

Lemma digit_spec n : n < 64 -> value (digit n) = Some n /\ digit n <> "="%byte.
Proof.
  intros Hn. assert (digits_ok = true) as Hall by (vm_compute; reflexivity).
  unfold digits_ok in Hall. rewrite forallb_forall in Hall.
  specialize (Hall (N.to_nat n) ltac:(apply in_seq; lia)). rewrite N2Nat.id in Hall.
  apply andb_prop in Hall as [H1%bool_decide_eq_true H2%bool_decide_eq_true]. done.
Qed.

(** The four digits of a group are below 64 and determine its bytes. *)
Lemma group_arith (x y z : N) :
  x < 256 -> y < 256 -> z < 256 ->
  let a := x / 4 in let b := x mod 4 * 16 + y / 16 in let c := y mod 16 * 4 + z / 64 in let d := z mod 64 in
  a < 64 /\ b < 64 /\ c < 64 /\ d < 64
  /\ a * 4 + b / 16 = x /\ b mod 16 * 16 + c / 4 = y /\ c mod 4 * 64 + d = z.
Proof.
  intros Hx Hy Hz a b c d. subst a b c d.
  pose proof (N.div_mod' x 4). pose proof (N.mod_lt x 4 ltac:(done)).
  pose proof (N.div_mod' y 16). pose proof (N.mod_lt y 16 ltac:(done)).
  pose proof (N.div_mod' z 64). pose proof (N.mod_lt z 64 ltac:(done)).
  assert ((x mod 4 * 16 + y / 16) / 16 = x mod 4) as -> by (symmetry; apply N.div_unique with (y / 16); nlia).
  assert ((x mod 4 * 16 + y / 16) mod 16 = y / 16) as -> by (symmetry; apply N.mod_unique with (x mod 4); nlia).
  assert ((y mod 16 * 4 + z / 64) / 4 = y mod 16) as -> by (symmetry; apply N.div_unique with (z / 64); nlia).
  assert ((y mod 16 * 4 + z / 64) mod 4 = z / 64) as -> by (symmetry; apply N.mod_unique with (y mod 16); nlia).
  nlia.
Qed.

Lemma quad_spec x y z : quad (d0 x) (d1 (bN x) (bN y)) (d2 (bN y) (bN z)) (d3 z) = Some [x; y; z].
Proof.
  pose proof (group_arith (bN x) (bN y) (bN z) (to_N_lt x) (to_N_lt y) (to_N_lt z)) as (Ha & Hb & Hc & Hd & E1 & E2 & E3).
  unfold quad, d0, d1, d2, d3.
  rewrite (proj1 (digit_spec _ Ha)), (proj1 (digit_spec _ Hb)), (proj1 (digit_spec _ Hc)), (proj1 (digit_spec _ Hd)).
  cbn [mbind option_bind]. rewrite E1, E2, E3. unfold bN. by rewrite !byte_of_to_N.
Qed.

Lemma last2_spec x y : last2 (d0 x) (d1 (bN x) (bN y)) (d2 (bN y) 0) = Some [x; y].
Proof.
  pose proof (group_arith (bN x) (bN y) 0 (to_N_lt x) (to_N_lt y) ltac:(lia)) as (Ha & Hb & Hc & Hd & E1 & E2 & E3).
  unfold last2, d0, d1, d2. rewrite (proj1 (digit_spec _ Ha)), (proj1 (digit_spec _ Hb)), (proj1 (digit_spec _ Hc)).
  cbn [mbind option_bind]. rewrite E1, E2. unfold bN in *. rewrite !byte_of_to_N.
  destruct (N.eqb_spec ((Byte.to_N y mod 16 * 4 + 0 / 64) mod 4) 0); [done|nlia].
Qed.

Lemma last1_spec x : last1 (d0 x) (d1 (bN x) 0) = Some [x].
Proof.
  pose proof (group_arith (bN x) 0 0 (to_N_lt x) ltac:(lia) ltac:(lia)) as (Ha & Hb & _ & _ & E1 & E2 & _).
  unfold last1, d0, d1. rewrite (proj1 (digit_spec _ Ha)), (proj1 (digit_spec _ Hb)).
  cbn [mbind option_bind]. rewrite E1. unfold bN in *. rewrite byte_of_to_N.
  change ((0 mod 16 * 4 + 0 / 64) / 4) with 0 in E2.
  destruct (N.eqb_spec ((Byte.to_N x mod 4 * 16 + 0 / 16) mod 16) 0); [done|nlia].
Qed.

Lemma d_not_pad n : digit n <> "="%byte.
Proof.
  pose proof (N.mod_lt n 64 ltac:(done)) as Hn.
  replace (digit n) with (digit (n mod 64)); [by apply digit_spec|].
  unfold digit. by rewrite N.Div0.mod_mod.
Qed.

Lemma decode_encode b : decode (encode b) = Some b.
Proof.
  induction b as [b IH] using (induction_ltof1 _ (@length byte)). unfold ltof in IH.
  destruct b as [|x [|y [|z b]]]; [done|..].
  - change (decode (encode [x])) with (last1 (d0 x) (d1 (bN x) 0)). apply last1_spec.
  - cbn [encode decode]. rewrite decide_True by done. rewrite decide_False by apply d_not_pad. apply last2_spec.
  - cbn [encode decode]. rewrite decide_False by (intros [_ Hd]; by apply d_not_pad in Hd).
    rewrite quad_spec. cbn [mbind option_bind]. by rewrite IH by (cbn; lia).
Qed.

#[export] Instance std64_laws : Base64Laws std64.
Proof. exact decode_encode. Qed.

Lemma decode_no_pad_encode b : decode_no_pad (encode_no_pad b) = Some b.
Proof.
  induction b as [b IH] using (induction_ltof1 _ (@length byte)). unfold ltof in IH.
  destruct b as [|x [|y [|z b]]]; [done|exact (last1_spec x)|exact (last2_spec x y)|].
  cbn [encode_no_pad decode_no_pad]. rewrite quad_spec. cbn [mbind option_bind]. by rewrite IH by (cbn; lia).
Qed.

Lemma tonic_into_from (h : list (str * str)) :
  map (fun e : KeyAndValueRef str str => match e with KvAscii k v => (k, v) | KvBinary k v => (k, v) end)
    (map (fun p : str * str => if AssocHttp.bin_suffix p.1 then KvBinary p.1 p.2 else KvAscii p.1 p.2) h) = h.
Proof. induction h as [|[k v] h IH]; [done|]. cbn [map fst snd]. rewrite IH. by destruct (AssocHttp.bin_suffix k). Qed.

#[export] Instance tonic64_laws : TonicLaws AssocHttp.http tonic64.
Proof.
  split; simpl.
  - done.
  - intros m k v k'. unfold entries_of. rewrite filter_app, filter_cons. simpl. by destruct (decide (k = k')).
  - intros m k v k'. unfold entries_of. rewrite filter_app, filter_cons. simpl. by destruct (decide (k = k')).
  - intros s k. by destruct (AssocHttp.bin_suffix s).
  - intros s k. by destruct (AssocHttp.bin_suffix s).
  - intros s v. destruct (visible s) eqn:Hv; [|done]. intros [= <-]. by rewrite Hv.
  - intros b. by rewrite decode_no_pad_encode.
  - intros h. rewrite tonic_into_from. reflexivity.
Qed.
End Std64.
