(* ===== verification/ClientStatus.v ===== *)
(** * gRPC status of the wasm client ([rust/crates/grpc-webnext-client/src/status.rs]) *)
From S2P Require Import Prelude RustStd ClientMetadata.

(** [enum Code], and its discriminants ([#[repr(u16)]]). *)
Module Code.
Inductive t : Type :=
| Ok | Cancelled | Unknown | InvalidArgument | DeadlineExceeded | NotFound | AlreadyExists
| PermissionDenied | ResourceExhausted | FailedPrecondition | Aborted | OutOfRange
| Unimplemented | Internal | Unavailable | DataLoss | Unauthenticated.

Definition to_Z (c : t) : Z :=
  match c with
  | Ok => 0 | Cancelled => 1 | Unknown => 2 | InvalidArgument => 3 | DeadlineExceeded => 4
  | NotFound => 5 | AlreadyExists => 6 | PermissionDenied => 7 | ResourceExhausted => 8
  | FailedPrecondition => 9 | Aborted => 10 | OutOfRange => 11 | Unimplemented => 12
  | Internal => 13 | Unavailable => 14 | DataLoss => 15 | Unauthenticated => 16
  end%Z.

#[global] Instance eq_dec : EqDecision t.
Proof. solve_decision. Defined.

Definition from_i32 (value : Z) : t :=
  match value with
  | 0 => Ok | 1 => Cancelled | 2 => Unknown | 3 => InvalidArgument | 4 => DeadlineExceeded
  | 5 => NotFound | 6 => AlreadyExists | 7 => PermissionDenied | 8 => ResourceExhausted
  | 9 => FailedPrecondition | 10 => Aborted | 11 => OutOfRange | 12 => Unimplemented
  | 13 => Internal | 14 => Unavailable | 15 => DataLoss | 16 => Unauthenticated
  | _ => Unknown
  end%Z.
End Code.

(** [struct Status] *)
Record Status : Type := mkStatus { code : Code.t; message : str; metadata : Metadata }.
#[global] Instance Status_eq_dec : EqDecision Status.
Proof. solve_decision. Defined.

(** [Status::new], [Status::unavailable], [is_ok] *)
Definition new (c : Code.t) (m : str) : Status := mkStatus c m md_empty.
Definition unavailable (m : str) : Status := new Code.Unavailable m.
Definition is_ok (self : Status) : bool := bool_decide (code self = Code.Ok).

Definition GRPC_STATUS : str := $"grpc-status".
Definition GRPC_MESSAGE : str := $"grpc-message".

(** [headers.get(k)] on the entries of a [HashMap]. *)
Fixpoint hash_get (headers : list (str * str)) (k : str) : option str :=
  match headers with
  | [] => None
  | (k', v) :: hs => if decide (k' = k) then Some v else hash_get hs k
  end.

Section status.
Context {B : Base64}.
(** [percent_encoding::percent_decode_str(v).decode_utf8().ok()] *)
Context (percent_decode_utf8 : str -> option str).

Definition decode_grpc_message (value : str) : str :=
  match percent_decode_utf8 value with Some s => s | None => value end.

(** [Status::from_headers] *)
Definition from_headers (headers : list (str * str)) : option Status :=
  match hash_get headers GRPC_STATUS with
  | None => None
  | Some raw =>
      let code := match parse_i32 (trim raw) with Some v => Code.from_i32 v | None => Code.Unknown end in
      let message := match hash_get headers GRPC_MESSAGE with
                     | Some m => decode_grpc_message m | None => [] end in
      let metadata := remove (remove (ClientMetadata.from_headers headers) GRPC_STATUS) GRPC_MESSAGE in
      Some (mkStatus code message metadata)
  end.
End status.

(** ** Properties *)

(** Codes are faithful to the wire: [from_i32] inverts the discriminant, its image is all
    seventeen codes, and every other number is [Unknown]. *)
Theorem code_from_i32_exact (v : Z) (c : Code.t) :
  Code.from_i32 (Code.to_Z c) = c
  /\ (Code.from_i32 v = c <-> v = Code.to_Z c \/ (c = Code.Unknown /\ ~ (0 <= v <= 16)%Z)).
Proof.
  split; [by destruct c|]. split.
  - intros <-. destruct (decide (0 <= v <= 16)%Z) as [Hv|Hv].
    + left. assert (v = 0 \/ v = 1 \/ v = 2 \/ v = 3 \/ v = 4 \/ v = 5 \/ v = 6 \/ v = 7 \/ v = 8 \/ v = 9
        \/ v = 10 \/ v = 11 \/ v = 12 \/ v = 13 \/ v = 14 \/ v = 15 \/ v = 16)%Z as Hc by lia.
      by repeat (destruct Hc as [->|Hc]; [done|]); subst.
    + right. split; [|done]. destruct v as [|p|p]; [lia| |done].
      do 5 (try (destruct p as [p|p|]; [| |done || lia])); try done; lia.
  - intros [->|[-> Hv]]; [by destruct c|]. destruct v as [|p|p]; [lia| |done].
    do 5 (try (destruct p as [p|p|]; [| |done || lia])); try done; lia.
Qed.

(** A status is read exactly when [grpc-status] is present; an unparsable or out-of-range
    code is [Unknown], never a failure; and the status headers are not user metadata while
    every other header's metadata is untouched. *)
Theorem status_from_headers_spec {B : Base64} (pd : str -> option str) (headers : list (str * str)) :
  match from_headers pd headers with
  | None => hash_get headers GRPC_STATUS = None
  | Some s =>
      exists raw, hash_get headers GRPC_STATUS = Some raw
      /\ code s = (match parse_i32 (trim raw) with Some v => Code.from_i32 v | None => Code.Unknown end)
      /\ get (metadata s) GRPC_STATUS = None /\ get (metadata s) GRPC_MESSAGE = None
      /\ forall k, to_ascii_lowercase k <> GRPC_STATUS -> to_ascii_lowercase k <> GRPC_MESSAGE ->
           get (metadata s) k = get (ClientMetadata.from_headers headers) k
           /\ get_bin (metadata s) k = get_bin (ClientMetadata.from_headers headers) k
  end.
Proof.
  unfold from_headers. destruct (hash_get headers GRPC_STATUS) as [raw|] eqn:E; [|done].
  exists raw. split; [done|]. split; [done|]. cbn [metadata].
  unfold get, get_bin, remove. cbn [entries].
  change (to_ascii_lowercase GRPC_STATUS) with GRPC_STATUS.
  change (to_ascii_lowercase GRPC_MESSAGE) with GRPC_MESSAGE.
  rewrite !find_ascii_remove. split; [done|]. split; [done|].
  intros k H1 H2. rewrite !find_ascii_remove, !find_binary_remove.
  by rewrite !decide_False by congruence.
Qed.
