(* ===== verification/ClientCodec.v ===== *)
(** * gRPC message framing of the wasm client ([rust/crates/grpc-webnext-client/src/codec.rs]) *)
From S2P Require Import Prelude RustStd GrpcFraming ClientMetadata ClientStatus.

(** [pub fn encode_message] *)
Definition encode_message (message : bytes) : bytes := x00 :: be32 (blen message) ++ message.

Definition compressed_message : str := $"compressed gRPC messages are not supported by this client".
Definition too_large_message (len max : N) : str :=
  $"message of " ++ fmt_dec len ++ $" bytes exceeds the " ++ fmt_dec max ++ $"-byte limit".

(** [struct Deframer] *)
Record t : Type := mk { buffer : bytes; max_message_bytes : option N }.

Definition deframer_new (max : option N) : t := mk [] max.

(** The loop of [push] at an offset into the buffer: [rest] is [buffer[offset..]]. It
    returns the messages and the undrained rest; every turn that continues consumes at least
    five bytes, so the length of [rest] bounds the turns. *)
Fixpoint push_loop (fuel : nat) (max : option N) (rest : bytes) : result Status (list bytes * bytes) :=
  match fuel with
  | O => Ok ([], rest)
  | S fuel =>
      match rest with
      | flag :: b1 :: b2 :: b3 :: b4 :: body =>
          if decide (flag <> x00) then Err (ClientStatus.new Code.Unimplemented compressed_message)
          else
            let len := u32_be b1 b2 b3 b4 in
            if match max with Some m => m <? len | None => false end then
              Err (ClientStatus.new Code.ResourceExhausted (too_large_message len (default 0 max)))
            else if decide (blen body < len) then Ok ([], rest)
            else
              '(out, rest') ← push_loop fuel max (bdrop len body);
              Ok (btake len body :: out, rest')
      | _ => Ok ([], rest)
      end
  end.

(** [pub fn push]: on success the consumed prefix is drained; on an error the function
    returns before the drain, so the whole extended buffer stays. *)
Definition push (self : t) (chunk : bytes) : result Status (list bytes) * t :=
  let buf := buffer self ++ chunk in
  match push_loop (S (length buf)) (max_message_bytes self) buf with
  | Ok (out, rest) => (Ok out, mk rest (max_message_bytes self))
  | Err e => (Err e, mk buf (max_message_bytes self))
  end.

Definition pending (self : t) : N := blen (buffer self).

(** Feeding a stream chunk by chunk until the first error, as [Streaming::message] does. *)
Fixpoint feed (self : t) (chunks : list bytes) : result Status (list bytes) * t :=
  match chunks with
  | [] => (Ok [], self)
  | c :: chunks' =>
      match push self c with
      | (Ok ms, self') =>
          match feed self' chunks' with
          | (Ok ms', self'') => (Ok (ms ++ ms'), self'')
          | (Err e, self'') => (Err e, self'')
          end
      | (Err e, self') => (Err e, self')
      end
  end.

(** ** Lemmas *)

Definition parse (max : option N) (b : bytes) : result Status (list bytes * bytes) :=
  push_loop (S (length b)) max b.

Lemma push_loop_stable n1 n2 max b :
  (length b < n1)%nat -> (length b < n2)%nat -> push_loop n1 max b = push_loop n2 max b.
Proof.
  revert n2 b. induction n1 as [|n1 IH]; intros [|n2] b H1 H2; try lia.
  destruct b as [|flag [|b1 [|b2 [|b3 [|b4 body]]]]]; try done. cbn -[u32_be bdrop btake].
  case_decide; [done|]. destruct (match max with Some _ => _ | None => _ end); [done|].
  case_decide; [done|]. simpl in *.
  rewrite (IH n2); [done|..]; unfold bdrop; rewrite length_drop; lia.
Qed.

(** One message at the front of the buffer. *)
Lemma parse_cons max flag b1 b2 b3 b4 body :
  parse max (flag :: b1 :: b2 :: b3 :: b4 :: body) =
  let len := u32_be b1 b2 b3 b4 in
  if decide (flag <> x00) then Err (ClientStatus.new Code.Unimplemented compressed_message)
  else if match max with Some m => m <? len | None => false end then
    Err (ClientStatus.new Code.ResourceExhausted (too_large_message len (default 0 max)))
  else if decide (blen body < len) then Ok ([], flag :: b1 :: b2 :: b3 :: b4 :: body)
  else '(out, rest) ← parse max (bdrop len body); Ok (btake len body :: out, rest).
Proof.
  unfold parse at 1. cbn -[u32_be bdrop btake push_loop].
  change (push_loop (S ?n) max ?l) with
    (match l with
     | flag :: b1 :: b2 :: b3 :: b4 :: body =>
          if decide (flag <> x00) then Err (ClientStatus.new Code.Unimplemented compressed_message)
          else if match max with Some m => m <? u32_be b1 b2 b3 b4 | None => false end then
              Err (ClientStatus.new Code.ResourceExhausted (too_large_message (u32_be b1 b2 b3 b4) (default 0 max)))
            else if decide (blen body < u32_be b1 b2 b3 b4) then Ok ([], l)
            else
              '(out, rest') ← push_loop n max (bdrop (u32_be b1 b2 b3 b4) body);
              Ok (btake (u32_be b1 b2 b3 b4) body :: out, rest')
     | _ => Ok ([], l)
     end).
  cbv beta iota. case_decide; [done|]. destruct (match max with Some _ => _ | None => _ end); [done|].
  case_decide; [done|]. unfold parse.
  rewrite (push_loop_stable _ (S (length (bdrop (u32_be b1 b2 b3 b4) body)))); [done| |lia].
  unfold bdrop. rewrite length_drop. lia.
Qed.

Lemma parse_short max b : (length b < 5)%nat -> parse max b = Ok ([], b).
Proof. destruct b as [|? [|? [|? [|? [|? b]]]]]; simpl; try done; lia. Qed.

(** Case analysis along the messages of a buffer. *)
Lemma buffer_ind (P : bytes -> Prop) :
  (forall b, (length b < 5)%nat -> P b) ->
  (forall flag b1 b2 b3 b4 body,
     (forall b, (length b <= length body)%nat -> P b) -> P (flag :: b1 :: b2 :: b3 :: b4 :: body)) ->
  forall b, P b.
Proof.
  intros Hs Hc b. remember (length b) as n eqn:Hn. revert b Hn.
  induction n as [n IH] using lt_wf_ind; intros b ->.
  destruct (decide (length b < 5)%nat) as [|Hge]; [by apply Hs|].
  destruct b as [|flag [|b1 [|b2 [|b3 [|b4 body]]]]]; simpl in *; try lia.
  apply Hc. intros b Hb. eapply IH; [|done]. lia.
Qed.

(** Parsing a prefix and then its rest with more bytes is parsing everything. *)
Lemma parse_app max a c :
  parse max (a ++ c) =
  match parse max a with
  | Ok (ms, r) => '(ms', r') ← parse max (r ++ c); Ok (ms ++ ms', r')
  | Err e => Err e
  end.
Proof.
  induction a as [a Hs|flag b1 b2 b3 b4 body IH] using buffer_ind.
  - rewrite (parse_short max a Hs). by destruct (parse max (a ++ c)) as [[]|].
  - cbn [app]. rewrite !parse_cons. cbv zeta.
    destruct (decide (flag <> x00)) as [|Hf]; [done|].
    destruct (match max with Some _ => _ | None => _ end) eqn:Em; [done|].
    destruct (decide (blen body < u32_be b1 b2 b3 b4)) as [Hl|Hl].
    + cbn [app]. rewrite parse_cons. cbv zeta. rewrite (decide_False (P := flag <> x00)), Em by done.
      destruct (decide (blen (body ++ c) < _)); [done|].
      by destruct (parse max (bdrop _ (body ++ c))) as [[]|].
    + rewrite decide_False by blia. rewrite bdrop_app_le, btake_app_le by lia.
      rewrite IH by (unfold bdrop; rewrite length_drop; lia).
      destruct (parse max (bdrop _ body)) as [[ms r]|e]; [|done]. cbn [mbind result_bind].
      by destruct (parse max (r ++ c)) as [[ms' r']|e'].
Qed.

(** The rest of a successful parse holds no complete message. *)
Lemma parse_rest max b ms r : parse max b = Ok (ms, r) -> parse max r = Ok ([], r).
Proof.
  revert ms. induction b as [b Hs|flag b1 b2 b3 b4 body IH] using buffer_ind; intros ms.
  - rewrite (parse_short max b Hs). intros [= <- <-]. by apply parse_short.
  - intros E. pose proof E as E'. rewrite parse_cons in E'. cbv zeta in E'.
    case_decide; [done|]. destruct (match max with Some _ => _ | None => _ end); [done|].
    case_decide; [by simplify_eq|].
    destruct (parse max (bdrop _ body)) as [[ms' r']|] eqn:Ep; [|done]. simpl in E'. simplify_eq.
    eapply IH; [|done]. unfold bdrop. rewrite length_drop. lia.
Qed.

Lemma feed_parse max b0 chunks :
  parse max b0 = Ok ([], b0) ->
  match parse max (b0 ++ concat chunks) with
  | Ok (ms, r) => feed (mk b0 max) chunks = (Ok ms, mk r max)
  | Err e => exists d, feed (mk b0 max) chunks = (Err e, d)
  end.
Proof.
  revert b0. induction chunks as [|c chunks IH]; intros b0 H0; cbn [concat feed].
  - by rewrite app_nil_r, H0.
  - rewrite app_assoc, parse_app. unfold push. cbn [buffer max_message_bytes].
    fold (parse max (b0 ++ c)). destruct (parse max (b0 ++ c)) as [[ms r]|e] eqn:E; [|eauto].
    specialize (IH r (parse_rest _ _ _ _ E)). cbn [mbind result_bind].
    destruct (parse max (r ++ concat chunks)) as [[ms' r']|e]; cbn [mbind result_bind].
    + by rewrite IH.
    + destruct IH as [d ->]. eauto.
Qed.

(** Framed messages within the limit are parsed back. *)
Lemma parse_frames max ms :
  Forall (fun m => blen m < two32 /\ match max with Some n => blen m <= n | None => True end) ms ->
  parse max (concat (map encode_message ms)) = Ok (ms, []).
Proof.
  induction 1 as [|m ms [Hm Hmax] _ IH]; [done|]. cbn [map concat]. unfold encode_message at 1, be32. cbn [app].
  rewrite parse_cons. cbv zeta. rewrite decide_False by (intros Hx; by apply Hx). rewrite u32_be_be32, N.mod_small by done.
  assert (match max with Some n => n <? blen m | None => false end = false) as ->
    by (destruct max; [by apply N.ltb_ge|done]).
  rewrite decide_False by (rewrite blen_app; lia). rewrite bdrop_app, btake_app, IH. done.
Qed.

(** ** Properties *)

(** HTTP/2 may split the body anywhere: feeding chunk by chunk gives the messages, the
    pending bytes and the error that the whole body gives in one push. *)
Theorem push_chunking_invisible (max : option N) (chunks : list bytes) :
  match push (deframer_new max) (concat chunks) with
  | (Ok ms, d) => feed (deframer_new max) chunks = (Ok ms, d)
  | (Err e, _) => exists d, feed (deframer_new max) chunks = (Err e, d)
  end.
Proof.
  pose proof (feed_parse max [] chunks eq_refl) as Hf. unfold push. cbn [buffer max_message_bytes deframer_new app].
  fold (parse max (concat chunks)). cbn [app] in Hf.
  by destruct (parse max (concat chunks)) as [[ms r]|e].
Qed.

(** C30: The client's and the server's framing agree: what the client encodes is the server's
    [frame]; when the client's deframer accepts a body it returns the messages and the
    pending bytes that the server's [Deframer] finds, and every message is within the limit. *)
Theorem client_server_framing_agree (max : option N) (m body : bytes) (ms : list bytes) (d : t)
  (Hpush : push (deframer_new max) body = (Ok ms, d)) :
  encode_message m = frame m
  /\ Deframer.drain (Deframer.push Deframer.new body) = (ms, Deframer.mk (buffer d))
  /\ Forall (fun m => forall limit, max = Some limit -> blen m <= limit) ms.
Proof.
  split; [done|]. unfold push in Hpush. cbn [buffer max_message_bytes deframer_new app] in Hpush.
  fold (parse max body) in Hpush. destruct (parse max body) as [[ms' r]|] eqn:E; [|done]. simplify_eq. cbn [buffer].
  change (Deframer.push Deframer.new body) with (Deframer.mk body).
  revert ms E. induction body as [b Hs|flag b1 b2 b3 b4 body IH] using buffer_ind; intros ms E.
  - rewrite (parse_short max b Hs) in E. simplify_eq. split; [|done].
    rewrite DeframerFacts.drain_unfold. unfold Deframer.next_message. simpl.
    rewrite decide_True; [done|]. unfold HEADER_LEN, blen. lia.
  - pose proof E as E'. rewrite parse_cons in E'. cbv zeta in E'.
    case_decide; [done|]. destruct (match max with Some _ => _ | None => _ end) eqn:Em; [done|].
    case_decide as Hl.
    + simplify_eq. split; [|done]. rewrite DeframerFacts.drain_unfold. unfold Deframer.next_message. cbn [Deframer.buf].
      rewrite decide_False by (unfold HEADER_LEN; blia). rewrite decide_True by (unfold HEADER_LEN; blia). done.
    + destruct (parse max (bdrop _ body)) as [[ms' r']|] eqn:Ep; [|done]. cbn [mbind result_bind] in E'. simplify_eq.
      destruct (IH (bdrop (u32_be b1 b2 b3 b4) body)) with (ms := ms') as [Hd Hf]; [unfold bdrop; rewrite length_drop; lia|done|].
      split.
      * rewrite DeframerFacts.drain_unfold.
        replace (Deframer.next_message _) with (Some (btake (u32_be b1 b2 b3 b4) body), Deframer.mk (bdrop (u32_be b1 b2 b3 b4) body)).
        { by rewrite Hd. }
        symmetry. apply DeframerFacts.next_message_Some. eexists _, _, _, _, _. cbn [Deframer.buf].
        rewrite btake_bdrop. split; [done|]. apply blen_btake. lia.
      * constructor; [|done]. intros limit ->. rewrite blen_btake by lia. apply N.ltb_ge in Em. lia.
Qed.

(** A refusal points at the first offending header: everything before it is well-formed
    messages within the limit, and the header itself is compressed, or declares more than
    the limit, in which case the message body need not have arrived. *)
Theorem push_error_exact (max : option N) (body : bytes) (e : Status) (d : t)
  (Hpush : push (deframer_new max) body = (Err e, d)) :
  exists ms flag b1 b2 b3 b4 tail,
    body = concat (map frame ms) ++ flag :: b1 :: b2 :: b3 :: b4 :: tail
    /\ Forall (fun m => blen m < two32) ms
    /\ ((flag <> x00 /\ e = ClientStatus.new Code.Unimplemented compressed_message)
        \/ (flag = x00 /\ exists limit, max = Some limit /\ limit < u32_be b1 b2 b3 b4
            /\ e = ClientStatus.new Code.ResourceExhausted (too_large_message (u32_be b1 b2 b3 b4) limit))).
Proof.
  unfold push in Hpush. cbn [buffer max_message_bytes deframer_new app] in Hpush.
  fold (parse max body) in Hpush. destruct (parse max body) as [|e'] eqn:E; [by destruct a|]. simplify_eq.
  revert E. induction body as [b Hs|flag b1 b2 b3 b4 body IH] using buffer_ind; intros E.
  - by rewrite (parse_short max b Hs) in E.
  - rewrite parse_cons in E. cbv zeta in E. case_decide as Hf.
    { simplify_eq. exists [], flag, b1, b2, b3, b4, body. naive_solver. }
    assert (flag = x00) as -> by (destruct (decide (flag = x00)); [done|by destruct Hf]).
    destruct (match max with Some _ => _ | None => _ end) eqn:Em.
    { destruct max as [limit|]; [|done]. apply N.ltb_lt in Em. simplify_eq.
      exists [], x00, b1, b2, b3, b4, body. naive_solver. }
    case_decide as Hl; [done|]. destruct (parse max (bdrop _ body)) as [[]|e'] eqn:Ep; [done|].
    cbn [mbind result_bind] in E. simplify_eq.
    destruct (IH (bdrop (u32_be b1 b2 b3 b4) body)) as (ms & f & c1 & c2 & c3 & c4 & tail & Hb & Hms & He);
      [unfold bdrop; rewrite length_drop; lia|done|].
    exists (btake (u32_be b1 b2 b3 b4) body :: ms), f, c1, c2, c3, c4, tail. split; [|split; [|done]].
    + cbn [map concat]. unfold frame at 1. rewrite blen_btake, be32_u32_be by lia.
      rewrite <- app_assoc, <- Hb. cbn [app]. by rewrite btake_bdrop.
    + constructor; [|done]. rewrite blen_btake by lia. apply u32_be_lt.
Qed.

(** ** Witnesses *)

Lemma client_server_framing_agree_witness :
  Deframer.drain (Deframer.push Deframer.new ([x00; x00; x00; x00; x01; x41] ++ [x00; x00]))
  = ([[x41]], Deframer.mk [x00; x00]).
Proof.
  exact (proj1 (proj2 (client_server_framing_agree (Some 4) [] ([x00; x00; x00; x00; x01; x41] ++ [x00; x00])
    [[x41]] (mk [x00; x00] (Some 4)) eq_refl))).
Defined.

Lemma push_error_exact_witness :
  exists ms flag b1 b2 b3 b4 tail,
    [x00; x00; x00; x00; x01; x41; x00; x00; x00; x00; x09]
      = concat (map frame ms) ++ flag :: b1 :: b2 :: b3 :: b4 :: tail /\ Forall (fun m => blen m < two32) ms.
Proof.
  destruct (push_error_exact (Some 4) [x00; x00; x00; x00; x01; x41; x00; x00; x00; x00; x09]
    (ClientStatus.new Code.ResourceExhausted (too_large_message 9 4))
    (mk [x00; x00; x00; x00; x01; x41; x00; x00; x00; x00; x09] (Some 4)) eq_refl)
    as (ms & flag & b1 & b2 & b3 & b4 & tail & Hb & Hms & _).
  by exists ms, flag, b1, b2, b3, b4, tail.
Defined.
