(* ===== verification/H2ts.v ===== *)
(** * The request size limit of the h2ts path ([rust/crates/grpc-webnext/src/h2ts.rs])

    [GrpcSizeLimit]: a body wrapper that follows the gRPC message boundaries of the bytes
    passing through it, whatever the sizes of the data frames, and fails the stream at the
    first message header that declares more than [max] bytes. *)
From S2P Require Import Prelude RustStd GrpcFraming.

(** [struct GrpcSizeLimit<B>], less the wrapped body: [header_seen] bytes of the five-byte
    prefix are in, the last four go to [len_buf], then [body_remaining] bytes follow. *)
Record GrpcSizeLimit : Type := mkLimit {
  max : N;
  header_seen : nat;
  len_buf : bytes;
  body_remaining : N
}.

(** [GrpcSizeLimit::new(inner, max)] *)
Definition new (max : N) : GrpcSizeLimit := mkLimit max 0 [x00; x00; x00; x00] 0.

Definition be_bytes (l : bytes) : N :=
  match l with [a; b; c; d] => u32_be a b c d | _ => 0 end.

(** The message of the [Status::resource_exhausted] the stream fails with. *)
Definition exceeds_message (max : N) : str :=
  $"request message exceeds size limit (" ++ fmt_dec max ++ $" bytes)".

(** One iteration of the loop of [inspect] on the rest [data[i..]] of the data, which is not
    empty: the new state and what is left of the data. *)
Definition inspect_step (self : GrpcSizeLimit) (data : bytes) : result str (GrpcSizeLimit * bytes) :=
  match data with
  | [] => Ok (self, [])
  | b :: data' =>
      if decide (header_seen self < 5)%nat then
        let len_buf' :=
          match header_seen self with O => len_buf self | S j => <[j := b]> (len_buf self) end in
        let seen := S (header_seen self) in
        if decide (seen = 5%nat) then
          let len := be_bytes len_buf' in
          if decide (max self < len) then Err (exceeds_message (max self))
          else Ok (mkLimit (max self) seen len_buf' len, data')
        else Ok (mkLimit (max self) seen len_buf' (body_remaining self), data')
      else
        let take := N.min (body_remaining self) (blen data) in
        let remaining := body_remaining self - take in
        Ok (mkLimit (max self) (if decide (remaining = 0) then 0%nat else header_seen self)
              (len_buf self) remaining, bdrop take data)
  end.

(** [while i < data.len()]: an iteration advances [i], or leaves a finished message, so twice
    the length bounds the iterations ([inspect_fuel_enough]). *)
Fixpoint inspect_fuel (fuel : nat) (self : GrpcSizeLimit) (data : bytes) : result str GrpcSizeLimit :=
  match data with
  | [] => Ok self
  | _ =>
      match fuel with
      | O => Ok self
      | S fuel => '(self', data') ← inspect_step self data; inspect_fuel fuel self' data'
      end
  end.

(** [fn inspect(&mut self, data: &[u8]) -> Result<(), BoxError>] *)
Definition inspect (self : GrpcSizeLimit) (data : bytes) : result str GrpcSizeLimit :=
  inspect_fuel (2 * length data) self data.

(** A frame of an HTTP body, and what polling a body gives. *)
Inductive body_frame (T : Type) : Type :=
| Data (b : bytes)
| Trailers (t : T).
Arguments Data {T} b.
Arguments Trailers {T} t.

Inductive poll (E T : Type) : Type :=
| ReadyFrame (f : body_frame T)
| ReadyErr (e : E)
| ReadyNone
| Pending.
Arguments ReadyFrame {E T} f.
Arguments ReadyErr {E T} e.
Arguments ReadyNone {E T}.
Arguments Pending {E T}.

(** [fn poll_frame]: [inner] is what polling the wrapped body gave; its errors are boxed. *)
Definition poll_frame {E T} (self : GrpcSizeLimit) (inner : poll E T) : poll (E + str) T * GrpcSizeLimit :=
  match inner with
  | ReadyFrame (Data b) =>
      match inspect self b with
      | Ok self' => (ReadyFrame (Data b), self')
      | Err e => (ReadyErr (inr e), self)
      end
  | ReadyFrame (Trailers t) => (ReadyFrame (Trailers t), self)
  | ReadyErr e => (ReadyErr (inl e), self)
  | ReadyNone => (ReadyNone, self)
  | Pending => (Pending, self)
  end.

(** The consumer of the wrapped body: it polls until the body ends or fails. *)
Fixpoint poll_all {E T} (self : GrpcSizeLimit) (inners : list (poll E T)) : list (poll (E + str) T) :=
  match inners with
  | [] => []
  | p :: inners' =>
      match poll_frame self p with
      | (ReadyErr e, _) => [ReadyErr e]
      | (ReadyNone, _) => [ReadyNone]
      | (out, self') => out :: poll_all self' inners'
      end
  end.

(** ** Reference: the lengths a byte stream declares *)

Fixpoint declared_fuel (fuel : nat) (b : bytes) : list N :=
  match fuel, b with
  | S fuel, _ :: b1 :: b2 :: b3 :: b4 :: rest =>
      u32_be b1 b2 b3 b4 :: declared_fuel fuel (bdrop (u32_be b1 b2 b3 b4) rest)
  | _, _ => []
  end.

(** The declared lengths of the gRPC message headers of a stream, one after the other; the
    last message may be incomplete. *)
Definition declared (b : bytes) : list N := declared_fuel (length b) b.

(** ** Lemmas *)

Lemma declared_fuel_stable n1 n2 b :
  (length b <= n1)%nat -> (length b <= n2)%nat -> declared_fuel n1 b = declared_fuel n2 b.
Proof.
  revert n2 b. induction n1 as [|n1 IH]; intros [|n2] b H1 H2.
  - done.
  - by destruct b; simpl in H1; [|lia].
  - by destruct b; simpl in H2; [|lia].
  - destruct b as [|f [|b1 [|b2 [|b3 [|b4 rest]]]]]; try done. cbn [declared_fuel]. f_equal.
    simpl in *. apply IH; unfold bdrop; rewrite length_drop; lia.
Qed.

Lemma declared_fuel_cons n f b1 b2 b3 b4 rest :
  declared_fuel (S n) (f :: b1 :: b2 :: b3 :: b4 :: rest)
  = u32_be b1 b2 b3 b4 :: declared_fuel n (bdrop (u32_be b1 b2 b3 b4) rest).
Proof. done. Qed.

Lemma declared_cons f b1 b2 b3 b4 rest :
  declared (f :: b1 :: b2 :: b3 :: b4 :: rest)
  = u32_be b1 b2 b3 b4 :: declared (bdrop (u32_be b1 b2 b3 b4) rest).
Proof.
  unfold declared. etransitivity; [exact (declared_fuel_cons (S (S (S (S (length rest))))) _ _ _ _ _ _)|]. f_equal.
  apply declared_fuel_stable; unfold bdrop; rewrite length_drop; lia.
Qed.

(** What a stream continuing from state [st] declares: the flag byte is never looked at. *)
Definition declared_from (st : GrpcSizeLimit) (b : bytes) : list N :=
  if decide (header_seen st < 5)%nat then declared (take (header_seen st) (x00 :: len_buf st) ++ b)
  else declared (bdrop (body_remaining st) b).

Definition limit_wf (st : GrpcSizeLimit) : Prop := length (len_buf st) = 4%nat /\ (header_seen st <= 5)%nat.

(** Iterations left: a finished message costs one that takes no byte. *)
Definition inspect_cost (st : GrpcSizeLimit) (data : bytes) : nat :=
  2 * length data - (if decide (header_seen st = 5%nat /\ body_remaining st = 0) then 0 else 1).

Lemma declared_flag f g rest : declared (f :: rest) = declared (g :: rest).
Proof. by destruct rest as [|b1 [|b2 [|b3 [|b4 rest]]]]. Qed.

(** One iteration: the state stays well formed, and the lengths it has checked are the ones
    that drop out of what is still to come. *)
Lemma inspect_step_spec st data b :
  limit_wf st -> data <> [] ->
  match inspect_step st data with
  | Ok (st', data') =>
      limit_wf st' /\ max st' = max st /\
      (exists l, declared_from st (data ++ b) = l ++ declared_from st' (data' ++ b)
                 /\ Forall (fun n => n <= max st) l)
      /\ ((length data' < length data)%nat
          \/ length data' = length data /\ header_seen st = 5%nat
             /\ body_remaining st = 0 /\ header_seen st' = 0%nat)
  | Err e => e = exceeds_message (max st) /\
      exists len l, declared_from st (data ++ b) = len :: l /\ max st < len
  end.
Proof.
  intros [Hl Hh] Hd. destruct data as [|x data]; [done|]. clear Hd.
  destruct st as [mx hs lb rem]. simpl in Hl, Hh.
  destruct lb as [|l0 [|l1 [|l2 [|l3 [|]]]]]; try done. clear Hl.
  unfold inspect_step, declared_from, limit_wf. cbn [header_seen len_buf body_remaining max].
  destruct (decide (hs < 5)%nat) as [Hlt|Hge].
  - destruct hs as [|[|[|[|[|hs]]]]]; [..|lia]; cbn -[u32_be declared bdrop].
    1-4: split; [by split; simpl; lia|]; split; [done|]; split; [|lia];
         exists []; split; [|constructor]; cbn [app];
         apply declared_flag.
    rewrite declared_cons. destruct (decide (mx < _)).
    + split; [done|]. eexists _, _. split; [done|]. lia.
    + split; [by split; simpl; lia|]. split; [done|]. split; [|lia].
      eexists [_]. split; [done|]. repeat constructor. lia.
  - assert (hs = 5%nat) as -> by lia.
    set (tk := N.min rem (blen (x :: data))).
    assert (tk <= blen (x :: data)) as Htk by (subst tk; lia).
    assert (length (bdrop tk (x :: data)) = S (length data) - N.to_nat tk)%nat as Hlen
      by (unfold bdrop; rewrite length_drop; done).
    split; [split; [done|]; simpl; case_decide; lia|]. split; [done|]. split.
    + exists []. split; [|constructor]. cbn [app].
      change (x :: data ++ b) with ((x :: data) ++ b).
      destruct (decide (rem - tk = 0)) as [Hz|Hz]; cbn [header_seen].
      * rewrite decide_True by lia. cbn [take app].
        assert (tk = rem) as Ht by lia. rewrite <- Ht. by rewrite <- bdrop_app_le.
      * rewrite decide_False by lia. cbn [body_remaining].
        assert (tk = blen (x :: data)) as -> by lia.
        rewrite (bdrop_all (blen (x :: data)) (x :: data)) by lia.
        by rewrite (bdrop_app_ge rem (x :: data) b) by lia.
    + simpl. rewrite Hlen. unfold blen in *. destruct (decide (rem - tk = 0)); simpl in *; lia.
Qed.

Lemma inspect_fuel_spec fuel st data b :
  limit_wf st -> (inspect_cost st data <= fuel)%nat ->
  match inspect_fuel fuel st data with
  | Ok st' => limit_wf st' /\ max st' = max st /\
      exists l, declared_from st (data ++ b) = l ++ declared_from st' b /\ Forall (fun n => n <= max st) l
  | Err e => e = exceeds_message (max st) /\
      exists l1 len l2, declared_from st (data ++ b) = l1 ++ len :: l2
        /\ Forall (fun n => n <= max st) l1 /\ max st < len
  end.
Proof.
  revert st data. induction fuel as [|fuel IH]; intros st data Hwf Hfuel;
    (destruct data as [|x data]; [by split; [done|]; split; [done|]; exists []; split; [|constructor]|]).
  { unfold inspect_cost in Hfuel. simpl in Hfuel. destruct (decide _); lia. }
  cbn [inspect_fuel]. pose proof (inspect_step_spec st (x :: data) b Hwf ltac:(done)) as Hs.
  destruct (inspect_step st (x :: data)) as [[st' data']|e]; cbn [mbind result_bind].
  - destruct Hs as (Hwf' & Hmax & (l & Hl & Hle) & Hdec). rewrite <- Hmax in *.
    specialize (IH st' data' Hwf'). destruct (inspect_fuel fuel st' data') as [st''|e].
    + destruct IH as (? & ? & l' & Hl' & Hle').
      { unfold inspect_cost in *. destruct (decide _), (decide _); destruct Hdec; intuition lia. }
      split; [done|]. split; [congruence|]. exists (l ++ l'). rewrite Hl, Hl', app_assoc.
      split; [done|]. by apply Forall_app.
    + destruct IH as (? & l1 & len & l2 & Hl' & Hle' & Hlt).
      { unfold inspect_cost in *. destruct (decide _), (decide _); destruct Hdec; intuition lia. }
      split; [done|]. exists (l ++ l1), len, l2. rewrite Hl, Hl', app_assoc.
      split; [done|]. split; [by apply Forall_app|done].
  - destruct Hs as (-> & len & l & Hl & Hlt). split; [done|]. exists [], len, l. by split; [|split].
Qed.

Lemma inspect_cost_bound st data : (inspect_cost st data <= 2 * length data)%nat.
Proof. unfold inspect_cost. lia. Qed.

Lemma declared_from_nil st : limit_wf st -> declared_from st [] = [].
Proof.
  intros [Hl Hh]. unfold declared_from. destruct (decide _) as [Hlt|].
  - destruct st as [mx hs lb rem]. simpl in *. destruct lb as [|a [|b [|c [|d [|]]]]]; try done.
    destruct hs as [|[|[|[|[|]]]]]; try done; lia.
  - unfold bdrop. by rewrite drop_nil.
Qed.

(** What the data frames among some polls carry. *)
Definition bytes_of {E T} (p : poll E T) : bytes :=
  match p with ReadyFrame (Data b) => b | _ => [] end.
Definition seen {E T} (inners : list (poll E T)) : bytes := concat (map bytes_of inners).
(** A poll passed on as it is. *)
Definition lift {E T} (p : poll E T) : poll (E + str) T :=
  match p with
  | ReadyFrame f => ReadyFrame f
  | ReadyErr e => ReadyErr (inl e)
  | ReadyNone => ReadyNone
  | Pending => Pending
  end.
(** The body goes on after this poll. *)
Definition is_open {E T} (p : poll E T) : bool :=
  match p with ReadyFrame _ | Pending => true | _ => false end.

Definition within (max : N) (b : bytes) : Prop := Forall (fun n => n <= max) (declared b).

Lemma poll_all_spec {E T} (st : GrpcSizeLimit) (inners : list (poll E T)) :
  limit_wf st -> Forall is_open inners ->
  (poll_all st inners = map lift inners
   /\ Forall (fun n => n <= max st) (declared_from st (seen inners)))
  \/ exists k, (k < length inners)%nat
     /\ poll_all st inners = map lift (take k inners) ++ [ReadyErr (inr (exceeds_message (max st)))]
     /\ Forall (fun n => n <= max st) (declared_from st (seen (take k inners)))
     /\ ~ Forall (fun n => n <= max st) (declared_from st (seen (take (S k) inners)))
     /\ ~ Forall (fun n => n <= max st) (declared_from st (seen inners)).
Proof.
  revert st. induction inners as [|p inners IH]; intros st Hwf Ho.
  { left. split; [done|]. by rewrite declared_from_nil. }
  inversion Ho as [|? ? Hp Ho']; subst.
  assert ((exists b, bytes_of p = b /\
            match inspect st b with
            | Ok st' => poll_all st (p :: inners) = lift p :: poll_all st' inners
            | Err e => poll_all st (p :: inners) = [ReadyErr (inr e)]
            end)) as (b & Hb & Hstep).
  { exists (bytes_of p). split; [done|]. destruct p as [[b|t]| | |]; try done. simpl.
    by destruct (inspect st b). }
  pose proof (fun r => inspect_fuel_spec (2 * length b) st b r Hwf (inspect_cost_bound st b)) as Hs.
  unfold inspect in Hstep. destruct (inspect_fuel _ st b) as [st'|e].
  - destruct (Hs []) as (Hwf' & Hmax & _). rewrite Hstep.
    assert (forall r, Forall (fun n => n <= max st) (declared_from st (b ++ r))
                      <-> Forall (fun n => n <= max st') (declared_from st' r)) as Hiff.
    { intros r. destruct (Hs r) as (_ & _ & l & -> & Hl). rewrite Hmax, Forall_app. naive_solver. }
    destruct (IH st' Hwf' Ho') as [[Hp1 Hp2]|(k & Hk & Hp1 & Hp2 & Hp3 & Hp4)].
    + left. simpl. rewrite Hp1. split; [done|]. unfold seen. cbn [map concat]. rewrite Hb. by apply Hiff.
    + right. exists (S k). simpl. rewrite Hp1, Hmax. split; [lia|]. split; [done|].
      unfold seen in *. cbn [map concat]. rewrite Hb. rewrite !Hiff. done.
  - destruct (Hs []) as (-> & _). right. exists 0%nat.
    assert (forall r, ~ Forall (fun n => n <= max st) (declared_from st (b ++ r))) as Hno.
    { intros r. destruct (Hs r) as (_ & l1 & len & l2 & -> & _ & Hlt).
      rewrite Forall_app, Forall_cons. intros (_ & ? & _). lia. }
    split; [simpl; lia|]. split; [done|]. split; [by rewrite declared_from_nil|].
    unfold seen. simpl. rewrite Hb. split; apply Hno.
Qed.

(** The messages a de-framer takes out of a stream are of the lengths the stream declares. *)
Lemma deframe_declared b : map blen (deframe_all b) `prefix_of` declared b.
Proof.
  unfold deframe_all, Deframer.push, Deframer.new. cbn [Deframer.buf app].
  pose proof (DeframerFacts.drain_parses b) as Hp. revert Hp.
  generalize (Deframer.drain (Deframer.mk b)).1 as ms.
  generalize (Deframer.buf (Deframer.drain (Deframer.mk b)).2) as r. intros r ms Hp.
  induction Hp as [b _|flag m ms b rest Hm _ IH]; [apply prefix_nil|].
  unfold be32. cbn [app]. rewrite declared_cons, u32_be_be32, N.mod_small by done.
  cbn [map]. rewrite bdrop_app. by apply prefix_cons.
Qed.

(** ** Properties *)

(** C23: The size limit is exact and transparent, however the transport splits the body: while
    every message header seen declares at most [max] bytes, each poll of the wrapped body is
    passed on as it is; otherwise polls are passed on up to the first data frame in which an
    oversized header completes, and the stream fails there with the limit's message. Every
    message a de-framer could take from an accepted body is within the limit. *)
Theorem size_limit_exact {E T} (max : N) (inners : list (poll E T)) (Hopen : Forall is_open inners) :
  (within max (seen inners) ->
     poll_all (new max) inners = map lift inners
     /\ Forall (fun m => blen m <= max) (deframe_all (seen inners)))
  /\ (~ within max (seen inners) ->
     exists k, (k < length inners)%nat
       /\ poll_all (new max) inners = map lift (take k inners) ++ [ReadyErr (inr (exceeds_message max))]
       /\ within max (seen (take k inners)) /\ ~ within max (seen (take (S k) inners))).
Proof.
  assert (limit_wf (new max)) as Hwf by (split; simpl; lia).
  pose proof (poll_all_spec (new max) inners Hwf Hopen) as Hs.
  change (H2ts.max (new max)) with max in Hs.
  assert (forall b, declared_from (new max) b = declared b) as Hd by done.
  setoid_rewrite Hd in Hs. unfold within.
  split; intros Hw; destruct Hs as [[Hp Hle]|(k & Hk & Hp & Hle & Hgt & Hall)]; try done.
  - split; [done|]. destruct (deframe_declared (seen inners)) as [l Hl]. rewrite Hl in Hw.
    apply Forall_app in Hw as [Hw _]. exact (proj1 (Forall_map blen (fun n => n <= max) _) Hw).
  - eauto 6.
Qed.

(** ** Witnesses *)

Lemma size_limit_exact_witness :
  let body : list (poll unit unit) :=
    map (fun b => ReadyFrame (Data b)) [[x00; x00; x00]; [x00; x01; x41; x00; x00]; [x00; x00; x03; x41]] in
  poll_all (new 3) body = map lift body
  /\ exists k, (k < 3)%nat /\ poll_all (new 2) body = map lift (take k body) ++ [ReadyErr (inr (exceeds_message 2))].
Proof.
  intros body. assert (Forall is_open body) as Ho by (repeat constructor).
  split.
  - apply (size_limit_exact 3 body Ho). unfold within. vm_compute. repeat constructor; done.
  - destruct (proj2 (size_limit_exact 2 body Ho)) as (k & Hk & Hp & _); [|by exists k].
    unfold within. vm_compute. intros Hf. inversion Hf as [|? ? _ Hf']. inversion Hf' as [|? ? Hx _]. by apply Hx.
Defined.
