(* ===== verification/Reflection.v ===== *)
(** * The reflection and JSON libraries the sources call

    [prost_reflect] (descriptor pools, dynamic messages) and [serde_json], as a class of
    operations: the sources only call them, so they are parameters of everything built on
    them. [Kind] is the enumeration [prost_reflect::Kind] the sources match on. *)
From S2P Require Import Prelude RustStd.

Inductive Kind (EnumDescriptor MessageDescriptor : Type) : Type :=
| KDouble | KFloat
| KInt32 | KInt64 | KUint32 | KUint64 | KSint32 | KSint64
| KFixed32 | KFixed64 | KSfixed32 | KSfixed64
| KBool | KString | KBytes
| KMessage (md : MessageDescriptor)
| KEnum (e : EnumDescriptor).
Arguments KDouble {EnumDescriptor MessageDescriptor}.
Arguments KFloat {EnumDescriptor MessageDescriptor}.
Arguments KInt32 {EnumDescriptor MessageDescriptor}.
Arguments KInt64 {EnumDescriptor MessageDescriptor}.
Arguments KUint32 {EnumDescriptor MessageDescriptor}.
Arguments KUint64 {EnumDescriptor MessageDescriptor}.
Arguments KSint32 {EnumDescriptor MessageDescriptor}.
Arguments KSint64 {EnumDescriptor MessageDescriptor}.
Arguments KFixed32 {EnumDescriptor MessageDescriptor}.
Arguments KFixed64 {EnumDescriptor MessageDescriptor}.
Arguments KSfixed32 {EnumDescriptor MessageDescriptor}.
Arguments KSfixed64 {EnumDescriptor MessageDescriptor}.
Arguments KBool {EnumDescriptor MessageDescriptor}.
Arguments KString {EnumDescriptor MessageDescriptor}.
Arguments KBytes {EnumDescriptor MessageDescriptor}.
Arguments KMessage {EnumDescriptor MessageDescriptor} md.
Arguments KEnum {EnumDescriptor MessageDescriptor} e.

Class Reflect : Type := {
  (* descriptors *)
  DescriptorPool : Type;
  ServiceDescriptor : Type;
  MethodDescriptor : Type;
  ExtensionDescriptor : Type;
  MessageDescriptor : Type;
  FieldDescriptor : Type;
  EnumDescriptor : Type;
  pool_decode : bytes -> result str DescriptorPool;
  get_extension_by_name : DescriptorPool -> str -> option ExtensionDescriptor;
  services : DescriptorPool -> list ServiceDescriptor;
  get_service_by_name : DescriptorPool -> str -> option ServiceDescriptor;
  service_full_name : ServiceDescriptor -> str;
  methods : ServiceDescriptor -> list MethodDescriptor;
  method_name : MethodDescriptor -> str;
  method_input : MethodDescriptor -> MessageDescriptor;
  method_output : MethodDescriptor -> MessageDescriptor;
  message_full_name : MessageDescriptor -> str;
  get_field_by_name : MessageDescriptor -> str -> option FieldDescriptor;
  get_field_by_json_name : MessageDescriptor -> str -> option FieldDescriptor;
  field_name : FieldDescriptor -> str;
  json_name : FieldDescriptor -> str;
  kind : FieldDescriptor -> Kind EnumDescriptor MessageDescriptor;
  is_list : FieldDescriptor -> bool;
  is_map : FieldDescriptor -> bool;
  same_oneof : FieldDescriptor -> FieldDescriptor -> bool;
  enum_values : EnumDescriptor -> list (str * Z);
  enum_get_value : EnumDescriptor -> Z -> option str;
  (* dynamic messages and their values *)
  DynamicMessage : Type;
  Value : Type;
  Float : Type;
  options : MethodDescriptor -> DynamicMessage;
  has_extension : DynamicMessage -> ExtensionDescriptor -> bool;
  get_extension : DynamicMessage -> ExtensionDescriptor -> Value;
  as_message : Value -> option DynamicMessage;
  as_list : Value -> option (list Value);
  as_str : Value -> option str;
  VString : str -> Value;
  VBool : bool -> Value;
  VI32 : Z -> Value;
  VI64 : Z -> Value;
  VU32 : N -> Value;
  VU64 : N -> Value;
  VF32 : Float -> Value;
  VF64 : Float -> Value;
  VEnumNumber : Z -> Value;
  VMessage : DynamicMessage -> Value;
  VList : list Value -> Value;
  parse_f32 : str -> option Float;
  parse_f64 : str -> option Float;
  message_new : MessageDescriptor -> DynamicMessage;
  descriptor : DynamicMessage -> MessageDescriptor;
  get_by_name : DynamicMessage -> str -> option Value;
  get_field : DynamicMessage -> FieldDescriptor -> Value;
  set_field : DynamicMessage -> FieldDescriptor -> Value -> DynamicMessage; (** of a valid value *)
  is_valid : Value -> Kind EnumDescriptor MessageDescriptor -> bool;
  is_valid_for_field : Value -> FieldDescriptor -> bool;
  encode_to_vec : DynamicMessage -> bytes;
  message_decode : MessageDescriptor -> bytes -> result str DynamicMessage;
  (* serde_json *)
  JsonError : Type;
  json_error_text : JsonError -> str;
  JsonValue : Type;
  deserialize_json : MessageDescriptor -> bytes -> result JsonError DynamicMessage;
  serialize_json : DynamicMessage -> result JsonError bytes;
  json_string : str -> str;
  json_from_slice : bytes -> result JsonError JsonValue;
  json_to_vec : JsonValue -> result JsonError bytes;
  json_get : JsonValue -> str -> option JsonValue;
  JNull : JsonValue;
  JBool : bool -> JsonValue;
  JNumber : Z -> JsonValue;
  JString : str -> JsonValue;
  JArray : list JsonValue -> JsonValue;
  JEmptyObject : JsonValue
}.

(** [msg.set_field(field, value)]: documented to panic on a value that is not valid for the
    field. *)
Definition set_field_checked `{R : Reflect} (m : DynamicMessage) (f : FieldDescriptor) (v : Value) : run DynamicMessage :=
  if is_valid_for_field v f then Done (set_field m f v) else Panic.

(** What the sources rely on: a set field is read back, setting a field leaves the others
    alone (the members of its oneof aside), and a message keeps its descriptor. *)
Class ReflectLaws (R : Reflect) : Prop := {
  get_set_field m f v : is_valid_for_field v f = true -> get_field (set_field m f v) f = v;
  get_set_field_ne m f g v : f <> g -> same_oneof f g = false -> get_field (set_field m f v) g = get_field m g;
  descriptor_set_field m f v : descriptor (set_field m f v) = descriptor m;
  descriptor_new d : descriptor (message_new d) = d;
  descriptor_deserialize d b m : deserialize_json d b = Ok m -> descriptor m = d
}.

(** Which values are valid, as documented: a single field takes the values of its kind, a
    list lists of them, a map field holds messages; and a message only gives out valid ones. *)
Class ValueLaws (R : Reflect) : Prop := {
  valid_single v f : is_list f = false -> is_map f = false -> is_valid_for_field v f = is_valid v (kind f);
  map_kind f : is_map f = true -> exists md, kind f = KMessage md;
  valid_get m f : is_valid_for_field (get_field m f) f = true;
  valid_string s : is_valid (VString s) KString = true;
  valid_bool b : is_valid (VBool b) KBool = true;
  valid_i32 n k : k = KInt32 \/ k = KSint32 \/ k = KSfixed32 -> is_valid (VI32 n) k = true;
  valid_i64 n k : k = KInt64 \/ k = KSint64 \/ k = KSfixed64 -> is_valid (VI64 n) k = true;
  valid_u32 n k : k = KUint32 \/ k = KFixed32 -> is_valid (VU32 n) k = true;
  valid_u64 n k : k = KUint64 \/ k = KFixed64 -> is_valid (VU64 n) k = true;
  valid_f32 x : is_valid (VF32 x) KFloat = true;
  valid_f64 x : is_valid (VF64 x) KDouble = true;
  valid_enum n e : is_valid (VEnumNumber n) (KEnum e) = true
}.

(** What descriptor pools promise: a listed service is found by its full name, names are
    identifiers, and the methods of a service have different names. *)
Class PoolLaws (R : Reflect) : Prop := {
  service_found p s : s ∈ services p -> get_service_by_name p (service_full_name s) = Some s;
  service_name_plain p s : s ∈ services p -> service_full_name s <> [] /\ "/"%byte ∉ service_full_name s;
  method_names_nodup p s : s ∈ services p -> NoDup (map method_name (methods s))
}.

(** ** An instance: messages of string fields

    A descriptor is the list of its fields (proto name, JSON name), a message pairs it with
    the values that are set; JSON text is an object of string members without escapes. The
    pools are the empty one and one with a service whose method has an HTTP rule. *)
Module Flat.

Definition descriptor_of : Type := list (str * str).
Inductive value : Type :=
| VS (s : str)
| VM (d : descriptor_of) (fields : list ((str * str) * value)).
Definition message : Type := descriptor_of * list ((str * str) * value).

Definition assoc {K V} `{EqDecision K} (l : list (K * V)) (k : K) : option V :=
  snd <$> find (fun p => bool_decide (p.1 = k)) l.

Definition quoted (s : str) : str := x22 :: s ++ [x22].

Definition dequote (s : str) : option str :=
  match s with
  | c :: s' => if decide (c = x22) then strip_suffix x22 s' else None
  | [] => None
  end.

(** [{"a":"b","c":"d"}] *)
Definition members (b : bytes) : option (list (str * str)) :=
  s ← strip_prefix "{"%byte b; s ← strip_suffix "}"%byte s;
  mapM (fun m => '(k, v) ← split_once ":"%byte m; k ← dequote k; v ← dequote v; Some (k, v))
    (filter nonempty (split ","%byte s)).

Definition deserialize (d : descriptor_of) (b : bytes) : result unit message :=
  match members b with
  | Some ms =>
      match mapM (fun m => p ← find (fun p => bool_decide (p.2 = m.1) || bool_decide (p.1 = m.1)) d; Some (p, VS m.2)) ms with
      | Some vs => Ok (d, vs)
      | None => Err tt
      end
  | None => Err tt
  end.

Definition object_text (l : list (str * str)) : str :=
  $"{" ++ join $"," (map (fun p => quoted p.1 ++ $":" ++ quoted p.2) l) ++ $"}".

Definition serialize (m : message) : bytes :=
  object_text (omap (fun p => match assoc m.2 p with Some (VS (c :: s)) => Some (p.2, c :: s) | _ => None end) m.1).

Definition user : descriptor_of := [($"user_id", $"userId"); ($"note", $"note")].
(** [{ get: "/v1/users/{user_id}" }] *)
Definition get_user_rule : message :=
  ([($"get", $"get")], [(($"get", $"get"), VS $"/v1/users/{user_id}")]).
Definition demo : str * list (str * (descriptor_of * message)) :=
  ($"demo.Users", [($"Get", (user, get_user_rule)); ($"List", (user, ([], [])))]).

#[export] Instance reflect : Reflect := {|
  DescriptorPool := bool;
  ServiceDescriptor := str * list (str * (descriptor_of * message));
  MethodDescriptor := str * (descriptor_of * message);
  ExtensionDescriptor := unit;
  MessageDescriptor := descriptor_of;
  FieldDescriptor := str * str;
  EnumDescriptor := unit;
  pool_decode b := Ok (nonempty b);
  get_extension_by_name p _ := if p then Some tt else None;
  services p := if p then [demo] else [];
  get_service_by_name p n := if p && bool_decide (n = demo.1) then Some demo else None;
  service_full_name s := s.1;
  methods s := s.2;
  method_name m := m.1;
  method_input m := m.2.1;
  method_output m := m.2.1;
  message_full_name _ := [];
  get_field_by_name d n := find (fun p => bool_decide (p.1 = n)) d;
  get_field_by_json_name d n := find (fun p => bool_decide (p.2 = n)) d;
  field_name f := f.1;
  json_name f := f.2;
  kind _ := KString;
  is_list _ := false;
  is_map _ := false;
  same_oneof _ _ := false;
  enum_values _ := [];
  enum_get_value _ _ := None;
  DynamicMessage := message;
  Value := value;
  Float := unit;
  options m := m.2.2;
  has_extension o _ := nonempty o.2;
  get_extension o _ := VM o.1 o.2;
  as_message v := match v with VM d l => Some (d, l) | VS _ => None end;
  as_list _ := None;
  as_str v := match v with VS s => Some s | VM _ _ => None end;
  VString s := VS s;
  VBool _ := VS []; VI32 _ := VS []; VI64 _ := VS []; VU32 _ := VS []; VU64 _ := VS [];
  VF32 _ := VS []; VF64 _ := VS []; VEnumNumber _ := VS []; VMessage m := VM m.1 m.2; VList _ := VS [];
  parse_f32 _ := None;
  parse_f64 _ := None;
  message_new d := (d, []);
  descriptor m := m.1;
  get_by_name m n := snd <$> find (fun p => bool_decide (p.1.1 = n)) m.2;
  get_field m f := default (VS []) (assoc m.2 f);
  set_field m f v := (m.1, (f, v) :: m.2);
  is_valid _ _ := true;
  is_valid_for_field _ _ := true;
  encode_to_vec m := serialize m;
  message_decode d b := match deserialize d b with Ok m => Ok m | Err _ => Err [] end;
  JsonError := unit;
  json_error_text _ := [];
  JsonValue := str;
  deserialize_json d b := deserialize d b;
  serialize_json m := Ok (serialize m);
  json_string s := quoted s;
  json_from_slice b := Ok b;
  json_to_vec v := Ok v;
  json_get v k := quoted <$> (l ← members v; assoc l k);
  JNull := $"null";
  JBool b := if b then $"true" else $"false";
  JNumber _ := $"0";
  JString s := quoted s;
  JArray _ := $"[]";
  JEmptyObject := $"{}"
|}.

#[global] Instance reflect_laws : ReflectLaws reflect.
Proof.
  split; simpl; try done.
  - intros m f v _. unfold assoc. simpl. by rewrite bool_decide_eq_true_2.
  - intros m f g v Hne _. unfold assoc. simpl. by rewrite bool_decide_eq_false_2.
  - intros d b m. unfold deserialize. by repeat case_match; intros [= <-].
Qed.

#[global] Instance value_laws : ValueLaws reflect.
Proof. by split. Qed.

#[global] Instance pool_laws : PoolLaws reflect.
Proof.
  split; simpl; intros [] s; try (intros Hs; by apply elem_of_nil in Hs); intros ->%list_elem_of_singleton.
  - done.
  - split; [done|]. vm_compute. set_solver.
  - vm_compute. repeat constructor; set_solver.
Qed.

End Flat.
