(* ===== verification/HttpRule.v ===== *)
(** * REST routing ([rust/crates/grpc-webnext/src/httprule.rs], routing part)

    Path templates, their parser, the matcher with captures and custom verbs, query strings
    and the router table. Building the request message is in [HttpBuild.v]. *)
From S2P Require Import Prelude RustStd Metadata.

(** A parsed path-template segment. *)
Inductive Segment : Type :=
| Literal (s : str)
| AnyOne
| AnyRest
| Capture (field : list str) (subs : list Segment).

(** How the request body maps onto the message. *)
Inductive BodyRule : Type :=
| Wildcard
| Field (f : str)
| NoBody.

(** A captured path variable: the dotted field path and its value. *)
Abbreviation PathVar := (list str * str)%type.

(** ** Templates *)

(** The loop of [split_outside_braces]: [cur] is [s[start..i]]. *)
Fixpoint split_outside_braces_loop (sep : byte) (depth : nat) (cur : str) (s : str) : list str :=
  match s with
  | [] => [cur]
  | c :: s' =>
      if decide (c = "{"%byte) then split_outside_braces_loop sep (S depth) (cur ++ [c]) s'
      else if decide (c = "}"%byte) then split_outside_braces_loop sep (depth - 1) (cur ++ [c]) s'
      else if decide (c = sep /\ depth = 0%nat) then cur :: split_outside_braces_loop sep depth [] s'
      else split_outside_braces_loop sep depth (cur ++ [c]) s'
  end.
Definition split_outside_braces (s : str) (sep : byte) : list str :=
  split_outside_braces_loop sep 0 [] s.

Definition plain_segment (seg : str) : Segment :=
  if decide (seg = $"*") then AnyOne
  else if decide (seg = $"**") then AnyRest
  else Literal seg.

Definition parse_segment (seg : str) : Segment :=
  match (s ← strip_prefix "{"%byte seg; strip_suffix "}"%byte s) with
  | Some inner =>
      let '(field, pattern) := default (inner, $"*") (split_once "="%byte inner) in
      let field_path := split "."%byte field in
      let subs := map plain_segment (filter nonempty (split "/"%byte (trim_matches "/"%byte pattern))) in
      Capture field_path subs
  | None => plain_segment seg
  end.

Definition parse_template (template : str) : list Segment * str :=
  let parts := split_outside_braces template ":"%byte in
  let path := default [] (head parts) in
  let custom_verb := join $":" (tail parts) in
  let segments :=
    map parse_segment (filter nonempty (split_outside_braces (trim_matches "/"%byte path) "/"%byte)) in
  (segments, custom_verb).

(** ** Matching *)

(** The decoder of [httprule.rs] is the same loop as the one of [metadata.rs]. *)
Definition percent_decode (s : str) : run str := Metadata.percent_decode s.

(** [&parts[start..i]] *)
Definition slice {A} (parts : list A) (start i : nat) : run (list A) :=
  if decide (start <= i <= length parts)%nat then Done (take (i - start) (drop start parts)) else Panic.

(** [match_list]: [vars] is the out-parameter. The inner loop runs over one pattern's
    segments; a capture matches its sub-pattern with the same loop. *)
Fixpoint match_segment (parts : list str) (seg : Segment) (i : nat) (vars : list PathVar)
  : run (option (nat * list PathVar)) :=
  match seg with
  | Literal lit => Done (if decide (parts !! i = Some lit) then Some (S i, vars) else None)
  | AnyOne => Done (match parts !! i with Some _ => Some (S i, vars) | None => None end)
  | AnyRest => Done (Some (length parts, vars))
  | Capture field subs =>
      r ← (fix match_list segments i vars :=
             match segments with
             | [] => Done (Some (i, vars))
             | seg :: segments' =>
                 r ← match_segment parts seg i vars;
                 match r with
                 | Some (i', vars') => match_list segments' i' vars'
                 | None => Done None
                 end
             end) subs i vars;
      match r with
      | Some (i', vars') =>
          consumed ← slice parts i i';
          decoded ← run_map percent_decode consumed;
          Done (Some (i', vars' ++ [(field, join $"/" decoded)]))
      | None => Done None
      end
  end.

Fixpoint match_list (parts : list str) (segments : list Segment) (i : nat) (vars : list PathVar)
  : run (option (nat * list PathVar)) :=
  match segments with
  | [] => Done (Some (i, vars))
  | seg :: segments' =>
      r ← match_segment parts seg i vars;
      match r with
      | Some (i', vars') => match_list parts segments' i' vars'
      | None => Done None
      end
  end.

(** The components of a path, the custom verb taken off the last one: [None] when the verb
    is not the binding's. *)
Definition split_verb (parts : list str) (custom_verb : str) : option (list str) :=
  match last parts with
  | Some l =>
      let '(head, verb) := default (l, []) (split_once ":"%byte l) in
      if decide (verb <> custom_verb \/ (head = [] /\ ":"%byte ∈ l)) then None
      else Some (<[(length parts - 1)%nat := head]> parts)
  | None => if decide (custom_verb <> []) then None else Some []
  end.

Definition path_components (path : str) : list str :=
  filter nonempty (split "/"%byte (trim_matches "/"%byte path)).

Definition match_segments (segments : list Segment) (custom_verb path : str) : run (option (list PathVar)) :=
  match split_verb (path_components path) custom_verb with
  | None => Done None
  | Some parts =>
      r ← match_list parts segments 0 [];
      Done (match r with
            | Some (e, vars) => if decide (e = length parts) then Some vars else None
            | None => None
            end)
  end.

(** ** Query strings *)

Definition decode_query (s : str) : run str :=
  percent_decode (map (fun c => if decide (c = "+"%byte) then " "%byte else c) s).

Definition parse_query (query : str) : run (list (str * str)) :=
  run_map (fun pair =>
      let '(k, v) := default (pair, []) (split_once "="%byte pair) in
      k' ← decode_query k; v' ← decode_query v; Done (k', v'))
    (filter nonempty (split "&"%byte query)).

(** ** The router *)

Record Binding (D : Type) : Type := mkBinding {
  http_method : str;
  segments : list Segment;
  custom_verb : str;
  body : BodyRule;
  response_body : str;
  grpc_method : str;
  input : D
}.
Arguments mkBinding {D}.
Arguments http_method {D}.
Arguments segments {D}.
Arguments custom_verb {D}.
Arguments body {D}.
Arguments response_body {D}.
Arguments grpc_method {D}.
Arguments input {D}.

Section router.
Context {D : Type}.

Record WsBinding : Type := mkWsBinding {
  binding : Binding D;
  vars : list PathVar;
  query : option str
}.

Definition ws_grpc_method (self : WsBinding) : str := grpc_method (binding self).
Definition has_body (self : WsBinding) : bool :=
  match body (binding self) with NoBody => false | _ => true end.
Definition ws_response_body (self : WsBinding) : str := response_body (binding self).

Record HttpRouter : Type := mkRouter { bindings : list (Binding D) }.

Definition is_empty (self : HttpRouter) : bool := negb (nonempty (bindings self)).

(** The loop of [match_ws]. *)
Fixpoint match_ws_loop (bs : list (Binding D)) (path : str) (query : option str) : run (option WsBinding) :=
  match bs with
  | [] => Done None
  | b :: bs' =>
      m ← match_segments (segments b) (custom_verb b) path;
      match m with
      | Some vars => Done (Some (mkWsBinding b vars query))
      | None => match_ws_loop bs' path query
      end
  end.
Definition match_ws (self : HttpRouter) (path : str) (query : option str) : run (option WsBinding) :=
  match_ws_loop (bindings self) path query.

Definition is_annotated (self : HttpRouter) (method : str) : bool :=
  existsb (fun b => bool_decide (grpc_method b = method)) (bindings self).

(** The loop of [match_request]. *)
Fixpoint match_request_loop (bs : list (Binding D)) (want path : str) : run (option (Binding D * list PathVar)) :=
  match bs with
  | [] => Done None
  | b :: bs' =>
      if decide (http_method b <> want /\ http_method b <> $"*") then match_request_loop bs' want path
      else
        m ← match_segments (segments b) (custom_verb b) path;
        match m with
        | Some vars => Done (Some (b, vars))
        | None => match_request_loop bs' want path
        end
  end.
Definition match_request (self : HttpRouter) (method path : str) : run (option (Binding D * list PathVar)) :=
  match_request_loop (bindings self) (to_ascii_uppercase method) path.
End router.
Arguments WsBinding : clear implicits.
Arguments HttpRouter : clear implicits.

(** ** Specification: what a template accepts *)

Fixpoint Segment_ind' (P : Segment -> Prop)
  (Hl : forall s, P (Literal s)) (H1 : P AnyOne) (Hr : P AnyRest)
  (Hc : forall f subs, Forall P subs -> P (Capture f subs)) (seg : Segment) : P seg :=
  match seg with
  | Literal s => Hl s
  | AnyOne => H1
  | AnyRest => Hr
  | Capture f subs =>
      Hc f subs ((fix go (l : list Segment) : Forall P l :=
        match l with
        | [] => Forall_nil_2 P
        | x :: l' => Forall_cons_2 P x l' (Segment_ind' P Hl H1 Hr Hc x) (go l')
        end) subs)
  end.

(** [fits segs parts rest vs]: the segments consume [parts] up to [rest] and bind [vs]. A
    [**] may take any number of components. *)
Inductive fits : list Segment -> list str -> list str -> list PathVar -> Prop :=
| fits_nil parts : fits [] parts parts []
| fits_literal s segs parts rest vs :
    fits segs parts rest vs -> fits (Literal s :: segs) (s :: parts) rest vs
| fits_one p segs parts rest vs :
    fits segs parts rest vs -> fits (AnyOne :: segs) (p :: parts) rest vs
| fits_rest taken segs parts rest vs :
    fits segs parts rest vs -> fits (AnyRest :: segs) (taken ++ parts) rest vs
| fits_capture f subs taken decoded segs parts rest vs1 vs2 :
    fits subs (taken ++ parts) parts vs1 ->
    run_map percent_decode taken = Done decoded ->
    fits segs parts rest vs2 ->
    fits (Capture f subs :: segs) (taken ++ parts) rest (vs1 ++ (f, join $"/" decoded) :: vs2).

(** The custom verb of a path, taken off its last component. *)
Inductive verb_split : list str -> str -> list str -> Prop :=
| verb_root : verb_split [] [] []
| verb_none init l : ":"%byte ∉ l -> verb_split (init ++ [l]) [] (init ++ [l])
| verb_some init h v :
    h <> [] -> ":"%byte ∉ h -> verb_split (init ++ [h ++ ":"%byte :: v]) v (init ++ [h]).

(** What the documentation of [match_segments] promises. *)
Definition accepts {D} (b : Binding D) (path : str) (vs : list PathVar) : Prop :=
  exists parts, verb_split (path_components path) (custom_verb b) parts /\ fits (segments b) parts [] vs.

(** The binding answers the HTTP method: [*] answers every one. *)
Definition answers {D} (b : Binding D) (method : str) : Prop :=
  http_method b = to_ascii_uppercase method \/ http_method b = $"*".

(** HttpRule's grammar: [**] only at the end of the template. *)
Fixpoint takes_rest (seg : Segment) : bool :=
  match seg with
  | AnyRest => true
  | Capture _ subs => existsb takes_rest subs
  | _ => false
  end.
Fixpoint seg_grammar (seg : Segment) : bool :=
  match seg with
  | Capture _ subs =>
      (fix go (l : list Segment) : bool :=
         match l with
         | [] => true
         | s :: l' => seg_grammar s && (negb (takes_rest s) || negb (nonempty l')) && go l'
         end) subs
  | _ => true
  end.
Fixpoint grammar (l : list Segment) : bool :=
  match l with
  | [] => true
  | s :: l' => seg_grammar s && (negb (takes_rest s) || negb (nonempty l')) && grammar l'
  end.

(** ** Lemmas on the matcher *)

Lemma match_segment_capture parts f subs i vars :
  match_segment parts (Capture f subs) i vars =
  (r ← match_list parts subs i vars;
   match r with
   | Some (i', vars') =>
       consumed ← slice parts i i';
       decoded ← run_map percent_decode consumed;
       Done (Some (i', vars' ++ [(f, join $"/" decoded)]))
   | None => Done None
   end).
Proof.
  cbn [match_segment]. f_equal. revert i vars.
  induction subs as [|s subs IH]; intros i vars; [done|]. cbn [match_list].
  destruct (match_segment parts s i vars) as [[[i' vars']|]|]; [apply IH|done|done].
Qed.

Lemma seg_grammar_capture f subs : seg_grammar (Capture f subs) = grammar subs.
Proof. cbn [seg_grammar]. induction subs as [|s subs IH]; [done|]. cbn [grammar]. by rewrite IH. Qed.

Lemma lookup_drop_head {A} (l : list A) i x : l !! i = Some x -> drop i l = x :: drop (S i) l.
Proof. intros Hl. by rewrite (drop_S l x i). Qed.

Lemma drop_lookup {A} (l : list A) i x k : drop i l = x :: k -> l !! i = Some x /\ drop (S i) l = k /\ (i < length l)%nat.
Proof.
  intros Hd. assert (l !! i = Some x) as Hx.
  { rewrite <- (Nat.add_0_r i), <- lookup_drop. by rewrite Hd. }
  split; [done|]. split; [|by eapply lookup_lt_Some].
  rewrite (lookup_drop_head l i x Hx) in Hd. congruence.
Qed.

Lemma drop_split {A} (l : list A) i i' :
  (i <= i' <= length l)%nat -> drop i l = take (i' - i) (drop i l) ++ drop i' l.
Proof.
  intros Hi. rewrite <- (take_drop (i' - i) (drop i l)) at 1. f_equal. rewrite drop_drop. f_equal. lia.
Qed.

Lemma drop_split_inv {A} (l : list A) i i' a b :
  (i <= i' <= length l)%nat -> drop i l = a ++ b -> drop i' l = b -> take (i' - i) (drop i l) = a.
Proof.
  intros Hi Ha Hb. rewrite Ha. apply take_app_length'.
  assert (length (drop i l) = length a + length b)%nat as H1 by (by rewrite Ha, length_app).
  assert (length (drop i' l) = length b) as H2 by (by rewrite Hb).
  rewrite !length_drop in *. lia.
Qed.

Lemma fits_app1 s segs a b c v1 v2 :
  fits [s] a b v1 -> fits segs b c v2 -> fits (s :: segs) a c (v1 ++ v2).
Proof.
  intros H1 H2. inversion H1; subst; match goal with H : fits [] _ _ _ |- _ => inversion H; subst end;
    try by constructor.
  rewrite <- app_assoc. by constructor.
Qed.

Lemma run_map_panic {A B} (f : A -> run B) l : run_map f l = Panic -> Exists (fun x => f x = Panic) l.
Proof.
  induction l as [|x l IH]; simpl; [done|]. destruct (f x) eqn:E; [|by left].
  simpl. destruct (run_map f l); [done|]. right. auto.
Qed.

(** What one run of the matcher from index [i] gives. *)
Definition match_ok (parts : list str) (i : nat) (vars : list PathVar)
    (segs : list Segment) (r : run (option (nat * list PathVar))) : Prop :=
  match r with
  | Done (Some (i', vars')) => (i <= i' <= length parts)%nat
      /\ exists vs, vars' = vars ++ vs /\ fits segs (drop i parts) (drop i' parts) vs
  | Done None => True
  | Panic => Exists (fun p => percent_decode p = Panic) parts
  end.

Lemma match_list_ok_of parts segs :
  Forall (fun s => forall i vars, (i <= length parts)%nat -> match_ok parts i vars [s] (match_segment parts s i vars)) segs ->
  forall i vars, (i <= length parts)%nat -> match_ok parts i vars segs (match_list parts segs i vars).
Proof.
  induction 1 as [|s segs Hs _ IH]; intros i vars Hi.
  { split; [lia|]. exists []. rewrite app_nil_r. by split; [|constructor]. }
  cbn [match_list]. specialize (Hs i vars Hi).
  destruct (match_segment parts s i vars) as [[[i1 vars1]|]|]; [|done|done].
  destruct Hs as (Hi1 & vs1 & -> & Hf1). cbn [mbind run_bind].
  specialize (IH i1 (vars ++ vs1) ltac:(lia)). unfold match_ok in *.
  destruct (match_list parts segs i1 (vars ++ vs1)) as [[[i2 vars2]|]|]; [|done|done].
  destruct IH as (Hi2 & vs2 & -> & Hf2). split; [lia|].
  exists (vs1 ++ vs2). rewrite app_assoc. split; [done|]. by eapply fits_app1.
Qed.

Lemma match_segment_ok parts s i vars :
  (i <= length parts)%nat -> match_ok parts i vars [s] (match_segment parts s i vars).
Proof.
  revert i vars. induction s as [l| | |f subs IH] using Segment_ind'; intros i vars Hi.
  - simpl. case_decide as Hl; [|done]. pose proof (lookup_lt_Some _ _ _ Hl).
    split; [lia|]. exists []. rewrite app_nil_r, (lookup_drop_head _ _ _ Hl). repeat constructor.
  - simpl. destruct (parts !! i) as [p|] eqn:Hl; [|done]. pose proof (lookup_lt_Some _ _ _ Hl).
    split; [lia|]. exists []. rewrite app_nil_r, (lookup_drop_head _ _ _ Hl). repeat constructor.
  - simpl. split; [lia|]. exists []. rewrite app_nil_r. split; [done|].
    rewrite (drop_split parts i (length parts)) by lia. repeat constructor.
  - rewrite match_segment_capture.
    pose proof (match_list_ok_of parts subs IH i vars Hi) as Hs.
    destruct (match_list parts subs i vars) as [[[i1 vars1]|]|]; [|done|done].
    destruct Hs as (Hi1 & vs & -> & Hf). cbn [mbind run_bind]. unfold slice.
    rewrite decide_True by done. cbn [mbind run_bind].
    destruct (run_map percent_decode _) as [ds|] eqn:Ed; cbn [mbind run_bind].
    + split; [done|]. exists (vs ++ [(f, join $"/" ds)]). split; [by rewrite app_assoc|].
      rewrite (drop_split parts i i1) in Hf |- * by done. econstructor; [done|done|constructor].
    + apply run_map_panic in Ed. apply Exists_exists in Ed as (p & Hp & Hd). apply Exists_exists.
      exists p. split; [|done]. eapply elem_of_sublist; [exact Hp|]. by rewrite sublist_take, sublist_drop.
Qed.

Lemma match_list_ok parts segs i vars :
  (i <= length parts)%nat -> match_ok parts i vars segs (match_list parts segs i vars).
Proof. apply match_list_ok_of, Forall_true. intros s i' vars'. apply match_segment_ok. Qed.

(** Under the grammar the matcher finds the match the template allows. *)
Lemma match_list_complete segs ps rest vs :
  fits segs ps rest vs -> grammar segs = true -> (existsb takes_rest segs = true -> rest = []) ->
  forall parts i vars, drop i parts = ps -> (i <= length parts)%nat ->
  exists i', match_list parts segs i vars = Done (Some (i', vars ++ vs))
             /\ drop i' parts = rest /\ (i <= i' <= length parts)%nat.
Proof.
  induction 1 as [ps|s segs ps rest vs _ IH|p segs ps rest vs _ IH|taken segs ps rest vs Hf IH
                 |f subs taken ds segs ps rest vs1 vs2 Hf1 IH1 Hd Hf2 IH2];
    intros Hg Hr parts i vars Hp Hi.
  - exists i. rewrite app_nil_r. auto.
  - apply drop_lookup in Hp as (Hl & Hp & Hlt). cbn [match_list match_segment].
    rewrite decide_True by done. cbn [mbind run_bind].
    destruct (IH Hg Hr parts (S i) vars Hp) as (i' & Hm & Hd & Hi'); [lia|].
    exists i'. split; [done|]. split; [done|lia].
  - apply drop_lookup in Hp as (Hl & Hp & Hlt). cbn [match_list match_segment].
    rewrite Hl. cbn [mbind run_bind].
    destruct (IH Hg Hr parts (S i) vars Hp) as (i' & Hm & Hd & Hi'); [lia|].
    exists i'. split; [done|]. split; [done|lia].
  - destruct segs as [|s segs]; [|done]. inversion Hf; subst. rewrite Hr by done.
    exists (length parts). cbn. rewrite app_nil_r, drop_all. split; [done|]. split; [done|lia].
  - cbn [grammar existsb] in *. rewrite seg_grammar_capture in Hg.
    apply andb_prop in Hg as [Hg Hg2]. apply andb_prop in Hg as [Hg1 Hlast].
    destruct (IH1 Hg1) with (parts := parts) (i := i) (vars := vars) as (i1 & Hm1 & Hd1 & Hi1); [|done|done|].
    { intros Ht. cbn [takes_rest] in *. rewrite Ht in *. destruct segs; [|done].
      inversion Hf2; subst. by apply Hr. }
    cbn [match_list]. rewrite match_segment_capture, Hm1. cbn [mbind run_bind]. unfold slice.
    rewrite decide_True by done. cbn [mbind run_bind].
    rewrite (drop_split_inv parts i i1 taken ps) by done. rewrite Hd. cbn [mbind run_bind].
    destruct (IH2 Hg2) with (parts := parts) (i := i1) (vars := (vars ++ vs1) ++ [(f, join $"/" ds)])
      as (i2 & Hm2 & Hd2 & Hi2); [|done|lia|].
    { intros Ht. apply Hr. rewrite Ht. by destruct (takes_rest _). }
    exists i2. rewrite Hm2. split; [|split; [done|lia]]. by rewrite <- !app_assoc.
Qed.

Lemma insert_last {A} (l : list A) x y : <[ (length (l ++ [x]) - 1)%nat := y ]> (l ++ [x]) = l ++ [y].
Proof.
  rewrite length_app. simpl. replace (length l + 1 - 1)%nat with (length l + 0)%nat by lia.
  by rewrite insert_app_r.
Qed.

Lemma split_verb_sound parts verb parts' :
  split_verb parts verb = Some parts' -> verb_split parts verb parts'.
Proof.
  unfold split_verb. destruct parts as [|l init _] using rev_ind; simpl.
  { case_decide as Hv; [done|]. intros [= <-]. rewrite Hv. constructor. }
  rewrite last_snoc. destruct (split_once ":"%byte l) as [[h v]|] eqn:E; simpl.
  - apply split_once_Some in E as [-> Hh]. case_decide as Hd; [done|].
    intros [= <-]. rewrite insert_last.
    destruct (decide (v = verb)) as [<-|]; [|by destruct Hd; left].
    constructor; [|done]. intros ->. apply Hd. right. split; [done|]. set_solver.
  - apply split_once_None in E. case_decide as Hd; [done|]. intros [= <-]. rewrite insert_last.
    destruct (decide (verb = [])) as [->|]; [|by destruct Hd; left]. by constructor.
Qed.

Lemma split_verb_spec parts verb parts' :
  split_verb parts verb = Some parts' <-> verb_split parts verb parts'.
Proof.
  split; [apply split_verb_sound|]. unfold split_verb.
  intros [|init l Hl|init h v Hne Hh]; [done|..]; rewrite last_snoc.
  - rewrite (proj2 (split_once_None _ _)) by done. simpl. rewrite decide_False by set_solver.
    by rewrite insert_last.
  - rewrite split_once_app by done. simpl. rewrite decide_False by naive_solver.
    by rewrite insert_last.
Qed.

(** The matcher against its specification, for one binding. *)
Lemma match_segments_sound {D} (b : Binding D) path vs :
  match_segments (segments b) (custom_verb b) path = Done (Some vs) -> accepts b path vs.
Proof.
  unfold match_segments, accepts. destruct (split_verb _ _) as [parts|] eqn:E; [|done].
  apply split_verb_spec in E. pose proof (match_list_ok parts (segments b) 0 [] ltac:(lia)) as Hm.
  destruct (match_list parts (segments b) 0 []) as [[[i' vars']|]|]; [|done|done].
  destruct Hm as (Hi & vs' & -> & Hf). simpl. case_decide as Hlen; [|done]. intros [= <-].
  exists parts. split; [done|]. by rewrite Hlen, drop_all in Hf.
Qed.

Lemma match_segments_complete {D} (b : Binding D) path vs :
  grammar (segments b) = true -> accepts b path vs ->
  match_segments (segments b) (custom_verb b) path = Done (Some vs).
Proof.
  intros Hg (parts & Hv & Hf). unfold match_segments.
  rewrite (proj2 (split_verb_spec _ _ _)) by exact Hv.
  destruct (match_list_complete _ _ _ _ Hf Hg ltac:(done) parts 0 []) as (i' & Hm & Hd & Hi); [done|lia|].
  rewrite Hm. simpl. rewrite decide_True; [done|].
  apply (f_equal length) in Hd. rewrite length_drop in Hd. simpl in Hd. lia.
Qed.

Lemma is_ascii_Forall s : is_ascii s = true <-> Forall (fun b => bN b < 128) s.
Proof.
  unfold is_ascii. rewrite forallb_forall, Forall_forall.
  setoid_rewrite list_elem_of_In. setoid_rewrite N.ltb_lt. done.
Qed.

Lemma trim_start_incl c s : trim_start c s ⊆ s.
Proof. induction s as [|x s IH]; simpl; [done|]. case_decide; set_solver. Qed.


Lemma elem_of_rev {A} (x : A) l : x ∈ rev l <-> x ∈ l.
Proof. rewrite !list_elem_of_In. symmetry. apply in_rev. Qed.

Lemma trim_matches_incl c s : trim_matches c s ⊆ s.
Proof.
  unfold trim_matches, trim_end. intros x Hx. rewrite elem_of_rev in Hx.
  apply trim_start_incl, elem_of_rev, trim_start_incl in Hx. done.
Qed.

Lemma split_incl c s p : p ∈ split c s -> p ⊆ s.
Proof.
  intros Hp x Hx. revert p Hp Hx. induction s as [|y s IH]; simpl; intros p Hp Hx.
  { apply list_elem_of_singleton in Hp as ->. by apply elem_of_nil in Hx. }
  rewrite elem_of_cons. case_decide.
  { apply elem_of_cons in Hp as [->|Hp]; [by apply elem_of_nil in Hx|eauto]. }
  destruct (split c s) as [|q qs].
  { apply list_elem_of_singleton in Hp as ->. apply list_elem_of_singleton in Hx. auto. }
  apply elem_of_cons in Hp as [->|Hp].
  - apply elem_of_cons in Hx as [->|Hx]; [by left|]. right. by apply (IH q); [left|].
  - right. by apply (IH p); [right|].
Qed.

Lemma path_components_incl path p : p ∈ path_components path -> p ⊆ path.
Proof.
  unfold path_components. rewrite list_elem_of_filter. intros [_ Hp].
  etrans; [by eapply split_incl|apply trim_matches_incl].
Qed.

Lemma verb_split_incl parts verb parts' p :
  verb_split parts verb parts' -> p ∈ parts' -> exists q, q ∈ parts /\ p ⊆ q.
Proof.
  intros [|init l Hl|init h v Hne Hh] Hp; [by exists p|by exists p|].
  rewrite elem_of_app, list_elem_of_singleton in Hp. destruct Hp as [Hp| ->].
  - exists p. set_solver.
  - exists (h ++ ":"%byte :: v). set_solver.
Qed.

(** An ASCII path is matched without a panic. *)
Lemma match_segments_total {D} (b : Binding D) path :
  is_ascii path = true -> exists r, match_segments (segments b) (custom_verb b) path = Done r.
Proof.
  intros Ha. unfold match_segments. destruct (split_verb _ _) as [parts|] eqn:E; [|by eexists].
  apply split_verb_spec in E. pose proof (match_list_ok parts (segments b) 0 [] ltac:(lia)) as Hm.
  destruct (match_list parts (segments b) 0 []) as [[[i' vars']|]|]; [by eexists..|].
  apply Exists_exists in Hm as (p & Hp & Hd). exfalso.
  destruct (verb_split_incl _ _ _ _ E Hp) as (q & Hq & Hpq). apply path_components_incl in Hq.
  destruct (percent_decode_ascii p) as [out Ho]; [|unfold percent_decode in Hd; congruence].
  apply is_ascii_Forall, Forall_forall. intros x Hx. apply is_ascii_Forall in Ha.
  rewrite Forall_forall in Ha. auto.
Qed.

(** A binding [b] of a grammatical router answers the path exactly when it accepts it. *)
Lemma match_segments_cases {D} (b : Binding D) path :
  grammar (segments b) = true -> is_ascii path = true ->
  (exists vs, match_segments (segments b) (custom_verb b) path = Done (Some vs) /\ accepts b path vs)
  \/ (match_segments (segments b) (custom_verb b) path = Done None /\ forall vs, ~ accepts b path vs).
Proof.
  intros Hg Ha. destruct (match_segments_total b path Ha) as [[vs|] E].
  - left. exists vs. split; [done|]. by apply match_segments_sound.
  - right. split; [done|]. intros vs Hvs. apply match_segments_complete in Hvs; [|done]. congruence.
Qed.

(** Every capture of a parsed template names a field, so what a match binds has a path. *)
Fixpoint named (seg : Segment) : bool :=
  match seg with Capture f subs => nonempty f && forallb named subs | _ => true end.

Lemma forallb_map_all {A B} (f : B -> bool) (g : A -> B) l : (forall x, f (g x) = true) -> forallb f (map g l) = true.
Proof. intros Hf. induction l as [|x l IH]; [done|]. cbn. by rewrite Hf. Qed.

Lemma plain_segment_named seg : named (plain_segment seg) = true.
Proof. unfold plain_segment. by repeat case_decide. Qed.

Lemma parse_segment_named seg : named (parse_segment seg) = true.
Proof.
  unfold parse_segment. case_match; [|apply plain_segment_named].
  destruct (default _ _) as [field pattern]. cbn [named]. apply andb_true_intro. split.
  - destruct (split _ field) eqn:E; [by apply split_nonempty in E|done].
  - apply forallb_map_all, plain_segment_named.
Qed.

Lemma parse_template_named template : forallb named (parse_template template).1 = true.
Proof. apply forallb_map_all, parse_segment_named. Qed.

Lemma fits_named segs ps rest vs :
  fits segs ps rest vs -> forallb named segs = true -> Forall (fun v => v.1 <> []) vs.
Proof.
  induction 1 as [| | | |f subs taken ds segs ps rest vs1 vs2 _ IH1 _ _ IH2]; cbn [forallb named]; try done.
  intros [[Hf Hs]%andb_prop Hsegs]%andb_prop. apply Forall_app. split; [auto|].
  constructor; [by destruct f|auto].
Qed.

Lemma accepts_named {D} (b : Binding D) path vs :
  accepts b path vs -> forallb named (segments b) = true -> Forall (fun v => v.1 <> []) vs.
Proof. intros (parts & _ & Hf). by eapply fits_named. Qed.

(** What the two searches return is a binding of the router that accepts the path. *)
Lemma match_request_found {D} (self : HttpRouter D) method path b vs :
  match_request self method path = Done (Some (b, vs)) -> b ∈ bindings self /\ accepts b path vs.
Proof.
  unfold match_request. induction (bindings self) as [|b' bs IH]; [done|]. cbn [match_request_loop].
  case_decide; [intros Hm; by destruct (IH Hm); split; [right|]|].
  destruct (match_segments _ _ _) as [[vs'|]|] eqn:Em; cbn [mbind run_bind]; [| |done].
  - intros [= -> ->]. split; [left|]. by apply match_segments_sound.
  - intros Hm. by destruct (IH Hm); split; [right|].
Qed.

Lemma match_ws_found {D} (self : HttpRouter D) path query w :
  match_ws self path query = Done (Some w) ->
  binding w ∈ bindings self /\ accepts (binding w) path (vars w) /\ HttpRule.query w = query.
Proof.
  unfold match_ws. induction (bindings self) as [|b' bs IH]; [done|]. cbn [match_ws_loop].
  destruct (match_segments _ _ _) as [[vs'|]|] eqn:Em; cbn [mbind run_bind]; [| |done].
  - intros [= <-]. split; [left|]. split; [|done]. by apply match_segments_sound.
  - intros Hm. destruct (IH Hm) as (? & ? & ?). by split; [right|].
Qed.

(** ASCII requests are searched and their queries parsed without a panic. *)
Lemma match_request_total {D} (self : HttpRouter D) method path :
  is_ascii path = true -> exists r, match_request self method path = Done r.
Proof.
  intros Ha. unfold match_request. induction (bindings self) as [|b bs IH]; [by eexists|]. cbn [match_request_loop].
  case_decide; [done|]. destruct (match_segments_total b path Ha) as [[vs|] ->]; [by eexists|done].
Qed.

Lemma run_map_total {A B} (f : A -> run B) l :
  (forall x, x ∈ l -> exists y, f x = Done y) -> exists ys, run_map f l = Done ys.
Proof.
  induction l as [|x l IH]; intros Hf; [by eexists|]. cbn [run_map].
  destruct (Hf x ltac:(by left)) as [y ->]. destruct IH as [ys ->]; [|by eexists].
  intros z Hz. apply Hf. by right.
Qed.

Lemma is_ascii_incl p s : p ⊆ s -> is_ascii s = true -> is_ascii p = true.
Proof. rewrite !is_ascii_Forall, !Forall_forall. auto. Qed.

Lemma decode_query_total s : is_ascii s = true -> exists r, decode_query s = Done r.
Proof.
  intros Ha. apply percent_decode_ascii. rewrite is_ascii_Forall in *. apply Forall_map.
  eapply Forall_impl; [exact Ha|]. intros c Hc. cbn. by case_decide.
Qed.

Lemma parse_query_total q : is_ascii q = true -> exists r, parse_query q = Done r.
Proof.
  intros Ha. apply run_map_total. intros pair [_ Hp%split_incl]%list_elem_of_filter.
  apply (is_ascii_incl pair) in Ha; [|done].
  assert (forall k v, split_once "="%byte pair = Some (k, v) -> is_ascii k = true /\ is_ascii v = true) as Hs.
  { intros k v [-> _]%split_once_Some. rewrite is_ascii_app, is_ascii_cons in Ha.
    by apply andb_prop in Ha as [? [_ ?]%andb_prop]. }
  destruct (split_once _ pair) as [[k v]|]; simpl.
  - destruct (Hs k v eq_refl) as [Hk Hv]. destruct (decode_query_total k Hk) as [? ->].
    destruct (decode_query_total v Hv) as [? ->]. by eexists.
  - destruct (decode_query_total pair Ha) as [? ->]. by eexists.
Qed.

(** ** Rendering templates *)

Fixpoint render_segment (seg : Segment) : str :=
  match seg with
  | Literal s => s
  | AnyOne => $"*"
  | AnyRest => $"**"
  | Capture f subs => $"{" ++ join $"." f ++ $"=" ++ join $"/" (map render_segment subs) ++ $"}"
  end.

Definition render_template (segs : list Segment) (verb : str) : str :=
  $"/" ++ join $"/" (map render_segment segs) ++ (if decide (verb = []) then [] else ":"%byte :: verb).

(** Text free of the bytes in [cs]. *)
Definition free_of (cs : list byte) (s : str) : Prop := Forall (fun c => c ∉ cs) s.

(** A literal or wildcard as it may stand inside a capture. *)
Definition plain_ok (cs : list byte) (seg : Segment) : Prop :=
  match seg with
  | Literal s => s <> [] /\ s <> $"*" /\ s <> $"**" /\ free_of cs s
  | AnyOne | AnyRest => True
  | Capture _ _ => False
  end.

(** The segments a template can spell. *)
Definition segment_ok (seg : Segment) : Prop :=
  match seg with
  | Capture f subs =>
      f <> [] /\ Forall (free_of ["."%byte; "="%byte; "{"%byte; "}"%byte]) f
      /\ Forall (plain_ok ["/"%byte; "{"%byte; "}"%byte]) subs
  | _ => plain_ok ["/"%byte; ":"%byte; "{"%byte; "}"%byte] seg
  end.

(** [s] splits off as a unit: no brace stays open and no separator is outside braces. *)
Definition closed_for (sep : byte) (s : str) : Prop :=
  forall cur rest, split_outside_braces_loop sep 0 cur (s ++ rest) = split_outside_braces_loop sep 0 (cur ++ s) rest.

Lemma closed_free sep s : free_of [sep; "{"%byte; "}"%byte] s -> closed_for sep s.
Proof.
  intros Hf. induction Hf as [|c s Hc _ IH]; intros cur rest; [by rewrite app_nil_r|].
  cbn [app split_outside_braces_loop]. rewrite !decide_False by set_solver.
  rewrite IH. by rewrite <- app_assoc.
Qed.

Lemma split_inside sep s cur rest :
  free_of ["{"%byte; "}"%byte] s ->
  split_outside_braces_loop sep 1 cur (s ++ rest) = split_outside_braces_loop sep 1 (cur ++ s) rest.
Proof.
  intros Hf. revert cur. induction Hf as [|c s Hc _ IH]; intros cur; [by rewrite app_nil_r|].
  cbn [app split_outside_braces_loop]. rewrite !decide_False by set_solver.
  rewrite IH. by rewrite <- app_assoc.
Qed.

Lemma closed_braces sep s : free_of ["{"%byte; "}"%byte] s -> closed_for sep ($"{" ++ s ++ $"}").
Proof.
  intros Hf cur rest. change ($"{") with ["{"%byte]. change ($"}") with ["}"%byte].
  cbn [app split_outside_braces_loop]. rewrite <- app_assoc, split_inside by done.
  cbn [app split_outside_braces_loop Nat.sub]. by rewrite <- !app_assoc.
Qed.

Lemma closed_app sep a b : closed_for sep a -> closed_for sep b -> closed_for sep (a ++ b).
Proof. intros Ha Hb cur rest. by rewrite <- app_assoc, Ha, Hb, app_assoc. Qed.

Lemma free_of_app cs a b : free_of cs (a ++ b) <-> free_of cs a /\ free_of cs b.
Proof. apply Forall_app. Qed.

Lemma free_of_weaken cs cs' s : cs' ⊆ cs -> free_of cs s -> free_of cs' s.
Proof. intros Hi Hf. eapply Forall_impl; [exact Hf|]. set_solver. Qed.

Lemma free_of_join cs sep ps : free_of cs sep -> Forall (free_of cs) ps -> free_of cs (join sep ps).
Proof.
  intros Hsep Hps. induction Hps as [|p ps Hp Hps IH]; [constructor|].
  destruct ps as [|q ps]; [done|]. rewrite join_cons by done. rewrite !free_of_app. auto.
Qed.

Lemma free_of_not_elem c cs s : c ∈ cs -> free_of cs s -> c ∉ s.
Proof. intros Hc Hf Hs. unfold free_of in Hf. rewrite Forall_forall in Hf. by apply (Hf c Hs). Qed.

Lemma split_sep_closed sep p rest :
  sep <> "{"%byte -> sep <> "}"%byte -> closed_for sep p ->
  split_outside_braces_loop sep 0 [] (p ++ sep :: rest) = p :: split_outside_braces_loop sep 0 [] rest.
Proof.
  intros H1 H2 Hp. rewrite Hp. cbn [app split_outside_braces_loop].
  rewrite decide_False by done. rewrite decide_False by done. by rewrite decide_True by done.
Qed.

Lemma split_outside_braces_join sep ps :
  sep <> "{"%byte -> sep <> "}"%byte -> ps <> [] -> Forall (closed_for sep) ps ->
  split_outside_braces (join [sep] ps) sep = ps.
Proof.
  intros H1 H2 Hne Hps. unfold split_outside_braces.
  induction Hps as [|p ps Hp Hps IH]; [done|]. destruct ps as [|q ps].
  - simpl. rewrite <- (app_nil_r p) at 1. by rewrite Hp.
  - rewrite join_cons by done. cbn [app]. rewrite split_sep_closed by done. f_equal. by apply IH.
Qed.

Lemma split_outside_braces_free sep s :
  sep <> "{"%byte -> sep <> "}"%byte -> free_of ["{"%byte; "}"%byte] s ->
  split_outside_braces s sep = split sep s.
Proof.
  intros H1 H2 Hf. rewrite <- (join_split sep s) at 1.
  apply split_outside_braces_join; [done|done|apply split_nonempty|].
  apply Forall_forall. intros p Hp. apply closed_free.
  apply Forall_forall. intros x Hx. pose proof (split_no_sep sep s) as Hs. rewrite Forall_forall in Hs.
  specialize (Hs p Hp). apply (split_incl sep s p Hp) in Hx as Hxs.
  unfold free_of in Hf. rewrite Forall_forall in Hf. specialize (Hf x Hxs). set_solver.
Qed.

(** [s] has bytes, and neither end is [c]. *)
Definition edges (c : byte) (s : str) : Prop :=
  (exists x s', s = x :: s' /\ x <> c) /\ (exists s' y, s = s' ++ [y] /\ y <> c).

Lemma trim_matches_edges c s : edges c s -> trim_matches c s = s.
Proof.
  intros [(x & s' & -> & Hx) (s'' & y & Hs & Hy)]. unfold trim_matches, trim_end.
  cbn [trim_start]. rewrite decide_False by done. rewrite Hs, rev_app_distr. cbn [rev app trim_start].
  rewrite decide_False by done. cbn [rev]. by rewrite rev_involutive.
Qed.

Lemma edges_free c s : s <> [] -> c ∉ s -> edges c s.
Proof.
  intros Hne Hc. split.
  - destruct s as [|x s]; [done|]. exists x, s. set_solver.
  - destruct s as [|y s _] using rev_ind; [done|]. exists s, y. set_solver.
Qed.

Lemma edges_join c ps : ps <> [] -> Forall (edges c) ps -> edges c (join [c] ps).
Proof.
  intros Hne Hps. induction Hps as [|p ps Hp Hps IH]; [done|]. destruct ps as [|q ps]; [done|].
  rewrite join_cons by done. destruct Hp as [(x & s' & -> & Hx) _].
  destruct IH as [_ (s'' & y & -> & Hy)]; [done|]. split; [by exists x, (s' ++ [c] ++ s'' ++ [y])|].
  exists ((x :: s') ++ [c] ++ s''), y. by rewrite <- !app_assoc.
Qed.

Lemma strip_suffix_app c s : strip_suffix c (s ++ [c]) = Some s.
Proof. unfold strip_suffix. rewrite rev_app_distr. simpl. rewrite decide_True by done. by rewrite rev_involutive. Qed.

Lemma filter_nonempty ps : Forall (fun p : str => p <> []) ps -> filter nonempty ps = ps.
Proof. induction 1 as [|p ps Hp _ IH]; [done|]. rewrite filter_cons_True; [by rewrite IH|by destruct p]. Qed.

Lemma plain_render cs seg : plain_ok cs seg -> plain_segment (render_segment seg) = seg.
Proof.
  destruct seg as [s| | |]; simpl; [|done..]. intros (_ & H1 & H2 & _).
  unfold plain_segment. by rewrite !decide_False.
Qed.

Lemma plain_render_text cs seg :
  plain_ok cs seg -> "*"%byte ∉ cs -> render_segment seg <> [] /\ free_of cs (render_segment seg).
Proof.
  destruct seg as [s| | |]; simpl; intros Hp Hs; [by destruct Hp as (? & _ & _ & ?)| | |done];
    (split; [done|repeat constructor; done]).
Qed.

Lemma render_subs subs :
  Forall (plain_ok ["/"%byte; "{"%byte; "}"%byte]) subs ->
  let text := join $"/" (map render_segment subs) in
  free_of ["{"%byte; "}"%byte] text
  /\ map plain_segment (filter nonempty (split "/"%byte (trim_matches "/"%byte text))) = subs.
Proof.
  intros Hs text. change ($"/") with ["/"%byte] in text.
  assert (Forall (fun p => p <> [] /\ free_of ["/"%byte; "{"%byte; "}"%byte] p) (map render_segment subs)) as Hr.
  { apply Forall_map. eapply Forall_impl; [exact Hs|]. intros seg Hp. apply plain_render_text; [done|set_solver]. }
  split.
  - apply free_of_join; [repeat constructor; set_solver|]. eapply Forall_impl; [exact Hr|].
    intros p [_ Hp]. eapply free_of_weaken, Hp. set_solver.
  - destruct subs as [|seg subs]; [done|]. set (ps := map render_segment (seg :: subs)) in *.
    unfold text. rewrite trim_matches_edges; [rewrite split_join; [|done|]|].
    + rewrite filter_nonempty by (eapply Forall_impl; [exact Hr|]; naive_solver).
      unfold ps. rewrite map_map. rewrite <- (map_id (seg :: subs)) at 2. apply map_ext_in.
      intros x Hx. rewrite Forall_forall in Hs. eapply plain_render, Hs. by apply list_elem_of_In.
    + eapply Forall_impl; [exact Hr|]. intros p [_ Hp]. eapply free_of_not_elem, Hp. set_solver.
    + apply edges_join; [done|]. eapply Forall_impl; [exact Hr|]. intros p [Hne Hp].
      apply edges_free; [done|]. eapply free_of_not_elem, Hp. set_solver.
Qed.

Lemma parse_render_segment seg : segment_ok seg -> parse_segment (render_segment seg) = seg.
Proof.
  destruct seg as [s| | |f subs]; [|done..|].
  - intros (Hne & H1 & H2 & Hf). unfold parse_segment. cbn [render_segment].
    destruct s as [|c s]; [done|]. cbn [strip_prefix]. rewrite decide_False.
    + cbn [mbind option_bind]. unfold plain_segment. by rewrite !decide_False.
    + intros ->. inversion Hf; subst. set_solver.
  - intros (Hne & Hf & Hs). destruct (render_subs subs Hs) as [_ Hsubs].
    unfold parse_segment. cbn [render_segment].
    change ($"{") with ["{"%byte]. change ($"}") with ["}"%byte]. change ($"=") with ["="%byte].
    set (text := join $"/" _) in *. cbn [app strip_prefix]. rewrite decide_True by done. cbn [mbind option_bind].
    replace (join $"." f ++ "="%byte :: text ++ ["}"%byte])
      with ((join $"." f ++ "="%byte :: text) ++ ["}"%byte]) by (by rewrite <- app_assoc).
    rewrite strip_suffix_app, split_once_app.
    2:{ eapply (free_of_not_elem _ ["="%byte]); [set_solver|]. apply free_of_join; [repeat constructor; set_solver|].
        eapply Forall_impl; [exact Hf|]. intros p Hp. eapply free_of_weaken, Hp. set_solver. }
    cbn [default from_option id]. change ($".") with ["."%byte]. rewrite split_join; [|done|].
    2:{ eapply Forall_impl; [exact Hf|]. intros p Hp. eapply free_of_not_elem, Hp. set_solver. }
    by rewrite Hsubs.
Qed.

Lemma render_segment_shape seg :
  segment_ok seg ->
  edges "/"%byte (render_segment seg) /\ render_segment seg <> []
  /\ forall sep, sep = "/"%byte \/ sep = ":"%byte -> closed_for sep (render_segment seg).
Proof.
  destruct seg as [s| | |f subs].
  - intros (Hne & _ & _ & Hf). cbn [render_segment]. split; [|split; [done|]].
    + apply edges_free; [done|]. eapply free_of_not_elem, Hf. set_solver.
    + intros sep Hsep. apply closed_free. eapply free_of_weaken, Hf. set_solver.
  - intros _. cbn [render_segment]. split; [apply edges_free; [done|set_solver]|]. split; [done|].
    intros sep [-> | ->]; apply closed_free; repeat constructor; set_solver.
  - intros _. cbn [render_segment]. split; [apply edges_free; [done|set_solver]|]. split; [done|].
    intros sep [-> | ->]; apply closed_free; repeat constructor; set_solver.
  - intros (Hne & Hf & Hs). destruct (render_subs subs Hs) as [Hfree _]. cbn [render_segment].
    split; [|split; [done|]].
    + split; [by eexists "{"%byte, _|].
      eexists ($"{" ++ join $"." f ++ $"=" ++ join $"/" (map render_segment subs)), "}"%byte.
      split; [|done]. by rewrite <- !app_assoc.
    + intros sep _. rewrite (app_assoc (join _ f)), (app_assoc (join _ f ++ _)). apply closed_braces.
      rewrite !free_of_app. split; [split|done]; [|repeat constructor; set_solver].
      apply free_of_join; [repeat constructor; set_solver|].
      eapply Forall_impl; [exact Hf|]. intros p Hp. eapply free_of_weaken, Hp. set_solver.
Qed.

Lemma render_path segs :
  Forall segment_ok segs ->
  let path := $"/" ++ join $"/" (map render_segment segs) in
  closed_for ":"%byte path
  /\ map parse_segment (filter nonempty (split_outside_braces (trim_matches "/"%byte path) "/"%byte)) = segs.
Proof.
  intros Hs path. change ($"/") with ["/"%byte] in path.
  assert (Forall (fun p => edges "/"%byte p /\ p <> [] /\ closed_for "/"%byte p /\ closed_for ":"%byte p)
            (map render_segment segs)) as Hr.
  { apply Forall_map. eapply Forall_impl; [exact Hs|]. intros seg Hp.
    destruct (render_segment_shape seg Hp) as (? & ? & Hc).
    split; [done|]. split; [done|]. split; apply Hc; auto. }
  split.
  - apply closed_app; [apply closed_free; repeat constructor; set_solver|].
    induction Hr as [|p ps (_ & _ & _ & Hp) Hps IH]; [by intros cur rest; rewrite app_nil_r|].
    destruct ps as [|q ps]; [done|]. rewrite join_cons by done. apply closed_app; [done|].
    apply closed_app; [apply closed_free; repeat constructor; set_solver|done].
  - assert (trim_matches "/"%byte path = trim_matches "/"%byte (join ["/"%byte] (map render_segment segs))) as ->
      by done.
    destruct segs as [|seg segs]; [done|]. set (ps := map render_segment (seg :: segs)) in *.
    rewrite trim_matches_edges; [|apply edges_join; [done|]; eapply Forall_impl; [exact Hr|]; naive_solver].
    rewrite split_outside_braces_join; [|done|done|done|eapply Forall_impl; [exact Hr|]; naive_solver].
    rewrite filter_nonempty; [|eapply Forall_impl; [exact Hr|]; naive_solver].
    unfold ps. rewrite map_map. rewrite <- (map_id (seg :: segs)) at 2. apply map_ext_in.
    intros x Hx. rewrite Forall_forall in Hs. apply parse_render_segment, Hs. by apply list_elem_of_In.
Qed.
(** ** Paths and queries given by their parts *)

Lemma path_components_join ps :
  Forall (fun p => p <> [] /\ "/"%byte ∉ p) ps -> ps <> [] -> path_components ("/"%byte :: join $"/" ps) = ps.
Proof.
  intros Hps Hne. unfold path_components. change ($"/") with ["/"%byte].
  replace (trim_matches "/"%byte ("/"%byte :: join ["/"%byte] ps)) with (trim_matches "/"%byte (join ["/"%byte] ps)) by done.
  rewrite trim_matches_edges by (apply edges_join; [done|]; eapply Forall_impl; [exact Hps|];
    intros p [? ?]; by apply edges_free).
  rewrite split_join by (done || (eapply Forall_impl; [exact Hps|]; naive_solver)).
  apply filter_nonempty. eapply Forall_impl; [exact Hps|]. naive_solver.
Qed.

(** A path without a colon is matched component by component. *)
Lemma match_segments_join segs ps :
  Forall (fun p => p <> [] /\ ("/"%byte ∉ p) /\ ":"%byte ∉ p) ps -> ps <> [] ->
  match_segments segs [] ("/"%byte :: join $"/" ps)
  = (r ← match_list ps segs 0 [];
     Done (match r with
           | Some (e, vars) => if decide (e = length ps) then Some vars else None
           | None => None
           end)).
Proof.
  intros Hps Hne. unfold match_segments.
  rewrite path_components_join by (done || (eapply Forall_impl; [exact Hps|]; naive_solver)).
  destruct ps as [|l ps _] using rev_ind; [done|]. apply Forall_app in Hps as [_ [Hl _]%Forall_cons].
  rewrite (proj2 (split_verb_spec (ps ++ [l]) [] (ps ++ [l]))); [done|]. constructor. naive_solver.
Qed.

Lemma parse_query_one k v :
  k <> [] -> "&"%byte ∉ (k ++ v) -> "="%byte ∉ k ->
  parse_query (k ++ "="%byte :: v) = (k' ← decode_query k; v' ← decode_query v; Done [(k', v')]).
Proof.
  intros Hk Ha He. unfold parse_query. rewrite split_no_sep_singleton.
  - rewrite filter_cons_True by (by destruct k). rewrite filter_nil. cbn [run_map]. rewrite split_once_app by done.
    simpl. destruct (decode_query k); [|done]. cbn. by destruct (decode_query v).
  - rewrite elem_of_app, elem_of_cons in *. naive_solver.
Qed.

Lemma decode_query_id s : is_ascii s = true -> "%"%byte ∉ s -> "+"%byte ∉ s -> decode_query s = Done s.
Proof.
  intros Ha Hp Hq. unfold decode_query. assert (map (fun c => if decide (c = "+"%byte) then " "%byte else c) s = s) as ->.
  { rewrite <- (map_id s) at 2. apply map_ext_in. intros c Hc%list_elem_of_In. rewrite decide_False; [done|]. by intros ->. }
  by apply percent_decode_id.
Qed.

(** ** Properties *)


(** C15: Routing is exact and first-match-wins. For an ASCII path and templates of HttpRule's
    grammar, the router never panics; what it returns is the first binding that answers the
    method and accepts the path (components and custom verb, both ways), with the captured
    values the template determines; and it returns nothing only when no binding does. A
    WebSocket upgrade is routed the same way, whatever the method. *)
Theorem router_exact {D} (r : HttpRouter D) (method path : str) (query : option str)
  (Hpath : is_ascii path = true) (Hgrammar : Forall (fun b => grammar (segments b) = true) (bindings r)) :
  match match_request r method path with
  | Done (Some (b, vs)) => exists pre post, bindings r = pre ++ b :: post
      /\ answers b method /\ accepts b path vs
      /\ Forall (fun b' => ~ (answers b' method /\ exists vs', accepts b' path vs')) pre
  | Done None => Forall (fun b' => ~ (answers b' method /\ exists vs', accepts b' path vs')) (bindings r)
  | Panic => False
  end
  /\ match match_ws r path query with
  | Done (Some w) => HttpRule.query w = query
      /\ exists pre post, bindings r = pre ++ binding w :: post
      /\ accepts (binding w) path (vars w)
      /\ Forall (fun b' => forall vs', ~ accepts b' path vs') pre
  | Done None => Forall (fun b' => forall vs', ~ accepts b' path vs') (bindings r)
  | Panic => False
  end.
Proof.
  unfold match_request, match_ws. destruct r as [bs]. simpl in *.
  induction Hgrammar as [|b bs Hb Hbs [IH1 IH2]]; [split; apply Forall_nil_2|].
  destruct (match_segments_cases b path Hb Hpath) as [(vs & Hm & Ha)|[Hm Hn]];
    cbn [match_request_loop match_ws_loop]; rewrite Hm; cbn [mbind run_bind].
  - split; [|split; [done|]; exists [], bs; by repeat split].
    case_decide as Hd; [|exists [], bs; unfold answers; split; [done|]; split; [|by split]].
    + destruct (match_request_loop bs _ path) as [[[b' vs']|]|]; [|constructor; [|done]|done];
        [destruct IH1 as (pre & post & -> & ? & ? & ?); exists (b :: pre), post; repeat split; try done; constructor; [|done]|];
        unfold answers; naive_solver.
    + destruct (decide (http_method b = to_ascii_uppercase method)); [by left|].
      destruct (decide (http_method b = $"*")); [by right|]. naive_solver.
  - assert (~ (answers b method /\ exists vs', accepts b path vs')) as Hno by naive_solver.
    split.
    + enough (match match_request_loop bs (to_ascii_uppercase method) path with
              | Done (Some (b', vs)) => exists pre post, b :: bs = pre ++ b' :: post
                  /\ answers b' method /\ accepts b' path vs
                  /\ Forall (fun b' => ~ (answers b' method /\ exists vs', accepts b' path vs')) pre
              | Done None => Forall (fun b' => ~ (answers b' method /\ exists vs', accepts b' path vs')) (b :: bs)
              | Panic => False
              end) by (case_decide; done).
      destruct (match_request_loop bs _ path) as [[[b' vs']|]|]; [|by constructor|done].
      destruct IH1 as (pre & post & -> & ? & ? & ?). exists (b :: pre), post. repeat split; try done. by constructor.
    + destruct (match_ws_loop bs path query) as [[w|]|]; [|by constructor|done].
      destruct IH2 as (? & pre & post & -> & ? & ?). split; [done|]. exists (b :: pre), post.
      repeat split; try done. by constructor.
Qed.


(** ** Witnesses *)


Lemma router_exact_witness :
  let b := mkBinding $"GET" [Literal $"v1"; Capture [$"id"] [AnyOne]] $"cancel" NoBody [] $"/p.S/M" tt in
  let r := mkRouter [b] in
  match_request r $"get" $"/v1/5:cancel" = Done (Some (b, [([$"id"], $"5")]))
  /\ accepts b $"/v1/5:cancel" [([$"id"], $"5")]
  /\ match_request r $"get" $"/v1/5" = Done None.
Proof.
  intros b r. split; [vm_compute; reflexivity|]. split; [|vm_compute; reflexivity].
  assert (Forall (fun b => grammar (segments b) = true) (bindings r)) as Hg by (repeat constructor).
  pose proof (proj1 (router_exact r $"get" $"/v1/5:cancel" None eq_refl Hg)) as Hr.
  destruct Hr as (pre & post & _ & _ & Ha & _). exact Ha.
Defined.
