(* ===== verification/HttpBuild.v ===== *)
(** * REST request building ([rust/crates/grpc-webnext/src/httprule.rs], message part)

    Compiling the router from a descriptor pool, and building the request message of a
    matched binding from the body, the path captures and the query parameters, over the
    operations of [prost_reflect] and [serde_json] ([Reflection.v]). *)
From S2P Require Import Prelude RustStd Reflection HttpRule.

Section build.
Context {R : Reflect}.
(** [format!("{raw:?}")] of a string: the escapes of Rust's [Debug]. *)
Context (fmt_debug : str -> str).

(** [enum TranscodeError] ([transcode.rs]) and its [Display]. *)
Inductive TranscodeError : Type :=
| EDescriptor (s : str)
| EUnknownMethod (s : str)
| EJson (e : JsonError)
| EDecode (s : str)
| EHttp (s : str).

Definition display (e : TranscodeError) : str :=
  match e with
  | EDescriptor s => $"failed to load descriptor set: " ++ s
  | EUnknownMethod s => $"unknown method: " ++ s
  | EJson e => $"json error: " ++ json_error_text e
  | EDecode s => $"protobuf decode error: " ++ s
  | EHttp s => $"http transcoding: " ++ s
  end.

(** ** Compiling the router *)

Definition HTTP_EXT : str := $"google.api.http".

(** [m.get_field_by_name(name).and_then(|v| v.as_str()...)] *)
Definition str_field (m : DynamicMessage) (name : str) : option str :=
  v ← get_by_name m name; as_str v.

Fixpoint first_verb (rule : DynamicMessage) (fields : list (str * str)) : option (str * str) :=
  match fields with
  | [] => None
  | (field, verb) :: fields' =>
      match str_field rule field with
      | Some (c :: s) => Some (verb, c :: s)
      | _ => first_verb rule fields'
      end
  end.

Definition verb_and_path (rule : DynamicMessage) : option (str * str) :=
  match first_verb rule [($"get", $"GET"); ($"put", $"PUT"); ($"post", $"POST");
                         ($"delete", $"DELETE"); ($"patch", $"PATCH")] with
  | Some p => Some p
  | None =>
      match (v ← get_by_name rule $"custom"; as_message v) with
      | Some m =>
          let kind := default [] (str_field m $"kind") in
          let path := default [] (str_field m $"path") in
          if nonempty kind then Some (to_ascii_uppercase kind, path) else None
      | None => None
      end
  end.

Definition body_rule (rule : DynamicMessage) : BodyRule :=
  let b := default [] (str_field rule $"body") in
  if decide (b = []) then NoBody else if decide (b = $"*") then Wildcard else Field b.

Definition push_binding (bs : list (Binding MessageDescriptor)) (rule : DynamicMessage) (grpc_method : str)
    (input : MessageDescriptor) : list (Binding MessageDescriptor) :=
  match verb_and_path rule with
  | None => bs
  | Some (http_method, template) =>
      let '(segments, custom_verb) := parse_template template in
      bs ++ [mkBinding http_method segments custom_verb (body_rule rule)
               (default [] (str_field rule $"response_body")) grpc_method input]
  end.

Definition collect_rule (bs : list (Binding MessageDescriptor)) (rule : DynamicMessage) (grpc_method : str)
    (input : MessageDescriptor) : list (Binding MessageDescriptor) :=
  let bs := push_binding bs rule grpc_method input in
  match (l ← get_by_name rule $"additional_bindings"; as_list l) with
  | Some items =>
      foldl (fun bs item => match as_message item with
                            | Some m => push_binding bs m grpc_method input
                            | None => bs
                            end) bs items
  | None => bs
  end.

Definition from_pool (pool : DescriptorPool) : HttpRouter MessageDescriptor :=
  match get_extension_by_name pool HTTP_EXT with
  | None => mkRouter []
  | Some ext =>
      mkRouter (foldl (fun bs service =>
        foldl (fun bs method =>
          let opts := options method in
          if has_extension opts ext then
            let grpc_method := $"/" ++ service_full_name service ++ $"/" ++ method_name method in
            match as_message (get_extension opts ext) with
            | Some rule => collect_rule bs rule grpc_method (method_input method)
            | None => bs
            end
          else bs) bs (methods service)) [] (services pool))
  end.

(** ** Setting fields *)

Definition deserialize_message (desc : MessageDescriptor) (json : bytes) : result TranscodeError DynamicMessage :=
  if nonempty json then map_err EJson (deserialize_json desc json) else Ok (message_new desc).

Definition field_by_any_name (desc : MessageDescriptor) (name : str) : option FieldDescriptor :=
  match get_field_by_name desc name with
  | Some f => Some f
  | None => get_field_by_json_name desc name
  end.

Definition set_from_json (msg : DynamicMessage) (field : FieldDescriptor) (json_text : str)
  : run (result TranscodeError DynamicMessage) :=
  let doc := $"{" ++ json_string (json_name field) ++ $":" ++ json_text ++ $"}" in
  scratch <-? Done (map_err (fun e => EHttp ($"invalid value for " ++ field_name field ++ $": " ++ display e))
                      (deserialize_message (descriptor msg) doc)) ;;
  Ok <$> set_field_checked msg field (get_field scratch field).

Definition wkt_json_shape (md : MessageDescriptor) : option bool :=
  let n := message_full_name md in
  if decide (n ∈ [$"google.protobuf.Timestamp"; $"google.protobuf.Duration"; $"google.protobuf.FieldMask";
                  $"google.protobuf.StringValue"; $"google.protobuf.BytesValue";
                  $"google.protobuf.Int64Value"; $"google.protobuf.UInt64Value"]) then Some true
  else if decide (n ∈ [$"google.protobuf.BoolValue"; $"google.protobuf.Int32Value";
                       $"google.protobuf.UInt32Value"; $"google.protobuf.FloatValue";
                       $"google.protobuf.DoubleValue"]) then Some false
  else None.

Definition set_message_field (msg : DynamicMessage) (name : str) (json : bytes)
  : run (result TranscodeError DynamicMessage) :=
  field <-? Done (ok_or (EHttp ($"unknown body field: " ++ name)) (field_by_any_name (descriptor msg) name)) ;;
  text <-? Done (ok_or (EHttp ($"body field " ++ name ++ $": not valid UTF-8")) (from_utf8 json)) ;;
  set_from_json msg field text.

Definition coerce (field : FieldDescriptor) (raw : str) : result TranscodeError Value :=
  let num := ok_or (EHttp ($"invalid value for " ++ field_name field ++ $": " ++ fmt_debug raw)) in
  match kind field with
  | KString => Ok (VString raw)
  | KBool =>
      if decide (raw = $"true" \/ raw = $"1") then Ok (VBool true)
      else if decide (raw = $"false" \/ raw = $"0") then Ok (VBool false)
      else Err (EHttp ($"invalid bool: " ++ fmt_debug raw))
  | KInt32 | KSint32 | KSfixed32 => num (VI32 <$> parse_i32 raw)
  | KInt64 | KSint64 | KSfixed64 => num (VI64 <$> parse_i64 raw)
  | KUint32 | KFixed32 => num (VU32 <$> parse_u32 raw)
  | KUint64 | KFixed64 => num (VU64 <$> parse_u64 raw)
  | KFloat => num (VF32 <$> parse_f32 raw)
  | KDouble => num (VF64 <$> parse_f64 raw)
  | KEnum e =>
      match parse_i32 raw with
      | Some n => Ok (VEnumNumber n)
      | None =>
          match find (fun v => bool_decide (v.1 = raw)) (enum_values e) with
          | Some v => Ok (VEnumNumber v.2)
          | None => Err (EHttp ($"unknown enum value: " ++ fmt_debug raw))
          end
      end
  | KBytes => Err (EHttp $"bytes must bind through the JSON decoder")
  | KMessage _ => Err (EHttp $"cannot bind a scalar to a message field")
  end.

(** The end of a path in [set_by_path]: a list is appended to in place. *)
Definition set_scalar (msg : DynamicMessage) (field : FieldDescriptor) (raw : str)
  : run (result TranscodeError DynamicMessage) :=
  value <-? Done (coerce field raw) ;;
  if is_list field then
    match as_list (get_field msg field) with
    | Some l => Done (Ok (set_field msg field (VList (l ++ [value]))))
    | None => Done (Ok msg)
    end
  else Ok <$> set_field_checked msg field value.

Definition set_leaf (msg : DynamicMessage) (field : FieldDescriptor) (raw : str)
  : run (result TranscodeError DynamicMessage) :=
  match kind field with
  | KBytes => set_from_json msg field (json_string raw)
  | KMessage md =>
      if negb (is_list field) && negb (is_map field) then
        match wkt_json_shape md with
        | Some true => set_from_json msg field (json_string raw)
        | Some false => set_from_json msg field raw
        | None => Done (Err (EHttp ($"cannot bind a path/query value to message field " ++ field_name field
                                ++ $" (" ++ message_full_name md ++ $")")))
        end
      else set_scalar msg field raw
  | _ => set_scalar msg field raw
  end.

(** [set_by_path]: the path is indexed at 0, so an empty one panics. *)
Fixpoint set_by_path (msg : DynamicMessage) (path : list str) (raw : str)
  : run (result TranscodeError DynamicMessage) :=
  match path with
  | [] => Panic
  | name :: rest =>
      match field_by_any_name (descriptor msg) name with
      | None => Done (Err (EHttp ($"unknown field: " ++ name)))
      | Some field =>
          match rest with
          | [] => set_leaf msg field raw
          | _ =>
              match as_message (get_field msg field) with
              | None => Done (Err (EHttp ($"field " ++ name ++ $" is not a message")))
              | Some sub => sub' <-? set_by_path sub rest raw ;; Done (Ok (set_field msg field (VMessage sub')))
              end
          end
      end
  end.

(** ** Building the message *)

(** The loop over the path captures. *)
Fixpoint set_vars (msg : DynamicMessage) (vars : list PathVar) : run (result TranscodeError DynamicMessage) :=
  match vars with
  | [] => Done (Ok msg)
  | (field_path, value) :: vars' => msg' <-? set_by_path msg field_path value ;; set_vars msg' vars'
  end.

(** The loop over the query parameters: one whose path is captured is skipped. *)
Fixpoint set_query (vars : list PathVar) (msg : DynamicMessage) (params : list (str * str))
  : run (result TranscodeError DynamicMessage) :=
  match params with
  | [] => Done (Ok msg)
  | (key, value) :: params' =>
      let field_path := split "."%byte key in
      if existsb (fun v => bool_decide (v.1 = field_path)) vars then set_query vars msg params'
      else msg' <-? set_by_path msg field_path value ;; set_query vars msg' params'
  end.

(** The message the body gives, before the captures and the query. *)
Definition body_message (binding : Binding MessageDescriptor) (payload : bytes)
  : run (result TranscodeError DynamicMessage) :=
  match body binding with
  | Wildcard => Done (deserialize_message (input binding) payload)
  | NoBody => Done (Ok (message_new (input binding)))
  | Field field =>
      let m := message_new (input binding) in
      if nonempty payload then set_message_field m field payload else Done (Ok m)
  end.

(** [build_message] up to its final [encode_to_vec]. *)
Definition built_message (binding : Binding MessageDescriptor) (vars : list PathVar) (query : option str)
    (payload : bytes) : run (result TranscodeError DynamicMessage) :=
  msg <-? body_message binding payload ;;
  msg <-? set_vars msg vars ;;
  match body binding, query with
  | Wildcard, _ | _, None => Done (Ok msg)
  | _, Some q => params ← parse_query q; set_query vars msg params
  end.

Definition build_message (binding : Binding MessageDescriptor) (vars : list PathVar) (query : option str)
    (payload : bytes) : run (result TranscodeError bytes) :=
  msg <-? built_message binding vars query payload ;; Done (Ok (encode_to_vec msg)).

Definition ws_build_message (self : WsBinding MessageDescriptor) (payload : bytes) : run (result TranscodeError bytes) :=
  build_message (binding self) (vars self) (query self) payload.

Record HttpCall : Type := mkHttpCall {
  call_grpc_method : str;
  call_message : bytes;
  call_response_body : str
}.

Definition transcode (self : HttpRouter MessageDescriptor) (method path : str) (query : option str) (payload : bytes)
  : run (result TranscodeError (option HttpCall)) :=
  m ← match_request self method path;
  match m with
  | None => Done (Ok None)
  | Some (binding, vars) =>
      message <-? build_message binding vars query payload ;;
      Done (Ok (Some (mkHttpCall (grpc_method binding) message (response_body binding))))
  end.
End build.

(** ** Lemmas *)

Section facts.
Context {R : Reflect} {RL : ReflectLaws R} (fmt_debug : str -> str).

(** Binding a value through a path whose first name is not [f]'s leaves [f] alone. *)
Definition elsewhere (d : MessageDescriptor) (f : FieldDescriptor) (name : str) : Prop :=
  forall g, field_by_any_name d name = Some g -> g <> f /\ same_oneof g f = false.

Lemma set_field_checked_inv {E} msg g v msg' :
  (Ok <$> set_field_checked msg g v : run (result E DynamicMessage)) = Done (Ok msg') ->
  msg' = set_field msg g v /\ is_valid_for_field v g = true.
Proof. unfold set_field_checked. destruct (is_valid_for_field v g); [|done]. by intros [= <-]. Qed.

Lemma set_from_json_shape msg g text msg' :
  set_from_json msg g text = Done (Ok msg') -> exists v, msg' = set_field msg g v.
Proof.
  unfold set_from_json. destruct (map_err _ _) as [scratch|]; [|done]. cbn [rbind].
  intros [-> _]%set_field_checked_inv. by eexists.
Qed.

Lemma set_scalar_shape msg g raw msg' :
  set_scalar fmt_debug msg g raw = Done (Ok msg') -> msg' = msg \/ exists v, msg' = set_field msg g v.
Proof.
  unfold set_scalar. destruct (coerce fmt_debug g raw) as [v|]; [|done]. cbn [rbind].
  destruct (is_list g); [|intros [-> _]%set_field_checked_inv; eauto].
  destruct (as_list _); intros [= <-]; eauto.
Qed.

(** A leaf is bound by setting its field, once, or not at all. *)
Lemma set_leaf_shape msg g raw msg' :
  set_leaf fmt_debug msg g raw = Done (Ok msg') -> msg' = msg \/ exists v, msg' = set_field msg g v.
Proof.
  pose proof (set_from_json_shape msg g) as Hj. pose proof (set_scalar_shape msg g raw msg') as Hc.
  unfold set_leaf. intros Hs. repeat case_match; eauto; done.
Qed.

(** One binding sets one top-level field, the one its first name resolves to. *)
Lemma set_by_path_shape msg name rest raw msg' :
  set_by_path fmt_debug msg (name :: rest) raw = Done (Ok msg') ->
  msg' = msg \/ exists g v, field_by_any_name (descriptor msg) name = Some g /\ msg' = set_field msg g v.
Proof.
  intros Hs. cbn [set_by_path] in Hs. destruct (field_by_any_name _ name) as [g|] eqn:Eg; [|done].
  destruct rest as [|name' rest].
  - apply set_leaf_shape in Hs as [->|[v ->]]; eauto.
  - destruct (as_message _) as [sub|]; [|done].
    destruct (set_by_path fmt_debug sub (name' :: rest) raw) as [[sub'|]|]; [|done|done].
    injection Hs as <-. eauto.
Qed.

Lemma set_by_path_descriptor msg path raw msg' :
  set_by_path fmt_debug msg path raw = Done (Ok msg') -> descriptor msg' = descriptor msg.
Proof.
  destruct path as [|name rest]; [done|]. intros [->|(g & v & _ & ->)]%set_by_path_shape; [done|].
  apply descriptor_set_field.
Qed.

(** A path variable or a query path whose first name is not [f]'s. *)
Definition path_elsewhere (d : MessageDescriptor) (f : FieldDescriptor) (path : list str) : Prop :=
  match path with name :: _ => elsewhere d f name | [] => True end.

Lemma set_path_frame msg path raw msg' f :
  set_by_path fmt_debug msg path raw = Done (Ok msg') -> path_elsewhere (descriptor msg) f path ->
  get_field msg' f = get_field msg f.
Proof.
  destruct path as [|name rest]; [done|]. intros [->|(g & v & Hg & ->)]%set_by_path_shape He; [done|].
  destruct (He g Hg). by apply get_set_field_ne.
Qed.

Lemma set_vars_frame msg vs msg' :
  set_vars fmt_debug msg vs = Done (Ok msg') ->
  descriptor msg' = descriptor msg
  /\ forall f, Forall (fun v => path_elsewhere (descriptor msg) f v.1) vs -> get_field msg' f = get_field msg f.
Proof.
  revert msg. induction vs as [|[path raw] vs IH]; intros msg; cbn [set_vars]; [by intros [= <-]|].
  destruct (set_by_path fmt_debug msg path raw) as [[m1|]|] eqn:E; [|done|done]. cbn [rbind]. intros Hs.
  destruct (IH m1 Hs) as [Hd Hf]. pose proof (set_by_path_descriptor _ _ _ _ E) as Hd1.
  split; [congruence|]. intros f Hall. inversion Hall as [|? ? Hp Hall']; subst.
  rewrite Hf by (by rewrite Hd1). by eapply set_path_frame.
Qed.

Lemma set_query_frame vs msg params msg' :
  set_query fmt_debug vs msg params = Done (Ok msg') ->
  forall f, Forall (fun p => split "."%byte p.1 ∈ map fst vs \/ path_elsewhere (descriptor msg) f (split "."%byte p.1)) params ->
    get_field msg' f = get_field msg f.
Proof.
  revert msg. induction params as [|[k raw] params IH]; intros msg; cbn [set_query]; [by intros [= <-]|].
  intros Hs f Hall. inversion Hall as [|? ? Hp Hall']; subst. cbn [fst] in Hp.
  destruct (existsb _ vs) eqn:Ex; [by apply IH|].
  destruct (set_by_path fmt_debug msg (split "."%byte k) raw) as [[m1|]|] eqn:E; [|done|done]. cbn [rbind] in Hs.
  pose proof (set_by_path_descriptor _ _ _ _ E) as Hd1.
  rewrite (IH m1 Hs) by (by rewrite Hd1).
  destruct Hp as [Hin|Hp]; [|by eapply set_path_frame]. exfalso.
  apply list_elem_of_In, in_map_iff in Hin as (v & Hv & Hin).
  rewrite (proj2 (existsb_exists _ vs)) in Ex; [done|]. exists v. by rewrite bool_decide_eq_true_2.
Qed.

Lemma body_message_descriptor b payload m : body_message b payload = Done (Ok m) -> descriptor m = input b.
Proof.
  unfold body_message, deserialize_message. destruct (body b) as [|field|].
  - case_match; [|intros [= <-]; apply descriptor_new].
    destruct (deserialize_json _ _) eqn:E; intros [= <-]. by eapply descriptor_deserialize.
  - case_match; [|intros [= <-]; apply descriptor_new]. unfold set_message_field.
    destruct (field_by_any_name _ _); [|done]. destruct (from_utf8 _); [|done]. cbn [ok_or rbind].
    intros [v ->]%set_from_json_shape. by rewrite descriptor_set_field, descriptor_new.
  - intros [= <-]. apply descriptor_new.
Qed.

Lemma set_vars_app msg vs1 vs2 msg' :
  set_vars fmt_debug msg (vs1 ++ vs2) = Done (Ok msg') ->
  exists m1, set_vars fmt_debug msg vs1 = Done (Ok m1) /\ set_vars fmt_debug m1 vs2 = Done (Ok msg').
Proof.
  revert msg. induction vs1 as [|[path raw] vs1 IH]; intros msg; cbn [app set_vars]; [eauto|].
  destruct (set_by_path fmt_debug msg path raw) as [[m1|]|]; [|done|done]. cbn [rbind]. apply IH.
Qed.

Lemma built_message_inv b vs query payload m :
  built_message fmt_debug b vs query payload = Done (Ok m) ->
  exists m0 m1, body_message b payload = Done (Ok m0) /\ set_vars fmt_debug m0 vs = Done (Ok m1)
    /\ ((body b = Wildcard \/ query = None) /\ m = m1
        \/ exists q params, query = Some q /\ body b <> Wildcard /\ parse_query q = Done params
                            /\ set_query fmt_debug vs m1 params = Done (Ok m)).
Proof.
  unfold built_message. destruct (body_message b payload) as [[m0|]|]; [|done|done]. cbn [rbind].
  destruct (set_vars fmt_debug m0 vs) as [[m1|]|] eqn:Ev; [|done|done]. cbn [rbind]. intros Hb.
  exists m0, m1. split; [done|]. split; [done|].
  destruct (body b) eqn:Eb; [left; split; [auto|congruence]| |];
    (destruct query as [q|]; [|left; split; [auto|congruence]]);
    (destruct (parse_query q) as [params|] eqn:Eq; [|done]); right; eauto 10.
Qed.
End facts.

(** Every value the builder sets is valid for its field. *)
Section validity.
Context {R : Reflect} {VL : ValueLaws R} (fmt_debug : str -> str).

Lemma set_valid {E} m f v : is_valid_for_field v f = true ->
  exists r, (Ok <$> set_field_checked m f v : run (result E DynamicMessage)) = Done r.
Proof. intros Hv. unfold set_field_checked. rewrite Hv. by eexists. Qed.

Lemma set_from_json_total msg f text : exists r, set_from_json msg f text = Done r.
Proof.
  unfold set_from_json. destruct (map_err _ _); cbn [rbind]; [|by eexists]. apply set_valid, valid_get.
Qed.

Lemma set_message_field_total msg name json : exists r, set_message_field msg name json = Done r.
Proof.
  unfold set_message_field. destruct (field_by_any_name _ _); [|by eexists].
  destruct (from_utf8 json); [|by eexists]. apply set_from_json_total.
Qed.

Lemma body_message_total b payload : exists r, body_message b payload = Done r.
Proof.
  unfold body_message. destruct (body b); [by eexists| |by eexists].
  case_match; [apply set_message_field_total|by eexists].
Qed.

(** A coerced value is one of the field's kind. *)
Lemma coerce_valid f raw v : coerce fmt_debug f raw = Ok v -> is_valid v (kind f) = true.
Proof.
  unfold coerce, ok_or. intros Hc. destruct (kind f) eqn:Ek; repeat case_match; simplify_eq;
    repeat match goal with H : _ <$> _ = Some _ |- _ => apply fmap_Some in H as (? & _ & ->) end;
    auto using valid_string, valid_bool, valid_i32, valid_i64, valid_u32, valid_u64, valid_f32, valid_f64, valid_enum.
Qed.

Lemma set_scalar_total msg f raw : exists r, set_scalar fmt_debug msg f raw = Done r.
Proof.
  unfold set_scalar. destruct (coerce fmt_debug f raw) as [v|e] eqn:Ec; cbn [rbind]; [|by eexists].
  destruct (is_list f) eqn:El; [case_match; by eexists|]. apply set_valid.
  rewrite valid_single; [by eapply coerce_valid|done|]. destruct (is_map f) eqn:Em; [|done].
  apply map_kind in Em as [md Hk]. unfold coerce in Ec. by rewrite Hk in Ec.
Qed.

Lemma set_leaf_total msg f raw : exists r, set_leaf fmt_debug msg f raw = Done r.
Proof.
  unfold set_leaf. repeat case_match; auto using set_scalar_total, set_from_json_total; by eexists.
Qed.

Lemma set_by_path_total msg path raw : path <> [] -> exists r, set_by_path fmt_debug msg path raw = Done r.
Proof.
  revert msg. induction path as [|name rest IH]; intros msg; [done|intros _]. cbn [set_by_path].
  destruct (field_by_any_name _ _) as [f|]; [|by eexists].
  destruct rest as [|name' rest]; [apply set_leaf_total|].
  destruct (as_message _) as [sub|]; [|by eexists].
  destruct (IH sub ltac:(done)) as [[sub'|e] ->]; by eexists.
Qed.

Lemma set_vars_total msg vs : Forall (fun v => v.1 <> []) vs -> exists r, set_vars fmt_debug msg vs = Done r.
Proof.
  intros Hvs. revert msg. induction Hvs as [|[path raw] vs Hp _ IH]; intros msg; cbn [set_vars]; [by eexists|].
  destruct (set_by_path_total msg path raw Hp) as [[m|e] ->]; [apply IH|by eexists].
Qed.

Lemma set_query_total vs msg params : exists r, set_query fmt_debug vs msg params = Done r.
Proof.
  revert msg. induction params as [|[k raw] params IH]; intros msg; cbn [set_query]; [by eexists|].
  case_match; [apply IH|].
  destruct (set_by_path_total msg (split "."%byte k) raw ltac:(apply split_nonempty)) as [[m|e] ->]; [apply IH|by eexists].
Qed.

(** Building panics in the decoding of the query only. *)
Lemma build_message_panic b vs query payload :
  Forall (fun v => v.1 <> []) vs -> build_message fmt_debug b vs query payload = Panic ->
  exists q, query = Some q /\ parse_query q = Panic.
Proof.
  intros Hvs. unfold build_message, built_message.
  destruct (body_message_total b payload) as [[m|e] ->]; cbn [rbind]; [|done].
  destruct (set_vars_total m vs Hvs) as [[m1|e] ->]; cbn [rbind]; [|done].
  destruct query as [q|]; [|by destruct (body b)].
  destruct (parse_query q) as [params|] eqn:Eq; [|by exists q].
  destruct (set_query_total vs m1 params) as [[m2|e] Hq]; by destruct (body b); cbn; rewrite ?Hq.
Qed.

(** Binding a string and a number. *)
Lemma set_leaf_string msg f raw :
  kind f = KString -> is_list f = false -> is_map f = false ->
  set_leaf fmt_debug msg f raw = Done (Ok (set_field msg f (VString raw))).
Proof.
  intros Hk Hl Hm. unfold set_leaf, set_scalar, coerce. rewrite Hk, Hl. cbn [rbind].
  unfold set_field_checked. by rewrite valid_single, Hk, valid_string.
Qed.

Lemma set_leaf_u32 msg f raw :
  kind f = KUint32 -> is_list f = false -> is_map f = false ->
  set_leaf fmt_debug msg f raw
  = Done (match parse_u32 raw with
          | Some n => Ok (set_field msg f (VU32 n))
          | None => Err (EHttp ($"invalid value for " ++ field_name f ++ $": " ++ fmt_debug raw))
          end).
Proof.
  intros Hk Hl Hm. unfold set_leaf, set_scalar, coerce. rewrite Hk, Hl.
  destruct (parse_u32 raw) as [n|]; [|done]. cbn [fmap option_fmap option_map ok_or rbind].
  unfold set_field_checked. by rewrite valid_single, Hk, valid_u32 by auto.
Qed.

Lemma set_by_path_leaf msg name raw f :
  field_by_any_name (descriptor msg) name = Some f -> set_by_path fmt_debug msg [name] raw = set_leaf fmt_debug msg f raw.
Proof. intros Hf. cbn [set_by_path]. by rewrite Hf. Qed.
End validity.

(** ** Properties *)

(** C24: Binding precedence. A string field captured by the path holds the captured value in the
    request message, whatever the body says, as long as no later capture and no query
    parameter that is not itself a captured path resolves to the field (or shares its
    oneof). A field that neither captures nor applied query parameters reach is exactly what
    the body made it, and with [body: "*"] the query is not read at all. *)
Theorem path_capture_wins {R : Reflect} {RL : ReflectLaws R} (fmt_debug : str -> str)
  (b : Binding MessageDescriptor) (vs : list PathVar) (query : option str) (payload : bytes)
  (m : DynamicMessage) (f : FieldDescriptor)
  (Hbuilt : built_message fmt_debug b vs query payload = Done (Ok m))
  (Hquery : forall q params, query = Some q -> parse_query q = Done params -> body b <> Wildcard ->
     Forall (fun p => split "."%byte p.1 ∈ map fst vs
                      \/ path_elsewhere (input b) f (split "."%byte p.1)) params) :
  (forall pre name v post, vs = pre ++ ([name], v) :: post ->
     field_by_any_name (input b) name = Some f -> kind f = KString -> is_list f = false ->
     Forall (fun w => path_elsewhere (input b) f w.1) post -> get_field m f = VString v)
  /\ (Forall (fun w => path_elsewhere (input b) f w.1) vs ->
     exists m0, body_message b payload = Done (Ok m0) /\ get_field m f = get_field m0 f)
  /\ (body b = Wildcard -> built_message fmt_debug b vs None payload = Done (Ok m)).
Proof.
  destruct (built_message_inv _ _ _ _ _ _ Hbuilt) as (m0 & m1 & Hb & Hv & Hq).
  pose proof (body_message_descriptor _ _ _ Hb) as Hd0.
  destruct (set_vars_frame _ _ _ _ Hv) as [Hd1 Hf1]. rewrite Hd0 in Hd1, Hf1.
  assert (get_field m f = get_field m1 f) as ->.
  { destruct Hq as [[_ ->]|(q & params & Hq & Hw & Hp & Hs)]; [done|].
    eapply set_query_frame; [done|]. rewrite Hd1. by eapply Hquery. }
  split; [|split].
  - intros pre name v post -> Hname Hkind Hlist Hpost.
    apply set_vars_app in Hv as (m2 & Hv1 & Hv2). cbn [set_vars] in Hv2.
    destruct (set_vars_frame _ _ _ _ Hv1) as [Hd2 _]. rewrite Hd0 in Hd2.
    cbn [set_by_path] in Hv2. rewrite Hd2, Hname in Hv2. unfold set_leaf in Hv2.
    rewrite Hkind in Hv2. unfold set_scalar, coerce in Hv2. rewrite Hkind, Hlist in Hv2. cbn [rbind] in Hv2.
    unfold set_field_checked in Hv2. destruct (is_valid_for_field _ _) eqn:Hval; [|done].
    cbn [fmap run_fmap rbind] in Hv2.
    destruct (set_vars_frame _ _ _ _ Hv2) as [_ Hf2]. rewrite descriptor_set_field, Hd2 in Hf2.
    rewrite Hf2 by done. by apply get_set_field.
  - intros Hall. exists m0. split; [done|]. by apply Hf1.
  - intros Hw. unfold built_message. rewrite Hb. cbn [rbind]. rewrite Hv. cbn [rbind]. rewrite Hw.
    destruct Hq as [[_ ->]|(q & params & _ & Hnw & _)]; done.
Qed.

(** The check "already set from the path" compares spellings, not fields: a query parameter
    that names the captured field by its JSON name overrides the value from the path, while
    the same parameter under the template's spelling is skipped. *)
Theorem query_alias_overrides_path :
  let d := [($"user_id", $"userId")] in
  let b := mkBinding $"GET" [Literal $"v1"; Capture [$"user_id"] [AnyOne]] [] NoBody [] $"/p.S/M" d in
  let vs := [([$"user_id"], $"alice")] in
  let built q := (fun r => match r with Ok m => Some (get_field (Reflect := Flat.reflect) m ($"user_id", $"userId")) | Err _ => None end)
                 <$> built_message (R := Flat.reflect) (fun s => s) b vs (Some q) [] in
  match_segments (segments b) (custom_verb b) $"/v1/alice" = Done (Some vs)
  /\ built $"user_id=mallory" = Done (Some (Flat.VS $"alice"))
  /\ built $"userId=mallory" = Done (Some (Flat.VS $"mallory")).
Proof. vm_compute. auto. Qed.


(** ** Witnesses *)

Lemma path_capture_wins_witness :
  let d := [($"user_id", $"userId"); ($"note", $"note")] in
  let b := mkBinding $"GET" [Literal $"v1"; Capture [$"user_id"] [AnyOne]] [] NoBody [] $"/p.S/M" d in
  exists m, built_message (R := Flat.reflect) (fun s => s) b [([$"user_id"], $"alice")] (Some $"user_id=x&note=y") []
            = Done (Ok m)
    /\ get_field (Reflect := Flat.reflect) m ($"user_id", $"userId") = Flat.VS $"alice".
Proof.
  intros d b.
  assert (exists m, built_message (R := Flat.reflect) (fun s => s) b [([$"user_id"], $"alice")]
            (Some $"user_id=x&note=y") [] = Done (Ok m)) as [m Hm] by (eexists; vm_compute; reflexivity).
  exists m. split; [exact Hm|].
  assert (forall q params, Some $"user_id=x&note=y" = Some q -> parse_query q = Done params -> body b <> Wildcard ->
    Forall (fun p => split "."%byte p.1 ∈ map fst [([$"user_id"], $"alice")]
      \/ path_elsewhere (R := Flat.reflect) (input b) ($"user_id", $"userId") (split "."%byte p.1)) params) as Hq.
  { intros q params [= <-] Hp _. vm_compute in Hp. injection Hp as <-.
    apply Forall_cons_2; [left; left|]. apply Forall_cons_2; [right|apply Forall_nil_2].
    intros g Hg. vm_compute in Hg. injection Hg as <-. split; [by intros [=]|reflexivity]. }
  eapply (proj1 (path_capture_wins (R := Flat.reflect) (fun s => s) b [([$"user_id"], $"alice")]
    (Some $"user_id=x&note=y") [] m ($"user_id", $"userId") Hm Hq))
    with (pre := []) (post := []); [reflexivity|reflexivity|reflexivity|reflexivity|constructor].
Defined.
