(* ===== verification/Transcode.v ===== *)
(** * JSON transcoding ([rust/crates/grpc-webnext/src/transcode.rs])

    The [Transcoder]: a descriptor pool with the router compiled from it, resolving method
    paths, converting request messages from JSON and response messages to JSON, whole or
    one field of them ([response_body]). *)
From S2P Require Import Prelude RustStd Reflection HttpRule HttpBuild.

Section transcode.
Context {R : Reflect} (fmt_debug : str -> str).

Record Transcoder : Type := mkTranscoder {
  pool : DescriptorPool;
  router : HttpRouter MessageDescriptor
}.

Definition from_file_descriptor_set (b : bytes) : result TranscodeError Transcoder :=
  pool ← map_err EDescriptor (pool_decode b);
  let router := from_pool pool in
  Ok (mkTranscoder pool router).

Definition has_http_rules (self : Transcoder) : bool := negb (is_empty (router self)).

Definition transcode_http_request (self : Transcoder) (method path : str) (query : option str) (body : bytes)
  : run (result TranscodeError (option HttpCall)) :=
  transcode fmt_debug (router self) method path query body.

Definition tc_match_ws (self : Transcoder) (path : str) (query : option str)
  : run (option (WsBinding MessageDescriptor)) := match_ws (router self) path query.

Definition is_annotated_method (self : Transcoder) (grpc_method : str) : bool :=
  is_annotated (router self) grpc_method.

(** [io_types]: the request and response types of a method path. *)
Definition io_types (self : Transcoder) (path : str)
  : result TranscodeError (MessageDescriptor * MessageDescriptor) :=
  '(service, method) ← ok_or (EUnknownMethod path) (split_once "/"%byte (trim_start "/"%byte path));
  svc ← ok_or (EUnknownMethod path) (get_service_by_name (pool self) service);
  m ← ok_or (EUnknownMethod path) (find (fun m => bool_decide (method_name m = method)) (methods svc));
  Ok (method_input m, method_output m).

Definition has_method (self : Transcoder) (path : str) : bool := is_ok (io_types self path).

Definition json_to_proto (desc : MessageDescriptor) (json : bytes) : result TranscodeError DynamicMessage :=
  if nonempty json then map_err EJson (deserialize_json desc json) else Ok (message_new desc).

Definition proto_to_json (desc : MessageDescriptor) (proto : bytes) : result TranscodeError bytes :=
  msg ← map_err EDecode (message_decode desc proto);
  map_err EJson (serialize_json msg).

Definition request_json_to_proto (self : Transcoder) (path : str) (json : bytes) : result TranscodeError bytes :=
  '(input, _) ← io_types self path;
  m ← json_to_proto input json;
  Ok (encode_to_vec m).

Definition json_zero (field : FieldDescriptor) : JsonValue :=
  if is_list field then JArray []
  else if is_map field then JEmptyObject
  else match kind field with
  | KMessage _ => JNull
  | KString => JString []
  | KBytes => JString []
  | KBool => JBool false
  | KInt64 | KSint64 | KSfixed64 | KUint64 | KFixed64 => JString $"0"
  | KEnum e =>
      match enum_get_value e 0 with
      | Some name => JString name
      | None => JNumber 0
      end
  | _ => JNumber 0
  end.

Definition response_proto_to_json_body (self : Transcoder) (path : str) (proto : bytes) (response_body : str)
  : result TranscodeError bytes :=
  '(_, output) ← io_types self path;
  if decide (response_body = []) then proto_to_json output proto
  else
    field ← ok_or (EHttp ($"unknown response_body field: " ++ response_body))
              (field_by_any_name output response_body);
    whole ← proto_to_json output proto;
    obj ← map_err EJson (json_from_slice whole);
    let value := default (json_zero field) (json_get obj (json_name field)) in
    map_err EJson (json_to_vec value).

Definition response_proto_to_json (self : Transcoder) (path : str) (proto : bytes) : result TranscodeError bytes :=
  response_proto_to_json_body self path proto [].
End transcode.

(** ** Lemmas *)

Section facts.
Context {R : Reflect}.

(** What every binding compiled for one method has in common. *)
Definition compiled_for (grpc_method : str) (input : MessageDescriptor) (b : Binding MessageDescriptor) : Prop :=
  HttpRule.grpc_method b = grpc_method /\ HttpRule.input b = input
  /\ exists template, (segments b, custom_verb b) = parse_template template.

Lemma push_binding_spec bs rule g i : exists l, push_binding bs rule g i = bs ++ l /\ Forall (compiled_for g i) l.
Proof.
  unfold push_binding. destruct (verb_and_path rule) as [[verb template]|].
  - destruct (parse_template template) as [segs cv] eqn:E. eexists. split; [done|].
    repeat constructor. by exists template.
  - exists []. by rewrite app_nil_r.
Qed.

Lemma collect_rule_spec bs rule g i : exists l, collect_rule bs rule g i = bs ++ l /\ Forall (compiled_for g i) l.
Proof.
  unfold collect_rule. destruct (push_binding_spec bs rule g i) as (l & -> & Hl).
  match goal with |- context [match ?o with Some _ => _ | None => _ end] => destruct o as [items|] end; [|eauto].
  clear rule.
  revert l Hl. induction items as [|item items IH]; intros l Hl; simpl; [eauto|].
  destruct (as_message item) as [m|]; [|by apply IH].
  destruct (push_binding_spec (bs ++ l) m g i) as (l' & -> & Hl'). rewrite <- app_assoc.
  apply IH. by apply Forall_app.
Qed.

(** Every binding comes from a method of a service of the pool. *)
Definition from_method (p : DescriptorPool) (b : Binding MessageDescriptor) : Prop :=
  exists s m, s ∈ services p /\ m ∈ methods s
    /\ compiled_for ($"/" ++ service_full_name s ++ $"/" ++ method_name m) (method_input m) b.

Lemma foldl_grows {A B} (f : list B -> A -> list B) (P : B -> Prop) l bs :
  (forall x acc, x ∈ l -> Forall P acc -> Forall P (f acc x)) -> Forall P bs -> Forall P (foldl f bs l).
Proof.
  revert bs. induction l as [|x l IH]; intros bs Hf Hbs; simpl; [done|].
  apply IH; [|by apply Hf; [left|]]. intros y acc Hy. apply Hf. by right.
Qed.

Lemma from_pool_spec p : Forall (from_method p) (bindings (from_pool p)).
Proof.
  unfold from_pool. destruct (get_extension_by_name p HTTP_EXT) as [ext|]; [|constructor]. cbn [bindings].
  apply foldl_grows; [|constructor]. intros s acc Hs Hacc.
  apply foldl_grows; [|done]. intros m acc' Hm Hacc'.
  destruct (has_extension _ _); [|done]. destruct (as_message _) as [rule|]; [|done].
  destruct (collect_rule_spec acc' rule ($"/" ++ service_full_name s ++ $"/" ++ method_name m) (method_input m))
    as (l & -> & Hl).
  apply Forall_app. split; [done|]. eapply Forall_impl; [exact Hl|]. intros b Hb. by exists s, m.
Qed.

Lemma find_method (ms : list MethodDescriptor) m :
  NoDup (map method_name ms) -> m ∈ ms -> find (fun m' => bool_decide (method_name m' = method_name m)) ms = Some m.
Proof.
  induction ms as [|x ms IH]; simpl; [intros _ H; by apply elem_of_nil in H|].
  intros [Hx Hnd]%NoDup_cons. rewrite elem_of_cons. intros [->|Hm]; [by rewrite bool_decide_eq_true_2|].
  rewrite bool_decide_eq_false_2; [auto|]. intros E. apply Hx. rewrite E.
  apply list_elem_of_In, in_map. by apply list_elem_of_In.
Qed.

(** A path [/service/method] resolves to that method of that service. *)
Lemma io_types_path {PL : PoolLaws R} (tc : Transcoder) s m :
  s ∈ services (pool tc) -> m ∈ methods s ->
  io_types tc ($"/" ++ service_full_name s ++ $"/" ++ method_name m) = Ok (method_input m, method_output m).
Proof.
  intros Hs Hm. destruct (service_name_plain _ _ Hs) as [Hne Hplain]. unfold io_types.
  change ($"/") with ["/"%byte]. cbn [app trim_start]. rewrite decide_True by done.
  destruct (service_full_name s) as [|c n] eqn:E; [done|].
  cbn [app trim_start]. rewrite decide_False by set_solver.
  change (c :: n ++ "/"%byte :: method_name m) with ((c :: n) ++ "/"%byte :: method_name m).
  rewrite split_once_app by done. cbn [ok_or mbind result_bind].
  rewrite <- E, service_found by done. cbn [ok_or mbind result_bind].
  rewrite find_method; [done|by eapply method_names_nodup|done].
Qed.

Lemma from_file_descriptor_set_bindings b (tc : Transcoder) r :
  from_file_descriptor_set b = Ok tc -> r ∈ bindings (router tc) ->
  exists template, (segments r, custom_verb r) = parse_template template.
Proof.
  unfold from_file_descriptor_set. destruct (pool_decode b) as [p|]; [|done]. intros [= <-] Hr.
  pose proof (from_pool_spec p) as Hall. rewrite Forall_forall in Hall.
  by destruct (Hall r Hr) as (s & m & _ & _ & _ & _ & Ht).
Qed.
End facts.

(** ** Properties *)

(** C36: REST bindings are consistent with the schema they were compiled from: in a transcoder
    built from a descriptor set every binding's gRPC method resolves, to the very request
    type the binding builds, so a matched REST call can neither fail as unknown nor be
    encoded for another type; and each binding's pattern is its template parsed. *)
Theorem bindings_resolve {R : Reflect} {PL : PoolLaws R} (b : bytes) (tc : Transcoder)
  (Hload : from_file_descriptor_set b = Ok tc) :
  Forall (fun r => has_method tc (grpc_method r) = true
                   /\ (exists output, io_types tc (grpc_method r) = Ok (input r, output))
                   /\ is_annotated_method tc (grpc_method r) = true
                   /\ exists template, (segments r, custom_verb r) = parse_template template)
    (bindings (router tc)).
Proof.
  unfold from_file_descriptor_set in Hload. destruct (pool_decode b) as [p|]; [|done]. simplify_eq/=.
  apply Forall_forall. intros r Hr. pose proof (from_pool_spec p) as Hall.
  rewrite Forall_forall in Hall. destruct (Hall r Hr) as (s & m & Hs & Hm & Hg & Hi & Ht).
  pose proof (io_types_path (mkTranscoder p (from_pool p)) s m Hs Hm) as Hio.
  unfold has_method. rewrite Hg, Hi, Hio. split; [done|]. split; [by eexists|]. split; [|done].
  unfold is_annotated_method, is_annotated. apply existsb_exists. exists r.
  split; [by apply list_elem_of_In|]. by apply bool_decide_eq_true_2.
Qed.

(** C16: A REST request never panics in building its message: every value bound from the body,
    the path or the query is valid for its field, whatever the schema, so the library's
    [set_field] never refuses one. What can panic is percent decoding alone, and ASCII
    requests are always answered, by a call, by no binding or by an error. *)
Theorem rest_requests_total {R : Reflect} {PL : PoolLaws R} {VL : ValueLaws R} (fmt_debug : str -> str) (b : bytes)
  (tc : Transcoder) (method path : str) (query : option str) (payload : bytes)
  (Hload : from_file_descriptor_set b = Ok tc) :
  (transcode_http_request fmt_debug tc method path query payload = Panic ->
     match_request (router tc) method path = Panic \/ exists q, query = Some q /\ parse_query q = Panic)
  /\ (is_ascii path = true -> match query with Some q => is_ascii q = true | None => True end ->
      exists r, transcode_http_request fmt_debug tc method path query payload = Done r)
  /\ forall w, tc_match_ws tc path query = Done (Some w) ->
      ws_build_message fmt_debug w payload = Panic -> exists q, query = Some q /\ parse_query q = Panic.
Proof.
  assert (forall r vs, r ∈ bindings (router tc) -> accepts r path vs -> Forall (fun v => v.1 <> []) vs) as Hnamed.
  { intros r vs Hr Ha. apply (accepts_named r path vs Ha). destruct (from_file_descriptor_set_bindings b tc r Hload Hr) as (t & Ht).
    change (segments r) with (segments r, custom_verb r).1. rewrite Ht. apply parse_template_named. }
  assert (transcode_http_request fmt_debug tc method path query payload = Panic ->
     match_request (router tc) method path = Panic \/ exists q, query = Some q /\ parse_query q = Panic) as Hpanic.
  { unfold transcode_http_request, transcode.
    destruct (match_request (router tc) method path) as [[[r vs]|]|] eqn:Em; [|done|by left]. cbn [mbind run_bind].
    apply match_request_found in Em as [Hr Ha]. intros Hp. right. apply (build_message_panic fmt_debug r vs query payload); [by eapply Hnamed|].
    revert Hp. by destruct (build_message fmt_debug r vs query payload) as [[]|]. }
  split; [done|]. split.
  - intros Hpath Hquery. destruct (transcode_http_request _ _ _ _ _ _) as [r|] eqn:Et; [by exists r|]. exfalso.
    destruct (Hpanic eq_refl) as [Hm|(q & -> & Hq)].
    + destruct (match_request_total (router tc) method path Hpath). congruence.
    + destruct (parse_query_total q Hquery). congruence.
  - intros w Hw Hp. apply match_ws_found in Hw as (Hr & Ha & <-).
    eapply build_message_panic; [by eapply Hnamed|exact Hp].
Qed.

(** [response_body] selects one member of the whole message's JSON and falls back to the
    field's zero value; an unknown field, an unknown method and an undecodable message are
    errors of their own kinds, in that order of precedence for the field. *)
Theorem response_body_spec {R : Reflect} (tc : Transcoder) (path name : str) (proto : bytes)
  (input output : MessageDescriptor) (Hio : io_types tc path = Ok (input, output)) :
  response_proto_to_json tc path proto = proto_to_json output proto
  /\ (name <> [] -> field_by_any_name output name = None ->
        response_proto_to_json_body tc path proto name = Err (EHttp ($"unknown response_body field: " ++ name)))
  /\ (forall field e, name <> [] -> field_by_any_name output name = Some field ->
        message_decode output proto = Err e ->
        response_proto_to_json_body tc path proto name = Err (EDecode e))
  /\ (forall field m whole obj, name <> [] -> field_by_any_name output name = Some field ->
        message_decode output proto = Ok m -> serialize_json m = Ok whole -> json_from_slice whole = Ok obj ->
        response_proto_to_json_body tc path proto name
        = map_err EJson (json_to_vec (match json_get obj (json_name field) with
                                      | Some v => v
                                      | None => json_zero field
                                      end))).
Proof.
  unfold response_proto_to_json, response_proto_to_json_body. rewrite Hio. cbn [mbind result_bind].
  split; [done|]. split; [|split].
  - intros Hn Hf. rewrite decide_False by done. by rewrite Hf.
  - intros field e Hn Hf Hd. rewrite decide_False by done. rewrite Hf. cbn [ok_or mbind result_bind].
    unfold proto_to_json. by rewrite Hd.
  - intros field m whole obj Hn Hf Hd Hs Hj. rewrite decide_False by done. rewrite Hf. cbn [ok_or mbind result_bind].
    unfold proto_to_json. rewrite Hd. cbn [map_err mbind result_bind]. rewrite Hs. cbn [map_err mbind result_bind].
    rewrite Hj. cbn [map_err mbind result_bind]. by destruct (json_get obj (json_name field)).
Qed.

(** ** Witnesses *)

Definition demo_transcoder : Transcoder (R := Flat.reflect) := mkTranscoder (R := Flat.reflect) true (from_pool (R := Flat.reflect) true).

Lemma bindings_resolve_witness :
  map grpc_method (bindings (router demo_transcoder)) = [$"/demo.Users/Get"]
  /\ Forall (fun r => has_method demo_transcoder (grpc_method r) = true) (bindings (router demo_transcoder)).
Proof.
  split; [vm_compute; reflexivity|].
  eapply Forall_impl; [exact (bindings_resolve (R := Flat.reflect) $"demo" demo_transcoder eq_refl)|].
  intros r Hr. exact (proj1 Hr).
Defined.

Lemma response_body_spec_witness :
  response_proto_to_json_body demo_transcoder $"/demo.Users/Get" (Flat.object_text [($"note", $"hi")]) $"note"
    = Ok (Flat.quoted $"hi")
  /\ response_proto_to_json_body demo_transcoder $"/demo.Users/Get" (Flat.object_text []) $"note" = Ok (Flat.quoted [])
  /\ response_proto_to_json_body demo_transcoder $"/demo.Users/Get" [] $"nope"
     = Err (EHttp $"unknown response_body field: nope").
Proof.
  assert (io_types demo_transcoder $"/demo.Users/Get" = Ok (Flat.user, Flat.user)) as Hio
    by (vm_compute; reflexivity).
  split; [vm_compute; reflexivity|]. split; [vm_compute; reflexivity|].
  apply (proj1 (proj2 (response_body_spec demo_transcoder $"/demo.Users/Get" $"nope" [] _ _ Hio))).
  - discriminate.
  - vm_compute. reflexivity.
Defined.
