(* ===== verification/DynPool.v ===== *)
(** * A typed instance of the reflection interface

    [Reflection.v] states what the sources use of [prost_reflect] and [serde_json]; this is an
    instance that computes on any schema given as a table of messages, enumerations and
    services: fields have kinds, labels and oneofs, a value of another kind is refused, JSON
    text is parsed and printed, and bytes are base64. (Its binary encoding of a message is
    its JSON text: the sources never look inside it.) *)
From S2P Require Import Prelude RustStd ClientMetadata Base64Std Reflection.

(** ** JSON text *)

Module Json.

Inductive t : Type :=
| Null | Bool (b : bool) | Num (z : Z) | Str (s : str) | Arr (l : list t) | Obj (l : list (str * t)).

Definition escape (s : str) : str :=
  concat (map (fun c => if decide (c = x22 \/ c = x5c) then [x5c; c] else [c]) s).
Definition quote (s : str) : str := x22 :: escape s ++ [x22].
Definition fmt_int (z : Z) : str :=
  match z with Zneg p => "-"%byte :: fmt_dec (Npos p) | _ => fmt_dec (Z.to_N z) end.

Fixpoint show (j : t) : str :=
  match j with
  | Null => $"null"
  | Bool b => if b then $"true" else $"false"
  | Num z => fmt_int z
  | Str s => quote s
  | Arr l => $"[" ++ join $"," (map show l) ++ $"]"
  | Obj l => $"{" ++ join $"," (map (fun m => match m with (k, v) => quote k ++ $":" ++ show v end) l) ++ $"}"
  end.

Fixpoint skip (s : str) : str :=
  match s with
  | c :: s' => if decide (c = x20 \/ c = x0a \/ c = x0d \/ c = x09) then skip s' else s
  | [] => []
  end.

(** A string after its opening quote. *)
Fixpoint text (s : str) : option (str * str) :=
  match s with
  | x22 :: s' => Some ([], s')
  | x5c :: c :: s' => '(a, r) ← text s'; Some (c :: a, r)
  | c :: s' => '(a, r) ← text s'; Some (c :: a, r)
  | [] => None
  end.

Fixpoint digits (s : str) : str * str :=
  match s with
  | c :: s' => if in_range 48 57 c then let '(a, r) := digits s' in (c :: a, r) else ([], s)
  | [] => ([], [])
  end.
Definition number (s : str) : option (t * str) :=
  match s with
  | x2d :: s' => let '(a, r) := digits s' in n ← parse_u64 a; Some (Num (- Z.of_N n), r)
  | _ => let '(a, r) := digits s in n ← parse_u64 a; Some (Num (Z.of_N n), r)
  end.
Definition word (s : str) : option (t * str) :=
  if starts_with $"null" s then Some (Null, drop 4 s)
  else if starts_with $"true" s then Some (Bool true, drop 4 s)
  else if starts_with $"false" s then Some (Bool false, drop 5 s)
  else number s.

Fixpoint value (n : nat) (s : str) : option (t * str) :=
  match n with
  | O => None
  | S n =>
      match skip s with
      | x22 :: s' => '(a, r) ← text s'; Some (Str a, r)
      | x7b :: s' =>
          match skip s' with
          | x7d :: r => Some (Obj [], r)
          | _ => '(ms, r) ← members n s'; Some (Obj ms, r)
          end
      | x5b :: s' =>
          match skip s' with
          | x5d :: r => Some (Arr [], r)
          | _ => '(vs, r) ← items n s'; Some (Arr vs, r)
          end
      | s' => word s'
      end
  end
with members (n : nat) (s : str) : option (list (str * t) * str) :=
  match n with
  | O => None
  | S n =>
      match skip s with
      | x22 :: s1 =>
          '(k, s2) ← text s1;
          match skip s2 with
          | x3a :: s3 =>
              '(v, s4) ← value n s3;
              match skip s4 with
              | x2c :: s5 => '(ms, r) ← members n s5; Some ((k, v) :: ms, r)
              | x7d :: r => Some ([(k, v)], r)
              | _ => None
              end
          | _ => None
          end
      | _ => None
      end
  end
with items (n : nat) (s : str) : option (list t * str) :=
  match n with
  | O => None
  | S n =>
      '(v, s1) ← value n s;
      match skip s1 with
      | x2c :: s2 => '(vs, r) ← items n s2; Some (v :: vs, r)
      | x5d :: r => Some ([v], r)
      | _ => None
      end
  end.

Definition parse (s : str) : option t :=
  '(v, r) ← value (S (length s)) s; if decide (skip r = []) then Some v else None.

Definition get (j : t) (k : str) : option t :=
  match j with Obj l => snd <$> find (fun m => bool_decide (m.1 = k)) l | _ => None end.

End Json.

(** ** Schemas and messages *)

Module Dyn.

Inductive label : Type := Single | Repeated | MapOf.
Record field_def : Type := mkField {
  f_name : str; f_json : str; f_kind : Kind nat nat; f_label : label; f_oneof : option nat
}.
Record message_def : Type := mkMessage { m_name : str; m_fields : list field_def }.

(** A value; a message is the index of its type and the fields that are set. *)
Inductive value : Type :=
| WBool (b : bool) | WI32 (z : Z) | WI64 (z : Z) | WU32 (n : N) | WU64 (n : N) | WF32 (x : str) | WF64 (x : str)
| WStr (s : str) | WBytes (b : bytes) | WEnum (z : Z)
| WMsg (d : nat) (fields : list ((nat * nat) * value))
| WList (l : list value).
Definition message : Type := nat * list ((nat * nat) * value).

Record method_def : Type := mkMethod { md_name : str; md_input : nat; md_output : nat; md_rule : option value }.
Record pool_def : Type := mkPool {
  p_messages : list message_def; p_enums : list (list (str * Z)); p_services : list (str * list method_def)
}.

Section pool.
Context (P : pool_def).

Definition fields_of (d : nat) : list field_def := default [] (m_fields <$> p_messages P !! d).
Definition def_of (f : nat * nat) : field_def :=
  default (mkField [] [] KString Single None) (fields_of f.1 !! f.2).
Definition kind_of (f : nat * nat) : Kind nat nat := f_kind (def_of f).
Definition listed (f : nat * nat) : bool := match f_label (def_of f) with Repeated => true | _ => false end.
Definition mapped (f : nat * nat) : bool :=
  match f_label (def_of f), kind_of f with MapOf, KMessage _ => true | _, _ => false end.
Definition find_field (key : field_def -> str) (d : nat) (n : str) : option (nat * nat) :=
  '(i, _) ← list_find (fun f => key f = n) (fields_of d); Some (d, i).
Definition oneof_mates (f g : nat * nat) : bool :=
  bool_decide (f.1 = g.1)
  && match f_oneof (def_of f), f_oneof (def_of g) with Some a, Some b => bool_decide (a = b) | _, _ => false end.

Definition valid_for_kind (v : value) (k : Kind nat nat) : bool :=
  match v, k with
  | WBool _, KBool | WStr _, KString | WBytes _, KBytes | WF32 _, KFloat | WF64 _, KDouble | WEnum _, KEnum _
  | WI32 _, (KInt32 | KSint32 | KSfixed32) | WI64 _, (KInt64 | KSint64 | KSfixed64)
  | WU32 _, (KUint32 | KFixed32) | WU64 _, (KUint64 | KFixed64) => true
  | WMsg d _, KMessage md => bool_decide (d = md)
  | _, _ => false
  end.
Definition valid_for (v : value) (f : nat * nat) : bool :=
  if listed f || mapped f
  then match v with WList l => forallb (fun v => valid_for_kind v (kind_of f)) l | _ => false end
  else valid_for_kind v (kind_of f).

Definition default_of (k : Kind nat nat) : value :=
  match k with
  | KDouble => WF64 $"0" | KFloat => WF32 $"0"
  | KInt32 | KSint32 | KSfixed32 => WI32 0 | KInt64 | KSint64 | KSfixed64 => WI64 0
  | KUint32 | KFixed32 => WU32 0 | KUint64 | KFixed64 => WU64 0
  | KBool => WBool false | KString => WStr [] | KBytes => WBytes []
  | KMessage md => WMsg md [] | KEnum _ => WEnum 0
  end.
Definition unset (f : nat * nat) : value := if listed f || mapped f then WList [] else default_of (kind_of f).

Definition lookup_field (m : message) (f : nat * nat) : value :=
  match snd <$> find (fun p => bool_decide (p.1 = f)) m.2 with
  | Some v => if valid_for v f then v else unset f
  | None => unset f
  end.
Definition put (m : message) (f : nat * nat) (v : value) : message :=
  (m.1, (f, v) :: filter (fun p => ~ (p.1 = f \/ oneof_mates f p.1 = true)) m.2).

(** ** JSON *)

(** Fields that hold their default are left out. *)
Definition is_default (v : value) : bool :=
  match v with
  | WBool b => negb b | WI32 z | WI64 z | WEnum z => bool_decide (z = 0%Z) | WU32 n | WU64 n => n =? 0
  | WF32 x | WF64 x => bool_decide (x = $"0") | WStr s => negb (nonempty s) | WBytes b => negb (nonempty b)
  | WMsg _ _ => false | WList l => negb (nonempty l)
  end.
Definition enum_name (k : Kind nat nat) (z : Z) : option str :=
  match k with
  | KEnum e => values ← p_enums P !! e; fst <$> find (fun v => bool_decide (v.2 = z)) values
  | _ => None
  end.
Fixpoint to_json (k : Kind nat nat) (v : value) : Json.t :=
  match v with
  | WBool b => Json.Bool b
  | WI32 z => Json.Num z
  | WU32 n => Json.Num (Z.of_N n)
  | WI64 z => Json.Str (Json.fmt_int z)
  | WU64 n => Json.Str (fmt_dec n)
  | WF32 x | WF64 x => Json.Num (default 0%Z (parse_i64 x))
  | WStr s => Json.Str s
  | WBytes b => Json.Str (Std64.encode b)
  | WEnum z => match enum_name k z with Some n => Json.Str n | None => Json.Num z end
  | WList l => Json.Arr (map (to_json k) l)
  | WMsg d fields =>
      Json.Obj (rev (concat (map (fun p => match p with (f, v) =>
        if is_default v then [] else [(f_json (def_of f), to_json (kind_of f) v)] end) fields)))
  end.
Definition show_message (m : message) : str := Json.show (to_json (KMessage m.1) (WMsg m.1 m.2)).

Definition scalar_of_json (k : Kind nat nat) (j : Json.t) : option value :=
  match k, j with
  | KBool, Json.Bool b => Some (WBool b)
  | KString, Json.Str s => Some (WStr s)
  | KBytes, Json.Str s =>
      WBytes <$> match Std64.decode s with Some b => Some b | None => Std64.decode_no_pad s end
  | (KInt32 | KSint32 | KSfixed32), Json.Num z => WI32 <$> parse_i32 (Json.fmt_int z)
  | (KInt32 | KSint32 | KSfixed32), Json.Str s => WI32 <$> parse_i32 s
  | (KInt64 | KSint64 | KSfixed64), Json.Num z => WI64 <$> parse_i64 (Json.fmt_int z)
  | (KInt64 | KSint64 | KSfixed64), Json.Str s => WI64 <$> parse_i64 s
  | (KUint32 | KFixed32), Json.Num z => WU32 <$> parse_u32 (Json.fmt_int z)
  | (KUint32 | KFixed32), Json.Str s => WU32 <$> parse_u32 s
  | (KUint64 | KFixed64), Json.Num z => WU64 <$> parse_u64 (Json.fmt_int z)
  | (KUint64 | KFixed64), Json.Str s => WU64 <$> parse_u64 s
  | KFloat, Json.Num z => Some (WF32 (Json.fmt_int z))
  | KDouble, Json.Num z => Some (WF64 (Json.fmt_int z))
  | KEnum _, Json.Num z => Some (WEnum z)
  | KEnum e, Json.Str s => values ← p_enums P !! e; v ← find (fun v => bool_decide (v.1 = s)) values; Some (WEnum v.2)
  | _, _ => None
  end.
(** [null] leaves a field unset; an unknown member is an error. *)
Fixpoint of_json (repeated : bool) (k : Kind nat nat) (j : Json.t) : option value :=
  match j with
  | Json.Arr l =>
      if repeated then
        vs ← (fix go (l : list Json.t) : option (list value) :=
                match l with
                | [] => Some []
                | j :: l' => v ← of_json false k j; vs ← go l'; Some (v :: vs)
                end) l;
        Some (WList vs)
      else None
  | Json.Obj ms =>
      if repeated then None else
      match k with
      | KMessage d =>
          m ← (fix go (ms : list (str * Json.t)) (m : message) : option message :=
                 match ms with
                 | [] => Some m
                 | (n, j) :: ms' =>
                     f ← match find_field f_json d n with Some f => Some f | None => find_field f_name d n end;
                     match j with
                     | Json.Null => go ms' m
                     | _ => v ← of_json (listed f) (kind_of f) j; go ms' (put m f v)
                     end
                 end) ms (d, []);
          Some (WMsg m.1 m.2)
      | _ => None
      end
  | _ => if repeated then None else scalar_of_json k j
  end.
Definition parse_message (d : nat) (b : bytes) : result str message :=
  match (j ← Json.parse b; of_json false (KMessage d) j) with
  | Some (WMsg d' fields) => if decide (d' = d) then Ok (d', fields) else Err $"not that message"
  | _ => Err $"not a message"
  end.

(** ** The instance *)

Definition reflect : Reflect := {|
  DescriptorPool := unit;
  ServiceDescriptor := str * list method_def;
  MethodDescriptor := method_def;
  ExtensionDescriptor := unit;
  MessageDescriptor := nat;
  FieldDescriptor := nat * nat;
  EnumDescriptor := nat;
  pool_decode _ := Ok tt;
  get_extension_by_name _ n := if decide (n = $"google.api.http") then Some tt else None;
  services _ := p_services P;
  get_service_by_name _ n := find (fun s => bool_decide (s.1 = n)) (p_services P);
  service_full_name s := s.1;
  methods s := s.2;
  method_name := md_name;
  method_input := md_input;
  method_output := md_output;
  message_full_name d := default [] (m_name <$> p_messages P !! d);
  get_field_by_name := find_field f_name;
  get_field_by_json_name := find_field f_json;
  field_name f := f_name (def_of f);
  json_name f := f_json (def_of f);
  kind := kind_of;
  is_list := listed;
  is_map := mapped;
  same_oneof := oneof_mates;
  enum_values e := default [] (p_enums P !! e);
  enum_get_value e z := enum_name (KEnum e) z;
  DynamicMessage := message;
  Value := value;
  Float := str;
  options m := (O, match md_rule m with Some rule => [((O, O), rule)] | None => [] end);
  has_extension o _ := nonempty o.2;
  get_extension o _ := match o.2 with (_, rule) :: _ => rule | [] => WBool false end;
  as_message v := match v with WMsg d l => Some (d, l) | _ => None end;
  as_list v := match v with WList l => Some l | _ => None end;
  as_str v := match v with WStr s => Some s | _ => None end;
  VString := WStr;
  VBool := WBool; VI32 := WI32; VI64 := WI64; VU32 := WU32; VU64 := WU64;
  VF32 := WF32; VF64 := WF64; VEnumNumber := WEnum; VMessage m := WMsg m.1 m.2; VList := WList;
  parse_f32 s := (fun _ => s) <$> parse_i64 s;
  parse_f64 s := (fun _ => s) <$> parse_i64 s;
  message_new d := (d, []);
  descriptor m := m.1;
  get_by_name m n := lookup_field m <$> find_field f_name m.1 n;
  get_field := lookup_field;
  set_field := put;
  is_valid := valid_for_kind;
  is_valid_for_field := valid_for;
  encode_to_vec := show_message;
  message_decode d b := if nonempty b then parse_message d b else Ok (d, []);
  JsonError := str;
  json_error_text e := e;
  JsonValue := Json.t;
  deserialize_json := parse_message;
  serialize_json m := Ok (show_message m);
  json_string s := Json.quote s;
  json_from_slice b := match Json.parse b with Some j => Ok j | None => Err $"not JSON" end;
  json_to_vec j := Ok (Json.show j);
  json_get := Json.get;
  JNull := Json.Null;
  JBool := Json.Bool;
  JNumber := Json.Num;
  JString := Json.Str;
  JArray := Json.Arr;
  JEmptyObject := Json.Obj []
|}.

(** ** Its laws *)

Lemma unset_valid f : valid_for (unset f) f = true.
Proof.
  unfold valid_for, unset. destruct (listed f || mapped f); [done|].
  destruct (kind_of f); try done. by apply bool_decide_eq_true_2.
Qed.

Lemma oneof_mates_self_free f g : oneof_mates f g = false -> f <> g -> ~ (g = f \/ oneof_mates f g = true).
Proof. intros Ho Hne [->|Ht]; [done|congruence]. Qed.

(** Filtering the stored fields keeps those of a field that passes the test. *)
Lemma find_filter_put (m : list ((nat * nat) * value)) f g :
  ~ (g = f \/ oneof_mates f g = true) ->
  find (fun p => bool_decide (p.1 = g)) (filter (fun p => ~ (p.1 = f \/ oneof_mates f p.1 = true)) m)
  = find (fun p => bool_decide (p.1 = g)) m.
Proof.
  intros Hg. induction m as [|[h v] m IH]; [done|]. rewrite filter_cons. cbn [fst find].
  destruct (decide (~ _)) as [Hh|Hh]; cbn [find fst]; destruct (decide (h = g)) as [->|Hne].
  - by rewrite bool_decide_eq_true_2.
  - by rewrite !bool_decide_eq_false_2.
  - by destruct Hh.
  - by rewrite (bool_decide_eq_false_2 (h = g)).
Qed.

#[export] Instance reflect_laws : ReflectLaws reflect.
Proof.
  split; cbn [get_field set_field descriptor message_new reflect same_oneof is_valid_for_field deserialize_json].
  - intros m f v Hv. unfold lookup_field, put. cbn [snd find fst]. rewrite bool_decide_eq_true_2 by done. cbn. by rewrite Hv.
  - intros m f g v Hne Ho. unfold lookup_field, put. cbn [snd find fst]. rewrite bool_decide_eq_false_2 by done.
    by rewrite find_filter_put by (by apply oneof_mates_self_free).
  - done.
  - done.
  - intros d b m. unfold parse_message. repeat case_match; intros [= <-]. by subst.
Qed.

#[export] Instance value_laws : ValueLaws reflect.
Proof.
  split; try done; cbn [is_list is_map is_valid_for_field is_valid kind get_field reflect FieldDescriptor].
  - intros v f Hl Hm. unfold valid_for. by rewrite Hl, Hm.
  - intros f. unfold mapped. destruct (f_label _); try done. destruct (kind_of f) eqn:Ek; try done. by eexists.
  - intros m f. unfold lookup_field. destruct (snd <$> _) as [v|]; [|apply unset_valid].
    destruct (valid_for v f) eqn:Ev; [done|apply unset_valid].
  - intros n k Hk. by repeat destruct Hk as [->|Hk]; subst.
  - intros n k Hk. by repeat destruct Hk as [->|Hk]; subst.
  - intros n k Hk. by destruct Hk as [->| ->].
  - intros n k Hk. by destruct Hk as [->| ->].
Qed.
End pool.

(** A table whose services have distinct plain names, and methods with distinct names. *)
Definition pool_ok (P : pool_def) : bool :=
  bool_decide (NoDup (map fst (p_services P)))
  && forallb (fun s => nonempty s.1 && negb (bool_decide ("/"%byte ∈ s.1)) && bool_decide (NoDup (map md_name s.2)))
       (p_services P).

Lemma pool_laws P : pool_ok P = true -> PoolLaws (reflect P).
Proof.
  intros [Hnd%bool_decide_eq_true Hall]%andb_prop. rewrite forallb_forall in Hall.
  split; cbn [services get_service_by_name service_full_name methods method_name reflect DescriptorPool ServiceDescriptor];
    intros _ s Hs; [|apply list_elem_of_In, Hall in Hs; apply andb_prop in Hs as [[Hne Hp]%andb_prop Hm]..].
  - clear Hall. induction (p_services P) as [|s' l IH]; [by apply elem_of_nil in Hs|].
    cbn [map] in Hnd. apply NoDup_cons in Hnd as [Hn Hnd]. cbn [find].
    apply elem_of_cons in Hs as [->|Hs]; [by rewrite bool_decide_eq_true_2|].
    rewrite bool_decide_eq_false_2; [auto|]. intros E. apply Hn. rewrite E. by apply list_elem_of_fmap_2.
  - split; [by destruct s.1|]. by apply negb_true_iff, bool_decide_eq_false in Hp.
  - by apply bool_decide_eq_true in Hm.
Qed.

End Dyn.
