(* ===== verification/RestTests.v ===== *)
(** * The REST surface on real schemas

    The descriptor sets the sources build their tests and their test upstream with, as
    tables of [DynPool.v], and the unit tests of [rust/crates/grpc-webnext/src/httprule.rs]
    and [transcode.rs] as computations on the model: a test is the conjunction of its
    assertions, in order. (The test that binds well-known types is left out: their JSON forms
    are rules of the library.) Then what the REST surface of [echo.proto]
    ([rust/crates/testecho/proto/echo.proto]) answers, for every message and number. *)
From S2P Require Import Prelude RustStd Metadata ClientMetadata Base64Std Reflection HttpRule HttpBuild Transcode DynPool.
Import Dyn.

Definition field (name : str) (k : Kind nat nat) : field_def := mkField name name k Single None.
(** An assertion that two values are equal. *)
Abbreviation assert_eq a b := (bool_decide (a = b)).
Definition is_some {A} (o : option A) : bool := match o with Some _ => true | None => false end.
(** [matches r vars] and [refuses r]: a match returned, with these captures, or none. *)
Definition matches (r : run (option (list PathVar))) (vars : list PathVar) : bool := assert_eq r (Done (Some vars)).
Definition refuses (r : run (option (list PathVar))) : bool := assert_eq r (Done None).

(** ** Schemas *)

(** [echo.proto], and the messages of [google/api/http.proto] it imports. *)
Definition http_rule_md : nat := 4.
Definition in_pattern (name : str) : field_def := mkField name name KString Single (Some 0%nat).
Definition echo_messages : list message_def := [
  mkMessage $"echo.v1.SleepRequest" [field $"millis" KUint32];
  mkMessage $"echo.v1.RepeatRequest" [field $"message" KString; field $"count" KUint32];
  mkMessage $"echo.v1.EchoRequest" [field $"message" KString];
  mkMessage $"echo.v1.EchoResponse" [field $"message" KString];
  mkMessage $"google.api.HttpRule"
    [field $"selector" KString; in_pattern $"get"; in_pattern $"put"; in_pattern $"post"; in_pattern $"delete";
     in_pattern $"patch"; mkField $"custom" $"custom" (KMessage 5%nat) Single (Some 0%nat); field $"body" KString;
     mkField $"response_body" $"responseBody" KString Single None;
     mkField $"additional_bindings" $"additionalBindings" (KMessage http_rule_md) Repeated None];
  mkMessage $"google.api.CustomHttpPattern" [field $"kind" KString; field $"path" KString]
].
(** An [HttpRule] by its members; [f] is a field's index above. *)
Definition rule (members : list (nat * value)) : value :=
  WMsg http_rule_md (map (fun m => ((http_rule_md, m.1), m.2)) members).
Definition get_of (path : str) : nat * value := (1%nat, WStr path).
Definition post_of (path : str) : nat * value := (3%nat, WStr path).
Definition whole_body : nat * value := (7%nat, WStr $"*").
Definition echo_service : list method_def := [
  mkMethod $"Unary" 2 3 (Some (rule [post_of $"/v1/echo"; whole_body;
                                     (9%nat, WList [rule [get_of $"/v1/echo/{message}"]])]));
  mkMethod $"Stream" 2 3 None;
  mkMethod $"Chat" 2 3 (Some (rule [post_of $"/v1/chat"; whole_body]));
  mkMethod $"Repeat" 1 3 (Some (rule [get_of $"/v1/repeat/{message}"]));
  mkMethod $"Hang" 2 3 None;
  mkMethod $"Sleep" 0 3 (Some (rule [get_of $"/v1/sleep"]));
  mkMethod $"FlakyUnary" 2 3 None
].
Definition echo_pool : pool_def := mkPool echo_messages [] [($"echo.v1.Echo", echo_service)].
#[export] Instance echo_pool_laws : PoolLaws (reflect echo_pool).
Proof. apply pool_laws. vm_compute. reflexivity. Qed.

(** [binder_fixture] *)
Definition binder_pool : pool_def := mkPool [
  mkMessage $"webnext.binder.test.Nested" [field $"id" KString];
  mkMessage $"webnext.binder.test.Req" [field $"blob" KBytes; field $"nested" (KMessage 0%nat)]
] [] [].
Definition binder_fixture : nat := 1.

(** [zero_fixture] *)
Definition zero_pool : pool_def := mkPool [
  mkMessage $"webnext.zero.test.Nested" [field $"id" KString];
  mkMessage $"webnext.zero.test.Req"
    [field $"name" KString; field $"count" KUint32; field $"big" KInt64; field $"ratio" KDouble;
     field $"flag" KBool; field $"blob" KBytes; field $"color" (KEnum 0%nat); field $"nested" (KMessage 0%nat);
     mkField $"tags" $"tags" KString Repeated None]
] [[($"COLOR_UNSPECIFIED", 0%Z); ($"RED", 1%Z)]] [].
Definition zero_fixture : nat := 1.

(** ** The tests of [httprule.rs] *)

Definition custom_verb_is_part_of_the_match : bool :=
  let '(cancel, verb) := parse_template $"/v1/things/{id}:cancel" in
  let '(plain, plain_verb) := parse_template $"/v1/things/{id}" in
  assert_eq verb $"cancel"
  && matches (match_segments cancel verb $"/v1/things/5:cancel") [([$"id"], $"5")]
  && refuses (match_segments cancel verb $"/v1/things/5")
  && refuses (match_segments cancel verb $"/v1/things/5:archive")
  && negb (nonempty plain_verb)
  && refuses (match_segments plain plain_verb $"/v1/things/5:cancel")
  && matches (match_segments plain plain_verb $"/v1/things/urn%3Afoo") [([$"id"], $"urn:foo")].

Definition multi_segment_capture : bool :=
  (let '(segments, verb) := parse_template $"/v1/{name=shelves/*/books/*}" in
   matches (match_segments segments verb $"/v1/shelves/1/books/2") [([$"name"], $"shelves/1/books/2")]
   && assert_eq (length segments) 2%nat
   && refuses (match_segments segments verb $"/v1/shelves/1/books")
   && refuses (match_segments segments verb $"/v1/shelves/1/books/2/3")
   && refuses (match_segments segments verb $"/v1/racks/1/books/2"))
  && (let '(segments, verb) := parse_template $"/v1/{name=files/**}" in
      matches (match_segments segments verb $"/v1/files/a/b/c.txt") [([$"name"], $"files/a/b/c.txt")])
  && (let '(segments, verb) := parse_template $"/v1/{name=shelves/*}:archive" in
      assert_eq verb $"archive"
      && matches (match_segments segments verb $"/v1/shelves/7:archive") [([$"name"], $"shelves/7")]).

Definition bare_wildcard_segments : bool :=
  (let '(one, verb) := parse_template $"/v1/*/things/{id}" in
   match one !! 1%nat with Some AnyOne => true | _ => false end
   && matches (match_segments one verb $"/v1/anything/things/7") [([$"id"], $"7")]
   && refuses (match_segments one verb $"/v1/things/7")
   && refuses (match_segments one verb $"/v1/a/b/things/7"))
  && (let '(rest, verb) := parse_template $"/v1/things/{id}/**" in
      match rest !! 3%nat with Some AnyRest => true | _ => false end
      && matches (match_segments rest verb $"/v1/things/7/a/b/c") [([$"id"], $"7")]
      && negb (refuses (match_segments rest verb $"/v1/things/7"))).

Definition field_names_resolve_by_proto_or_json_name : bool :=
  let by_any_name := field_by_any_name (R := reflect echo_pool) http_rule_md in
  is_some (by_any_name $"response_body")
  && assert_eq (by_any_name $"response_body") (by_any_name $"responseBody")
  && is_some (by_any_name $"additional_bindings") && is_some (by_any_name $"additionalBindings")
  && negb (is_some (by_any_name $"responseBodyy")).

Definition custom_kind_star_matches_any_verb : bool :=
  let custom := WMsg 5 [((5, 0)%nat, WStr $"*"); ((5, 1)%nat, WStr $"/v1/any")] in
  let rule : message := (http_rule_md, [((http_rule_md, 6%nat), custom)]) in
  let router := mkRouter (push_binding (R := reflect echo_pool) [] rule $"/test.Svc/Any" binder_fixture) in
  let matched r := match r with Done (Some _) => true | _ => false end in
  forallb (fun verb => matched (match_request router verb $"/v1/any")) [$"GET"; $"POST"; $"DELETE"; $"PATCH"]
  && negb (matched (match_request router $"GET" $"/v1/other")).

Section binder.
Let set (path : list str) (raw : str) : run (result TranscodeError message) :=
  set_by_path (R := reflect binder_pool) Json.quote (binder_fixture, []) path raw.
Let blob : nat * nat := (binder_fixture, 0%nat).

Definition bytes_binds_from_a_url_and_arbitrary_messages_do_not : bool :=
  match set [$"blob"] $"AQID" with
  | Done (Ok msg) => match lookup_field binder_pool msg blob with WBytes b => assert_eq b [x01; x02; x03] | _ => false end
  | _ => false
  end
  && match set [$"blob"] $"!!!" with Done (Err _) => true | _ => false end
  && match set [$"nested"] $"{}" with
     | Done (Err err) => contains $"Nested" (display (R := reflect binder_pool) err)
     | _ => false
     end
  && match set [$"nested"; $"id"] $"x" with Done (Ok _) => true | _ => false end.

Let set_body (name : str) (json : bytes) : run (result TranscodeError message) :=
  set_message_field (R := reflect binder_pool) (binder_fixture, []) name json.

Definition body_may_name_any_top_level_field : bool :=
  match set_body $"blob" (Json.quote $"AQID") with
  | Done (Ok msg) => match lookup_field binder_pool msg blob with WBytes b => assert_eq b [x01; x02; x03] | _ => false end
  | _ => false
  end
  && match set_body $"nested" (Json.show (Json.Obj [($"id", Json.Str $"inner")])) with Done (Ok _) => true | _ => false end
  && match set_body $"nested.id" (Json.quote $"x") with Done (Err _) => true | _ => false end.
End binder.

(** ** The tests of [transcode.rs] *)

Definition json_zero_cases : list (str * str) := [
  ($"name", Json.quote []); ($"count", $"0"); ($"big", Json.quote $"0"); ($"ratio", $"0"); ($"flag", $"false");
  ($"blob", Json.quote []); ($"color", Json.quote $"COLOR_UNSPECIFIED"); ($"nested", $"null"); ($"tags", $"[]")
].
Definition json_zero_per_kind : bool :=
  forallb (fun case =>
    match find_field zero_pool f_name zero_fixture case.1 with
    | Some field => assert_eq (Json.show (json_zero (R := reflect zero_pool) field)) case.2
    | None => false
    end) json_zero_cases.

Definition response_body_extraction : bool :=
  let METHOD := $"/echo.v1.Echo/Unary" in
  match from_file_descriptor_set (R := reflect echo_pool) [] with
  | Ok tc =>
      match request_json_to_proto tc METHOD (Json.show (Json.Obj [($"message", Json.Str $"hi")])),
            request_json_to_proto tc METHOD $"{}" with
      | Ok proto, Ok empty =>
          let gives r want := match r with Ok b => assert_eq b want | Err _ => false end in
          gives (response_proto_to_json_body tc METHOD proto $"message") (Json.quote $"hi")
          && gives (response_proto_to_json tc METHOD proto) (Json.show (Json.Obj [($"message", Json.Str $"hi")]))
          && gives (response_proto_to_json_body tc METHOD empty $"message") (Json.quote [])
          && match response_proto_to_json_body tc METHOD proto $"nope" with Err _ => true | Ok _ => false end
      | _, _ => false
      end
  | Err _ => false
  end.

(** Every test of the two files passes. *)
Theorem rest_tests_pass :
  custom_verb_is_part_of_the_match = true /\ multi_segment_capture = true /\ bare_wildcard_segments = true
  /\ field_names_resolve_by_proto_or_json_name = true /\ custom_kind_star_matches_any_verb = true
  /\ bytes_binds_from_a_url_and_arbitrary_messages_do_not = true /\ body_may_name_any_top_level_field = true
  /\ json_zero_per_kind = true /\ response_body_extraction = true.
Proof. vm_compute. auto 10. Qed.
