(* ===== verification/EchoRest.v ===== *)
(** * The REST surface of the echo service ([rust/crates/testecho/proto/echo.proto])

    Everything the REST part of the server is made of, on one schema: the router compiled
    from the annotations of the service, the captures, the query parameters and their
    coercion, and the request message. *)
From S2P Require Import Prelude RustStd Metadata Reflection HttpRule HttpBuild Transcode DynPool RestTests.
Import Dyn.

#[local] Existing Instance echo_pool_laws.

Definition echo_transcoder : Transcoder (R := reflect echo_pool) := mkTranscoder (R := reflect echo_pool) tt (from_pool (R := reflect echo_pool) tt).

(** The table the annotations compile to. *)
Definition get_binding (segs : list Segment) (g : str) (input : nat) : Binding nat :=
  mkBinding $"GET" segs [] NoBody [] g input.
Definition post_binding (segs : list Segment) (g : str) (input : nat) : Binding nat :=
  mkBinding $"POST" segs [] Wildcard [] g input.
Definition echo_bindings : list (Binding nat) := [
  post_binding [Literal $"v1"; Literal $"echo"] $"/echo.v1.Echo/Unary" 2;
  get_binding [Literal $"v1"; Literal $"echo"; Capture [$"message"] [AnyOne]] $"/echo.v1.Echo/Unary" 2;
  post_binding [Literal $"v1"; Literal $"chat"] $"/echo.v1.Echo/Chat" 2;
  get_binding [Literal $"v1"; Literal $"repeat"; Capture [$"message"] [AnyOne]] $"/echo.v1.Echo/Repeat" 1;
  get_binding [Literal $"v1"; Literal $"sleep"] $"/echo.v1.Echo/Sleep" 0
].

Lemma echo_router : router echo_transcoder = mkRouter echo_bindings.
Proof. vm_compute. reflexivity. Qed.

(** ** Lemmas *)

(** A plain path component. *)
Definition component (p : str) : Prop := p <> [] /\ ("/"%byte ∉ p) /\ ":"%byte ∉ p.

(** Two components against a route of two literals, or of two literals and a capture. *)
Lemma match_two a b p q :
  component p -> component q ->
  match_segments [Literal a; Literal b] [] ("/"%byte :: p ++ "/"%byte :: q)
  = Done (if decide (p = a /\ q = b) then Some [] else None).
Proof.
  intros Hp Hq. change ("/"%byte :: p ++ "/"%byte :: q) with ("/"%byte :: join $"/" [p; q]).
  rewrite match_segments_join by (done || by repeat constructor; apply Hp || apply Hq).
  cbn. repeat case_decide; naive_solver.
Qed.

Lemma match_capture a b x p q s v :
  component p -> component q -> component s -> percent_decode s = Done v ->
  match_segments [Literal a; Literal b; Capture [x] [AnyOne]] [] ("/"%byte :: p ++ "/"%byte :: q ++ "/"%byte :: s)
  = Done (if decide (p = a /\ q = b) then Some [([x], v)] else None).
Proof.
  intros Hp Hq Hs Hv. change ("/"%byte :: p ++ "/"%byte :: q ++ "/"%byte :: s) with ("/"%byte :: join $"/" [p; q; s]).
  rewrite match_segments_join by (done || by repeat constructor; apply Hp || apply Hq || apply Hs).
  cbn -[HttpRule.percent_decode]. repeat case_decide; try naive_solver.
  cbn -[HttpRule.percent_decode]. change (slice [p; q; s] 2 3) with (Done [s]).
  cbn -[HttpRule.percent_decode]. by rewrite Hv.
Qed.

(** A route of another length. *)
Lemma match_two_three a b p q s :
  component p -> component q -> component s ->
  match_segments [Literal a; Literal b] [] ("/"%byte :: p ++ "/"%byte :: q ++ "/"%byte :: s) = Done None.
Proof.
  intros Hp Hq Hs. change ("/"%byte :: p ++ "/"%byte :: q ++ "/"%byte :: s) with ("/"%byte :: join $"/" [p; q; s]).
  rewrite match_segments_join by (done || by repeat constructor; apply Hp || apply Hq || apply Hs).
  cbn. by repeat case_decide.
Qed.
Lemma match_capture_two a b x p q :
  component p -> component q ->
  match_segments [Literal a; Literal b; Capture [x] [AnyOne]] [] ("/"%byte :: p ++ "/"%byte :: q) = Done None.
Proof.
  intros Hp Hq. change ("/"%byte :: p ++ "/"%byte :: q) with ("/"%byte :: join $"/" [p; q]).
  rewrite match_segments_join by (done || by repeat constructor; apply Hp || apply Hq).
  cbn. by repeat case_decide.
Qed.

(** Which binding answers a path of two or three components. *)
Lemma route_two method q :
  component q ->
  match_request (router echo_transcoder) method ($"/v1/" ++ q)
  = Done (if decide (to_ascii_uppercase method = $"POST" /\ q = $"echo")
          then Some (post_binding [Literal $"v1"; Literal $"echo"] $"/echo.v1.Echo/Unary" 2, [])
          else if decide (to_ascii_uppercase method = $"POST" /\ q = $"chat")
          then Some (post_binding [Literal $"v1"; Literal $"chat"] $"/echo.v1.Echo/Chat" 2, [])
          else if decide (to_ascii_uppercase method = $"GET" /\ q = $"sleep")
          then Some (get_binding [Literal $"v1"; Literal $"sleep"] $"/echo.v1.Echo/Sleep" 0, [])
          else None).
Proof.
  intros Hq. rewrite echo_router. unfold match_request.
  change ($"/v1/" ++ q) with ("/"%byte :: $"v1" ++ "/"%byte :: q).
  generalize (to_ascii_uppercase method) as want. intros want.
  assert (component $"v1") as Hv by (repeat split; set_solver).
  cbn [match_request_loop bindings echo_bindings post_binding get_binding http_method segments custom_verb].
  rewrite !match_two, !match_capture_two by done. cbn [mbind run_bind].
  repeat case_decide; naive_solver.
Qed.

Lemma route_three method q s v :
  component q -> component s -> percent_decode s = Done v ->
  match_request (router echo_transcoder) method ($"/v1/" ++ q ++ $"/" ++ s)
  = Done (if decide (to_ascii_uppercase method = $"GET" /\ q = $"echo")
          then Some (get_binding [Literal $"v1"; Literal $"echo"; Capture [$"message"] [AnyOne]] $"/echo.v1.Echo/Unary" 2,
                     [([$"message"], v)])
          else if decide (to_ascii_uppercase method = $"GET" /\ q = $"repeat")
          then Some (get_binding [Literal $"v1"; Literal $"repeat"; Capture [$"message"] [AnyOne]] $"/echo.v1.Echo/Repeat" 1,
                     [([$"message"], v)])
          else None).
Proof.
  intros Hq Hs Hv. rewrite echo_router. unfold match_request.
  change ($"/v1/" ++ q ++ $"/" ++ s) with ("/"%byte :: $"v1" ++ "/"%byte :: q ++ "/"%byte :: s).
  generalize (to_ascii_uppercase method) as want. intros want.
  assert (component $"v1") as Hv1 by (repeat split; set_solver).
  cbn [match_request_loop bindings echo_bindings post_binding get_binding http_method segments custom_verb].
  rewrite !match_two_three, !(match_capture _ _ _ _ _ s v) by done. cbn [mbind run_bind].
  repeat case_decide; naive_solver.
Qed.

(** A query of one numeric parameter. *)
Lemma parse_number_query name n :
  is_ascii name = true -> name <> [] -> Forall (fun c => c ∉ name) ["&"%byte; "="%byte; "%"%byte; "+"%byte] ->
  parse_query (name ++ $"=" ++ fmt_dec n) = Done [(name, fmt_dec n)].
Proof.
  intros Ha Hne Hfree. rewrite !Forall_cons in Hfree. destruct Hfree as (H1 & H2 & H3 & H4 & _).
  pose proof (fmt_dec_digits n) as Hd. rewrite forallb_forall in Hd.
  assert (forall c, in_range 48 57 c = false -> c ∉ fmt_dec n) as Hno.
  { intros c Hc Hin%list_elem_of_In%Hd. congruence. }
  change ($"=" ++ fmt_dec n) with ("="%byte :: fmt_dec n). rewrite parse_query_one; [|done| |done].
  - rewrite !decode_query_id; [done|..]; try done; try by apply Hno.
    apply is_ascii_Forall, Forall_forall. intros c Hc%list_elem_of_In%Hd. apply in_range_spec in Hc. lia.
  - rewrite elem_of_app. intros [Hin|Hin]; [done|]. by eapply Hno in Hin.
Qed.

(** What building a request comes to once its route is known. *)
Abbreviation build := (build_message (R := reflect echo_pool)).
Abbreviation encoded := (encode_to_vec (Reflect := reflect echo_pool)).

Lemma bind_message fmt_debug d v :
  d = 1%nat \/ d = 2%nat ->
  set_by_path (R := reflect echo_pool) fmt_debug (d, []) [$"message"] v = Done (Ok (d, [((d, 0%nat), WStr v)])).
Proof.
  intros Hd. erewrite (set_by_path_leaf (R := reflect echo_pool)) by (by destruct Hd as [->| ->]).
  by rewrite (set_leaf_string (R := reflect echo_pool)) by (by destruct Hd as [->| ->]).
Qed.

Lemma build_repeat fmt_debug v n payload :
  build fmt_debug (get_binding [Literal $"v1"; Literal $"repeat"; Capture [$"message"] [AnyOne]] $"/echo.v1.Echo/Repeat" 1)
    [([$"message"], v)] (Some ($"count" ++ $"=" ++ fmt_dec n)) payload
  = Done (match parse_u32 (fmt_dec n) with
          | Some n => Ok (encoded (1%nat, [((1, 1)%nat, WU32 n); ((1, 0)%nat, WStr v)]))
          | None => Err (EHttp ($"invalid value for count: " ++ fmt_debug (fmt_dec n)))
          end).
Proof.
  unfold build_message, built_message. cbn [HttpRule.body get_binding body_message HttpRule.input rbind set_vars].
  change (message_new (Reflect := reflect echo_pool) 1%nat) with ((1%nat, []) : message).
  rewrite bind_message by auto. cbn [rbind]. rewrite parse_number_query by first [done|repeat constructor; set_solver].
  cbn [mbind run_bind set_query]. change (split "."%byte $"count") with [$"count"].
  change (existsb _ [([$"message"], v)]) with false. cbv iota.
  erewrite (set_by_path_leaf (R := reflect echo_pool)) by reflexivity.
  rewrite (set_leaf_u32 (R := reflect echo_pool)) by done. by destruct (parse_u32 (fmt_dec n)).
Qed.

Lemma build_echo fmt_debug v payload :
  build fmt_debug (get_binding [Literal $"v1"; Literal $"echo"; Capture [$"message"] [AnyOne]] $"/echo.v1.Echo/Unary" 2)
    [([$"message"], v)] None payload
  = Done (Ok (encoded (2%nat, [((2, 0)%nat, WStr v)]))).
Proof.
  unfold build_message, built_message. cbn [HttpRule.body get_binding body_message HttpRule.input rbind set_vars].
  change (message_new (Reflect := reflect echo_pool) 2%nat) with ((2%nat, []) : message).
  by rewrite bind_message by auto.
Qed.

Lemma build_sleep fmt_debug n payload :
  build fmt_debug (get_binding [Literal $"v1"; Literal $"sleep"] $"/echo.v1.Echo/Sleep" 0)
    [] (Some ($"millis" ++ $"=" ++ fmt_dec n)) payload
  = Done (match parse_u32 (fmt_dec n) with
          | Some n => Ok (encoded (0%nat, [((0, 0)%nat, WU32 n)]))
          | None => Err (EHttp ($"invalid value for millis: " ++ fmt_debug (fmt_dec n)))
          end).
Proof.
  unfold build_message, built_message. cbn [HttpRule.body get_binding body_message HttpRule.input rbind set_vars].
  rewrite parse_number_query by first [done|repeat constructor; set_solver].
  cbn [mbind run_bind set_query]. change (split "."%byte $"millis") with [$"millis"]. cbn [existsb]. cbv iota.
  erewrite (set_by_path_leaf (R := reflect echo_pool)) by reflexivity.
  rewrite (set_leaf_u32 (R := reflect echo_pool)) by done. by destruct (parse_u32 (fmt_dec n)).
Qed.

Lemma build_posted fmt_debug segs g payload :
  build fmt_debug (post_binding segs g 2) [] None payload
  = Done (match deserialize_message (R := reflect echo_pool) 2%nat payload with
          | Ok m => Ok (encoded m) | Err e => Err e end).
Proof.
  unfold build_message, built_message. cbn [HttpRule.body post_binding body_message HttpRule.input].
  by destruct (deserialize_message _ _).
Qed.

(** No binding answers a method other than these two. *)
Lemma no_route method path :
  to_ascii_uppercase method ∉ [$"GET"; $"POST"] -> match_request (router echo_transcoder) method path = Done None.
Proof.
  rewrite echo_router. unfold match_request. generalize (to_ascii_uppercase method) as want. intros want Hw.
  rewrite !not_elem_of_cons in Hw. destruct Hw as (Hg & Hp & _).
  cbn [match_request_loop bindings echo_bindings post_binding get_binding http_method].
  by rewrite !decide_True by (split; [congruence|discriminate]).
Qed.

(** ** The surface *)


(** ** Witnesses *)


(** The schema's requests are total too: the values of this instance are checked. *)
Lemma rest_requests_total_witness :
  exists r, transcode_http_request (R := reflect echo_pool) (fun s => s) echo_transcoder $"GET" $"/v1/sleep" (Some $"millis=x") [] = Done r.
Proof.
  exact (proj1 (proj2 (rest_requests_total (R := reflect echo_pool) (fun s => s) [] echo_transcoder $"GET" $"/v1/sleep"
    (Some $"millis=x") [] eq_refl)) eq_refl eq_refl).
Defined.
