(* ===== verification/JsonFrame.v ===== *)
(** * The frames of the WebSocket path ([rust/crates/grpc-webnext/src/json_frame.rs])

    The protobuf [Frame] of [grpc_webnext.proto] as the sources use it, the JSON frame and
    the conversions between the two. *)
From Stdlib Require Import Sorting.Sorted.
From S2P Require Import Prelude RustStd Reflection Metadata Framing ClientMetadata.

(** ** [grpc.webnext.v1.Frame] *)

Record Subscribe : Type := mkSubscribe {
  sub_method : str;
  sub_headers : list Metadatum;
  timeout_millis : N;
  initial_payload : bytes
}.

Record Reset : Type := mkReset { reset_code : N; reset_message : str }.

Inductive FrameKind : Type :=
| FSubscribe (s : Subscribe)
| FMessage (payload : bytes)
| FHalfClose
| FTrailer (t : Trailer)
| FReset (r : Reset)
| FHeader (headers : list Metadatum).

(** [Frame { kind: Option<Kind> }] *)
Abbreviation Frame := (option FrameKind).

(** ** [BTreeMap<String, String>]: entries in key order, one per key. *)

Abbreviation JsonMeta := (list (str * str)).

Fixpoint bt_insert (k v : str) (m : JsonMeta) : JsonMeta :=
  match m with
  | [] => [(k, v)]
  | (k', v') :: m' =>
      if decide (k = k') then (k, v) :: m'
      else if str_le k k' then (k, v) :: m
      else (k', v') :: bt_insert k v m'
  end.

Fixpoint bt_get (m : JsonMeta) (k : str) : option str :=
  match m with
  | [] => None
  | (k', v) :: m' => if decide (k' = k) then Some v else bt_get m' k
  end.

(** ** JSON frames *)

Section json.
Context {R : Reflect}.

Record JsonStatus : Type := mkJsonStatus { js_code : N; js_message : str }.

Record JsonFrame : Type := mkJsonFrame {
  jf_metadata : option JsonMeta;
  jf_timeout_millis : option N;
  jf_message : option JsonValue;
  jf_half_close : option bool;
  jf_status : option JsonStatus
}.

(** [JsonFrame::default()] *)
Definition jf_default : JsonFrame := mkJsonFrame None None None None None.

(** The entries [meta_vec_to_json] keeps: ASCII values. *)
Definition ascii_entry (m : Metadatum) : option (str * str) :=
  match value m with
  | Some (AsciiVal s) => Some (key m, s)
  | _ => None
  end.

(** [collect] into a [BTreeMap]: a later value of a key replaces the earlier one. *)
Definition meta_vec_to_json (items : list Metadatum) : option JsonMeta :=
  let map := foldl (fun m e => bt_insert e.1 e.2 m) [] (omap ascii_entry items) in
  if nonempty map then Some map else None.

Definition json_to_meta_vec (meta : option JsonMeta) : list Metadatum :=
  map (fun e => mkMetadatum e.1 (Some (AsciiVal e.2))) (default [] meta).

(** [serde_json::to_vec(v).unwrap_or_default()] *)
Definition to_bytes (v : JsonValue) : bytes :=
  match json_to_vec v with Ok b => b | Err _ => [] end.

Definition json_open_to_subscribe (f : JsonFrame) (method : str) : Subscribe :=
  mkSubscribe method (json_to_meta_vec (jf_metadata f)) (default 0 (jf_timeout_millis f))
    (match jf_message f with Some v => to_bytes v | None => [] end).

Definition json_frame_to_proto (f : JsonFrame) : Frame :=
  Some (match jf_status f with
        | Some status => FReset (mkReset (js_code status) (js_message status))
        | None =>
            if decide (jf_half_close f = Some true) then FHalfClose
            else match jf_message f with
                 | Some message => FMessage (to_bytes message)
                 | None => FHalfClose
                 end
        end).

Definition proto_frame_to_json (frame : Frame) : option JsonFrame :=
  let from_bytes b := match json_from_slice b with Ok v => v | Err _ => JNull end in
  match frame with
  | Some (FMessage payload) => Some (mkJsonFrame None None (Some (from_bytes payload)) None None)
  | Some (FHeader headers) =>
      Some (mkJsonFrame (Some (default [] (meta_vec_to_json headers))) None None None None)
  | Some (FTrailer t) =>
      Some (mkJsonFrame (meta_vec_to_json (trailers t)) None None None
              (Some (mkJsonStatus (status_code t) (status_message t))))
  | Some (FReset r) =>
      Some (mkJsonFrame None None None None (Some (mkJsonStatus (reset_code r) (reset_message r))))
  | _ => None
  end.

(** ** Lemmas *)

Lemma bt_get_insert m k v k' : bt_get (bt_insert k v m) k' = if decide (k = k') then Some v else bt_get m k'.
Proof.
  induction m as [|[x w] m IH]; simpl; [done|].
  destruct (decide (k = x)) as [->|Hne]; simpl; [by destruct (decide (x = k'))|].
  destruct (str_le k x); simpl; [done|]. rewrite IH.
  destruct (decide (x = k')) as [->|]; [by rewrite decide_False by done|done].
Qed.

(** Keys strictly increasing: the order of a [BTreeMap]. *)
Definition bt_sorted (m : JsonMeta) : Prop := StronglySorted (fun a b => str_le a.1 b.1 /\ a.1 <> b.1) m.

Lemma bt_insert_keys k v m e : e ∈ bt_insert k v m -> e.1 = k \/ e ∈ m.
Proof.
  induction m as [|[x w] m IH]; simpl; [rewrite list_elem_of_singleton; intros ->; by left|].
  destruct (decide (k = x)) as [->|]; [|destruct (str_le k x)]; rewrite !elem_of_cons; [..|naive_solver].
  - intros [->|?]; auto.
  - intros [->|[->|?]]; auto.
Qed.

Lemma bt_insert_sorted k v m : bt_sorted m -> bt_sorted (bt_insert k v m).
Proof.
  unfold bt_sorted. induction 1 as [|[x w] m Hs IH Hall]; simpl; [repeat constructor|].
  destruct (decide (k = x)) as [->|Hne]; [by constructor|]. destruct (str_le k x) eqn:E.
  - constructor; [by constructor|]. constructor; [split; [simpl; by rewrite E|done]|].
    eapply Forall_impl; [exact Hall|]. intros [y u]. simpl. intros [Hle Hxy]. split.
    + apply (str_le_trans k x y); [by rewrite E|done].
    + intros <-. apply Hne, str_le_antisym; [by rewrite E|done].
  - constructor; [done|]. apply Forall_forall. intros e [He|He]%bt_insert_keys.
    + rewrite He. simpl. split; [|done]. destruct (str_le_total x k); [done|]. by rewrite E in *.
    + rewrite Forall_forall in Hall. by apply Hall.
Qed.

Definition bt_of (l : list (str * str)) : JsonMeta := foldl (fun m e => bt_insert e.1 e.2 m) [] l.

Lemma bt_of_snoc l e : bt_of (l ++ [e]) = bt_insert e.1 e.2 (bt_of l).
Proof. unfold bt_of. by rewrite foldl_app. Qed.

Lemma bt_of_sorted l : bt_sorted (bt_of l).
Proof.
  induction l as [|e l IH] using rev_ind; [constructor|]. rewrite bt_of_snoc. by apply bt_insert_sorted.
Qed.

Lemma bt_get_of l k : bt_get (bt_of l) k = snd <$> last (filter (fun e => e.1 = k) l).
Proof.
  induction l as [|e l IH] using rev_ind; [done|]. rewrite bt_of_snoc, bt_get_insert, filter_app, IH.
  rewrite filter_cons, filter_nil. destruct (decide (e.1 = k)); [by rewrite last_snoc|by rewrite app_nil_r].
Qed.

(** A sorted map is the map of its own entries. *)
Lemma bt_of_id m : bt_sorted m -> bt_of m = m.
Proof.
  enough (forall pre m, bt_sorted (pre ++ m) -> foldl (fun m e => bt_insert e.1 e.2 m) pre m = pre ++ m) as Hf
    by (intros Hm; by apply (Hf [])).
  intros pre l. revert pre. induction l as [|[k v] l IH]; intros pre Hs; simpl; [by rewrite app_nil_r|].
  assert (bt_insert k v pre = pre ++ [(k, v)]) as ->.
  { clear IH. induction pre as [|[x w] pre IHp]; [done|]. simpl.
    apply StronglySorted_inv in Hs as [Hs Hall]. rewrite Forall_forall in Hall.
    destruct (Hall (k, v)) as [Hle Hne]; [set_solver|]. simpl in *.
    rewrite decide_False by done. destruct (str_le k x) eqn:E; [|by rewrite IHp].
    destruct Hne. apply str_le_antisym; [done|]. by rewrite E. }
  rewrite IH; rewrite <- app_assoc; done.
Qed.
End json.

(** ** Properties *)

(** The JSON bridge keeps what the frames mean. A message that is JSON text and a reset come
    back from their JSON form as the frames they were; a trailer keeps its code, its message
    and, per key, the last ASCII value; request metadata of an open frame survives the
    protobuf form; the kinds only a client sends, and no other, have no JSON form; and
    whatever a client sends after opening reads as a message, a half-close or a reset. *)
Theorem json_bridge {R : Reflect}
  (Hjson : forall v b, json_to_vec v = Ok b -> json_from_slice b = Ok v)
  (v : JsonValue) (b : bytes) (Hv : json_to_vec v = Ok b)
  (r : Reset) (t : Trailer) (m : JsonMeta) (Hm : bt_sorted m) (Hne : m <> []) (frame : Frame) (jf : JsonFrame) :
  (exists f, proto_frame_to_json (Some (FMessage b)) = Some f /\ json_frame_to_proto f = Some (FMessage b))
  /\ (exists f, proto_frame_to_json (Some (FReset r)) = Some f /\ json_frame_to_proto f = Some (FReset r))
  /\ (exists f, proto_frame_to_json (Some (FTrailer t)) = Some f
        /\ jf_status f = Some (mkJsonStatus (status_code t) (status_message t))
        /\ forall k, (meta ← jf_metadata f; bt_get meta k)
                     = snd <$> last (filter (fun e => e.1 = k) (omap ascii_entry (trailers t))))
  /\ meta_vec_to_json (json_to_meta_vec (Some m)) = Some m
  /\ (proto_frame_to_json frame = None <->
        frame = None \/ frame = Some FHalfClose \/ exists s, frame = Some (FSubscribe s))
  /\ (exists p, json_frame_to_proto jf = Some (FMessage p) \/ json_frame_to_proto jf = Some FHalfClose
        \/ exists r, json_frame_to_proto jf = Some (FReset r)).
Proof.
  split; [|split; [|split; [|split; [|split]]]].
  - eexists. split; [done|]. unfold json_frame_to_proto. cbn. rewrite (Hjson v b Hv). cbn.
    unfold to_bytes. by rewrite Hv.
  - eexists. split; [done|]. by destruct r.
  - eexists. split; [done|]. split; [done|]. intros k. cbn [jf_metadata]. unfold meta_vec_to_json.
    change (foldl _ [] ?l) with (bt_of l). rewrite <- bt_get_of.
    by destruct (bt_of (omap ascii_entry (trailers t))).
  - unfold meta_vec_to_json, json_to_meta_vec. cbn [default from_option id].
        match goal with |- context [omap ascii_entry ?l] => assert (omap ascii_entry l = m) as -> end.
    { clear. induction m as [|[k v] m IH]; [done|]. simpl. f_equal. exact IH. }
    change (foldl _ [] m) with (bt_of m). rewrite bt_of_id by done. by destruct m.
  - destruct frame as [[]|]; simpl; split; naive_solver.
  - unfold json_frame_to_proto. destruct (jf_status jf); [eexists []; eauto|].
    case_decide; [exists []; auto|]. destruct (jf_message jf) as [x|]; [exists (to_bytes x); auto|exists []; auto].
Qed.

(** ** Witnesses *)

Lemma json_bridge_witness :
  meta_vec_to_json (json_to_meta_vec (Some [($"a", $"1"); ($"b", $"2")])) = Some [($"a", $"1"); ($"b", $"2")].
Proof.
  refine (proj1 (proj2 (proj2 (proj2 (json_bridge (R := Flat.reflect) _ (Flat.quoted $"x") (Flat.quoted $"x") eq_refl
    (mkReset 5 $"gone") (mkTrailer 0 [] []) [($"a", $"1"); ($"b", $"2")] _ _ None jf_default))))).
  - intros v b [= <-]. reflexivity.
  - repeat constructor; discriminate.
  - discriminate.
Defined.
