(* ===== verification/WsCodec.v ===== *)
(** * WebSocket frame codec and close frames ([rust/crates/grpc-webnext/src/ws.rs], [frame.rs])

    Decoding the frames of a connection (binary or text), encoding the server's frames, and
    the close frames it ends a connection with. The prost codec of [Frame] and the serde
    codec of [JsonFrame] are parameters. *)
From S2P Require Import Prelude RustStd Reflection Metadata Framing JsonFrame ClientStatus.

(** [tungstenite::Message]; a close frame carries a code and a reason. *)
Inductive TungMessage : Type :=
| TText (s : str)
| TBinary (b : bytes)
| TPing (b : bytes)
| TPong (b : bytes)
| TClose (f : option (N * str)).

(** A [tonic::Status]: its code (tonic's enumeration is gRPC's) and message. *)
Record TonicStatus : Type := mkTonicStatus { ts_code : Code.t; ts_message : str }.
Definition code_u32 (c : Code.t) : N := Z.to_N (Code.to_Z c).

(** The codecs of the two frame types. *)
Class FrameCodec (R : Reflect) : Type := {
  encode_frame : Frame -> bytes;
  decode_frame : bytes -> option Frame;
  encode_json_frame : JsonFrame -> str;
  decode_json_frame : str -> option JsonFrame
}.

(** ** Close frames *)

(** The loop of [truncate_utf8]: step back to a char boundary. *)
Fixpoint back_to_boundary (s : str) (e : nat) : nat :=
  match e with
  | O => O
  | S e' => if is_char_boundary s (N.of_nat e) then e else back_to_boundary s e'
  end.

(** [&s[..end]] panics off a char boundary. *)
Definition truncate_utf8 (s : str) (max : N) : run str :=
  if blen s <=? max then Done s
  else
    let e := N.of_nat (back_to_boundary s (N.to_nat max)) in
    if is_char_boundary s e then Done (btake e s) else Panic.

Definition close_going_away : TungMessage := TClose (Some (1001, $"server draining")).
Definition close_normal : TungMessage := TClose (Some (1000, [])).
Definition close_for_status (status : TonicStatus) : run TungMessage :=
  let code := 4000 + code_u32 (ts_code status) in
  reason ← truncate_utf8 (ts_message status) 123;
  Done (TClose (Some (code, reason))).

(** ** Frames *)

Section codec.
Context {R : Reflect} {FC : FrameCodec R}.

Definition decode_binary (data : bytes) (method_url : str) (opened : bool) : option Frame * bool :=
  match decode_frame data with
  | Some (Some (FSubscribe s)) =>
      (Some (Some (FSubscribe (mkSubscribe method_url (sub_headers s) (timeout_millis s) (initial_payload s)))), true)
  | Some (Some k) => (if opened then Some (Some k) else None, opened)
  | _ => (None, opened)
  end.

Definition decode_text (text : str) (method_url : str) (opened : bool) : option Frame * bool :=
  match decode_json_frame text with
  | None => (None, opened)
  | Some jf =>
      if opened then (Some (json_frame_to_proto jf), opened)
      else (Some (Some (FSubscribe (json_open_to_subscribe jf method_url))), true)
  end.

Definition to_tung (frame : Frame) (json : bool) : TungMessage :=
  if json then
    match proto_frame_to_json frame with
    | Some jf => TText (encode_json_frame jf)
    | None => TBinary (encode_frame frame)
    end
  else TBinary (encode_frame frame).

(** One incoming message through the codec lock of [serve]: the codec, the opened flag, and
    the frame to handle with the codec it came in. *)
Definition decode_locked (method_url : str) (codec : option bool) (opened : bool) (m : TungMessage)
  : option bool * bool * option (Frame * bool) :=
  match m with
  | TBinary data =>
      let json := default false codec in
      if json then (Some json, opened, None)
      else let '(f, opened') := decode_binary data method_url opened in (Some json, opened', (fun f => (f, false)) <$> f)
  | TText text =>
      let json := default true codec in
      if negb json then (Some json, opened, None)
      else let '(f, opened') := decode_text text method_url opened in (Some json, opened', (fun f => (f, true)) <$> f)
  | _ => (codec, opened, None)
  end.

(** The frames a whole sequence of messages yields. *)
Fixpoint decode_all (method_url : str) (codec : option bool) (opened : bool) (ms : list TungMessage)
  : list (Frame * bool) :=
  match ms with
  | [] => []
  | m :: ms' =>
      let '(codec', opened', f) := decode_locked method_url codec opened m in
      match f with Some f => f :: decode_all method_url codec' opened' ms' | None => decode_all method_url codec' opened' ms' end
  end.
End codec.

(** ** Lemmas on UTF-8 text *)

(** One encoded character. *)
Definition utf8_char (c : bytes) : Prop :=
  match c with b0 :: cs => utf8_step b0 cs = (true, length cs) | [] => False end.

Lemma utf8_step_true b0 s1 k :
  utf8_step b0 s1 = (true, k) ->
  is_cont b0 = false /\ (k <= 3)%nat /\ (k <= length s1)%nat /\ Forall (fun b => is_cont b = true) (take k s1)
  /\ forall r, utf8_step b0 (take k s1 ++ r) = (true, k).
Proof.
  assert (forall b lo hi, in_range lo hi b = true -> 192 <= lo -> is_cont b = false) as Hlead.
  { intros b lo hi Hb Hlo. apply in_range_spec in Hb. unfold is_cont, in_range.
    destruct (N.leb_spec (bN b) 191); [lia|]. by rewrite andb_false_r. }
  assert (forall a b, second3 a b = true -> is_cont b = true) as H3.
  { intros a b. unfold second3, is_cont. repeat case_match; rewrite ?in_range_spec; lia. }
  assert (forall a b, second4 a b = true -> is_cont b = true) as H4.
  { intros a b. unfold second4, is_cont. repeat case_match; rewrite ?in_range_spec; lia. }
  unfold utf8_step. destruct (bN b0 <? 128) eqn:E1.
  { intros [= <-]. apply N.ltb_lt in E1. split; [by apply ascii_not_cont|]. repeat split; [lia|lia|constructor]. }
  destruct (in_range 194 223 b0) eqn:E2.
  { destruct s1 as [|b1 s1]; [done|]. intros [= Hc Hk]. rewrite Hc in Hk. subst k.
    split; [by eapply Hlead|]. simpl. split; [lia|]. split; [lia|]. split; [by repeat constructor|].
    intros r. by rewrite Hc. }
  destruct (in_range 224 239 b0) eqn:E3.
  { destruct s1 as [|b1 [|b2 s1]]; [done|by destruct (second3 b0 b1)|].
    destruct (second3 b0 b1) eqn:Es; [|done]. intros [= Hc Hk]. rewrite Hc in Hk. subst k.
    split; [by eapply Hlead|]. simpl. split; [lia|]. split; [lia|]. split; [repeat constructor; eauto|].
    intros r. by rewrite Es, Hc. }
  destruct (in_range 240 244 b0) eqn:E4; [|done].
  destruct s1 as [|b1 [|b2 [|b3 s1]]]; [done|by repeat case_match|by repeat case_match|].
  destruct (second4 b0 b1) eqn:Es; [|done]. destruct (is_cont b2) eqn:Ec; [|done].
  intros [= Hc Hk]. rewrite Hc in Hk. subst k.
  split; [by eapply Hlead|]. simpl. split; [lia|]. split; [lia|]. split; [repeat constructor; eauto|].
  intros r. by rewrite Es, Ec, Hc.
Qed.

Lemma utf8_char_shape c :
  utf8_char c -> exists b0 cs, c = b0 :: cs /\ is_cont b0 = false /\ (length cs <= 3)%nat
    /\ Forall (fun b => is_cont b = true) cs /\ forall r, utf8_step b0 (cs ++ r) = (true, length cs).
Proof.
  destruct c as [|b0 cs]; [done|]. intros H. apply utf8_step_true in H as (H1 & H2 & _ & H3 & H4).
  rewrite firstn_all in *. eauto 10.
Qed.

(** Valid text is a sequence of characters. *)
Lemma utf8_valid_chars s : utf8_valid s = true <-> exists cs, s = concat cs /\ Forall utf8_char cs.
Proof.
  split.
  - unfold utf8_valid, utf8_chunks.
    assert (length s <= length s)%nat as Hf by lia. revert Hf. generalize (length s) at 2 3 as fuel.
    intros fuel. revert s. induction fuel as [|fuel IH]; intros s Hf Hv.
    { destruct s; [|simpl in *; lia]. exists []. by split; [|constructor]. }
    destruct s as [|b0 s1]; [exists []; by split; [|constructor]|]. cbn [utf8_chunks_fuel] in Hv.
    destruct (utf8_step b0 s1) as [[] k] eqn:Es; [|done]. simpl in Hv.
    destruct (IH (drop k s1)) as (cs & Hcs & Hall); [rewrite length_drop; simpl in *; lia|done|].
    exists ((b0 :: take k s1) :: cs). cbn [concat]. rewrite <- Hcs. cbn [app]. rewrite take_drop. split; [done|].
    constructor; [|done]. apply utf8_step_true in Es as (_ & _ & Hk & _ & Hr). simpl.
    specialize (Hr []). rewrite app_nil_r in Hr. rewrite Hr. by rewrite length_take_le.
  - intros (cs & -> & Hall). unfold utf8_valid, utf8_chunks.
    assert (length (concat cs) <= length (concat cs))%nat as Hf by lia. revert Hf.
    generalize (length (concat cs)) at 2 3 as fuel. intros fuel. revert fuel.
    induction Hall as [|c cs Hc Hall IH]; intros fuel Hf; [by destruct fuel|].
    apply utf8_char_shape in Hc as (b0 & c' & -> & _ & _ & _ & Hr). simpl in Hf.
    destruct fuel as [|fuel]; [lia|]. cbn [concat app utf8_chunks_fuel]. rewrite Hr.
    rewrite drop_app_length. cbn [forallb]. rewrite IH; [done|]. rewrite length_app in Hf. lia.
Qed.

Lemma boundary_concat cs (e : nat) :
  Forall utf8_char cs -> (e <= length (concat cs))%nat -> is_char_boundary (concat cs) (N.of_nat e) = true ->
  exists j, take e (concat cs) = concat (take j cs).
Proof.
  intros Hall. revert e. induction Hall as [|c cs Hc Hall IH]; intros e He Hb.
  { exists 0%nat. simpl. apply take_nil. }
  destruct (utf8_char_shape c Hc) as (b0 & c' & -> & _ & _ & Hcont & _).
  destruct (decide (e = 0%nat)) as [->|Hne]; [by exists 0%nat|].
  unfold is_char_boundary in Hb. destruct (N.eqb_spec (N.of_nat e) 0); [lia|]. cbn [orb] in Hb.
  unfold bdrop in Hb. rewrite Nat2N.id in Hb. cbn [concat] in *.
  destruct (decide (length (b0 :: c') <= e)%nat) as [Hge|Hlt].
  - rewrite drop_app_ge in Hb by done. rewrite take_app_ge by done. rewrite length_app in He.
    destruct (IH (e - length (b0 :: c'))%nat) as [j Hj]; [lia| |exists (S j); simpl; by f_equal; rewrite <- Hj].
    unfold is_char_boundary. destruct (N.eqb_spec (N.of_nat (e - length (b0 :: c'))) 0); [done|].
    unfold bdrop. by rewrite Nat2N.id.
  - exfalso. rewrite drop_app_le in Hb by lia.
    destruct e as [|e]; [done|]. cbn [drop] in Hb.
    destruct (drop e c') as [|b d] eqn:Ed.
    + apply (f_equal length) in Ed. rewrite length_drop in Ed. simpl in *. lia.
    + simpl in Hb. rewrite Forall_forall in Hcont. rewrite Hcont in Hb; [done|].
      assert (b ∈ drop e c') as Hin by (rewrite Ed; left).
      eapply elem_of_sublist; [exact Hin|apply sublist_drop].
Qed.

(** Any position has a boundary at most three bytes before it. *)
Lemma boundary_near cs (p : nat) :
  Forall utf8_char cs -> (p <= length (concat cs))%nat ->
  exists e, (e <= p)%nat /\ (p <= e + 3)%nat /\ is_char_boundary (concat cs) (N.of_nat e) = true.
Proof.
  intros Hall. revert p. induction Hall as [|c cs Hc Hall IH]; intros p Hp; [exists 0%nat; simpl in *; split; [lia|by split; [lia|]]|].
  destruct (utf8_char_shape c Hc) as (b0 & c' & -> & _ & Hlen & _ & _).
  destruct (decide (length (b0 :: c') <= p)%nat) as [Hge|Hlt].
  - cbn [concat] in *. rewrite length_app in Hp.
    destruct (IH (p - length (b0 :: c'))%nat) as (e & H1 & H2 & H3); [lia|].
    exists (length (b0 :: c') + e)%nat. split; [lia|]. split; [lia|].
    unfold is_char_boundary in *. apply orb_true_iff. right.
    unfold bdrop in *. rewrite Nat2N.id in *. rewrite drop_app_add.
    apply orb_prop in H3 as [H3|H3]; [|done]. apply N.eqb_eq in H3. assert (e = 0%nat) as -> by lia. cbn [drop].
    destruct Hall as [|c2 cs2 Hc2 _]; [done|]. apply utf8_char_shape in Hc2 as (b2 & c2' & -> & Hb2 & _).
    cbn [concat app drop boundary_here]. by rewrite Hb2.
  - exists 0%nat. simpl in *. split; [lia|]. split; [lia|done].
Qed.

Lemma back_to_boundary_spec s p :
  (back_to_boundary s p <= p)%nat
  /\ is_char_boundary s (N.of_nat (back_to_boundary s p)) = true
  /\ forall e, (e <= p)%nat -> is_char_boundary s (N.of_nat e) = true -> (e <= back_to_boundary s p)%nat.
Proof.
  induction p as [|p (H1 & H2 & H3)]; cbn [back_to_boundary]; [by split; [|split]|].
  destruct (is_char_boundary s (N.of_nat (S p))) eqn:E; [split; [lia|]; split; [done|]; intros; lia|].
  split; [lia|]. split; [done|]. intros e He Hb. destruct (decide (e = S p)) as [->|]; [congruence|].
  apply H3; [lia|done].
Qed.

Lemma truncate_utf8_spec s max :
  utf8_valid s = true ->
  exists t, truncate_utf8 s max = Done t /\ t `prefix_of` s /\ utf8_valid t = true /\ blen t <= max
    /\ (t = s \/ max < blen t + 4).
Proof.
  intros Hv. unfold truncate_utf8. destruct (N.leb_spec (blen s) max) as [Hle|Hgt].
  { exists s. split; [done|]. split; [done|]. split; [done|]. split; [done|]. by left. }
  apply utf8_valid_chars in Hv as (cs & -> & Hall).
  destruct (back_to_boundary_spec (concat cs) (N.to_nat max)) as (H1 & H2 & H3). rewrite H2.
  set (e := back_to_boundary (concat cs) (N.to_nat max)) in *. unfold btake. rewrite Nat2N.id.
  assert (e <= length (concat cs))%nat as He by (unfold blen in *; lia).
  destruct (boundary_concat cs e Hall He H2) as [j Hj].
  eexists. split; [done|]. split; [apply prefix_take|]. split.
  - apply utf8_valid_chars. exists (take j cs). split; [done|]. by apply Forall_take.
  - unfold blen in *. rewrite length_take. split; [lia|]. right.
    destruct (boundary_near cs (N.to_nat max) Hall) as (e' & He' & Hn & Hb'); [lia|].
    specialize (H3 e' He' Hb'). lia.
Qed.

(** ** Lemmas on decoding *)

Section decoding.
Context {R : Reflect} {FC : FrameCodec R}.

Definition is_subscribe (f : Frame) : bool := match f with Some (FSubscribe _) => true | _ => false end.
Definition routed (url : str) (f : Frame) : Prop :=
  match f with Some (FSubscribe s) => sub_method s = url | _ => True end.

(** What one decoded frame can be, and what the next state is. *)
Lemma decode_locked_spec url codec opened m codec' opened' f :
  decode_locked url codec opened m = (codec', opened', f) ->
  (opened = true -> opened' = true) /\ (forall c, codec = Some c -> codec' = Some c)
  /\ match f with
     | Some (fr, j) => codec' = Some j /\ opened' = true /\ routed url fr
         /\ (opened = false -> is_subscribe fr = true) /\ (j = true -> opened = true -> is_subscribe fr = false)
     | None => opened' = opened
     end.
Proof.
  destruct m as [text|data| | |]; simpl; try (intros [= <- <- <-]; auto).
  - destruct (default true codec) eqn:Ec; simpl.
    + unfold decode_text. destruct (decode_json_frame text) as [jf|]; [|intros [= <- <- <-]; destruct codec; naive_solver].
      destruct opened; intros [= <- <- <-].
      * split; [done|]. split; [destruct codec; naive_solver|]. split; [done|]. split; [done|].
        unfold json_frame_to_proto. by repeat case_match.
      * split; [done|]. split; [destruct codec; naive_solver|]. by repeat split.
    + intros [= <- <- <-]. destruct codec; naive_solver.
  - destruct (default false codec) eqn:Ec; simpl; [intros [= <- <- <-]; destruct codec; naive_solver|].
    unfold decode_binary. destruct (decode_frame data) as [[[]|]|]; destruct opened; intros [= <- <- <-];
      (split; [done|]; split; [destruct codec; naive_solver|]; by repeat split).
Qed.

Lemma decode_all_open url c ms :
  Forall (fun f => f.2 = c /\ routed url f.1 /\ (c = true -> is_subscribe f.1 = false))
    (decode_all url (Some c) true ms).
Proof.
  induction ms as [|m ms IH]; [constructor|]. cbn [decode_all].
  destruct (decode_locked url (Some c) true m) as [[codec' opened'] f] eqn:E.
  apply decode_locked_spec in E as (Ho & Hc & Hf). rewrite (Hc c), (Ho eq_refl) by done.
  destruct f as [[fr j]|]; [|done]. destruct Hf as (Hj & _ & Hr & _ & Hs).
  rewrite (Hc c) in Hj by done. simplify_eq. constructor; [|done]. naive_solver.
Qed.
End decoding.

(** ** Properties *)

(** Whatever a client sends, the frames the connection handles obey the protocol: they all
    come in one codec (the negotiated one, or that of the first frame), the first is a
    [Subscribe] for the URL's method, no [Subscribe] ever names another method, and with the
    JSON codec no second [Subscribe] exists. *)
Theorem decode_discipline {R : Reflect} {FC : FrameCodec R} (url : str) (codec : option bool) (ms : list TungMessage) :
  match decode_all url codec false ms with
  | [] => True
  | (f, j) :: rest =>
      (exists s, f = Some (FSubscribe s) /\ sub_method s = url)
      /\ (forall c, codec = Some c -> j = c)
      /\ Forall (fun g => g.2 = j /\ routed url g.1 /\ (j = true -> is_subscribe g.1 = false)) rest
  end.
Proof.
  revert codec. induction ms as [|m ms IH]; intros codec; [done|]. cbn [decode_all].
  destruct (decode_locked url codec false m) as [[codec' opened'] f] eqn:E.
  apply decode_locked_spec in E as (Ho & Hc & Hf). destruct f as [[fr j]|].
  - destruct Hf as (-> & -> & Hr & Hs & _). specialize (Hs eq_refl).
    destruct fr as [[s| | | | |]|]; try done. split; [by exists s|]. split; [naive_solver|].
    apply decode_all_open.
  - subst opened'. specialize (IH codec').
    destruct (decode_all url codec' false ms) as [|[g j] rest]; [done|].
    destruct IH as (H1 & H2 & H3). split; [done|]. split; [|done]. intros c Hcc. apply H2. by apply Hc.
Qed.

(** A rejected handshake's close frame always exists and is legal: the private code is
    [4000 + status], the reason is a prefix of the message that is still valid UTF-8 and fits
    the 125-byte control frame, and at most three bytes below the limit are given up. *)
Theorem close_for_status_legal (status : TonicStatus) (Hmsg : utf8_valid (ts_message status) = true) :
  exists code reason, close_for_status status = Done (TClose (Some (code, reason)))
    /\ 4000 <= code <= 4016 /\ reason `prefix_of` ts_message status /\ utf8_valid reason = true
    /\ 2 + blen reason <= 125 /\ (reason = ts_message status \/ 120 <= blen reason).
Proof.
  destruct (truncate_utf8_spec (ts_message status) 123 Hmsg) as (t & Ht & Hp & Hv & Hl & Hmax).
  unfold close_for_status. rewrite Ht. cbn [mbind run_bind]. eexists _, t. split; [done|].
  split; [destruct (ts_code status); vm_compute; split; discriminate|].
  split; [done|]. split; [done|]. split; [lia|]. destruct Hmax; [by left|right; lia].
Qed.

(** ** An instance: one-byte tags *)

Module Tagged.
#[global] Instance codec (R : Reflect) : FrameCodec R := {|
  encode_frame f := match f with
    | Some (FSubscribe s) => x01 :: initial_payload s
    | Some (FMessage b) => x02 :: b
    | Some FHalfClose => [x03]
    | Some (FTrailer t) => x04 :: status_message t
    | Some (FReset r) => x05 :: reset_message r
    | Some (FHeader _) => [x06]
    | None => []
    end;
  decode_frame b := match b with
    | x01 :: m => Some (Some (FSubscribe (mkSubscribe [] [] 0 m)))
    | x02 :: m => Some (Some (FMessage m))
    | [x03] => Some (Some FHalfClose)
    | x05 :: m => Some (Some (FReset (mkReset 1 m)))
    | [] => Some None
    | _ => None
    end;
  encode_json_frame f := match jf_status f with Some s => js_message s | None => [] end;
  decode_json_frame s := match s with
    | [] => Some jf_default
    | _ => Some (mkJsonFrame None None None None (Some (mkJsonStatus 1 s)))
    end
|}.
End Tagged.

(** ** Witnesses *)

Lemma close_for_status_legal_witness :
  exists code reason, close_for_status (mkTonicStatus Code.Unimplemented (replicate 122 "a"%byte ++ [xc3; xa9]))
    = Done (TClose (Some (code, reason))) /\ 2 + blen reason <= 125.
Proof.
  destruct (close_for_status_legal (mkTonicStatus Code.Unimplemented (replicate 122 "a"%byte ++ [xc3; xa9]))
    ltac:(vm_compute; reflexivity)) as (code & reason & H1 & _ & _ & _ & H2 & _).
  by exists code, reason.
Defined.
