(* ===== verification/WsStream.v ===== *)
(** * One WebSocket stream ([rust/crates/grpc-webnext/src/ws.rs], [run_stream])

    The task a [Subscribe] spawns: it builds the gRPC request from the frames fed to it,
    dispatches it, and turns the response into frames, a terminal status and the close.

    A backend's answer is a value: an error, or response headers and the events of the
    response body in order. The deadline is the number of frames the task had sent when it
    expired: the pump is dropped at an await point, which lies between two sends. *)
From S2P Require Import Prelude RustStd Http Metadata Framing GrpcFraming Reflection HttpRule HttpBuild Transcode JsonFrame ClientStatus WsCodec.

Section stream.
Context {H : Http} {T : Tonic H} {R : Reflect} {FC : FrameCodec R}.
Context (fmt_debug : str -> str).

(** What [body.frame()] yields; the end of the list is [None]. *)
Inductive body_event : Type :=
| BData (b : bytes)
| BTrailers (t : HeaderMap)
| BErr.

(** ** The request *)

(** One request message: an annotation route builds it from URL and body, a JSON stream
    transcodes it, a binary stream passes it on; a failure is [unwrap_or_default]. *)
Definition request_message (json : bool) (annotation : option (WsBinding MessageDescriptor))
    (tc : option Transcoder) (path : str) (payload : bytes) : run bytes :=
  proto ← match annotation with
          | Some ann =>
              r ← ws_build_message fmt_debug ann payload;
              Done (match r with Ok b => b | Err _ => [] end)
          | None =>
              if json then
                match tc with
                | Some tc => Done (match request_json_to_proto tc path payload with Ok b => b | Err _ => [] end)
                | None => Panic
                end
              else Done payload
          end;
  Done (frame proto).

Definition static_value (s : str) : run HeaderValue :=
  match value_from_str s with Some v => Done v | None => Panic end.

(** The request's headers: the call's metadata, then the ones gRPC needs. *)
Definition request_headers (headers : HeaderMap) (timeout : option duration) : run HeaderMap :=
  let builder := foldl (fun m p => hm_append m p.1 p.2) hm_new (hm_iter headers) in
  ct ← static_value $"application/grpc";
  te ← static_value $"trailers";
  let builder := hm_append (hm_append builder $"content-type" ct) $"te" te in
  match timeout with
  | Some d =>
      d' ← duration_add d DEADLINE_GRACE;
      v ← static_value (format_grpc_timeout d');
      Done (hm_append builder $"grpc-timeout" v)
  | None => Done builder
  end.

(** ** The response *)

Definition reset_frame (code : Code.t) (message : str) : Frame := Some (FReset (mkReset (code_u32 code) message)).

(** The messages of one data frame: [None] in the second place when encoding one failed, in
    which case the pump has reset the stream and returned. *)
Fixpoint message_frames (json : bool) (annotation : option (WsBinding MessageDescriptor)) (tc : option Transcoder)
    (path : str) (ms : list bytes) : run (list Frame * bool) :=
  match ms with
  | [] => Done ([], true)
  | msg :: ms' =>
      payload ←
        (if json then
           let response_body := match annotation with Some a => ws_response_body a | None => [] end in
           match tc with
           | Some tc => Done (response_proto_to_json_body tc path msg response_body)
           | None => Panic
           end
         else Done (Ok msg));
      match payload with
      | Ok p =>
          '(fs, go_on) ← message_frames json annotation tc path ms';
          Done (Some (FMessage p) :: fs, go_on)
      | Err e => Done ([reset_frame Code.Internal ($"json encode: " ++ display e)], false)
      end
  end.

(** The loop over the response body: the trailers at its end, or [None] after an early return. *)
Fixpoint pump_body (json : bool) (annotation : option (WsBinding MessageDescriptor)) (tc : option Transcoder)
    (path : str) (deframer : Deframer.t) (trailers : HeaderMap) (evs : list body_event)
  : run (list Frame * option HeaderMap) :=
  match evs with
  | [] => Done ([], Some trailers)
  | BErr :: _ => Done ([], Some trailers)
  | BTrailers t :: evs' => pump_body json annotation tc path deframer t evs'
  | BData data :: evs' =>
      let '(ms, deframer') := Deframer.drain (Deframer.push deframer data) in
      '(fs, go_on) ← message_frames json annotation tc path ms;
      if (go_on : bool) then
        '(fs', t) ← pump_body json annotation tc path deframer' trailers evs';
        Done (fs ++ fs', t)
      else Done (fs, None)
  end.

(** The frames the pump sends. *)
Definition pump (json : bool) (annotation : option (WsBinding MessageDescriptor)) (tc : option Transcoder)
    (path : str) (resp : result str (HeaderMap * list body_event)) : run (list Frame) :=
  match resp with
  | Err e => Done [reset_frame Code.Unavailable ($"upstream: " ++ e)]
  | Ok (headers, evs) =>
      let header := Some (FHeader (metadata_to_vec (md_from_headers headers))) in
      '(fs, t) ← pump_body json annotation tc path Deframer.new hm_new evs;
      match t with
      | None => Done (header :: fs)
      | Some trailers =>
          '(code, message) ← read_status trailers headers;
          let trailer := mkTrailer code message (metadata_to_vec (md_from_headers trailers)) in
          Done (header :: fs ++ [Some (FTrailer trailer)])
      end
  end.

Definition deadline_trailer : Frame :=
  Some (FTrailer (mkTrailer (code_u32 Code.DeadlineExceeded) $"deadline exceeded" [])).

(** The frames of the task: [expired] is the number of frames sent when the deadline fired. *)
Definition stream_frames (json : bool) (schema : result TonicStatus Transcoder)
    (annotation : option (WsBinding MessageDescriptor)) (path : str)
    (resp : result str (HeaderMap * list body_event)) (expired : option nat) : run (list Frame) :=
  match (if json then match schema with Ok tc => Ok (Some tc) | Err s => Err s end else Ok None) with
  | Err status => Done [reset_frame (ts_code status) (ts_message status)]
  | Ok tc =>
      fs ← pump json annotation tc path resp;
      Done (match expired with
            | Some k => if decide (k < length fs)%nat then take k fs ++ [deadline_trailer] else fs
            | None => fs
            end)
  end.

(** [run_stream]: what it puts on the outbound queue. *)
Definition run_stream (json : bool) (schema : result TonicStatus Transcoder)
    (annotation : option (WsBinding MessageDescriptor)) (path : str)
    (resp : result str (HeaderMap * list body_event)) (expired : option nat) : run (list TungMessage) :=
  fs ← stream_frames json schema annotation path resp expired;
  Done (map (fun f => to_tung f json) fs ++ [close_normal]).
End stream.
Arguments body_event : clear implicits.
Arguments body_event H : assert.

(** ** The shape of a stream's output *)

Definition is_terminal (f : Frame) : bool :=
  match f with Some (FTrailer _) | Some (FReset _) => true | _ => false end.
Definition is_message (f : Frame) : bool := match f with Some (FMessage _) => true | _ => false end.
Definition is_header (f : Frame) : bool := match f with Some (FHeader _) => true | _ => false end.

(** Header first if at all, then messages, then exactly one terminal frame. *)
Definition stream_shape (fs : list Frame) : Prop :=
  exists pre term, fs = pre ++ [term] /\ is_terminal term = true
    /\ (pre = [] \/ exists h ms, pre = h :: ms /\ is_header h = true /\ Forall (fun m => is_message m = true) ms).

(** ** Lemmas *)

Section facts.
Context {H : Http} {HL : HttpLaws H} {T : Tonic H} {R : Reflect} {FC : FrameCodec R}.

Lemma message_frames_shape json ann tc path ms fs b :
  message_frames json ann tc path ms = Done (fs, b) ->
  if b then Forall (fun m => is_message m = true) fs /\ length fs = length ms
  else exists pre r, fs = pre ++ [r] /\ is_terminal r = true /\ Forall (fun m => is_message m = true) pre.
Proof.
  revert fs b. induction ms as [|m ms IH]; intros fs b; cbn [message_frames]; [intros [= <- <-]; by split|].
  destruct (if json then _ else _) as [[p|e]|]; [|intros [= <- <-]; by exists [], (reset_frame Code.Internal ($"json encode: " ++ display e))|done].
  cbn [mbind run_bind]. destruct (message_frames json ann tc path ms) as [[fs' b']|]; [|done].
  cbn [mbind run_bind]. intros [= <- <-]. specialize (IH fs' b' eq_refl). destruct b'.
  - destruct IH as [Hall Hlen]. split; [by constructor|]. simpl. by rewrite Hlen.
  - destruct IH as (pre & r & -> & Hr & Hall). exists (Some (FMessage p) :: pre), r.
    split; [done|]. split; [done|]. by constructor.
Qed.

Lemma pump_body_shape json ann tc path df tr evs fs t :
  pump_body json ann tc path df tr evs = Done (fs, t) ->
  match t with
  | Some _ => Forall (fun m => is_message m = true) fs
  | None => exists pre r, fs = pre ++ [r] /\ is_terminal r = true /\ Forall (fun m => is_message m = true) pre
  end.
Proof.
  revert df tr fs t. induction evs as [|[d|t'|] evs IH]; intros df tr fs t; cbn [pump_body].
  - intros [= <- <-]. constructor.
  - destruct (Deframer.drain _) as [ms df'].
    destruct (message_frames json ann tc path ms) as [[fs1 b]|] eqn:Em; [|done]. cbn [mbind run_bind].
    apply message_frames_shape in Em. destruct b.
    + destruct (pump_body json ann tc path df' tr evs) as [[fs2 t2]|] eqn:Ep; [|done]. cbn [mbind run_bind].
      intros [= <- <-]. specialize (IH _ _ _ _ Ep). destruct t2 as [tr'|].
      * apply Forall_app. by destruct Em.
      * destruct IH as (pre & r & -> & Hr & Hall). exists (fs1 ++ pre), r. rewrite app_assoc.
        split; [done|]. split; [done|]. apply Forall_app. by destruct Em.
    + intros [= <- <-]. done.
  - apply IH.
  - intros [= <- <-]. constructor.
Qed.

Lemma pump_shape json ann tc path resp fs : pump json ann tc path resp = Done fs -> stream_shape fs.
Proof.
  unfold pump. destruct resp as [[headers evs]|e].
  - destruct (pump_body _ _ _ _ _ _ _) as [[fs' t]|] eqn:E; [|done]. cbn [mbind run_bind].
    apply pump_body_shape in E. destruct t as [tr|].
    + destruct (read_status tr headers) as [[code msg]|]; [|done]. cbn [mbind run_bind]. intros [= <-].
      eexists (_ :: fs'), _. split; [done|]. split; [done|]. right. by eexists _, fs'.
    + destruct E as (pre & r & -> & Hr & Hall). intros [= <-].
      eexists (_ :: pre), r. split; [done|]. split; [done|]. right. by eexists _, pre.
  - intros [= <-]. exists [], (reset_frame Code.Unavailable ($"upstream: " ++ e)). auto.
Qed.

(** A shape cut before its end and closed by the deadline's trailer is a shape. *)
Lemma stream_shape_cut fs k : stream_shape fs -> (k < length fs)%nat -> stream_shape (take k fs ++ [deadline_trailer]).
Proof.
  intros (pre & term & -> & _ & Hpre) Hk. rewrite length_app in Hk. simpl in Hk.
  rewrite take_app_le by lia. exists (take k pre), deadline_trailer. split; [done|]. split; [done|].
  destruct Hpre as [->|(h & ms & -> & Hh & Hms)]; [left; apply take_nil|].
  destruct k as [|k]; [by left|]. right. exists h, (take k ms). split; [done|]. split; [done|]. by apply Forall_take.
Qed.

Lemma stream_frames_shape json schema ann path resp expired fs :
  stream_frames json schema ann path resp expired = Done fs -> stream_shape fs.
Proof.
  unfold stream_frames. destruct (if json then _ else _) as [tc|status].
  - destruct (pump json ann tc path resp) as [fs'|] eqn:E; [|done]. cbn [mbind run_bind]. intros [= <-].
    apply pump_shape in E. destruct expired as [k|]; [|done]. case_decide; [by apply stream_shape_cut|done].
  - intros [= <-]. exists [], (reset_frame (ts_code status) (ts_message status)). auto.
Qed.

Lemma read_status_total tr headers : exists code msg, read_status tr headers = Done (code, msg).
Proof.
  unfold read_status.
  match goal with
  | |- context [match ?v with Some s => Metadata.percent_decode s | None => _ end] =>
      destruct v as [s|] eqn:E; [|by eexists _, _]
  end.
  destruct (Metadata.percent_decode_ascii s) as [out Ho].
  { apply bind_Some in E as (x & _ & Hx). by eapply to_str_ascii. }
  rewrite Ho. by eexists _, _.
Qed.

Lemma message_frames_total json ann tc path ms :
  (json = true -> is_Some tc) -> exists r, message_frames json ann tc path ms = Done r.
Proof.
  intros Htc. induction ms as [|m ms [[fs b] IH]]; cbn [message_frames]; [by eexists|].
  destruct json; [destruct Htc as [x ->]; [done|]|]; cbn [mbind run_bind]; [|rewrite IH; by eexists].
  destruct (response_proto_to_json_body _ _ _ _); [rewrite IH|]; by eexists.
Qed.

Lemma pump_body_total json ann tc path df tr evs :
  (json = true -> is_Some tc) -> exists r, pump_body json ann tc path df tr evs = Done r.
Proof.
  intros Htc. revert df tr. induction evs as [|[d|t|] evs IH]; intros df tr; cbn [pump_body]; [by eexists| |by apply IH|by eexists].
  destruct (Deframer.drain _) as [ms df']. destruct (message_frames_total json ann tc path ms Htc) as [[fs b] ->].
  cbn [mbind run_bind]. destruct b; [|by eexists]. destruct (IH df' tr) as [[fs' t] ->]. by eexists.
Qed.

Lemma stream_frames_total json schema ann path resp expired :
  exists fs, stream_frames json schema ann path resp expired = Done fs.
Proof.
  unfold stream_frames.
  assert (forall tc, (json = true -> is_Some tc) -> exists fs, pump json ann tc path resp = Done fs) as Hp.
  { intros tc Htc. unfold pump. destruct resp as [[headers evs]|e]; [|by eexists].
    destruct (pump_body_total json ann tc path Deframer.new hm_new evs Htc) as [[fs t] ->]. cbn [mbind run_bind].
    destruct t as [tr|]; [|by eexists]. destruct (read_status_total tr headers) as (code & msg & ->). by eexists. }
  destruct json; [destruct schema as [tc|status]|]; [|by eexists|].
  - destruct (Hp (Some tc)) as [fs ->]; [done|]. by eexists.
  - destruct (Hp None) as [fs ->]; [done|]. by eexists.
Qed.

(** A proto body: the messages are the de-framed ones, and the last trailers count. *)
Lemma pump_body_proto ann tc path df tr datas tr' :
  pump_body false ann tc path df tr (map BData datas ++ [BTrailers tr'])
  = Done (map (fun m => Some (FMessage m)) (Deframer.feed df datas).1, Some tr').
Proof.
  revert df. induction datas as [|d datas IH]; intros df; [done|]. cbn [map app pump_body Deframer.feed].
  destruct (Deframer.drain _) as [ms df'].
  assert (message_frames false ann tc path ms = Done (map (fun m => Some (FMessage m)) ms, true)) as ->.
  { induction ms as [|m ms IHm]; [done|]. cbn [message_frames mbind run_bind]. by rewrite IHm. }
  cbn [mbind run_bind]. rewrite IH. cbn [mbind run_bind]. destruct (Deframer.feed df' datas) as [ms' df''].
  simpl. by rewrite map_app.
Qed.
End facts.

(** ** Properties *)

(** C12: A stream always ends properly: whatever the backend answers, and whenever the deadline
    fires, the task sends at most one header, then messages, then exactly one terminal frame
    (a trailer or a reset), then a normal close, and it never panics on the response. *)
Theorem run_stream_terminates_once {H : Http} {HL : HttpLaws H} {T : Tonic H} {R : Reflect} {FC : FrameCodec R}
  (json : bool) (schema : result TonicStatus Transcoder) (ann : option (WsBinding MessageDescriptor)) (path : str)
  (resp : result str (HeaderMap * list (body_event H))) (expired : option nat) :
  exists fs, stream_shape fs
    /\ run_stream json schema ann path resp expired = Done (map (fun f => to_tung f json) fs ++ [close_normal]).
Proof.
  destruct (stream_frames_total json schema ann path resp expired) as [fs Hf]. exists fs.
  split; [by eapply stream_frames_shape|]. unfold run_stream. by rewrite Hf.
Qed.

(** C13: The binary stream is transparent: when a backend's body is the gRPC framing of some
    messages, split by the transport in any way, and ends in trailers, the client gets the
    headers, exactly those messages in order, and the status and metadata of the trailers. *)
Theorem run_stream_transparent {H : Http} {HL : HttpLaws H} {T : Tonic H} {R : Reflect} {FC : FrameCodec R}
  (schema : result TonicStatus Transcoder) (ann : option (WsBinding MessageDescriptor)) (path : str)
  (headers tr : HeaderMap) (ms datas : list bytes)
  (Hlen : Forall (fun m => blen m < two32) ms) (Hbody : concat datas = concat (map frame ms)) :
  exists code message, read_status tr headers = Done (code, message)
    /\ run_stream false schema ann path (Ok (headers, map BData datas ++ [BTrailers tr])) None
       = Done (map (fun f => TBinary (encode_frame f))
           (Some (FHeader (metadata_to_vec (md_from_headers headers)))
            :: map (fun m => Some (FMessage m)) ms
            ++ [Some (FTrailer (mkTrailer code message (metadata_to_vec (md_from_headers tr))))])
          ++ [close_normal]).
Proof.
  destruct (read_status_total tr headers) as (code & message & Hs). exists code, message. split; [done|].
  unfold run_stream, stream_frames, pump. cbn [mbind run_bind]. rewrite pump_body_proto. cbn [mbind run_bind].
  rewrite Hs. cbn [mbind run_bind].
  assert ((Deframer.feed Deframer.new datas).1 = ms) as ->; [|done].
  rewrite DeframerFacts.feed_concat_aux by done. unfold Deframer.push. cbn [Deframer.buf Deframer.new app].
  rewrite Hbody, <- (app_nil_r (concat _)), DeframerFacts.drain_frames, DeframerFacts.drain_nil by done.
  simpl. by rewrite app_nil_r.
Qed.

(** ** Witnesses *)

Lemma run_stream_terminates_once_witness :
  exists fs, stream_shape fs
    /\ run_stream (H := AssocHttp.http) (T := AssocHttp.tonic) (R := Flat.reflect) false
         (Err (mkTonicStatus Code.Unimplemented [])) None $"/p.S/M"
         (Ok ([], [BData [x00; x00]; BErr])) (Some 1%nat)
       = Done (map (fun f => to_tung (R := Flat.reflect) f false) fs ++ [close_normal]).
Proof.
  exact (run_stream_terminates_once (H := AssocHttp.http) (T := AssocHttp.tonic) (R := Flat.reflect) false
    (Err (mkTonicStatus Code.Unimplemented [])) None $"/p.S/M" (Ok ([], [BData [x00; x00]; BErr])) (Some 1%nat)).
Defined.

Lemma run_stream_transparent_witness :
  run_stream (H := AssocHttp.http) (T := AssocHttp.tonic) (R := Flat.reflect) false
    (Err (mkTonicStatus Code.Unimplemented [])) None $"/p.S/M"
    (Ok ([], map BData [[x00; x00; x00]; [x00; x01; x41]] ++ [BTrailers (H := AssocHttp.http) [($"grpc-status", $"0")]])) None
  = Done [TBinary [x06]; TBinary [x02; x41]; TBinary [x04]; close_normal].
Proof.
  destruct (run_stream_transparent (H := AssocHttp.http) (T := AssocHttp.tonic) (R := Flat.reflect)
    (Err (mkTonicStatus Code.Unimplemented [])) None $"/p.S/M" [] [($"grpc-status", $"0")] [[x41]]
    [[x00; x00; x00]; [x00; x01; x41]] ltac:(repeat constructor) eq_refl) as (code & msg & Hs & Hr).
  vm_compute in Hs. injection Hs as <- <-. etransitivity; [exact Hr|reflexivity].
Defined.
