(* ===== verification/WsServe.v ===== *)
(** * A WebSocket connection ([rust/crates/grpc-webnext/src/ws.rs], [serve] and [handle_frame])

    The connection as a state machine. Three tasks share it: the read loop ([serve]'s
    [select!]), the writer, and the stream task ([WsStream.run_stream], whose remaining output
    is what it has left to do); the backend reads the request channel. An event is one step of
    one of them between two awaits, so a sequence of events is one interleaving. The channels
    have their capacities: a send into a full one does not happen, and the read loop, which
    sends inside an arm of its [select!], does nothing else until it does. A task that is
    aborted may still be in its last poll, and is gone at a later event. *)
From S2P Require Import Prelude RustStd Http Metadata Framing Reflection HttpRule HttpBuild JsonFrame ClientStatus WsCodec WsStream.

(** [mpsc::channel::<TungMessage>(64)] and [mpsc::channel::<Bytes>(16)] *)
Definition OUTBOUND_CAP : nat := 64.
Definition REQUEST_CAP : nat := 16.

(** What one step does besides changing the state. [Queued] is a message put on the outbound
    queue, by a stream task or by the read loop; [Fed] and [Taken] are the two ends of a
    request channel. *)
Inductive action : Type :=
| Wire (m : TungMessage)
| Pinged
| Queued (src : option nat) (m : TungMessage)
| Spawned (id : nat) (path : str) (timeout : option duration) (json : bool)
| Fed (id : nat) (payload : bytes)
| Taken (id : nat) (payload : bytes)
| Aborted (id : nat)
| Ended.

(** [StreamState]: whether [req_tx] is still there, and the task. *)
Record StreamState : Type := mkStream { req_open : bool; task : nat }.

(** A [send(..).await] of the read loop. *)
Inductive push : Type :=
| ToOutbound (m : TungMessage)
| ToRequest (id : nat) (payload : bytes).

(** Where the read loop is: at its [select!], inside an arm's sends (and whether it breaks
    after them), waiting for the writer, or done. *)
Inductive Loop : Type :=
| Select
| Sending (p : push) (ps : list push) (then_break : bool)
| Joining
| Finished.

(** The writer: at its [select!], inside [ws_sink.send(..)], or returned. *)
Inductive Writer : Type :=
| Idle
| Busy (m : TungMessage)
| Pinging
| Gone.

(** A stream task: what it has left to send, and whether it was aborted. *)
Record Task : Type := mkTask { tid : nat; todo : list TungMessage; doomed : bool }.

Record Conn : Type := mkConn {
  codec : option bool;
  opened : bool;
  stream : option StreamState;
  draining : bool;
  loop : Loop;
  close_armed : bool;
  outbound : list TungMessage;
  writer : Writer;
  closed_signal : bool;
  tasks : list Task;
  (** The request channels whose receiver is alive. *)
  requests : gmap nat (list bytes);
  next_id : nat
}.

(** The part of the runtime's configuration the path reads, and the handshake's parameters. *)
Record Params : Type := mkParams {
  max_message_bytes : N;
  keepalive : bool;
  method_url : str;
  url_codec : option bool;
  (** [Some has_body] on an annotation route. *)
  annotation_body : option bool
}.

Definition init (p : Params) : Conn :=
  mkConn (url_codec p) false None false Select false [] Idle false [] ∅ 0.

Definition set_codec c o (s : Conn) : Conn :=
  mkConn c o (stream s) (draining s) (loop s) (close_armed s) (outbound s) (writer s) (closed_signal s) (tasks s) (requests s) (next_id s).
Definition set_stream st (s : Conn) : Conn :=
  mkConn (codec s) (opened s) st (draining s) (loop s) (close_armed s) (outbound s) (writer s) (closed_signal s) (tasks s) (requests s) (next_id s).
Definition set_draining (s : Conn) : Conn :=
  mkConn (codec s) (opened s) (stream s) true (loop s) (close_armed s) (outbound s) (writer s) (closed_signal s) (tasks s) (requests s) (next_id s).
Definition set_loop l (s : Conn) : Conn :=
  mkConn (codec s) (opened s) (stream s) (draining s) l (close_armed s) (outbound s) (writer s) (closed_signal s) (tasks s) (requests s) (next_id s).
Definition set_armed (s : Conn) : Conn :=
  mkConn (codec s) (opened s) (stream s) (draining s) (loop s) true (outbound s) (writer s) false (tasks s) (requests s) (next_id s).
Definition set_writer q w sig (s : Conn) : Conn :=
  mkConn (codec s) (opened s) (stream s) (draining s) (loop s) (close_armed s) q w sig (tasks s) (requests s) (next_id s).
Definition set_tasks ts (s : Conn) : Conn :=
  mkConn (codec s) (opened s) (stream s) (draining s) (loop s) (close_armed s) (outbound s) (writer s) (closed_signal s) ts (requests s) (next_id s).
Definition set_requests rq (s : Conn) : Conn :=
  mkConn (codec s) (opened s) (stream s) (draining s) (loop s) (close_armed s) (outbound s) (writer s) (closed_signal s) (tasks s) rq (next_id s).

(** [outbound_tx.send(m)], when it completes: an error once the writer is gone (and then
    ignored), a message in the queue while there is room. *)
Definition push_outbound (src : option nat) (m : TungMessage) (s : Conn) : option (Conn * list action) :=
  match writer s with
  | Gone => Some (s, [])
  | w =>
      if decide (length (outbound s) < OUTBOUND_CAP)%nat then
        Some (set_writer (outbound s ++ [m]) w (closed_signal s) s, [Queued src m])
      else None
  end.

(** [tx.send(payload)]: the same for a request channel and its receiver. *)
Definition push_request (id : nat) (payload : bytes) (s : Conn) : option (Conn * list action) :=
  match requests s !! id with
  | None => Some (s, [])
  | Some q =>
      if decide (length q < REQUEST_CAP)%nat then
        Some (set_requests (<[id := q ++ [payload]]> (requests s)) s, [Fed id payload])
      else None
  end.

Definition run_push (p : push) (s : Conn) : option (Conn * list action) :=
  match p with
  | ToOutbound m => push_outbound None m s
  | ToRequest id payload => push_request id payload s
  end.

(** [task.abort()] *)
Definition abort (id : nat) (s : Conn) : Conn :=
  set_tasks (map (fun t => if decide (tid t = id) then mkTask (tid t) (todo t) true else t) (tasks s)) s.

(** The task [id] is gone: it returned, or its cancellation took effect. *)
Definition remove_task (id : nat) (s : Conn) : Conn := set_tasks (filter (fun t => tid t <> id) (tasks s)) s.

(** Leaving the loop: [if let Some(state) = stream { state.task.abort() }], and the wait for
    the writer. *)
Definition leave (s : Conn) : Conn * list action :=
  match stream s with
  | Some st => (set_loop Joining (set_stream None (abort (task st) s)), [Aborted (task st)])
  | None => (set_loop Joining s, [])
  end.

(** The loop after a completed send: the next one, or the end of the arm. *)
Definition resume (ps : list push) (then_break : bool) (s : Conn) : Conn * list action :=
  match ps with
  | p :: ps => (set_loop (Sending p ps then_break) s, [])
  | [] => if then_break then leave s else (set_loop Select s, [])
  end.

Section serve.
Context {R : Reflect} {FC : FrameCodec R}.
(** [sub.method.parse::<PathAndQuery>().is_ok()] *)
Context (parse_path : str -> bool).
(** What the [id]-th stream task will put on the outbound queue. *)
Context (script : nat -> list TungMessage).
Context (p : Params).

Definition send_reset (json : bool) (code : Code.t) (message : str) : push :=
  ToOutbound (to_tung (reset_frame code message) json).

Definition reject_stream (json : bool) (code : Code.t) (message : str) (s : Conn) : Conn :=
  set_loop (Sending (send_reset json code message) [ToOutbound close_normal] false) s.

(** Opening the stream: the task is spawned with its request channel already holding the
    inline message, and the empty message of a route without a body. *)
Definition open_stream (json : bool) (sub : Subscribe) (s : Conn) : Conn * list action :=
  let id := next_id s in
  let inline := if nonempty (initial_payload sub) then [initial_payload sub] else [] in
  let no_body := bool_decide (annotation_body p = Some false) in
  let from_url := if no_body then [[]] else [] in
  (mkConn (codec s) (opened s) (Some (mkStream (negb no_body) id)) (draining s) (loop s) (close_armed s)
     (outbound s) (writer s) (closed_signal s) (tasks s ++ [mkTask id (script id) false])
     (<[id := inline ++ from_url]> (requests s)) (S id),
   map (Fed id) (inline ++ from_url) ++ [Spawned id (sub_method sub) (grpc_timeout_from_millis (timeout_millis sub)) json]).

Definition handle_frame (frame : Frame) (json : bool) (s : Conn) : Conn * list action :=
  match frame with
  | Some (FSubscribe sub) =>
      match stream s with
      | Some _ => (set_loop (Sending (send_reset json Code.InvalidArgument $"stream already open") [] false) s, [])
      | None =>
          if max_message_bytes p <? blen (initial_payload sub) then
            (reject_stream json Code.ResourceExhausted $"request message exceeds size limit" s, [])
          else if negb (parse_path (sub_method sub)) then
            (reject_stream json Code.InvalidArgument $"invalid method" s, [])
          else open_stream json sub s
      end
  | Some (FMessage payload) =>
      if max_message_bytes p <? blen payload then
        let '(s, acts) := match stream s with
                          | Some st => (set_stream None (abort (task st) s), [Aborted (task st)])
                          | None => (s, [])
                          end in
        (reject_stream json Code.ResourceExhausted $"request message exceeds size limit" s, acts)
      else
        match stream s with
        | Some st => (if req_open st then set_loop (Sending (ToRequest (task st) payload) [] false) s else s, [])
        | None => (s, [])
        end
  | Some FHalfClose =>
      match stream s with
      | Some st => (set_stream (Some (mkStream false (task st))) s, [])
      | None => (s, [])
      end
  | Some (FReset _) =>
      match stream s with
      | Some st => (set_stream None (abort (task st) s), [Aborted (task st)])
      | None => (s, [])
      end
  | _ => (s, [])
  end.

(** One step of: the read loop's [select!] (the first five, and [EvLoop] for a send or the
    join inside it), a stream task, the backend reading or dropping a request channel, and the
    writer (taking a message, a keepalive tick, a completed write). *)
Inductive event : Type :=
| EvIncoming (m : option TungMessage)
| EvKeepaliveExpired
| EvCloseExpired
| EvClosedSignal
| EvDrain
| EvLoop
| EvTask (id : nat)
| EvCancelled (id : nat)
| EvTake (id : nat)
| EvReqDropped (id : nat)
| EvRecv
| EvTick
| EvWrite (ok : bool).

Definition selecting (s : Conn) : bool := match loop s with Select => true | _ => false end.

(** Every [outbound_tx] is dropped: the loop is over and so are the tasks. *)
Definition senders_gone (s : Conn) : bool :=
  match loop s, tasks s with Joining, [] | Finished, [] => true | _, _ => false end.

(** One step. An event whose guard does not hold is not a step of the code: it leaves the
    state alone. *)
Definition step (s : Conn) (e : event) : Conn * list action :=
  match e with
  | EvIncoming m =>
      if negb (selecting s) then (s, []) else
      match m with
      | None | Some (TClose _) => leave s
      | Some m =>
          let '(codec', opened', f) := decode_locked (method_url p) (codec s) (opened s) m in
          let s := set_codec codec' opened' s in
          match f with
          | Some (frame, json) => handle_frame frame json s
          | None => (s, [])
          end
      end
  | EvKeepaliveExpired => if selecting s && keepalive p then leave s else (s, [])
  | EvCloseExpired => if selecting s && close_armed s then leave s else (s, [])
  | EvClosedSignal => if selecting s && closed_signal s && negb (close_armed s) then (set_armed s, []) else (s, [])
  | EvDrain =>
      if selecting s && negb (draining s) then
        let s := set_draining s in
        match stream s with
        | None => (set_loop (Sending (ToOutbound close_going_away) [] true) s, [])
        | Some _ => (s, [])
        end
      else (s, [])
  | EvLoop =>
      match loop s with
      | Sending q ps then_break =>
          match run_push q s with
          | Some (s, acts) => let '(s, acts') := resume ps then_break s in (s, acts ++ acts')
          | None => (s, [])
          end
      | Joining => match writer s with Gone => (set_loop Finished s, [Ended]) | _ => (s, []) end
      | _ => (s, [])
      end
  | EvTask id =>
      match find (fun t => bool_decide (tid t = id)) (tasks s) with
      | Some (mkTask _ (m :: rest) _) =>
          let s' := set_tasks (map (fun t => if decide (tid t = id) then mkTask id rest (doomed t) else t) (tasks s)) s in
          default (s, []) (push_outbound (Some id) m s')
      | Some (mkTask _ [] _) => (remove_task id s, [])
      | None => (s, [])
      end
  | EvCancelled id =>
      match find (fun t => bool_decide (tid t = id)) (tasks s) with
      | Some (mkTask _ _ true) => (remove_task id s, [])
      | _ => (s, [])
      end
  | EvTake id =>
      match requests s !! id with
      | Some (m :: q) => (set_requests (<[id := q]> (requests s)) s, [Taken id m])
      | _ => (s, [])
      end
  | EvReqDropped id => (set_requests (delete id (requests s)) s, [])
  | EvRecv =>
      match writer s, outbound s with
      | Idle, m :: q => (set_writer q (Busy m) (closed_signal s) s, [])
      | Idle, [] => if senders_gone s then (set_writer [] Gone (closed_signal s) s, []) else (s, [])
      | _, _ => (s, [])
      end
  | EvTick =>
      match writer s with
      | Idle => if keepalive p then (set_writer (outbound s) Pinging (closed_signal s) s, []) else (s, [])
      | _ => (s, [])
      end
  | EvWrite ok =>
      match writer s with
      | Busy m =>
          if ok then
            match m with
            | TClose _ => (set_writer [] Gone true s, [Wire m])
            | _ => (set_writer (outbound s) Idle (closed_signal s) s, [Wire m])
            end
          else (set_writer [] Gone (closed_signal s) s, [])
      | Pinging =>
          if ok then (set_writer (outbound s) Idle (closed_signal s) s, [Pinged])
          else (set_writer [] Gone (closed_signal s) s, [])
      | _ => (s, [])
      end
  end.

Definition run_conn (es : list event) : Conn * list action := run_steps step (init p) es.
End serve.
Arguments step {R FC} parse_path script p s e.
Arguments run_conn {R FC} parse_path script p es.

(** A rejected handshake: the status goes out as a close frame, and the socket ends after the
    peer's frames have been read out. *)
Definition serve_rejected (status : TonicStatus) : run (list action) :=
  c ← close_for_status status; Done [Wire c; Ended].

(** ** The steps as a relation

    One rule per way a step can go; the invariants are by cases on it. *)

Definition is_reply (q : push) : Prop := match q with ToOutbound _ => True | ToRequest _ _ => False end.

(** [todo] of the task [id] is now [rest]. *)
Definition set_todo (id : nat) (rest : list TungMessage) (s : Conn) : Conn :=
  set_tasks (map (fun t => if decide (tid t = id) then mkTask id rest (doomed t) else t) (tasks s)) s.

Section relation.
Context {R : Reflect} {FC : FrameCodec R} (parse_path : str -> bool) (script : nat -> list TungMessage) (p : Params).
Abbreviation step := (WsServe.step parse_path script p).
Abbreviation handle_frame := (WsServe.handle_frame parse_path script p).

Inductive frame_trans (s : Conn) (f : Frame) (json : bool) : list action -> Conn -> Prop :=
| F_ignore : frame_trans s f json [] s
| F_reply q ps : is_reply q -> Forall is_reply ps -> frame_trans s f json [] (set_loop (Sending q ps false) s)
| F_abort_reply st q ps : stream s = Some st -> is_reply q -> Forall is_reply ps ->
    frame_trans s f json [Aborted (task st)] (set_loop (Sending q ps false) (set_stream None (abort (task st) s)))
| F_open sub : f = Some (FSubscribe sub) -> stream s = None -> blen (initial_payload sub) <= max_message_bytes p ->
    frame_trans s f json (open_stream script p json sub s).2 (open_stream script p json sub s).1
| F_feed st payload : stream s = Some st -> blen payload <= max_message_bytes p ->
    frame_trans s f json [] (set_loop (Sending (ToRequest (task st) payload) [] false) s)
| F_half st : stream s = Some st -> frame_trans s f json [] (set_stream (Some (mkStream false (task st))) s)
| F_reset st : stream s = Some st -> frame_trans s f json [Aborted (task st)] (set_stream None (abort (task st) s)).

Inductive trans (s : Conn) : list action -> Conn -> Prop :=
| T_skip : trans s [] s
| T_decode m c o : loop s = Select -> decode_locked (method_url p) (codec s) (opened s) m = (c, o, None) ->
    trans s [] (set_codec c o s)
| T_frame m c o f json acts s' : loop s = Select ->
    decode_locked (method_url p) (codec s) (opened s) m = (c, o, Some (f, json)) ->
    frame_trans (set_codec c o s) f json acts s' -> trans s acts s'
| T_leave : loop s = Select -> trans s (leave s).2 (leave s).1
| T_arm : loop s = Select -> closed_signal s = true -> trans s [] (set_armed s)
| T_drain_live st : loop s = Select -> stream s = Some st -> trans s [] (set_draining s)
| T_drain : loop s = Select -> stream s = None ->
    trans s [] (set_loop (Sending (ToOutbound close_going_away) [] true) (set_draining s))
| T_push q ps brk s1 acts : loop s = Sending q ps brk -> run_push q s = Some (s1, acts) ->
    trans s (acts ++ (resume ps brk s1).2) (resume ps brk s1).1
| T_join : loop s = Joining -> writer s = Gone -> trans s [Ended] (set_loop Finished s)
| T_task t m rest s1 acts : t ∈ tasks s -> todo t = m :: rest ->
    push_outbound (Some (tid t)) m (set_todo (tid t) rest s) = Some (s1, acts) -> trans s acts s1
| T_remove id : trans s [] (remove_task id s)
| T_take id m q : requests s !! id = Some (m :: q) -> trans s [Taken id m] (set_requests (<[id := q]> (requests s)) s)
| T_dropped id : trans s [] (set_requests (delete id (requests s)) s)
| T_recv m q : writer s = Idle -> outbound s = m :: q -> trans s [] (set_writer q (Busy m) (closed_signal s) s)
| T_recv_end : writer s = Idle -> outbound s = [] -> senders_gone s = true ->
    trans s [] (set_writer [] Gone (closed_signal s) s)
| T_tick : writer s = Idle -> trans s [] (set_writer (outbound s) Pinging (closed_signal s) s)
| T_wrote m : writer s = Busy m -> (forall f, m <> TClose f) ->
    trans s [Wire m] (set_writer (outbound s) Idle (closed_signal s) s)
| T_closed f : writer s = Busy (TClose f) -> trans s [Wire (TClose f)] (set_writer [] Gone true s)
| T_pinged : writer s = Pinging -> trans s [Pinged] (set_writer (outbound s) Idle (closed_signal s) s)
| T_broken : writer s <> Gone -> trans s [] (set_writer [] Gone (closed_signal s) s).

Lemma handle_frame_trans f json s : frame_trans s f json (handle_frame f json s).2 (handle_frame f json s).1.
Proof.
  unfold WsServe.handle_frame, reject_stream, send_reset.
  destruct f as [[sub|payload| | | |]|]; try constructor.
  - destruct (stream s) eqn:Es; [by constructor|].
    destruct (N.ltb_spec (max_message_bytes p) (blen (initial_payload sub))); [by repeat constructor|].
    destruct (negb _); [by repeat constructor|]. by apply F_open.
  - destruct (N.ltb_spec (max_message_bytes p) (blen payload)); destruct (stream s) as [st|] eqn:Es.
    + by apply F_abort_reply; repeat constructor.
    + by repeat constructor.
    + destruct (req_open st); [by constructor|constructor].
    + constructor.
  - destruct (stream s) as [st|] eqn:Es; by constructor.
  - destruct (stream s) as [st|] eqn:Es; by constructor.
Qed.

Lemma selecting_true s : selecting s = true <-> loop s = Select.
Proof. unfold selecting. by destruct (loop s). Qed.

Lemma find_task id s t : find (fun t => bool_decide (tid t = id)) (tasks s) = Some t -> t ∈ tasks s /\ tid t = id.
Proof. intros [Hin Ht%bool_decide_eq_true]%find_some. split; [by apply list_elem_of_In|done]. Qed.

Lemma step_trans s e : trans s (step s e).2 (step s e).1.
Proof.
  destruct e as [m| | | | | |id|id|id|id| | |ok]; cbn [WsServe.step].
  - destruct (selecting s) eqn:Hsel; [|constructor]. apply selecting_true in Hsel. cbn [negb].
    destruct m as [m|]; [|by constructor].
    assert (match decode_locked (method_url p) (codec s) (opened s) m with
            | (c, o, Some (f, j)) => trans s (handle_frame f j (set_codec c o s)).2 (handle_frame f j (set_codec c o s)).1
            | (c, o, None) => trans s [] (set_codec c o s)
            end) as Hd.
    { destruct (decode_locked _ _ _ _) as [[c o] [[f j]|]] eqn:E; [|by eapply T_decode].
      eapply T_frame; [done|exact E|apply handle_frame_trans]. }
    destruct m; try (by constructor); by destruct (decode_locked _ _ _ _) as [[c o] [[f j]|]].
  - destruct (selecting s) eqn:Hsel; [|constructor]. apply selecting_true in Hsel.
    destruct (keepalive p); by constructor.
  - destruct (selecting s) eqn:Hsel; [|constructor]. apply selecting_true in Hsel.
    destruct (close_armed s); by constructor.
  - destruct (selecting s) eqn:Hsel; [|constructor]. apply selecting_true in Hsel.
    destruct (closed_signal s) eqn:?; [|constructor]. destruct (close_armed s); by constructor.
  - destruct (selecting s) eqn:Hsel; [|constructor]. apply selecting_true in Hsel.
    destruct (draining s); [constructor|]. cbn [negb andb stream set_draining].
    destruct (stream s) as [st|] eqn:Es; [by eapply T_drain_live|by apply T_drain].
  - destruct (loop s) as [|q ps brk| |] eqn:El; try constructor.
    + destruct (run_push q s) as [[s1 acts]|] eqn:Ep; [|constructor].
      pose proof (T_push s q ps brk s1 acts El Ep). by destruct (resume ps brk s1).
    + destruct (writer s) eqn:Ew; by constructor.
  - destruct (find _ _) as [[i [|m rest] d]|] eqn:Ef; [constructor| |constructor].
    apply find_task in Ef as [Hin Hid]. cbn in Hid. subst i. cbn zeta.
    destruct (push_outbound (Some id) m _) as [[s1 acts]|] eqn:Ep; [|constructor].
    by apply (T_task s (mkTask id (m :: rest) d) m rest).
  - destruct (find _ _) as [[i td []]|]; constructor.
  - destruct (requests s !! id) as [[|m q]|] eqn:Er; [constructor|by constructor|constructor].
  - constructor.
  - destruct (writer s) eqn:Ew; try constructor. destruct (outbound s) as [|m q] eqn:Eo; [|by constructor].
    destruct (senders_gone s) eqn:?; by constructor.
  - destruct (writer s) eqn:Ew; try constructor. destruct (keepalive p); by constructor.
  - destruct (writer s) as [|m| |] eqn:Ew; try constructor.
    + destruct ok; [|apply T_broken; by rewrite Ew]. destruct m; by constructor.
    + destruct ok; [by constructor|apply T_broken; by rewrite Ew].
Qed.

(** A relation between a run's actions and the state that every transition keeps. *)
Lemma run_trans (I : list action -> Conn -> Prop) es s acc :
  (forall acc s acts s', I acc s -> trans s acts s' -> I (acc ++ acts) s') -> I acc s ->
  I (acc ++ (run_steps step s es).2) (run_steps step s es).1.
Proof. intros Ht. apply run_steps_trace. intros acc' s' e Hs. eapply Ht; [exact Hs|apply step_trans]. Qed.
End relation.

(** ** Invariants *)

Definition is_close (m : TungMessage) : bool := match m with TClose _ => true | _ => false end.
Definition wire_of (a : action) : option TungMessage :=
  match a with Wire m => Some m | Pinged => Some (TPing []) | _ => None end.
Definition wire (acts : list action) : list TungMessage := omap wire_of acts.

(** Messages none of which is a close, and at most one close after them. *)
Definition wire_shape (ms : list TungMessage) : Prop :=
  exists l, Forall (fun m => is_close m = false) l /\ (ms = l \/ exists f, ms = l ++ [TClose f]).

(** The tasks that were not aborted: at most one, the one the connection tracks. *)
Definition running (s : Conn) : list Task := filter (fun t => doomed t = false) (tasks s).
Definition one_task (s : Conn) : Prop :=
  (length (running s) <= 1)%nat
  /\ match stream s with
     | Some st => Forall (fun t => tid t = task st) (running s)
     | None => running s = []
     end.

Definition is_spawn (a : action) : bool := match a with Spawned _ _ _ _ => true | _ => false end.
Definition is_abort (a : action) : bool := match a with Aborted _ => true | _ => false end.
Definition spawns (acts : list action) : nat := length (filter is_spawn acts).
Definition aborts (acts : list action) : nat := length (filter is_abort acts).
(** Every stream opened is the live one or has been aborted. *)
Definition live (s : Conn) : nat := match stream s with Some _ => 1 | None => 0 end.

(** What the stream tasks are fed: messages within the limit. *)
Definition fed_ok (p : Params) (a : action) : Prop :=
  match a with Fed _ payload => blen payload <= max_message_bytes p | _ => True end.
Definition push_ok (p : Params) (q : push) : Prop :=
  match q with ToRequest _ payload => blen payload <= max_message_bytes p | ToOutbound _ => True end.
Definition pending (s : Conn) : list push := match loop s with Sending q ps _ => q :: ps | _ => [] end.

(** No queue is over its capacity. *)
Definition bounded (s : Conn) : Prop :=
  (length (outbound s) <= OUTBOUND_CAP)%nat /\ map_Forall (fun _ q => (length q <= REQUEST_CAP)%nat) (requests s).

(** A JSON connection opens its stream on the first frame or never. *)
Definition json_once (p : Params) (acc : list action) (s : Conn) : Prop :=
  url_codec p = Some true ->
  codec s = Some true /\ (spawns acc <= 1)%nat /\ (opened s = false -> spawns acc = 0%nat).

(** Case analysis of a transition: the operations unfolded, the impossible cases gone. *)
Ltac transition_cases :=
  unfold resume, leave, run_push, push_outbound, push_request, open_stream, set_todo in *;
  repeat (case_match; simplify_eq/=).

Lemma wire_app a b : wire (a ++ b) = wire a ++ wire b.
Proof. apply omap_app. Qed.
Lemma spawns_app a b : spawns (a ++ b) = (spawns a + spawns b)%nat.
Proof. unfold spawns. by rewrite filter_app, length_app. Qed.
Lemma aborts_app a b : aborts (a ++ b) = (aborts a + aborts b)%nat.
Proof. unfold aborts. by rewrite filter_app, length_app. Qed.
Lemma wire_fed id l : wire (map (Fed id) l) = [].
Proof. by induction l. Qed.
Lemma spawns_fed id l : spawns (map (Fed id) l) = 0%nat.
Proof. by induction l. Qed.
Lemma aborts_fed id l : aborts (map (Fed id) l) = 0%nat.
Proof. by induction l. Qed.

Section invariants.
Context {R : Reflect} {FC : FrameCodec R} (script : nat -> list TungMessage) (p : Params).
Abbreviation trans := (WsServe.trans script p).
Abbreviation frame_trans := (WsServe.frame_trans script p).

(** What a transition puts on the wire. *)
Lemma trans_wire s acts s' : trans s acts s' ->
  (wire acts = [] /\ (writer s = Gone -> writer s' = Gone))
  \/ exists m, wire acts = [m] /\ writer s <> Gone /\ (is_close m = true -> writer s' = Gone).
Proof.
  intros [| | ? ? ? ? ? ? ? ? ? Hf| | | | | | | | | | | | | |m Hw Hm| | | ]; try (left; transition_cases; (split; [done|cbn; congruence])).
  - left. destruct Hf; try done. split; [|done]. unfold open_stream. cbn [snd]. by rewrite wire_app, wire_fed.
  - right. exists m. split; [done|]. rewrite Hw. split; [done|]. destruct m; try done. by destruct (Hm f).
  - right. eexists. split; [done|]. by rewrite H.
  - right. eexists. split; [done|]. by rewrite H.
Qed.

Lemma wire_step acc s acts s' :
  wire_shape (wire acc) /\ (writer s = Gone \/ Forall (fun m => is_close m = false) (wire acc)) -> trans s acts s' ->
  wire_shape (wire (acc ++ acts)) /\ (writer s' = Gone \/ Forall (fun m => is_close m = false) (wire (acc ++ acts))).
Proof.
  intros [Hshape Hcl] Ht. rewrite wire_app.
  destruct (trans_wire s acts s' Ht) as [[-> Hg]|(m & -> & Hn & Hm)].
  { rewrite app_nil_r. split; [done|]. destruct Hcl; auto. }
  destruct Hcl as [|Hall]; [done|]. destruct (is_close m) eqn:Em.
  - split; [|auto]. exists (wire acc). split; [done|]. right. destruct m; try done. by eexists.
  - assert (Forall (fun m => is_close m = false) (wire acc ++ [m])) as Hall' by (apply Forall_app; auto).
    split; [|auto]. exists (wire acc ++ [m]). auto.
Qed.

Lemma running_abort s st : one_task s -> stream s = Some st -> running (abort (task st) s) = [].
Proof.
  unfold one_task, running, abort. intros [_ Hall] Hst. rewrite Hst in Hall. cbn [tasks set_tasks].
  induction (tasks s) as [|t ts IH]; [done|]. cbn [map]. rewrite filter_cons in Hall.
  destruct (decide (doomed t = false)) as [Hd|Hd].
  - apply Forall_cons in Hall as [Ht Hall]. rewrite decide_True by done. rewrite filter_cons_False by done. auto.
  - rewrite filter_cons_False; [auto|]. by case_decide.
Qed.

Lemma one_task_same s s' : running s' = running s -> stream s' = stream s -> one_task s -> one_task s'.
Proof. unfold one_task. by intros -> ->. Qed.

Lemma one_task_none s : running s = [] -> one_task s.
Proof. unfold one_task. intros ->. split; [simpl; lia|]. by destruct (stream s). Qed.

Lemma running_set_todo id rest s : running (set_todo id rest s) = map (fun t => if decide (tid t = id) then mkTask id rest (doomed t) else t) (running s).
Proof.
  unfold running, set_todo. cbn [tasks set_tasks]. induction (tasks s) as [|t ts IH]; [done|]. cbn [map].
  rewrite !filter_cons. case_decide; case_decide; case_decide; cbn in *; simplify_eq/=; rewrite ?IH; try done.
  all: cbn [map]; by rewrite ?decide_True, ?decide_False by done.
Qed.

Lemma one_task_set_todo id rest s : one_task s -> one_task (set_todo id rest s).
Proof.
  intros [H1 H2]. unfold one_task. rewrite running_set_todo, length_map. split; [done|].
  cbn [stream set_todo set_tasks]. destruct (stream s); [|by rewrite H2]. apply Forall_map.
  eapply Forall_impl; [exact H2|]. intros t Ht. cbn. by case_decide; simplify_eq/=.
Qed.

Lemma one_task_remove id s : one_task s -> one_task (remove_task id s).
Proof.
  unfold one_task, running, remove_task. cbn [tasks set_tasks stream].
  assert (filter (fun t => doomed t = false) (filter (fun t => tid t <> id) (tasks s))
    = filter (fun t => tid t <> id) (filter (fun t => doomed t = false) (tasks s))) as ->.
  { rewrite !list_filter_filter. apply list_filter_iff. naive_solver. }
  intros [H1 H2]. split.
  - etransitivity; [apply length_filter|done].
  - destruct (stream s); [|by rewrite H2]. rewrite Forall_forall in *. intros t [_ Ht]%list_elem_of_filter. auto.
Qed.

Lemma one_task_leave s : one_task s -> one_task (leave s).1.
Proof.
  intros Hs. apply one_task_none. unfold leave. destruct (stream s) as [st|] eqn:E.
  - apply (running_abort s st Hs E).
  - destruct Hs as [_ Hs]. by rewrite E in Hs.
Qed.

Lemma one_task_trans s acts s' : one_task s -> trans s acts s' -> one_task s'.
Proof.
  intros Hs [| |m c o f j acts' s'' _ _ Hf| | | | |q ps brk s1 acts1 _ Hp| |t m rest s1 acts1 _ _ Hp| | | | | | | | | |];
    try (by eapply one_task_same, Hs).
  - destruct Hf as [|q ps| st q ps Hst|sub _ Hst _| |st Hst|st Hst]; try (by eapply one_task_same, Hs).
    + apply one_task_none. by apply (running_abort s st).
    + cbn in Hst. destruct Hs as [_ Hr]. rewrite Hst in Hr. unfold one_task, running, open_stream in *. cbn.
      rewrite filter_app, Hr. cbn. rewrite decide_True by done. split; [done|]. by repeat constructor.
    + cbn in Hst. unfold one_task in *. rewrite Hst in Hs. by cbn.
    + apply one_task_none. by apply (running_abort s st).
  - by apply one_task_leave.
  - assert (one_task s1) as Hs1 by (transition_cases; by eapply one_task_same, Hs).
    unfold resume. destruct ps; [|done]. destruct brk; [by apply one_task_leave|done].
  - revert Hp. unfold push_outbound. pose proof (one_task_set_todo (tid t) rest s Hs) as Hs'.
    repeat case_match; intros; simplify_eq/=; done.
  - by apply one_task_remove.
Qed.

(** The streams opened, against the live one and the aborted ones. *)
Lemma live_trans s acts s' : trans s acts s' -> (live s' + aborts acts = live s + spawns acts)%nat.
Proof.
  unfold live. intros [| |m c o f j acts' s'' _ _ Hf| | | | | | | | | | | | | | | | |]; try done.
  - destruct Hf as [| | |sub _ Hst _| | |]; cbn [stream set_codec] in *; simplify_eq/=; try done;
      try (by destruct (stream s); simplify_eq/=).
    rewrite aborts_app, spawns_app, aborts_fed, spawns_fed. cbn. unfold live. by rewrite Hst.
  - unfold leave. destruct (stream s) as [st|] eqn:E; cbn; by rewrite ?E.
  - transition_cases; done.
  - transition_cases; done.
Qed.

Lemma fed_trans s acts s' : Forall (push_ok p) (pending s) -> trans s acts s' ->
  Forall (push_ok p) (pending s') /\ Forall (fed_ok p) acts.
Proof.
  assert (forall q, is_reply q -> push_ok p q) as Hr by by intros [].
  unfold pending. intros Hs [| |m c o f j acts' s'' Hl _ Hf| | | | |q ps brk s1 acts1 Hl Hp| | | | | | | | | | | |]; try (by repeat constructor).
  - destruct Hf as [| | |sub _ _ Hlen| | |]; cbn [loop set_codec set_loop open_stream fst snd set_stream abort set_tasks];
      rewrite ?Hl; (split; [by repeat constructor; eauto using Forall_impl|]); try (by repeat constructor).
    apply Forall_app. split; [|by repeat constructor]. apply Forall_map, Forall_app. cbn.
    destruct (nonempty _), (bool_decide _); split; repeat constructor; (done || apply N.le_0_l).
  - transition_cases; by repeat constructor.
  - rewrite Hl in Hs. apply Forall_cons in Hs as [Hq Hps]. transition_cases; repeat constructor; try done.
    all: by inversion Hps.
  - transition_cases; (split; [done|by repeat constructor]).
Qed.

Lemma bounded_trans s acts s' : bounded s -> trans s acts s' -> bounded s'.
Proof.
  intros [Ho Hr] [| |m c o f j acts' s'' _ _ Hf| | | | | | | | | | | | | | | | |]; try done.
  - destruct Hf; try done. unfold open_stream, bounded. cbn. split; [done|]. apply map_Forall_insert_2; [|done].
    unfold REQUEST_CAP. repeat case_match; cbn; lia.
  - transition_cases; done.
  - unfold bounded. transition_cases; (split; [|done || (apply map_Forall_insert_2; [|done])]); try done;
      rewrite length_app; cbn; lia.
  - unfold bounded. transition_cases; (split; [|done]); try done; rewrite length_app; cbn; lia.
  - split; [done|]. cbn. apply map_Forall_insert_2; [|done]. specialize (Hr _ _ H). cbn in Hr. lia.
  - split; [done|]. by apply map_Forall_delete.
  - split; [cbn|done]. rewrite H0 in Ho. cbn in Ho. lia.
  - split; [cbn; lia|done].
  - split; [cbn; lia|done].
  - split; [cbn; lia|done].
Qed.

Lemma json_trans acc s acts s' : json_once p acc s -> trans s acts s' -> json_once p (acc ++ acts) s'.
Proof.
  intros Hs Ht Hp. specialize (Hs Hp). destruct Hs as (Hcod & Hle & Hop).
  rewrite spawns_app.
  destruct Ht as [|m c o _ E|m c o f j acts' s'' _ E Hf| | | | | | | | | | | | | | | | |];
    try (cbn; rewrite ?Nat.add_0_r; by repeat split).
  - apply decode_locked_spec in E as (Ho & Hc & ->). specialize (Hc true Hcod). subst c. cbn. rewrite Nat.add_0_r. auto.
  - apply decode_locked_spec in E as (Ho & Hc & Hf'). specialize (Hc true Hcod). subst c.
    destruct Hf' as ([= <-] & -> & _ & Hfirst & Hsub).
    destruct Hf as [| | |sub -> _ _| | |]; try (cbn; rewrite ?Nat.add_0_r; done).
    unfold open_stream. cbn [fst snd codec opened set_codec]. rewrite spawns_app, spawns_fed. cbn [Nat.add]. destruct (opened s); [by discriminate (Hsub eq_refl eq_refl)|].
    rewrite Hop by done. split; [done|]. split; [done|by intros [=]].
  - transition_cases; cbn; rewrite ?Nat.add_0_r; done.
  - transition_cases; rewrite ?spawns_app; cbn; rewrite ?Nat.add_0_r; done.
  - transition_cases; cbn; rewrite ?Nat.add_0_r; done.
Qed.
End invariants.

(** Once the read loop is on its way out, nothing is opened or fed any more. *)
Definition opens (a : action) : bool := match a with Spawned _ _ _ _ | Fed _ _ => true | _ => false end.
Definition stopping (s : Conn) : Prop :=
  match loop s with
  | Select => False
  | Sending q ps brk => brk = true /\ is_reply q /\ Forall is_reply ps
  | Joining | Finished => True
  end.

(** A close on the wire is the writer's end, and the loop has been told. *)
Definition close_told (acc : list action) (s : Conn) : Prop :=
  Exists (fun m => is_close m = true) (wire acc) ->
  writer s = Gone /\ (closed_signal s = true \/ close_armed s = true).

Section invariants2.
Context {R : Reflect} {FC : FrameCodec R} (script : nat -> list TungMessage) (p : Params).
Abbreviation trans := (WsServe.trans script p).

Lemma stopping_trans s acts s' : stopping s -> trans s acts s' -> stopping s' /\ Forall (fun a => opens a = false) acts.
Proof.
  unfold stopping. intros Hs [| | | | | | |q ps brk s1 acts1 Hl Hp| |t m rest s1 acts1 _ _ Hp| | | | | | | | | |];
    try (by repeat constructor); try (by match goal with H : loop s = Select |- _ => rewrite H in Hs end).
  - rewrite Hl in Hs. destruct Hs as (-> & Hq & Hps). destruct q as [m|]; [|done].
    destruct ps; transition_cases; (split; [|by repeat constructor]); try done; by inversion Hps.
  - unfold push_outbound in Hp. cbn [writer set_todo set_tasks outbound closed_signal] in Hp.
    destruct (writer s); try case_decide; simplify_eq/=; (split; [done|by repeat constructor]).
Qed.

Lemma close_told_trans acc s acts s' : close_told acc s -> trans s acts s' -> close_told (acc ++ acts) s'.
Proof.
  unfold close_told. intros Hs Ht. rewrite wire_app, Exists_app. intros Hex.
  destruct (trans_wire script p s acts s' Ht) as [[Hw Hg]|(m & Hw & Hn & Hm)]; rewrite Hw in Hex.
  - destruct Hex as [Hex|Hex]; [|by inversion Hex]. destruct (Hs Hex) as [Hgone Hsig]. split; [auto|].
    clear Hw Hg Hs. destruct Ht as [| |m c o f j acts' s'' _ _ Hf| | | | | | | | | | | | | | | | |]; try done; try (by rewrite Hgone in *).
    + by destruct Hf.
    + transition_cases; done.
    + by right.
    + transition_cases; done.
    + transition_cases; done.
  - destruct Hex as [Hex|Hex]; [by destruct (Hs Hex)|].
    apply Exists_cons in Hex as [Hc|Hc]; [|by inversion Hc]. split; [auto|].
    destruct m; try done. clear Hm Hs Hc. destruct Ht as [| |m c o f' j acts' s'' _ _ Hf| | | | | | | | | | | | | | | | |]; try done.
    + destruct Hf; try done. unfold open_stream in Hw. cbn [snd] in Hw. by rewrite wire_app, wire_fed in Hw.
    + transition_cases; done.
    + transition_cases; done.
    + transition_cases; done.
    + cbn in Hw. simplify_eq. by destruct (H0 f).
    + by left.
Qed.
End invariants2.

(** ** Properties *)

(** C1: Every interleaving of the connection's tasks keeps the protocol's invariants: nothing
    follows a close frame on the wire; at most one stream task runs at a time that was not
    aborted, the one the connection tracks; every stream opened is still tracked or was
    aborted; every request message fed to a stream is within the size limit; no queue exceeds
    its capacity; and a JSON connection opens at most one stream in its life. *)
Theorem connection_invariants {R : Reflect} {FC : FrameCodec R} (parse_path : str -> bool)
  (script : nat -> list TungMessage) (p : Params) (es : list event) :
  let '(s, acts) := run_conn parse_path script p es in
  wire_shape (wire acts)
  /\ one_task s
  /\ (live s + aborts acts = spawns acts)%nat
  /\ Forall (fed_ok p) acts
  /\ bounded s
  /\ (url_codec p = Some true -> (spawns acts <= 1)%nat).
Proof.
  pose proof (run_trans parse_path script p
    (fun acc s => (wire_shape (wire acc) /\ (writer s = Gone \/ Forall (fun m => is_close m = false) (wire acc)))
      /\ one_task s /\ (live s + aborts acc = spawns acc)%nat
      /\ (Forall (push_ok p) (pending s) /\ Forall (fed_ok p) acc) /\ bounded s /\ json_once p acc s) es (init p) []) as Hrun.
  unfold run_conn. destruct (run_steps _ _ es) as [s acts]. destruct Hrun as ([Hw _] & H1 & Hl & [_ Hf] & Hb & Hj).
  - intros acc s' acts' s'' (H1 & H2 & H3 & [H4 H4'] & H5 & H6) Ht. split_and!.
    + by eapply wire_step.
    + by eapply wire_step.
    + by eapply one_task_trans.
    + rewrite aborts_app, spawns_app. pose proof (live_trans script p s' acts' s'' Ht). lia.
    + by eapply fed_trans.
    + apply Forall_app. split; [done|]. by eapply fed_trans.
    + by eapply bounded_trans.
    + by eapply json_trans.
  - split_and!; try done.
    + exists []. by split; [constructor|left].
    + by right.
    + by apply one_task_none.
    + split; [cbn; unfold OUTBOUND_CAP; lia|]. by apply map_Forall_empty.
    + intros Hc. cbn. rewrite Hc. split_and!; [done|lia|done].
  - split_and!; try done. intros Hc. apply (Hj Hc).
Qed.

(** Draining. When it starts, a connection without a stream goes on to send the 1001 close
    and leave its loop, and whatever happens afterwards opens no stream and feeds no message;
    a connection with a live stream keeps everything but the flag. *)
Theorem drain_spares_live_streams {R : Reflect} {FC : FrameCodec R} (parse_path : str -> bool)
  (script : nat -> list TungMessage) (p : Params) (s : Conn) (es : list event)
  (Hselect : loop s = Select) (Hfresh : draining s = false) :
  let s' := (step parse_path script p s EvDrain).1 in
  match stream s with
  | Some st => s' = set_draining s
  | None =>
      (writer s <> Gone -> (length (outbound s) < OUTBOUND_CAP)%nat ->
        let s'' := (step parse_path script p s' EvLoop).1 in
        loop s'' = Joining /\ outbound s'' = outbound s ++ [close_going_away])
      /\ Forall (fun a => opens a = false) (run_steps (step parse_path script p) s' es).2
  end.
Proof.
  cbn [step]. unfold selecting. rewrite Hselect, Hfresh. cbn [negb andb stream set_draining].
  destruct (stream s) as [st|] eqn:Es; [done|]. cbn [fst]. split.
  - intros Hw Hroom. cbn. unfold push_outbound. cbn.
    destruct (writer s); try done; rewrite decide_True by done; unfold leave; cbn; by rewrite Es.
  - apply (run_trans parse_path script p (fun acc s => stopping s /\ Forall (fun a => opens a = false) acc)) with (acc := []).
    + intros acc s1 acts s2 [H1 H2] Ht. destruct (stopping_trans script p s1 acts s2 H1 Ht). rewrite Forall_app. auto.
    + by repeat constructor.
Qed.

(** The wait for the peer's answering close is bounded: in every run that has put a close
    frame on the wire, with the loop at its [select!], the writer's signal arms the deadline,
    its expiry ends the loop and the join returns at once, whatever the peer does not do. *)
Theorem close_wait_bounded {R : Reflect} {FC : FrameCodec R} (parse_path : str -> bool)
  (script : nat -> list TungMessage) (p : Params) (es : list event)
  (Hclosed : Exists (fun m => is_close m = true) (wire (run_conn parse_path script p es).2))
  (Hselect : loop (run_conn parse_path script p es).1 = Select) :
  let '(s, acts) := run_steps (step parse_path script p) (run_conn parse_path script p es).1
                      [EvClosedSignal; EvCloseExpired; EvLoop] in
  loop s = Finished /\ stream s = None /\ Ended ∈ acts /\ wire acts = [].
Proof.
  pose proof (run_trans parse_path script p close_told es (init p) [] (close_told_trans script p)) as Hrun.
  assert (close_told [] (init p)) as H0 by (intros Hx; inversion Hx). specialize (Hrun H0). unfold run_conn in *.
  destruct (run_steps _ (init p) es) as [s acts]. cbn [fst snd app] in *. destruct (Hrun Hclosed) as [Hgone Hsig].
  clear Hrun H0 Hclosed.
  cbn [run_steps step]. unfold selecting. rewrite Hselect.
  assert (exists s1, (if true && closed_signal s && negb (close_armed s) then (set_armed s, []) else (s, [])) = (s1, ([] : list action))
    /\ loop s1 = Select /\ close_armed s1 = true /\ writer s1 = Gone) as (s1 & -> & Hl & Ha & Hg).
  { destruct (close_armed s) eqn:?; [exists s; by rewrite andb_false_r|].
    destruct Hsig as [->|]; [|done]. eexists. split; [reflexivity|]. done. }
  rewrite Hl, Ha. cbn [andb]. unfold leave.
  destruct (stream s1) eqn:Es; cbn; rewrite Hg; cbn; rewrite ?Es; (split; [done|]; split; [done|]; split; [|done]); by repeat constructor.
Qed.

(** "One WebSocket, one stream" is not enforced on a binary connection: after a client's
    [Reset] the server sends nothing, and a second [Subscribe] opens a second stream on the
    same socket, even while the server drains. *)
Theorem second_stream_after_reset (script : nat -> list TungMessage) :
  let p := mkParams 100 false $"/p.S/M" (Some false) None in
  let subscribe := EvIncoming (Some (TBinary [x01])) in
  let reset := EvIncoming (Some (TBinary [x05])) in
  let '(s, acts) := run_conn (R := Flat.reflect) (fun _ => true) script p [subscribe; EvDrain; reset; subscribe] in
  spawns acts = 2%nat /\ draining s = true /\ live s = 1%nat /\ outbound s = [] /\ wire acts = [].
Proof. vm_compute. auto. Qed.

(** ** Witnesses *)

Lemma drain_spares_live_streams_witness :
  let p := mkParams 100 false $"/p.S/M" (Some false) None in
  let s' := (step (R := Flat.reflect) (fun _ => true) (fun _ => []) p (init p) EvDrain).1 in
  outbound (step (R := Flat.reflect) (fun _ => true) (fun _ => []) p s' EvLoop).1 = [close_going_away].
Proof.
  intros p s'. apply (proj1 (drain_spares_live_streams (R := Flat.reflect) (fun _ => true) (fun _ => []) p (init p) []
    eq_refl eq_refl)); [done|]. cbn. unfold OUTBOUND_CAP. lia.
Defined.

(** A stream whose task resets it and closes; the peer does not answer. *)
Lemma close_wait_bounded_witness :
  let p := mkParams 100 false $"/p.S/M" (Some false) None in
  let es := [EvIncoming (Some (TBinary [x01])); EvTask 0; EvRecv; EvWrite true] in
  loop (run_steps (step (R := Flat.reflect) (fun _ => true) (fun _ => [close_normal]) p)
          (run_conn (R := Flat.reflect) (fun _ => true) (fun _ => [close_normal]) p es).1
          [EvClosedSignal; EvCloseExpired; EvLoop]).1 = Finished.
Proof.
  intros p es. assert (Exists (fun m => is_close m = true)
    (wire (run_conn (R := Flat.reflect) (fun _ => true) (fun _ => [close_normal]) p es).2)) as Hc
    by (vm_compute; by constructor).
  assert (loop (run_conn (R := Flat.reflect) (fun _ => true) (fun _ => [close_normal]) p es).1 = Select) as Hs
    by (vm_compute; reflexivity).
  pose proof (close_wait_bounded (R := Flat.reflect) (fun _ => true) (fun _ => [close_normal]) p es Hc Hs) as Hw.
  destruct (run_steps _ _ _) as [s acts]. apply Hw.
Defined.
