(* ===== verification/WsQueues.v ===== *)
(** * The queues of a WebSocket connection ([rust/crates/grpc-webnext/src/ws.rs], [serve])

    What the bounded channels of [WsServe] do to a connection: order, the output of a stream
    task on the wire, back-pressure on the read loop, and the end of the connection. *)
From S2P Require Import Prelude RustStd Http Metadata Framing Reflection HttpRule HttpBuild Transcode JsonFrame ClientStatus WsCodec WsStream WsServe.

(** ** What passed through the queues *)

Definition queued (acts : list action) : list TungMessage :=
  omap (fun a => match a with Queued _ m => Some m | _ => None end) acts.
Definition queued_by (src : option nat) (acts : list action) : list TungMessage :=
  omap (fun a => match a with Queued src' m => if decide (src' = src) then Some m else None | _ => None end) acts.
Definition written (acts : list action) : list TungMessage :=
  omap (fun a => match a with Wire m => Some m | _ => None end) acts.
Definition in_flight (s : Conn) : list TungMessage := match writer s with Busy m => [m] | _ => [] end.
Definition fed (id : nat) (acts : list action) : list bytes :=
  omap (fun a => match a with Fed id' m => if decide (id' = id) then Some m else None | _ => None end) acts.
Definition taken (id : nat) (acts : list action) : list bytes :=
  omap (fun a => match a with Taken id' m => if decide (id' = id) then Some m else None | _ => None end) acts.

(** The writer sends what was queued, in order; while it lives nothing is lost. *)
Definition out_fifo (acc : list action) (s : Conn) : Prop :=
  written acc `prefix_of` queued acc
  /\ (writer s <> Gone -> queued acc = written acc ++ in_flight s ++ outbound s).

(** The backend takes what was fed, in order; while it listens nothing is lost. A stream not
    opened yet has no channel. *)
Definition req_fifo (acc : list action) (s : Conn) : Prop :=
  forall id, taken id acc `prefix_of` fed id acc
    /\ (forall q, requests s !! id = Some q -> fed id acc = taken id acc ++ q)
    /\ ((next_id s <= id)%nat -> requests s !! id = None /\ fed id acc = []).

(** A stream task queues its script, in order. *)
Definition task_fifo (script : nat -> list TungMessage) (acc : list action) (s : Conn) : Prop :=
  (forall id, queued_by (Some id) acc `prefix_of` script id)
  /\ (forall t, t ∈ tasks s -> (tid t < next_id s)%nat
        /\ (writer s <> Gone -> script (tid t) = queued_by (Some (tid t)) acc ++ todo t))
  /\ (forall id, (next_id s <= id)%nat -> queued_by (Some id) acc = []).

(** The loop tracks no stream after its end. *)
Definition past_loop (s : Conn) : Prop :=
  match loop s with Joining | Finished => stream s = None | _ => True end.

Section facts.
Context {R : Reflect} {FC : FrameCodec R} (script : nat -> list TungMessage) (p : Params).
Abbreviation trans := (WsServe.trans script p).

Lemma queued_app a b : queued (a ++ b) = queued a ++ queued b.
Proof. apply omap_app. Qed.
Lemma queued_by_app src a b : queued_by src (a ++ b) = queued_by src a ++ queued_by src b.
Proof. apply omap_app. Qed.
Lemma written_app a b : written (a ++ b) = written a ++ written b.
Proof. apply omap_app. Qed.
Lemma fed_app id a b : fed id (a ++ b) = fed id a ++ fed id b.
Proof. apply omap_app. Qed.
Lemma taken_app id a b : taken id (a ++ b) = taken id a ++ taken id b.
Proof. apply omap_app. Qed.
Lemma omap_fed {A} (f : action -> option A) id l : (forall m, f (Fed id m) = None) -> omap f (map (Fed id) l) = [].
Proof. intros Hf. induction l as [|m l IH]; [done|]. cbn. by rewrite Hf. Qed.
Lemma taken_fed id id' l : taken id (map (Fed id') l) = [].
Proof. by apply omap_fed. Qed.
Lemma fed_fed id l : fed id (map (Fed id) l) = l.
Proof. induction l as [|m l IH]; [done|]. cbn. rewrite decide_True by done. by f_equal. Qed.
Lemma fed_fed_ne id id' l : id' <> id -> fed id (map (Fed id') l) = [].
Proof. intros Hne. apply omap_fed. intros m. by rewrite decide_False. Qed.

(** What a completed send does, and what resuming the loop does not touch. *)
Lemma push_outbound_spec src m s s1 acts : push_outbound src m s = Some (s1, acts) ->
  (writer s = Gone /\ s1 = s /\ acts = [])
  \/ (writer s <> Gone /\ s1 = set_writer (outbound s ++ [m]) (writer s) (closed_signal s) s /\ acts = [Queued src m]).
Proof. unfold push_outbound. destruct (writer s); try case_decide; intros; simplify_eq; auto. Qed.

Lemma push_request_spec id m s s1 acts : push_request id m s = Some (s1, acts) ->
  (requests s !! id = None /\ s1 = s /\ acts = [])
  \/ (exists q, requests s !! id = Some q /\ s1 = set_requests (<[id := q ++ [m]]> (requests s)) s /\ acts = [Fed id m]).
Proof. unfold push_request. destruct (requests s !! id); try case_decide; intros; simplify_eq; eauto. Qed.

Definition same_queues (s s' : Conn) : Prop :=
  outbound s' = outbound s /\ writer s' = writer s /\ requests s' = requests s /\ next_id s' = next_id s.

Lemma leave_spec s : same_queues s (leave s).1 /\ Forall (fun a => is_abort a = true) (leave s).2.
Proof. unfold leave. by destruct (stream s); repeat constructor. Qed.
Lemma resume_spec ps brk s : same_queues s (resume ps brk s).1 /\ Forall (fun a => is_abort a = true) (resume ps brk s).2.
Proof. unfold resume. destruct ps; [|by repeat constructor]. destruct brk; [apply leave_spec|by repeat constructor]. Qed.

Lemma omap_aborts {A} (f : action -> option A) acts :
  (forall id, f (Aborted id) = None) -> Forall (fun a => is_abort a = true) acts -> omap f acts = [].
Proof. intros Hf. induction 1 as [|a acts Ha _ IH]; [done|]. destruct a; try done. cbn. by rewrite Hf. Qed.

(** The ways a transition touches the outbound queue. *)
Lemma trans_out s acts s' : trans s acts s' ->
  (queued acts = [] /\ written acts = [] /\ in_flight s' ++ outbound s' = in_flight s ++ outbound s /\ (writer s = Gone -> writer s' = Gone))
  \/ (exists m, queued acts = [m] /\ written acts = [] /\ in_flight s' ++ outbound s' = (in_flight s ++ outbound s) ++ [m] /\ writer s <> Gone)
  \/ (exists m, queued acts = [] /\ written acts = [m] /\ writer s = Busy m
      /\ (writer s' = Gone \/ writer s' = Idle /\ outbound s' = outbound s))
  \/ (queued acts = [] /\ written acts = [] /\ writer s' = Gone).
Proof.
  unfold in_flight.
  intros [| |m c o f j acts' s'' _ _ Hf| | | | |q ps brk s1 acts1 Hl Hp| |t m rest s1 acts1 _ _ Hp| | | |m q Hw Ho|Hw Ho _|Hw|m Hw Hm|f Hw|Hw|];
    try (left; done).
  - left. destruct Hf; try done. unfold open_stream. cbn [fst snd writer outbound set_codec].
    rewrite queued_app, written_app. unfold queued, written. rewrite !omap_fed by done. done.
  - left. destruct (leave_spec s) as [(-> & -> & _) Ha]. unfold queued, written. by rewrite !omap_aborts by done.
  - destruct (resume_spec ps brk s1) as [(-> & -> & _) Ha]. unfold queued, written.
    rewrite !omap_app, !(omap_aborts _ (resume ps brk s1).2), !app_nil_r by done. destruct q as [m|id m].
    + apply push_outbound_spec in Hp as [(Hw & -> & ->)|(Hw & -> & ->)]; [left; done|].
      right. left. exists m. cbn. by rewrite app_assoc.
    + left. apply push_request_spec in Hp as [(Hw & -> & ->)|(q & Hw & -> & ->)]; done.
  - apply push_outbound_spec in Hp as [(Hw & -> & ->)|(Hw & -> & ->)]; [left; done|].
    right. left. exists m. cbn. by rewrite app_assoc.
  - left. cbn. rewrite Hw, Ho. done.
  - left. cbn. by rewrite Hw, Ho.
  - left. cbn. by rewrite Hw.
  - right. right. left. exists m. split_and!; try done. by right.
  - right. right. left. exists (TClose f). split_and!; try done. by left.
  - left. cbn. by rewrite Hw.
  - by right; right; right.
Qed.

Lemma out_fifo_trans acc s acts s' : out_fifo acc s -> trans s acts s' -> out_fifo (acc ++ acts) s'.
Proof.
  unfold out_fifo. intros [Hpre Hq] Ht. rewrite queued_app, written_app.
  apply trans_out in Ht as [(-> & -> & He & Hg)|[(m & -> & -> & He & Hg)|[(m & -> & -> & Hw & Hs)|(-> & -> & Hg)]]];
    rewrite ?app_nil_r.
  - split; [done|]. intros Hn. rewrite He. auto.
  - split; [by apply prefix_app_r|]. intros _. rewrite He, app_assoc, <- Hq by done. done.
  - specialize (Hq ltac:(by rewrite Hw)). unfold in_flight in Hq. rewrite Hw in Hq. cbn [app] in Hq.
    rewrite Hq. split; [by exists (outbound s); rewrite <- app_assoc|]. intros Hn.
    destruct Hs as [|[Hi Ho]]; [done|]. unfold in_flight. rewrite Hi, Ho. by rewrite <- app_assoc.
  - split; [done|]. congruence.
Qed.

(** The ways it touches a request channel. *)
Lemma req_fifo_trans acc s acts s' : req_fifo acc s -> trans s acts s' -> req_fifo (acc ++ acts) s'.
Proof.
  intros Hs Ht.
  assert (forall s1 acts, requests s1 = requests s -> next_id s1 = next_id s ->
    (forall id, fed id acts = [] /\ taken id acts = []) -> req_fifo (acc ++ acts) s1) as Hsame.
  { intros s1 acts1 E1 E2 Hno id. destruct (Hno id) as [E3 E4].
    rewrite fed_app, taken_app, E1, E2, E3, E4, !app_nil_r. apply Hs. }
  assert (forall s1 acts, same_queues s s1 -> Forall (fun a => is_abort a = true) acts -> req_fifo (acc ++ acts) s1) as Habort.
  { intros s1 acts1 (_ & _ & E1 & E2) Ha. apply Hsame; [done|done|]. intros id. unfold fed, taken. by rewrite !omap_aborts. }
  destruct Ht as [| |m c o f j acts' s'' _ _ Hf| | | | |q ps brk s1 acts1 Hl Hp| |t m rest s1 acts1 _ _ Hp| |id m q Hr|id| | | | | | |];
    try (by apply Hsame).
  - destruct Hf as [| | |sub _ _ _| | |]; try (by apply Hsame). unfold open_stream. cbn [fst snd set_codec next_id requests].
    intros id. destruct (Hs id) as (Hpre & Hq & Hfresh). rewrite !fed_app, !taken_app. rewrite taken_fed.
    change (fed id [Spawned _ _ _ _]) with ([] : list bytes). change (taken id [Spawned _ _ _ _]) with ([] : list bytes).
    rewrite !app_nil_r. cbn [next_id requests]. destruct (decide (id = next_id s)) as [->|Hne].
    + destruct Hfresh as [Hn He]; [done|]. rewrite fed_fed, He. rewrite He in Hpre. apply prefix_nil_inv in Hpre.
      rewrite Hpre. split; [apply prefix_nil|]. split; [|lia]. intros q. rewrite lookup_insert_eq. by intros [= <-].
    + rewrite fed_fed_ne by done. rewrite app_nil_r. split; [done|]. rewrite lookup_insert_ne by done.
      split; [done|]. intros Hle. apply Hfresh. lia.
  - destruct (leave_spec s). by apply Habort.
  - destruct (resume_spec ps brk s1) as [(_ & _ & E1 & E2) Ha].
    assert (req_fifo (acc ++ acts1) s1) as Hs1.
    { destruct q as [m|id m].
      - apply push_outbound_spec in Hp as [(Hw & -> & ->)|(Hw & -> & ->)]; by apply Hsame.
      - apply push_request_spec in Hp as [(Hw & -> & ->)|(q & Hw & -> & ->)]; [by apply Hsame|].
        intros id'. destruct (Hs id') as (Hpre & Hq & Hfresh). rewrite fed_app, taken_app. cbn. rewrite app_nil_r.
        case_decide as Hid; [subst id'|].
        + split; [by apply prefix_app_r|]. split; [|intros Hle; destruct (Hfresh Hle); congruence].
          intros q'. rewrite lookup_insert_eq. intros [= <-]. by rewrite (Hq q Hw), <- app_assoc.
        + rewrite app_nil_r, lookup_insert_ne by done. done. }
    intros id. assert (fed id (resume ps brk s1).2 = [] /\ taken id (resume ps brk s1).2 = []) as [E3 E4]
      by (unfold fed, taken; by rewrite !omap_aborts).
    specialize (Hs1 id). rewrite !fed_app, !taken_app in *. by rewrite E1, E2, E3, E4, !app_nil_r.
  - apply push_outbound_spec in Hp as [(Hw & -> & ->)|(Hw & -> & ->)]; by apply Hsame.
  - intros id'. destruct (Hs id') as (Hpre & Hq & Hfresh). rewrite fed_app, taken_app. cbn. rewrite app_nil_r.
    case_decide as Hid; [subst id'|].
    + specialize (Hq _ Hr). rewrite Hq. split; [by exists q; rewrite <- app_assoc|].
      split; [|intros Hle; destruct (Hfresh Hle); congruence].
      intros q'. rewrite lookup_insert_eq. intros [= <-]. by rewrite <- app_assoc.
    + rewrite app_nil_r, lookup_insert_ne by done. done.
  - rewrite app_nil_r. intros id'. destruct (Hs id') as (Hpre & Hq & Hfresh). split; [done|]. cbn.
    split; [|intros Hle; destruct (Hfresh Hle) as [Hn He]; split; [by rewrite lookup_delete_None; auto|done]].
    intros q. rewrite lookup_delete_Some. intros [_ ?]. auto.
Qed.

(** A stream task's share of the queue. *)
Lemma task_fifo_same acc s s' acts :
  (forall id, queued_by (Some id) acts = []) -> (forall t, t ∈ tasks s' -> exists t', t' ∈ tasks s /\ tid t = tid t' /\ todo t = todo t') ->
  next_id s' = next_id s -> (writer s' <> Gone -> writer s <> Gone) -> task_fifo script acc s -> task_fifo script (acc ++ acts) s'.
Proof.
  intros Hno Hts Hn Hw (H1 & H2 & H3). unfold task_fifo. rewrite Hn. split_and!.
  - intros id. rewrite queued_by_app, Hno, app_nil_r. apply H1.
  - intros t Ht. destruct (Hts t Ht) as (t' & Ht' & -> & ->). destruct (H2 t' Ht') as [Hlt Hs]. split; [done|].
    rewrite queued_by_app, Hno, app_nil_r. auto.
  - intros id Hid. rewrite queued_by_app, Hno, app_nil_r. auto.
Qed.

Lemma abort_tasks id s t : t ∈ tasks (abort id s) -> exists t', t' ∈ tasks s /\ tid t = tid t' /\ todo t = todo t'.
Proof. unfold abort. cbn. intros (t' & -> & Ht')%list_elem_of_fmap. exists t'. by case_decide. Qed.

Lemma queued_by_none acts : queued acts = [] -> forall src, queued_by src acts = [].
Proof.
  intros Hq src. unfold queued, queued_by in *. induction acts as [|[| | | | | | |] acts IH]; try done; cbn in *; auto.
Qed.

Lemma task_fifo_trans acc s acts s' : task_fifo script acc s -> trans s acts s' -> task_fifo script (acc ++ acts) s'.
Proof.
  intros Hs Ht.
  assert (forall t, t ∈ tasks s -> exists t', t' ∈ tasks s /\ tid t = tid t' /\ todo t = todo t') as Hid by eauto.
  assert (forall s1 acts1, queued acts1 = [] -> (forall t, t ∈ tasks s1 -> exists t', t' ∈ tasks s /\ tid t = tid t' /\ todo t = todo t') ->
    next_id s1 = next_id s -> (writer s1 <> Gone -> writer s <> Gone) -> task_fifo script (acc ++ acts1) s1) as Hsame.
  { intros s1 acts1 Hq. intros. eapply task_fifo_same; eauto using queued_by_none. }
  assert (forall s1, tasks (leave s1).1 = tasks s1 \/ exists id, tasks (leave s1).1 = tasks (abort id s1)) as Hleave.
  { intros s1. unfold leave. destruct (stream s1) as [st|]; [right; by exists (task st)|by left]. }
  destruct Ht as [| |m c o f j acts' s'' _ _ Hf| | | | |q ps brk s1 acts1 Hl Hp| |t m rest s1 acts1 Hin Htd Hp| | | |m q Hw Ho|Hw Ho _|Hw|m Hw Hm|f Hw|Hw|];
    try (by apply Hsame; try done; congruence).
  - destruct Hf as [| | |sub _ _ _| | |]; try (by apply Hsame);
      try (apply Hsame; [done|intros t Ht; apply (abort_tasks (task st) s t Ht)|done|done]).
    destruct Hs as (Hpre & Hts & Hfr). unfold open_stream. cbn [fst snd set_codec next_id tasks].
    unfold task_fifo. cbn [next_id tasks writer]. 
    assert (forall src, queued_by src (map (Fed (next_id s)) ((if nonempty (initial_payload sub) then [initial_payload sub] else [])
       ++ (if bool_decide (annotation_body p = Some false) then [[]] else [])) ++ [Spawned (next_id s) (sub_method sub)
       (grpc_timeout_from_millis (timeout_millis sub)) j]) = []) as Hno.
    { intros src. rewrite queued_by_app. unfold queued_by. by rewrite omap_fed. }
    split_and!.
    + intros id. rewrite queued_by_app, Hno, app_nil_r. apply Hpre.
    + intros t [Ht|Ht%list_elem_of_singleton]%elem_of_app.
      * destruct (Hts t Ht) as [Hlt Hs]. split; [lia|]. rewrite queued_by_app, Hno, app_nil_r. done.
      * subst t. cbn [tid todo]. split; [lia|]. intros _. by rewrite queued_by_app, Hno, app_nil_r, Hfr.
    + intros id Hle. rewrite queued_by_app, Hno, app_nil_r. apply Hfr. lia.
  - destruct (leave_spec s) as [(_ & Ew & _ & En) Ha]. apply Hsame; [by apply omap_aborts| |done|by rewrite Ew].
    intros t. destruct (Hleave s) as [->|[id ->]]; [auto|apply abort_tasks].
  - destruct (resume_spec ps brk s1) as [(_ & Ew & _ & En) Ha].
    assert (forall t, t ∈ tasks (resume ps brk s1).1 -> exists t', t' ∈ tasks s1 /\ tid t = tid t' /\ todo t = todo t') as Hr.
    { intros t. unfold resume. destruct ps; [|by eauto]. destruct brk; [|by eauto].
      destruct (Hleave s1) as [->|[id ->]]; [eauto|apply abort_tasks]. }
    rewrite app_assoc. eapply task_fifo_same; [|exact Hr|done|by rewrite Ew|].
    { intros id. apply queued_by_none. by apply omap_aborts. }
    destruct q as [m|id m].
    + apply push_outbound_spec in Hp as [(Hw & -> & ->)|(Hw & -> & ->)]; [by apply Hsame|].
      eapply task_fifo_same; [|exact Hid|done|done|done]. done.
    + apply push_request_spec in Hp as [(Hw & -> & ->)|(q & Hw & -> & ->)]; by apply Hsame.
  - destruct Hs as (Hpre & Hts & Hfr). destruct (Hts t Hin) as [Hlt Hscript].
    apply push_outbound_spec in Hp as [(Hw & -> & ->)|(Hw & -> & ->)]; cbn in Hw.
    + rewrite app_nil_r. split_and!; [done| |done]. cbn. intros t' (t0 & -> & Ht0)%list_elem_of_fmap.
      destruct (Hts t0 Ht0). case_decide; cbn; split; congruence || lia.
    + specialize (Hscript Hw). rewrite Htd in Hscript.
      assert (forall id, queued_by (Some id) (acc ++ [Queued (Some (tid t)) m])
        = queued_by (Some id) acc ++ if decide (id = tid t) then [m] else []) as Hqb.
      { intros id. rewrite queued_by_app. f_equal. cbn. do 2 case_decide; congruence. }
      unfold task_fifo. cbn [set_writer next_id tasks set_todo set_tasks writer]. split_and!.
      * intros id. rewrite Hqb. case_decide; [subst id|by rewrite app_nil_r].
        rewrite Hscript. exists rest. by rewrite <- app_assoc.
      * intros t' (t0 & -> & Ht0)%list_elem_of_fmap. destruct (Hts t0 Ht0) as [Hlt0 Hs0].
        rewrite Hqb. case_decide as He; cbn [tid todo].
        -- rewrite decide_True by done. split; [lia|]. intros _. rewrite Hscript. by rewrite <- app_assoc.
        -- rewrite decide_False by done. rewrite app_nil_r. auto.
      * intros id Hle. rewrite Hqb, decide_False by lia. rewrite app_nil_r. auto.
  - apply Hsame; try done. unfold remove_task. cbn. intros t [_ Ht]%list_elem_of_filter. eauto.
Qed.

Lemma past_loop_trans s acts s' : past_loop s -> trans s acts s' -> past_loop s'.
Proof.
  unfold past_loop. intros Hs [| |m c o f j acts' s'' Hl _ Hf| | | | |q ps brk s1 acts1 Hl Hp|Hl Hw|t m rest s1 acts1 _ _ Hp| | | | | | | | | |];
    try done; try (by match goal with H : loop s = Select |- _ => rewrite H in *; cbn; rewrite H end).
  - destruct Hf; cbn in *; by rewrite ?Hl in *.
  - unfold leave. by destruct (stream s) eqn:E.
  - unfold resume. destruct ps; [|done]. destruct brk; [|done]. unfold leave. by destruct (stream s1) eqn:E.
  - cbn. by rewrite Hl in Hs.
  - apply push_outbound_spec in Hp as [(Hw & -> & ->)|(Hw & -> & ->)]; done.
Qed.
End facts.

Lemma filter_id {A} (P : A -> Prop) `{!forall x, Decision (P x)} (l : list A) : Forall P l -> filter P l = l.
Proof. induction 1 as [|x l Hx _ IH]; [done|]. rewrite filter_cons_True by done. by rewrite IH. Qed.
Lemma filter_none {A} (P : A -> Prop) `{!forall x, Decision (P x)} (l : list A) : Forall (fun x => ~ P x) l -> filter P l = [].
Proof. induction 1 as [|x l Hx _ IH]; [done|]. by rewrite filter_cons_False. Qed.
Lemma Forall_filter_sub {A} (P Q : A -> Prop) `{!forall x, Decision (Q x)} (l : list A) : Forall P l -> Forall P (filter Q l).
Proof. rewrite !Forall_forall. intros Hl x [_ Hx]%list_elem_of_filter. auto. Qed.

Section runs.
Context {R : Reflect} {FC : FrameCodec R} (parse_path : str -> bool) (script : nat -> list TungMessage) (p : Params).
Abbreviation step := (WsServe.step parse_path script p).
Abbreviation run := (run_steps step).

Lemma run_fifo es :
  let '(s, acts) := run_conn parse_path script p es in
  out_fifo acts s /\ req_fifo acts s /\ task_fifo script acts s.
Proof.
  pose proof (run_trans parse_path script p (fun acc s => out_fifo acc s /\ req_fifo acc s /\ task_fifo script acc s)
    es (init p) []) as Hrun.
  unfold run_conn. destruct (run (init p) es) as [s acts]. apply Hrun.
  - intros acc s1 acts1 s2 (H1 & H2 & H3) Ht. split_and!; eauto using out_fifo_trans, req_fifo_trans, task_fifo_trans.
  - split_and!; [by split|intros id; cbn; rewrite lookup_empty; by split_and!|].
    split; [intros id; apply prefix_nil|]. split; [|done]. intros t Ht. by apply elem_of_nil in Ht.
Qed.

(** The state of every run. *)
Lemma run_state es : let s := (run_conn parse_path script p es).1 in bounded s /\ one_task s /\ past_loop s.
Proof.
  pose proof (run_trans parse_path script p (fun _ s => bounded s /\ one_task s /\ past_loop s) es (init p) []) as Hrun.
  apply Hrun.
  - intros acc s1 acts1 s2 (H1 & H2 & H3) Ht. split_and!; eauto using bounded_trans, one_task_trans, past_loop_trans.
  - split_and!; [split; [cbn; unfold OUTBOUND_CAP; lia|by apply map_Forall_empty]|by apply one_task_none|done].
Qed.

(** The writer's two turns with a peer that reads: room in the queue, or the end of it. *)
Lemma writer_turn s : bounded s -> senders_gone s = false ->
  let s' := (run s [EvWrite true; EvRecv]).1 in
  loop s' = loop s /\ stream s' = stream s /\ requests s' = requests s
  /\ (writer s' = Gone \/ (length (outbound s') < OUTBOUND_CAP)%nat).
Proof.
  intros [Ho _] Hsend. cbn [run_steps]. 
  assert (forall s1, loop s1 = loop s -> stream s1 = stream s -> requests s1 = requests s -> tasks s1 = tasks s ->
    (writer s1 = Gone \/ writer s1 = Idle /\ outbound s1 = outbound s) ->
    let s' := (step s1 EvRecv).1 in loop s' = loop s /\ stream s' = stream s /\ requests s' = requests s
    /\ (writer s' = Gone \/ (length (outbound s') < OUTBOUND_CAP)%nat)) as Hrecv.
  { intros s1 E1 E2 E3 E4 [Hg|[Hi E5]]; cbn [WsServe.step].
    - rewrite Hg. cbn. auto.
    - rewrite Hi. destruct (outbound s1) as [|m q] eqn:Eo.
      + assert (senders_gone s1 = false) as -> by (unfold senders_gone in *; by rewrite E1, E4).
        cbn. rewrite Eo. split_and!; try done. right. unfold OUTBOUND_CAP. cbn. lia.
      + cbn. split_and!; try done. right. rewrite <- E5 in Ho. cbn in Ho. lia. }
  assert (exists s1 acts, step s (EvWrite true) = (s1, acts) /\ loop s1 = loop s /\ stream s1 = stream s
    /\ requests s1 = requests s /\ tasks s1 = tasks s
    /\ (writer s1 = Gone \/ writer s1 = Idle /\ outbound s1 = outbound s)) as (s1 & acts & -> & E1 & E2 & E3 & E4 & Ew).
  { cbn [WsServe.step]. destruct (writer s) as [|m| |] eqn:Ew.
    - eexists _, _. split; [reflexivity|]. auto 10.
    - destruct m; (eexists _, _; split; [reflexivity|]); cbn; auto 10.
    - eexists _, _. split; [reflexivity|]. cbn; auto 10.
    - eexists _, _. split; [reflexivity|]. auto 10. }
  specialize (Hrecv s1 E1 E2 E3 E4 Ew). by destruct (step s1 EvRecv).
Qed.

Lemma cancel_all ids s : Forall (fun t => doomed t = true) (tasks s) ->
  run s (map EvCancelled ids) = (set_tasks (filter (fun t => tid t ∉ ids) (tasks s)) s, []).
Proof.
  revert s. induction ids as [|id ids IH]; intros s Hd.
  - cbn. f_equal. rewrite filter_id; [by destruct s|]. apply Forall_true. intros t. apply not_elem_of_nil.
  - cbn [map run_steps].
    assert (step s (EvCancelled id) = (remove_task id s, [])) as ->.
    { cbn [WsServe.step]. destruct (find _ _) as [t|] eqn:Ef.
      - apply find_task in Ef as [Hin _]. rewrite Forall_forall in Hd. specialize (Hd t Hin). destruct t. cbn in Hd. by subst.
      - f_equal. unfold remove_task. rewrite filter_id; [by destruct s|].
        apply Forall_forall. intros t Ht. pose proof (find_none _ _ Ef t) as Hn.
        specialize (Hn ltac:(by apply list_elem_of_In)). by apply bool_decide_eq_false in Hn. }
    rewrite IH.
    + unfold remove_task, set_tasks. cbn. rewrite list_filter_filter. do 2 f_equal. apply list_filter_iff. intros t. rewrite not_elem_of_cons. tauto.
    + cbn. by apply Forall_filter_sub.
Qed.

(** A round of the writer with a peer that reads, and what is written up to a close. *)
Definition rounds (n : nat) : list event := concat (repeat [EvWrite true; EvRecv] n).
Fixpoint upto_close (ms : list TungMessage) : list TungMessage :=
  match ms with [] => [] | m :: ms => if is_close m then [m] else m :: upto_close ms end.

Lemma rounds_gone n s : writer s = Gone -> run s (rounds n) = (s, []).
Proof. intros Hg. induction n as [|n IH]; [done|]. cbn. rewrite Hg. cbn. rewrite Hg. fold (rounds n). by rewrite IH. Qed.

Lemma flush n s : loop s = Joining -> tasks s = [] -> (length (outbound s) < n)%nat -> writer s <> Gone ->
  let '(s', acts) := run s (rounds n) in
  writer s' = Gone /\ loop s' = Joining /\ written acts = upto_close (in_flight s ++ outbound s).
Proof.
  revert s. induction n as [|n IH]; intros s Hl Ht Hn Hw; [lia|].
  (* after the write, the writer is idle with the same queue *)
  assert (forall s1, loop s1 = Joining -> tasks s1 = [] -> writer s1 = Idle -> outbound s1 = outbound s ->
    let '(s', acts) := run s1 (EvRecv :: rounds n) in
    writer s' = Gone /\ loop s' = Joining /\ written acts = upto_close (outbound s)) as Hidle.
  { intros s1 E1 E2 E3 E4. cbn [run_steps WsServe.step]. rewrite E3. destruct (outbound s1) as [|m q] eqn:Eo.
    - unfold senders_gone. rewrite E1, E2. rewrite rounds_gone by done. cbn. by rewrite <- E4.
    - specialize (IH (set_writer q (Busy m) (closed_signal s1) s1) E1 E2). cbn in IH.
      rewrite <- E4 in Hn. cbn in Hn. specialize (IH ltac:(lia) ltac:(done)).
      destruct (run _ (rounds n)) as [s' acts]. rewrite <- E4. exact IH. }
  assert (rounds (S n) = EvWrite true :: EvRecv :: rounds n) as -> by done.
  remember (EvRecv :: rounds n) as es eqn:Hes. cbn [run_steps WsServe.step]. unfold in_flight.
  destruct (writer s) as [|m| |] eqn:Ew; [| | |done].
  - specialize (Hidle s Hl Ht Ew eq_refl). by destruct (run s es).
  - destruct (is_close m) eqn:Em.
    + destruct m; try done. subst es. cbn [run_steps WsServe.step set_writer writer].
      rewrite rounds_gone by done. cbn. by rewrite Hl.
    + specialize (Hidle (set_writer (outbound s) Idle (closed_signal s) s) Hl Ht eq_refl eq_refl).
      destruct m; try done; destruct (run _ es) as [s' acts]; destruct Hidle as (H1 & H2 & H3);
        (split; [done|]; split; [done|]); cbn; by rewrite <- H3.
  - specialize (Hidle (set_writer (outbound s) Idle (closed_signal s) s) Hl Ht eq_refl eq_refl).
    destruct (run _ es) as [s' acts]. done.
Qed.

(** A writer that is gone has dropped its queue. *)
Definition gone_empty (s : Conn) : Prop := writer s = Gone -> outbound s = [].
Lemma gone_empty_trans s acts s' : gone_empty s -> trans script p s acts s' -> gone_empty s'.
Proof.
  unfold gone_empty. intros Hs [| |m c o f j acts' s'' _ _ Hf| | | | |q ps brk s1 acts1 Hl Hp| |t m rest s1 acts1 Hin Htd Hp| | | |m q Hw Ho|Hw Ho _|Hw|m Hw Hm|f Hw|Hw|];
    try done.
  - by destruct Hf.
  - by destruct (leave_spec s) as [(-> & -> & _) _].
  - destruct (resume_spec ps brk s1) as [(-> & -> & _) _]. destruct q as [m|id m].
    + by apply push_outbound_spec in Hp as [(Hw & -> & ->)|(Hw & -> & ->)].
    + by apply push_request_spec in Hp as [(Hw & -> & ->)|(q & Hw & -> & ->)].
  - by apply push_outbound_spec in Hp as [(Hw & -> & ->)|(Hw & -> & ->)].
Qed.
Lemma run_gone_empty es : gone_empty (run_conn parse_path script p es).1.
Proof. unfold run_conn. apply (run_steps_inv step gone_empty); [|done]. intros s e Hs. eapply gone_empty_trans; [exact Hs|apply step_trans]. Qed.
End runs.

(** ** Properties *)

(** C3: The queues of a connection lose, reorder and invent nothing, whatever the interleaving.
    What the socket gets is what was queued, in order, short of what the writer still holds
    (all of it accounted for while the writer lives); what the backend gets of a stream's
    requests is what was fed to it, in order, short of what waits in its channel; and what a
    stream task has queued is the beginning of what it has to send. *)
Theorem queues_lossless {R : Reflect} {FC : FrameCodec R} (parse_path : str -> bool)
  (script : nat -> list TungMessage) (p : Params) (es : list event) :
  let '(s, acts) := run_conn parse_path script p es in
  written acts `prefix_of` queued acts
  /\ (writer s <> Gone -> queued acts = written acts ++ in_flight s ++ outbound s)
  /\ (forall id, taken id acts `prefix_of` fed id acts
        /\ (forall q, requests s !! id = Some q -> fed id acts = taken id acts ++ q)
        /\ queued_by (Some id) acts `prefix_of` script id).
Proof.
  pose proof (run_fifo parse_path script p es) as Hf. destruct (run_conn _ _ _ _) as [s acts].
  destruct Hf as ([H1 H2] & Hr & Ht & _). split_and!; [done|done|]. intros id. destruct (Hr id) as (? & ? & _). auto.
Qed.

Definition from_stream (id : nat) (a : action) : Prop :=
  match a with Queued src _ => src = Some id | _ => True end.

Lemma queued_from id acts : Forall (from_stream id) acts -> queued acts = queued_by (Some id) acts.
Proof.
  induction 1 as [|a acts Ha _ IH]; [done|]. destruct a; try exact IH. cbn in *. subst src.
  rewrite decide_True by done. by f_equal.
Qed.

Lemma to_tung_not_close {R : Reflect} {FC : FrameCodec R} f json : is_close (to_tung f json) = false.
Proof. unfold to_tung. destruct json; [|done]. by destruct (proto_frame_to_json f). Qed.

(** A beginning of [l ++ [m]] that has a close, when [l] has none, is all of it. *)
Lemma prefix_closed ws l m :
  ws `prefix_of` l ++ [m] -> Forall (fun m => is_close m = false) l -> Exists (fun m => is_close m = true) ws -> ws = l ++ [m].
Proof.
  intros [k Hk] Hl Hex. destruct k as [|x k _] using rev_ind; [by rewrite app_nil_r in Hk|].
  rewrite app_assoc in Hk. apply app_inj_tail in Hk as [-> ->].
  apply Forall_app in Hl as [Hl _]. exfalso. apply Exists_exists in Hex as (y & Hin & Hy).
  rewrite Forall_forall in Hl. specialize (Hl y Hin). congruence.
Qed.

(** C2: A stream on a connection, end to end. When all a connection queues comes from one
    stream task running [run_stream], then at every point of every interleaving the socket has
    been given a beginning of a well-shaped stream (a header if any, messages, one terminal
    frame) and the normal close; once a close is on the wire, it has been given all of it. *)
Theorem stream_delivered {H : Http} {HL : HttpLaws H} {T : Tonic H} {R : Reflect} {FC : FrameCodec R}
  (parse_path : str -> bool) (script : nat -> list TungMessage) (p : Params) (es : list event) (id : nat)
  (json : bool) (schema : result TonicStatus Transcoder) (ann : option (WsBinding MessageDescriptor)) (path : str)
  (resp : result str (HeaderMap * list (body_event H))) (expired : option nat)
  (Hscript : run_stream json schema ann path resp expired = Done (script id))
  (Honly : Forall (from_stream id) (run_conn parse_path script p es).2) :
  let ws := written (run_conn parse_path script p es).2 in
  exists fs, stream_shape fs
    /\ ws `prefix_of` map (fun f => to_tung f json) fs ++ [close_normal]
    /\ (Exists (fun m => is_close m = true) ws -> ws = map (fun f => to_tung f json) fs ++ [close_normal]).
Proof.
  intros ws. destruct (stream_frames_total json schema ann path resp expired) as [fs Hfs].
  unfold run_stream in Hscript. rewrite Hfs in Hscript. cbn in Hscript. injection Hscript as Hscript.
  exists fs. split; [by eapply stream_frames_shape|].
  assert (ws `prefix_of` script id) as Hpre.
  { pose proof (run_fifo parse_path script p es) as Hf. unfold ws. destruct (run_conn _ _ _ _) as [s acts].
    destruct Hf as ([Hw _] & _ & Ht & _). cbn in *. rewrite (queued_from id acts Honly) in Hw. by etransitivity. }
  rewrite <- Hscript in Hpre. split; [done|]. apply prefix_closed; [done|].
  apply Forall_map, Forall_true. intros f. apply to_tung_not_close.
Qed.

(** Back-pressure never wedges the read loop by itself. In every reachable state inside a
    send: to the outbound queue, the send completes once the peer has read one message; to a
    stream's request channel, once the backend has taken a message or stopped listening. The
    loop then goes on as if the channel had room. *)
Theorem send_completes {R : Reflect} {FC : FrameCodec R} (parse_path : str -> bool)
  (script : nat -> list TungMessage) (p : Params) (es : list event) (q : push) (ps : list push) (brk : bool) :
  let step := step parse_path script p in
  let s := (run_conn parse_path script p es).1 in
  let goes_on s' := loop s' = loop (resume ps brk s).1 in
  loop s = Sending q ps brk ->
  match q with
  | ToOutbound _ => goes_on (run_steps step s [EvWrite true; EvRecv; EvLoop]).1
  | ToRequest id _ =>
      goes_on (run_steps step s [EvTake id; EvLoop]).1 /\ goes_on (run_steps step s [EvReqDropped id; EvLoop]).1
  end.
Proof.
  intros step0 s goes_on Hl. destruct (run_state parse_path script p es) as (Hb & _ & _). fold s in Hb.
  assert (forall s1, loop s1 = Sending q ps brk -> is_Some (run_push q s1) -> goes_on (step0 s1 EvLoop).1) as Hgo.
  { intros s1 El [[s2 acts] Ep]. unfold goes_on, step0. cbn [WsServe.step]. rewrite El, Ep.
    transitivity (loop (resume ps brk s2).1); [by destruct (resume ps brk s2)|].
    unfold resume, leave. destruct ps; [|done]. destruct brk; [|done]. by destruct (stream s2), (stream s). }
  assert (forall s1 e, (run_steps step0 s1 [e]).1 = (step0 s1 e).1) as Hone by (intros s1 e; cbn; by destruct (step0 s1 e)).
  destruct q as [m|id m].
  - assert (senders_gone s = false) as Hsg by (unfold senders_gone; by rewrite Hl).
    destruct (writer_turn parse_path script p s Hb Hsg) as (El & _ & _ & Hroom). fold step0 in El, Hroom.
    change [EvWrite true; EvRecv; EvLoop] with ([EvWrite true; EvRecv] ++ [EvLoop]). rewrite run_steps_app.
    destruct (run_steps step0 s [EvWrite true; EvRecv]) as [s1 acts1]. cbn [fst] in *.
    specialize (Hgo s1 ltac:(congruence)). rewrite <- Hone in Hgo. destruct (run_steps step0 s1 [EvLoop]). apply Hgo.
    cbn. unfold push_outbound. destruct Hroom as [->|Hroom]; [by eexists|].
    destruct (writer s1); try (by eexists); rewrite decide_True by done; by eexists.
  - assert (forall s1 e acts1, step0 s e = (s1, acts1) -> loop s1 = loop s -> (forall c, requests s1 !! id = Some c -> (length c < REQUEST_CAP)%nat) ->
      goes_on (run_steps step0 s [e; EvLoop]).1) as Htwo.
    { intros s1 e acts1 Es El Hc. cbn [run_steps]. rewrite Es. specialize (Hgo s1 ltac:(congruence)).
      destruct (step0 s1 EvLoop). apply Hgo. cbn. unfold push_request. destruct (requests s1 !! id) as [cc|] eqn:Ecc; [|by eexists].
      rewrite decide_True by eauto. by eexists. }
    split.
    + destruct Hb as [_ Hr]. unfold step0 in Htwo. destruct (requests s !! id) as [[|x c]|] eqn:Er.
      * eapply Htwo; [cbn [WsServe.step]; rewrite Er; reflexivity|done|]. rewrite Er. intros c0 [= <-]. unfold REQUEST_CAP. cbn. lia.
      * eapply Htwo; [cbn [WsServe.step]; rewrite Er; reflexivity|done|]. cbn. intros c'. rewrite lookup_insert_eq. intros [= <-].
        specialize (Hr _ _ Er). cbn in Hr. lia.
      * eapply Htwo; [cbn [WsServe.step]; rewrite Er; reflexivity|done|]. by rewrite Er.
    + eapply Htwo; [reflexivity|done|]. cbn. by rewrite lookup_delete_eq.
Qed.

(** C4: A connection that has left its loop ends. In every reachable state waiting for the
    writer: when the cancelled tasks stop and the peer reads on, the connection finishes,
    having written everything queued up to a close; when a write fails, it finishes at once. *)
Theorem connection_finishes {R : Reflect} {FC : FrameCodec R} (parse_path : str -> bool)
  (script : nat -> list TungMessage) (p : Params) (es : list event) :
  let step := step parse_path script p in
  let s := (run_conn parse_path script p es).1 in
  let winding_down := map EvCancelled (map tid (tasks s)) ++ rounds (S (length (outbound s))) ++ [EvLoop] in
  loop s = Joining ->
  (let '(s', acts) := run_steps step s winding_down in
   loop s' = Finished /\ Ended ∈ acts /\ written acts = upto_close (in_flight s ++ outbound s))
  /\ (writer s <> Idle -> loop (run_steps step s [EvWrite false; EvLoop]).1 = Finished).
Proof.
  intros step0 s winding Hl. destruct (run_state parse_path script p es) as (_ & Hone & Hpast). fold s in Hone, Hpast.
  pose proof (run_gone_empty parse_path script p es) as Hge. fold s in Hge. split.
  - assert (Forall (fun t => doomed t = true) (tasks s)) as Hd.
    { unfold past_loop in Hpast. rewrite Hl in Hpast. destruct Hone as [_ Hr]. rewrite Hpast in Hr. unfold running in Hr.
      rewrite Forall_forall. intros t Ht. destruct (doomed t) eqn:Ed; [done|].
      assert (t ∈ filter (fun t => doomed t = false) (tasks s)) as Hin by (by apply list_elem_of_filter).
      rewrite Hr in Hin. by apply elem_of_nil in Hin. }
    pose proof (cancel_all parse_path script p (map tid (tasks s)) s Hd) as Hc. fold step0 in Hc.
    unfold winding. rewrite run_steps_app, Hc. clear Hc winding.
    rewrite filter_none by (apply Forall_forall; intros t Ht Hn; by apply Hn, list_elem_of_fmap_2).
    rewrite run_steps_app. set (s1 := set_tasks [] s).
    assert (exists acts, run_steps step0 s1 (rounds (S (length (outbound s)))) = ((run_steps step0 s1 (rounds (S (length (outbound s))))).1, acts)
      /\ writer (run_steps step0 s1 (rounds (S (length (outbound s))))).1 = Gone
      /\ loop (run_steps step0 s1 (rounds (S (length (outbound s))))).1 = Joining
      /\ written acts = upto_close (in_flight s ++ outbound s)) as (acts & Hrun & Hw & Hlj & Hwr).
    { assert (writer s = Gone \/ writer s <> Gone) as [Hg|Hng] by (destruct (writer s); by auto).
      - exists []. pose proof (rounds_gone parse_path script p (S (length (outbound s))) s1 Hg) as Hrg. fold step0 in Hrg. rewrite Hrg. split; [done|]. split; [done|]. split; [done|].
        unfold in_flight. by rewrite Hg, Hge.
      - pose proof (flush parse_path script p (S (length (outbound s))) s1 Hl eq_refl (Nat.lt_succ_diag_r _) Hng) as Hf.
        fold step0 in Hf. destruct (run_steps step0 s1 _) as [s2 acts]. exists acts. by destruct Hf as (? & ? & ?). }
    rewrite Hrun. destruct (run_steps step0 s1 _) as [s2 acts2]. cbn [fst] in *. clear Hrun acts2.
    cbn [run_steps]. unfold step0. cbn [WsServe.step]. rewrite Hlj, Hw. cbn. split_and!.
    + done.
    + apply elem_of_app. right. by left.
    + rewrite written_app. cbn. by rewrite app_nil_r.
  - intros Hni. cbn. destruct (writer s) eqn:Ew; try done; cbn; rewrite Hl, ?Ew; done.
Qed.

Section stalls.
Context {R : Reflect} {FC : FrameCodec R} (parse_path : str -> bool) (script : nat -> list TungMessage) (p : Params).

Lemma deaf_step s e id m ps brk q :
  loop s = Sending (ToRequest id m) ps brk -> requests s !! id = Some q -> length q = REQUEST_CAP ->
  e <> EvTake id -> e <> EvReqDropped id ->
  let '(s', acts) := step parse_path script p s e in
  loop s' = loop s /\ stream s' = stream s /\ draining s' = draining s /\ requests s' !! id = Some q
  /\ (Ended ∉ acts) /\ aborts acts = 0%nat.
Proof.
  intros Hl Hq Hlen Ht Hd.
  assert (selecting s = false) as Hsel by (unfold selecting; by rewrite Hl).
  assert (forall s' acts, loop s' = loop s -> stream s' = stream s -> draining s' = draining s -> requests s' = requests s ->
    Forall (fun a => match a with Ended | Aborted _ => False | _ => True end) acts ->
    loop s' = loop s /\ stream s' = stream s /\ draining s' = draining s /\ requests s' !! id = Some q
    /\ (Ended ∉ acts) /\ aborts acts = 0%nat) as Hsame.
  { intros s' acts H1 H2 H3 H4 Ha. rewrite H4. split_and!; try done.
    - intros Hin. rewrite Forall_forall in Ha. by apply (Ha _ Hin).
    - clear -Ha. induction Ha as [|a acts Ha _ IH]; [done|]. by destruct a. }
  assert (step parse_path script p s EvLoop = (s, [])) as Hloop.
  { cbn [WsServe.step]. rewrite Hl. cbn. unfold push_request. rewrite Hq, decide_False; [done|]. rewrite Hlen. apply Nat.lt_irrefl. }
  destruct e as [m'| | | | | |id'|id'|id'|id'| | |ok]; cbn [WsServe.step]; rewrite ?Hsel; cbn [negb andb];
    try (apply Hsame; done || by repeat constructor).
  - cbn [WsServe.step] in Hloop. rewrite Hloop. apply Hsame; done || by repeat constructor.
  - destruct (find _ _) as [[i [|x rest] d]|]; try (apply Hsame; done || by repeat constructor).
    cbn zeta. destruct (push_outbound _ _ _) as [[s1 acts]|] eqn:Ep; cbn [default]; [|apply Hsame; done || by repeat constructor].
    apply push_outbound_spec in Ep as [(_ & -> & ->)|(_ & -> & ->)]; apply Hsame; done || by repeat constructor.
  - destruct (find _ _) as [[i x []]|]; apply Hsame; done || by repeat constructor.
  - destruct (requests s !! id') as [[|x c]|] eqn:Er; try (apply Hsame; done || by repeat constructor).
    cbn. rewrite lookup_insert_ne by congruence. split_and!; try done. by intros [Hx|Hx%elem_of_nil]%elem_of_cons.
  - cbn. rewrite lookup_delete_ne by congruence. split_and!; try done. apply not_elem_of_nil.
  - destruct (writer s), (outbound s); try (apply Hsame; done || by repeat constructor).
    destruct (senders_gone s); apply Hsame; done || by repeat constructor.
  - destruct (writer s); try (apply Hsame; done || by repeat constructor). destruct (keepalive p); apply Hsame; done || by repeat constructor.
  - destruct (writer s) as [|x| |]; try (apply Hsame; done || by repeat constructor);
      destruct ok; try destruct x; apply Hsame; done || by repeat constructor.
Qed.

Lemma stuck_step s e m : writer s = Busy m -> (forall ok, e <> EvWrite ok) ->
  let '(s', acts) := step parse_path script p s e in writer s' = Busy m /\ Ended ∉ acts.
Proof.
  intros Hw He.
  assert (forall s' acts, writer s' = writer s -> Forall (fun a => a <> Ended) acts -> writer s' = Busy m /\ Ended ∉ acts) as Hsame.
  { intros s' acts -> Ha. split; [done|]. intros Hin. rewrite Forall_forall in Ha. by apply (Ha _ Hin). }
  assert (forall s1, writer s1 = writer s -> let '(s', acts) := leave s1 in writer s' = Busy m /\ Ended ∉ acts) as Hleave.
  { intros s1 E. unfold leave. destruct (stream s1); apply Hsame; try done; by repeat constructor. }
  destruct e as [m'| | | | | |id'|id'|id'|id'| | |ok]; cbn [WsServe.step]; try (by apply Hsame; [|constructor]).
  - destruct (selecting s); [|by apply Hsame; [|constructor]]. cbn [negb]. destruct m' as [m'|]; [|by apply Hleave].
    assert (let '(c, o, f) := decode_locked (method_url p) (codec s) (opened s) m' in
      let '(s', acts) := match f with Some (fr, j) => handle_frame parse_path script p fr j (set_codec c o s) | None => (set_codec c o s, []) end in
      writer s' = Busy m /\ Ended ∉ acts) as Hd.
    { destruct (decode_locked _ _ _ _) as [[c o] [[f j]|]]; [|by apply Hsame; [|constructor]].
      pose proof (handle_frame_trans parse_path script p f j (set_codec c o s)) as Hf.
      destruct (handle_frame _ _ _ _ _ _) as [s' acts]. cbn [fst snd] in Hf.
      destruct Hf; apply Hsame; try done; try (by repeat constructor).
      unfold open_stream. cbn [snd]. apply Forall_app. split; [|by repeat constructor]. apply Forall_map, Forall_true. done. }
    destruct m'; try (by apply Hleave); by destruct (decode_locked _ _ _ _) as [[c o] f].
  - destruct (_ && _); [by apply Hleave|by apply Hsame; [|constructor]].
  - destruct (_ && _); [by apply Hleave|by apply Hsame; [|constructor]].
  - destruct (_ && _); by apply Hsame; [|constructor].
  - destruct (_ && _); [|by apply Hsame; [|constructor]]. destruct (stream _); by apply Hsame; [|constructor].
  - destruct (loop s) as [|q ps brk| |]; try (by apply Hsame; [|constructor]); [|rewrite Hw; by apply Hsame; [|constructor]].
    destruct (run_push q s) as [[s1 acts1]|] eqn:Ep; [|by apply Hsame; [|constructor]].
    destruct (resume_spec ps brk s1) as [(_ & Ew & _) Ha]. destruct (resume ps brk s1) as [s2 acts2]. cbn [fst snd] in *.
    apply Hsame.
    + rewrite Ew. destruct q as [x|id' x]; [apply push_outbound_spec in Ep|apply push_request_spec in Ep]; naive_solver.
    + apply Forall_app. split; [|eapply Forall_impl; [exact Ha|]; by intros [] ?].
      destruct q as [x|id' x]; [apply push_outbound_spec in Ep as [(_ & _ & ->)|(_ & _ & ->)]
        |apply push_request_spec in Ep as [(_ & _ & ->)|(? & _ & _ & ->)]]; by repeat constructor.
  - destruct (find _ _) as [[i [|x rest] d]|]; try (by apply Hsame; [|constructor]).
    cbn zeta. destruct (push_outbound _ _ _) as [[s1 acts]|] eqn:Ep; cbn [default]; [|by apply Hsame; [|constructor]].
    apply push_outbound_spec in Ep as [(_ & -> & ->)|(_ & -> & ->)]; apply Hsame; try done; by repeat constructor.
  - destruct (find _ _) as [[i x []]|]; by apply Hsame; [|constructor].
  - destruct (requests s !! id') as [[|x c]|]; apply Hsame; try done; by repeat constructor.
  - rewrite Hw. by apply Hsame; [|constructor].
  - rewrite Hw. by apply Hsame; [|constructor].
  - by destruct (He ok).
Qed.
End stalls.

(** C8: The keepalive does not cover a stalled backend. The read loop sends request messages
    inside an arm of its [select!]: once a stream's channel is full and the loop is in that
    send, then until the backend takes a message or drops the channel nothing else reaches the
    loop - not the keepalive deadline, not the end of the socket, not a reset, not a drain -
    and the connection and its stream stay as they are. *)
Theorem parked_reader_deaf {R : Reflect} {FC : FrameCodec R} (parse_path : str -> bool)
  (script : nat -> list TungMessage) (p : Params) (s : Conn) (id : nat) (m : bytes) (ps : list push) (brk : bool)
  (q : list bytes) (es : list event)
  (Hsending : loop s = Sending (ToRequest id m) ps brk)
  (Hfull : requests s !! id = Some q) (Hlen : length q = REQUEST_CAP)
  (Hstalled : Forall (fun e => e <> EvTake id /\ e <> EvReqDropped id) es) :
  let '(s', acts) := run_steps (step parse_path script p) s es in
  loop s' = loop s /\ stream s' = stream s /\ draining s' = draining s /\ requests s' !! id = Some q
  /\ (Ended ∉ acts) /\ aborts acts = 0%nat.
Proof.
  revert s Hsending Hfull. induction Hstalled as [|e es [Ht Hd] _ IH]; intros s Hl Hq.
  { cbn. split_and!; try done. apply not_elem_of_nil. }
  pose proof (deaf_step parse_path script p s e id m ps brk q Hl Hq Hlen Ht Hd) as Hs.
  cbn [run_steps]. destruct (step parse_path script p s e) as [s1 acts1]. destruct Hs as (E1 & E2 & E3 & E4 & E5 & E6).
  rewrite <- E1 in Hl. specialize (IH s1 Hl E4). destruct (run_steps _ s1 es) as [s2 acts2].
  destruct IH as (H1 & H2 & H3 & H4 & H5 & H6). rewrite aborts_app, E6, H6.
  split_and!; try congruence; try done. intros [Hin|Hin]%elem_of_app; auto.
Qed.

(** The join waits for the writer: a connection that has left its loop - its keepalive
    expired, say - while the writer is inside a write to a peer that stopped reading does not
    end until that write does, whatever else happens. *)
Theorem stuck_writer_holds {R : Reflect} {FC : FrameCodec R} (parse_path : str -> bool)
  (script : nat -> list TungMessage) (p : Params) (s : Conn) (m : TungMessage) (es : list event)
  (Hwriting : writer s = Busy m) (Hstuck : Forall (fun e => forall ok, e <> EvWrite ok) es) :
  let '(s', acts) := run_steps (step parse_path script p) s es in writer s' = Busy m /\ Ended ∉ acts.
Proof.
  revert s Hwriting. induction Hstuck as [|e es He _ IH]; intros s Hw.
  { cbn. split; [done|]. apply not_elem_of_nil. }
  pose proof (stuck_step parse_path script p s e m Hw He) as Hs. cbn [run_steps].
  destruct (step parse_path script p s e) as [s1 acts1]. destruct Hs as [E1 E2]. specialize (IH s1 E1).
  destruct (run_steps _ s1 es) as [s2 acts2]. destruct IH as [H1 H2]. split; [done|].
  intros [Hin|Hin]%elem_of_app; auto.
Qed.

(** ** Witnesses *)

Definition demo_params : Params := mkParams 100 true $"/p.S/M" (Some false) None.
Definition demo_subscribe : event := EvIncoming (Some (TBinary [x01])).
Definition demo_message : event := EvIncoming (Some (TBinary [x02; x41])).
(** A client that sends seventeen messages to a stream whose backend reads none. *)
Definition demo_flood : list event := demo_subscribe :: concat (repeat [demo_message; EvLoop] 17).
Abbreviation demo_run := (run_conn (R := Flat.reflect) (fun _ => true) (fun _ => [TBinary [x06]; close_normal]) demo_params).
Abbreviation demo_step := (step (R := Flat.reflect) (fun _ => true) (fun _ => [TBinary [x06]; close_normal]) demo_params).

Lemma stream_delivered_witness :
  let es := [demo_subscribe; EvTask 0; EvTask 0; EvRecv; EvWrite true; EvTick; EvWrite true; EvRecv; EvWrite true; EvTask 0; EvRecv; EvWrite true] in
  let answer : list TungMessage := [TBinary [x06]; TBinary [x04]; close_normal] in
  let conn := run_conn (R := Flat.reflect) (fun _ => true) (fun _ => answer) demo_params es in
  exists fs, stream_shape fs /\ written conn.2 = map (fun f => to_tung (R := Flat.reflect) f false) fs ++ [close_normal].
Proof.
  intros es answer conn.
  destruct (stream_delivered (H := AssocHttp.http) (T := AssocHttp.tonic) (R := Flat.reflect) (fun _ => true) (fun _ => answer)
    demo_params es 0 false (Err (mkTonicStatus Code.Unimplemented [])) None $"/p.S/M"
    (Ok ([], [BTrailers (H := AssocHttp.http) [($"grpc-status", $"0")]])) None) as (fs & Hfs & _ & Hall).
  - vm_compute. reflexivity.
  - vm_compute. repeat constructor.
  - exists fs. split; [exact Hfs|]. apply Hall. vm_compute. do 2 apply Exists_cons_tl. by apply Exists_cons_hd.
Defined.

Lemma send_completes_witness :
  let s := (demo_run demo_flood).1 in
  loop s = Sending (ToRequest 0 [x41]) [] false /\ loop (run_steps demo_step s [EvTake 0; EvLoop]).1 = Select.
Proof.
  intros s. assert (loop s = Sending (ToRequest 0 [x41]) [] false) as Hl by (vm_compute; reflexivity). split; [exact Hl|].
  exact (proj1 (send_completes (R := Flat.reflect) (fun _ => true) (fun _ => [TBinary [x06]; close_normal]) demo_params demo_flood
    (ToRequest 0 [x41]) [] false Hl)).
Defined.

(** The keepalive expires while the writer is inside a write. *)
Definition demo_leaving : list event := [demo_subscribe; EvTask 0; EvTask 0; EvRecv; EvKeepaliveExpired].

Lemma connection_finishes_witness :
  loop (demo_run demo_leaving).1 = Joining
  /\ loop (run_steps demo_step (demo_run demo_leaving).1 [EvWrite false; EvLoop]).1 = Finished.
Proof.
  assert (loop (demo_run demo_leaving).1 = Joining) as Hl by (vm_compute; reflexivity). split; [exact Hl|].
  assert (writer (demo_run demo_leaving).1 <> Idle) as Hi by (vm_compute; discriminate).
  destruct (connection_finishes (R := Flat.reflect) (fun _ => true) (fun _ => [TBinary [x06]; close_normal]) demo_params
    demo_leaving Hl) as [_ Hfin].
  exact (Hfin Hi).
Defined.

Lemma parked_reader_deaf_witness :
  let s := (demo_run demo_flood).1 in
  let s' := (run_steps demo_step s [EvKeepaliveExpired; EvDrain; EvIncoming None; EvLoop; EvTask 0; EvKeepaliveExpired]).1 in
  loop s' = Sending (ToRequest 0 [x41]) [] false.
Proof.
  intros s s'. assert (loop s = Sending (ToRequest 0 [x41]) [] false) as Hl by (vm_compute; reflexivity).
  assert (requests s !! 0%nat = Some (repeat [x41] 16)) as Hq by (vm_compute; reflexivity).
  pose proof (parked_reader_deaf (R := Flat.reflect) (fun _ => true) (fun _ => [TBinary [x06]; close_normal]) demo_params
    s 0 [x41] [] false (repeat [x41] 16) [EvKeepaliveExpired; EvDrain; EvIncoming None; EvLoop; EvTask 0; EvKeepaliveExpired]
    Hl Hq eq_refl ltac:(repeat (constructor; [split; discriminate|]); constructor)) as Hd.
  subst s'. destruct (run_steps _ _ _) as [s' acts]. rewrite <- Hl. apply Hd.
Defined.

Lemma stuck_writer_holds_witness :
  let s := (demo_run demo_leaving).1 in
  loop s = Joining /\ Ended ∉ (run_steps demo_step s [EvCancelled 0; EvRecv; EvLoop; EvTick]).2.
Proof.
  intros s. split; [vm_compute; reflexivity|].
  assert (writer s = Busy (TBinary [x06])) as Hw by (vm_compute; reflexivity).
  pose proof (stuck_writer_holds (R := Flat.reflect) (fun _ => true) (fun _ => [TBinary [x06]; close_normal]) demo_params
    s (TBinary [x06]) [EvCancelled 0; EvRecv; EvLoop; EvTick] Hw ltac:(repeat (constructor; [intros ?; discriminate|]); constructor)) as Hs.
  destruct (run_steps _ _ _) as [s' acts]. apply Hs.
Defined.
