(* ===== verification/WsTimers.v ===== *)
(** * The clocks of a WebSocket connection ([rust/crates/grpc-webnext/src/ws.rs], [serve])

    The connection of [WsServe] with its timers: the keepalive deadline, the ping ticker and
    the wait for an answered close. A timed event is an instant, in nanoseconds, and a step
    that happens then; the timers decide whether the step can. A message reaches the socket
    before the read loop reads it. *)
From S2P Require Import Prelude RustStd Http Metadata Framing Reflection HttpRule HttpBuild JsonFrame ClientStatus WsCodec WsStream WsServe WsQueues.

Definition CLOSE_GRACE : duration := from_secs 5.

(** [keepalive.map(|iv| iv + rt.cfg.ws_keepalive_timeout)] *)
Definition max_silence (ws_keepalive : option duration) (ws_keepalive_timeout : duration) : run (option duration) :=
  match ws_keepalive with
  | Some iv => d ← duration_add iv ws_keepalive_timeout; Done (Some d)
  | None => Done None
  end.

(** [keepalive_interval]: the first tick is a period out, and after a tick due at [d] that is
    taken at [t] the next is due at the next multiple of the period ([Skip]). *)
Definition keepalive_interval (now period : N) : N := now + period.
Definition following_tick (d period t : N) : N := d + period * ((t - d) / period + 1).

(** [sleep_until] and [next_tick]: whether they have resolved at [t]. *)
Definition due (deadline : option N) (t : N) : bool := match deadline with Some d => d <=? t | None => false end.

(** The local variables of [serve] that hold instants, and the socket's inbound side: what has
    arrived and was not read yet, and whether the stream ends after it. *)
Record Clocks : Type := mkClocks {
  now : N;
  deadline : option N;
  close_deadline : option N;
  ping : option N;
  inbox : list TungMessage;
  eof : bool
}.
Record Timed : Type := mkTimed { conn : Conn; clocks : Clocks }.

Inductive tevent : Type :=
| Arrive (m : TungMessage)
| HangUp
| Read          (** [ws_stream.next()] of the read loop *)
| Do (e : event).

(** What happens at an instant: a message is read, the keepalive or the close wait drops the
    connection, the close wait starts, and what the connection does. *)
Inductive tact : Type :=
| Got (m : TungMessage)
| Dropped
| GaveUp
| Armed
| Act (a : action).

Section timers.
Context {R : Reflect} {FC : FrameCodec R} (parse_path : str -> bool) (script : nat -> list TungMessage) (p : Params).
(** [ws_keepalive] and [max_silence] in nanoseconds, read only when [keepalive p]. *)
Context (period silence : N).
Abbreviation step := (WsServe.step parse_path script p).

Definition when_keepalive (t : N) : option N := if keepalive p then Some t else None.

(** The connection as [serve] sets it up at [t]. *)
Definition start (t : N) : Timed :=
  mkTimed (init p)
    (mkClocks t (when_keepalive (t + silence)) None (when_keepalive (keepalive_interval t period)) [] false).

Definition at_instant (t : N) (c : Clocks) : Clocks :=
  mkClocks t (deadline c) (close_deadline c) (ping c) (inbox c) (eof c).

(** The connection's own step, at [t]. *)
Definition act (t : N) (e : event) (s : Timed) : Timed * list (N * tact) :=
  let '(conn', acts) := step (conn s) e in (mkTimed conn' (clocks s), map (fun a => (t, Act a)) acts).

Definition tstep (s : Timed) (te : N * tevent) : Timed * list (N * tact) :=
  let '(t, e) := te in
  if t <? now (clocks s) then (s, []) else
  let c := at_instant t (clocks s) in
  let s := mkTimed (conn s) c in
  match e with
  | Arrive m =>
      if eof c then (s, [])
      else (mkTimed (conn s) (mkClocks t (deadline c) (close_deadline c) (ping c) (inbox c ++ [m]) false), [])
  | HangUp => (mkTimed (conn s) (mkClocks t (deadline c) (close_deadline c) (ping c) (inbox c) true), [])
  | Read =>
      if negb (selecting (conn s)) then (s, []) else
      match inbox c with
      | m :: rest =>
          let s := mkTimed (conn s) (mkClocks t (when_keepalive (t + silence)) (close_deadline c) (ping c) rest (eof c)) in
          let '(s, acts) := act t (EvIncoming (Some m)) s in (s, (t, Got m) :: acts)
      | [] => if eof c then act t (EvIncoming None) s else (s, [])
      end
  | Do (EvIncoming _) => (s, [])
  | Do EvKeepaliveExpired =>
      if selecting (conn s) && due (deadline c) t then
        let '(s, acts) := act t EvKeepaliveExpired s in (s, (t, Dropped) :: acts)
      else (s, [])
  | Do EvCloseExpired =>
      if selecting (conn s) && due (close_deadline c) t then
        let '(s, acts) := act t EvCloseExpired s in (s, (t, GaveUp) :: acts)
      else (s, [])
  | Do EvClosedSignal =>
      if selecting (conn s) && closed_signal (conn s) && negb (close_armed (conn s)) then
        let s := mkTimed (conn s) (mkClocks t (deadline c) (Some (t + as_nanos CLOSE_GRACE)) (ping c) (inbox c) (eof c)) in
        let '(s, acts) := act t EvClosedSignal s in (s, (t, Armed) :: acts)
      else (s, [])
  | Do EvTick =>
      match writer (conn s), ping c with
      | Idle, Some d =>
          if d <=? t then
            act t EvTick (mkTimed (conn s)
              (mkClocks t (deadline c) (close_deadline c) (Some (following_tick d period t)) (inbox c) (eof c)))
          else (s, [])
      | _, _ => (s, [])
      end
  | Do e => act t e s
  end.

Definition run_timed (t : N) (es : list (N * tevent)) : Timed * list (N * tact) := run_steps tstep (start t) es.
End timers.

(** ** The trace *)

(** What of a trace is the connection's, when messages were read, and when pings were written. *)
Definition untimed (acts : list (N * tact)) : list action :=
  omap (fun x => match x.2 with Act a => Some a | _ => None end) acts.
Definition reads (acts : list (N * tact)) : list N :=
  omap (fun x => match x.2 with Got _ => Some x.1 | _ => None end) acts.
Definition pings (acts : list (N * tact)) : list N :=
  omap (fun x => match x.2 with Act Pinged => Some x.1 | _ => None end) acts.
Definition last_read (t0 : N) (acts : list (N * tact)) : N := default t0 (last (reads acts)).

Lemma untimed_app a b : untimed (a ++ b) = untimed a ++ untimed b.
Proof. apply omap_app. Qed.
Lemma untimed_acts t acts : untimed (map (fun a => (t, Act a)) acts) = acts.
Proof. unfold untimed. induction acts as [|a acts IH]; [done|]. cbn. by f_equal. Qed.
Lemma reads_app a b : reads (a ++ b) = reads a ++ reads b.
Proof. apply omap_app. Qed.
Lemma reads_acts t acts : reads (map (fun a => (t, Act a)) acts) = [].
Proof. unfold reads. by induction acts. Qed.

Lemma max_silence_nanos iv timeout d : max_silence (Some iv) timeout = Done (Some d) -> as_nanos d = as_nanos iv + as_nanos timeout.
Proof.
  unfold max_silence, duration_add. destruct (_ <? two64); [|done]. cbn [mbind run_bind]. intros [= <-]. unfold as_nanos. cbn.
  destruct (N.ltb_spec (nanos iv + nanos timeout) 1000000000); cbn; lia.
Qed.

Lemma following_tick_spec d period t : 0 < period -> d <= t ->
  t < following_tick d period t <= t + period /\ exists k, following_tick d period t = d + period * (k + 1).
Proof.
  intros Hp Hd. unfold following_tick. pose proof (N.div_mod' (t - d) period). pose proof (N.mod_lt (t - d) period ltac:(lia)).
  split; [|by eexists]. rewrite N.mul_add_distr_l, N.mul_1_r.
  generalize dependent (period * ((t - d) / period)). generalize dependent ((t - d) mod period). lia.
Qed.

(** ** The timed step as a relation *)

Section facts.
Context {R : Reflect} {FC : FrameCodec R} (parse_path : str -> bool) (script : nat -> list TungMessage) (p : Params).
Context (period silence : N).
Abbreviation step := (WsServe.step parse_path script p).
Abbreviation tstep := (WsTimers.tstep parse_path script p period silence).
Abbreviation when_keepalive := (WsTimers.when_keepalive p).

(** What the timers do in a step at [t] that takes [s] to clocks [c] with the connection's
    events [es]. *)
Inductive head (s : Timed) (t : N) (c : Clocks) : list event -> list (N * tact) -> Prop :=
| H_quiet es : deadline c = deadline (clocks s) -> close_deadline c = close_deadline (clocks s) ->
    (length es <= 1)%nat -> head s t c es []
| H_got m : selecting (conn s) = true -> deadline c = when_keepalive (t + silence) ->
    close_deadline c = close_deadline (clocks s) -> head s t c [EvIncoming (Some m)] [(t, Got m)]
| H_dropped : selecting (conn s) = true -> due (deadline (clocks s)) t = true -> deadline c = deadline (clocks s) ->
    close_deadline c = close_deadline (clocks s) -> head s t c [EvKeepaliveExpired] [(t, Dropped)]
| H_gave_up : selecting (conn s) = true -> due (close_deadline (clocks s)) t = true -> deadline c = deadline (clocks s) ->
    close_deadline c = close_deadline (clocks s) -> head s t c [EvCloseExpired] [(t, GaveUp)]
| H_armed : selecting (conn s) = true -> closed_signal (conn s) = true -> close_armed (conn s) = false ->
    deadline c = deadline (clocks s) -> close_deadline c = Some (t + as_nanos CLOSE_GRACE) ->
    head s t c [EvClosedSignal] [(t, Armed)].

Inductive ttrans (s : Timed) : list (N * tact) -> Timed -> Prop :=
| TT_past : ttrans s [] s
| TT_step t c es hd : now (clocks s) <= t -> now c = t -> head s t c es hd ->
    ttrans s (hd ++ map (fun a => (t, Act a)) (run_steps step (conn s) es).2)
      (mkTimed (run_steps step (conn s) es).1 c).

Lemma run_one s e : run_steps step s [e] = step s e.
Proof. cbn. destruct (step s e). by rewrite app_nil_r. Qed.

Lemma act_trans s t c e hd : now (clocks s) <= t -> now c = t -> head s t c [e] hd ->
  let '(s', acts) := act parse_path script p t e (mkTimed (conn s) c) in ttrans s (hd ++ acts) s'.
Proof.
  intros Hn Hc Hh. unfold act. cbn [conn clocks]. pose proof (TT_step s t c [e] hd Hn Hc Hh) as Ht.
  rewrite run_one in Ht. by destruct (step (conn s) e).
Qed.
Lemma idle_trans s t c : now (clocks s) <= t -> now c = t -> deadline c = deadline (clocks s) ->
  close_deadline c = close_deadline (clocks s) -> ttrans s [] (mkTimed (conn s) c).
Proof. intros Hn Hc Hd Hcd. apply (TT_step s t c [] []); [done..|]. by apply H_quiet; [| |cbn; lia]. Qed.

Lemma tstep_trans s te : ttrans s (tstep s te).2 (tstep s te).1.
Proof.
  destruct te as [t e]. unfold WsTimers.tstep. destruct (N.ltb_spec t (now (clocks s))) as [|Hn]; [constructor|].
  cbv zeta. cbn [at_instant conn clocks deadline close_deadline ping inbox eof].
  assert (forall e', let '(s', acts) := act parse_path script p t e' (mkTimed (conn s) (at_instant t (clocks s))) in ttrans s acts s') as Hact.
  { intros e'. apply (act_trans s t _ e' []); [done|done|]. by apply H_quiet; [| |cbn; lia]. }
  assert (forall b e' x, (b = true -> head s t (at_instant t (clocks s)) [e'] [x]) ->
    let r := if b then let '(s', acts) := act parse_path script p t e' (mkTimed (conn s) (at_instant t (clocks s))) in (s', x :: acts)
             else (mkTimed (conn s) (at_instant t (clocks s)), []) in ttrans s r.2 r.1) as Hif.
  { intros b e' x Hh r. destruct b; [|by apply (idle_trans s t)]. pose proof (act_trans s t (at_instant t (clocks s)) e' [x] Hn eq_refl (Hh eq_refl)) as Ht.
    subst r. by destruct (act _ _ _ _ _ _). }
  destruct e as [m| | |e].
  - destruct (eof (clocks s)); by apply (idle_trans s t).
  - by apply (idle_trans s t).
  - destruct (selecting (conn s)) eqn:Hsel; cbn [negb]; [|by apply (idle_trans s t)]. destruct (inbox (clocks s)) as [|m rest].
    + destruct (eof (clocks s)); [|by apply (idle_trans s t)]. specialize (Hact (EvIncoming None)). by destruct (act _ _ _ _ _ _).
    + pose proof (act_trans s t (mkClocks t (when_keepalive (t + silence)) (close_deadline (clocks s)) (ping (clocks s)) rest (eof (clocks s)))
        (EvIncoming (Some m)) [(t, Got m)] Hn eq_refl ltac:(by apply H_got)) as Ht. by destruct (act _ _ _ _ _ _).
  - destruct e; try (match goal with |- ttrans _ (act _ _ _ _ ?e' _).2 _ => specialize (Hact e'); by destruct (act _ _ _ _ _ _) end).
    + by apply (idle_trans s t).
    + apply Hif. intros [Hs Hd]%andb_prop. by apply H_dropped.
    + apply Hif. intros [Hs Hd]%andb_prop. by apply H_gave_up.
    + destruct (selecting (conn s) && closed_signal (conn s) && negb (close_armed (conn s))) eqn:Hb; [|by apply (idle_trans s t)].
      apply andb_prop in Hb as [[Hs Hc]%andb_prop Ha%negb_true_iff].
      pose proof (act_trans s t (mkClocks t (deadline (clocks s)) (Some (t + as_nanos CLOSE_GRACE)) (ping (clocks s)) (inbox (clocks s)) (eof (clocks s)))
        EvClosedSignal [(t, Armed)] Hn eq_refl ltac:(by apply H_armed)) as Ht. by destruct (act _ _ _ _ _ _).
    + destruct (writer (conn s)); try (by apply (idle_trans s t)). destruct (ping (clocks s)) as [d|]; [|by apply (idle_trans s t)].
      destruct (d <=? t); [|by apply (idle_trans s t)].
      pose proof (act_trans s t (mkClocks t (deadline (clocks s)) (close_deadline (clocks s)) (Some (following_tick d period t)) (inbox (clocks s)) (eof (clocks s)))
        EvTick [] Hn eq_refl ltac:(by apply H_quiet; [| |cbn; lia])) as Ht. by destruct (act _ _ _ _ _ _).
Qed.

(** The loop is over. *)
Definition past (s : Conn) : Prop := loop s = Joining \/ loop s = Finished.

Lemma past_step s e : past s -> past (step s e).1.
Proof.
  pose proof (step_trans parse_path script p s e) as Ht. destruct (step s e) as [s' acts]. cbn [fst snd] in *.
  unfold past. intros Hl.
  destruct Ht as [|m c o Hs|m c o f j acts' s' Hs|Hs|Hs|st Hs|Hs|q ps brk s1 acts' Hs| |t m rest s1 acts' Hin Htd Ep| | | | | | | | | |];
    try (rewrite Hs in Hl; by destruct Hl); try done; [by right|].
  apply push_outbound_spec in Ep as [(_ & -> & _)|(_ & -> & _)]; exact Hl.
Qed.
Lemma past_run s es : past s -> past (run_steps step s es).1.
Proof. apply run_steps_inv. apply past_step. Qed.
Lemma past_selecting s : past s -> selecting s = false.
Proof. unfold past, selecting. by intros [-> | ->]. Qed.
Lemma leave_past s : past (leave s).1.
Proof. left. unfold leave. by destruct (stream s). Qed.

Lemma armed_step s e : close_armed s = true -> close_armed (step s e).1 = true.
Proof.
  pose proof (step_trans parse_path script p s e) as Ht. destruct (step s e) as [s' acts]. cbn [fst snd] in *. intros Ha.
  destruct Ht as [| |m c o f j acts s' Hs Hd Hf|Hs| | | |q ps brk s1 acts Hs Ep| |t m rest s1 acts Hin Htd Ep| | | | | | | | | |]; try done.
  - by destruct Hf.
  - unfold leave. by destruct (stream s).
  - assert (close_armed s1 = true) as Ha1.
    { destruct q; cbn [run_push] in Ep; [apply push_outbound_spec in Ep as [(_ & -> & _)|(_ & -> & _)]
        |apply push_request_spec in Ep as [(_ & -> & _)|(? & _ & -> & _)]]; done. }
    unfold resume, leave. destruct ps; [|done]. destruct brk; [by destruct (stream s1)|done].
  - apply push_outbound_spec in Ep as [(_ & -> & _)|(_ & -> & _)]; exact Ha.
Qed.
Lemma armed_run s es : close_armed s = true -> close_armed (run_steps step s es).1 = true.
Proof. apply (run_steps_inv step (fun s => close_armed s = true)). apply armed_step. Qed.
End facts.

Section traces.
Context {R : Reflect} {FC : FrameCodec R} (parse_path : str -> bool) (script : nat -> list TungMessage) (p : Params).
Context (period silence t0 : N).
Abbreviation step := (WsServe.step parse_path script p).
Abbreviation tstep := (WsTimers.tstep parse_path script p period silence).
Abbreviation head := (WsTimers.head p silence).
Abbreviation last_read := (WsTimers.last_read t0).

Definition timer (x : tact) : Prop := match x with Act _ => False | _ => True end.

(** The timer's part of a step's trace is its first item, if any. *)
Lemma head_split s t c es hd acts o1 t' x o2 :
  head s t c es hd -> hd ++ map (fun a => (t, Act a)) acts = o1 ++ (t', x) :: o2 -> timer x ->
  o1 = [] /\ hd = [(t', x)].
Proof.
  intros Hh E Hx.
  assert (forall o, map (fun a => (t, Act a)) acts = o ++ (t', x) :: o2 -> False) as Hno.
  { intros o Ho. assert ((t', x) ∈ map (fun a => (t, Act a)) acts) as Hin by (rewrite Ho; set_solver).
    apply list_elem_of_fmap in Hin as (a & [= -> ->] & _). done. }
  destruct hd as [|y hd].
  { by destruct (Hno _ E). }
  assert (hd = []) as -> by (by inversion Hh). destruct o1 as [|z o1]; [by injection E as -> _|].
  injection E as _ E. by destruct (Hno _ E).
Qed.

(** The trace against the state. *)
Record traced (acts : list (N * tact)) (s : Timed) : Prop := mkTraced {
  tr_deadline : deadline (clocks s) = when_keepalive p (last_read acts + silence);
  tr_close : forall d, close_deadline (clocks s) = Some d ->
    close_armed (conn s) = true /\ exists a, (a, Armed) ∈ acts /\ d = a + as_nanos CLOSE_GRACE;
  tr_now : t0 <= last_read acts <= now (clocks s) /\ Forall (fun r => r <= last_read acts) (reads acts);
  tr_times : Forall (fun x => x.1 <= now (clocks s)) acts;
  tr_past : forall x, x ∈ acts -> x.2 = Dropped \/ x.2 = GaveUp -> past (conn s);
  tr_dropped : forall a1 t a2, acts = a1 ++ (t, Dropped) :: a2 ->
    keepalive p = true /\ reads acts = reads a1 /\ last_read a1 + silence <= t;
  tr_gave_up : forall a1 t a2, acts = a1 ++ (t, GaveUp) :: a2 ->
    exists a, (a, Armed) ∈ a1 /\ a + as_nanos CLOSE_GRACE <= t
}.

Lemma last_read_app acts outs : last_read (acts ++ outs) = default (last_read acts) (last (reads outs)).
Proof. unfold WsTimers.last_read. rewrite reads_app, last_app. by destruct (last (reads outs)). Qed.

Lemma head_reads s t c es hd acts : head s t c es hd ->
  reads (hd ++ map (fun a => (t, Act a)) acts) = match hd with [(_, Got _)] => [t] | _ => [] end.
Proof. intros Hh. rewrite reads_app, reads_acts, app_nil_r. by inversion Hh. Qed.

Lemma head_drop s t c es t' x : head s t c es [(t', x)] -> x = Dropped \/ x = GaveUp ->
  (es = [EvKeepaliveExpired] /\ selecting (conn s) = true /\ due (deadline (clocks s)) t = true)
  \/ (es = [EvCloseExpired] /\ selecting (conn s) = true /\ due (close_deadline (clocks s)) t = true).
Proof. intros Hh Hx. inversion Hh; subst; auto; by destruct Hx. Qed.

Lemma due_spec d t : due d t = true <-> exists n, d = Some n /\ n <= t.
Proof. unfold due. destruct d as [n|]; [|split; [done|by intros (? & ? & _)]]. rewrite N.leb_le. naive_solver. Qed.

Lemma split_trace {A} (acts outs a1 : list A) x a2 : acts ++ outs = a1 ++ x :: a2 ->
  (exists k, acts = a1 ++ x :: k) \/ (exists o1, a1 = acts ++ o1 /\ outs = o1 ++ x :: a2).
Proof.
  intros [(k & -> & Hk)|(k & -> & Hk)]%app_eq_inv; [|right; by exists k].
  destruct k as [|y k]; [right; exists []; rewrite !app_nil_r; split; [done|by rewrite Hk]|left]. injection Hk as <- _. by exists k.
Qed.

Lemma traced_step acts s te : traced acts s -> traced (acts ++ (tstep s te).2) (tstep s te).1.
Proof.
  intros Ht. pose proof (tstep_trans parse_path script p period silence s te) as Hs.
  destruct (tstep s te) as [s' outs]. cbn [fst snd] in *. destruct Hs as [|t c es hd Hn Hc Hh]; [by rewrite app_nil_r|].
  set (cacts := (run_steps step (conn s) es).2). set (outs := hd ++ map (fun a => (t, Act a)) cacts).
  assert (forall o1 t' x o2, outs = o1 ++ (t', x) :: o2 -> timer x -> o1 = [] /\ hd = [(t', x)]) as Hsplit
    by (intros; by eapply head_split).
  pose proof (head_reads s t c es hd cacts Hh) as Hreads. fold outs in Hreads.
  assert (past (conn s) -> reads outs = []) as Hquiet.
  { intros Hp. rewrite Hreads. destruct Hh as [|m Hsel| | |]; try done. by rewrite past_selecting in Hsel. }
  destruct Ht as [Hd Hcl [Hlr Hle] Htm Hp Hdr Hgu]. constructor; cbn [conn clocks].
  - rewrite last_read_app, Hreads. destruct Hh; cbn; congruence.
  - intros d Hcd. destruct Hh as [es Hd' Hc' _|m Hs Hd' Hc'|Hs Hdue Hd' Hc'|Hs Hdue Hd' Hc'|Hs Hsig Ha Hd' Hc']; rewrite Hc' in Hcd.
    all: try (destruct (Hcl d Hcd) as (Harm & a & Hin & ->); split; [by apply armed_run|exists a; split; [set_solver|done]]).
    injection Hcd as <-. split; [|exists t; split; [unfold outs; set_solver|done]].
    rewrite run_one. cbn [WsServe.step]. by rewrite Hs, Hsig, Ha.
  - rewrite last_read_app, reads_app, Hreads, Hc. destruct Hh; cbn;
      try (split; [lia|rewrite app_nil_r; done]). split; [lia|]. apply Forall_app. split; [|by constructor].
    eapply Forall_impl; [exact Hle|]. cbn. intros r Hr. lia.
  - apply Forall_app. split; [eapply Forall_impl; [exact Htm|]; cbn; intros x Hx; lia|].
    unfold outs. apply Forall_app. split; [inversion Hh; repeat constructor; cbn; lia|].
    apply Forall_map, Forall_true. intros a. cbn. lia.
  - intros x Hin Hx. apply elem_of_app in Hin as [Hin|Hin]; [by apply past_run, (Hp x)|].
    assert (timer x.2) as Htx by (by destruct Hx as [-> | ->]). apply list_elem_of_split in Hin as (o1 & o2 & Ho).
    destruct x as [t' x]. destruct (Hsplit o1 t' x o2 Ho Htx) as [_ ->]. cbn in Hx.
    destruct (head_drop _ _ _ _ _ _ Hh Hx) as [(-> & Hs & Hdue)|(-> & Hs & Hdue)]; rewrite run_one; cbn [WsServe.step]; rewrite Hs.
    + apply due_spec in Hdue as (n & Hn' & _). rewrite Hd in Hn'. unfold when_keepalive in Hn'.
      destruct (keepalive p); [|done]. apply leave_past.
    + apply due_spec in Hdue as (n & Hn' & _). destruct (Hcl n Hn') as [-> _]. apply leave_past.
  - intros a1 t' a2 [(k & Hk)|(o1 & -> & Ho)]%split_trace.
    + destruct (Hdr a1 t' k Hk) as (Hka & Hra & Hta). rewrite reads_app, Hquiet, app_nil_r; [done|].
      apply (Hp (t', Dropped)); [rewrite Hk; set_solver|by left].
    + destruct (Hsplit o1 t' Dropped a2 Ho Logic.I) as [-> ->]. rewrite app_nil_r.
      inversion Hh as [| |Hs Hdue Hd' Hc'| |]; subst. rewrite reads_app, Hreads, app_nil_r.
      apply due_spec in Hdue as (n & Hn' & Hle'). rewrite Hd in Hn'. unfold when_keepalive in Hn'.
      destruct (keepalive p); [|done]. by injection Hn' as <-.
  - intros a1 t' a2 [(k & Hk)|(o1 & -> & Ho)]%split_trace; [by apply (Hgu a1 t' k)|].
    destruct (Hsplit o1 t' GaveUp a2 Ho Logic.I) as [-> ->]. rewrite app_nil_r.
    inversion Hh as [| | |Hs Hdue Hd' Hc'|]; subst. apply due_spec in Hdue as (n & Hn' & Hle').
    destruct (Hcl n Hn') as (_ & a & Hin & ->). by exists a.
Qed.

Lemma traced_run es : let '(s, acts) := run_timed parse_path script p period silence t0 es in traced acts s.
Proof.
  pose proof (run_steps_trace tstep traced (start p period silence t0) es []) as Hr. cbn [app] in Hr.
  unfold run_timed. destruct (run_steps _ _ _) as [s acts]. apply Hr; [intros; by apply traced_step|].
  constructor; cbn; try done.
  - by intros x ?%elem_of_nil.
  - by intros [].
  - by intros [].
Qed.
End traces.

(** ** Properties *)

(** The timed connection is the untimed one: every run with clocks is a run of [WsServe], with
    the same state and the same actions, so what holds of all of those holds of it. *)
Theorem timed_refines {R : Reflect} {FC : FrameCodec R} (parse_path : str -> bool) (script : nat -> list TungMessage)
  (p : Params) (period silence t0 : N) (es : list (N * tevent)) :
  let '(s, acts) := run_timed parse_path script p period silence t0 es in
  exists es', run_conn parse_path script p es' = (conn s, untimed acts).
Proof.
  pose proof (run_steps_trace (tstep parse_path script p period silence)
    (fun acts s => exists es', run_conn parse_path script p es' = (conn s, untimed acts))
    (start p period silence t0) es []) as Hr. cbn [app] in Hr.
  unfold run_timed. destruct (run_steps _ _ _) as [s acts]. apply Hr; [|by exists []].
  clear. intros acts s te (es' & He). pose proof (tstep_trans parse_path script p period silence s te) as Ht.
  destruct (tstep _ _ _ _ _ _ _) as [s' outs]. cbn [fst snd] in *. destruct Ht as [|t c es hd _ _ Hh].
  { rewrite app_nil_r. by exists es'. }
  exists (es' ++ es). unfold run_conn in *. rewrite run_steps_app, He, !untimed_app, untimed_acts. cbn [conn].
  assert (untimed hd = []) as -> by (by inversion Hh). by destruct (run_steps _ (conn s) es).
Qed.

(** C5: The keepalive is exact. In every timed run: the deadline is the last read message's
    instant (or the start's) plus the longest silence tolerated; the connection is dropped for
    keepalive only when it is enabled and nothing was read for that long, and reads nothing
    after; and a loop that is waiting is dropped at any instant from the deadline on. *)
Theorem keepalive_exact {R : Reflect} {FC : FrameCodec R} (parse_path : str -> bool) (script : nat -> list TungMessage)
  (p : Params) (period silence t0 : N) (es : list (N * tevent)) :
  let '(s, acts) := run_timed parse_path script p period silence t0 es in
  deadline (clocks s) = when_keepalive p (last_read t0 acts + silence)
  /\ (forall a1 t a2, acts = a1 ++ (t, Dropped) :: a2 ->
        keepalive p = true /\ last_read t0 a1 + silence <= t /\ reads a2 = [])
  /\ (forall t, now (clocks s) <= t -> selecting (conn s) = true -> keepalive p = true -> last_read t0 acts + silence <= t ->
        let '(s', acts') := tstep parse_path script p period silence s (t, Do EvKeepaliveExpired) in
        (t, Dropped) ∈ acts' /\ loop (conn s') = Joining).
Proof.
  pose proof (traced_run parse_path script p period silence t0 es) as Ht.
  destruct (run_timed _ _ _ _ _ _ _) as [s acts]. destruct Ht as [Hd _ _ _ _ Hdr _]. split; [done|]. split.
  - intros a1 t a2 Ha. destruct (Hdr a1 t a2 Ha) as (Hk & Hr & Hs). split; [done|]. split; [done|].
    rewrite Ha, reads_app in Hr. cbn in Hr. rewrite <- (app_nil_r (reads a1)) in Hr at 2. by apply app_inv_head in Hr.
  - intros t Hn Hsel Hk Hs. unfold tstep. destruct (N.ltb_spec t (now (clocks s))); [lia|]. cbn [conn at_instant deadline clocks].
    assert (due (deadline (clocks s)) t = true) as ->.
    { apply due_spec. rewrite Hd. unfold when_keepalive. rewrite Hk. by eexists. }
    rewrite Hsel. cbn [andb]. unfold act. cbn [conn clocks]. cbn [WsServe.step]. rewrite Hsel, Hk. cbn [andb].
    unfold leave. destruct (stream (conn s)); cbn; (split; [by left|done]).
Qed.

(** C6: A peer that answers its pings is kept. With the configured ping period and
    acknowledgement timeout, take a run whose pings go out at most [lag] late of their
    period, and in which a message is read within [reply] after each, [lag] and [reply]
    together within the timeout. Then the connection is never dropped for keepalive. *)
Theorem live_peer_kept {R : Reflect} {FC : FrameCodec R} (parse_path : str -> bool) (script : nat -> list TungMessage)
  (p : Params) (iv timeout silence : duration) (lag reply t0 : N) (es : list (N * tevent))
  (Hsilence : max_silence (Some iv) timeout = Done (Some silence)) (Hbudget : lag + reply <= as_nanos timeout) :
  let period := as_nanos iv in
  let '(s, acts) := run_timed parse_path script p period (as_nanos silence) t0 es in
  (forall t, t0 + period + lag <= t <= now (clocks s) -> exists u, u ∈ pings acts /\ u <= t /\ t < u + period + lag) ->
  (forall u, u ∈ pings acts -> u + reply <= now (clocks s) -> exists r, r ∈ reads acts /\ u <= r <= u + reply) ->
  forall t, (t, Dropped) ∉ acts.
Proof.
  intros period. apply max_silence_nanos in Hsilence. fold period in Hsilence.
  pose proof (traced_run parse_path script p period (as_nanos silence) t0 es) as Ht.
  destruct (run_timed _ _ _ _ _ _ _) as [s acts]. intros Hpings Hreplies t Hin.
  destruct Ht as [_ _ [Hlr Hle] Htm _ Hdr _]. rewrite Forall_forall in Hle. rewrite Forall_forall in Htm.
  pose proof (Htm _ Hin) as Hnow. cbn in Hnow. apply list_elem_of_split in Hin as (a1 & a2 & Ha).
  destruct (Hdr a1 t a2 Ha) as (_ & Hr & Hs).
  assert (last_read t0 acts + as_nanos silence <= t) as Hlast by (unfold last_read in *; by rewrite Hr).
  destruct (N.lt_ge_cases (t - reply) (t0 + period + lag)) as [Hlt|Hge]; [lia|].
  destruct (Hpings (t - reply)) as (u & Hu & Hle1 & Hlt1); [lia|].
  destruct (Hreplies u Hu) as (r & Hr' & Hle2 & _); [lia|]. specialize (Hle r Hr'). lia.
Qed.

(** The wait for an answered close is exact: it starts when the loop sees that a close went
    out, gives up no earlier than [CLOSE_GRACE] after that, and a waiting loop gives up at any
    instant from then on. *)
Theorem close_wait_exact {R : Reflect} {FC : FrameCodec R} (parse_path : str -> bool) (script : nat -> list TungMessage)
  (p : Params) (period silence t0 : N) (es : list (N * tevent)) :
  let '(s, acts) := run_timed parse_path script p period silence t0 es in
  (forall a1 t a2, acts = a1 ++ (t, GaveUp) :: a2 -> exists a, (a, Armed) ∈ a1 /\ a + as_nanos CLOSE_GRACE <= t)
  /\ (forall d, close_deadline (clocks s) = Some d -> exists a, (a, Armed) ∈ acts /\ d = a + as_nanos CLOSE_GRACE)
  /\ (forall t d, now (clocks s) <= t -> selecting (conn s) = true -> close_deadline (clocks s) = Some d -> d <= t ->
        let '(s', acts') := tstep parse_path script p period silence s (t, Do EvCloseExpired) in
        (t, GaveUp) ∈ acts' /\ loop (conn s') = Joining).
Proof.
  pose proof (traced_run parse_path script p period silence t0 es) as Ht.
  destruct (run_timed _ _ _ _ _ _ _) as [s acts]. destruct Ht as [_ Hcl _ _ _ _ Hgu]. split; [done|]. split.
  - intros d Hd. by destruct (Hcl d Hd).
  - intros t d Hn Hsel Hd Hle. unfold tstep. destruct (N.ltb_spec t (now (clocks s))); [lia|].
    cbn [conn at_instant close_deadline clocks].
    assert (due (close_deadline (clocks s)) t = true) as -> by (apply due_spec; by exists d).
    rewrite Hsel. cbn [andb]. unfold act. cbn [conn clocks]. cbn [WsServe.step]. destruct (Hcl d Hd) as [-> _]. rewrite Hsel. cbn [andb].
    unfold leave. destruct (stream (conn s)); cbn; (split; [by left|done]).
Qed.

(** C7: Back-pressure can make the server drop a peer that answers. The deadline moves only
    when the loop reads: a loop that waits to feed a stalled backend reads nothing. Whenever it
    is in that send past its deadline, then whatever the peer has sent in between, an instant
    after the backend takes one message the keepalive can drop the connection with all of it
    unread. *)
Theorem responsive_peer_dropped {R : Reflect} {FC : FrameCodec R} (parse_path : str -> bool) (script : nat -> list TungMessage)
  (p : Params) (period silence : N) (s : Timed) (id : nat) (payload x : bytes) (q : list bytes) (d t : N) (ms : list TungMessage)
  (Hparked : loop (conn s) = Sending (ToRequest id payload) [] false)
  (Hfull : requests (conn s) !! id = Some (x :: q)) (Hroom : (length q < REQUEST_CAP)%nat)
  (Hkeep : keepalive p = true) (Hdeadline : deadline (clocks s) = Some d) (Hopen : eof (clocks s) = false)
  (Hnow : now (clocks s) <= t) (Hlate : d <= t) :
  let arrivals := map (fun m => (t, Arrive m)) ms in
  let '(s', acts) := run_steps (tstep parse_path script p period silence) s
    (arrivals ++ [(t, Do (EvTake id)); (t, Do EvLoop); (t, Do EvKeepaliveExpired)]) in
  inbox (clocks s') = inbox (clocks s) ++ ms /\ (t, Dropped) ∈ acts /\ loop (conn s') = Joining.
Proof.
  intros arrivals. rewrite run_steps_app.
  assert (exists acts, run_steps (tstep parse_path script p period silence) s arrivals = 
    (mkTimed (conn s) (mkClocks (if ms is [] then now (clocks s) else t) (Some d) (close_deadline (clocks s)) (ping (clocks s))
       (inbox (clocks s) ++ ms) false), acts)) as (acts & ->).
  { subst arrivals. clear Hparked Hfull. revert s Hdeadline Hopen Hnow. induction ms as [|m ms IH]; intros s Hd Ho Hn.
    - exists []. cbn. rewrite app_nil_r. destruct s as [c [n dl cd pg ib e]]. cbn in *. by subst.
    - cbn [map run_steps]. unfold tstep at 1. destruct (N.ltb_spec t (now (clocks s))); [lia|]. cbv zeta.
      cbn [eof at_instant clocks conn deadline close_deadline ping inbox]. rewrite Ho, Hd.
      match goal with |- context [run_steps _ ?s1 _] => destruct (IH s1 eq_refl eq_refl) as (acts & ->); [cbn; lia|] end.
      exists acts. cbn. rewrite <- app_assoc. by destruct ms. }
  assert (forall n dl cd pg ib c e c' acts', n <= t -> step parse_path script p c e = (c', acts') ->
    match e with EvTake _ | EvLoop => True | _ => False end ->
    tstep parse_path script p period silence (mkTimed c (mkClocks n dl cd pg ib false)) (t, Do e)
    = (mkTimed c' (mkClocks t dl cd pg ib false), map (fun a => (t, Act a)) acts')) as Hdo.
  { intros n dl cd pg ib c e c' acts' Hn Hs He. unfold tstep. cbn [clocks now].
    destruct (N.ltb_spec t n); [lia|]. by destruct e; try done; unfold act; cbn [conn clocks]; rewrite Hs. }
  cbn [run_steps]. erewrite Hdo; [|by destruct ms|cbn [WsServe.step]; rewrite Hfull; reflexivity|done].
  erewrite Hdo; [|lia| |done].
  2: { cbn [WsServe.step]. cbn [loop set_requests]. rewrite Hparked. cbn [run_push push_request requests set_requests].
       unfold push_request. cbn [requests set_requests]. rewrite lookup_insert_eq, decide_True by done. reflexivity. }
  unfold tstep. cbn [clocks now]. destruct (N.ltb_spec t t); [lia|]. cbn [conn at_instant deadline clocks].
  assert (due (Some d) t = true) as -> by (apply due_spec; by exists d). unfold act. cbn [conn clocks WsServe.step].
  rewrite Hkeep. unfold selecting, leave. cbn [set_loop loop stream set_requests andb].
  destruct (stream (conn s)); cbn; (split; [done|]; split; [set_solver|done]).
Qed.

(** ** Witnesses *)

(** Pings every ten seconds, acknowledged within five. *)
Definition demo_iv : duration := from_secs 10.
Definition demo_timeout : duration := from_secs 5.
Definition at_secs (n : N) (e : tevent) : N * tevent := (n * 1000000000, e).
Definition demo_ping (n : N) : list (N * tevent) :=
  [at_secs n (Do EvTick); at_secs n (Do (EvWrite true)); at_secs (n + 1) (Arrive (TPong [])); at_secs (n + 1) Read].
Abbreviation demo_timed es := (run_timed (R := Flat.reflect) (fun _ => true) (fun _ => [TBinary [x06]; close_normal]) demo_params
  (as_nanos demo_iv) (as_nanos (from_secs 15)) 0 es).

Lemma live_peer_kept_witness :
  let es := demo_ping 10 ++ demo_ping 20 ++ [at_secs 24 (Do EvKeepaliveExpired)] in
  pings (demo_timed es).2 = [10000000000; 20000000000] /\ (24000000000, Dropped) ∉ (demo_timed es).2.
Proof.
  intros es.
  pose proof (live_peer_kept (R := Flat.reflect) (fun _ => true) (fun _ => [TBinary [x06]; close_normal]) demo_params
    demo_iv demo_timeout (from_secs 15) 1000000000 2000000000 0 es eq_refl ltac:(vm_compute; discriminate)) as Hl.
  cbv zeta in Hl.
  assert (now (clocks (demo_timed es).1) = 24000000000) as Hn by (vm_compute; reflexivity).
  assert (pings (demo_timed es).2 = [10000000000; 20000000000]) as Hp by (vm_compute; reflexivity).
  assert (reads (demo_timed es).2 = [11000000000; 21000000000]) as Hr by (vm_compute; reflexivity).
  split; [exact Hp|].
  destruct (demo_timed es) as [s acts]. cbn [fst snd] in *. rewrite Hn, Hp, Hr in Hl. change (as_nanos demo_iv) with 10000000000 in Hl.
  apply Hl.
  - intros t Ht. destruct (N.lt_ge_cases t 20000000000).
    + exists 10000000000. split; [by left|lia].
    + exists 20000000000. split; [right; by left|lia].
  - intros u [-> | ->%list_elem_of_singleton]%elem_of_cons _.
    + exists 11000000000. split; [by left|lia].
    + exists 21000000000. split; [right; by left|lia].
Defined.

(** Seventeen messages at once to a backend that reads none, and nothing read for ninety-nine
    seconds; then the peer's pong is there, the backend takes a message, and the peer is
    dropped. *)
Definition demo_jam : list (N * tevent) :=
  [at_secs 1 (Arrive (TBinary [x01])); at_secs 1 Read]
  ++ concat (repeat [at_secs 1 (Arrive (TBinary [x02; x41])); at_secs 1 Read; at_secs 1 (Do EvLoop)] 17).

Lemma responsive_peer_dropped_witness :
  let s := (demo_timed demo_jam).1 in
  let t := 100 * 1000000000 in
  let '(s', acts) := run_steps (tstep (R := Flat.reflect) (fun _ => true) (fun _ => [TBinary [x06]; close_normal]) demo_params
      (as_nanos demo_iv) (as_nanos (from_secs 15))) s
    [(t, Arrive (TPong [])); (t, Do (EvTake 0)); (t, Do EvLoop); (t, Do EvKeepaliveExpired)] in
  inbox (clocks s') = [TPong []] /\ (t, Dropped) ∈ acts /\ loop (conn s') = Joining.
Proof.
  intros s t.
  assert (loop (conn s) = Sending (ToRequest 0 [x41]) [] false) as H1 by (vm_compute; reflexivity).
  assert (requests (conn s) !! 0%nat = Some ([x41] :: repeat [x41] 15)) as H2 by (vm_compute; reflexivity).
  assert (deadline (clocks s) = Some 16000000000) as H3 by (vm_compute; reflexivity).
  assert (inbox (clocks s) = [] /\ eof (clocks s) = false /\ now (clocks s) = 1000000000) as (H4 & H5 & H6) by (split_and!; vm_compute; reflexivity).
  assert (1000000000 <= t /\ 16000000000 <= t) as [H7 H8] by (vm_compute; split; discriminate). clearbody s t.
  pose proof (responsive_peer_dropped (R := Flat.reflect) (fun _ => true) (fun _ => [TBinary [x06]; close_normal]) demo_params
    (as_nanos demo_iv) (as_nanos (from_secs 15)) s 0 [x41] [x41] (repeat [x41] 15) 16000000000 t [TPong []] H1 H2
    ltac:(unfold REQUEST_CAP; cbn; lia) eq_refl H3 H5 ltac:(rewrite H6; exact H7) H8) as Hd.
  cbn [map app] in Hd. rewrite H4 in Hd. exact Hd.
Defined.
