(* ===== verification/Fetch.v ===== *)
(** * Fetch requests ([rust/crates/grpc-webnext/src/fetch.rs], [lib.rs])

    Routing of an inbound request, the WebSocket negotiation, the [+proto] unary path, the
    [+json] / REST path and the response helpers. The backend, the schema's transcoder and
    the WebSocket upgrade are inputs; a body is the list of frames polling it yields; a
    deadline shows as the point at which it expires. *)
From S2P Require Import Prelude RustStd Http Metadata Framing GrpcFraming H2ts Reflection HttpRule HttpBuild.
From S2P Require Import Transcode JsonFrame ClientStatus WsCodec WsStream.

Definition CT_PROTO : str := $"application/grpc-webnext+proto".
Definition CT_JSON : str := $"application/grpc-webnext+json".
Definition CT_GRPC : str := $"application/grpc".
Definition WS_SUBPROTOCOL : str := $"grpc-webnext".
Definition WS_SUBPROTOCOL_JSON : str := $"grpc-webnext+json".
Definition WS_SUBPROTOCOL_PROTO : str := $"grpc-webnext+proto".
Definition APPLICATION_JSON : str := $"application/json".

(** A future raced against a deadline. *)
Inductive timed (A : Type) : Type :=
| Finished (a : A)
| Elapsed.
Arguments Finished {A} a.
Arguments Elapsed {A}.

(** [Instant::now() + d]: seconds of the clock in an [i64], a panic on overflow. *)
Definition i64_max : N := 9223372036854775807.
Definition instant_add (now d : duration) : run duration :=
  let nanos' := nanos now + nanos d in
  let secs' := secs now + secs d + nanos' / 1000000000 in
  if secs' <=? i64_max then Done (mkDuration secs' (nanos' mod 1000000000)) else Panic.

Section fetch.
Context {H : Http} {T : Tonic H} {R : Reflect}.
Context (fmt_debug : str -> str) (trailer_encode : Trailer -> bytes).

(** The frames of a request or response body. *)
Abbreviation body_frames := (list (result str (body_frame HeaderMap))).

Record Response : Type := mkResponse {
  http_status : N;
  resp_headers : HeaderMap;
  resp_body : list (result str bytes)
}.

(** ** Response helpers *)

Definition text_response (status : N) (message : str) : Response :=
  mkResponse status hm_new [Ok message].

Definition is_json_ct (ct : str) : bool := bool_decide (ct = CT_JSON) || bool_decide (ct = APPLICATION_JSON).

Definition json_fetch_response (content_type : str) (message : bytes) (status_code : N) (status_message : str)
    (initial trailing : HeaderMap) : run Response :=
  ct ← static_value content_type;
  st ← static_value (fmt_dec status_code);
  let builder := hm_append (hm_append hm_new $"content-type" ct) $"grpc-status" st in
  let builder :=
    if nonempty status_message then
      match value_from_str (percent_encode status_message) with
      | Some v => hm_append builder $"grpc-message" v
      | None => builder
      end
    else builder in
  let builder := merge_metadata_into_headers (md_from_headers initial) builder in
  let builder := merge_metadata_into_headers (md_from_headers trailing) builder in
  Done (mkResponse 200 builder [Ok (if status_code =? 0 then message else [])]).

Definition webnext_error (content_type : str) (code : Code.t) (message : str) : run Response :=
  if is_json_ct content_type then json_fetch_response content_type [] (code_u32 code) message hm_new hm_new
  else
    let trailer := mkTrailer (code_u32 code) message [] in
    ct ← static_value content_type;
    Done (mkResponse 200 (hm_append hm_new $"content-type" ct) [Ok (encode_response_body trailer_encode [] trailer)]).

Definition fetch_status (code : Code.t) (message : str) : run Response :=
  let trailer := mkTrailer (code_u32 code) message [] in
  ct ← static_value CT_PROTO;
  Done (mkResponse 200 (hm_append hm_new $"content-type" ct) [Ok (encode_response_body trailer_encode [] trailer)]).

(** ** Request bodies *)

(** The peek loop of [frame_upstream_request]: what was read, and the frames left. *)
Fixpoint read_lead (lead : bytes) (body : body_frames) : result str (bytes * body_frames) :=
  if decide (LEN_PREFIX <= blen lead) then Ok (lead, body)
  else match body with
  | Ok (Data data) :: body' => read_lead (lead ++ data) body'
  | Ok (Trailers _) :: body' => read_lead lead body'
  | Err e :: _ => Err e
  | [] => Ok (lead, [])
  end.

(** The rest of the stream: data frames, up to an error of the body. *)
Fixpoint forward (body : body_frames) : list (result str bytes) :=
  match body with
  | Ok (Data data) :: body' => Ok data :: forward body'
  | Ok (Trailers _) :: body' => forward body'
  | Err e :: _ => [Err ($"read body: " ++ e)]
  | [] => []
  end.

Definition frame_upstream_request (body : body_frames) (max : N) : result Response (list (result str bytes)) :=
  match read_lead [] body with
  | Err e => Err (text_response 400 ($"read body: " ++ e))
  | Ok (lead, rest) =>
      match lead with
      | b1 :: b2 :: b3 :: b4 :: _ =>
          let declared := u32_be b1 b2 b3 b4 in
          if max <? declared then Err (text_response 413 $"request message exceeds size limit")
          else Ok (Ok [x00] :: Ok lead :: forward rest)
      | _ => Err (text_response 400 $"request body missing length prefix")
      end
  end.

Fixpoint collect_bounded_loop (buf : bytes) (body : body_frames) (max : N) : run (result Response bytes) :=
  match body with
  | [] => Done (Ok buf)
  | Err e :: _ => r ← webnext_error CT_JSON Code.Internal ($"read body: " ++ e); Done (Err r)
  | Ok (Data data) :: body' =>
      if max <? blen buf + blen data then
        r ← webnext_error CT_JSON Code.ResourceExhausted $"request message exceeds size limit"; Done (Err r)
      else collect_bounded_loop (buf ++ data) body' max
  | Ok (Trailers _) :: body' => collect_bounded_loop buf body' max
  end.
Definition collect_bounded (body : body_frames) (max : N) : run (result Response bytes) :=
  collect_bounded_loop [] body max.

(** The headers of the gRPC request both paths build. *)
Definition upstream_headers (headers : HeaderMap) (deadline : option duration) : run HeaderMap :=
  let builder := foldl (fun m p => if is_denied p.1 then m else hm_append m p.1 p.2) hm_new (hm_iter headers) in
  ct ← static_value CT_GRPC;
  te ← static_value $"trailers";
  let builder := hm_append (hm_append builder $"content-type" ct) $"te" te in
  match deadline with
  | Some d =>
      d' ← duration_add d DEADLINE_GRACE;
      v ← static_value (format_grpc_timeout d');
      Done (hm_append builder $"grpc-timeout" v)
  | None => Done builder
  end.

(** ** [+proto] unary *)

(** The loop over the response body in [unary_proto]: [expired] counts the frames read
    before the deadline fires. The pieces yielded, [saw_message], the trailers, [timed_out],
    and the error that ended the stream. *)
Fixpoint relay (skip : N) (saw : bool) (trailers : HeaderMap) (expired : option nat) (body : body_frames)
  : list bytes * bool * HeaderMap * bool * option str :=
  match expired, body with
  | Some O, _ => ([], saw, trailers, true, None)
  | _, [] => ([], saw, trailers, false, None)
  | _, Err e :: _ => ([], saw, trailers, false, Some ($"upstream body: " ++ e))
  | _, Ok (Data data) :: body' =>
      let n := N.min skip (blen data) in
      let data := bdrop n data in
      if nonempty data then
        let '(out, saw', t, timed_out, err) := relay (skip - n) true trailers (pred <$> expired) body' in
        (data :: out, saw', t, timed_out, err)
      else relay (skip - n) saw trailers (pred <$> expired) body'
  | _, Ok (Trailers t) :: body' => relay skip saw t (pred <$> expired) body'
  end.

(** The [try_stream!] of [unary_proto]. *)
Definition response_stream (resp_headers : HeaderMap) (expired : option nat) (body : body_frames)
  : run (list (result str bytes)) :=
  let trailers_only := contains_key resp_headers $"grpc-status" in
  let '(out, saw, trailer_headers, timed_out, err) := relay 1 false hm_new expired body in
  match err with
  | Some e => Done (map Ok out ++ [Err e])
  | None =>
      if timed_out && saw then Done (map Ok out)
      else
        let block := if saw then [] else [EMPTY_MESSAGE_BLOCK] in
        '(status_code, status_message) ←
          (if timed_out then Done (code_u32 Code.DeadlineExceeded, $"deadline exceeded")
           else read_status trailer_headers resp_headers);
        let trailing := if hm_is_empty trailer_headers && trailers_only then resp_headers else trailer_headers in
        let trailer := mkTrailer status_code status_message (metadata_to_vec (md_from_headers trailing)) in
        Done (map Ok (out ++ block ++ [encode_trailer_block trailer_encode trailer]))
  end.

Definition unary_proto (max : N) (now : duration) (path : option str) (headers : HeaderMap) (body : body_frames)
    (call : str -> HeaderMap -> list (result str bytes) -> timed (result str (HeaderMap * body_frames)))
    (expired : option nat) : run Response :=
  match path with
  | None => Done (text_response 400 $"missing method path")
  | Some path =>
  deadline ← parse_grpc_timeout headers;
  match frame_upstream_request body max with
  | Err resp => Done resp
  | Ok grpc_body =>
      up ← upstream_headers headers deadline;
      match call path up grpc_body with
      | Elapsed => fetch_status Code.DeadlineExceeded $"deadline exceeded"
      | Finished (Err e) => fetch_status Code.Unavailable ($"upstream: " ++ e)
      | Finished (Ok (resp_headers, resp_body)) =>
          ct ← static_value CT_PROTO;
          let out := hm_append hm_new $"content-type" ct in
          let out := if contains_key resp_headers $"grpc-status" then out
                     else merge_metadata_into_headers (md_from_headers resp_headers) out in
          _ ← match deadline with Some d => Some <$> instant_add now d | None => Done None end;
          stream ← response_stream resp_headers (match deadline with Some _ => expired | None => None end) resp_body;
          Done (mkResponse 200 out stream)
      end
  end
  end.

(** ** [+json] and REST *)

(** [body.collect()]: all the data, and the trailers (an HTTP body has them once, at its end). *)
Fixpoint collect (data : bytes) (trailers : option HeaderMap) (body : body_frames)
  : result str (bytes * option HeaderMap) :=
  match body with
  | [] => Ok (data, trailers)
  | Err e :: _ => Err e
  | Ok (Data d) :: body' => collect (data ++ d) trailers body'
  | Ok (Trailers t) :: body' => collect data (Some t) body'
  end.

Definition json_upstream (tc : Transcoder) (grpc_path : str) (message : bytes) (req_headers : HeaderMap)
    (resp_ct : str) (deadline : option duration) (response_body : str)
    (call : str -> HeaderMap -> bytes -> timed (result str (HeaderMap * body_frames))) : run Response :=
  up ← upstream_headers req_headers deadline;
  match call grpc_path up (frame message) with
  | Elapsed => webnext_error resp_ct Code.DeadlineExceeded $"deadline exceeded"
  | Finished (Err e) => webnext_error resp_ct Code.Unavailable ($"upstream: " ++ e)
  | Finished (Ok (headers, body)) =>
      match collect [] None body with
      | Err e => webnext_error resp_ct Code.Unavailable ($"upstream body: " ++ e)
      | Ok (body_bytes, trailers) =>
          let trailer_headers := default hm_new trailers in
          let out_message := default [] (head (deframe_all body_bytes)) in
          '(status_code, status_message) ← read_status trailer_headers headers;
          if (status_code =? 0) && nonempty out_message then
            match response_proto_to_json_body tc grpc_path out_message response_body with
            | Ok j => json_fetch_response resp_ct j status_code status_message headers trailer_headers
            | Err e => webnext_error resp_ct Code.Internal ($"bad json response: " ++ display e)
            end
          else json_fetch_response resp_ct [] status_code status_message headers trailer_headers
      end
  end.

(** [json_fetch]: the request's path and query are [path] and [query]; [parse_path] is
    [str::parse::<PathAndQuery>], the path part of its result. *)
Definition json_fetch (schema : result TonicStatus Transcoder) (max : N) (allow_implicit_codec sdk_json : bool)
    (parse_path : str -> option str) (http_method : str) (path_and_query : option (str * option str))
    (headers : HeaderMap) (body : body_frames)
    (call : str -> HeaderMap -> bytes -> timed (result str (HeaderMap * body_frames))) : run Response :=
  match schema with
  | Err status => webnext_error CT_JSON (ts_code status) (ts_message status)
  | Ok tc =>
      let resp_ct := if sdk_json then CT_JSON else APPLICATION_JSON in
      match path_and_query with
      | None => webnext_error resp_ct Code.Internal $"missing request path"
      | Some (path, query) =>
          deadline ← parse_grpc_timeout headers;
          collected ← collect_bounded body max;
          match collected with
          | Err resp => Done resp
          | Ok body_bytes =>
              rest ← transcode_http_request fmt_debug tc http_method path query body_bytes;
              match rest with
              | Ok (Some c) =>
                  match parse_path (call_grpc_method c) with
                  | None => webnext_error APPLICATION_JSON Code.Internal $"bad transcoded method path"
                  | Some grpc_path =>
                      json_upstream tc grpc_path (call_message c) headers APPLICATION_JSON deadline
                        (call_response_body c) call
                  end
              | Err e => webnext_error APPLICATION_JSON Code.InvalidArgument ($"bad REST request: " ++ display e)
              | Ok None =>
                  if negb sdk_json && negb allow_implicit_codec then
                    Done (text_response 415 $"this gRPC method path requires content-type application/grpc-webnext+json (or set allow_implicit_codec to accept plain JSON here)")
                  else if negb (has_method tc path) then
                    webnext_error resp_ct Code.Unimplemented ($"no such method: " ++ path)
                  else
                    match request_json_to_proto tc path body_bytes with
                    | Err e => webnext_error resp_ct Code.InvalidArgument ($"bad json request: " ++ display e)
                    | Ok proto => json_upstream tc path proto headers resp_ct deadline [] call
                    end
              end
          end
      end
  end.

(** ** Routing *)

Inductive Route : Set :=
| RAdmin
| RUpgrade
| RProto
| RJson (sdk_json : bool)
| RPassthrough
| RReject (status : N) (message : str).

(** [handle]: which handler answers. [schema] is [transcoder_any()]. *)
Definition route (schema : result TonicStatus Transcoder) (admin_reload_path : option str) (is_upgrade : bool)
    (path : str) (query : option str) (headers : HeaderMap) : run Route :=
  if bool_decide (admin_reload_path = Some path) then Done RAdmin
  else if is_upgrade then Done RUpgrade
  else
    let content_type := default [] (v ← hm_get headers $"content-type"; to_str v) in
    if decide (content_type = CT_PROTO) then
      match schema with
      | Ok tc =>
          m ← tc_match_ws tc path query;
          Done (match m with
                | Some _ => RReject 415 $"REST-annotated endpoints are JSON-only; use application/json or application/grpc-webnext+json"
                | None => RProto
                end)
      | Err _ => Done RProto
      end
    else if decide (content_type = CT_JSON) then Done (RJson true)
    else if starts_with CT_GRPC content_type then Done RPassthrough
    else if decide (content_type = APPLICATION_JSON \/ content_type = []) then Done (RJson false)
    else Done (RReject 415 ($"unsupported content-type: " ++ content_type)).

(** [handle_admin_reload]: [reload] is the schema's answer. *)
Definition handle_admin_reload (method : str) (reload : result TonicStatus unit) : Response :=
  if decide (method <> $"POST") then text_response 405 $"use POST to force a reflection reload"
  else match reload with
  | Ok _ => text_response 200 $"reflection reloaded"
  | Err status =>
      let http := if decide (ts_code status = Code.FailedPrecondition) then 409 else 503 in
      text_response http ($"reflection reload failed: " ++ ts_message status)
  end.

(** [passthrough] *)
Definition passthrough (resp : result str Response) : Response :=
  match resp with Ok r => r | Err e => text_response 502 ($"upstream: " ++ e) end.

(** ** The WebSocket negotiation *)

Definition ws_subprotocols (headers : HeaderMap) : list str :=
  default [] ((fun s => filter nonempty (map trim (split ","%byte s)))
              <$> (v ← hm_get headers $"sec-websocket-protocol"; to_str v)).

Record Negotiated : Type := mkNegotiated {
  reject : option TonicStatus;
  echo : option str;
  ng_codec : option bool;
  ng_method : str;
  ng_annotation : option (WsBinding MessageDescriptor)
}.

Inductive Upgrade : Type :=
| ServeH2ts
| ServeWs (n : Negotiated).

(** [handle_ws_upgrade] up to the upgrade itself; [h2ts] is [h2ts_server]'s subprotocol. *)
Definition handle_ws_upgrade (h2ts : str) (schema : result TonicStatus Transcoder) (allow_implicit_codec : bool)
    (path : str) (query : option str) (headers : HeaderMap) : run Upgrade :=
  let offered := ws_subprotocols headers in
  let has s := bool_decide (s ∈ offered) in
  if has h2ts then Done ServeH2ts
  else
    let '(codec, explicit) :=
      if has WS_SUBPROTOCOL_PROTO then (Some false, true)
      else if has WS_SUBPROTOCOL_JSON then (Some true, true)
      else if has APPLICATION_JSON then (Some true, false)
      else (None, false) in
    ws_annotation ← match schema with Ok tc => tc_match_ws tc path query | Err _ => Done None end;
    let codec_reject :=
      match ws_annotation with
      | Some _ =>
          if decide (codec = Some false) then
            Some (mkTonicStatus Code.FailedPrecondition $"REST WebSocket routes are JSON: use a blank, application/json, or grpc-webnext+json subprotocol")
          else None
      | None =>
          if (explicit : bool) then None
          else if negb allow_implicit_codec then
            Some (mkTonicStatus Code.Unimplemented $"this websocket requires a grpc-webnext+proto or grpc-webnext+json subprotocol")
          else None
      end in
    let echo := find has [WS_SUBPROTOCOL_PROTO; WS_SUBPROTOCOL_JSON; WS_SUBPROTOCOL; APPLICATION_JSON] in
    Done (ServeWs (match ws_annotation with
      | Some ann => mkNegotiated codec_reject echo (Some true) (ws_grpc_method ann) (Some ann)
      | None => mkNegotiated codec_reject echo codec path None
      end)).
End fetch.
Arguments Response {H}.
Arguments Upgrade {R}.

(** ** Lemmas *)

Section facts.
Context {H : Http} {HL : HttpLaws H} {T : Tonic H} {TL : TonicLaws H T} {R : Reflect}.
Context (trailer_encode : Trailer -> bytes).

Lemma static_value_visible s : visible s = true -> exists v, static_value s = Done v /\ to_str v = Some s.
Proof. intros Hs. destruct (from_str_visible s Hs) as (v & Hv & Ht). unfold static_value. rewrite Hv. eauto. Qed.

Definition data_frames (datas : list bytes) : list (result str (body_frame HeaderMap)) :=
  map (fun d => Ok (Data d)) datas.

Lemma data_frames_cons d datas : data_frames (d :: datas) = Ok (Data d) :: data_frames datas.
Proof. done. Qed.

(** Reading the lead stops within the data, and nothing is lost. *)
Lemma read_lead_data lead datas :
  exists lead' rest, read_lead lead (data_frames datas) = Ok (lead', data_frames rest)
    /\ lead' ++ concat rest = lead ++ concat datas /\ (4 <= blen lead' \/ rest = []).
Proof.
  revert lead. induction datas as [|d datas IH]; intros lead; rewrite ?data_frames_cons; cbn [read_lead].
  - exists lead, []. change (data_frames []) with (@nil (result str (body_frame HeaderMap))). cbn [read_lead].
    case_decide; (split; [done|]; split; [done|]); auto.
  - case_decide as Hl.
    + exists lead, (d :: datas). split; [done|]. split; [done|]. by left.
    + destruct (IH (lead ++ d)) as (lead' & rest & -> & He & Hd). exists lead', rest.
      split; [done|]. split; [|done]. rewrite He. cbn [concat]. by rewrite app_assoc.
Qed.

Lemma forward_data datas : forward (data_frames datas) = map Ok datas.
Proof. induction datas as [|d datas IH]; [done|]. rewrite data_frames_cons. cbn [forward map]. by rewrite IH. Qed.

(** Relaying data and trailers drops the first [skip] bytes and keeps the rest. *)
Lemma relay_data skip saw tr datas t :
  exists out, relay skip saw tr None (data_frames datas ++ [Ok (Trailers t)])
    = (out, saw || (skip <? blen (concat datas)), t, false, None)
    /\ concat out = bdrop skip (concat datas).
Proof.
  revert skip saw. induction datas as [|d datas IH]; intros skip saw.
  - exists []. cbn. split; [|unfold bdrop; by rewrite drop_nil].
    destruct (N.ltb_spec skip (blen (@nil byte))) as [Hlt|]; [change (blen []) with 0 in Hlt; lia|]. by rewrite orb_false_r.
  - rewrite data_frames_cons. cbn [app relay fmap option_fmap option_map concat].
    set (n := N.min skip (blen d)).
    assert (concat (bdrop n d :: datas) = bdrop n (d ++ concat datas)) as Hd.
    { cbn [concat]. symmetry. apply bdrop_app_le. lia. }
    destruct (nonempty (bdrop n d)) eqn:Hne.
    + assert (n = skip /\ skip < blen d) as [Hn Hlt].
      { apply nonempty_true in Hne. destruct (N.leb_spec (blen d) skip) as [Hle|]; [|lia].
        destruct Hne. apply bdrop_all. lia. }
      destruct (IH (skip - n) true) as (out & Hr & Ho). rewrite Hr.
      exists (bdrop n d :: out). split.
      * f_equal. f_equal. f_equal. f_equal. destruct (N.ltb_spec skip (blen (d ++ concat datas))); [by rewrite orb_true_r|].
        rewrite blen_app in *. lia.
      * cbn [concat]. rewrite Ho. replace (skip - n) with 0 by lia. rewrite Hn. by rewrite bdrop_app_le by lia.
    + assert (n = blen d) as Hn.
      { destruct (N.leb_spec (blen d) n); [lia|]. exfalso. apply (f_equal length) in Hd.
        destruct (bdrop n d) eqn:E; [|done]. apply (f_equal blen) in E. rewrite blen_bdrop in E.
        change (blen []) with 0 in E. lia. }
      destruct (IH (skip - n) saw) as (out & Hr & Ho). rewrite Hr. exists out. split.
      * f_equal. f_equal. f_equal. f_equal. f_equal. rewrite blen_app.
        destruct (N.ltb_spec (skip - n) (blen (concat datas))), (N.ltb_spec skip (blen d + blen (concat datas))); lia || done.
      * rewrite Ho. rewrite bdrop_app_ge by lia. f_equal. lia.
Qed.

Lemma get_all_denied_merge meta headers k :
  is_denied k = true -> hm_get_all (merge_metadata_into_headers meta headers) k = hm_get_all headers k.
Proof.
  intros Hk. unfold merge_metadata_into_headers. rewrite get_all_foldl_append, Hk. by rewrite app_nil_r.
Qed.
End facts.

Section more_facts.
Context {H : Http} {HL : HttpLaws H} {T : Tonic H} {TL : TonicLaws H T} {R : Reflect}.

Lemma get_all_merge meta headers k :
  hm_get_all (merge_metadata_into_headers meta headers) k
  = hm_get_all headers k ++ (if is_denied k then [] else hm_get_all (md_into_headers meta) k).
Proof. unfold merge_metadata_into_headers. by rewrite get_all_foldl_append, iter_get_all. Qed.

Lemma fmt_dec_visible n : visible (fmt_dec n) = true.
Proof.
  apply (forallb_impl (in_range 48 57)); [|apply fmt_dec_digits]. intros b. rewrite !in_range_spec. lia.
Qed.

Lemma relay_saw skip tr expired body out saw t timed err :
  relay skip true tr expired body = (out, saw, t, timed, err) -> saw = true.
Proof.
  revert skip tr expired out. induction body as [|[[d|t']|e] body IH]; intros skip tr expired out Hr;
    destruct expired as [ [|k]|]; cbn [relay] in Hr; try congruence; try (by eapply IH);
    (destruct (nonempty _); [|by eapply IH]);
    match type of Hr with context [relay ?a ?b ?c ?d ?e] => destruct (relay a b c d e) as [ [ [ [o s] trl] ti] er] eqn:E end;
    simplify_eq; by eapply IH.
Qed.

(** Without a byte after the flag nothing is yielded. *)
Lemma relay_nothing skip tr expired body out t timed err :
  relay skip false tr expired body = (out, false, t, timed, err) -> out = [].
Proof.
  revert skip tr expired out. induction body as [|[[d|t']|e] body IH]; intros skip tr expired out Hr;
    destruct expired as [ [|k]|]; cbn [relay] in Hr; try congruence; try (by eapply IH);
    (destruct (nonempty _); [|by eapply IH]);
    match type of Hr with context [relay ?a ?b ?c ?d ?e] => destruct (relay a b c d e) as [ [ [ [o s] trl] ti] er] eqn:E end;
    simplify_eq; by apply relay_saw in E.
Qed.

(** Framing an upstream request: the 4-byte prefix decides. *)
Lemma frame_upstream_body m datas max :
  blen m < two32 -> concat datas = encode_request_body m ->
  if max <? blen m then
    frame_upstream_request (data_frames datas) max = Err (text_response 413 $"request message exceeds size limit")
  else exists pieces, frame_upstream_request (data_frames datas) max = Ok (map Ok pieces) /\ concat pieces = frame m.
Proof.
  intros Hm Hc. unfold frame_upstream_request.
  destruct (read_lead_data [] datas) as (lead & rest & -> & Hl & Hd). cbn [app] in Hl. rewrite Hc in Hl.
  assert (4 <= blen lead) as Hlen.
  { destruct Hd as [Hd | ->]; [done|]. cbn [concat] in Hl. rewrite app_nil_r in Hl. rewrite Hl.
    unfold encode_request_body, be32. rewrite blen_app. change (blen [_; _; _; _]) with 4. lia. }
  destruct lead as [|b1 [|b2 [|b3 [|b4 lead]]]]; try (cbv in Hlen; by destruct Hlen).
  unfold encode_request_body, be32 in Hl. cbn [app] in Hl. injection Hl as -> -> -> -> Hl.
  rewrite u32_be_be32, N.mod_small by done. destruct (max <? blen m); [done|].
  eexists (([x00] : bytes) :: _ :: rest). split; [by rewrite forward_data|].
  unfold frame, be32. cbn [concat app]. by rewrite Hl.
Qed.
End more_facts.

Lemma collect_loop_bound {H : Http} {T : Tonic H} (enc : Trailer -> bytes) buf body max b :
  collect_bounded_loop (T := T) enc buf body max = Done (Ok b) -> blen buf <= max -> blen b <= max.
Proof.
  revert buf. induction body as [|[[d|t]|e] body IH]; intros buf; cbn [collect_bounded_loop].
  - by intros [= ->].
  - destruct (N.ltb_spec max (blen buf + blen d)); [by destruct (webnext_error _ _ _ _)|].
    intros Hc _. apply (IH _ Hc). rewrite blen_app. lia.
  - apply IH.
  - by destruct (webnext_error _ _ _ _).
Qed.

(** ** Properties *)

(** C19: The [+proto] unary path is transparent in both directions. A request body carrying one
    message, in any chunks, becomes exactly the gRPC framing of the message when it is
    within the limit and is refused (413) when it declares more; one shorter than its
    prefix is refused (400). A gRPC response carrying one message, in any chunks, and
    trailers becomes a body a client decodes to that message and the trailers' status. *)
Theorem proto_fetch_transparent {H : Http} {HL : HttpLaws H} {T : Tonic H} {R : Reflect} {E : Type}
  (enc : Trailer -> bytes) (dec : bytes -> result E Trailer)
  (Hcodec : forall t, dec (enc t) = Ok t)
  (m : bytes) (Hm : blen m < two32) (datas : list bytes) (max : N) :
  (concat datas = encode_request_body m ->
     if max <? blen m then
       frame_upstream_request (data_frames datas) max = Err (text_response 413 $"request message exceeds size limit")
     else exists pieces, frame_upstream_request (data_frames datas) max = Ok (map Ok pieces) /\ concat pieces = frame m)
  /\ (blen (concat datas) < 4 ->
     frame_upstream_request (data_frames datas) max = Err (text_response 400 $"request body missing length prefix"))
  /\ (forall (resp_headers tr : HeaderMap) limit, concat datas = frame m -> limit < two32 ->
     exists code message pieces, read_status tr resp_headers = Done (code, message)
       /\ response_stream enc resp_headers None (data_frames datas ++ [Ok (Trailers tr)]) = Done (map Ok pieces)
       /\ (blen (concat pieces) <= limit ->
           exists md, decode_response_body dec (concat pieces) limit = Ok (m, mkTrailer code message md)
             /\ md = metadata_to_vec (md_from_headers
                       (if hm_is_empty tr && contains_key resp_headers $"grpc-status" then resp_headers else tr)))).
Proof.
  split; [|split].
  - intros Hc. by apply frame_upstream_body.
  - intros Hs. unfold frame_upstream_request.
    destruct (read_lead_data [] datas) as (lead & rest & -> & Hl & Hd). cbn [app] in Hl.
    destruct lead as [|b1 [|b2 [|b3 [|b4 lead]]]]; try done.
    exfalso. rewrite <- Hl in Hs. rewrite blen_app in Hs. cbv [blen] in Hs. simpl in Hs. lia.
  - intros resp_headers tr limit Hc Hlt. destruct (WsStream.read_status_total tr resp_headers) as (code & message & Hs).
    exists code, message. unfold response_stream.
    destruct (relay_data 1 false hm_new datas tr) as (out & -> & Ho). rewrite Hc in Ho |- *.
    assert ((1 <? blen (frame m)) = true) as ->.
    { apply N.ltb_lt. unfold frame, be32. rewrite blen_cons, blen_app. change (blen [_; _; _; _]) with 4. lia. }
    cbn [orb andb]. rewrite Hs. cbn [mbind run_bind app]. eexists. split; [done|]. split; [done|].
    intros Hlimit. eexists. split; [|done]. unfold decode_response_body. rewrite decide_False by lia.
    rewrite concat_app, Ho. unfold frame. change (bdrop 1 (?x :: ?l)) with l. cbn [concat]. rewrite app_nil_r.
    unfold encode_trailer_block. rewrite <- app_assoc, take_block_block by done. cbn [mbind result_bind].
    rewrite <- (app_nil_r (enc _)) at 2. rewrite take_block_block by (rewrite !concat_app, !blen_app in Hlimit; cbn [concat] in Hlimit; unfold encode_trailer_block in Hlimit; rewrite !blen_app in Hlimit; lia). cbn [mbind result_bind].
    by rewrite Hcodec.
Qed.

(** A call that fails before its first message byte still ends cleanly: whatever the backend
    body did (trailers only, a bare flag byte, nothing at all, the deadline), the client
    decodes an empty message and the status, which is DEADLINE_EXCEEDED exactly when the
    deadline expired. *)
Theorem response_stream_clean_status {H : Http} {HL : HttpLaws H} {T : Tonic H} {R : Reflect} {E : Type}
  (enc : Trailer -> bytes) (dec : bytes -> result E Trailer)
  (Hcodec : forall t, dec (enc t) = Ok t)
  (resp_headers tr : HeaderMap) (expired : option nat) (body : list (result str (body_frame HeaderMap)))
  (out : list bytes) (timed_out : bool) (limit : N) (Hlt : limit < two32)
  (Hrelay : relay 1 false hm_new expired body = (out, false, tr, timed_out, None)) :
  exists pieces t, response_stream enc resp_headers expired body = Done (map Ok pieces)
    /\ (blen (concat pieces) <= limit -> decode_response_body dec (concat pieces) limit = Ok ([], t))
    /\ (if timed_out then status_code t = code_u32 Code.DeadlineExceeded /\ status_message t = $"deadline exceeded"
        else read_status tr resp_headers = Done (status_code t, status_message t)).
Proof.
  unfold response_stream. rewrite Hrelay, andb_false_r. apply relay_nothing in Hrelay as ->.
  destruct (WsStream.read_status_total tr resp_headers) as (code & message & Hs). rewrite Hs.
  set (md := metadata_to_vec _). set (t := if timed_out then mkTrailer (code_u32 Code.DeadlineExceeded) $"deadline exceeded" md
                                          else mkTrailer code message md).
  exists [EMPTY_MESSAGE_BLOCK; encode_trailer_block enc t], t.
  split; [by destruct timed_out|]. split; [|by destruct timed_out].
  intros Hl. unfold decode_response_body. rewrite decide_False by lia. cbn [concat].
  change EMPTY_MESSAGE_BLOCK with (be32 (blen (@nil byte)) ++ []). rewrite <- app_assoc.
  rewrite take_block_block by done. cbn [mbind result_bind]. rewrite app_nil_r.
  unfold encode_trailer_block. rewrite <- (app_nil_r (enc t)) at 2.
  rewrite take_block_block
    by (cbn [concat] in Hl; unfold encode_trailer_block in Hl; rewrite !blen_app in Hl; lia). cbn [mbind result_bind]. by rewrite Hcodec.
Qed.

(** The JSON response carries its status: a client reading the response's headers gets the
    code and the message, the body is the JSON exactly when the code is 0, and each header of
    the backend's initial and trailing metadata that may be forwarded is there, in order. *)
Theorem json_response_status {H : Http} {HL : HttpLaws H} {T : Tonic H} {TL : TonicLaws H T}
  (ct : str) (body : bytes) (code : N) (message : str) (initial trailing : HeaderMap)
  (Hct : visible ct = true) (Hcode : code <= u32_max) (Hmsg : utf8_valid message = true) :
  exists r, json_fetch_response ct body code message initial trailing = Done r
    /\ http_status r = 200
    /\ read_status hm_new (resp_headers r) = Done (code, message)
    /\ resp_body r = [Ok (if code =? 0 then body else [])]
    /\ forall k, is_denied k = false ->
         hm_get_all (resp_headers r) k = hm_get_all initial k ++ hm_get_all trailing k.
Proof.
  destruct (static_value_visible ct Hct) as (vct & Hvct & _).
  destruct (static_value_visible (fmt_dec code) (fmt_dec_visible code)) as (vc & Hvc & Htc).
  destruct (from_str_visible (percent_encode message) (percent_encode_visible message)) as (vm & Hvm & Htm).
  unfold json_fetch_response. rewrite Hvct, Hvc. cbn [mbind run_bind]. rewrite Hvm.
  eexists. split; [done|]. split; [done|]. cbn [http_status resp_headers resp_body].
  split; [|split; [done|]].
  - unfold read_status. rewrite !get_head, !get_all_merge, !get_all_new.
    replace (is_denied $"grpc-status") with true by done. replace (is_denied $"grpc-message") with true by done.
    rewrite !app_nil_r. destruct (nonempty message) eqn:Hne; rewrite !get_all_append, !get_all_new; decide_closed; simpl.
    + rewrite Htc, Htm. simpl. unfold parse_u32. rewrite parse_fmt_dec by done.
      rewrite Metadata.percent_decode_encode by done. done.
    + rewrite Htc. simpl. unfold parse_u32. rewrite parse_fmt_dec by done. by destruct message.
  - intros k Hk. rewrite !get_all_merge, Hk, !into_from_headers.
    assert (k <> $"content-type" /\ k <> $"grpc-status" /\ k <> $"grpc-message") as (H1 & H2 & H3)
      by (repeat split; intros ->; done).
    destruct (nonempty message); rewrite !get_all_append, get_all_new, !decide_False by done; by rewrite !app_nil_l.
Qed.

(** C37: Surface gating. A URL with a REST binding never reaches the binary codec: a [+proto]
    request to it is refused (415) and a WebSocket on it is JSON, rejected just when it
    offers the binary subprotocol; a WebSocket on a main route is accepted just when it
    names a grpc-webnext codec or implicit codecs are allowed, and its method is the URL's;
    the subprotocol echoed is one the client offered. *)
Theorem surface_gating {H : Http} {R : Reflect} (h2ts : str) (tc : Transcoder) (implicit is_upgrade : bool)
  (path : str) (query : option str) (headers : HeaderMap) (m : option (WsBinding MessageDescriptor))
  (Hmatch : tc_match_ws tc path query = Done m) :
  (route (Ok tc) None false path query headers = Done RProto -> m = None)
  /\ match handle_ws_upgrade h2ts (Ok tc) implicit path query headers with
     | Done ServeH2ts => h2ts ∈ ws_subprotocols headers
     | Done (ServeWs n) =>
         ng_annotation n = m
         /\ (forall p, echo n = Some p -> p ∈ ws_subprotocols headers)
         /\ match m with
            | Some ann => ng_codec n = Some true /\ ng_method n = grpc_method (binding ann)
                /\ (is_Some (reject n) <-> WS_SUBPROTOCOL_PROTO ∈ ws_subprotocols headers)
            | None => ng_method n = path
                /\ (reject n = None <-> WS_SUBPROTOCOL_PROTO ∈ ws_subprotocols headers
                      \/ WS_SUBPROTOCOL_JSON ∈ ws_subprotocols headers \/ implicit = true)
                /\ (ng_codec n = Some false -> WS_SUBPROTOCOL_PROTO ∈ ws_subprotocols headers)
            end
     | Panic => False
     end.
Proof.
  split.
  - unfold route. cbn [bool_decide]. rewrite Hmatch. cbn [mbind run_bind].
    destruct m; [|done]. repeat case_match; congruence.
  - unfold handle_ws_upgrade. rewrite Hmatch. set (offered := ws_subprotocols headers).
    assert (forall p, find (fun s => bool_decide (s ∈ offered))
              [WS_SUBPROTOCOL_PROTO; WS_SUBPROTOCOL_JSON; WS_SUBPROTOCOL; APPLICATION_JSON] = Some p -> p ∈ offered) as Hecho.
    { intros p Hp. apply find_some in Hp as [_ Hp]. by apply bool_decide_eq_true in Hp. }
    destruct (decide (h2ts ∈ offered)) as [Hh|Hh]; [by rewrite bool_decide_eq_true_2|].
    rewrite (bool_decide_eq_false_2 (h2ts ∈ offered)) by done.
    destruct (decide (WS_SUBPROTOCOL_PROTO ∈ offered)) as [Hp|Hp];
      [rewrite (bool_decide_eq_true_2 (WS_SUBPROTOCOL_PROTO ∈ offered)) by done
      |rewrite (bool_decide_eq_false_2 (WS_SUBPROTOCOL_PROTO ∈ offered)) by done;
       destruct (decide (WS_SUBPROTOCOL_JSON ∈ offered)) as [Hj|Hj];
       [rewrite (bool_decide_eq_true_2 (WS_SUBPROTOCOL_JSON ∈ offered)) by done
       |rewrite (bool_decide_eq_false_2 (WS_SUBPROTOCOL_JSON ∈ offered)) by done;
        destruct (bool_decide (APPLICATION_JSON ∈ offered))]];
      cbn [mbind run_bind]; destruct m as [ann|]; cbn [reject echo ng_codec ng_method ng_annotation];
      (split; [done|]; split; [exact Hecho|]); destruct implicit; cbn [negb];
      rewrite ?(decide_False (P := _ = Some false)), ?(decide_True (P := _ = Some false)) by done;
      repeat split.
    all: try done.
    all: try (intros ?; by eauto).
    all: intuition (done || congruence).
Qed.

(** C38: A huge [grpc-timeout] panics the handler: the parser accepts it, the forwarded deadline
    is computed safely, but the local one is [Instant::now() + d], which overflows as soon
    as the backend has answered. *)
Theorem huge_timeout_panics {R : Reflect} (enc : Trailer -> bytes) (now : duration) (max : N) (m : bytes)
  (resp : list (str * str)) (body : list (result str (body_frame (list (str * str))))) (expired : option nat) :
  let headers := [($"grpc-timeout", $"18446744073709551615S")] in
  blen m <= max -> blen m < two32 ->
  unary_proto (H := AssocHttp.http) (T := AssocHttp.tonic) enc max now (Some $"/p.S/M") headers
    [Ok (Data (encode_request_body m))]
    (fun _ _ _ => Finished (Ok (resp, body))) expired = Panic.
Proof.
  intros headers Hmax Hlen.
  assert (instant_add now (from_secs 18446744073709551615) = Panic) as Hpanic.
  { unfold instant_add. cbn [secs from_secs].
    match goal with |- context [?a <=? i64_max] => destruct (N.leb_spec a i64_max) as [Hle|]; [|done] end.
    change 18446744073709551615 with (2 * i64_max + 1) in Hle. exfalso. generalize dependent (nanos now + nanos (from_secs (2 * i64_max + 1))).
    intros x. generalize (x / 1000000000). clear. unfold i64_max. intros. lia. }
  assert (exists up, upstream_headers (H := AssocHttp.http) headers (Some (from_secs 18446744073709551615)) = Done up)
    as [up Hup] by (eexists; vm_compute; reflexivity).
  unfold unary_proto.
  replace (parse_grpc_timeout (H := AssocHttp.http) headers) with (Done (Some (from_secs 18446744073709551615)))
    by (vm_compute; reflexivity).
  cbn [mbind run_bind].
  pose proof (frame_upstream_body (H := AssocHttp.http) m [encode_request_body m] max Hlen (app_nil_r _)) as Hg.
  rewrite (proj2 (N.ltb_ge _ _)) in Hg by done. destruct Hg as (g & Hg & _).
  unfold data_frames in Hg. cbn [map] in Hg.
  rewrite Hg, Hup. cbn [mbind run_bind]. destruct (static_value CT_PROTO); [|done].
  cbn [mbind run_bind fmap run_fmap]. by rewrite Hpanic.
Qed.

(** C39: What a JSON or REST request needs to reach the backend. Either its answer does not depend
    on the backend at all, or it is one call: of a body within the limit, under the
    descriptors' transcoder, either the call its REST binding builds, or, where no binding
    matches, a method the descriptors have, asked for with the SDK's codec or with implicit
    codecs allowed, with the body's JSON as its message. *)
Theorem json_reaches_backend {H : Http} {T : Tonic H} {R : Reflect} (fmt_debug : str -> str) (enc : Trailer -> bytes)
  (schema : result TonicStatus Transcoder) (max : N) (allow sdk : bool) (parse_path : str -> option str)
  (method : str) (pq : option (str * option str)) (headers : HeaderMap) (body : list (result str (body_frame HeaderMap))) :
  let go := json_fetch fmt_debug enc schema max allow sdk parse_path method pq headers body in
  (forall call1 call2, go call1 = go call2)
  \/ exists tc path query bytes deadline target message resp_ct response_body,
       schema = Ok tc /\ pq = Some (path, query) /\ blen bytes <= max
       /\ parse_grpc_timeout headers = Done deadline
       /\ (forall call, go call = json_upstream enc tc target message headers resp_ct deadline response_body call)
       /\ ((exists c, transcode_http_request fmt_debug tc method path query bytes = Done (Ok (Some c))
             /\ parse_path (call_grpc_method c) = Some target /\ message = call_message c)
           \/ (transcode_http_request fmt_debug tc method path query bytes = Done (Ok None)
             /\ target = path /\ has_method tc path = true /\ (sdk = true \/ allow = true)
             /\ request_json_to_proto tc path bytes = Ok message)).
Proof.
  intros go. unfold go, json_fetch. destruct schema as [tc|status]; [|by left]. destruct pq as [[path query]|]; [|by left].
  destruct (parse_grpc_timeout headers) as [deadline|] eqn:Hd; [|by left]. cbn [mbind run_bind].
  destruct (collect_bounded enc body max) as [[bytes|resp]|] eqn:Hc; try (by left). cbn [mbind run_bind].
  apply (collect_loop_bound enc [] body max bytes) in Hc; [|apply N.le_0_l].
  destruct (transcode_http_request _ tc method path query bytes) as [[[c|]|e]|] eqn:Ht; cbn [mbind run_bind]; try (by left).
  - destruct (parse_path (call_grpc_method c)) as [target|] eqn:Hp; [|by left]. right.
    eexists tc, path, query, bytes, deadline, target, _, _, _. split_and!; eauto 8.
  - destruct (negb sdk && negb allow) eqn:Hgate; [by left|]. destruct (has_method tc path) eqn:Hm; [|by left].
    cbn [negb]. destruct (request_json_to_proto tc path bytes) as [message|] eqn:Hr; [|by left]. right.
    eexists tc, path, query, bytes, deadline, path, _, _, _. split_and!; eauto.
    right. split_and!; try done. destruct sdk, allow; auto.
Qed.

(** ** Witnesses *)

Lemma proto_fetch_transparent_witness :
  frame_upstream_request (H := AssocHttp.http) (data_frames (H := AssocHttp.http) [[x00; x00]; [x00; x02; x41]; [x42]]) 1
  = Err (text_response 413 $"request message exceeds size limit")
  /\ exists code message pieces,
      response_stream (H := AssocHttp.http) (T := AssocHttp.tonic) TrailerCodec.enc [] None
        (data_frames (H := AssocHttp.http) [[x00]; [x00; x00; x00; x02; x41]; [x42]] ++ [Ok (Trailers [($"grpc-status", $"5")])])
      = Done (map Ok pieces)
      /\ code = 5 /\ (message : str) = [] /\ head pieces = Some [x00; x00; x00; x02; x41].
Proof.
  destruct (proto_fetch_transparent (H := AssocHttp.http) (T := AssocHttp.tonic) (R := Flat.reflect)
    TrailerCodec.enc TrailerCodec.dec TrailerCodec.dec_enc [x41; x42] eq_refl [[x00; x00]; [x00; x02; x41]; [x42]] 1)
    as (Hreq & _ & _).
  destruct (proto_fetch_transparent (H := AssocHttp.http) (T := AssocHttp.tonic) (R := Flat.reflect)
    TrailerCodec.enc TrailerCodec.dec TrailerCodec.dec_enc [x41; x42] eq_refl [[x00]; [x00; x00; x00; x02; x41]; [x42]] 1)
    as (_ & _ & Hresp).
  split; [exact (Hreq eq_refl)|].
  destruct (Hresp [] [($"grpc-status", $"5")] 1000 eq_refl eq_refl) as (code & message & pieces & Hs & Hr & _).
  exists code, message, pieces. split; [exact Hr|]. vm_compute in Hs. injection Hs as <- <-. split; [done|]. split; [done|].
  vm_compute in Hr. injection Hr as Hr. destruct pieces as [|p ps]; [done|]. injection Hr as <- _. done.
Defined.

Lemma response_stream_clean_status_witness :
  exists pieces t, response_stream (H := AssocHttp.http) (T := AssocHttp.tonic) TrailerCodec.enc [] (Some 1%nat)
      [Ok (Data [x00]); Ok (Data [x00])] = Done (map Ok pieces)
    /\ (blen (concat pieces) <= 1000 -> decode_response_body TrailerCodec.dec (concat pieces) 1000 = Ok ([], t))
    /\ status_code t = 4.
Proof.
  destruct (response_stream_clean_status (H := AssocHttp.http) (T := AssocHttp.tonic) (R := Flat.reflect)
    TrailerCodec.enc TrailerCodec.dec TrailerCodec.dec_enc [] [] (Some 1%nat) [Ok (Data [x00]); Ok (Data [x00])]
    [] true 1000 eq_refl eq_refl) as (pieces & t & Hr & Hd & Hc & _).
  exists pieces, t. split; [exact Hr|]. split; [exact Hd|]. rewrite Hc. done.
Defined.

Lemma json_response_status_witness :
  exists r, json_fetch_response (H := AssocHttp.http) (T := AssocHttp.tonic) CT_JSON $"{}" 3 $"bad value" [] [($"x-a", $"1")]
      = Done r
    /\ read_status (H := AssocHttp.http) [] (resp_headers r) = Done (3, $"bad value")
    /\ resp_body r = [Ok []]
    /\ hm_get_all (Http := AssocHttp.http) (resp_headers r) $"x-a" = [$"1"].
Proof.
  destruct (json_response_status (H := AssocHttp.http) (T := AssocHttp.tonic) CT_JSON $"{}" 3 $"bad value" [] [($"x-a", $"1")]
    eq_refl ltac:(by vm_compute) eq_refl) as (r & Hr & _ & Hs & Hb & Hk).
  exists r. split; [exact Hr|]. split; [exact Hs|]. split; [exact Hb|]. exact (Hk $"x-a" eq_refl).
Defined.

Lemma surface_gating_witness :
  exists ann n, tc_match_ws demo_transcoder $"/v1/users/7" None = Done (Some ann)
    /\ handle_ws_upgrade (H := AssocHttp.http) $"grpc-tunnel" (Ok demo_transcoder) true $"/v1/users/7" None
         [($"sec-websocket-protocol", $"grpc-webnext+proto")] = Done (ServeWs n)
    /\ ng_method n = $"/demo.Users/Get" /\ is_Some (reject n).
Proof.
  pose proof (surface_gating (H := AssocHttp.http) (R := Flat.reflect) $"grpc-tunnel" demo_transcoder true false
    $"/v1/users/7" None [($"sec-websocket-protocol", $"grpc-webnext+proto")]) as Hg.
  assert (ws_subprotocols (H := AssocHttp.http) [($"sec-websocket-protocol", $"grpc-webnext+proto")]
    = [$"grpc-webnext+proto"]) as Hoff by (vm_compute; reflexivity).
  destruct (tc_match_ws demo_transcoder $"/v1/users/7" None) as [[ann|]|] eqn:Hm;
    [|exfalso; vm_compute in Hm; discriminate Hm|exfalso; vm_compute in Hm; discriminate Hm].
  destruct (handle_ws_upgrade (H := AssocHttp.http) $"grpc-tunnel" (Ok demo_transcoder) true $"/v1/users/7" None
    [($"sec-websocket-protocol", $"grpc-webnext+proto")]) as [[|n]|] eqn:Hn.
  - destruct (Hg (Some ann) eq_refl) as (_ & Hin). rewrite Hoff in Hin.
    apply list_elem_of_singleton in Hin. discriminate Hin.
  - destruct (Hg (Some ann) eq_refl) as (_ & Ha & _ & _ & Hmeth & Hr).
    exists ann, n. split; [done|]. split; [done|]. split.
    + rewrite Hmeth. vm_compute in Hm. injection Hm as <-. done.
    + apply Hr. rewrite Hoff. by apply list_elem_of_singleton.
  - destruct (proj2 (Hg (Some ann) eq_refl)).
Defined.

Lemma huge_timeout_panics_witness :
  unary_proto (H := AssocHttp.http) (T := AssocHttp.tonic) TrailerCodec.enc 10 (from_secs 100) (Some $"/p.S/M")
    [($"grpc-timeout", $"18446744073709551615S")] [Ok (Data (encode_request_body [x41]))]
    (fun _ _ _ => Finished (Ok ([], []))) None = Panic.
Proof.
  exact (huge_timeout_panics (R := Flat.reflect) TrailerCodec.enc (from_secs 100) 10 [x41] [] [] None ltac:(by vm_compute) eq_refl).
Defined.
