(* ===== verification/ClientState.v ===== *)
(** * Connectivity state and endpoint URLs of the wasm client
    ([rust/crates/grpc-webnext-client/src/state.rs], [url.rs])

    [StateWatch] is the current state and a fan-out to unbounded channels. A channel is an
    index into the store of channels, which remembers whether its receiver is still there
    and everything sent on it. *)
From S2P Require Import Prelude RustStd ClientMetadata ClientStatus.

Inductive ConnectivityState : Set :=
| Idle
| Connecting
| Ready
| TransientFailure.

#[global] Instance ConnectivityState_eq_dec : EqDecision ConnectivityState.
Proof. solve_decision. Defined.

(** An [mpsc::unbounded] channel: its receiver is alive, and the items sent so far. *)
Record chan : Type := mkChan { rx_alive : bool; sent : list ConnectivityState }.

(** [struct Inner] behind the [StateWatch]; [channels] is the store of the channels made. *)
Record StateWatch : Type := mkStateWatch {
  state : option ConnectivityState;
  watchers : list nat;
  channels : list chan
}.

(** [StateWatch::default] *)
Definition sw_default : StateWatch := mkStateWatch None [] [].

Definition sw_get (self : StateWatch) : ConnectivityState := default Idle (state self).

(** [w.unbounded_send(state).is_ok()] for the sender of channel [i]. *)
Definition is_alive (cs : list chan) (i : nat) : bool :=
  match cs !! i with Some c => rx_alive c | None => false end.
Definition send_to (s : ConnectivityState) (cs : list chan) (i : nat) : list chan :=
  alter (fun c => if rx_alive c then mkChan true (sent c ++ [s]) else c) i cs.

Definition sw_set (self : StateWatch) (s : ConnectivityState) : StateWatch :=
  if decide (state self = Some s) then self
  else mkStateWatch (Some s)
         (filter (fun i => is_alive (channels self) i = true) (watchers self))
         (foldl (send_to s) (channels self) (watchers self)).

Definition sw_watch (self : StateWatch) : StateWatch * nat :=
  let i := length (channels self) in
  (mkStateWatch (state self) (watchers self ++ [i]) (channels self ++ [mkChan true []]), i).

(** The receiver of channel [i] is dropped. *)
Definition drop_rx (self : StateWatch) (i : nat) : StateWatch :=
  mkStateWatch (state self) (watchers self) (alter (fun c => mkChan false (sent c)) i (channels self)).

(** ** Endpoint URLs *)

(** [websocket_url] *)
(** [s.split_once(p)] for a string pattern. *)
Fixpoint split_once_str (p s : str) : option (str * str) :=
  if starts_with p s then Some ([], drop (length p) s)
  else match s with
  | [] => None
  | c :: s' => match split_once_str p s' with Some (a, b) => Some (c :: a, b) | None => None end
  end.

Definition websocket_url (base_url : str) : result Status (str * str) :=
  match split_once_str $"://" (trim_end "/"%byte base_url) with
  | None => Err (unavailable ($"base URL has no scheme: " ++ base_url))
  | Some (scheme, rest) =>
      let authority := default rest (head (split "/"%byte rest)) in
      if bool_decide (scheme ∈ [$"https"; $"wss"]) then Ok ($"wss" ++ $"://" ++ rest, authority)
      else if bool_decide (scheme ∈ [$"http"; $"ws"]) then Ok ($"ws" ++ $"://" ++ rest, authority)
      else Err (unavailable ($"unsupported URL scheme: " ++ scheme))
  end.

(** ** Lemmas *)

Inductive op : Set :=
| OSet (s : ConnectivityState)
| OWatch
| ODrop (i : nat).

Definition apply_op (self : StateWatch) (o : op) : StateWatch :=
  match o with
  | OSet s => sw_set self s
  | OWatch => (sw_watch self).1
  | ODrop i => drop_rx self i
  end.

(** The changes a sequence of sets makes to a state. *)
Fixpoint transitions (cur : option ConnectivityState) (ops : list op) : list ConnectivityState :=
  match ops with
  | [] => []
  | OSet s :: ops' => if decide (cur = Some s) then transitions cur ops' else s :: transitions (Some s) ops'
  | _ :: ops' => transitions cur ops'
  end.

(** Every watcher names a channel of the store, once. *)
Definition sw_wf (self : StateWatch) : Prop :=
  NoDup (watchers self) /\ Forall (fun i => i < length (channels self))%nat (watchers self).

Lemma length_send_all s cs ws : length (foldl (send_to s) cs ws) = length cs.
Proof. revert cs. induction ws as [|w ws IH]; intros cs; [done|]. cbn. rewrite IH. apply length_alter. Qed.

Lemma send_all_lookup s cs ws i :
  NoDup ws ->
  foldl (send_to s) cs ws !! i
  = (fun c => if bool_decide (i ∈ ws) && rx_alive c then mkChan true (sent c ++ [s]) else c) <$> cs !! i.
Proof.
  revert cs. induction ws as [|w ws IH]; intros cs Hnd; cbn [foldl].
  - rewrite bool_decide_eq_false_2 by (by intros ?%elem_of_nil). cbn. by destruct (cs !! i).
  - apply NoDup_cons in Hnd as [Hw Hnd]. rewrite IH by done. unfold send_to.
    destruct (decide (w = i)) as [->|Hne].
    + rewrite list_lookup_alter, (bool_decide_eq_false_2 (i ∈ ws)), (bool_decide_eq_true_2 (i ∈ i :: ws))
        by (done || by left).
      rewrite decide_True by done. by destruct (cs !! i) as [[[] ?]|].
    + rewrite list_lookup_alter_ne by done. destruct (cs !! i) as [c|]; [|done]. cbn.
      assert (bool_decide (i ∈ w :: ws) = bool_decide (i ∈ ws)) as ->; [|done].
      apply bool_decide_ext. rewrite elem_of_cons. naive_solver.
Qed.

Lemma apply_op_wf self o : sw_wf self -> sw_wf (apply_op self o).
Proof.
  intros [Hnd Hlt]. destruct o as [s| |i]; cbn.
  - unfold sw_set. case_decide; [done|]. split; cbn; [by apply NoDup_filter|].
    rewrite length_send_all. rewrite Forall_forall in *. intros x [_ Hx]%list_elem_of_filter. by apply Hlt.
  - split; cbn.
    + apply NoDup_app. split; [done|]. split; [|apply NoDup_singleton]. intros x Hx ->%list_elem_of_singleton.
      rewrite Forall_forall in Hlt. specialize (Hlt _ Hx). lia.
    + rewrite length_app. apply Forall_app. split; [|apply Forall_singleton; cbn; lia].
      eapply Forall_impl; [exact Hlt|]. cbn. intros; lia.
  - split; [done|]. cbn. by rewrite length_alter.
Qed.

(** One operation, seen from a live watched channel. *)
Lemma apply_op_chan self o i l :
  sw_wf self -> i ∈ watchers self -> channels self !! i = Some (mkChan true l) -> o <> ODrop i ->
  i ∈ watchers (apply_op self o)
  /\ channels (apply_op self o) !! i = Some (mkChan true (l ++ transitions (state self) [o]))
  /\ state (apply_op self o) = match o with OSet s => Some s | _ => state self end.
Proof.
  intros [Hnd Hlt] Hi Hc Ho. destruct o as [s| |j]; cbn.
  - unfold sw_set. case_decide as Hs; [by rewrite app_nil_r|]. cbn. split; [|split; [|done]].
    + apply list_elem_of_filter. split; [|done]. unfold is_alive. by rewrite Hc.
    + rewrite send_all_lookup, Hc by done. cbn. by rewrite bool_decide_eq_true_2.
  - rewrite app_nil_r. split; [by apply elem_of_app; left|]. split; [|done]. by apply lookup_app_l_Some.
  - rewrite app_nil_r. split; [done|]. split; [|done]. by rewrite list_lookup_alter_ne by congruence.
Qed.

Lemma transitions_app cur o ops :
  transitions cur (o :: ops) = transitions cur [o] ++ transitions (match o with OSet s => Some s | _ => cur end) ops.
Proof. destruct o as [s| |i]; cbn; [case_decide as Hs|..]; subst; done. Qed.

Lemma apply_ops_chan ops self i l :
  sw_wf self -> i ∈ watchers self -> channels self !! i = Some (mkChan true l) -> ODrop i ∉ ops ->
  channels (foldl apply_op self ops) !! i = Some (mkChan true (l ++ transitions (state self) ops)).
Proof.
  revert self l. induction ops as [|o ops IH]; intros self l Hwf Hi Hc Hd; cbn [foldl].
  - cbn. by rewrite app_nil_r.
  - apply not_elem_of_cons in Hd as [Hd Hds].
    destruct (apply_op_chan self o i l Hwf Hi Hc (not_eq_sym Hd)) as (Hi' & Hc' & Hs).
    rewrite (IH _ _ (apply_op_wf _ _ Hwf) Hi' Hc' Hds), Hs, (transitions_app (state self) o ops).
    by rewrite app_assoc.
Qed.

Lemma trim_start_app c s y r : y <> c -> trim_start c (s ++ y :: r) = trim_start c s ++ y :: r.
Proof. intros Hy. induction s as [|x s IH]; cbn; [by rewrite decide_False|by case_decide]. Qed.

(** Trimming the slashes off the end stops at the authority. *)
Lemma trim_end_url c q a p : c ∉ a -> a <> [] -> trim_end c (q ++ a ++ p) = q ++ a ++ trim_end c p.
Proof.
  intros Hc Ha. destruct (exists_last Ha) as (a' & y & ->).
  assert (y <> c) by (intros ->; apply Hc, elem_of_app; right; by left).
  unfold trim_end. rewrite !rev_app_distr. cbn [rev app]. rewrite <- app_assoc. cbn [app].
  rewrite trim_start_app by done. rewrite !rev_app_distr. cbn [rev]. rewrite !rev_app_distr, !rev_involutive.
  by rewrite <- !app_assoc.
Qed.

(** What is left of a path is a path. *)
Lemma trim_end_path c p : trim_end c (c :: p) = [] \/ exists p', trim_end c (c :: p) = c :: p'.
Proof.
  unfold trim_end. cbn [rev]. induction (rev p) as [|x s IH]; cbn.
  - left. by rewrite decide_True.
  - case_decide; [done|]. right. exists (rev (x :: s)). cbn. by rewrite rev_app_distr.
Qed.

Lemma split_once_str_app s r : ":"%byte ∉ s -> split_once_str $"://" (s ++ $"://" ++ r) = Some (s, r).
Proof.
  induction s as [|x s IH]; intros Hs; [done|]. apply not_elem_of_cons in Hs as [Hx Hs].
  cbn [app split_once_str]. rewrite IH by done.
  replace (starts_with $"://" _) with false; [done|]. symmetry. cbn.
  by rewrite bool_decide_eq_false_2 by congruence.
Qed.

(** ** Properties *)

(** A watcher sees every change after it subscribed, in order, and nothing else: whatever
    states are recorded, watchers added and other receivers dropped meanwhile, its channel
    holds exactly the transitions from the state it was created in, none of them a repeat. *)
Theorem watch_sees_transitions (self : StateWatch) (ops : list op)
  (Hwf : sw_wf self) (Hlive : ODrop (sw_watch self).2 ∉ ops) :
  channels (foldl apply_op (sw_watch self).1 ops) !! (sw_watch self).2
    = Some (mkChan true (transitions (state self) ops))
  /\ (forall i, (transitions (state self) ops) !! i <> None ->
        transitions (state self) ops !! i
        <> match i with O => state self | S j => transitions (state self) ops !! j end)
  /\ sw_wf (foldl apply_op (sw_watch self).1 ops).
Proof.
  pose proof (apply_op_wf self OWatch Hwf) as Hwf1. cbn [apply_op] in Hwf1. split; [|split].
  - rewrite (apply_ops_chan ops (sw_watch self).1 (sw_watch self).2 []); [done|done| |by apply list_lookup_middle|done].
    cbn. apply elem_of_app. right. by apply list_elem_of_singleton.
  - clear Hwf1 Hlive Hwf. generalize (state self) as cur. induction ops as [|[s| |j] ops IH]; intros cur i Hi; cbn in *.
    + done.
    + case_decide as Hs; [by apply IH|]. destruct i as [|i]; cbn in *; [congruence|].
      specialize (IH (Some s) i Hi). by destruct i.
    + by apply IH.
    + by apply IH.
  - clear Hlive. revert Hwf1. generalize (sw_watch self).1 as sw. induction ops as [|o ops IH]; intros sw Hsw; [done|].
    apply IH, apply_op_wf, Hsw.
Qed.

(** An endpoint URL [scheme://authority/path] maps to the WebSocket URL of the same
    authority and path (without trailing slashes), secure exactly when the endpoint is, and
    to that authority alone; a URL without a scheme, or with another scheme, is refused. *)
Theorem websocket_url_spec (scheme authority path : str)
  (Hscheme : ":"%byte ∉ scheme) (Hauth : "/"%byte ∉ authority) (Hne : authority <> [])
  (Hpath : path = [] \/ exists p, path = "/"%byte :: p) :
  websocket_url (scheme ++ $"://" ++ authority ++ path)
  = if bool_decide (scheme ∈ [$"https"; $"wss"; $"http"; $"ws"]) then
      Ok ((if bool_decide (scheme ∈ [$"https"; $"wss"]) then $"wss" else $"ws") ++ $"://"
            ++ authority ++ trim_end "/"%byte path, authority)
    else Err (unavailable ($"unsupported URL scheme: " ++ scheme)).
Proof.
  assert (exists q, trim_end "/"%byte path = q /\ (q = [] \/ exists p, q = "/"%byte :: p)) as (q & Hq & Hshape).
  { eexists. split; [done|]. destruct Hpath as [->|[p ->]]; [by left|apply trim_end_path]. }
  unfold websocket_url. rewrite app_assoc, trim_end_url, Hq, <- app_assoc, split_once_str_app by done.
  assert (default (authority ++ q) (head (split "/"%byte (authority ++ q))) = authority) as ->.
  { destruct Hshape as [->|[p ->]]; [|by rewrite split_app_sep].
    rewrite app_nil_r. by rewrite split_no_sep_singleton. }
  destruct (decide (scheme ∈ [$"https"; $"wss"])) as [Hs|Hs].
  - rewrite !bool_decide_eq_true_2; [done| |done]. set_solver.
  - rewrite (bool_decide_eq_false_2 (scheme ∈ [$"https"; $"wss"])) by done.
    assert (bool_decide (scheme ∈ [$"https"; $"wss"; $"http"; $"ws"]) = bool_decide (scheme ∈ [$"http"; $"ws"])) as ->; [|done].
    apply bool_decide_ext. set_solver.
Qed.

(** ** Witnesses *)

Lemma watch_sees_transitions_witness :
  channels (foldl apply_op (sw_watch sw_default).1 [OSet Connecting; OSet Connecting; OWatch; ODrop 1; OSet Ready]) !! 0%nat
  = Some (mkChan true [Connecting; Ready]).
Proof.
  apply (watch_sees_transitions sw_default [OSet Connecting; OSet Connecting; OWatch; ODrop 1; OSet Ready]).
  - split; [apply NoDup_nil_2|apply Forall_nil_2].
  - intros Hx. repeat (apply elem_of_cons in Hx as [Hx|Hx]; [discriminate Hx|]). by apply elem_of_nil in Hx.
Defined.

Lemma websocket_url_spec_witness :
  websocket_url $"https://api.example.com:8443/v1/" = Ok ($"wss://api.example.com:8443/v1", $"api.example.com:8443").
Proof.
  apply (websocket_url_spec $"https" $"api.example.com:8443" $"/v1/").
  - apply (bool_decide_unpack _). vm_compute. exact I.
  - apply (bool_decide_unpack _). vm_compute. exact I.
  - discriminate.
  - right. by exists $"v1/".
Defined.
