(* ===== verification/ClientChannel.v ===== *)
(** * The reconnecting channel of the wasm client
    ([rust/crates/grpc-webnext-client/src/client.rs]: [Client::tunnel], [forget], [send])

    The client is single-threaded: between two [await]s a call runs alone, so each stretch
    of [tunnel] and [send] between awaits is one function on the shared [Inner], and the
    executor's interleaving is the order of the events of [step]. A dial is an index; the
    connection it opens has the same index ([Connector]: every call yields a fresh
    connection). *)
From S2P Require Import Prelude RustStd ClientMetadata ClientStatus ClientState.

(** [struct Inner]. *)
Record Inner : Type := mkInner {
  connector : bool;
  tunnel : option nat;
  dialing : option nat;
  watch : StateWatch;
  authority : str
}.

Definition set_watch (self : Inner) (s : ConnectivityState) : Inner :=
  mkInner (connector self) (tunnel self) (dialing self) (sw_set (watch self) s) (authority self).
Definition set_tunnel (self : Inner) (t : option nat) : Inner :=
  mkInner (connector self) t (dialing self) (watch self) (authority self).
Definition set_dialing (self : Inner) (d : option nat) : Inner :=
  mkInner (connector self) (tunnel self) d (watch self) (authority self).

(** [conn.is_closed()] of a connection, [is_none_or(|c| c.is_closed())] of the slot. *)
Definition is_closed (closed : gset nat) (self : Inner) : bool :=
  match tunnel self with Some c => bool_decide (c ∈ closed) | None => true end.

(** [Client::state] *)
Definition client_state (closed : gset nat) (self : Inner) : ConnectivityState * Inner :=
  let self :=
    if bool_decide (sw_get (watch self) = Ready) && is_closed closed self then set_watch self Idle else self in
  (sw_get (watch self), self).

Definition cannot_redial : str :=
  $"the tunnel is closed and this client cannot redial (built over a caller-supplied transport)".

(** [tunnel] up to [dial.await]: a live connection, a failure, or the dial to await, which is
    [next] when this call starts one. *)
Inductive begun : Type :=
| BReady (conn : nat)
| BFail (e : Status)
| BAwait (dial : nat).

Definition tunnel_dial (next : nat) (self : Inner) : begun * Inner :=
  if connector self then
    match dialing self with
    | Some shared => (BAwait shared, self)
    | None => (BAwait next, set_dialing (set_watch self Connecting) (Some next))
    end
  else (BFail (unavailable cannot_redial), self).

Definition tunnel_begin (closed : gset nat) (next : nat) (self : Inner) : begun * Inner :=
  match tunnel self with
  | Some conn =>
      if decide (conn ∉ closed) then (BReady conn, self)
      else tunnel_dial next (set_watch (set_tunnel self None) Idle)
  | None => tunnel_dial next self
  end.

(** [tunnel] after [dial.await], where the dial [d] gave [result]. *)
Definition tunnel_end (d : nat) (result : result Status unit) (self : Inner) : begun * Inner :=
  let self := set_dialing self None in
  match result with
  | Ok _ => (BReady d, set_tunnel (set_watch self Ready) (Some d))
  | Err e => (BFail e, set_watch self TransientFailure)
  end.

(** [Client::forget] *)
Definition forget (dead : nat) (self : Inner) : Inner :=
  if decide (tunnel self = Some dead) then set_watch (set_tunnel self None) Idle else self.

(** [send] once [conn.request(..)] gave [response]. *)
Definition send_end {A} (closed : gset nat) (conn : nat) (response : result str A) (self : Inner)
  : result Status A * Inner :=
  match response with
  | Ok r => (Ok r, self)
  | Err e =>
      (Err (unavailable ($"request failed: " ++ e)),
       if decide (conn ∈ closed) then forget conn self else self)
  end.

(** ** Interleavings *)

(** Where a [send] is: awaiting the shared dial, awaiting the response on its connection,
    finished, or dropped by its caller. *)
Inductive call : Type :=
| Awaiting (d : nat)
| Using (conn : nat)
| Finished (r : result Status unit)
| Dropped.

Record World : Type := mkWorld {
  inner : Inner;
  closed : gset nat;
  dials : list (option (result Status unit));
  calls : list call
}.

Inductive event : Type :=
| Call
| Settle (d : nat) (r : result Status unit)
| Resume (i : nat)
| Respond (i : nat) (r : result str unit)
| Close (conn : nat)
| Drop (i : nat)
| Query.

Definition call_of (b : begun) : call :=
  match b with BReady c => Using c | BFail e => Finished (Err e) | BAwait d => Awaiting d end.

(** Events that cannot happen (a dial settling twice, a call resumed before its dial
    settles) leave the world as it is. *)
Definition step (w : World) (e : event) : World :=
  match e with
  | Call =>
      let next := length (dials w) in
      let '(b, inner') := tunnel_begin (closed w) next (inner w) in
      let dials' := match b with BAwait d => if decide (d = next) then dials w ++ [None] else dials w | _ => dials w end in
      mkWorld inner' (closed w) dials' (calls w ++ [call_of b])
  | Settle d r =>
      match dials w !! d with
      | Some None => mkWorld (inner w) (closed w) (<[d := Some r]> (dials w)) (calls w)
      | _ => w
      end
  | Resume i =>
      match calls w !! i with
      | Some (Awaiting d) =>
          match dials w !! d with
          | Some (Some r) =>
              let '(b, inner') := tunnel_end d r (inner w) in
              mkWorld inner' (closed w) (dials w) (<[i := call_of b]> (calls w))
          | _ => w
          end
      | _ => w
      end
  | Respond i r =>
      match calls w !! i with
      | Some (Using conn) =>
          let '(r', inner') := send_end (closed w) conn r (inner w) in
          mkWorld inner' (closed w) (dials w) (<[i := Finished r']> (calls w))
      | _ => w
      end
  | Close conn => mkWorld (inner w) ({[conn]} ∪ closed w) (dials w) (calls w)
  | Drop i => mkWorld (inner w) (closed w) (dials w) (alter (fun c => match c with Finished r => c | _ => Dropped end) i (calls w))
  | Query => mkWorld (client_state (closed w) (inner w)).2 (closed w) (dials w) (calls w)
  end.
Definition run_events : World -> list event -> World := foldl step.

(** [with_connector] and [from_connection]. *)
Definition with_connector (authority : str) : World :=
  mkWorld (mkInner true None None sw_default authority) ∅ [] [].
Definition from_connection (authority : str) : World :=
  mkWorld (mkInner false (Some 0%nat) None (sw_set sw_default Ready) authority) ∅ [Some (Ok tt)] [].

(** The dials that have been started and have not settled: sockets being opened. *)
Definition in_flight (w : World) : nat := length (filter (fun d => d = None) (dials w)).

(** ** Lemmas *)

Lemma run_events_cons w e es : run_events w (e :: es) = run_events (step w e) es.
Proof. done. Qed.
Lemma run_events_app w es es' : run_events w (es ++ es') = run_events (run_events w es) es'.
Proof. apply foldl_app. Qed.

Definition live (w : World) : Prop := is_closed (closed w) (inner w) = false.

(** A dial [d] is in flight in the slot and there is no tunnel. *)
Definition dialing_world (w : World) (d : nat) : Prop :=
  connector (inner w) = true /\ tunnel (inner w) = None
  /\ dialing (inner w) = Some d /\ dials w !! d = Some None.

Lemma tunnel_begin_dead closed next self :
  is_closed closed self = true ->
  exists self', tunnel_begin closed next self = tunnel_dial next self'
    /\ tunnel self' = None /\ dialing self' = dialing self /\ connector self' = connector self
    /\ authority self' = authority self.
Proof.
  unfold is_closed, tunnel_begin. destruct (tunnel self) as [c|] eqn:Ht.
  - intros Hc%bool_decide_eq_true. rewrite decide_False by naive_solver. by eexists.
  - intros _. by exists self.
Qed.

(** The first call with no live tunnel and an empty slot opens a dial. *)
Lemma call_opens w :
  connector (inner w) = true -> ~ live w -> dialing (inner w) = None ->
  exists inner', step w Call = mkWorld inner' (closed w) (dials w ++ [None]) (calls w ++ [Awaiting (length (dials w))])
    /\ dialing_world (step w Call) (length (dials w)).
Proof.
  intros Hc Hl Hd. unfold live in Hl. apply not_false_is_true in Hl.
  destruct (tunnel_begin_dead (closed w) (length (dials w)) (inner w) Hl) as (s & Hb & Ht & Hd' & Hc' & _).
  unfold step. rewrite Hb. unfold tunnel_dial. rewrite Hc', Hc, Hd', Hd. cbn [call_of].
  rewrite decide_True by done. eexists. split; [done|].
  unfold dialing_world. cbn. rewrite Hc', Ht. split; [done|]. split; [done|]. split; [done|]. by apply list_lookup_middle.
Qed.

(** A call while a dial is in flight joins it. *)
Lemma call_joins w d :
  dialing_world w d ->
  step w Call = mkWorld (inner w) (closed w) (dials w) (calls w ++ [Awaiting d])
  /\ dialing_world (step w Call) d.
Proof.
  intros (Hc & Ht & Hd & Hf). assert (d <> length (dials w)) by (apply lookup_lt_Some in Hf; lia).
  assert (step w Call = mkWorld (inner w) (closed w) (dials w) (calls w ++ [Awaiting d])) as E.
  { unfold step, tunnel_begin, tunnel_dial. rewrite Ht, Hc, Hd. cbn [call_of]. by rewrite decide_False. }
  rewrite E. split; [done|]. by split_and!.
Qed.

Lemma calls_join n w d :
  dialing_world w d ->
  run_events w (replicate n Call) = mkWorld (inner w) (closed w) (dials w) (calls w ++ replicate n (Awaiting d)).
Proof.
  revert w. induction n as [|n IH]; intros w Hw; cbn [replicate]; rewrite ?run_events_cons.
  - rewrite app_nil_r. by destruct w.
  - destruct (call_joins w d Hw) as [E Hw']. rewrite E in *. rewrite IH by done.
    cbn. by rewrite <- app_assoc.
Qed.

(** The world once the first waiter of dial [d] has resumed with [r]. *)
Definition settled_inner (d : nat) (r : result Status unit) (self self0 : Inner) : Prop :=
  connector self = connector self0 /\ authority self = authority self0 /\ dialing self = None
  /\ match r with
     | Ok _ => tunnel self = Some d /\ sw_get (watch self) = Ready
     | Err _ => tunnel self = tunnel self0 /\ sw_get (watch self) = TransientFailure
     end.

Lemma sw_get_set sw s : sw_get (sw_set sw s) = s.
Proof. unfold sw_set, sw_get. case_decide as Hs; [by rewrite Hs|done]. Qed.

Lemma tunnel_end_settled d r self0 :
  settled_inner d r (tunnel_end d r self0).2 self0.
Proof. destruct r; cbn; unfold settled_inner; cbn; by rewrite sw_get_set. Qed.

Definition resumed (d : nat) (r : result Status unit) : call :=
  match r with Ok _ => Using d | Err e => Finished (Err e) end.

Lemma resume_step w i d r :
  calls w !! i = Some (Awaiting d) -> dials w !! d = Some (Some r) ->
  step w (Resume i) = mkWorld (tunnel_end d r (inner w)).2 (closed w) (dials w) (<[i := resumed d r]> (calls w)).
Proof. intros Hi Hd. cbn. rewrite Hi, Hd. by destruct r. Qed.

(** All waiters resuming one after the other see the same outcome. *)
Lemma resume_all ns w d r self0 :
  NoDup ns -> ns <> [] -> (forall i, i ∈ ns -> calls w !! i = Some (Awaiting d)) -> dials w !! d = Some (Some r) ->
  inner w = self0 \/ settled_inner d r (inner w) self0 ->
  let w' := run_events w (map Resume ns) in
  settled_inner d r (inner w') self0 /\ closed w' = closed w /\ dials w' = dials w
  /\ length (calls w') = length (calls w)
  /\ (forall i, i ∈ ns -> calls w' !! i = Some (resumed d r))
  /\ (forall i, i ∉ ns -> calls w' !! i = calls w !! i).
Proof.
  revert w. induction ns as [|n ns IH]; intros w Hnd Hne Hc Hd Hin w'; [done|].
  apply NoDup_cons in Hnd as [Hn Hnd]. subst w'. cbn [map]. rewrite run_events_cons.
  pose proof (resume_step w n d r (Hc n (list_elem_of_here _ _)) Hd) as E.
  set (w1 := step w (Resume n)) in *.
  assert (settled_inner d r (inner w1) self0) as Hs.
  { rewrite E. cbn [inner]. pose proof (tunnel_end_settled d r (inner w)) as Ht.
    destruct Hin as [<-|Hin]; [done|]. unfold settled_inner in *. destruct r; naive_solver congruence. }
  assert (calls w1 !! n = Some (resumed d r)) as Hn1.
  { rewrite E. cbn. rewrite list_lookup_insert_eq; [done|]. by eapply lookup_lt_Some, Hc, list_elem_of_here. }
  assert (forall i, i <> n -> calls w1 !! i = calls w !! i) as Hother.
  { intros i Hi. rewrite E. cbn. by rewrite list_lookup_insert_ne by done. }
  assert (closed w1 = closed w /\ dials w1 = dials w /\ length (calls w1) = length (calls w)) as (Hcl & Hdl & Hll).
  { rewrite E. cbn. by rewrite length_insert. }
  clearbody w1. destruct (decide (ns = [])) as [->|Hns].
  { cbn. split; [done|]. split; [done|]. split; [done|]. split; [done|]. split.
    - by intros i ->%list_elem_of_singleton.
    - intros i Hi. apply Hother. intros ->. apply Hi. left. }
  destruct (IH w1 Hnd Hns) as (R1 & R2 & R3 & R4 & R5 & R6).
  - intros i Hi. rewrite Hother by (intros ->; done). by apply Hc; right.
  - by rewrite Hdl.
  - by right.
  - split; [done|]. split; [congruence|]. split; [congruence|]. split; [congruence|]. split.
    + intros i [->|Hi]%elem_of_cons; [by rewrite R6|by apply R5].
    + intros i Hi. apply not_elem_of_cons in Hi as [Hi1 Hi2]. rewrite R6 by done. by apply Hother.
Qed.

(** Once the slot is filled, every later call until the dial settles awaits it. *)
Lemma calls_share n w d :
  connector (inner w) = true -> ~ live w ->
  (dialing (inner w) = None /\ d = length (dials w)) \/ dialing_world w d ->
  exists inner', run_events w (replicate (S n) Call) = mkWorld inner' (closed w)
      (if dialing (inner w) is Some _ then dials w else dials w ++ [None]) (calls w ++ replicate (S n) (Awaiting d))
    /\ connector inner' = true /\ tunnel inner' = None /\ dialing inner' = Some d.
Proof.
  intros Hc Hl Hd. cbn [replicate]. rewrite run_events_cons. destruct Hd as [[Hd ->]|Hd].
  - destruct (call_opens w Hc Hl Hd) as (inner' & E & Hw). pose proof Hw as (Hc' & Ht' & Hd' & _).
    rewrite (calls_join n _ _ Hw). rewrite E in *. cbn in *. rewrite Hd.
    exists inner'. rewrite <- app_assoc. by split_and!.
  - destruct (call_joins w d Hd) as (E & Hw). pose proof Hw as (Hc' & Ht' & Hd' & _).
    rewrite (calls_join n _ _ Hw). rewrite E in *. cbn in *. rewrite Hd'.
    exists (inner w). rewrite <- app_assoc. by split_and!.
Qed.

(** A call's branch at the start of [tunnel]. *)
Lemma call_result w :
  exists b inner', tunnel_begin (closed w) (length (dials w)) (inner w) = (b, inner')
    /\ calls (step w Call) = calls w ++ [call_of b] /\ inner (step w Call) = inner'.
Proof.
  destruct (tunnel_begin _ _ _) as [b inner'] eqn:E. exists b, inner'. split; [done|]. unfold step. by rewrite E.
Qed.

Lemma tunnel_dial_not_ready next self c : (tunnel_dial next self).1 <> BReady c.
Proof. unfold tunnel_dial. by repeat case_match. Qed.

Lemma tunnel_begin_ready closed next self c :
  (tunnel_begin closed next self).1 = BReady c -> tunnel self = Some c /\ c ∉ closed.
Proof.
  unfold tunnel_begin. destruct (tunnel self) as [c'|]; [|by intros ?%tunnel_dial_not_ready].
  case_decide; [|by intros ?%tunnel_dial_not_ready]. cbn. by intros [= ->].
Qed.

Lemma connector_step w e : connector (inner (step w e)) = connector (inner w).
Proof.
  destruct e; cbn; unfold tunnel_begin, tunnel_dial, tunnel_end, send_end, forget, client_state;
    by repeat (case_match; simplify_eq; cbn in *).
Qed.

Lemma authority_step w e : authority (inner (step w e)) = authority (inner w).
Proof.
  destruct e; cbn; unfold tunnel_begin, tunnel_dial, tunnel_end, send_end, forget, client_state;
    by repeat (case_match; simplify_eq; cbn in *).
Qed.

(** What holds in every reachable world: the slot and the calls name dials that were
    started, the tunnel and the connections in use were opened by a successful one, a client
    with no connector never dials, and [Connecting] means a dial is in the slot. *)
Definition started (w : World) (d : nat) : Prop := (d < length (dials w))%nat.
Definition opened (w : World) (c : nat) : Prop := dials w !! c = Some (Some (Ok tt)).
Definition call_ok (w : World) (c : call) : Prop :=
  match c with Using c => opened w c | Awaiting d => started w d | _ => True end.
Record channel_inv (w : World) : Prop := {
  inv_connecting : sw_get (watch (inner w)) = Connecting -> is_Some (dialing (inner w));
  inv_slot d : dialing (inner w) = Some d -> started w d;
  inv_tunnel c : tunnel (inner w) = Some c -> opened w c;
  inv_calls : Forall (call_ok w) (calls w);
  inv_single : connector (inner w) = false -> dialing (inner w) = None /\ length (dials w) = 1%nat
}.


Lemma call_ok_grow w w' c :
  (length (dials w) <= length (dials w'))%nat -> (forall d, opened w d -> opened w' d) ->
  call_ok w c -> call_ok w' c.
Proof. intros Hl Ho. destruct c; cbn; unfold started; [lia|apply Ho|done|done]. Qed.

(** A step keeps the invariant when it only adds or settles dials, and what it puts in the
    slots is backed by them. *)
Lemma inv_intro w w' :
  channel_inv w -> (length (dials w) <= length (dials w'))%nat -> (forall d, opened w d -> opened w' d) ->
  (sw_get (watch (inner w')) = Connecting -> is_Some (dialing (inner w'))) ->
  (forall d, dialing (inner w') = Some d -> dialing (inner w) = Some d \/ started w' d) ->
  (forall c, tunnel (inner w') = Some c -> tunnel (inner w) = Some c \/ opened w' c) ->
  Forall (fun c => c ∈ calls w \/ call_ok w' c) (calls w') ->
  (connector (inner w') = false -> connector (inner w) = false /\ dialing (inner w') = None /\ length (dials w') = length (dials w)) ->
  channel_inv w'.
Proof.
  intros [I1 I2 I3 I4 I5] Hl Ho H1 H2 H3 H4 H5. split.
  - done.
  - intros d [Hd|Hd]%H2; [|done]. specialize (I2 d Hd). unfold started in *. lia.
  - intros c [Hc|Hc]%H3; [|done]. auto.
  - eapply Forall_impl; [exact H4|]. intros c [Hc|Hc]; [|done]. rewrite Forall_forall in I4.
    eapply call_ok_grow; [done|done|by apply I4].
  - intros (Hc & Hd & Hn)%H5. split; [done|]. rewrite Hn. by apply I5.
Qed.

Lemma calls_insert w w' i c : call_ok w' c -> Forall (fun c => c ∈ calls w \/ call_ok w' c) (<[i := c]> (calls w)).
Proof.
  intros Hc. apply Forall_forall. intros x Hx. apply list_elem_of_lookup in Hx as [j Hj].
  destruct (decide (i = j)) as [->|Hne].
  - destruct (decide (j < length (calls w))%nat).
    + rewrite list_lookup_insert_eq in Hj by done. simplify_eq. by right.
    + rewrite list_insert_ge in Hj by lia. left. by eapply list_elem_of_lookup_2.
  - rewrite list_lookup_insert_ne in Hj by done. left. by eapply list_elem_of_lookup_2.
Qed.

Lemma calls_same w w' : Forall (fun c => c ∈ calls w \/ call_ok w' c) (calls w).
Proof. apply Forall_forall. auto. Qed.

Lemma calls_snoc w w' c : call_ok w' c -> Forall (fun c => c ∈ calls w \/ call_ok w' c) (calls w ++ [c]).
Proof. intros Hc. apply Forall_app. split; [apply calls_same|]. apply Forall_singleton. by right. Qed.

Lemma step_call_inv w : channel_inv w -> channel_inv (step w Call).
Proof.
  intros Hi. unfold step, tunnel_begin, tunnel_dial.
  destruct (tunnel (inner w)) as [c|] eqn:Ht; [destruct (decide (c ∉ closed w)) as [Hc|Hc]|];
    cbn [set_tunnel set_watch connector dialing];
    [|destruct (connector (inner w)) eqn:Hcon; [destruct (dialing (inner w)) as [d|] eqn:Hd|]..];
    cbn [call_of]; try rewrite (decide_True (P := length (dials w) = length (dials w))) by done;
    try (rewrite decide_False by (pose proof (inv_slot w Hi d Hd) as Hs; unfold started in Hs; lia)).
  all: apply (inv_intro w _ Hi); unfold opened, started; cbn;
    rewrite ?length_app, ?sw_get_set; try done; try lia; try congruence; try naive_solver.
  all: try (intros; by apply lookup_app_l_Some).
  all: try (intros d' Hd'; simplify_eq; right; cbn; lia).
  all: try (apply calls_snoc; cbn; unfold opened, started; cbn; rewrite ?length_app; try done; cbn; try lia).
  all: try (by apply (inv_tunnel w Hi)).
  all: try (by apply (inv_slot w Hi)).
  all: try (intros _; destruct (inv_single w Hi Hcon) as [? _]; split_and!; done || congruence).
  all: try (by apply (inv_connecting w Hi)).
  intros Hf. destruct (inv_single w Hi Hf). auto.
Qed.

Lemma step_inv w e : channel_inv w -> channel_inv (step w e).
Proof.
  intros Hi. destruct e as [|d r|i|i r|c|i|]; [by apply step_call_inv|..].
  - cbn. destruct (dials w !! d) as [[|]|] eqn:Hd; try done.
    apply (inv_intro w _ Hi); unfold opened, started; cbn; rewrite ?length_insert; try done; auto.
    + intros d' Hd'. rewrite list_lookup_insert_ne by congruence. done.
    + apply (inv_connecting w Hi).
    + apply calls_same.
    + intros Hc. destruct (inv_single w Hi Hc). auto.
  - cbn. destruct (calls w !! i) as [[d| | |]|] eqn:Hc; try done.
    destruct (dials w !! d) as [[r|]|] eqn:Hd; try done.
    destruct r as [[]|e]; cbn [tunnel_end call_of];
      apply (inv_intro w _ Hi); unfold opened, started; cbn; rewrite ?sw_get_set; try done; auto;
      try (intros Hf; destruct (inv_single w Hi Hf); by auto); try (by apply calls_insert); naive_solver.
  - cbn. destruct (calls w !! i) as [[|c| |]|] eqn:Hc; try done.
    destruct r as [u|e]; cbn [send_end]; [|unfold forget; repeat case_decide];
      apply (inv_intro w _ Hi); unfold opened, started; cbn; rewrite ?sw_get_set; try done; auto;
      try (by apply calls_insert); try (intros Hf; destruct (inv_single w Hi Hf); auto); try apply (inv_connecting w Hi).
  - apply (inv_intro w _ Hi); unfold opened, started; cbn; try done; auto.
    + apply (inv_connecting w Hi).
    + apply calls_same.
    + intros Hf. destruct (inv_single w Hi Hf). auto.
  - apply (inv_intro w _ Hi); unfold opened, started; cbn; try done; auto.
    + apply (inv_connecting w Hi).
    + apply Forall_forall. intros x Hx. apply list_elem_of_lookup in Hx as [j Hj].
      destruct (decide (i = j)) as [->|Hne].
      * rewrite list_lookup_alter, decide_True in Hj by done. apply fmap_Some in Hj as (y & Hy & ->).
        destruct y; try (right; done).
      * rewrite list_lookup_alter_ne in Hj by done. left. by eapply list_elem_of_lookup_2.
    + intros Hf. destruct (inv_single w Hi Hf). auto.
  - cbn. unfold client_state. destruct (_ && _); cbn [snd];
      apply (inv_intro w _ Hi); unfold opened, started; cbn; rewrite ?sw_get_set; try done; auto;
      try (intros Hf; destruct (inv_single w Hi Hf); by auto); try apply calls_same; try apply (inv_connecting w Hi).
Qed.

Lemma run_events_inv es w : channel_inv w -> channel_inv (run_events w es).
Proof. revert w. induction es as [|e es IH]; intros w Hw; [done|]. rewrite run_events_cons. by apply IH, step_inv. Qed.

Lemma with_connector_inv a : channel_inv (with_connector a).
Proof. split; cbn; done. Qed.

Lemma from_connection_inv a : channel_inv (from_connection a).
Proof. split; cbn; try done. intros c [= <-]. done. Qed.

Lemma run_events_connector w es : connector (inner (run_events w es)) = connector (inner w).
Proof. revert w. induction es as [|e es IH]; intros w; [done|]. by rewrite run_events_cons, IH, connector_step. Qed.

(** ** Properties *)


(** C21: The channel redials, and only when it must. In every reachable world: a new call is put
    on a live tunnel, or on a dial that was started, or fails because this client cannot
    dial; a call that fails on a closed connection makes the channel forget that connection
    and no newer one, so the next call does not get it back; a client over a supplied
    connection never opens another, and [state] says [Ready] only with a live tunnel and
    [Connecting] only while a dial is in the slot. *)
Theorem channel_redials (authority : str) (dials_itself : bool) (es : list event) (i conn : nat) (msg : str) :
  let w := run_events (if dials_itself then with_connector authority else from_connection authority) es in
  (exists c, calls (step w Call) = calls w ++ [c]
     /\ match c with
        | Using t => tunnel (inner w) = Some t /\ (t ∉ closed w) /\ opened w t
        | Awaiting d => dials_itself = true /\ ~ live w /\ dialing (inner (step w Call)) = Some d
        | Finished r => dials_itself = false /\ ~ live w /\ r = Err (unavailable cannot_redial)
        | Dropped => False
        end)
  /\ (calls w !! i = Some (Using conn) -> conn ∈ closed w ->
      let w' := step w (Respond i (Err msg)) in
      calls w' !! i = Some (Finished (Err (unavailable ($"request failed: " ++ msg))))
      /\ tunnel (inner w') = match decide (tunnel (inner w) = Some conn) with left _ => None | right _ => tunnel (inner w) end
      /\ last (calls (step w' Call)) <> Some (Using conn))
  /\ (dials_itself = false -> length (dials w) = 1%nat)
  /\ match (client_state (closed w) (inner w)).1 with
     | Ready => live w
     | Connecting => is_Some (dialing (inner w))
     | _ => True
     end.
Proof.
  intros w. assert (channel_inv w) as Hi.
  { apply run_events_inv. destruct dials_itself; [apply with_connector_inv|apply from_connection_inv]. }
  assert (connector (inner w) = dials_itself) as Hcon by (unfold w; rewrite run_events_connector; by destruct dials_itself).
  clearbody w. split_and!.
  - destruct (call_result w) as (b & inner' & Hb & -> & Hin). exists (call_of b). split; [done|].
    destruct b as [t|e|d]; cbn [call_of].
    + destruct (tunnel_begin_ready (closed w) (length (dials w)) (inner w) t) as [Ht Hc]; [by rewrite Hb|].
      split_and!; [done|done|by apply (inv_tunnel w Hi)].
    + unfold live. destruct (is_closed (closed w) (inner w)) eqn:Hl.
      * destruct (tunnel_begin_dead (closed w) (length (dials w)) _ Hl) as (s & Hs & _ & Hd & Hc & _).
        rewrite Hs in Hb. unfold tunnel_dial in Hb. rewrite Hc, Hcon in Hb.
        destruct dials_itself; [destruct (dialing s); discriminate Hb|]. simplify_eq. by split_and!.
      * unfold is_closed in Hl. unfold tunnel_begin in Hb. destruct (tunnel (inner w)); [|done].
        apply bool_decide_eq_false in Hl. by rewrite decide_True in Hb.
    + rewrite Hin. unfold live. destruct (is_closed (closed w) (inner w)) eqn:Hl.
      * destruct (tunnel_begin_dead (closed w) (length (dials w)) _ Hl) as (s & Hs & _ & Hd & Hc & _).
        rewrite Hs in Hb. unfold tunnel_dial in Hb. rewrite Hc, Hcon in Hb.
        destruct dials_itself; [|discriminate Hb]. destruct (dialing s) eqn:E; injection Hb as <- Hb; rewrite <- Hb; split_and!; done.
      * unfold is_closed in Hl. unfold tunnel_begin in Hb. destruct (tunnel (inner w)); [|done].
        apply bool_decide_eq_false in Hl. by rewrite decide_True in Hb.
  - intros Hu Hcl w'. assert (inner w' = forget conn (inner w) /\ closed w' = closed w
      /\ calls w' = <[i := Finished (Err (unavailable ($"request failed: " ++ msg)))]> (calls w)) as (Hin & Hcl' & Hcs).
    { unfold w'. cbn. rewrite Hu. by rewrite decide_True. }
    split_and!.
    + rewrite Hcs, list_lookup_insert_eq; [done|]. by eapply lookup_lt_Some.
    + rewrite Hin. unfold forget. by case_decide.
    + destruct (call_result w') as (b & inner' & Hb & -> & _). rewrite last_snoc. intros Hx.
      destruct b as [t| |]; cbn in Hx; simplify_eq.
      destruct (tunnel_begin_ready (closed w') (length (dials w')) (inner w') conn) as [_ Hn]; [by rewrite Hb|].
      by rewrite Hcl' in Hn.
  - intros ->. by apply (inv_single w Hi).
  - unfold client_state, live. destruct (bool_decide _ && _) eqn:E; cbn [fst].
    + cbn. by rewrite sw_get_set.
    + destruct (sw_get (watch (inner w))) eqn:Es; [done|by apply (inv_connecting w Hi)| |done].
      rewrite bool_decide_eq_true_2 in E by done. done.
Qed.

(** A waiter resumed late clears the next dial's slot. Two calls share a dial that fails;
    the first retries at once, opening a second one, and then the second waiter resumes: it
    empties the slot, although that dial is in flight, so the next call opens another socket
    while one is still being opened. *)
Theorem late_waiter_dials_twice (authority : str) (e : Status) :
  let w := run_events (with_connector authority)
             [Call; Call; Settle 0 (Err e); Resume 0; Call; Resume 1; Call] in
  calls w = [Finished (Err e); Finished (Err e); Awaiting 1; Awaiting 2]
  /\ in_flight w = 2%nat.
Proof. split; reflexivity. Qed.

(** ** Witnesses *)


Lemma channel_redials_witness :
  let w := run_events (with_connector $"h") [Call; Settle 0 (Ok tt); Resume 0; Close 0] in
  let w' := step w (Respond 0 (Err $"reset")) in
  calls w' !! 0%nat = Some (Finished (Err (unavailable ($"request failed: " ++ $"reset"))))
  /\ tunnel (inner w') = None /\ calls (step w' Call) = calls w' ++ [Awaiting 1].
Proof.
  intros w w'.
  destruct (channel_redials $"h" true [Call; Settle 0 (Ok tt); Resume 0; Close 0] 0 0 $"reset") as (_ & Hf & _).
  destruct (Hf eq_refl ltac:(set_solver)) as (Hc & Ht & _).
  split; [exact Hc|]. split; [exact Ht|]. reflexivity.
Defined.
