(* ===== verification/ClientCalls.v ===== *)
(** * Calls of the wasm client ([rust/crates/grpc-webnext-client/src/client.rs])

    The request headers, the unary path and the response stream. The h2ts engine is outside
    this repository: what [Client::send] gives is an input, a response body is the list of
    chunks its stream yields, and its trailers are there once the stream has ended. A
    deadline is the number of chunks that arrive before its timer fires. *)
From S2P Require Import Prelude RustStd GrpcFraming Http Metadata ClientMetadata ClientStatus ClientCodec.

Definition CONTENT_TYPE : str := $"application/grpc+proto".

(** [struct CallOptions], and its builders. *)
Record CallOptions : Type := mkCallOptions {
  co_metadata : ClientMetadata.Metadata;
  timeout : option duration;
  co_max_message_bytes : option N
}.
Definition co_default : CallOptions := mkCallOptions md_empty None None.
Definition with_metadata (self : CallOptions) (m : ClientMetadata.Metadata) : CallOptions :=
  mkCallOptions m (timeout self) (co_max_message_bytes self).
Definition with_timeout (self : CallOptions) (d : duration) : CallOptions :=
  mkCallOptions (co_metadata self) (Some d) (co_max_message_bytes self).
Definition with_max_message_bytes (self : CallOptions) (n : N) : CallOptions :=
  mkCallOptions (co_metadata self) (timeout self) (Some n).

(** [h2ts_client::Response]: the collapsed header map, the header list as received, the body
    and the trailers. *)
Record Response : Type := mkResponse {
  rs_status : N;
  rs_headers : list (str * str);
  raw_headers : list (str * str);
  rs_body : list (result str bytes);
  rs_trailers : option (list (str * str))
}.

(** [response.bytes()] *)
Fixpoint body_bytes (body : list (result str bytes)) : result str bytes :=
  match body with
  | [] => Ok []
  | Ok chunk :: body' => rest ← body_bytes body'; Ok (chunk ++ rest)
  | Err e :: _ => Err e
  end.

(** [options_millis]; the header text is its decimal. *)
Definition options_millis (timeout : duration) : N := N.max (as_millis timeout) 1.

(** A future raced against a deadline: [None] when the timer won. *)
Definition deadline {A} (work : option (result Status A)) : result Status A :=
  match work with
  | Some result => result
  | None => Err (new Code.DeadlineExceeded $"deadline exceeded")
  end.

(** [struct UnaryResponse] *)
Record UnaryResponse : Type := mkUnaryResponse {
  ur_message : bytes;
  ur_headers : ClientMetadata.Metadata;
  ur_trailers : ClientMetadata.Metadata
}.

(** [struct Streaming]; [arrived] is the trailer slot the engine fills when the body ends. *)
Record Streaming : Type := mkStreaming {
  headers : ClientMetadata.Metadata;
  body : list (result str bytes);
  trailers : option (list (str * str));
  arrived : bool;
  deframer : ClientCodec.t;
  ready : list bytes;
  ended : bool;
  failed : option Status;
  st_deadline : option nat
}.

Section calls.
Context {B : Base64} (percent_decode_utf8 : str -> option str).

Abbreviation status_from := (ClientStatus.from_headers percent_decode_utf8).

(** The headers [request] sends. *)
Definition request_headers (options : CallOptions) : list (str * str) :=
  [($"content-type", CONTENT_TYPE); ($"te", $"trailers")]
  ++ match timeout options with
     | Some timeout => [($"grpc-timeout", fmt_dec (options_millis timeout) ++ $"m")]
     | None => []
     end
  ++ to_headers (co_metadata options).

(** [request], given what [send] answers to a path, headers and body. *)
Definition request {P Q} (send : P -> list (str * str) -> Q -> result Status Response) (path : P) (body : Q)
    (options : CallOptions) : result Status Response :=
  response ← send path (request_headers options) body;
  if negb (rs_status response =? 200) then Err (unavailable ($"HTTP " ++ fmt_dec (rs_status response)))
  else match status_from (rs_headers response) with
  | Some status =>
      Err (if is_ok status
           then new Code.Internal $"trailers-only response reported OK with no message"
           else status)
  | None => Ok response
  end.

(** The status of a finished response: [single_response_inner] and [Streaming::status]. *)
Definition trailers_status (trailers : option (list (str * str))) : Status :=
  match trailers with
  | Some trailers =>
      default (new Code.Internal $"response trailers carried no grpc-status") (status_from trailers)
  | None => new Code.Internal $"response ended without trailers"
  end.

Definition truncated : Status := new Code.Internal $"response body ended mid-message (truncated)".

Definition single_response_inner (response : result Status Response) (options : CallOptions)
  : result Status UnaryResponse :=
  response ← response;
  bytes ← map_err (fun e => unavailable ($"response body failed: " ++ e)) (body_bytes (rs_body response));
  let '(pushed, deframer) := push (deframer_new (co_max_message_bytes options)) bytes in
  messages ← pushed;
  if 0 <? pending deframer then Err truncated
  else
    let status := trailers_status (rs_trailers response) in
    if negb (is_ok status) then Err status
    else match messages with
    | message :: _ =>
        Ok (mkUnaryResponse message (ClientMetadata.from_headers (rs_headers response)) (ClientStatus.metadata status))
    | [] => Err (new Code.Internal $"response carried no message")
    end.

(** [single_response]; [in_time] says whether the work beats the timer. *)
Definition single_response (response : result Status Response) (options : CallOptions) (in_time : bool)
  : result Status UnaryResponse :=
  match timeout options with
  | Some _ => deadline (if in_time then Some (single_response_inner response options) else None)
  | None => single_response_inner response options
  end.

Definition streaming_new (response : Response) (options : CallOptions) (deadline : option nat) : Streaming :=
  mkStreaming (ClientMetadata.from_headers (rs_headers response)) (rs_body response) (rs_trailers response)
    false (deframer_new (co_max_message_bytes options)) [] false None deadline.

(** [open_stream]: [remaining] is the timer once the response headers are there, [None]
    when it fires first. *)
Definition open_stream (response : result Status Response) (options : CallOptions) (remaining : option nat)
  : result Status Streaming :=
  match timeout options with
  | None => response ← response; Ok (streaming_new response options None)
  | Some _ =>
      match remaining with
      | Some _ => response ← response; Ok (streaming_new response options remaining)
      | None => Err (new Code.DeadlineExceeded $"deadline exceeded")
      end
  end.

(** [Streaming::fail] *)
Definition fail (self : Streaming) (status : Status) : Status * Streaming :=
  (status, mkStreaming (headers self) (body self) (trailers self) (arrived self) (deframer self) (ready self)
             true (Some status) (st_deadline self)).

(** [Streaming::message]. A turn of its loop that continues has taken a chunk off the body,
    whose remaining chunks are [rest]. *)
Fixpoint message_on (rest : list (result str bytes)) (self : Streaming) : result Status (option bytes) * Streaming :=
  let at_rest := mkStreaming (headers self) rest (trailers self) (arrived self) (deframer self) (ready self)
                   (ended self) (failed self) (st_deadline self) in
  match ready self with
  | message :: ready' =>
      (Ok (Some message),
       mkStreaming (headers self) rest (trailers self) (arrived self) (deframer self) ready'
         (ended self) (failed self) (st_deadline self))
  | [] =>
      match failed self with
      | Some status => (Err status, at_rest)
      | None =>
          if ended self then (Ok None, at_rest)
          else match st_deadline self with
          | Some O =>
              let '(e, self') := fail at_rest (new Code.DeadlineExceeded $"deadline exceeded") in (Err e, self')
          | _ =>
              match rest with
              | [] =>
                  let self' := mkStreaming (headers self) [] (trailers self) true (deframer self) []
                                 true None (st_deadline self) in
                  if 0 <? pending (deframer self) then let '(e, self') := fail self' truncated in (Err e, self')
                  else (Ok None, self')
              | Err e :: rest' =>
                  let '(e, self') := fail (mkStreaming (headers self) rest' (trailers self) (arrived self)
                      (deframer self) [] false None (st_deadline self)) (unavailable ($"stream failed: " ++ e)) in
                  (Err e, self')
              | Ok chunk :: rest' =>
                  let '(pushed, deframer') := push (deframer self) chunk in
                  let self' := mkStreaming (headers self) rest' (trailers self) (arrived self) deframer'
                                 (match pushed with Ok messages => messages | Err _ => [] end)
                                 false None (pred <$> st_deadline self) in
                  match pushed with
                  | Ok _ => message_on rest' self'
                  | Err status => let '(e, self') := fail self' status in (Err e, self')
                  end
              end
          end
      end
  end.
Definition message (self : Streaming) : result Status (option bytes) * Streaming := message_on (body self) self.

(** [Streaming::status] *)
Definition status (self : Streaming) : Status :=
  match failed self with
  | Some status => status
  | None => trailers_status (if arrived self then trailers self else None)
  end.

(** [Streaming::finish], with the messages it discards: each turn is one [message]. *)
Fixpoint finish (fuel : nat) (self : Streaming) : option (list bytes * Status * Streaming) :=
  match fuel with
  | O => None
  | S fuel =>
      match message self with
      | (Ok (Some m), self') =>
          match finish fuel self' with Some (ms, s, self'') => Some (m :: ms, s, self'') | None => None end
      | (Ok None, self') => Some ([], status self', self')
      | (Err s, self') => Some ([], s, self')
      end
  end.
End calls.

(** ** Lemmas *)

(** How a body ends for its reader, and the chunks it gives before. *)
Inductive ending : Type :=
| Expired
| Broke (e : str)
| Complete.

Fixpoint cut (expires : option nat) (body : list (result str bytes)) : list bytes * ending :=
  match expires, body with
  | Some O, _ => ([], Expired)
  | _, [] => ([], Complete)
  | _, Err e :: _ => ([], Broke e)
  | _, Ok chunk :: body' => let '(datas, how) := cut (pred <$> expires) body' in (chunk :: datas, how)
  end.

(** A body that arrives whole, with no deadline. *)
Lemma cut_none datas : cut None (map Ok datas) = (datas, Complete).
Proof. induction datas as [|c l IH]; [done|]. cbn [map cut fmap option_fmap option_map]. by rewrite IH. Qed.

Section facts.
Context {B : Base64} (percent_decode_utf8 : str -> option str).

(** The status a stream reports for an ending with [left] undelivered bytes. *)
Definition final_status (how : ending) (left : bytes) (trailers : option (list (str * str))) : Status :=
  match how with
  | Expired => new Code.DeadlineExceeded $"deadline exceeded"
  | Broke e => unavailable ($"stream failed: " ++ e)
  | Complete => if 0 <? blen left then truncated else trailers_status percent_decode_utf8 trailers
  end.

(** A stream that is over stays over: [message] changes nothing and repeats itself. *)
Definition settled (s : Streaming) (st : Status) : Prop :=
  status percent_decode_utf8 s = st
  /\ message s = (match failed s with Some _ => Err st | None => Ok None end, s).

Abbreviation reading h rest tr d r dl := (mkStreaming h rest tr false d r false None dl).

Lemma message_pop h rest tr d m r dl :
  message (reading h rest tr d (m :: r) dl) = (Ok (Some m), reading h rest tr d r dl).
Proof. unfold message. by destruct rest. Qed.

Lemma message_take h c rest tr d dl ms d' :
  dl <> Some O -> push d c = (Ok ms, d') ->
  message (reading h (Ok c :: rest) tr d [] dl) = message (reading h rest tr d' ms (pred <$> dl)).
Proof.
  intros Hdl Hp. unfold message. cbn [body message_on ready failed ended st_deadline deframer headers trailers arrived].
  destruct dl as [[|n]|]; [done|..]; by rewrite Hp.
Qed.

Lemma finish_take h c rest tr d dl ms d' fuel :
  dl <> Some O -> push d c = (Ok ms, d') ->
  finish percent_decode_utf8 fuel (reading h (Ok c :: rest) tr d [] dl)
  = finish percent_decode_utf8 fuel (reading h rest tr d' ms (pred <$> dl)).
Proof. intros Hdl Hp. destruct fuel as [|fuel]; [done|]. cbn [finish]. by rewrite (message_take _ _ _ _ _ _ ms d'). Qed.

Lemma finish_ready h rest tr d r dl fuel ms st s' :
  finish percent_decode_utf8 fuel (reading h rest tr d [] dl) = Some (ms, st, s') ->
  finish percent_decode_utf8 (length r + fuel) (reading h rest tr d r dl) = Some (r ++ ms, st, s').
Proof.
  intros Hf. induction r as [|m r IH]; [done|]. cbn [length Nat.add finish app]. by rewrite message_pop, IH.
Qed.

Lemma finish_error h rest tr d r dl s st k :
  message (reading h rest tr d r dl) = (Err st, s) ->
  finish percent_decode_utf8 (S k) (reading h rest tr d r dl) = Some ([], st, s).
Proof. intros Hm. cbn [finish]. by rewrite Hm. Qed.

(** A failed stream is settled. *)
Lemma fail_settled h b tr a d st dl : settled (mkStreaming h b tr a d [] true (Some st) dl) st.
Proof. split; [done|]. unfold message. by destruct b. Qed.

(** A refusal is never an OK status. *)
Lemma parse_error_not_ok max b e : parse max b = Err e -> is_ok e = false.
Proof.
  induction b as [b Hs|flag b1 b2 b3 b4 b IH] using buffer_ind; intros E.
  - by rewrite (parse_short max b Hs) in E.
  - rewrite parse_cons in E. cbv zeta in E. case_decide; [by simplify_eq|].
    destruct (match max with Some _ => _ | None => _ end); [by simplify_eq|]. case_decide; [done|].
    destruct (parse max (bdrop _ b)) as [[]|] eqn:Ep; [done|]. cbn [mbind result_bind] in E. simplify_eq.
    eapply IH; [|done]. unfold bdrop. rewrite length_drop. lia.
Qed.

Lemma push_parse max b c : push (mk b max) c =
  match parse max (b ++ c) with
  | Ok (ms, p) => (Ok ms, mk p max)
  | Err e => (Err e, mk (b ++ c) max)
  end.
Proof. done. Qed.

Lemma finish_spec rest h tr max b dl :
  parse max b = Ok ([], b) ->
  let '(datas, how) := cut dl rest in
  let s := reading h rest tr (mk b max) [] dl in
  match parse max (b ++ concat datas) with
  | Ok (ms, p) => exists s', settled s' (final_status how p tr)
      /\ forall k, finish percent_decode_utf8 (S (length ms) + k) s = Some (ms, final_status how p tr, s')
  | Err e => exists n ms p s', parse max (b ++ concat (take n datas)) = Ok (ms, p) /\ settled s' e
      /\ forall k, finish percent_decode_utf8 (S (length ms) + k) s = Some (ms, e, s')
  end.
Proof.
  revert b dl. induction rest as [|[c|e] rest IH]; intros b dl Hb.
  - assert (cut dl [] = ([], if dl is Some O then Expired else Complete)) as -> by (by destruct dl as [[|n]|]).
    cbn [concat]. rewrite app_nil_r, Hb. destruct dl as [[|n]|]; cbn [final_status].
    + eexists. split; [|intros k; by apply finish_error]. apply fail_settled.
    + destruct (0 <? blen b) eqn:Hp.
      * eexists. split; [|intros k; apply finish_error; unfold message; cbn; unfold pending; cbn; by rewrite Hp].
        apply fail_settled.
      * eexists. split; [|intros k; cbn; unfold pending; cbn; by rewrite Hp]. split; done.
    + destruct (0 <? blen b) eqn:Hp.
      * eexists. split; [|intros k; apply finish_error; unfold message; cbn; unfold pending; cbn; by rewrite Hp].
        apply fail_settled.
      * eexists. split; [|intros k; cbn; unfold pending; cbn; by rewrite Hp]. split; done.
  - destruct (decide (dl = Some O)) as [->|Hdl].
    { cbn [cut concat]. rewrite app_nil_r, Hb. eexists. split; [|intros k; by apply finish_error]. apply fail_settled. }
    assert (cut dl (Ok c :: rest) = let '(datas, how) := cut (pred <$> dl) rest in (c :: datas, how)) as ->
      by (by destruct dl as [[|n]|]).
    destruct (parse max (b ++ c)) as [[ms p]|e] eqn:Ep.
    + pose proof (parse_rest _ _ _ _ Ep) as Hp. specialize (IH p (pred <$> dl) Hp).
      destruct (cut (pred <$> dl) rest) as [datas how]. cbn [concat].
      rewrite app_assoc, parse_app, Ep.
      assert (forall fuel, finish percent_decode_utf8 fuel (reading h (Ok c :: rest) tr (mk b max) [] dl)
        = finish percent_decode_utf8 fuel (reading h rest tr (mk p max) ms (pred <$> dl))) as Hstep.
      { intros fuel. apply finish_take; [done|]. by rewrite push_parse, Ep. }
      destruct (parse max (p ++ concat datas)) as [[ms' p']|e]; cbn [mbind result_bind].
      * destruct IH as (s' & Hs & Hf). exists s'. split; [done|]. intros k. rewrite Hstep, length_app.
        replace (S (length ms + length ms') + k)%nat with (length ms + (S (length ms') + k))%nat by lia.
        apply finish_ready, Hf.
      * destruct IH as (n & ms' & p' & s' & Hn & Hs & Hf). exists (S n), (ms ++ ms'), p', s'. split; [|split; [done|]].
        { cbn [take concat]. rewrite app_assoc, parse_app, Ep, Hn. done. }
        intros k. rewrite Hstep, length_app.
        replace (S (length ms + length ms') + k)%nat with (length ms + (S (length ms') + k))%nat by lia.
        apply finish_ready, Hf.
    + destruct (cut (pred <$> dl) rest) as [datas how]. cbn [concat]. rewrite app_assoc, parse_app, Ep.
      exists 0%nat, [], b. cbn [take concat]. rewrite app_nil_r.
      assert (exists s', settled s' e /\ message (reading h (Ok c :: rest) tr (mk b max) [] dl) = (Err e, s')) as (s' & Hs & Hm).
      { unfold message. cbn [body message_on ready failed ended st_deadline deframer headers trailers arrived].
        rewrite push_parse, Ep. destruct dl as [[|n]|]; [done|..]; (eexists; split; [|done]; apply fail_settled). }
      exists s'. split; [done|]. split; [done|]. intros k. by apply finish_error.
  - assert (cut dl (Err e :: rest) = ([], if dl is Some O then Expired else Broke e)) as -> by (by destruct dl as [[|n]|]).
    cbn [concat]. rewrite app_nil_r, Hb.
    destruct dl as [[|n]|]; (eexists; split; [|intros k; by apply finish_error]; apply fail_settled).
Qed.

(** Reading ends, whatever state the stream is in. *)
Lemma finish_total s : exists n ms st s', forall k, finish percent_decode_utf8 (n + k) s = Some (ms, st, s').
Proof.
  destruct s as [h rest tr a d r en fl dl]. revert a d r en fl dl. induction rest as [|x rest IH]; intros a d r en fl dl.
  all: revert en fl; induction r as [|m r IHr]; intros en fl;
    [|destruct (IHr en fl) as (n & ms & st & s' & Hn); exists (S n), (m :: ms), st, s'; intros k;
      cbn [Nat.add finish]; unfold message; cbn [body message_on ready]; by rewrite Hn].
  all: destruct fl as [st|];
    [exists 1%nat, [], st; eexists; intros k; cbn [Nat.add finish]; unfold message; by cbn|].
  all: destruct en; [exists 1%nat, []; do 2 eexists; intros k; cbn [Nat.add finish]; unfold message; by cbn|].
  all: destruct (decide (dl = Some O)) as [->|Hdl];
    [exists 1%nat, []; do 2 eexists; intros k; cbn [Nat.add finish]; unfold message; by cbn|].
  - exists 1%nat, []. destruct (0 <? pending d) eqn:Hp; destruct dl as [[|n]|]; try done; do 2 eexists; intros k;
      cbn [Nat.add finish]; unfold message; cbn [body message_on ready failed ended st_deadline deframer]; by rewrite Hp.
  - destruct x as [c|e].
    + destruct (push d c) as [[ms|e] d'] eqn:Hpush.
      * destruct (IH a d' ms false None (pred <$> dl)) as (n & out & st & s' & Hn). exists (S n), out, st, s'. intros k.
        rewrite <- (Hn (S k)). rewrite Nat.add_succ_r. cbn [Nat.add finish]. unfold message.
        cbn [body message_on ready failed ended st_deadline deframer headers trailers arrived]. rewrite Hpush.
        by destruct dl as [[|i]|].
      * exists 1%nat, []. destruct dl as [[|i]|]; try done; do 2 eexists; intros k; cbn [Nat.add finish]; unfold message;
          cbn [body message_on ready failed ended st_deadline deframer headers trailers arrived]; by rewrite Hpush.
    + exists 1%nat, []. destruct dl as [[|i]|]; try done; do 2 eexists; intros k; cbn [Nat.add finish]; unfold message; by cbn.
Qed.
End facts.

(** ** Properties *)

(** C14: A response stream delivers exactly the messages of the bytes that reach it, however they
    are split into chunks, and then one status, for good: DEADLINE_EXCEEDED when the call's
    timer fires first, the transport's failure when the body breaks, an error when the body
    stops inside a message, and otherwise the status in the trailers. A refused message
    ends it with the refusal, after messages found in the first chunks. Reading it takes one
    [message] per message delivered and one more. *)
Theorem streaming_delivers {B : Base64} (percent_decode_utf8 : str -> option str)
  (response : Response) (options : CallOptions) (expires : option nat) :
  let '(datas, how) := cut expires (rs_body response) in
  let s := streaming_new response options expires in
  match push (deframer_new (co_max_message_bytes options)) (concat datas) with
  | (Ok ms, d) => exists s',
      let st := final_status percent_decode_utf8 how (buffer d) (rs_trailers response) in
      settled percent_decode_utf8 s' st
      /\ forall k, finish percent_decode_utf8 (S (length ms) + k) s = Some (ms, st, s')
  | (Err e, _) => exists n ms s',
      (push (deframer_new (co_max_message_bytes options)) (concat (take n datas))).1 = Ok ms
      /\ settled percent_decode_utf8 s' e
      /\ forall k, finish percent_decode_utf8 (S (length ms) + k) s = Some (ms, e, s')
  end.
Proof.
  pose proof (finish_spec percent_decode_utf8 (rs_body response) (ClientMetadata.from_headers (rs_headers response))
    (rs_trailers response) (co_max_message_bytes options) [] expires eq_refl) as Hf.
  destruct (cut expires (rs_body response)) as [datas how]. cbn [app] in Hf.
  unfold deframer_new, streaming_new. rewrite push_parse. cbn [app].
  destruct (parse (co_max_message_bytes options) (concat datas)) as [[ms p]|e].
  - destruct Hf as (s' & Hs & Hf). by exists s'.
  - destruct Hf as (n & ms & p & s' & Hn & Hs & Hf). exists n, ms, s'. split; [|done].
    by rewrite push_parse, app_nil_l, Hn.
Qed.

(** The unary call is the streaming call read to its end: on a body that arrives whole, in
    any chunks, it fails with the status the stream ends with, unless that is OK, and then
    it is the first message, or an error when there is none; the trailing metadata is the
    status's. *)
Theorem unary_is_streaming {B : Base64} (percent_decode_utf8 : str -> option str)
  (st : N) (hs raw : list (str * str)) (datas : list bytes) (tr : option (list (str * str))) (options : CallOptions) :
  let response := mkResponse st hs raw (map Ok datas) tr in
  exists fuel ms end_status s',
    finish percent_decode_utf8 fuel (streaming_new response options None) = Some (ms, end_status, s')
    /\ single_response_inner percent_decode_utf8 (Ok response) options
       = if is_ok end_status then
           match ms with
           | m :: _ => Ok (mkUnaryResponse m (ClientMetadata.from_headers hs) (ClientStatus.metadata end_status))
           | [] => Err (new Code.Internal $"response carried no message")
           end
         else Err end_status.
Proof.
  intros response.
  pose proof (finish_spec percent_decode_utf8 (map Ok datas) (ClientMetadata.from_headers hs) tr
    (co_max_message_bytes options) [] None eq_refl) as Hf.
  assert (forall l, body_bytes (map Ok l) = Ok (concat l)) as Hbytes.
  { induction l as [|c l IH]; [done|]. cbn [map body_bytes]. by rewrite IH. }
  rewrite cut_none in Hf. cbn [app] in Hf. unfold single_response_inner. cbn [mbind result_bind rs_body response].
  rewrite Hbytes. cbn [map_err mbind result_bind]. unfold deframer_new. rewrite push_parse. cbn [app].
  unfold streaming_new, deframer_new. cbn [rs_body rs_headers rs_trailers].
  destruct (parse (co_max_message_bytes options) (concat datas)) as [[ms p]|e] eqn:Ep; cbn [mbind result_bind].
  - destruct Hf as (s' & _ & Hf). exists (S (length ms) + 0)%nat. do 3 eexists. split; [apply Hf|].
    unfold pending. cbn [buffer final_status]. destruct (0 <? blen p); [done|]. by destruct (is_ok _).
  - destruct Hf as (n & ms & p & s' & _ & _ & Hf). exists (S (length ms) + 0)%nat. do 3 eexists. split; [apply Hf|].
    assert (is_ok e = false) as ->; [|done].
    eapply (parse_error_not_ok (co_max_message_bytes options) (concat datas)), Ep.
Qed.

(** The deadline reaches the server: the [grpc-timeout] a call sends is read back as the
    timeout in whole milliseconds, one at least, as long as they fit the header's [u64]; a
    longer timeout is sent and ignored. *)
Theorem call_timeout_roundtrip (timeout : duration) :
  parse_timeout_text (fmt_dec (options_millis timeout) ++ $"m")
  = Done (if as_millis timeout <=? u64_max then Some (from_millis (N.max 1 (as_millis timeout))) else None).
Proof.
  unfold options_millis. rewrite parse_timeout_millis.
  destruct (N.leb_spec (as_millis timeout) u64_max), (N.leb_spec (N.max (as_millis timeout) 1) u64_max);
    [by rewrite N.max_comm|unfold u64_max in *; lia..|done].
Qed.
