(* ===== verification/ClientTyped.v ===== *)
(** * Typed calls and entry points of the client ([rust/crates/grpc-webnext-client/src/client.rs],
    [typed.rs], [web.rs], [rust/examples/tonic-stub-client/src/dial.rs])

    The four call shapes of [Client], the typed ones over them, and the ways to open a tunnel:
    the browser's [connect] and the host's [dial]. What a call's [send] answers, opening a
    WebSocket and the prost codec of a message are inputs. *)
From S2P Require Import Prelude RustStd GrpcFraming Http Metadata ClientMetadata ClientStatus ClientCodec ClientState ClientCalls.

(** [h2ts_client::RequestBody], and the bytes it uploads. *)
Inductive RequestBody : Type :=
| BodyBytes (b : bytes)
| BodyStream (chunks : list bytes).
Definition upload (body : RequestBody) : bytes :=
  match body with BodyBytes b => b | BodyStream chunks => concat chunks end.

(** [prost::Message]: encoding is total, decoding fails with an error's text. *)
Class Prost (M : Type) : Type := {
  encode_to_vec : M -> bytes;
  prost_decode : bytes -> result str M
}.

(** [struct TypedResponse], [into_inner] *)
Record TypedResponse (M : Type) : Type := mkTyped {
  tr_message : M;
  tr_headers : ClientMetadata.Metadata;
  tr_trailers : ClientMetadata.Metadata
}.
Arguments mkTyped {M} tr_message tr_headers tr_trailers.
Arguments tr_message {M} _.
Arguments tr_headers {M} _.
Arguments tr_trailers {M} _.
Definition into_inner {M} (self : TypedResponse M) : M := tr_message self.

(** [decode]: a message that does not parse is INTERNAL. *)
Definition decode {M} `{Prost M} (response : UnaryResponse) : result Status (TypedResponse M) :=
  message ← map_err (fun e => new Code.Internal ($"failed to decode response message: " ++ e))
              (prost_decode (ur_message response));
  Ok (mkTyped message (ur_headers response) (ur_trailers response)).

Section client.
Context {B : Base64} (percent_decode_utf8 : str -> option str).
(** [Client::send] *)
Context (send : str -> list (str * str) -> RequestBody -> result Status Response).

(** ** The call shapes ([Client::unary] and its siblings)

    [in_time]: the work beats the timer of a call that has one; [remaining] as in
    [ClientCalls.open_stream]. *)

Definition unary (path : str) (request : bytes) (options : CallOptions) (in_time : bool) : result Status UnaryResponse :=
  single_response percent_decode_utf8
    (ClientCalls.request percent_decode_utf8 send path (BodyBytes (encode_message request)) options) options in_time.

Definition client_streaming (path : str) (requests : list bytes) (options : CallOptions) (in_time : bool)
  : result Status UnaryResponse :=
  single_response percent_decode_utf8
    (ClientCalls.request percent_decode_utf8 send path (BodyStream (map encode_message requests)) options) options in_time.

Definition server_streaming (path : str) (request : bytes) (options : CallOptions) (remaining : option nat)
  : result Status Streaming :=
  open_stream (ClientCalls.request percent_decode_utf8 send path (BodyBytes (encode_message request)) options) options remaining.

Definition bidi_streaming (path : str) (requests : list bytes) (options : CallOptions) (remaining : option nat)
  : result Status Streaming :=
  open_stream (ClientCalls.request percent_decode_utf8 send path (BodyStream (map encode_message requests)) options)
    options remaining.

(** ** Typed calls ([typed.rs]) *)

Definition unary_typed {Req Res} `{Prost Req} `{Prost Res} (path : str) (request : Req) (options : CallOptions)
    (in_time : bool) : result Status (TypedResponse Res) :=
  response ← unary path (encode_to_vec request) options in_time; decode response.

Definition client_streaming_typed {Req Res} `{Prost Req} `{Prost Res} (path : str) (requests : list Req)
    (options : CallOptions) (in_time : bool) : result Status (TypedResponse Res) :=
  response ← client_streaming path (map encode_to_vec requests) options in_time; decode response.
End client.

(** ** Opening a tunnel

    [H2TS_SUBPROTOCOL] is the engine's constant. *)

Section tunnel.
Context (H2TS_SUBPROTOCOL : str).

(** [web::connect_with]: the connector the client redials with, and its authority; an error
    of the socket is a JavaScript value, described. *)
Definition describe {JsValue} (as_string : JsValue -> option str) (debug : JsValue -> str) (value : JsValue) : str :=
  default (debug value) (as_string value).
Definition connect_with {JsValue Conn Options} (as_string : JsValue -> option str) (debug : JsValue -> str)
    (connect_websocket : str -> list str -> Options -> result JsValue Conn) (base_url : str) (options : Options)
  : result Status ((unit -> result Status Conn) * str) :=
  '(ws_url, authority) ← websocket_url base_url;
  Ok (fun _ => map_err (fun e => unavailable ($"could not open the tunnel: " ++ describe as_string debug e))
                 (connect_websocket ws_url [H2TS_SUBPROTOCOL] options),
      authority).

(** [s.trim_start_matches(p)] for a string [p] that is not empty: each turn strips [p], so
    the length of [s] bounds the turns. *)
Fixpoint trim_start_matches_fuel (fuel : nat) (p s : str) : str :=
  match fuel with
  | O => s
  | S fuel => if starts_with p s then trim_start_matches_fuel fuel p (drop (length p) s) else s
  end.
Definition trim_start_matches (p s : str) : str := trim_start_matches_fuel (length s) p s.

(** A [tungstenite::Message]; [reader] keeps the tunnel's bytes. *)
Inductive WsMessage : Type :=
| WsBinary (data : bytes)
| WsOther.
Definition reader {E} (incoming : list (result E WsMessage)) : list bytes :=
  omap (fun m => match m with Ok (WsBinary data) => Some data | _ => None end) incoming.
(** The task that pumps chunks into the socket, given whether each send succeeds: what is sent. *)
Fixpoint pump (chunks : list bytes) (sends : list bool) : list WsMessage :=
  match chunks, sends with
  | chunk :: chunks', true :: sends' => WsBinary chunk :: pump chunks' sends'
  | chunk :: chunks', [] => WsBinary chunk :: pump chunks' []
  | _, _ => []
  end.

(** [dial] of the host, and the client over it; [connect_async] is the handshake of a
    request for a URL with a subprotocol. *)
Definition dial_ws_url (base_url : str) : str := $"ws" ++ trim_start_matches $"http" base_url.
Definition dial_authority (base_url : str) : str :=
  trim_start_matches $"https://" (trim_start_matches $"http://" base_url).
Definition dial {Socket Conn} (valid_url : str -> bool) (connect_async : str -> str -> option Socket)
    (open_tunnel : Socket -> Conn) (base_url : str) : option Conn :=
  let ws_url := dial_ws_url base_url in
  if valid_url ws_url then open_tunnel <$> connect_async ws_url H2TS_SUBPROTOCOL else None.
Definition client {Socket Conn} (valid_url : str -> bool) (connect_async : str -> str -> option Socket)
    (open_tunnel : Socket -> Conn) (base_url : str) : (unit -> result Status Conn) * str :=
  (fun _ => ok_or (unavailable $"dial failed") (dial valid_url connect_async open_tunnel base_url), dial_authority base_url).
End tunnel.

(** ** Lemmas *)

Lemma starts_with_app p s : starts_with p (p ++ s) = true.
Proof. induction p as [|c p IH]; [done|]. cbn. by rewrite bool_decide_eq_true_2. Qed.

(** Trimming a prefix off a text that does not go on with it. *)
Lemma trim_start_matches_once p s : p <> [] -> starts_with p s = false -> trim_start_matches p (p ++ s) = s.
Proof.
  intros Hp Hs. unfold trim_start_matches. rewrite length_app. destruct p as [|c p]; [done|]. cbn [length Nat.add].
  cbn [trim_start_matches_fuel]. rewrite starts_with_app. rewrite drop_app_length.
  destruct (length p + length s)%nat; cbn [trim_start_matches_fuel]; [done|]. by rewrite Hs.
Qed.
Lemma trim_start_matches_none p s : starts_with p s = false -> trim_start_matches p s = s.
Proof. intros Hs. unfold trim_start_matches. destruct (length s); cbn; [done|]. by rewrite Hs. Qed.

(** A text without a character does not start with a text that has it. *)
Lemma starts_with_without c p s : c ∈ p -> c ∉ s -> starts_with p s = false.
Proof.
  revert s. induction p as [|x p IH]; intros s Hp Hs; [by apply elem_of_nil in Hp|].
  destruct s as [|y s]; [done|]. cbn. apply not_elem_of_cons in Hs as [Hy Hs].
  destruct (decide (x = y)) as [->|Hne]; [|by rewrite bool_decide_eq_false_2]. rewrite bool_decide_eq_true_2 by done. cbn. apply IH; [|done].
  apply elem_of_cons in Hp as [Hp|Hp]; [done|done].
Qed.

Lemma no_double_slash q a tail :
  "/"%byte ∉ a -> tail = [] \/ tail = $"/" -> starts_with (q ++ $"//") (a ++ tail) = false.
Proof.
  intros Ha Ht. revert a Ha. induction q as [|y q IH]; intros a Ha.
  - destruct a as [|x a]; [by destruct Ht as [-> | ->]|]. apply not_elem_of_cons in Ha as [Hx _].
    cbn. rewrite bool_decide_eq_false_2; done.
  - destruct a as [|x a].
    + destruct Ht as [-> | ->]; [done|]. cbn. destruct (bool_decide _); [|done]. by destruct q.
    + apply not_elem_of_cons in Ha as [_ Ha]. cbn. rewrite IH by done. by destruct (bool_decide _).
Qed.

(** The host's URL and authority of an endpoint, with or without a trailing slash. *)
Lemma dial_endpoint (scheme authority tail : str) :
  scheme ∈ [$"http"; $"https"] -> "/"%byte ∉ authority -> tail = [] \/ tail = $"/" ->
  dial_ws_url (scheme ++ $"://" ++ authority ++ tail)
    = (if decide (scheme = $"https") then $"wss://" else $"ws://") ++ authority ++ tail
  /\ dial_authority (scheme ++ $"://" ++ authority ++ tail) = authority ++ tail.
Proof.
  intros Hscheme Hauth Ht. unfold dial_ws_url, dial_authority.
  assert (forall q, starts_with (q ++ $"//") (authority ++ tail) = false) as Hno by (intros q; by apply no_double_slash).
  apply elem_of_cons in Hscheme as [-> | ->%list_elem_of_singleton]; split.
  - by rewrite trim_start_matches_once by done.
  - change ($"http" ++ $"://" ++ authority ++ tail) with ($"http://" ++ authority ++ tail).
    rewrite trim_start_matches_once; [|discriminate|exact (Hno $"http:")]. apply trim_start_matches_none. exact (Hno $"https:").
  - change ($"https" ++ $"://" ++ authority ++ tail) with ($"http" ++ $"s" ++ $"://" ++ authority ++ tail).
    by rewrite trim_start_matches_once by done.
  - rewrite (trim_start_matches_none $"http://") by reflexivity.
    change ($"https" ++ $"://" ++ authority ++ tail) with ($"https://" ++ authority ++ tail).
    apply trim_start_matches_once; [discriminate|exact (Hno $"https:")].
Qed.

Section facts.
Context {B : Base64} (percent_decode_utf8 : str -> option str).
Context (send : str -> list (str * str) -> RequestBody -> result Status Response).

(** What a unary answer with framed messages is read as. *)
Lemma single_response_framed response options in_time hs raw datas tr ms :
  response = Ok (mkResponse 200 hs raw (map Ok datas) tr) -> (timeout options = None \/ in_time = true) ->
  concat datas = concat (map encode_message ms) ->
  Forall (fun m => blen m < two32 /\ match co_max_message_bytes options with Some n => blen m <= n | None => True end) ms ->
  single_response percent_decode_utf8 response options in_time
  = let status := trailers_status percent_decode_utf8 tr in
    if is_ok status then
      match ms with
      | m :: _ => Ok (mkUnaryResponse m (ClientMetadata.from_headers hs) (ClientStatus.metadata status))
      | [] => Err (new Code.Internal $"response carried no message")
      end
    else Err status.
Proof.
  intros -> Htime Hbytes Hms.
  assert (single_response_inner percent_decode_utf8 (Ok (mkResponse 200 hs raw (map Ok datas) tr)) options
    = let status := trailers_status percent_decode_utf8 tr in
      if is_ok status then
        match ms with
        | m :: _ => Ok (mkUnaryResponse m (ClientMetadata.from_headers hs) (ClientStatus.metadata status))
        | [] => Err (new Code.Internal $"response carried no message")
        end
      else Err status) as Hin.
  { assert (forall l, body_bytes (map Ok l) = Ok (concat l)) as Hb.
    { induction l as [|c l IH]; [done|]. cbn [map body_bytes]. by rewrite IH. }
    unfold single_response_inner. cbn [mbind result_bind rs_body]. rewrite Hb. cbn [map_err mbind result_bind].
    unfold deframer_new. rewrite push_parse. cbn [app]. rewrite Hbytes, parse_frames by done. cbn.
    by destruct (is_ok (trailers_status percent_decode_utf8 tr)). }
  unfold single_response. destruct (timeout options); [|exact Hin]. destruct Htime as [?| ->]; [done|]. exact Hin.
Qed.

Lemma request_ok path body options hs raw datas tr :
  send path (ClientCalls.request_headers options) body = Ok (mkResponse 200 hs raw (map Ok datas) tr) ->
  from_headers percent_decode_utf8 hs = None ->
  ClientCalls.request percent_decode_utf8 send path body options = Ok (mkResponse 200 hs raw (map Ok datas) tr).
Proof. intros Hs Hn. unfold ClientCalls.request. rewrite Hs. cbn. by rewrite Hn. Qed.
End facts.

(** The server de-frames an upload into the messages it was made of. *)
Lemma upload_deframes ms :
  Forall (fun m => blen m < two32) ms -> deframe_all (upload (BodyStream (map encode_message ms))) = ms.
Proof.
  intros Hms. unfold deframe_all, upload, Deframer.push. cbn [Deframer.buf Deframer.new app].
  pose proof (DeframerFacts.drain_frames ms [] Hms) as Hd. rewrite app_nil_r in Hd.
  change (map encode_message ms) with (map frame ms). rewrite Hd, DeframerFacts.drain_nil. cbn. by rewrite app_nil_r.
Qed.

(** ** Properties *)

(** A typed call, end to end over bytes. The peer's de-framer finds in the upload exactly
    the encoded requests, in order; and when its answer carries framed messages, in any chunks
    and within the call's limit, the call gives the decoding of the first with both metadata
    blocks, INTERNAL when that does not parse or there is none, and the status of the trailers
    whenever that is not OK. A unary call is the streaming one with one request. *)
Theorem typed_calls_exact {B : Base64} {Req Res} `{Prost Req} `{Prost Res} (percent_decode_utf8 : str -> option str)
  (send : str -> list (str * str) -> RequestBody -> result Status Response) (path : str) (requests : list Req)
  (options : CallOptions) (in_time : bool) (hs raw : list (str * str)) (datas : list bytes) (tr : option (list (str * str)))
  (ms : list bytes)
  (Hreqs : Forall (fun r => blen (encode_to_vec r) < two32) requests)
  (Hsend : forall body, upload body = concat (map encode_message (map encode_to_vec requests)) ->
    send path (ClientCalls.request_headers options) body = Ok (mkResponse 200 hs raw (map Ok datas) tr))
  (Hstatus : from_headers percent_decode_utf8 hs = None) (Htime : timeout options = None \/ in_time = true)
  (Hbytes : concat datas = concat (map encode_message ms))
  (Hms : Forall (fun m => blen m < two32 /\ match co_max_message_bytes options with Some n => blen m <= n | None => True end) ms) :
  let status := trailers_status percent_decode_utf8 tr in
  let answer :=
    if is_ok status then
      match ms with
      | m :: _ =>
          match prost_decode (M := Res) m with
          | Ok res => Ok (mkTyped res (ClientMetadata.from_headers hs) (ClientStatus.metadata status))
          | Err e => Err (new Code.Internal ($"failed to decode response message: " ++ e))
          end
      | [] => Err (new Code.Internal $"response carried no message")
      end
    else Err status in
  deframe_all (upload (BodyStream (map encode_message (map encode_to_vec requests)))) = map encode_to_vec requests
  /\ client_streaming_typed percent_decode_utf8 send path requests options in_time = answer
  /\ (forall request, requests = [request] -> unary_typed percent_decode_utf8 send path request options in_time = answer).
Proof.
  intros status answer.
  assert (forall body, upload body = concat (map encode_message (map encode_to_vec requests)) ->
    (response ← single_response percent_decode_utf8 (ClientCalls.request percent_decode_utf8 send path body options) options in_time;
     decode (M := Res) response) = answer) as Hcall.
  { intros body Hb. rewrite (request_ok percent_decode_utf8 send path body options hs raw datas tr (Hsend body Hb) Hstatus).
    rewrite (single_response_framed percent_decode_utf8 _ options in_time hs raw datas tr ms eq_refl Htime Hbytes Hms).
    cbv zeta. unfold answer, status. destruct (is_ok _); [|done]. destruct ms as [|m ms']; [done|].
    unfold decode. cbn. by destruct (prost_decode m). }
  split_and!.
  - apply upload_deframes. by apply Forall_map.
  - by apply Hcall.
  - intros request ->. apply Hcall. cbn. by rewrite app_nil_r.
Qed.

(** The host's [dial] and the browser's [connect] agree on an endpoint given as a scheme and
    an authority: the same WebSocket URL, secure exactly for https, and the same authority. With
    a trailing slash they do not: [connect] drops it, [dial] keeps it in the URL and in the
    authority it sends. *)
Theorem dial_agrees_with_connect (scheme authority : str)
  (Hscheme : scheme ∈ [$"http"; $"https"]) (Hauth : "/"%byte ∉ authority) (Hne : authority <> []) :
  let base := scheme ++ $"://" ++ authority in
  websocket_url base = Ok (dial_ws_url base, dial_authority base)
  /\ websocket_url (base ++ $"/") = Ok (dial_ws_url base, authority)
  /\ dial_ws_url (base ++ $"/") = dial_ws_url base ++ $"/"
  /\ dial_authority (base ++ $"/") = authority ++ $"/".
Proof.
  intros base.
  assert (forall tail, (tail = [] \/ tail = $"/") ->
    dial_ws_url (base ++ tail) = (if decide (scheme = $"https") then $"wss://" else $"ws://") ++ authority ++ tail
    /\ dial_authority (base ++ tail) = authority ++ tail) as Hdial.
  { intros tail Ht. unfold base. rewrite <- !app_assoc. by apply dial_endpoint. }
  assert (":"%byte ∉ scheme) as Hcolon.
  { apply elem_of_cons in Hscheme as [-> | ->%list_elem_of_singleton]; apply (bool_decide_unpack _); vm_compute; exact I. }
  assert (bool_decide (scheme ∈ [$"https"; $"wss"; $"http"; $"ws"]) = true) as Hin.
  { apply bool_decide_eq_true. set_solver. }
  destruct (Hdial [] (or_introl eq_refl)) as [Hurl0 Hau0]. rewrite !app_nil_r in Hurl0, Hau0.
  assert (forall tail, tail = [] \/ tail = $"/" -> websocket_url (base ++ tail) = Ok (dial_ws_url base, authority)) as Hws.
  { intros tail Ht. unfold base at 1. rewrite <- !app_assoc.
    rewrite websocket_url_spec by first [done | destruct Ht as [-> | ->]; [by left|right; by exists []]].
    rewrite Hin, Hurl0. assert (trim_end "/"%byte tail = []) as -> by (by destruct Ht as [-> | ->]). rewrite app_nil_r.
    apply elem_of_cons in Hscheme as [-> | ->%list_elem_of_singleton]; done. }
  split_and!.
  - specialize (Hws [] (or_introl eq_refl)). rewrite app_nil_r in Hws. by rewrite Hws, Hau0.
  - apply Hws. by right.
  - rewrite (proj1 (Hdial _ (or_intror eq_refl))), Hurl0. by rewrite <- app_assoc.
  - apply Hdial. by right.
Qed.

(** ** Witnesses *)

(** Messages that are their bytes, not empty; a server that answers [a] with [A]. *)
Definition demo_prost : Prost bytes :=
  {| encode_to_vec b := b; prost_decode b := match b with [] => Err $"empty" | _ => Ok b end |}.
Definition demo_send (path : str) (hs : list (str * str)) (body : RequestBody) : result Status Response :=
  if decide (upload body = encode_message $"a") then
    Ok (mkResponse 200 [] [] (map Ok [[x00; x00; x00]; [x00; x01; x41]]) (Some [($"grpc-status", $"0")]))
  else Err (unavailable $"unexpected").

Lemma typed_calls_exact_witness :
  unary_typed (B := plain64) (H0 := demo_prost) (H := demo_prost) Some demo_send $"/p.S/M" $"a" co_default true
  = Ok (mkTyped $"A" md_empty md_empty).
Proof.
  refine (eq_trans (proj2 (proj2 (typed_calls_exact (B := plain64) (H := demo_prost) (H0 := demo_prost) Some demo_send $"/p.S/M" [$"a"]
    co_default true [] [] [[x00; x00; x00]; [x00; x01; x41]] (Some [($"grpc-status", $"0")]) [$"A"] _ _ eq_refl _ eq_refl _)) $"a" eq_refl) _).
  - repeat constructor.
  - intros body Hb. unfold demo_send. rewrite decide_True; [done|]. rewrite Hb. reflexivity.
  - by right.
  - repeat constructor.
  - vm_compute. reflexivity.
Defined.

Lemma dial_agrees_with_connect_witness :
  websocket_url $"https://api.example.com" = Ok (dial_ws_url $"https://api.example.com", dial_authority $"https://api.example.com").
Proof.
  apply (dial_agrees_with_connect $"https" $"api.example.com").
  - right. by left.
  - apply (bool_decide_unpack _). vm_compute. exact I.
  - discriminate.
Defined.
