(* ===== verification/TonicService.v ===== *)
(** * The tonic transport of the wasm client
    ([rust/crates/grpc-webnext-client/src/tonic_service.rs])

    [Client::send] is an input here (its model is [ClientChannel]), [tonic::Status] is its
    code, message and headers, and a poll of the h2ts body or of the timer is an input of the
    poll that makes it. *)
From S2P Require Import Prelude RustStd Http Metadata H2ts ClientMetadata ClientStatus ClientCalls.

(** [std::task::Poll]. *)
Inductive poll (A : Type) : Type :=
| Ready (a : A)
| Pending.
Arguments Ready {A} a.
Arguments Pending {A}.

Section tonic_service.
Context {H : Http} {B : Base64}.

(** [tonic::Status]. *)
Record TStatus : Type := mkTStatus { t_code : Z; t_message : str; t_metadata : HeaderMap }.
Definition t_new (c : Code.t) (m : str) : TStatus := mkTStatus (Code.to_Z c) m hm_new.

(** [HeaderName::try_from(name)] and [HeaderValue::try_from(value)] in one append. *)
Definition append_valid (map : HeaderMap) (h : str * str) : HeaderMap :=
  match header_name h.1, value_from_str h.2 with
  | Some name, Some value => hm_append map name value
  | _, _ => map
  end.

(** [impl From<crate::Status> for tonic::Status]; [tonic::Code::from_i32] of a discriminant
    is that discriminant. *)
Definition from_status (status : Status) : TStatus :=
  mkTStatus (Code.to_Z (code status)) (ClientStatus.message status)
    (foldl append_valid hm_new (to_headers (ClientStatus.metadata status))).

Definition to_header_map (headers : list (str * str)) : HeaderMap := foldl append_valid hm_new headers.

Definition grpc_timeout_text (raw : str) : option duration :=
  match raw with
  | [] => None
  | _ =>
      let mid := blen raw - 1 in
      if is_char_boundary raw mid then
        value ← parse_u64 (btake mid raw);
        let unit := bdrop mid raw in
        if decide (unit = $"n") then Some (from_nanos value)
        else if decide (unit = $"u") then Some (from_micros value)
        else if decide (unit = $"m") then Some (from_millis value)
        else if decide (unit = $"S") then Some (from_secs value)
        else if decide (unit = $"M") then from_secs <$> checked_mul_u64 value 60
        else if decide (unit = $"H") then from_secs <$> checked_mul_u64 value 3600
        else None
      else None
  end.
Definition grpc_timeout (headers : HeaderMap) : option duration :=
  v ← hm_get headers $"grpc-timeout";
  raw ← to_str v;
  grpc_timeout_text raw.

Definition not_ascii (name : str) : str :=
  $"metadata value for `" ++ name ++ $"` is not valid ASCII; binary metadata must use a `-bin` key".

Fixpoint wire_pairs (l : list (str * HeaderValue)) : result TStatus (list (str * str)) :=
  match l with
  | [] => Ok []
  | (name, value) :: l' =>
      match to_str value with
      | None => Err (t_new Code.Internal (not_ascii name))
      | Some text => rest ← wire_pairs l'; Ok ((name, text) :: rest)
      end
  end.
Definition to_wire_headers (headers : HeaderMap) : result TStatus (list (str * str)) := wire_pairs (hm_iter headers).

(** [request_chunks]: the data frames up to the end of the body or its first error. *)
Fixpoint request_chunks (body : list (result str (body_frame HeaderMap))) : list bytes :=
  match body with
  | Ok (Data data) :: body' => data :: request_chunks body'
  | Ok (Trailers _) :: body' => request_chunks body'
  | Err _ :: _ | [] => []
  end.

(** The response headers of [send]: a builder that remembers its first invalid header. *)
Definition build_header (builder : option HeaderMap) (h : str * str) : option HeaderMap :=
  if starts_with $":" h.1 then builder
  else map ← builder; name ← header_name h.1; value ← value_from_str h.2; Some (hm_append map name value).
Definition response_headers (raw : list (str * str)) : option HeaderMap :=
  foldl build_header (Some hm_new) raw.

(** [ResponseBody]'s [Inner]; [with_deadline] says whether a timer is running. *)
Record ResponseBody : Type := mkResponseBody {
  rb_trailers : option (list (str * str));
  with_deadline : bool;
  rb_ended : bool
}.

(** [send]: [opened] is what [client.send] gives, [None] when the timer wins. *)
Definition send (headers : HeaderMap) (body : list (result str (body_frame HeaderMap)))
    (client_send : list (str * str) -> list bytes -> option (result Status Response))
  : result TStatus (N * HeaderMap * ResponseBody) :=
  let timeout := grpc_timeout headers in
  wire ← to_wire_headers headers;
  response ← match client_send wire (request_chunks body) with
             | Some response => map_err from_status response
             | None => Err (t_new Code.DeadlineExceeded $"deadline exceeded")
             end;
  match response_headers (raw_headers response) with
  | None => Err (t_new Code.Internal $"malformed response headers")
  | Some map => Ok (rs_status response, map, mkResponseBody (rs_trailers response)
                      (match timeout with Some _ => true | None => false end) false)
  end.

(** What one poll finds: the timer, and the body's stream. *)
Record polled : Type := mkPolled { timer_ready : bool; next : poll (option (result str bytes)) }.

Definition poll_frame (self : ResponseBody) (p : polled)
  : poll (option (result TStatus (body_frame HeaderMap))) * ResponseBody :=
  let over := mkResponseBody (rb_trailers self) (with_deadline self) true in
  if rb_ended self then (Ready None, self)
  else if with_deadline self && timer_ready p then
    (Ready (Some (Err (t_new Code.DeadlineExceeded $"deadline exceeded"))), over)
  else match next p with
  | Ready (Some (Ok chunk)) => (Ready (Some (Ok (Data chunk))), self)
  | Ready (Some (Err e)) => (Ready (Some (Err (t_new Code.Unavailable ($"stream failed: " ++ e)))), over)
  | Ready None =>
      match rb_trailers self with
      | Some trailers => (Ready (Some (Ok (Trailers (to_header_map trailers)))), over)
      | None => (Ready None, over)
      end
  | Pending => (Pending, self)
  end.
Definition is_end_stream (self : ResponseBody) : bool := rb_ended self.

Fixpoint poll_frames (self : ResponseBody) (ps : list polled)
  : list (poll (option (result TStatus (body_frame HeaderMap)))) * ResponseBody :=
  match ps with
  | [] => ([], self)
  | p :: ps' =>
      let '(o, self') := poll_frame self p in
      let '(os, self'') := poll_frames self' ps' in (o :: os, self'')
  end.
End tonic_service.

(** ** Lemmas *)

Section facts.
Context {H : Http} {HL : HttpLaws H} {B : Base64}.

(** A poll that finds the body still running, and what it gives. *)
Definition running (d : bool) (p : polled) : bool :=
  negb (d && timer_ready p) && match next p with Ready (Some (Ok _)) | Pending => true | _ => false end.
Definition relayed (p : polled) : poll (option (result TStatus (body_frame HeaderMap))) :=
  match next p with Ready (Some (Ok chunk)) => Ready (Some (Ok (Data chunk))) | _ => Pending end.

(** The frame that ends the body. *)
Definition terminal (d : bool) (tr : option (list (str * str))) (p : polled)
  : option (result TStatus (body_frame HeaderMap)) :=
  if d && timer_ready p then Some (Err (t_new Code.DeadlineExceeded $"deadline exceeded"))
  else match next p with
  | Ready (Some (Err e)) => Some (Err (t_new Code.Unavailable ($"stream failed: " ++ e)))
  | _ => match tr with Some t => Some (Ok (Trailers (to_header_map t))) | None => None end
  end.

Lemma poll_frames_ended tr d ps :
  poll_frames (mkResponseBody tr d true) ps = (replicate (length ps) (Ready None), mkResponseBody tr d true).
Proof. induction ps as [|p ps IH]; [done|]. cbn. by rewrite IH. Qed.

Lemma poll_frames_running tr d ps :
  forallb (running d) ps = true ->
  poll_frames (mkResponseBody tr d false) ps = (map relayed ps, mkResponseBody tr d false).
Proof.
  induction ps as [|p ps IH]; [done|]. cbn [forallb map poll_frames]. intros [Hp Hps]%andb_prop.
  unfold poll_frame. cbn [rb_ended with_deadline]. unfold running in Hp. apply andb_prop in Hp as [Ht Hn].
  apply negb_true_iff in Ht. rewrite Ht. destruct p as [t [[[c|e]|]|]]; try done; cbn [next relayed] in *;
    by rewrite (IH Hps).
Qed.

Lemma poll_frames_app self ps qs :
  poll_frames self (ps ++ qs)
  = (let '(os, self') := poll_frames self ps in
     let '(os', self'') := poll_frames self' qs in (os ++ os', self'')).
Proof.
  revert self. induction ps as [|p ps IH]; intros self; cbn [app poll_frames].
  - by destruct (poll_frames self qs).
  - destruct (poll_frame self p) as [o self1]. rewrite IH.
    destruct (poll_frames self1 ps) as [os self2]. by destruct (poll_frames self2 qs).
Qed.

Lemma poll_frame_terminal tr d p :
  running d p = false -> poll_frame (mkResponseBody tr d false) p = (Ready (terminal d tr p), mkResponseBody tr d true).
Proof.
  unfold running, poll_frame, terminal. cbn [rb_ended with_deadline rb_trailers].
  destruct (d && timer_ready p) eqn:E; [done|]. cbn [negb andb].
  destruct (next p) as [[[c|e]|]|]; try done. by destruct tr.
Qed.

(** [wire_pairs], against the values of each name. *)
Lemma wire_pairs_exact (l : list (str * HeaderValue)) :
  match wire_pairs l with
  | Ok ps => forall k, map Some (values_of k ps) = map to_str (values_of k l)
  | Err e => exists k v, v ∈ values_of k l /\ to_str v = None /\ e = t_new Code.Internal (not_ascii k)
  end.
Proof.
  induction l as [|[k v] l IH]; [done|].
  cbn [wire_pairs]. destruct (to_str v) as [s|] eqn:Hv.
  - destruct (wire_pairs l) as [ps|e]; cbn [mbind result_bind].
    + intros k'. specialize (IH k'). unfold values_of in *. rewrite !filter_cons. cbn [fst].
      destruct (decide (k = k')); cbn [map snd]; [|done]. by rewrite IH, Hv.
    + destruct IH as (k' & v' & Hin & Ht & He). exists k', v'. split; [|done].
      unfold values_of in *. rewrite filter_cons. destruct (decide _); [right|]; done.
  - exists k, v. split; [|done]. unfold values_of. rewrite filter_cons, decide_True by done. left.
Qed.

(** Splitting a list at the first element that fails a test. *)
Lemma split_running (f : polled -> bool) ps :
  forallb f ps = true \/ exists pre p post, ps = pre ++ p :: post /\ forallb f pre = true /\ f p = false.
Proof.
  induction ps as [|p ps IH]; [by left|]. destruct (f p) eqn:Hp.
  - destruct IH as [Hf|(pre & q & post & -> & Hpre & Hq)].
    + left. cbn. by rewrite Hp.
    + right. exists (p :: pre), q, post. cbn. by rewrite Hp.
  - right. by exists [], p, ps.
Qed.
End facts.

(** ** Properties *)

(** tonic reads the response body as it arrived and exactly one end: whatever the polls of
    the timer and of the stream find, the frames are the chunks in order, then one terminal
    frame (the deadline's or the stream's error, or the trailers), and nothing after it. *)
Theorem response_body_one_end {H : Http} (tr : option (list (str * str))) (d : bool) (ps : list polled) :
  (poll_frames (mkResponseBody tr d false) ps = (map relayed ps, mkResponseBody tr d false)
     /\ forallb (running d) ps = true)
  \/ exists pre p post, ps = pre ++ p :: post
     /\ forallb (running d) pre = true /\ running d p = false
     /\ poll_frames (mkResponseBody tr d false) ps
        = (map relayed pre ++ Ready (terminal d tr p) :: replicate (length post) (Ready None), mkResponseBody tr d true).
Proof.
  destruct (split_running (running d) ps) as [Hf|(pre & p & post & -> & Hpre & Hp)].
  - left. split; [by apply poll_frames_running|done].
  - right. exists pre, p, post. split_and!; try done. rewrite poll_frames_app, poll_frames_running by done.
    cbn [poll_frames]. rewrite poll_frame_terminal by done. by rewrite poll_frames_ended.
Qed.

(** The two readers of [grpc-timeout] agree: the deadline the transport enforces locally is
    the one the server parses from the same header text, and where the server's slice would
    panic the transport sets none. *)
Theorem timeout_parsers_agree (raw : str) :
  match parse_timeout_text raw with
  | Done d => grpc_timeout_text raw = d
  | Panic => grpc_timeout_text raw = None
  end.
Proof.
  unfold parse_timeout_text, grpc_timeout_text. destruct raw as [|b raw]; [done|].
  set (s := b :: raw). destruct (is_char_boundary s (blen s - 1)); [|done].
  destruct (parse_u64 (btake (blen s - 1) s)) as [n|]; [|done]. cbn [mbind option_bind].
  unfold timeout_of. set (u := bdrop (blen s - 1) s). clearbody u.
  repeat case_decide; subst; done.
Qed.

(** Metadata crosses to the wire unchanged or not at all: the header list holds every value
    of every name, in order, when all of them are text; one that is not fails the request,
    naming the header. *)
Theorem to_wire_headers_exact {H : Http} {HL : HttpLaws H} (headers : HeaderMap) :
  match to_wire_headers headers with
  | Ok l => forall k, map Some (values_of k l) = map to_str (hm_get_all headers k)
  | Err e => exists k v, v ∈ hm_get_all headers k /\ to_str v = None /\ e = t_new Code.Internal (not_ascii k)
  end.
Proof.
  unfold to_wire_headers. pose proof (wire_pairs_exact (hm_iter headers)) as Hw.
  destruct (wire_pairs (hm_iter headers)) as [ps|e].
  - intros k. by rewrite Hw, iter_get_all.
  - destruct Hw as (k & v & Hin & Hv & He). exists k, v. by rewrite <- iter_get_all.
Qed.

(** ** Witnesses *)

Lemma to_wire_headers_exact_witness :
  map Some (values_of $"x-a" [($"x-a", $"1"); ($"te", $"trailers"); ($"x-a", $"2")])
  = map (to_str (Http := AssocHttp.http)) [$"1"; $"2"].
Proof.
  exact (to_wire_headers_exact (H := AssocHttp.http) [($"x-a", $"1"); ($"te", $"trailers"); ($"x-a", $"2")] $"x-a").
Defined.
