(* ===== verification/Drain.v ===== *)
(** * Graceful shutdown ([rust/crates/grpc-webnext/src/drain.rs], [run] of [lib.rs])

    The accept loop, the connections it spawned and the drain controller, interleaved at
    their reads and writes of the shared watch channel: the runtime has many threads, so a
    drain may start between any two of them. A [tokio::sync::watch] channel is its value and
    its version; a receiver remembers the version it has seen, and a clone remembers what the
    original did. The liveness tokens are the runtimes not yet dropped. *)
From S2P Require Import Prelude RustStd.

(** [watch::Sender<bool>] and [watch::Receiver<bool>]. *)
Record watch_chan : Type := mkWatch { value : bool; version : nat }.
Record receiver : Type := mkReceiver { seen : nat }.
#[global] Instance receiver_eq_dec : EqDecision receiver.
Proof. solve_decision. Defined.

Definition watch_send (c : watch_chan) (v : bool) : watch_chan := mkWatch v (S (version c)).
(** [rx.changed()]: ready when the version moved past the seen one. *)
Definition changed_ready (c : watch_chan) (r : receiver) : bool := bool_decide (seen r < version c)%nat.

(** [struct Drain] and [channel]; the token is the holder itself. *)
Record Drain : Type := mkDrain { started_rx : receiver }.
Definition channel : watch_chan * Drain := (mkWatch false 0, mkDrain (mkReceiver 0)).
Definition started (c : watch_chan) (self : Drain) : bool := value c.
Definition subscribe (self : Drain) : receiver := started_rx self.
(** [Drain::wait] is over at once, or as soon as its receiver changes. *)
Definition wait_over (c : watch_chan) (self : Drain) : bool := value c || changed_ready c (subscribe self).

(** A connection task inside [serve_graceful!]: before the check, between the check and the
    subscription, in the [select!], asked to shut down, and completed (its runtime, and so
    its token, dropped). *)
Inductive conn : Type :=
| CCheck
| CSubscribe
| CSelect (r : receiver)
| CGraceful
| CCompleted.
#[global] Instance conn_eq_dec : EqDecision conn.
Proof. solve_decision. Defined.

(** One step of the connection's own task; [completes] says whether hyper's connection
    future is found ready (the [select!] may take either ready branch: completing is [true]). *)
Definition conn_step (c : watch_chan) (drain : Drain) (completes : bool) (k : conn) : conn :=
  match k with
  | CCheck => if started c drain then CGraceful else CSubscribe
  | CSubscribe => CSelect (subscribe drain)
  | CSelect r => if completes then CCompleted else if changed_ready c r then CGraceful else CSelect r
  | CGraceful => if completes then CCompleted else CGraceful
  | CCompleted => CCompleted
  end.

(** The accept loop of [run]: accepting, past [drop(rt)] but before [start.send], waiting
    for the tokens, and returned. *)
Inductive phase : Type :=
| Accepting
| Dropped (result : result str unit)
| Waiting (result : result str unit)
| Returned (result : result str unit).

Record Server : Type := mkServer {
  chan : watch_chan;
  drain : Drain;
  phase_of : phase;
  conns : list conn
}.
Definition server_init : Server := let '(c, d) := channel in mkServer c d Accepting [].

(** Every token dropped. *)
Definition no_tokens (conns : list conn) : bool := forallb (fun k => bool_decide (k = CCompleted)) conns.

Arguments no_tokens conns : simpl never.

Inductive event : Type :=
| Accept
| AcceptError (e : str)
| Shutdown
| Finish
| ConnStep (i : nat) (completes : bool).

(** [Finish] is the next step of [DrainController::finish]: send, then receive. *)
Definition step (s : Server) (e : event) : Server :=
  match e, phase_of s with
  | Accept, Accepting => mkServer (chan s) (drain s) Accepting (conns s ++ [CCheck])
  | AcceptError err, Accepting => mkServer (chan s) (drain s) (Dropped (Err err)) (conns s)
  | Shutdown, Accepting => mkServer (chan s) (drain s) (Dropped (Ok tt)) (conns s)
  | Finish, Dropped r => mkServer (watch_send (chan s) true) (drain s) (Waiting r) (conns s)
  | Finish, Waiting r => if no_tokens (conns s) then mkServer (chan s) (drain s) (Returned r) (conns s) else s
  | ConnStep i completes, _ =>
      mkServer (chan s) (drain s) (phase_of s) (alter (conn_step (chan s) (drain s) completes) i (conns s))
  | _, _ => s
  end.
Definition run_server : Server -> list event -> Server := foldl step.

(** ** Lemmas *)

Definition draining (s : Server) : bool := match phase_of s with Waiting _ | Returned _ => true | _ => false end.

Definition conn_ok (d : bool) (k : conn) : Prop :=
  match k with CSelect r => r = mkReceiver 0 | CGraceful => d = true | _ => True end.

(** The channel carries [true] exactly once the drain has started, no receiver has seen that
    version, and a returned server has no connection left. *)
Record server_inv (s : Server) : Prop := {
  inv_chan : chan s = if draining s then mkWatch true 1 else mkWatch false 0;
  inv_drain : drain s = mkDrain (mkReceiver 0);
  inv_conns : Forall (conn_ok (draining s)) (conns s);
  inv_returned r : phase_of s = Returned r -> no_tokens (conns s) = true
}.

Lemma server_init_inv : server_inv server_init.
Proof. split; cbn; try done; apply Forall_nil_2. Qed.

Lemma no_tokens_spec cs : no_tokens cs = true <-> Forall (fun k => k = CCompleted) cs.
Proof.
  unfold no_tokens. rewrite forallb_forall, Forall_forall. setoid_rewrite <- list_elem_of_In.
  split; intros Hc x Hx; specialize (Hc x Hx); by apply bool_decide_eq_true in Hc || apply bool_decide_eq_true.
Qed.

Lemma Forall_alter_to {A} (P : A -> Prop) f i (l : list A) :
  Forall P l -> (forall x, P x -> P (f x)) -> Forall P (alter f i l).
Proof. intros Hl Hf. apply Forall_alter; [done|]. intros x Hx Hp. by apply Hf. Qed.

Lemma conn_ok_started k : conn_ok false k -> conn_ok true k.
Proof. by destruct k. Qed.

Lemma conn_step_ok c b k :
  conn_ok (value c) k -> version c = (if value c then 1 else 0)%nat ->
  conn_ok (value c) (conn_step c (mkDrain (mkReceiver 0)) b k).
Proof.
  intros Hk Hv. destruct k as [| |r| |]; cbn in *; try done.
  - unfold started. by destruct (value c).
  - subst r. destruct b; [done|]. unfold changed_ready. cbn. rewrite Hv. by destruct (value c).
  - by destruct b.
Qed.

Lemma server_step_inv s e : server_inv s -> server_inv (step s e).
Proof.
  intros [I1 I2 I3 I4]. destruct s as [c d ph cs]. unfold draining in *. cbn in *. subst d.
  destruct e as [|err| | |i b]; cbn -[no_tokens].
  - destruct ph; try (by split). split; cbn; try done. apply Forall_app. split; [done|]. by apply Forall_singleton.
  - destruct ph; by split.
  - destruct ph; by split.
  - destruct ph as [|r|r|r]; try (by split).
    + split; cbn; try done; [by rewrite I1|]. eapply Forall_impl; [exact I3|]. apply conn_ok_started.
    + destruct (no_tokens cs) eqn:Hn; split; cbn; try done; by intros ? [= <-].
  - split; cbn; try done.
    + apply Forall_alter_to; [done|]. intros k Hk. unfold draining in *. cbn [phase_of] in *.
      destruct (match ph with Waiting _ | Returned _ => true | _ => false end); subst c;
        [apply (conn_step_ok (mkWatch true 1))|apply (conn_step_ok (mkWatch false 0))]; done.
    + intros r ->. specialize (I4 r eq_refl). rewrite no_tokens_spec in *. apply Forall_alter_to; [done|]. by intros x ->.
Qed.

Lemma run_server_inv es s : server_inv s -> server_inv (run_server s es).
Proof. revert s. induction es as [|e es IH]; intros s Hs; [done|]. by apply IH, server_step_inv. Qed.

(** A connection's own steps, from a state of the server in which nothing else moves. *)
Lemma run_conn_steps i bs s :
  run_server s (map (ConnStep i) bs)
  = mkServer (chan s) (drain s) (phase_of s)
      (alter (fun k => foldl (fun k b => conn_step (chan s) (drain s) b k) k bs) i (conns s)).
Proof.
  revert s. induction bs as [|b bs IH]; intros s.
  - destruct s as [c d ph cs]. cbn. f_equal. symmetry. by apply list_alter_id.
  - cbn [map run_server foldl]. fold run_server. rewrite IH. cbn. f_equal.
    by rewrite list_alter_alter_eq.
Qed.

(** Three of its own steps bring a running connection of a draining server to its graceful
    shutdown, a fourth completes it. *)
Lemma conn_drains k :
  conn_ok true k ->
  let go bs := foldl (fun k b => conn_step (mkWatch true 1) (mkDrain (mkReceiver 0)) b k) k bs in
  (k <> CCompleted -> go [false; false; false] = CGraceful) /\ go [false; false; false; true] = CCompleted.
Proof. destruct k as [| |r| |]; cbn; intros Hk; subst; by split. Qed.

Lemma run_all_conns n s :
  draining s = true -> server_inv s ->
  let s' := run_server s (flat_map (fun i => map (ConnStep i) [false; false; false; true]) (seq 0 n)) in
  phase_of s' = phase_of s /\ length (conns s') = length (conns s)
  /\ forall i, (i < n)%nat -> conns s' !! i = None \/ conns s' !! i = Some CCompleted.
Proof.
  intros Hd Hi. induction n as [|n IH]; cbn zeta in *; [by split_and!; try lia|].
  rewrite seq_S, flat_map_app. cbn [flat_map Nat.add]. rewrite app_nil_r. unfold run_server in *. rewrite foldl_app.
  set (s1 := foldl step s _) in *. fold run_server in *. destruct IH as (Hp & Hl & Hall).
  assert (server_inv s1) as Hi1 by apply (run_server_inv _ s Hi). clearbody s1.
  change (foldl step s1 ?l) with (run_server s1 l). rewrite run_conn_steps. cbn.
  rewrite length_alter. split_and!; [done|done|]. intros i Hlt.
  assert (chan s1 = mkWatch true 1) as Hc.
  { rewrite (inv_chan s1 Hi1). unfold draining in *. rewrite Hp. by rewrite Hd. }
  destruct (decide (n = i)) as [->|Hne].
  - rewrite list_lookup_alter, decide_True by done. destruct (conns s1 !! i) as [k|] eqn:Hk; [|by left]. right. cbn.
    rewrite Hc, (inv_drain s1 Hi1). f_equal. apply conn_drains.
    pose proof (inv_conns s1 Hi1) as Hf. eapply Forall_lookup_1 in Hf; [|done].
    replace (draining s1) with true in Hf; [done|]. unfold draining in *. by rewrite Hp.
  - rewrite list_lookup_alter_ne by done. apply Hall. lia.
Qed.

(** ** Properties *)

(** C22: A drain misses no connection and ends. In every reachable state: [run] has returned only
    if every connection completed; once the drain has started, whatever point a connection
    was at, three of its own steps take it to its graceful shutdown, and a receiver made now
    fires; before, none is asked to shut down; after the accept loop no connection is
    accepted; and from a draining state, letting every connection finish makes [run]
    return. *)
Theorem drain_misses_nothing (es : list event) :
  let s := run_server server_init es in
  (forall r, phase_of s = Returned r -> Forall (fun k => k = CCompleted) (conns s))
  /\ (draining s = true -> forall i k, conns s !! i = Some k -> k <> CCompleted ->
        conns (run_server s (map (ConnStep i) [false; false; false])) !! i = Some CGraceful)
  /\ (draining s = false -> Forall (fun k => k <> CGraceful) (conns s))
  /\ changed_ready (chan s) (subscribe (drain s)) = draining s
  /\ (phase_of s <> Accepting -> forall e, length (conns (step s e)) = length (conns s))
  /\ (forall r, phase_of s = Waiting r ->
        let finish_all := flat_map (fun i => map (ConnStep i) [false; false; false; true]) (seq 0 (length (conns s))) in
        phase_of (run_server s (finish_all ++ [Finish])) = Returned r).
Proof.
  intros s. pose proof (run_server_inv es _ server_init_inv) as Hi. fold s in Hi. clearbody s. split_and!.
  - intros r Hr. by apply no_tokens_spec, (inv_returned s Hi r).
  - intros Hd i k Hk Hne. rewrite run_conn_steps. cbn [conns]. rewrite list_lookup_alter, decide_True, Hk by done.
    rewrite (inv_chan s Hi), (inv_drain s Hi), Hd. cbn [fmap option_fmap option_map]. f_equal.
    apply conn_drains; [|done]. pose proof (inv_conns s Hi) as Hf. rewrite Hd in Hf. by eapply Forall_lookup_1.
  - intros Hd. eapply Forall_impl; [apply (inv_conns s Hi)|]. rewrite Hd. by intros [].
  - rewrite (inv_chan s Hi), (inv_drain s Hi). by destruct (draining s).
  - intros Hp e. destruct e; cbn; destruct (phase_of s); try done; cbn; try (by rewrite length_alter).
    by destruct (no_tokens (conns s)).
  - intros r Hr finish_all. unfold run_server. rewrite foldl_app. cbn [foldl].
    assert (draining s = true) as Hd by (unfold draining; by rewrite Hr).
    destruct (run_all_conns (length (conns s)) s Hd Hi) as (Hp & Hl & Hall). fold finish_all in Hp, Hl, Hall.
    change (foldl step s finish_all) with (run_server s finish_all).
    set (s' := run_server s finish_all) in *. clearbody s'. unfold step. rewrite Hp, Hr.
    assert (no_tokens (conns s') = true) as ->; [|done].
    apply no_tokens_spec, Forall_lookup. intros i k Hk. pose proof (lookup_lt_Some _ _ _ Hk).
    destruct (Hall i) as [Hn|Hn]; [lia|congruence|congruence].
Qed.

(** ** Witnesses *)

Lemma drain_misses_nothing_witness :
  let s := run_server server_init [Accept; Accept; ConnStep 0 false; Shutdown; Finish] in
  conns s = [CSubscribe; CCheck]
  /\ conns (run_server s (map (ConnStep 0) [false; false; false])) !! 0%nat = Some CGraceful.
Proof.
  intros s. split; [reflexivity|].
  destruct (drain_misses_nothing [Accept; Accept; ConnStep 0 false; Shutdown; Finish]) as (_ & Hg & _).
  exact (Hg eq_refl 0%nat CSubscribe eq_refl ltac:(discriminate)).
Defined.
