(* ===== verification/Schema.v ===== *)
(** * The descriptor source ([rust/crates/grpc-webnext/src/schema.rs])

    The reflection snapshot rides a watch channel that only ever receives loaded
    transcoders; a load's outcome ([reflect::load_all], modelled in [ReflectLoad]) is an input. *)
From S2P Require Import Prelude RustStd Http Reflection HttpBuild Transcode ClientStatus WsCodec Fetch.

Definition FIRST_LOAD_WAIT : duration := from_secs 10.
Definition LOAD_TIMEOUT : duration := from_secs 30.
Definition RETRY_INTERVAL : duration := from_secs 30.

(** [a.min(b)] of two durations. *)
Definition duration_min (a b : duration) : duration :=
  if (secs a <? secs b) || ((secs a =? secs b) && (nanos a <=? nanos b)) then a else b.

Inductive SchemaSource : Type :=
| SNone
| SReflection
| SBundled (b : bytes)
| SReflectionOrBundled (b : bytes).

Section schema.
Context {R : Reflect}.

(** [struct ReflectionState]: the time to live, and the value of the watch channel. *)
Record ReflectionState : Type := mkReflectionState { ttl : duration; current : option Transcoder }.

(** [enum Inner], the only field of [Schema]. *)
Inductive Schema : Type :=
| None_
| Bundled (tc : Transcoder)
| Reflection (state : ReflectionState)
| ReflectionOrBundled (reflection : ReflectionState) (bundle : Transcoder).

(** [load_and_swap]: the load raced against [LOAD_TIMEOUT]. *)
Definition load_and_swap (self : ReflectionState) (load : timed (result TonicStatus Transcoder))
  : result TonicStatus unit * ReflectionState :=
  match load with
  | Finished (Ok tc) => (Ok tt, mkReflectionState (ttl self) (Some tc))
  | Finished (Err e) => (Err e, self)
  | Elapsed => (Err (mkTonicStatus Code.DeadlineExceeded $"upstream reflection load timed out"), self)
  end.

(** [ReflectionState::transcoder]: what each bounded wait for a change gives. *)
Fixpoint state_transcoder (cur : option Transcoder) (waits : list (timed (option Transcoder))) : result TonicStatus Transcoder :=
  match cur with
  | Some tc => Ok tc
  | None =>
      match waits with
      | Finished cur' :: waits' => state_transcoder cur' waits'
      | _ => Err (mkTonicStatus Code.Unavailable $"descriptors not yet loaded from upstream reflection")
      end
  end.

(** One turn of [refresh_loop]: the state, and how long it sleeps. *)
Definition refresh_turn (state : ReflectionState) (load : timed (result TonicStatus Transcoder))
  : ReflectionState * duration :=
  let '(r, state') := load_and_swap state load in
  (state', match r with Ok _ => ttl state | Err _ => duration_min RETRY_INTERVAL (ttl state) end).

Definition from_transcoder (transcoder : option Transcoder) : Schema :=
  match transcoder with Some tc => Bundled tc | None => None_ end.

Definition build (source : SchemaSource) (ttl : duration) : result TranscodeError Schema :=
  match source with
  | SNone => Ok None_
  | SBundled b => tc ← from_file_descriptor_set b; Ok (Bundled tc)
  | SReflection => Ok (Reflection (mkReflectionState ttl None))
  | SReflectionOrBundled b =>
      bundle ← from_file_descriptor_set b;
      Ok (ReflectionOrBundled (mkReflectionState ttl None) bundle)
  end.

(** [start]: whether it spawns [refresh_loop]. *)
Definition start (self : Schema) : bool :=
  match self with Reflection _ | ReflectionOrBundled _ _ => true | _ => false end.

Definition reload (self : Schema) (load : timed (result TonicStatus Transcoder)) : result TonicStatus unit * Schema :=
  match self with
  | Reflection state => let '(r, state') := load_and_swap state load in (r, Reflection state')
  | ReflectionOrBundled state bundle =>
      let '(r, state') := load_and_swap state load in (r, ReflectionOrBundled state' bundle)
  | None_ => (Err (mkTonicStatus Code.FailedPrecondition $"no descriptor source to reload"), self)
  | Bundled _ =>
      (Err (mkTonicStatus Code.FailedPrecondition $"bundled descriptors are static; nothing to reload"), self)
  end.

Definition enabled (self : Schema) : bool := match self with None_ => false | _ => true end.

Definition no_transcoder : TonicStatus :=
  mkTonicStatus Code.Unimplemented $"no +json transcoder configured (pass a transcoder in-process, or enable upstream reflection / bundle a descriptor set on the proxy)".

Definition transcoder_any (self : Schema) (waits : list (timed (option Transcoder))) : result TonicStatus Transcoder :=
  match self with
  | None_ => Err no_transcoder
  | Bundled tc => Ok tc
  | Reflection state => state_transcoder (current state) waits
  | ReflectionOrBundled reflection bundle => Ok (default bundle (current reflection))
  end.

Definition transcoder (self : Schema) (method_path : str) (waits : list (timed (option Transcoder)))
  : result TonicStatus Transcoder :=
  tc ← transcoder_any self waits;
  if has_method tc method_path then Ok tc
  else Err (mkTonicStatus Code.Unimplemented ($"no descriptor for method " ++ method_path)).

(** The refresh task and the reloads in any order: each turn is one load. *)
Definition refresh (self : Schema) (load : timed (result TonicStatus Transcoder)) : Schema :=
  match self with
  | Reflection state => Reflection (refresh_turn state load).1
  | ReflectionOrBundled state bundle => ReflectionOrBundled (refresh_turn state load).1 bundle
  | _ => self
  end.
Definition apply_load (self : Schema) (l : bool * timed (result TonicStatus Transcoder)) : Schema :=
  if l.1 then (reload self l.2).2 else refresh self l.2.
End schema.

(** ** Lemmas *)

Section facts.
Context {R : Reflect}.

(** The snapshot a sequence of loads leaves. *)
Definition last_loaded (prev : option Transcoder) (loads : list (bool * timed (result TonicStatus Transcoder)))
  : option Transcoder :=
  foldl (fun cur l => match l.2 with Finished (Ok tc) => Some tc | _ => cur end) prev loads.

Lemma loads_reflection st loads :
  foldl apply_load (Reflection st) loads = Reflection (mkReflectionState (ttl st) (last_loaded (current st) loads)).
Proof.
  revert st. induction loads as [|[[] [[tc|e]|]] loads IH]; intros st; [by destruct st|..];
    cbn [foldl]; (etransitivity; [apply IH|done]).
Qed.

Lemma loads_or_bundled st bundle loads :
  foldl apply_load (ReflectionOrBundled st bundle) loads
  = ReflectionOrBundled (mkReflectionState (ttl st) (last_loaded (current st) loads)) bundle.
Proof.
  revert st. induction loads as [|[[] [[tc|e]|]] loads IH]; intros st; [by destruct st|..];
    cbn [foldl]; (etransitivity; [apply IH|done]).
Qed.

Lemma loads_static s loads : start s = false -> foldl apply_load s loads = s.
Proof. intros Hs. induction loads as [|[[] l] loads IH]; [done|..]; cbn [foldl]; destruct s; try done; apply IH. Qed.
End facts.

(** ** Properties *)

(** The schema serves the last load that succeeded, and never loses one. After any sequence
    of background refreshes and forced reloads: reflection answers with the last loaded
    snapshot without waiting (and with the first that arrives in time before one is), with a
    bundle it answers at once and falls back to the bundle, a bundle alone is static and
    refuses a reload as a conflict, and without a source everything is UNIMPLEMENTED; a
    refresh never sleeps longer than the time to live. *)
Theorem schema_serves_latest {R : Reflect} (source : SchemaSource) (life : duration) (s : Schema)
  (loads : list (bool * timed (result TonicStatus Transcoder))) (waits : list (timed (option Transcoder)))
  (Hbuild : build source life = Ok s) :
  let s' := foldl apply_load s loads in
  (enabled s' = true <-> source <> SNone)
  /\ (start s' = true <-> source = SReflection \/ exists b, source = SReflectionOrBundled b)
  /\ match source with
     | SNone => transcoder_any s' waits = Err no_transcoder
     | SBundled b => exists tc, from_file_descriptor_set b = Ok tc /\ transcoder_any s' waits = Ok tc
     | SReflection =>
         match last_loaded None loads with
         | Some tc => transcoder_any s' waits = Ok tc
         | None => transcoder_any s' (Elapsed :: waits)
                   = Err (mkTonicStatus Code.Unavailable $"descriptors not yet loaded from upstream reflection")
                   /\ forall tc, transcoder_any s' (Finished (Some tc) :: waits) = Ok tc
         end
     | SReflectionOrBundled b => exists tc, from_file_descriptor_set b = Ok tc
         /\ transcoder_any s' waits = Ok (default tc (last_loaded None loads))
     end
  /\ (start s' = false -> forall load,
        http_status (H := AssocHttp.http) (handle_admin_reload $"POST" (reload s' load).1) = 409)
  /\ (forall st load, secs (refresh_turn st load).2 <= secs (ttl st)).
Proof.
  assert (forall st load, secs (refresh_turn st load).2 <= secs (ttl st)) as Hwait.
  { intros st load. unfold refresh_turn. destruct (load_and_swap st load) as [[|] st']; cbn [snd]; [lia|].
    unfold duration_min. destruct (N.ltb_spec (secs RETRY_INTERVAL) (secs (ttl st))); cbn [orb]; [lia|].
    destruct (N.eqb_spec (secs RETRY_INTERVAL) (secs (ttl st))); cbn [andb]; [|lia].
    destruct (nanos RETRY_INTERVAL <=? nanos (ttl st)); lia. }
  destruct source as [| |b|b]; cbn [build] in Hbuild.
  - simplify_eq. cbn zeta. rewrite loads_static by done. split_and!; try done; naive_solver.
  - simplify_eq. cbn zeta. rewrite loads_reflection. split_and!; try done; [naive_solver|].
    cbn [current]. cbn [transcoder_any current]. destruct (last_loaded None loads) as [tc|]; [by destruct waits|].
    split; [done|]. intros tc. cbn. by destruct waits.
  - destruct (from_file_descriptor_set b) as [tc|] eqn:Hb; [|done]. cbn [mbind result_bind] in Hbuild. simplify_eq.
    cbn zeta. rewrite loads_static by done. split_and!; try done; naive_solver.
  - destruct (from_file_descriptor_set b) as [tc|] eqn:Hb; [|done]. cbn [mbind result_bind] in Hbuild. simplify_eq.
    cbn zeta. rewrite loads_or_bundled. split_and!; try done; naive_solver.
Qed.

(** ** Witnesses *)

Lemma schema_serves_latest_witness :
  transcoder_any (foldl apply_load (ReflectionOrBundled (mkReflectionState (from_secs 60) None) demo_transcoder)
    [(true, Finished (Err (mkTonicStatus Code.Unavailable $"down"))); (false, Elapsed)]) [] = Ok demo_transcoder.
Proof.
  destruct (schema_serves_latest (R := Flat.reflect) (SReflectionOrBundled $"demo") (from_secs 60)
    (ReflectionOrBundled (mkReflectionState (from_secs 60) None) demo_transcoder)
    [(true, Finished (Err (mkTonicStatus Code.Unavailable $"down"))); (false, Elapsed)] [] eq_refl)
    as (_ & _ & (tc & Htc & Hany) & _).
  rewrite Hany. cbn [last_loaded foldl snd default from_option id]. f_equal.
  assert (Ok tc = Ok (E := TranscodeError) demo_transcoder) as Heq by (rewrite <- Htc; reflexivity). by injection Heq.
Defined.
