(* ===== verification/ReflectLoad.v ===== *)
(** * Loading descriptors by reflection ([rust/crates/grpc-webnext/src/reflect.rs])

    The driver of one reflection stream, the closure of the files it fetches, their
    dependency order and the [FileDescriptorSet] they are framed into. The decoding of a
    [FileDescriptorProto] (its name and dependencies) is generated code over [prost]: a
    parameter, as are the answers of the stream. A [HashMap] is a [gmap], a [HashSet] a
    [gset]. *)
From stdpp Require Import sorting.
From S2P Require Import Prelude RustStd Reflection HttpBuild Transcode ClientStatus WsCodec.

(** [struct RawFile] *)
Record RawFile : Type := mkRawFile { raw : bytes; deps : list str }.

(** ** The dependency order *)

(** [visit], with what it pushes for a file as a parameter. Each nested visit of a file
    marks a name that was not seen, so one more than the number of files is enough fuel. *)
Fixpoint visit {A} (emit : str -> RawFile -> A) (files : gmap str RawFile) (fuel : nat) (name : str)
    (st : gset str * list A) : gset str * list A :=
  match fuel with
  | O => st
  | S fuel =>
      let '(seen, out) := st in
      if decide (name ∈ seen) then st
      else
        let seen := {[name]} ∪ seen in
        match files !! name with
        | Some f =>
            let '(seen, out) := foldl (fun st dep => visit emit files fuel dep st) (seen, out) (deps f) in
            (seen, out ++ [emit name f])
        | None => (seen, out)
        end
  end.

(** [names.sort()]: bytes, lexicographically. *)
Definition sorted_names (files : gmap str RawFile) : list str :=
  merge_sort (fun a b => Is_true (str_le a b)) (elements (dom files)).

Definition topo_fuel (files : gmap str RawFile) : nat := S (size (dom files)).
Definition topo {A} (emit : str -> RawFile -> A) (files : gmap str RawFile) : list A :=
  (foldl (fun st name => visit emit files (topo_fuel files) name st) (∅, []) (sorted_names files)).2.

(** [topo_sort] *)
Definition topo_sort (files : gmap str RawFile) : list bytes := topo (fun _ f => raw f) files.

(** ** The descriptor set *)

(** The loop of [push_file_descriptor]: a [u64] takes at most ten groups of seven bits. *)
Fixpoint varint (fuel : nat) (len : N) : bytes :=
  match fuel with
  | O => []
  | S fuel =>
      let byte := N.land len 0x7F in
      let len := N.shiftr len 7 in
      if len =? 0 then [byte_of_N byte] else byte_of_N (N.lor byte 0x80) :: varint fuel len
  end.
Definition push_file_descriptor (buf raw : bytes) : bytes := buf ++ [x0a] ++ varint 10 (blen raw) ++ raw.

(** ** The reflection stream *)

Inductive request : Type :=
| FileContainingSymbol (s : str)
| FileByFilename (s : str).
#[global] Instance request_eq_dec : EqDecision request.
Proof. solve_decision. Defined.

Inductive message_response : Type :=
| FileDescriptorResponse (files : list bytes)
| ErrorResponse (code : Code.t) (message : str)
| OtherResponse.

(** The locals of [fetch_v1] / [fetch_v1alpha], and the requests sent. *)
Record Driver : Type := mkDriver {
  files : gmap str RawFile;
  requested : gset str;
  pending : nat;
  sent : list request
}.

Section driver.
Context (file_meta : bytes -> result TonicStatus (str * list str)).

Definition fetch_init (symbol : str) : Driver := mkDriver ∅ ∅ 1 [FileContainingSymbol symbol].

Definition add_dep (d : Driver) (dep : str) : Driver :=
  if decide (files d !! dep = None /\ dep ∉ requested d) then
    mkDriver (files d) ({[dep]} ∪ requested d) (S (pending d)) (sent d ++ [FileByFilename dep])
  else d.

Definition add_raw (d : Driver) (bytes : bytes) : result TonicStatus Driver :=
  '(name, deps) ← file_meta bytes;
  let d := foldl add_dep d deps in
  Ok (mkDriver (<[name := mkRawFile bytes deps]> (files d)) (requested d) (pending d) (sent d)).

Fixpoint add_raws (d : Driver) (raws : list bytes) : result TonicStatus Driver :=
  match raws with
  | [] => Ok d
  | raw :: raws' => d ← add_raw d raw; add_raws d raws'
  end.

(** The [while] loop: [resps] is what [inbound.message()] gives. *)
Fixpoint drive (resps : list (result TonicStatus message_response)) (d : Driver) : result TonicStatus Driver :=
  match pending d with
  | O => Ok d
  | S pending' =>
      match resps with
      | [] => Ok d
      | Err e :: _ => Err e
      | Ok resp :: resps' =>
          let d := mkDriver (files d) (requested d) pending' (sent d) in
          match resp with
          | FileDescriptorResponse raws => d ← add_raws d raws; drive resps' d
          | ErrorResponse code message => Err (mkTonicStatus code message)
          | OtherResponse => drive resps' d
          end
      end
  end.

(** [fetch_v1], [fetch_v1alpha]: [opened] is the call itself. *)
Definition fetch (opened : result TonicStatus unit) (resps : list (result TonicStatus message_response)) (symbol : str)
  : result TonicStatus (gmap str RawFile) :=
  _ ← opened; d ← drive resps (fetch_init symbol); Ok (files d).
End driver.

(** [list_services_v1], [list_services_v1alpha]. *)
Inductive list_response : Type :=
| ListServicesResponse (names : list str)
| ListErrorResponse (code : Code.t) (message : str)
| ListOtherResponse.
Definition list_services (opened : result TonicStatus unit) (resp : result TonicStatus (option list_response))
  : result TonicStatus (list str) :=
  _ ← opened; resp ← resp;
  match resp with
  | None => Err (mkTonicStatus Code.Internal $"reflection stream closed before response")
  | Some (ListServicesResponse names) => Ok names
  | Some (ListErrorResponse code message) => Err (mkTonicStatus code message)
  | Some ListOtherResponse => Err (mkTonicStatus Code.Internal $"unexpected reflection response to list_services")
  end.

Inductive Version : Set := V1 | V1alpha.

Section load.
Context {R : Reflect} (transcode_error_display : TranscodeError -> str).

Definition file_set (files : gmap str RawFile) : bytes := foldl push_file_descriptor [] (topo_sort files).

Definition load_all (list_v1 list_v1alpha : result TonicStatus (list str))
    (fetched : Version -> str -> result TonicStatus (gmap str RawFile)) : result TonicStatus Transcoder :=
  '(services, version) ←
    match list_v1 with
    | Err e => if decide (ts_code e = Code.Unimplemented) then services ← list_v1alpha; Ok (services, V1alpha) else Err e
    | Ok services => Ok (services, V1)
    end;
  let files := foldl (fun files service =>
      match fetched version service with Ok svc_files => svc_files ∪ files | Err _ => files end) ∅ services in
  if decide (files = ∅) then Err (mkTonicStatus Code.Unavailable $"upstream reflection returned no descriptors")
  else map_err (fun e => mkTonicStatus Code.Internal ($"build descriptor pool: " ++ transcode_error_display e))
         (from_file_descriptor_set (file_set files)).
End load.

(** ** The test upstream's reader ([rust/crates/testecho/src/lib.rs])

    [split_files] reads a descriptor set back; it is test code, built with overflow checks,
    so a shift of 64 or more panics like an index out of range or the [assert_eq!]. *)
Fixpoint split_len (set : bytes) (len shift : N) : run (N * bytes) :=
  match set with
  | [] => Panic
  | b :: set =>
      if 64 <=? shift then Panic
      else
        let len := N.lor len (N.shiftl (N.land (bN b) 0x7F) shift mod two64) in
        if N.land (bN b) 0x80 =? 0 then Done (len, set) else split_len set len (shift + 7)
  end.

(** Each turn consumes a tag byte, so the length of the set is enough fuel. *)
Fixpoint split_files_fuel (fuel : nat) (set : bytes) : run (list bytes) :=
  match fuel, set with
  | _, [] => Done []
  | O, _ => Panic
  | S fuel, tag :: set =>
      if decide (tag = x0a) then
        '(len, set) ← split_len set 0 0;
        if blen set <? len then Panic
        else out ← split_files_fuel fuel (bdrop len set); Done (btake len set :: out)
      else Panic
  end.
Definition split_files (set : bytes) : run (list bytes) := split_files_fuel (length set) set.

(** ** Lemmas: the descriptor set *)

Lemma lor_disjoint_7 n : N.lor (N.land n 127) (N.shiftl (N.shiftr n 7) 7) = n.
Proof.
  apply N.bits_inj. intros i. rewrite N.lor_spec, N.land_spec. change 127 with (N.ones 7).
  destruct (N.lt_ge_cases i 7).
  - rewrite N.ones_spec_low, N.shiftl_spec_low by done. by rewrite andb_true_r, orb_false_r.
  - rewrite N.ones_spec_high, N.shiftl_spec_high', N.shiftr_spec' by done. rewrite andb_false_r, orb_false_l.
    f_equal. lia.
Qed.

Lemma land_127_lt n : N.land n 127 < 128.
Proof. change 127 with (N.ones 7). rewrite N.land_ones. by apply N.mod_lt. Qed.

(** A group byte, and its continuation bit. *)
Lemma group_byte d : d < 128 ->
  bN (byte_of_N d) = d /\ bN (byte_of_N (N.lor d 128)) = N.lor d 128
  /\ N.land d 128 = 0 /\ N.land (N.lor d 128) 128 <> 0 /\ N.land d 127 = d /\ N.land (N.lor d 128) 127 = d.
Proof.
  intros Hd. assert (forall m, m < 128 -> N.land m 127 = m) as H127.
  { intros m Hm. change 127 with (N.ones 7). rewrite N.land_ones. by apply N.mod_small. }
  assert (N.land d 128 = 0) as H128.
  { rewrite <- (H127 d Hd), <- N.land_assoc. by rewrite N.land_0_r. }
  assert (N.lor d 128 = d + 128) as Hlor.
  { symmetry. apply N.add_nocarry_lxor in H128 as H0. rewrite H0. by apply N.lxor_lor. }
  split_and!.
  - apply bN_byte_of_N. lia.
  - apply bN_byte_of_N. lia.
  - done.
  - rewrite N.land_lor_distr_l, H128. done.
  - by apply H127.
  - rewrite N.land_lor_distr_l, (H127 d Hd). apply N.lor_0_r.
Qed.

Lemma split_len_varint fuel n rest acc shift :
  n < 2 ^ (7 * N.of_nat fuel) -> (0 < fuel)%nat -> shift + 7 * N.of_nat fuel < 71 -> N.shiftl n shift < two64 ->
  split_len (varint fuel n ++ rest) acc shift = Done (N.lor acc (N.shiftl n shift), rest).
Proof.
  revert n acc shift. induction fuel as [|fuel IH]; intros n acc shift Hn Hf Hs Hlt; [lia|].
  cbn [varint]. pose proof (land_127_lt n) as Hd.
  destruct (group_byte (N.land n 127) Hd) as (B1 & B2 & B3 & B4 & B5 & B6).
  assert (N.shiftl (N.land n 127) shift < two64) as Hsmall.
  { eapply N.le_lt_trans; [|exact Hlt]. rewrite !N.shiftl_mul_pow2. apply N.mul_le_mono_r.
    change 127 with (N.ones 7). rewrite N.land_ones. apply N.Div0.mod_le. }
  destruct (N.eqb_spec (N.shiftr n 7) 0) as [Hz|Hz]; cbn [app split_len];
    (destruct (N.leb_spec 64 shift); [lia|]).
  - rewrite B1, B3, B5, N.mod_small by done. cbn [N.eqb]. do 3 f_equal.
    by rewrite <- (lor_disjoint_7 n) at 2; rewrite Hz, N.shiftl_0_l, N.lor_0_r.
  - rewrite B2, B6, N.mod_small by done. rewrite (proj2 (N.eqb_neq _ _)) by done.
    rewrite IH.
    + do 2 f_equal. rewrite <- N.lor_assoc. f_equal. rewrite N.add_comm, <- N.shiftl_shiftl, <- N.shiftl_lor.
      by rewrite lor_disjoint_7.
    + rewrite N.shiftr_div_pow2. apply N.Div0.div_lt_upper_bound. rewrite <- N.pow_add_r. eapply N.lt_le_trans; [exact Hn|].
      apply N.pow_le_mono_r; [done|lia].
    + destruct fuel; [|lia]. exfalso. apply Hz. apply N.shiftr_eq_0_iff. destruct (N.eq_dec n 0); [by left|right].
      split; [lia|]. apply N.log2_lt_pow2; [lia|exact Hn].
    + lia.
    + rewrite N.add_comm, <- N.shiftl_shiftl. eapply N.le_lt_trans; [|exact Hlt].
      rewrite !(N.shiftl_mul_pow2 _ shift). apply N.mul_le_mono_r.
      rewrite N.shiftl_mul_pow2, N.shiftr_div_pow2, N.mul_comm. apply N.Div0.mul_div_le.
Qed.

Lemma foldl_push raws buf : foldl push_file_descriptor buf raws = buf ++ concat (map (push_file_descriptor []) raws).
Proof.
  revert buf. induction raws as [|r raws IH]; intros buf; cbn [foldl map concat]; [by rewrite app_nil_r|].
  rewrite IH. unfold push_file_descriptor. by rewrite <- app_assoc.
Qed.

Lemma split_files_fuel_push fuel r rest :
  blen r < two64 ->
  split_files_fuel (S fuel) (push_file_descriptor [] r ++ rest)
  = (out ← split_files_fuel fuel rest; Done (r :: out)).
Proof.
  intros Hr. unfold push_file_descriptor. cbn [app split_files_fuel]. rewrite decide_True by done.
  rewrite <- app_assoc, split_len_varint; [|by etransitivity|lia|lia|by rewrite N.shiftl_0_r].
  cbn [mbind run_bind]. rewrite N.lor_0_l, N.shiftl_0_r.
  rewrite (proj2 (N.ltb_ge _ _)) by (rewrite blen_app; lia). by rewrite bdrop_app, btake_app.
Qed.

Lemma split_files_push raws fuel :
  Forall (fun r => blen r < two64) raws -> (length raws <= fuel)%nat ->
  split_files_fuel fuel (concat (map (push_file_descriptor []) raws)) = Done raws.
Proof.
  intros Hr. revert fuel. induction Hr as [|r raws Hr _ IH]; intros fuel Hf; cbn [map concat length] in *.
  - by destruct fuel.
  - destruct fuel as [|fuel]; [lia|]. rewrite split_files_fuel_push by done. rewrite IH by lia. done.
Qed.

Lemma length_set raws : (length raws <= length (concat (map (push_file_descriptor []) raws)))%nat.
Proof.
  induction raws as [|r raws IH]; cbn [map concat length]; [done|].
  rewrite length_app. unfold push_file_descriptor at 1. cbn [app length]. lia.
Qed.

(** ** Lemmas: the depth-first order *)

Section dfs.
Context (fs : gmap str RawFile).

(** The names of the files already emitted, in the order of emission. *)
Abbreviation go := (visit (fun name _ => name) fs).

(** [visit] emits the same files whatever it emits of them. *)
Lemma visit_emit {A} (emit : str -> RawFile -> A) (value : str -> A) fuel name seen out :
  (forall n f, fs !! n = Some f -> emit n f = value n) ->
  visit emit fs fuel name (seen, map value out)
  = ((go fuel name (seen, out)).1, map value (go fuel name (seen, out)).2).
Proof.
  intros Hv. revert name seen out. induction fuel as [|fuel IH]; intros name seen out; [done|].
  cbn [visit]. case_decide; [done|]. destruct (fs !! name) as [f|] eqn:Hf; [|done].
  assert (forall ds s o,
    foldl (fun st dep => visit emit fs fuel dep st) (s, map value o) ds
    = ((foldl (fun st dep => go fuel dep st) (s, o) ds).1, map value (foldl (fun st dep => go fuel dep st) (s, o) ds).2)) as Hds.
  { intros ds. induction ds as [|d ds IHd]; intros s o; [done|]. cbn [foldl]. rewrite IH.
    destruct (go fuel d (s, o)) as [s' o']. apply IHd. }
  rewrite Hds. destruct (foldl _ (_, out) (deps f)) as [s' o'] eqn:E. cbn [fst snd].
  by rewrite map_app, (Hv name f Hf).
Qed.

(** Files not seen: the fuel a visit needs beyond one. *)
Definition unseen (seen : gset str) : nat := size (dom fs ∖ seen).

Lemma unseen_mono s1 s2 : s1 ⊆ s2 -> (unseen s2 <= unseen s1)%nat.
Proof. intros Hs. unfold unseen. apply subseteq_size. set_solver. Qed.

Lemma unseen_mark name seen :
  name ∈ dom fs -> name ∉ seen -> (unseen ({[name]} ∪ seen) < unseen seen)%nat.
Proof. intros Hn Hs. unfold unseen. apply subset_size. set_solver. Qed.

(** Seen files that have not been emitted: the visits in progress. *)
Definition open_file (seen : gset str) (out : list str) (x : str) : Prop := x ∈ seen /\ x ∈ dom fs /\ x ∉ out.

(** Every emitted file comes after the files it depends on. *)
Definition deps_first (out : list str) : Prop :=
  forall l x r f d, out = l ++ x :: r -> fs !! x = Some f -> d ∈ deps f -> d ∈ dom fs -> d ∈ l.

Record dfs_inv (seen : gset str) (out : list str) : Prop := {
  dfs_nodup : NoDup out;
  dfs_sub x : x ∈ out -> x ∈ seen /\ x ∈ dom fs
}.

(** What a visit, or a run of visits, does to the state. *)
Record dfs_post (seen : gset str) (out : list str) (seen' : gset str) (out' : list str) : Prop := {
  post_inv : dfs_inv seen' out';
  post_seen : seen ⊆ seen';
  post_out : exists new, out' = out ++ new;
  post_open x : open_file seen' out' x <-> open_file seen out x
}.

Lemma dfs_post_refl seen out : dfs_inv seen out -> dfs_post seen out seen out.
Proof. intros Hi. split; [done|done|exists []; by rewrite app_nil_r|done]. Qed.

Lemma dfs_post_trans s1 o1 s2 o2 s3 o3 : dfs_post s1 o1 s2 o2 -> dfs_post s2 o2 s3 o3 -> dfs_post s1 o1 s3 o3.
Proof.
  intros [A1 A2 [n1 A3] A4] [B1 B2 [n2 B3] B4]. split; [done|set_solver| |].
  - exists (n1 ++ n2). by rewrite B3, A3, app_assoc.
  - intros x. by rewrite B4, A4.
Qed.

(** A rank that goes down along dependencies: what a set of files with no cycle has. *)
Definition acyclic (rank : str -> nat) : Prop :=
  forall n f d, fs !! n = Some f -> d ∈ deps f -> d ∈ dom fs -> (rank d < rank n)%nat.

(** The order a visit keeps, below every visit in progress. *)
Definition keeps_order (names : list str) (seen : gset str) (out out' : list str) : Prop :=
  forall rank, acyclic rank -> deps_first out ->
    (forall n x, n ∈ names -> n ∈ dom fs -> open_file seen out x -> (rank n < rank x)%nat) -> deps_first out'.

Definition visit_ok (names : list str) (seen : gset str) (out : list str) (st : gset str * list str) : Prop :=
  dfs_post seen out st.1 st.2 /\ (forall n, n ∈ names -> n ∈ st.1) /\ keeps_order names seen out st.2.

Lemma visits_ok fuel names seen out :
  (forall name seen out, dfs_inv seen out -> (unseen seen < fuel)%nat -> visit_ok [name] seen out (go fuel name (seen, out))) ->
  dfs_inv seen out -> (unseen seen < fuel)%nat ->
  visit_ok names seen out (foldl (fun st d => go fuel d st) (seen, out) names).
Proof.
  intros Hv. revert seen out. induction names as [|n names IH]; intros seen out Hi Hu; cbn [foldl].
  - split; [by apply dfs_post_refl|]. split; [by intros n ?%elem_of_nil|]. by intros rank _ Ho _.
  - destruct (Hv n seen out Hi Hu) as (Hp & Hn & Hk). destruct (go fuel n (seen, out)) as [s1 o1]. cbn [fst snd] in *.
    pose proof (unseen_mono _ _ (post_seen _ _ _ _ Hp)).
    destruct (IH s1 o1 (post_inv _ _ _ _ Hp)) as (Hp' & Hn' & Hk'); [lia|].
    split; [by eapply dfs_post_trans|]. split.
    + intros m [->|Hm]%elem_of_cons; [|by apply Hn'].
      apply (post_seen _ _ _ _ Hp'), Hn. by apply list_elem_of_singleton.
    + intros rank Hr Ho Hx. apply (Hk' rank Hr).
      * apply (Hk rank Hr Ho). intros m x ->%list_elem_of_singleton. apply Hx. left.
      * intros m x Hm Hd Hopen%(post_open _ _ _ _ Hp). apply Hx; [by right|done|done].
Qed.

(** Emitting the file a visit opened. *)
Lemma emit_ok name f seen out s' o' :
  fs !! name = Some f -> name ∉ seen -> dfs_inv seen out ->
  visit_ok (deps f) ({[name]} ∪ seen) out (s', o') -> visit_ok [name] seen out (s', o' ++ [name]).
Proof.
  intros Hf Hns Hi (Hp & Hn & Hk). cbn [fst snd] in *.
  assert (name ∈ dom fs) as Hd by (by apply elem_of_dom).
  assert (forall x, open_file ({[name]} ∪ seen) out x <-> x = name \/ open_file seen out x) as Hopen1.
  { intros x. unfold open_file. pose proof (dfs_sub _ _ Hi name). set_solver. }
  assert (open_file s' o' name) as (Hns' & _ & Hno') by (apply (post_open _ _ _ _ Hp), Hopen1; by left).
  destruct Hp as [[Hnd Hsub] Hseen [new Hnew] Hopen]. split; [|split].
  - split.
    + split; [apply NoDup_app; split_and!; [done| |apply NoDup_singleton]; set_solver|]. set_solver.
    + set_solver.
    + exists (new ++ [name]). by rewrite Hnew, app_assoc.
    + intros x. assert (open_file s' (o' ++ [name]) x <-> open_file s' o' x /\ x <> name) as -> by (unfold open_file; set_solver).
      rewrite Hopen, Hopen1. pose proof (conj Hns Hd). unfold open_file. naive_solver.
  - by intros n ->%list_elem_of_singleton.
  - intros rank Hr Ho Hx.
    assert (forall x, open_file seen out x -> (rank name < rank x)%nat) as Hrank.
    { intros x. apply Hx; [by apply list_elem_of_singleton|done]. }
    assert (deps_first o') as Ho'.
    { apply (Hk rank Hr Ho). intros d x Hdep Hdd [->|Hopenx]%Hopen1; [by eapply Hr|].
      etransitivity; [by eapply Hr|by apply Hrank]. }
    intros l x r f' d Heq Hf' Hdep Hdd. destruct r as [|y r _] using rev_ind.
    + apply app_inj_tail in Heq as [Hl Hname]. rewrite <- Hl. rewrite <- Hname in Hf'.
      assert (f' = f) as -> by congruence.
      destruct (decide (d ∈ o')) as [|Hnl]; [done|exfalso].
      assert (open_file s' o' d) as [->|Hod]%Hopen%Hopen1 by (split_and!; [by apply Hn|done|done]).
      * specialize (Hr _ _ _ Hf Hdep Hdd). lia.
      * specialize (Hr _ _ _ Hf Hdep Hdd). specialize (Hrank _ Hod). lia.
    + rewrite app_comm_cons, app_assoc in Heq. apply app_inj_tail in Heq as [-> ->]. by eapply Ho'.
Qed.

Lemma visit_spec fuel name seen out :
  dfs_inv seen out -> (unseen seen < fuel)%nat -> visit_ok [name] seen out (go fuel name (seen, out)).
Proof.
  revert name seen out. induction fuel as [|fuel IH]; intros name seen out Hi Hu; [lia|].
  cbn [visit]. case_decide as Hs.
  - split; [by apply dfs_post_refl|]. split; [by intros n ->%list_elem_of_singleton|]. by intros rank _ Ho _.
  - destruct (fs !! name) as [f|] eqn:Hf.
    + assert (name ∈ dom fs) as Hd by (by apply elem_of_dom).
      pose proof (unseen_mark name seen Hd Hs).
      assert (dfs_inv ({[name]} ∪ seen) out) as Hi' by (destruct Hi; split; set_solver).
      pose proof (visits_ok fuel (deps f) _ _ IH Hi' ltac:(lia)) as Hok.
      destruct (foldl _ _ (deps f)) as [s' o']. by eapply emit_ok.
    + assert (name ∉ dom fs) as Hd by (by apply not_elem_of_dom). cbn [fst snd]. split; [|split].
      * split; [destruct Hi; split; set_solver|set_solver|exists []; by rewrite app_nil_r|unfold open_file; set_solver].
      * set_solver.
      * by intros rank _ Ho _.
Qed.

(** The whole sort: every file once, dependencies first. *)
Lemma topo_names : 
  topo (fun name _ => name) fs ≡ₚ elements (dom fs)
  /\ forall rank, acyclic rank -> deps_first (topo (fun name _ => name) fs).
Proof.
  assert (dfs_inv ∅ []) as Hi by (split; [apply NoDup_nil_2|by intros x ?%elem_of_nil]).
  assert (unseen ∅ < topo_fuel fs)%nat as Hu by (unfold unseen, topo_fuel; rewrite difference_empty_L; lia).
  destruct (visits_ok (topo_fuel fs) (sorted_names fs) ∅ [] (visit_spec _) Hi Hu) as (Hp & Hn & Hk).
  unfold topo. destruct (foldl _ _ _) as [s' o']. cbn [fst snd] in *.
  assert (forall x, x ∈ sorted_names fs <-> x ∈ dom fs) as Hsn.
  { intros x. unfold sorted_names. rewrite merge_sort_Permutation. apply elem_of_elements. }
  split.
  - apply NoDup_Permutation; [apply Hp|apply NoDup_elements|]. intros x. rewrite elem_of_elements. split.
    + intros Hx. by apply (dfs_sub _ _ (post_inv _ _ _ _ Hp)).
    + intros Hx. destruct (decide (x ∈ o')) as [|Hno]; [done|]. exfalso.
      assert (open_file s' o' x) as Ho by (split_and!; [by apply Hn, Hsn|done|done]).
      apply (post_open _ _ _ _ Hp) in Ho as [Ho _]. set_solver.
  - intros rank Hr. apply (Hk rank Hr).
    + intros l x r f d Heq. by destruct l.
    + intros n x _ _ [Ho _]. set_solver.
Qed.
End dfs.

(** The bytes kept for a name. *)
Definition raw_of (fs : gmap str RawFile) (name : str) : bytes :=
  match fs !! name with Some f => raw f | None => [] end.

Lemma topo_sort_names fs : topo_sort fs = map (raw_of fs) (topo (fun name _ => name) fs).
Proof.
  unfold topo_sort, topo. generalize (sorted_names fs) as names.
  assert (forall names seen out,
    (foldl (fun st name => visit (fun _ f => raw f) fs (topo_fuel fs) name st) (seen, map (raw_of fs) out) names).2
    = map (raw_of fs) (foldl (fun st name => visit (fun name _ => name) fs (topo_fuel fs) name st) (seen, out) names).2) as Hfold.
  { intros names. induction names as [|n names IH]; intros seen out; [done|]. cbn [foldl].
    rewrite (visit_emit fs (fun _ f => raw f) (raw_of fs)) by (intros m f Hf; unfold raw_of; by rewrite Hf).
    destruct (visit (fun name _ => name) fs (topo_fuel fs) n (seen, out)) as [s o]. apply IH. }
  intros names. apply (Hfold names ∅ []).
Qed.

(** The framed set reads back as its files. *)
Lemma split_file_set fs :
  (forall n f, fs !! n = Some f -> blen (raw f) < two64) ->
  split_files (file_set fs) = Done (map (raw_of fs) (topo (fun name _ => name) fs)).
Proof.
  intros Hlen. unfold split_files, file_set. rewrite topo_sort_names, foldl_push. cbn [app].
  apply split_files_push; [|apply length_set]. apply Forall_map, Forall_forall. intros n Hn. cbn.
  rewrite (proj1 (topo_names fs)), elem_of_elements, elem_of_dom in Hn. destruct Hn as [f Hf]. unfold raw_of. rewrite Hf. by eapply Hlen.
Qed.

(** ** Lemmas: the closure of the files fetched *)

Section closure.
Context (file_meta : bytes -> result TonicStatus (str * list str)).

(** The files are what their bytes say. *)
Definition honest (fs : gmap str RawFile) : Prop :=
  forall n f, fs !! n = Some f -> file_meta (raw f) = Ok (n, deps f).

(** What holds of the driver when it has processed [done_n] responses: requests are counted,
    every dependency of a file is a file or was requested, and a request sent stays sent. *)
Record driver_inv (d : Driver) (done_n : nat) : Prop := {
  drv_count : (length (sent d) = done_n + pending d)%nat;
  drv_requested n : n ∈ requested d <-> FileByFilename n ∈ sent d;
  drv_deps n f dep : files d !! n = Some f -> dep ∈ deps f -> dep ∈ dom (files d) \/ dep ∈ requested d;
  drv_honest : honest (files d);
  drv_nodup : NoDup (sent d)
}.

(** The driver only adds. *)
Definition grows (d d' : Driver) : Prop :=
  (exists new, sent d' = sent d ++ map FileByFilename new) /\ dom (files d) ⊆ dom (files d').

#[local] Instance grows_preorder : PreOrder grows.
Proof.
  split.
  - intros d. split; [exists []; by rewrite app_nil_r|done].
  - intros d1 d2 d3 [[n1 H1] H2] [[n2 H3] H4]. split; [|set_solver]. exists (n1 ++ n2). by rewrite H3, H1, map_app, app_assoc.
Qed.

(** The invariant of the loop over one file's dependencies: files are not touched. *)
Lemma add_deps_spec ds d k :
  driver_inv d k ->
  let d' := foldl add_dep d ds in
  driver_inv d' k /\ grows d d' /\ files d' = files d
  /\ (forall dep, dep ∈ ds -> dep ∈ dom (files d) \/ dep ∈ requested d').
Proof.
  revert d. induction ds as [|dep ds IH]; intros d Hi; cbn [foldl].
  - split_and!; [done|reflexivity|done|by intros ? ?%elem_of_nil].
  - assert (driver_inv (add_dep d dep) k /\ grows d (add_dep d dep) /\ files (add_dep d dep) = files d
      /\ (dep ∈ dom (files d) \/ dep ∈ requested (add_dep d dep))) as (Hi1 & Hg1 & Hf1 & Hd1).
    { unfold add_dep. destruct Hi as [I1 I2 I3 I4 I5]. case_decide as Hc; cbn [files requested sent pending].
      - split_and!; [split; cbn|split; [by exists [dep]|done]|done|right; set_solver].
        + rewrite length_app. cbn. lia.
        + intros n. specialize (I2 n). rewrite elem_of_union, elem_of_singleton, elem_of_app, list_elem_of_singleton.
          split; [intros [->|?]|intros [?|[= ->]]]; naive_solver.
        + intros n f e Hn He. destruct (I3 n f e Hn He); [by left|right; set_solver].
        + done.
        + apply NoDup_app. split_and!; [done| |apply NoDup_singleton].
          intros x Hx ->%list_elem_of_singleton. by apply I2, (proj2 Hc) in Hx.
      - split_and!; [done|reflexivity|done|]. destruct (files d !! dep) eqn:Hl; [left; by apply elem_of_dom_2 in Hl|].
        right. destruct (decide (dep ∈ requested d)); [done|]. by destruct Hc. }
    destruct (IH _ Hi1) as (Hi2 & Hg2 & Hf2 & Hd2). split_and!; [done|by etransitivity|congruence|].
    intros e [->|He]%elem_of_cons.
    + destruct Hd1 as [|Hd1]; [by left|right]. apply (drv_requested _ _ Hi2). destruct Hg2 as [[new ->] _].
      apply elem_of_app. left. by apply (drv_requested _ _ Hi1).
    + rewrite <- Hf1. by apply Hd2.
Qed.

Lemma add_raw_spec d k b d' :
  driver_inv d k -> add_raw file_meta d b = Ok d' ->
  driver_inv d' k /\ grows d d' /\ exists n ds, file_meta b = Ok (n, ds) /\ n ∈ dom (files d').
Proof.
  unfold add_raw. intros Hi. destruct (file_meta b) as [[n ds]|] eqn:Hm; [|done]. cbn [mbind result_bind].
  intros [= <-]. destruct (add_deps_spec ds d k Hi) as ([I1 I2 I3 I4 I5] & Hg & Hf & Hd). split_and!.
  - split; cbn [files requested sent pending]; try done.
    + intros m f e Hl He. rewrite dom_insert. destruct (decide (n = m)) as [->|Hne].
      * rewrite lookup_insert_eq in Hl. simplify_eq. cbn [deps] in He. rewrite Hf. destruct (Hd e He); [left|right]; set_solver.
      * rewrite lookup_insert_ne in Hl by done. destruct (I3 m f e Hl He); [left|right]; set_solver.
    + intros m f Hl. destruct (decide (n = m)) as [->|Hne].
      * rewrite lookup_insert_eq in Hl. by simplify_eq.
      * rewrite lookup_insert_ne in Hl by done. by apply I4.
  - destruct Hg as [Hs Hdom]. split; [done|]. cbn. set_solver.
  - exists n, ds. split; [done|]. cbn. set_solver.
Qed.

Lemma add_raws_spec raws d k d' :
  driver_inv d k -> add_raws file_meta d raws = Ok d' ->
  driver_inv d' k /\ grows d d' /\ forall b n ds, b ∈ raws -> file_meta b = Ok (n, ds) -> n ∈ dom (files d').
Proof.
  revert d. induction raws as [|r raws IH]; intros d Hi; cbn [add_raws].
  - intros [= <-]. split_and!; [done|reflexivity|by intros ??? ?%elem_of_nil].
  - destruct (add_raw file_meta d r) as [d1|] eqn:Hr; [|done]. cbn [mbind result_bind]. intros Hd.
    destruct (add_raw_spec _ _ _ _ Hi Hr) as (Hi1 & Hg1 & n1 & ds1 & Hm1 & Hn1).
    destruct (IH _ Hi1 Hd) as (Hi2 & Hg2 & Hall). split_and!; [done|by etransitivity|].
    intros b n ds [->|Hb]%elem_of_cons Hm; [|by eapply Hall]. rewrite Hm1 in Hm. simplify_eq. by apply (proj2 Hg2).
Qed.

(** What a server owes: its answer to a request for a file holds that file. *)
Definition answers (r : message_response) (n : str) : Prop :=
  exists raws b ds, r = FileDescriptorResponse raws /\ b ∈ raws /\ file_meta b = Ok (n, ds).

Lemma drive_spec resps d k d' :
  driver_inv d k -> drive file_meta resps d = Ok d' ->
  exists done_n, driver_inv d' (k + done_n) /\ grows d d' /\ (done_n <= length resps)%nat
    /\ (done_n = length resps \/ pending d' = 0%nat)
    /\ (forall i, (i < done_n)%nat -> exists r, resps !! i = Some (Ok r)
         /\ forall n, answers r n -> n ∈ dom (files d'))
    /\ (pending d' = 0%nat -> forall j more, (done_n <= j)%nat -> drive file_meta (take j resps ++ more) d = Ok d').
Proof.
  revert d k. induction resps as [|[r|e] resps IH]; intros d k Hi; cbn [drive]; destruct (pending d) as [|p] eqn:Hp;
    try discriminate;
    try (intros [= <-]; exists 0%nat; rewrite Nat.add_0_r;
         split_and!; [done|reflexivity|cbn; lia|auto|lia|intros Hz j more _; by destruct (take j _ ++ more); cbn [drive]; rewrite Hz]).
  intros Hdrive. set (d1 := mkDriver (files d) (requested d) p (sent d)) in *.
  assert (driver_inv d1 (S k)) as Hi1.
  { destruct Hi. split; cbn; try done. lia. }
  assert (exists d2, (match r with FileDescriptorResponse raws => add_raws file_meta d1 raws
        | ErrorResponse c m => Err (mkTonicStatus c m) | OtherResponse => Ok d1 end) = Ok d2
    /\ drive file_meta resps d2 = Ok d' /\ driver_inv d2 (S k) /\ grows d1 d2 /\
    forall n, answers r n -> n ∈ dom (files d2)) as (d2 & He & Hd2 & Hi2 & Hg2 & Ha2).
  { destruct r as [raws|c m|].
    - destruct (add_raws file_meta d1 raws) as [d2|] eqn:Hr; [|done]. cbn [mbind result_bind] in Hdrive.
      destruct (add_raws_spec _ _ _ _ Hi1 Hr) as (Hi2 & Hg2 & Hall). exists d2. split_and!; try done.
      intros n (raws' & b & ds & [= <-] & Hb & Hm). by eapply Hall.
    - done.
    - exists d1. split_and!; try done. intros n (raws' & b & ds & [=] & _). }
  destruct (IH _ _ Hi2 Hd2) as (m & Hi3 & Hg3 & Hm & Hend & Hall & Hmore). exists (S m). split_and!.
  - by replace (k + S m)%nat with (S k + m)%nat by lia.
  - etransitivity; [|exact Hg3]. exact Hg2.
  - cbn. lia.
  - cbn. destruct Hend; [left; lia|by right].
  - intros [|i] Hlt; [|apply Hall; lia]. exists r. split; [done|]. intros n Hn. by apply (proj2 Hg3), Ha2.
  - intros Hz [|j] more Hj; [lia|]. cbn [take app drive]. rewrite Hp. fold d1.
    specialize (Hmore Hz j more ltac:(lia)). destruct r as [raws|c msg|].
    + by rewrite He.
    + done.
    + by injection He as ->.
Qed.

Lemma fetch_init_inv symbol : driver_inv (fetch_init symbol) 0.
Proof.
  split; cbn; try done; [|apply NoDup_singleton]. intros n. rewrite list_elem_of_singleton. split; [set_solver|done].
Qed.

(** Only dependencies the server named are requested. *)
Lemma add_deps_requested U ds d : requested d ⊆ U -> Forall (fun x => x ∈ U) ds -> requested (foldl add_dep d ds) ⊆ U.
Proof.
  intros Hr Hds. revert d Hr. induction Hds as [|x ds Hx _ IH]; intros d Hr; cbn [foldl]; [done|].
  apply IH. unfold add_dep. case_decide; [|done]. cbn. set_solver.
Qed.

Lemma add_raws_requested U raws d d' :
  (forall b n ds, b ∈ raws -> file_meta b = Ok (n, ds) -> Forall (fun x => x ∈ U) ds) ->
  requested d ⊆ U -> add_raws file_meta d raws = Ok d' -> requested d' ⊆ U.
Proof.
  revert d. induction raws as [|r raws IH]; intros d HU Hr; cbn [add_raws]; [by intros [= <-]|].
  unfold add_raw. destruct (file_meta r) as [[n ds]|] eqn:Hm; [|done]. cbn [mbind result_bind].
  apply IH; [intros b n' ds' Hb; apply HU; by right|]. cbn. apply add_deps_requested; [done|].
  eapply HU; [by left|done].
Qed.

Lemma drive_requested U resps d d' :
  (forall raws b n ds, Ok (FileDescriptorResponse raws) ∈ resps -> b ∈ raws -> file_meta b = Ok (n, ds) ->
     Forall (fun x => x ∈ U) ds) ->
  requested d ⊆ U -> drive file_meta resps d = Ok d' -> requested d' ⊆ U.
Proof.
  revert d. induction resps as [|[r|e] resps IH]; intros d HU Hr; cbn [drive]; destruct (pending d) as [|p];
    try discriminate; try (by intros [= <-]).
  assert (forall raws b n ds, Ok (FileDescriptorResponse raws) ∈ resps -> b ∈ raws -> file_meta b = Ok (n, ds) ->
     Forall (fun x => x ∈ U) ds) as HU' by (intros raws b n ds Hin; apply HU; by right).
  destruct r as [raws|c m|]; [|done|by apply IH].
  destruct (add_raws file_meta _ raws) as [d2|] eqn:Ha; [|done]. cbn [mbind result_bind]. apply IH; [done|].
  eapply (add_raws_requested U raws (mkDriver (files d) (requested d) p (sent d)) d2); [|exact Hr|exact Ha].
  intros b n ds Hb. eapply HU; [by left|done].
Qed.

(** Requests, none sent twice, one for the symbol and the others for names in [U]. *)
Lemma sent_bound U d k symbol :
  driver_inv d k -> requested d ⊆ U -> grows (fetch_init symbol) d -> (length (sent d) <= S (size U))%nat.
Proof.
  intros Hi HU [[new Hs] _]. cbn in Hs. rewrite Hs. cbn. rewrite length_map. apply le_n_S.
  pose proof (drv_nodup _ _ Hi) as Hnd. rewrite Hs in Hnd. apply NoDup_cons in Hnd as [_ Hnd].
  apply NoDup_fmap_1 in Hnd. rewrite <- (size_list_to_set (C := gset str) new) by done. apply subseteq_size.
  intros n Hn%elem_of_list_to_set. apply HU, (drv_requested _ _ Hi). rewrite Hs. right.
  by apply list_elem_of_fmap_2.
Qed.
End closure.

(** ** Properties *)

(** C25: The descriptor set is well formed: what [load_all] frames holds every fetched file
    exactly once, verbatim, and reads back as those files; and when the dependencies have no
    cycle each file comes after the files it depends on. The order is found with one unit of
    fuel more than there are files. *)
Theorem file_set_wellformed (fs : gmap str RawFile)
  (Hlen : forall n f, fs !! n = Some f -> blen (raw f) < two64) :
  exists names, names ≡ₚ elements (dom fs)
    /\ split_files (file_set fs) = Done (map (raw_of fs) names)
    /\ forall rank, acyclic fs rank -> deps_first fs names.
Proof.
  exists (topo (fun name _ => name) fs). destruct (topo_names fs) as [Hp Ho]. split_and!; [done| |done].
  by apply split_file_set.
Qed.

(** C26: Fetching a symbol closes over dependencies, and only as far as the server answers. When
    the stream answers every request for a file with a response that holds it, and does not
    end early, every dependency of a fetched file was fetched, each file is what its bytes
    say, and nothing was requested twice. *)
Theorem fetch_closed (file_meta : bytes -> result TonicStatus (str * list str)) (symbol : str)
  (resps : list (result TonicStatus message_response)) (d : Driver)
  (Hdrive : drive file_meta resps (fetch_init symbol) = Ok d) (Hend : pending d = 0%nat)
  (Hserve : forall i n r, sent d !! i = Some (FileByFilename n) -> resps !! i = Some (Ok r) -> answers file_meta r n) :
  (forall n f dep, files d !! n = Some f -> dep ∈ deps f -> dep ∈ dom (files d))
  /\ (forall n f, files d !! n = Some f -> file_meta (raw f) = Ok (n, deps f))
  /\ NoDup (sent d)
  /\ fetch file_meta (Ok tt) resps symbol = Ok (files d).
Proof.
  destruct (drive_spec file_meta resps _ 0 d (fetch_init_inv file_meta symbol) Hdrive) as (m & [I1 I2 I3 I4 I5] & _ & _ & _ & Hall & _).
  split_and!; [|done|done|unfold fetch; cbn [mbind result_bind]; by rewrite Hdrive].
  intros n f dep Hf Hdep. destruct (I3 n f dep Hf Hdep) as [|Hr]; [done|].
  apply I2, list_elem_of_lookup in Hr as [i Hi']. pose proof (lookup_lt_Some _ _ _ Hi').
  destruct (Hall i ltac:(lia)) as (r & Hr & Ha). by eapply Ha, Hserve.
Qed.

(** C27: Fetching terminates. If the files a server sends only depend on names in a finite set, a
    fetch that is not refused is over after at most one response per such name and one for
    the symbol, whatever else the server would still send. *)
Theorem fetch_terminates (file_meta : bytes -> result TonicStatus (str * list str)) (symbol : str) (U : gset str)
  (resps : list (result TonicStatus message_response)) (d : Driver)
  (HU : forall raws b n ds, Ok (FileDescriptorResponse raws) ∈ resps -> b ∈ raws -> file_meta b = Ok (n, ds) ->
     Forall (fun x => x ∈ U) ds)
  (Hdrive : drive file_meta resps (fetch_init symbol) = Ok d) :
  (length (sent d) <= S (size U))%nat
  /\ ((S (size U) < length resps)%nat -> pending d = 0%nat
      /\ forall more, drive file_meta (take (S (size U)) resps ++ more) (fetch_init symbol) = Ok d).
Proof.
  destruct (drive_spec file_meta resps _ 0 d (fetch_init_inv file_meta symbol) Hdrive)
    as (m & Hi & Hg & Hm & Hend & _ & Hmore).
  assert (requested d ⊆ U) as HU' by (by eapply drive_requested; [exact HU| |exact Hdrive]).
  pose proof (sent_bound file_meta U d m symbol Hi HU' Hg) as Hsent. split; [done|]. intros Hlong.
  pose proof (drv_count _ _ _ Hi) as Hc. cbn in Hc.
  assert (pending d = 0%nat) as Hz by (destruct Hend; lia). split; [done|]. intros more. apply Hmore; [done|lia].
Qed.

(** ** Witnesses *)

Lemma file_set_wellformed_witness :
  let fs := {[ $"a" := mkRawFile $"A" [$"b"]; $"b" := mkRawFile $"BB" [] ]} : gmap str RawFile in
  file_set fs = map byte_of_N [10; 2; 66; 66; 10; 1; 65]
  /\ exists names, names ≡ₚ elements (dom fs) /\ split_files (file_set fs) = Done (map (raw_of fs) names)
       /\ deps_first fs names.
Proof.
  intros fs. split; [vm_compute; reflexivity|].
  destruct (file_set_wellformed fs) as (names & Hp & Hs & Hd).
  - intros n f Hf. apply lookup_insert_Some in Hf as [[_ <-]|[_ Hf]]; [done|].
    apply lookup_singleton_Some in Hf as [_ <-]. done.
  - exists names. split_and!; [done|done|].
    apply (Hd (fun n => if decide (n = $"a") then 1%nat else 0%nat)).
    intros n f dep Hf Hdep Hin.
    apply lookup_insert_Some in Hf as [[<- <-]|[Hne Hf]].
    + cbn in Hdep. apply list_elem_of_singleton in Hdep as ->. vm_compute. lia.
    + apply lookup_singleton_Some in Hf as [_ <-]. by apply not_elem_of_nil in Hdep.
Defined.

(** A descriptor as its name and its dependencies, one byte each. *)
Definition byte_meta (b : bytes) : result TonicStatus (str * list str) :=
  match b with n :: ds => Ok ([n], map (fun d => [d]) ds) | [] => Err (mkTonicStatus Code.Internal $"bad descriptor") end.

Lemma fetch_closed_witness :
  exists d, drive byte_meta [Ok (FileDescriptorResponse [$"ab"]); Ok (FileDescriptorResponse [$"bc"; $"c"]); Ok (FileDescriptorResponse [$"c"])]
      (fetch_init $"p.S") = Ok d
    /\ $"c" ∈ dom (files d).
Proof.
  assert (exists d, drive byte_meta [Ok (FileDescriptorResponse [$"ab"]); Ok (FileDescriptorResponse [$"bc"; $"c"]);
    Ok (FileDescriptorResponse [$"c"])] (fetch_init $"p.S") = Ok d /\ pending d = 0%nat
    /\ sent d = [FileContainingSymbol $"p.S"; FileByFilename $"b"; FileByFilename $"c"]
    /\ files d !! $"b" = Some (mkRawFile $"bc" [$"c"])) as (d & Hd & Hp & Hs & Hb).
  { eexists. split; [vm_compute; reflexivity|]. split; [reflexivity|]. split; vm_compute; reflexivity. }
  exists d. split; [exact Hd|].
  destruct (fetch_closed byte_meta $"p.S" _ d Hd Hp) as (Hclosed & _).
  - intros i n r Hi Hr. rewrite Hs in Hi. destruct i as [|[|[|i]]]; cbn in Hi, Hr; simplify_eq.
    + eexists _, $"bc", _. split; [done|]. split; [by left|done].
    + eexists _, $"c", _. split; [done|]. split; [by left|done].
  - apply (Hclosed $"b" _ $"c" Hb). cbn. by left.
Defined.

(** A stream with more answers than the fetch asks for. *)
Definition long_answers : list (result TonicStatus message_response) :=
  [Ok (FileDescriptorResponse [$"ab"]); Ok (FileDescriptorResponse [$"b"]); Ok OtherResponse].

Lemma fetch_terminates_witness :
  exists d, drive byte_meta long_answers (fetch_init $"p.S") = Ok d /\ pending d = 0%nat /\ (length (sent d) <= 2)%nat.
Proof.
  assert (exists d, drive byte_meta long_answers (fetch_init $"p.S") = Ok d) as [d Hd]
    by (eexists; vm_compute; reflexivity).
  exists d. split; [exact Hd|].
  assert (size ({[ $"b" ]} : gset str) = 1%nat) as Hsize by (vm_compute; reflexivity).
  destruct (fun HU => fetch_terminates byte_meta $"p.S" {[ $"b" ]} long_answers d HU Hd) as [Hs Hl].
  - intros raws b n ds Hin Hb Hm. unfold long_answers in Hin. rewrite !elem_of_cons, elem_of_nil in Hin.
    destruct Hin as [ [= ->]|[ [= ->]|[ [=]|[] ] ] ]; apply list_elem_of_singleton in Hb as ->; cbn in Hm;
      injection Hm as <- <-; repeat constructor.
  - rewrite Hsize in *. split; [apply Hl; cbn; lia|exact Hs].
Defined.
