(* ===== verification/Server.v ===== *)
(** * The servers ([rust/crates/grpc-webnext/src/lib.rs], [backend.rs], [codec.rs], [fetch::handle],
    [h2ts::serve])

    The configurations, the runtime each entry point builds, the dispatch target, the whole
    of one request's handling on either, and the h2ts tunnel. The tonic router and the
    upstream channel are the two calls a [Backend] makes, inputs here; the accept loop is
    [Drain]. *)
From S2P Require Import Prelude RustStd Http Metadata GrpcFraming Framing H2ts Reflection HttpRule HttpBuild.
From S2P Require Import Transcode ClientStatus ClientCodec WsCodec Fetch Schema.

(** [http::Uri], as far as it is read: the scheme, and an authority with its host, its port
    and its text. *)
Record Authority : Type := mkAuthority { host : str; port_u16 : option N; authority_text : str }.
Record Uri : Type := mkUri { scheme_str : option str; uri_authority : option Authority }.
Definition uri_default : Uri := mkUri None None.

Section server.
Context {H : Http} {T : Tonic H} {R : Reflect}.

Abbreviation body_frames := (list (result str (body_frame HeaderMap))).

(** ** Configurations *)

(** [struct ServerConfig] and its default. *)
Record ServerConfig : Type := mkServerConfig {
  sc_max_message_bytes : N;
  sc_transcoder : option Transcoder;
  sc_allow_implicit_codec : bool;
  sc_ws_keepalive : option duration;
  sc_ws_keepalive_timeout : duration
}.
Definition server_default : ServerConfig := mkServerConfig (4 * 1024 * 1024) None false None (from_secs 20).

(** [struct ProxyConfig] and its default. *)
Record ProxyConfig : Type := mkProxyConfig {
  upstream : Uri;
  pc_max_message_bytes : N;
  pc_ws_keepalive : option duration;
  pc_ws_keepalive_timeout : duration;
  schema_source : SchemaSource;
  reflection_ttl : duration;
  pc_admin_reload_path : option str;
  pc_allow_implicit_codec : bool
}.
Definition proxy_default : ProxyConfig :=
  mkProxyConfig uri_default (4 * 1024 * 1024) None (from_secs 20) SNone (from_secs (4 * 60 * 60)) None false.

(** [struct RunConfig] *)
Record RunConfig : Type := mkRunConfig {
  max_message_bytes : N;
  ws_keepalive : option duration;
  ws_keepalive_timeout : duration;
  allow_implicit_codec : bool;
  admin_reload_path : option str;
  upstream_authority : option str
}.

(** ** The dispatch target *)

(** A gRPC request: its path, headers and body; a response as [Fetch] reads it. *)
Record GrpcRequest : Type := mkGrpcRequest { gr_path : str; gr_headers : HeaderMap; gr_body : body_frames }.
Abbreviation GrpcResponse := (HeaderMap * body_frames)%type.

(** [enum Backend]; [Routes] is infallible, the [Channel] is not. *)
Inductive Backend : Type :=
| InProcess (routes : GrpcRequest -> GrpcResponse)
| Upstream (channel : GrpcRequest -> result str GrpcResponse).

(** [Backend::call]; the boxing of the two body types is the identity. *)
Definition backend_call (self : Backend) (req : GrpcRequest) : result str GrpcResponse :=
  match self with InProcess routes => Ok (routes req) | Upstream channel => channel req end.
Definition is_upstream (self : Backend) : bool := match self with Upstream _ => true | InProcess _ => false end.

(** [BytesCodec]: a message's bytes appended as they are, and taken as they are. *)
Definition bytes_encode (item : bytes) (dst : bytes) : bytes := dst ++ item.
Definition bytes_decode (src : bytes) : option bytes * bytes := (Some src, []).

(** ** The runtime of each entry point *)

(** [struct Runtime], less the drain handle (see [Drain]). *)
Record Runtime : Type := mkRuntime { backend : Backend; schema : Schema; cfg : RunConfig }.

(** [serve_in_process_with_shutdown] up to [run]. *)
Definition in_process_runtime (routes : GrpcRequest -> GrpcResponse) (config : ServerConfig) : Runtime :=
  mkRuntime (InProcess routes) (from_transcoder (sc_transcoder config))
    (mkRunConfig (sc_max_message_bytes config) (sc_ws_keepalive config) (sc_ws_keepalive_timeout config)
       (sc_allow_implicit_codec config) None None).

(** The [host:port] of the upstream. *)
Definition authority_of (u : Uri) : option str :=
  (fun a =>
     match port_u16 a with
     | Some _ => authority_text a
     | None =>
         let port := if decide (scheme_str u = Some $"https") then 443 else 80 in
         host a ++ $":" ++ fmt_dec port
     end) <$> uri_authority u.

(** [serve_proxy_with_shutdown] up to [run]: a bad bundle fails at startup. *)
Definition proxy_runtime (channel : GrpcRequest -> result str GrpcResponse) (config : ProxyConfig)
  : result TranscodeError Runtime :=
  schema ← build (schema_source config) (reflection_ttl config);
  Ok (mkRuntime (Upstream channel) schema
        (mkRunConfig (pc_max_message_bytes config) (pc_ws_keepalive config) (pc_ws_keepalive_timeout config)
           (pc_allow_implicit_codec config) (pc_admin_reload_path config) (authority_of (upstream config)))).

(** ** One request *)

(** An inbound request, with what its handling finds: the waits for a first snapshot, the
    result a reload would have, the clock, and when deadlines fire ([in_time]: the backend
    answers before the deadline; [expires]: the body frames read before it). *)
Record Inbound : Type := mkInbound {
  http_method : str;
  path_and_query : option (str * option str);
  req_headers : HeaderMap;
  req_body : body_frames;
  is_upgrade : bool;
  waits : list (timed (option Transcoder));
  reload_load : timed (result TonicStatus Transcoder);
  now : duration;
  in_time : bool;
  expires : option nat
}.

Context (fmt_debug : str -> str) (trailer_encode : Trailer -> bytes) (parse_path : str -> option str).
Context (h2ts : str).

Definition timed_call (rt : Runtime) (req : Inbound) (path : str) (headers : HeaderMap)
    (body : list (result str bytes)) : timed (result str GrpcResponse) :=
  if in_time req then 
    Finished (backend_call (backend rt)
      (mkGrpcRequest path headers (map (fun p => match p with Ok b => Ok (Data b) | Err e => Err e end) body)))
  else Elapsed.

(** The answer to a request: a response, the backend's response unchanged, or an upgrade to a
    WebSocket or to a tunnel. *)
Inductive Answer : Type :=
| Relayed (r : GrpcResponse)
| Respond (r : Response)
| UpgradeTo (u : Upgrade).

(** [fetch::handle], with the handlers it calls. *)
Definition handle (rt : Runtime) (req : Inbound) : run Answer :=
  let path := default [] (fst <$> path_and_query req) in
  let query := pq ← path_and_query req; snd pq in
  let target := path ++ match query with Some q => $"?" ++ q | None => [] end in
  let tc := transcoder_any (schema rt) (waits req) in
  r ← route tc (admin_reload_path (cfg rt)) (is_upgrade req) path query (req_headers req);
  match r with
  | RAdmin => Done (Respond (handle_admin_reload (http_method req) (reload (schema rt) (reload_load req)).1))
  | RUpgrade =>
      UpgradeTo <$> handle_ws_upgrade h2ts tc (allow_implicit_codec (cfg rt)) path query (req_headers req)
  | RProto =>
      Respond <$> unary_proto trailer_encode (max_message_bytes (cfg rt)) (now req)
        ((fun _ => target) <$> path_and_query req) (req_headers req) (req_body req) (timed_call rt req) (expires req)
  | RJson sdk_json =>
      Respond <$> json_fetch fmt_debug trailer_encode tc (max_message_bytes (cfg rt)) (allow_implicit_codec (cfg rt)) sdk_json
        parse_path (http_method req) (path_and_query req) (req_headers req) (req_body req)
        (fun p h m => timed_call rt req p h [Ok m])
  | RPassthrough =>
      match backend_call (backend rt) (mkGrpcRequest target (req_headers req) (req_body req)) with
      | Ok r => Done (Relayed r)
      | Err e => Done (Respond (passthrough (Err e)))
      end
  | RReject status message => Done (Respond (text_response status message))
  end.

(** ** The h2ts tunnel *)

(** What [h2ts::serve] does with an upgraded tunnel. *)
Inductive Tunnel : Type :=
| ServeInner (max : N)      (** the inner HTTP/2 connection, its bodies limited *)
| Bridge (authority : str)  (** bytes to and from the upstream *)
| Closed.

Definition h2ts_tunnel (rt : Runtime) : Tunnel :=
  match backend rt with
  | InProcess _ => ServeInner (max_message_bytes (cfg rt))
  | Upstream _ => match upstream_authority (cfg rt) with Some a => Bridge a | None => Closed end
  end.

(** One request of the inner connection: the router runs on the limited body, and a deadline
    that fires first is a DEADLINE_EXCEEDED ([into_http] of the status, an input). *)
Definition h2ts_request {A} (max : N) (headers : HeaderMap) (body : list (H2ts.poll str HeaderMap))
    (oneshot : list (H2ts.poll (str + str) HeaderMap) -> A) (deadline_exceeded : A) (in_time : bool) : run A :=
  deadline ← parse_grpc_timeout headers;
  Done (match deadline with
        | Some _ => if in_time then oneshot (poll_all (H2ts.new max) body) else deadline_exceeded
        | None => oneshot (poll_all (H2ts.new max) body)
        end).
End server.

(** ** Lemmas *)

(** The lengths a framed body declares are its messages'. *)
Lemma declared_frames ms : Forall (fun m => blen m < two32) ms -> declared (concat (map frame ms)) = map blen ms.
Proof.
  induction 1 as [|m ms Hm _ IH]; [done|]. cbn [map concat]. unfold frame at 1, be32. cbn [app].
  rewrite declared_cons, u32_be_be32, N.mod_small, bdrop_app by done. by f_equal.
Qed.

Lemma deframe_prefix a b : deframe_all a `prefix_of` deframe_all (a ++ b).
Proof.
  unfold deframe_all. rewrite <- DeframerFacts.push_push.
  rewrite (DeframerFacts.drain_push (Deframer.push Deframer.new a) b). destruct (Deframer.drain (Deframer.push Deframer.new a)) as [ms d]. cbn [fst].
  destruct (Deframer.drain (Deframer.push d b)) as [ms' d']. by exists ms'.
Qed.

Lemma deframe_frames ms : Forall (fun m => blen m < two32) ms -> deframe_all (concat (map frame ms)) = ms.
Proof.
  intros Hm. unfold deframe_all, Deframer.push, Deframer.new. cbn [Deframer.buf app].
  rewrite <- (app_nil_r (concat _)), DeframerFacts.drain_frames, DeframerFacts.drain_nil by done. cbn. by rewrite app_nil_r.
Qed.

(** What the limited body passes on of an upload, and what its reader makes of it. *)
Lemma upload_limit {T} (max : N) (ms : list bytes) (datas : list bytes)
  (Hlen : Forall (fun m => blen m < two32) ms) (Hbody : concat datas = concat (map encode_message ms)) :
  let inners : list (H2ts.poll str T) := map (fun b => ReadyFrame (Data b)) datas in
  if forallb (fun m => blen m <=? max) ms then
    poll_all (H2ts.new max) inners = map lift inners /\ deframe_all (concat datas) = ms
  else exists k, (k < length datas)%nat
    /\ poll_all (H2ts.new max) inners = map lift (take k inners) ++ [ReadyErr (inr (exceeds_message max))]
    /\ deframe_all (concat (take k datas)) `prefix_of` ms
    /\ Forall (fun m => blen m <= max) (deframe_all (concat (take k datas))).
Proof.
  intros inners. change (map encode_message ms) with (map frame ms) in Hbody.
  assert (forall l, seen (E := str) (T := T) (map (fun b => ReadyFrame (Data b)) l) = concat l) as Hseen.
  { intros l. unfold seen. by rewrite map_map, map_id. }
  assert (Forall is_open inners) as Ho by (apply Forall_map, Forall_true; done).
  assert (limit_wf (H2ts.new max)) as Hwf by (split; simpl; lia).
  assert (forallb (fun m => blen m <=? max) ms = true <-> within max (concat datas)) as Hw.
  { unfold within. rewrite Hbody, declared_frames, Forall_map, forallb_forall, Forall_forall by done.
    setoid_rewrite list_elem_of_In. by setoid_rewrite N.leb_le. }
  destruct (poll_all_spec (H2ts.new max) inners Hwf Ho) as [[Hp Hle]|(k & Hk & Hp & Hle & _ & Hgt)];
    rewrite ?Hseen in *; change (declared_from (H2ts.new max)) with declared in *; change (H2ts.max (H2ts.new max)) with max in *.
  - rewrite (proj2 Hw) by (unfold inners in Hle; by rewrite Hseen in Hle). split; [done|]. by rewrite Hbody, deframe_frames.
  - destruct (forallb _ ms); [by destruct Hgt; unfold inners; rewrite Hseen; apply Hw|].
    exists k. unfold inners in *. rewrite length_map in Hk. rewrite firstn_map, Hseen in Hle.
    split_and!; [done|done| |].
    + pose proof (deframe_prefix (concat (take k datas)) (concat (drop k datas))) as Hpre.
      rewrite <- concat_app, take_drop, Hbody, deframe_frames in Hpre by done. done.
    + destruct (deframe_declared (concat (take k datas))) as [l Hl]. rewrite Hl in Hle. apply Forall_app in Hle as [Hle _].
      exact (proj1 (Forall_map blen (fun n => n <= max) _) Hle).
Qed.

(** ** Properties *)

(** A wrapped service and a proxied one are the same to a client: with matching options and
    descriptors, and an upstream that answers as the router does, every request that is not
    a tunnel gets the same answer from both runtimes, whatever the timing. *)
Theorem surfaces_agree {H : Http} {T : Tonic H} {R : Reflect} (fmt_debug : str -> str) (enc : Trailer -> bytes)
  (parse_path : str -> option str) (h2ts : str) (routes : GrpcRequest -> HeaderMap * list (result str (body_frame HeaderMap)))
  (sc : ServerConfig) (pc : ProxyConfig)
  (Hcfg : (sc_max_message_bytes sc, sc_ws_keepalive sc, sc_ws_keepalive_timeout sc, sc_allow_implicit_codec sc)
          = (pc_max_message_bytes pc, pc_ws_keepalive pc, pc_ws_keepalive_timeout pc, pc_allow_implicit_codec pc))
  (Hadmin : pc_admin_reload_path pc = None)
  (Hschema : match sc_transcoder sc with
             | None => schema_source pc = SNone
             | Some tc => exists b, schema_source pc = SBundled b /\ from_file_descriptor_set b = Ok tc
             end) :
  exists rt, proxy_runtime (fun r => Ok (routes r)) pc = Ok rt
    /\ forall req, handle fmt_debug enc parse_path h2ts rt req
                   = handle fmt_debug enc parse_path h2ts (in_process_runtime routes sc) req.
Proof.
  injection Hcfg as H1 H2 H3 H4. unfold proxy_runtime.
  assert (build (schema_source pc) (reflection_ttl pc) = Ok (from_transcoder (sc_transcoder sc))) as ->.
  { destruct (sc_transcoder sc) as [tc|]; [|by rewrite Hschema].
    destruct Hschema as (b & -> & Hb). cbn [build]. by rewrite Hb. }
  cbn [mbind result_bind]. rewrite <- H1, <- H2, <- H3, <- H4, Hadmin. eexists. split; [done|]. done.
Qed.

(** The upload limit of the tunnel is the server's. The in-process server serves the inner
    connection with its own limit; and whatever messages a client encodes and however its
    upload is cut into frames, the router is handed the upload unchanged when every message
    is within the limit, and reads exactly the messages sent; otherwise the stream fails with
    the limit's message, and the router can have read only messages sent before, each within
    the limit. Only a deadline that fires first answers in the router's place. *)
Theorem client_upload_limit {H : Http} {T : Tonic H} {R : Reflect} {A} (routes : GrpcRequest -> HeaderMap * list (result str (body_frame HeaderMap)))
  (config : ServerConfig) (headers : HeaderMap) (deadline : option duration) (oneshot : list (H2ts.poll (str + str) HeaderMap) -> A)
  (late : A) (in_time : bool) (ms datas : list bytes)
  (Hd : parse_grpc_timeout headers = Done deadline)
  (Hlen : Forall (fun m => blen m < two32) ms) (Hbody : concat datas = concat (map encode_message ms)) :
  let max := sc_max_message_bytes config in
  let inners : list (H2ts.poll str HeaderMap) := map (fun b => ReadyFrame (Data b)) datas in
  h2ts_tunnel (in_process_runtime routes config) = ServeInner max
  /\ exists body,
    h2ts_request max headers inners oneshot late in_time
      = Done (if (if deadline is Some _ then in_time else true) then oneshot body else late)
    /\ if forallb (fun m => blen m <=? max) ms then
        body = map lift inners /\ deframe_all (concat datas) = ms
      else exists k, (k < length datas)%nat
        /\ body = map lift (take k inners) ++ [ReadyErr (inr (exceeds_message max))]
        /\ deframe_all (concat (take k datas)) `prefix_of` ms
        /\ Forall (fun m => blen m <= max) (deframe_all (concat (take k datas))).
Proof.
  intros max inners. split; [done|]. exists (poll_all (H2ts.new max) inners).
  split; [|by apply (upload_limit max ms datas)].
  unfold h2ts_request. rewrite Hd. cbn [mbind run_bind]. by destruct deadline, in_time.
Qed.

(** ** Witnesses *)

Definition demo_routes : GrpcRequest (H := AssocHttp.http) -> list (str * str) * list (result str (body_frame (list (str * str)))) :=
  fun _ => ([($"grpc-status", $"0")], []).

Lemma surfaces_agree_witness :
  exists rt, proxy_runtime (H := AssocHttp.http) (R := Flat.reflect) (fun r => Ok (demo_routes r))
      (mkProxyConfig uri_default 10 None (from_secs 20) (SBundled $"demo") (from_secs 60) None true) = Ok rt
    /\ forall req, handle (H := AssocHttp.http) (T := AssocHttp.tonic) (fun s => s) TrailerCodec.enc Some $"h2ts" rt req
         = handle (H := AssocHttp.http) (T := AssocHttp.tonic) (fun s => s) TrailerCodec.enc Some $"h2ts"
             (in_process_runtime demo_routes (mkServerConfig 10 (Some demo_transcoder) true None (from_secs 20))) req.
Proof.
  apply (surfaces_agree (H := AssocHttp.http) (T := AssocHttp.tonic) (R := Flat.reflect) (fun s => s) TrailerCodec.enc Some $"h2ts"
    demo_routes (mkServerConfig 10 (Some demo_transcoder) true None (from_secs 20))
    (mkProxyConfig uri_default 10 None (from_secs 20) (SBundled $"demo") (from_secs 60) None true)); [done|done|].
  exists $"demo". by split.
Defined.

Lemma client_upload_limit_witness :
  let datas := [[x00; x00; x00]; [x00; x01; x41; x00; x00]; [x00; x00; x02; x41; x41]] in
  let inners : list (H2ts.poll str (list (str * str))) := map (fun b => ReadyFrame (Data b)) datas in
  h2ts_request (H := AssocHttp.http) 2 [($"grpc-timeout", $"5S")] inners Some None true = Done (Some (map lift inners))
  /\ deframe_all (concat datas) = [[x41]; [x41; x41]].
Proof.
  intros datas inners.
  destruct (client_upload_limit (H := AssocHttp.http) (T := AssocHttp.tonic) (R := Flat.reflect) demo_routes
    (mkServerConfig 2 None false None (from_secs 20)) [($"grpc-timeout", $"5S")] (Some (from_secs 5)) Some None true
    [[x41]; [x41; x41]] datas eq_refl ltac:(repeat constructor) eq_refl) as (_ & body & Hreq & Hb & Hm).
  change (sc_max_message_bytes _) with 2 in Hreq, Hb. fold inners in Hreq, Hb. subst body. split; [exact Hreq|exact Hm].
Defined.
