(* ===== verification/EndToEnd.v ===== *)
(** * A call end to end: the client over the h2ts tunnel to an in-process server
    ([rust/crates/grpc-webnext-client/src/typed.rs] and [client.rs] over
    [rust/crates/grpc-webnext/src/h2ts.rs])

    The two crates joined. The HTTP/2 engine between them delivers headers and a body cut into
    any frames, and back; the tonic router is a class, with tonic's documented behaviour as
    its laws: it answers a body it read to its end as the handler does, and one that failed
    with a status. *)
From S2P Require Import Prelude RustStd Http Metadata GrpcFraming H2ts Reflection ClientMetadata ClientStatus ClientCodec ClientState ClientCalls ClientTyped.
From S2P Require Import TonicService Server.

(** A response on the wire: its headers, the data frames and the trailers. *)
Record Wire : Type := mkWire {
  w_headers : list (str * str);
  w_chunks : list bytes;
  w_trailers : option (list (str * str))
}.

Section tunnel.
Context {H : Http} {B : Base64}.

Abbreviation body_poll := (H2ts.poll (str + str) HeaderMap).

(** A body that was read to its end, and what it carried. *)
Definition data_only (polls : list body_poll) (b : bytes) : Prop :=
  exists datas, polls = map (fun d => ReadyFrame (Data d)) datas /\ concat datas = b.
(** A body that failed with the boxed error [e] after some data. *)
Definition failed_with (polls : list body_poll) (e : str) : Prop :=
  exists datas, polls = map (fun d => ReadyFrame (Data d)) datas ++ [ReadyErr (inr e)].

(** [Client::send] over the tunnel to a server whose requests [serve] answers: the engine cuts
    the upload with [cut], and the server's side is [Server.h2ts_request] with its limit [max];
    [late] is the response of a deadline that fires first, unless the router is in time. *)
Context (serve : str -> HeaderMap -> list body_poll -> Wire) (max : N) (cut : bytes -> list bytes) (late : Wire)
  (router_in_time : bool).
Definition tunnel_wire (path : str) (hs : list (str * str)) (body : RequestBody) : run Wire :=
  h2ts_request max (to_header_map hs) (map (fun d => ReadyFrame (Data d)) (cut (upload body)))
    (serve path (to_header_map hs)) late router_in_time.
Definition respond (w : Wire) : Response :=
  mkResponse 200 (w_headers w) (w_headers w) (map Ok (w_chunks w)) (w_trailers w).
Definition tunnel_send (path : str) (hs : list (str * str)) (body : RequestBody) : result Status Response :=
  match tunnel_wire path hs body with
  | Done w => Ok (respond w)
  | Panic => Err (unavailable $"the tunnel is closed")
  end.

(** What the router reads of framed messages sent up the tunnel. *)
Lemma tunnel_uploads path hs body ms deadline :
  (forall b, concat (cut b) = b) -> parse_grpc_timeout (to_header_map hs) = Done deadline ->
  Forall (fun m => blen m < two32) ms -> upload body = concat (map encode_message ms) ->
  exists polls,
    tunnel_wire path hs body
      = Done (if (if deadline is Some _ then negb router_in_time else false) then late
              else serve path (to_header_map hs) polls)
    /\ if forallb (fun m => blen m <=? max) ms then exists b, data_only polls b /\ deframe_all b = ms
       else failed_with polls (exceeds_message max).
Proof.
  intros Hcut Hd Hms Hbody. set (datas := cut (upload body)).
  assert (concat datas = concat (map encode_message ms)) as Hdatas by (unfold datas; by rewrite Hcut).
  pose proof (upload_limit (T := HeaderMap) max ms datas Hms Hdatas) as Hlimit. cbv zeta in Hlimit.
  exists (poll_all (H2ts.new max) (map (fun d => ReadyFrame (Data d)) datas)). split.
  { unfold tunnel_wire, h2ts_request. fold datas. rewrite Hd. cbn [mbind run_bind]. by destruct deadline, router_in_time. }
  assert (forall l, map lift (map (fun d => ReadyFrame (Data d)) l) = map (fun d => ReadyFrame (Data d)) l :> list body_poll)
    as Hlift by (intros l; by rewrite map_map).
  destruct (forallb _ ms).
  - destruct Hlimit as [Hp Hf]. exists (concat datas). split; [|done]. exists datas. by rewrite Hp, Hlift.
  - destruct Hlimit as (k & _ & Hp & _). rewrite firstn_map, Hlift in Hp. by exists (take k datas).
Qed.
End tunnel.

Section router.
Context {H : Http} {B : Base64} (percent_decode_utf8 : str -> option str).

(** A response that is only a status, and one that carries a message. *)
Definition trailers_only (w : Wire) (st : Status) : Prop :=
  ClientStatus.is_ok st = false /\ from_headers percent_decode_utf8 (w_headers w) = Some st.
Definition carries (w : Wire) (message : bytes) : Prop :=
  from_headers percent_decode_utf8 (w_headers w) = None /\ concat (w_chunks w) = encode_message message
  /\ ClientStatus.is_ok (trailers_status percent_decode_utf8 (w_trailers w)) = true.

(** The router of a service with one method, by its handler on the messages of a request. *)
Class Router : Type := {
  oneshot : str -> HeaderMap -> list (H2ts.poll (str + str) HeaderMap) -> Wire;
  handler : list bytes -> result Status bytes;
  body_failed : str -> Status   (** the status of a request whose body failed *)
}.
Class RouterLaws (RT : Router) : Prop := {
  router_answers path hs polls b :
    data_only polls b ->
    match handler (deframe_all b) with
    | Ok reply => carries (oneshot path hs polls) reply
    | Err st => trailers_only (oneshot path hs polls) st
    end;
  router_fails path hs polls e : failed_with polls e -> trailers_only (oneshot path hs polls) (body_failed e)
}.
End router.

(** What a call gives, its metadata aside. *)
Definition outcome {M} (r : result Status (TypedResponse M)) : result Status M :=
  match r with Ok t => Ok (into_inner t) | Err st => Err st end.

(** ** Lemmas *)

Section facts.
Context {H : Http} {B : Base64} (percent_decode_utf8 : str -> option str).

Lemma single_response_err (st : Status) options in_time :
  timeout options = None \/ in_time = true -> single_response percent_decode_utf8 (Err st) options in_time = Err st.
Proof. intros Ht. unfold single_response. destruct (timeout options); [|done]. by destruct Ht as [?| ->]. Qed.

(** A call whose answer is a wire response. *)
Lemma call_wire {Res} `{Prost Res} (send : str -> list (str * str) -> RequestBody -> result Status Response)
  path body options in_time w :
  send path (ClientCalls.request_headers options) body
    = Ok (respond w) ->
  timeout options = None \/ in_time = true ->
  let call := (response ← single_response percent_decode_utf8
                 (ClientCalls.request percent_decode_utf8 send path body options) options in_time;
               decode (M := Res) response) in
  (forall st, trailers_only percent_decode_utf8 w st -> call = Err st)
  /\ (forall reply, carries percent_decode_utf8 w reply -> blen reply < two32 ->
        match co_max_message_bytes options with Some n => blen reply <= n | None => True end ->
        outcome call = match prost_decode (M := Res) reply with
                       | Ok res => Ok res
                       | Err e => Err (new Code.Internal ($"failed to decode response message: " ++ e))
                       end).
Proof.
  intros Hsend Ht call. subst call. split.
  - intros st [Hok Hst]. unfold ClientCalls.request. rewrite Hsend. cbn [mbind result_bind rs_status rs_headers respond].
    change (negb (200 =? 200)) with false. cbv iota. rewrite Hst, Hok. by rewrite single_response_err.
  - intros reply (Hno & Hbytes & Hok) Hlen Hmax.
    rewrite (request_ok percent_decode_utf8 send path body options _ _ _ _ Hsend Hno).
    rewrite (single_response_framed percent_decode_utf8 _ options in_time _ _ _ _ [reply] eq_refl Ht).
    + cbv zeta. rewrite Hok. cbn [mbind result_bind]. unfold decode. cbn [ur_message]. by destruct (prost_decode reply).
    + rewrite Hbytes. cbn [map concat]. by rewrite app_nil_r.
    + by constructor.
Qed.
End facts.

(** ** Properties *)


(** ** Witnesses *)

(** A service that joins its messages, and refuses a request without any. *)
Definition demo_status (code : str) : Status :=
  default (new Code.Unknown []) (from_headers (B := plain64) Some [($"grpc-status", code)]).
Definition demo_handler (ms : list bytes) : result Status bytes :=
  match ms with [] => Err (demo_status $"3") | _ => Ok (concat ms) end.
Fixpoint demo_read (polls : list (H2ts.poll (str + str) (HeaderMap (Http := AssocHttp.http)))) : option bytes :=
  match polls with
  | [] => Some []
  | ReadyFrame (Data d) :: polls => b ← demo_read polls; Some (d ++ b)
  | _ => None
  end.
Definition demo_wire (polls : list (H2ts.poll (str + str) (HeaderMap (Http := AssocHttp.http)))) : Wire :=
  match demo_read polls with
  | Some b =>
      match demo_handler (deframe_all b) with
      | Ok reply => mkWire [] [encode_message reply] (Some [($"grpc-status", $"0")])
      | Err _ => mkWire [($"grpc-status", $"3")] [] None
      end
  | None => mkWire [($"grpc-status", $"13")] [] None
  end.
Definition demo_router : Router (H := AssocHttp.http) :=
  {| oneshot _ _ polls := demo_wire polls; handler := demo_handler; body_failed _ := demo_status $"13" |}.

Lemma demo_read_data datas tail :
  demo_read (map (fun d => ReadyFrame (Data d)) datas ++ tail) = (b ← demo_read tail; Some (concat datas ++ b)).
Proof.
  induction datas as [|d datas IH]; [cbn [map app concat]; by destruct (demo_read tail)|]. cbn [map app demo_read]. rewrite IH.
  destruct (demo_read tail); [|done]. cbn. by rewrite app_assoc.
Qed.

Lemma demo_router_laws : RouterLaws (H := AssocHttp.http) (B := plain64) Some demo_router.
Proof.
  constructor.
  - intros path hs polls b (datas & -> & <-). cbn [oneshot handler demo_router]. unfold demo_wire.
    rewrite <- (app_nil_r (map _ datas)), demo_read_data. cbn. rewrite !app_nil_r.
    destruct (demo_handler (deframe_all (concat datas))) as [reply|st] eqn:E.
    + split_and!; [done|cbn; by rewrite app_nil_r|done].
    + assert (st = demo_status $"3") as -> by (revert E; unfold demo_handler; destruct (deframe_all _); [by intros [= <-]|done]).
      split; done.
  - intros path hs polls e (datas & ->). cbn [oneshot body_failed demo_router]. unfold demo_wire.
    rewrite demo_read_data. cbn. split; done.
Qed.

