(* ===== verification/TonicTunnel.v ===== *)
(** * A generated stub end to end: tonic's client over the h2ts tunnel
    ([rust/crates/grpc-webnext-client/src/tonic_service.rs] over
    [rust/crates/grpc-webnext/src/h2ts.rs])

    A generated tonic client sends its framed messages through [TonicService.send]; the tunnel
    ([EndToEnd.tunnel_send]) takes them to the server's router and its answer back, which the
    stub reads through [ResponseBody]. The stub and the router are third-party: they are
    classes, with what tonic documents of them as laws. *)
From S2P Require Import Prelude RustStd Http Metadata GrpcFraming H2ts Reflection ClientMetadata ClientStatus ClientCodec ClientState ClientCalls ClientTyped.
From S2P Require Import TonicService Server EndToEnd.

Section classes.
Context {H : Http}.

(** What a stub reads from a response body. *)
Abbreviation read_frame := (result TStatus (body_frame HeaderMap)).
(** The messages of a response, and the error that ends it, if one does. *)
Definition Received : Type := list bytes * option TStatus.

(** tonic's client side: the headers and the body of a request, and reading a response. *)
Class Stub : Type := {
  status_of : HeaderMap -> option TStatus;                  (** [Status::from_header_map] *)
  request_head : HeaderMap -> option duration -> HeaderMap; (** of the metadata and [set_timeout] *)
  request_frames : list bytes -> list (result str (body_frame HeaderMap));
  read_response : HeaderMap -> list read_frame -> result TStatus Received;
  single : Received -> result TStatus bytes                  (** a response that is one message *)
}.
Class StubLaws (S : Stub) : Prop := {
  frames_exact ms : concat (request_chunks (request_frames ms)) = concat (map frame ms);
  read_refused hm st frames : status_of hm = Some st -> t_code st <> 0%Z -> read_response hm frames = Err st;
  read_answered hm ms st ds tr :
    status_of hm = None -> status_of tr = Some st ->
    concat ds = concat (map frame ms) -> Forall (fun m => blen m < two32) ms ->
    read_response hm (map (fun d => Ok (Data d)) ds ++ [Ok (Trailers tr)])
    = Ok (ms, if decide (t_code st = 0%Z) then None else Some st);
  read_failed hm ds st :
    status_of hm = None ->
    read_response hm (map (fun d => Ok (Data d)) ds ++ [Err st]) = Ok (deframe_all (concat ds), Some st);
  single_message m : single ([m], None) = Ok m;
  single_error ms st : single (ms, Some st) = Err st
}.

(** A response that is only a status, and one that carries messages and then a status. *)
Definition refused `{Stub} (w : Wire) (st : TStatus) : Prop :=
  exists hm, response_headers (w_headers w) = Some hm /\ status_of hm = Some st /\ t_code st <> 0%Z.
Definition answered `{Stub} (w : Wire) (ms : list bytes) (st : TStatus) : Prop :=
  exists hm tr, response_headers (w_headers w) = Some hm /\ status_of hm = None
    /\ concat (w_chunks w) = concat (map frame ms)
    /\ w_trailers w = Some tr /\ status_of (TonicService.to_header_map tr) = Some st.

(** tonic's server side: the router, by its methods' handlers on the messages of a request. *)
Class Service : Type := {
  serve : str -> HeaderMap -> list (H2ts.poll (str + str) HeaderMap) -> Wire;
  handle : str -> HeaderMap -> list bytes -> result TStatus (list bytes * TStatus);
  upload_failed : str -> TStatus
}.
Class ServiceLaws `{Stub} (S : Service) : Prop := {
  serve_answers path hs polls b :
    data_only polls b ->
    match handle path hs (deframe_all b) with
    | Ok (ms, st) => Forall (fun m => blen m < two32) ms -> answered (serve path hs polls) ms st
    | Err st => refused (serve path hs polls) st
    end;
  serve_fails path hs polls e : failed_with polls e -> refused (serve path hs polls) (upload_failed e)
}.

(** ** A call *)

Context {B : Base64} {S : Stub} {V : Service} (max : N) (cut : bytes -> list bytes) (late : Wire) (router_in_time : bool).

(** [Client::send] under a transport whose timer loses the race to open when [opened]. *)
Definition client_send (opened : bool) (path : str) (wire : list (str * str)) (chunks : list bytes) : option (result Status Response) :=
  if opened then Some (tunnel_send serve max cut late router_in_time path wire (BodyStream chunks)) else None.

Definition frames_of (polls : list (poll (option read_frame))) : list read_frame :=
  omap (fun p => match p with Ready (Some f) => Some f | _ => None end) polls.

(** [ps] is what the polls of the response body find. *)
Definition stub_call (opened : bool) (ps : list polled) (path : str) (metadata : HeaderMap) (timeout : option duration)
    (ms : list bytes) : result TStatus Received :=
  '(_, hm, body) ← TonicService.send (request_head metadata timeout) (request_frames ms) (client_send opened path);
  read_response hm (frames_of (poll_frames body ps).1).

(** The polls find the chunks, with as many polls in between that find nothing yet. *)
Definition found (p : polled) : option (option (result str bytes)) :=
  match next p with Ready x => Some x | Pending => None end.
Definition delivers (w : Wire) (ps : list polled) : Prop :=
  forallb (fun p => negb (timer_ready p)) ps = true
  /\ omap found ps = map (fun c => Some (Ok c)) (w_chunks w) ++ [None].
(** The timer fires after [k] chunks. *)
Definition times_out (w : Wire) (k : nat) (ps : list polled) : Prop :=
  exists pre p post, ps = pre ++ p :: post /\ forallb (fun p => negb (timer_ready p)) pre = true /\ timer_ready p = true
  /\ omap found pre = map (fun c => Some (Ok c)) (take k (w_chunks w)).
End classes.

(** ** Lemmas *)

Section facts.
Context {H : Http} {B : Base64}.

Lemma frames_of_relayed ps cs :
  omap found ps = map (fun c => Some (Ok c)) cs -> frames_of (map relayed ps) = map (fun c => Ok (Data c)) cs.
Proof.
  revert cs. induction ps as [|p ps IH]; intros cs Hf; [by destruct cs|]. cbn [omap list_omap] in Hf.
  unfold found at 1 in Hf. cbn [map]. unfold frames_of. cbn [omap list_omap]. unfold relayed at 1.
  destruct (next p) as [[[c|e]|]|]; [| | |by apply IH]; destruct cs as [|c' cs]; try done; cbn [map] in Hf; simplify_eq.
  cbn [map]. f_equal. by apply IH.
Qed.

Lemma running_in_time d ps cs :
  forallb (fun p => negb (timer_ready p)) ps = true -> omap found ps = map (fun c => Some (Ok c)) cs -> forallb (running d) ps = true.
Proof.
  intros Ht. revert cs. induction ps as [|p ps IH]; intros cs Hf; [done|]. cbn [forallb] in *.
  apply andb_prop in Ht as [Hp Ht]. cbn [omap list_omap] in Hf. unfold found at 1 in Hf. unfold running at 1.
  apply negb_true_iff in Hp. rewrite Hp, andb_false_r. cbn [negb andb].
  destruct (next p) as [[[c|e]|]|]; [| | |by eapply IH]; destruct cs as [|c' cs]; try done; cbn [map] in Hf; simplify_eq.
  by eapply IH.
Qed.

(** The last item of what was found splits the polls. *)
Lemma found_snoc ps l x :
  omap found ps = l ++ [x] ->
  exists pre p post, ps = pre ++ p :: post /\ omap found pre = l /\ found p = Some x /\ omap found post = [].
Proof.
  revert l. induction ps as [|p ps IH]; intros l Hl; [by destruct l|]. cbn [omap list_omap] in Hl.
  destruct (found p) as [y|] eqn:Hp.
  - destruct l as [|y' l]; cbn [app] in Hl; injection Hl as -> Hl.
    + exists [], p, ps. done.
    + destruct (IH l Hl) as (pre & q & post & -> & Hpre & Hq & Hpost). exists (p :: pre), q, post.
      cbn [app omap list_omap]. rewrite Hp. split_and!; try done. by rewrite Hpre.
  - destruct (IH l Hl) as (pre & q & post & -> & Hpre & Hq & Hpost). exists (p :: pre), q, post.
    cbn [app omap list_omap]. by rewrite Hp.
Qed.

Lemma frames_of_app a b : frames_of (H := H) (a ++ b) = frames_of a ++ frames_of b.
Proof. apply omap_app. Qed.
Lemma frames_of_cons f l : frames_of (H := H) (Ready (Some f) :: l) = f :: frames_of l.
Proof. done. Qed.
Lemma frames_of_ended n : frames_of (H := H) (replicate n (Ready None)) = [].
Proof. by induction n. Qed.

(** Reading a body whose chunks arrive, to its trailers, and one whose timer fires. *)
Lemma read_delivered d w ps tr :
  w_trailers w = Some tr -> delivers w ps ->
  frames_of (poll_frames (mkResponseBody (w_trailers w) d false) ps).1
  = map (fun c => Ok (Data c)) (w_chunks w) ++ [Ok (Trailers (TonicService.to_header_map tr))].
Proof.
  intros Htr [Ht Hf]. apply found_snoc in Hf as (pre & p & post & -> & Hpre & Hp & _).
  rewrite forallb_app in Ht. apply andb_prop in Ht as [Htpre Ht]. cbn [forallb] in Ht. apply andb_prop in Ht as [Htp _].
  apply negb_true_iff in Htp. rewrite poll_frames_app, (poll_frames_running _ d pre) by (by eapply running_in_time).
  unfold found in Hp. destruct (next p) as [x|] eqn:Hn; simplify_eq. cbn [poll_frames].
  rewrite poll_frame_terminal by (unfold running; by rewrite Htp, Hn, andb_false_r).
  rewrite poll_frames_ended. cbn [fst]. rewrite frames_of_app, (frames_of_relayed pre (w_chunks w)) by done.
  unfold terminal. rewrite Htp, Hn, Htr, andb_false_r. by rewrite frames_of_cons, frames_of_ended.
Qed.

Lemma read_timed_out w k ps :
  times_out w k ps ->
  frames_of (poll_frames (mkResponseBody (w_trailers w) true false) ps).1
  = map (fun c => Ok (Data c)) (take k (w_chunks w)) ++ [Err (t_new Code.DeadlineExceeded $"deadline exceeded")].
Proof.
  intros (pre & p & post & -> & Htpre & Htp & Hpre).
  rewrite poll_frames_app, (poll_frames_running _ true pre) by (by eapply running_in_time). cbn [poll_frames].
  rewrite poll_frame_terminal by (unfold running; by rewrite Htp). rewrite poll_frames_ended. cbn [fst].
  rewrite frames_of_app, (frames_of_relayed pre (take k (w_chunks w))) by done. unfold terminal. rewrite Htp.
  cbn [andb]. by rewrite frames_of_cons, frames_of_ended.
Qed.

(** A [send] that opened. *)
Lemma send_opened head body (client_send : list (str * str) -> list bytes -> option (result Status Response)) wire w hm :
  to_wire_headers head = Ok wire -> client_send wire (request_chunks body) = Some (Ok (respond w)) ->
  response_headers (w_headers w) = Some hm ->
  TonicService.send head body client_send
  = Ok (200, hm, mkResponseBody (w_trailers w) (if grpc_timeout head is Some _ then true else false) false).
Proof.
  intros Hw Hs Hh. unfold TonicService.send. rewrite Hw. cbn [mbind result_bind]. rewrite Hs.
  cbn [map_err mbind result_bind raw_headers respond]. by rewrite Hh.
Qed.
End facts.

(** One call, of a stub whose headers convert and whose messages fit their length prefix. *)
Section call.
Context {H : Http} {B : Base64} {S : Stub} {SL : StubLaws S} {V : Service} {VL : ServiceLaws V}.
Context (max : N) (cut : bytes -> list bytes) (late : Wire) (router_in_time : bool) (path : str) (metadata : HeaderMap)
  (timeout : option duration) (ms : list bytes) (wire : list (str * str)).
Context (Hcut : forall b, concat (cut b) = b) (Hwire : to_wire_headers (request_head metadata timeout) = Ok wire).

(** What the tunnel answers the call with. *)
Definition call_answer : run Wire :=
  tunnel_wire serve max cut late router_in_time path wire (BodyStream (request_chunks (request_frames ms))).
Let call := stub_call max cut late router_in_time.

Lemma call_answered deadline :
  parse_grpc_timeout (TonicService.to_header_map wire) = Done deadline -> exists w, call_answer = Done w.
Proof. intros Hd. unfold call_answer, tunnel_wire, h2ts_request. rewrite Hd. by eexists. Qed.

Lemma call_opened w hm ps :
  call_answer = Done w -> response_headers (w_headers w) = Some hm ->
  call true ps path metadata timeout ms
  = read_response hm (frames_of (poll_frames (mkResponseBody (w_trailers w)
      (if grpc_timeout (request_head metadata timeout) is Some _ then true else false) false) ps).1).
Proof.
  intros Hw Hh. unfold call, stub_call. erewrite send_opened; [done|exact Hwire| |exact Hh].
  unfold client_send, tunnel_send. unfold call_answer in Hw. by rewrite Hw.
Qed.

Lemma call_refused w st ps : call_answer = Done w -> refused w st -> call true ps path metadata timeout ms = Err st.
Proof. intros Hw (hm & Hh & Hst & Hne). rewrite (call_opened w hm) by done. by apply read_refused. Qed.

Lemma call_delivered w ps deadline expired :
  parse_grpc_timeout (TonicService.to_header_map wire) = Done deadline -> refused late expired ->
  Forall (fun m => blen m < two32) ms ->
  (forall replies st, handle path (TonicService.to_header_map wire) ms = Ok (replies, st) -> Forall (fun m => blen m < two32) replies) ->
  call_answer = Done w -> delivers w ps ->
  call true ps path metadata timeout ms
  = if (if deadline is Some _ then negb router_in_time else false) then Err expired
    else if forallb (fun m => blen m <=? max) ms then
      match handle path (TonicService.to_header_map wire) ms with
      | Ok (replies, st) => Ok (replies, if decide (t_code st = 0%Z) then None else Some st)
      | Err st => Err st
      end
    else Err (upload_failed (exceeds_message max)).
Proof.
  intros Hdeadline Hlate Hlen Hreplies Hw Hps.
  destruct (tunnel_uploads serve max cut late router_in_time path wire (BodyStream (request_chunks (request_frames ms))) ms
    deadline Hcut Hdeadline Hlen (frames_exact ms)) as (polls & Hw' & Hpolls).
  pose proof (call_refused w) as Hrefused. pose proof Hw as Hcall. unfold call_answer in Hw. rewrite Hw' in Hw.
  destruct (if deadline is Some _ then negb router_in_time else false); simplify_eq; [by apply Hrefused|].
  destruct (forallb _ ms); [|by apply Hrefused; [|apply serve_fails]].
  destruct Hpolls as (b & Hb & Hd). pose proof (serve_answers path (TonicService.to_header_map wire) polls b Hb) as Ha.
  rewrite Hd in Ha. destruct (handle _ _ ms) as [[replies st]|st]; [|by apply Hrefused].
  specialize (Hreplies replies st eq_refl). destruct (Ha Hreplies) as (hm & tr & Hh & Hno & Hbytes & Htr & Hst).
  rewrite (call_opened _ hm ps Hcall Hh), (read_delivered _ _ ps tr Htr Hps). by apply read_answered.
Qed.

Lemma call_timed_out w k ps replies st :
  call_answer = Done w -> is_Some (grpc_timeout (request_head metadata timeout)) -> times_out w k ps -> answered w replies st ->
  call true ps path metadata timeout ms
  = Ok (deframe_all (concat (take k (w_chunks w))), Some (t_new Code.DeadlineExceeded $"deadline exceeded")).
Proof.
  intros Hw [d Ht] Hps (hm & tr & Hh & Hno & _). rewrite (call_opened w hm) by done.
  rewrite Ht, (read_timed_out w k ps Hps). by apply read_failed.
Qed.

Lemma call_unopened ps : call false ps path metadata timeout ms = Err (t_new Code.DeadlineExceeded $"deadline exceeded").
Proof. unfold call, stub_call, TonicService.send, client_send. by rewrite Hwire. Qed.
End call.

(** ** Properties *)


(** ** An instance *)

Module Demo.
#[local] Existing Instance AssocHttp.http.

Definition status_in (hm : list (str * str)) : option TStatus :=
  code ← head (values_of $"grpc-status" hm);
  Some (mkTStatus (H := AssocHttp.http) (default 2%Z (parse_i32 code)) (default [] (head (values_of $"grpc-message" hm))) []).

Fixpoint collect (b : bytes) (frames : list (result TStatus (body_frame (list (str * str))))) : Received :=
  match frames with
  | [] => (deframe_all b, None)
  | Ok (Data d) :: frames' => collect (b ++ d) frames'
  | Ok (Trailers tr) :: _ =>
      (deframe_all b, match status_in tr with
                      | Some st => if decide (t_code st = 0%Z) then None else Some st
                      | None => Some (t_new Code.Unknown [])
                      end)
  | Err st :: _ => (deframe_all b, Some st)
  end.

(** Metadata and a deadline in milliseconds; one frame for each message. *)
#[export] Instance stub : Stub := {|
  status_of := status_in;
  request_head md timeout :=
    md ++ match timeout with Some d => [($"grpc-timeout", fmt_dec (as_millis d) ++ $"m")] | None => [] end;
  request_frames ms := map (fun m => Ok (Data (frame m))) ms;
  read_response hm frames := match status_in hm with Some st => Err st | None => Ok (collect [] frames) end;
  single o := match o with
              | (_, Some st) => Err st
              | (m :: _, None) => Ok m
              | ([], None) => Err (t_new Code.Internal $"Missing response message.")
              end
|}.

Lemma collect_data b ds frames :
  collect b (map (fun d => Ok (Data d)) ds ++ frames) = collect (b ++ concat ds) frames.
Proof.
  revert b. induction ds as [|d ds IH]; intros b; cbn [map app concat collect]; [by rewrite app_nil_r|].
  by rewrite IH, app_assoc.
Qed.

#[export] Instance stub_laws : StubLaws stub.
Proof.
  split; cbn [request_frames read_response status_of single stub].
  - intros ms. induction ms as [|m ms IH]; [done|]. cbn [map request_chunks concat]. by rewrite IH.
  - by intros hm st frames -> _.
  - intros hm ms st ds tr -> Htr Hds Hms. rewrite collect_data. cbn [collect app]. rewrite Htr, Hds. by rewrite deframe_frames.
  - intros hm ds st ->. by rewrite collect_data.
  - done.
  - by intros [|m ms] st.
Qed.

(** A service by its methods, whose failures are plain codes: the router writes the status
    into the trailers, or into the headers when there is no message. *)
Section service.
Context (methods : str -> list bytes -> option (list bytes)).

Definition unimplemented : TStatus := mkTStatus (H := AssocHttp.http) 12 [] [].
Definition handled (path : str) (ms : list bytes) : result TStatus (list bytes * TStatus) :=
  match methods path ms with Some rs => Ok (rs, mkTStatus (H := AssocHttp.http) 0 [] []) | None => Err unimplemented end.
Fixpoint read (polls : list (H2ts.poll (str + str) (list (str * str)))) : option bytes :=
  match polls with
  | [] => Some []
  | ReadyFrame (Data d) :: polls => b ← read polls; Some (d ++ b)
  | _ => None
  end.

#[export] Instance service : Service := {|
  serve path _ polls :=
    match read polls with
    | Some b =>
        match handled path (deframe_all b) with
        | Ok (rs, _) => mkWire [] (map frame rs) (Some [($"grpc-status", $"0")])
        | Err _ => mkWire [($"grpc-status", $"12")] [] None
        end
    | None => mkWire [($"grpc-status", $"8")] [] None
    end;
  handle path _ ms := handled path ms;
  upload_failed _ := mkTStatus (H := AssocHttp.http) 8 [] []
|}.

Lemma read_data datas tail :
  read (map (fun d => ReadyFrame (Data d)) datas ++ tail) = (b ← read tail; Some (concat datas ++ b)).
Proof.
  induction datas as [|d datas IH]; [cbn [map app concat]; by destruct (read tail)|]. cbn [map app read]. rewrite IH.
  destruct (read tail); [|done]. cbn. by rewrite app_assoc.
Qed.

#[export] Instance service_laws : ServiceLaws service.
Proof.
  split; cbn [serve handle upload_failed service].
  - intros path hs polls b (datas & -> & <-). rewrite <- (app_nil_r (map _ datas)), read_data. cbn [read mbind option_bind].
    rewrite app_nil_r. unfold handled. destruct (methods path _) as [rs|].
    + intros _. exists [], [($"grpc-status", $"0")]. repeat split; vm_compute; reflexivity.
    + exists [($"grpc-status", $"12")]. repeat split; done.
  - intros path hs polls e (datas & ->). rewrite read_data. cbn [read mbind option_bind].
    exists [($"grpc-status", $"8")]. repeat split; done.
Qed.
End service.
End Demo.

(** ** Witnesses *)

