(* ===== verification/Examples.v ===== *)
(** * Entry points and the Greeter example ([rust/crates/grpc-webnext/src/bin/proxy.rs],
    [rust/crates/devserver/src/main.rs], [rust/examples/greeter-server/src/main.rs],
    [rust/examples/conformance-server/src/main.rs], [rust/examples/tonic-stub-client/src/main.rs])

    What the mains make of their environment: the configurations they start with, and the line
    by which a server tells its address. The environment, the file system and the parsers of
    addresses and URIs are functions; binding and serving is [Server]. The Greeter service's
    handlers are functions on what they receive, a stream the list of what it yields. *)
From S2P Require Import Prelude RustStd Http Metadata GrpcFraming Framing ClientMetadata ClientStatus ClientState ClientTyped.
From S2P Require Import H2ts Reflection HttpRule HttpBuild Transcode WsCodec Fetch Schema Server.

(** ** The proxy binary *)

Section mains.
Context {R : Reflect} {SocketAddr : Type}.

(** Which step of a main failed. *)
Inductive MainError : Type :=
| BadListen (e : str)
| BadUpstream (e : str)
| BadBundle (e : str)
| BadTtl
| BadDescriptors (e : TranscodeError).

(** [std::env::var(..).ok()], [str::parse] of an address and a URI, [std::fs::read]. *)
Context (env : str -> option str) (parse_addr : str -> result str SocketAddr) (parse_uri : str -> result str Uri)
  (read : str -> result str bytes).

(** The descriptor source of the two knobs. *)
Definition schema_of (reflection : bool) (bundle : option bytes) : SchemaSource :=
  match reflection, bundle with
  | true, Some b => SReflectionOrBundled b
  | true, None => SReflection
  | false, Some b => SBundled b
  | false, None => SNone
  end.

(** [main] of the proxy up to [serve_proxy]. *)
Definition proxy_main : result MainError (SocketAddr * ProxyConfig) :=
  listen ← map_err BadListen (parse_addr (default $"127.0.0.1:8080" (env $"LISTEN")));
  upstream ← map_err BadUpstream (parse_uri (default $"http://127.0.0.1:50051" (env $"UPSTREAM")));
  let reflection := bool_decide (env $"SCHEMA" = Some $"reflection") in
  bundle ← match env $"DESCRIPTOR_SET" with
           | Some path => b ← map_err BadBundle (read path); Ok (Some b)
           | None => Ok None
           end;
  let schema := schema_of reflection bundle in
  ttl ← match env $"REFLECTION_TTL_SECS" with
        | Some secs => n ← ok_or BadTtl (parse_u64 secs); Ok (from_secs n)
        | None => Ok (reflection_ttl proxy_default)
        end;
  Ok (listen,
      mkProxyConfig upstream (pc_max_message_bytes proxy_default) (pc_ws_keepalive proxy_default)
        (pc_ws_keepalive_timeout proxy_default) schema ttl (env $"ADMIN_RELOAD_PATH")
        (pc_allow_implicit_codec proxy_default)).

(** [main] of the development server: the proxy in front of the test upstream at [addr]. *)
Definition devserver_main (addr : str) : result MainError ProxyConfig :=
  upstream ← map_err BadUpstream (parse_uri ($"http://" ++ addr));
  Ok (mkProxyConfig upstream (4 * 1024 * 1024) (pc_ws_keepalive proxy_default) (pc_ws_keepalive_timeout proxy_default)
        (schema_source proxy_default) (reflection_ttl proxy_default) (pc_admin_reload_path proxy_default)
        (pc_allow_implicit_codec proxy_default)).

(** [main] of the conformance server up to [bind_and_serve_in_process]. *)
Definition conformance_main (file_descriptor_set : bytes) : result MainError (ServerConfig (R := R)) :=
  let config := server_default in
  let max_message_bytes :=
    match env $"CONFORMANCE_MAX_MESSAGE_BYTES" with
    | Some v => default (sc_max_message_bytes config) (parse_u64 v)
    | None => sc_max_message_bytes config
    end in
  let transcoder_disabled := default false ((fun v => bool_decide (v = $"0")) <$> env $"CONFORMANCE_TRANSCODER") in
  transcoder ←
    (if transcoder_disabled then Ok (sc_transcoder config)
     else tc ← map_err BadDescriptors (from_file_descriptor_set file_descriptor_set); Ok (Some tc));
  Ok (mkServerConfig max_message_bytes transcoder (sc_allow_implicit_codec config) (sc_ws_keepalive config)
        (sc_ws_keepalive_timeout config)).

(** [main] of the Greeter server. *)
Definition greeter_main (file_descriptor_set : bytes) : result MainError (ServerConfig (R := R)) :=
  transcoder ← map_err BadDescriptors (from_file_descriptor_set file_descriptor_set);
  Ok (mkServerConfig (sc_max_message_bytes server_default) (Some transcoder) (sc_allow_implicit_codec server_default)
        (sc_ws_keepalive server_default) (sc_ws_keepalive_timeout server_default)).
End mains.

(** ** The readiness line *)

(** The line a server prints once it listens, and its reader: the loop of
    [spawn_greeter_server] over what reading the child's lines gives. *)
Definition ready_line (addr : str) : str := $"LISTENING http://" ++ addr.
Fixpoint read_listening (lines : list (result str str)) : result str str :=
  match lines with
  | [] => Err $"the server exited before it printed LISTENING"
  | Err e :: _ => Err e
  | Ok line :: lines' =>
      if starts_with $"LISTENING " line then Ok (trim (drop (length ($"LISTENING " : str)) line))
      else read_listening lines'
  end.

(** ** The Greeter service *)

Section greeter.

Definition say_hello (name : str) : result TonicStatus str := Ok ($"Hello, " ++ name ++ $"!").

(** [sleep]: how long it sleeps, and its answer. *)
Definition sleep (millis : N) : duration * result TonicStatus str := (from_millis millis, Ok $"awake").

(** The values of [(0..=from).rev()]. *)
Definition countdown (from : N) : list (result TonicStatus N) :=
  map (fun i => Ok (N.of_nat i)) (rev (seq 0 (S (N.to_nat from)))).

(** [concat]: the loop over the inbound stream, then the joined parts. *)
Fixpoint concat_loop (inbound : list (result TonicStatus str)) (parts : list str) : result TonicStatus (list str) :=
  match inbound with
  | [] => Ok parts
  | msg :: inbound' => text ← msg; concat_loop inbound' (parts ++ [text])
  end.
Definition greeter_concat (inbound : list (result TonicStatus str)) : result TonicStatus str :=
  parts ← concat_loop inbound []; Ok (join $" " parts).

Fixpoint greeter_chat (inbound : list (result TonicStatus str)) : list (result TonicStatus str) :=
  match inbound with
  | [] => []
  | Ok text :: inbound' => Ok ($"echo: " ++ text) :: greeter_chat inbound'
  | Err e :: _ => [Err e]
  end.
End greeter.

(** ** Lemmas *)

Definition printable (s : str) : bool := forallb (in_range 33 126) s.

Lemma printable_app s t : printable (s ++ t) = printable s && printable t.
Proof. apply forallb_app. Qed.

Lemma strip_ws_printable b s : in_range 33 126 b = true -> strip_ws (b :: s) = None.
Proof.
  intros Hb%in_range_spec. unfold strip_ws. unfold in_range.
  repeat match goal with |- context [bN b =? ?n] => destruct (N.eqb_spec (bN b) n); [lia|] end.
  destruct (N.leb_spec 9 (bN b)), (N.leb_spec (bN b) 13); try lia; cbn; by repeat case_match.
Qed.

(** Text that is printable at both ends is not trimmed. *)
Lemma trim_printable s : printable s = true -> trim s = s.
Proof.
  intros Hs. unfold trim.
  assert (strip_while strip_ws (length s) s = s) as ->.
  { destruct s as [|b s]; [done|]. cbn [printable forallb] in Hs. apply andb_prop in Hs as [Hb _].
    cbn [length strip_while]. by rewrite strip_ws_printable. }
  assert (forall r, forallb (in_range 33 126) r = true -> strip_while strip_ws_rev (length r) r = r) as Hrev.
  { intros [|b r] Hr; [done|]. cbn [forallb] in Hr. apply andb_prop in Hr as [Hb Hr]. cbn [length strip_while].
    assert (strip_ws_rev (b :: r) = None) as ->; [|done]. unfold strip_ws_rev. rewrite strip_ws_printable by done.
    destruct r as [|b1 r]; [done|]. cbn [forallb] in Hr. apply andb_prop in Hr as [Hb1 Hr].
    rewrite strip_ws_printable by done. destruct r as [|b2 r]; [done|]. cbn [forallb] in Hr. apply andb_prop in Hr as [Hb2 Hr].
    by rewrite strip_ws_printable. }
  rewrite <- (length_rev s), Hrev by (apply forallb_forall; intros x Hx%in_rev; by eapply forallb_forall in Hs).
  apply rev_involutive.
Qed.

Lemma fmt_dec_printable n : printable (fmt_dec n) = true.
Proof.
  pose proof (fmt_dec_digits n) as Hd. unfold printable. rewrite forallb_forall in *. intros x Hx.
  specialize (Hd x Hx). apply in_range_spec in Hd. apply in_range_spec. lia.
Qed.

Lemma rev_seq_lookup n i : (i <= n)%nat -> rev (seq 0 (S n)) !! i = Some (n - i)%nat.
Proof.
  revert i. induction n as [|n IH]; intros i Hi; [by destruct i; [|lia]|].
  rewrite seq_S, rev_app_distr. destruct i as [|i]; [done|]. cbn [rev app lookup list_lookup Nat.add]. by rewrite IH by lia.
Qed.

(** The address a server prints is the one read back, whatever came before on its output. *)
Lemma read_ready_line (port : N) (before after : list str) :
  Forall (fun line => starts_with $"LISTENING " line = false) before ->
  let addr := $"127.0.0.1:" ++ fmt_dec port in
  read_listening (map Ok (before ++ ready_line addr :: after)) = Ok ($"http://" ++ addr).
Proof.
  intros Hbefore addr. assert (printable ($"http://" ++ addr) = true) as Hp.
  { unfold addr. rewrite !printable_app, fmt_dec_printable. done. }
  induction Hbefore as [|line lines Hl _ IH]; cbn [app map read_listening]; [|by rewrite Hl].
  unfold ready_line. change ($"LISTENING http://" ++ addr) with ($"LISTENING " ++ $"http://" ++ addr).
  rewrite starts_with_app, drop_app_length. by rewrite trim_printable.
Qed.

(** ** Properties *)

(** What a proxy started from its environment serves JSON with. With valid addresses and
    interval and a readable bundle, it fails to start exactly when the bundle is no descriptor
    set; otherwise it has no descriptors, the bundle's, the upstream's once loaded, or the
    bundle's until the upstream's are loaded, as [SCHEMA] and [DESCRIPTOR_SET] say; and a
    reflection load counts exactly when [SCHEMA=reflection]. *)
Theorem proxy_env_schema {H : Http} {T : Tonic H} {R : Reflect} {SocketAddr : Type} (env : str -> option str)
  (parse_addr : str -> result str SocketAddr) (parse_uri : str -> result str Uri) (read : str -> result str bytes)
  (channel : GrpcRequest (H := H) -> result str (HeaderMap * list (result str (body_frame HeaderMap))))
  (bundle : option bytes)
  (Haddr : Prelude.is_ok (parse_addr (default $"127.0.0.1:8080" (env $"LISTEN"))) = true)
  (Huri : Prelude.is_ok (parse_uri (default $"http://127.0.0.1:50051" (env $"UPSTREAM"))) = true)
  (Hbundle : match env $"DESCRIPTOR_SET" with
             | Some path => exists b, read path = Ok b /\ bundle = Some b
             | None => bundle = None
             end)
  (Httl : forall secs, env $"REFLECTION_TTL_SECS" = Some secs -> is_Some (parse_u64 secs)) :
  let reflection := bool_decide (env $"SCHEMA" = Some $"reflection") in
  exists listen config, proxy_main env parse_addr parse_uri read = Ok (listen, config)
  /\ match proxy_runtime channel config with
     | Err e => exists b, bundle = Some b /\ from_file_descriptor_set b = Err e
     | Ok rt => forall waits tc',
         let served := transcoder_any (schema rt) waits in
         let reloaded := transcoder_any (refresh (schema rt) (Finished (Ok tc'))) waits in
         (match bundle with
          | Some b => exists tc, from_file_descriptor_set b = Ok tc /\ served = Ok tc
          | None => served = if reflection then state_transcoder None waits else Err no_transcoder
          end)
         /\ reloaded = if reflection then Ok tc' else served
     end.
Proof.
  intros reflection. unfold proxy_main.
  destruct (parse_addr _) as [listen|]; [|done]. destruct (parse_uri _) as [u|]; [|done]. cbn [map_err mbind result_bind].
  assert (match env $"DESCRIPTOR_SET" with Some path => b ← map_err BadBundle (read path); Ok (Some b) | None => Ok None end
    = (Ok bundle : result MainError (option bytes))) as ->.
  { destruct (env $"DESCRIPTOR_SET"); [|by subst]. destruct Hbundle as (b & -> & ->). done. }
  cbn [mbind result_bind].
  assert (exists ttl, match env $"REFLECTION_TTL_SECS" with
     | Some secs => n ← ok_or BadTtl (parse_u64 secs); Ok (from_secs n)
     | None => Ok (reflection_ttl proxy_default) end = (Ok ttl : result MainError duration)) as [ttl ->].
  { destruct (env $"REFLECTION_TTL_SECS") as [secs|]; [|by eexists].
    destruct (Httl secs eq_refl) as [n ->]. by eexists. }
  cbn [mbind result_bind]. eexists _, _. split; [reflexivity|].
  unfold proxy_runtime. cbn [schema_source Server.reflection_ttl]. fold reflection.
  destruct reflection, bundle as [b|]; cbn [schema_of build mbind result_bind];
    try (destruct (from_file_descriptor_set b) as [tc|e] eqn:Eb; cbn [mbind result_bind]; [|by exists b]);
    intros waits tc'; cbn; split; try done; try (by exists tc); by destruct waits as [|[[]|] ?].
Qed.

(** From the line a server prints to the socket a client opens: whatever came before on
    the child's output, the address read back is the one printed, and dialing it asks for the
    WebSocket at that address and sends it as the authority. *)
Theorem ready_line_dialed (port : N) (before after : list str)
  (Hbefore : Forall (fun line => starts_with $"LISTENING " line = false) before) :
  let addr := $"127.0.0.1:" ++ fmt_dec port in
  exists url, read_listening (map Ok (before ++ ready_line addr :: after)) = Ok url
    /\ dial_ws_url url = $"ws://" ++ addr /\ dial_authority url = addr.
Proof.
  intros addr. exists ($"http://" ++ addr).
  assert ("/"%byte ∉ addr) as Hslash.
  { unfold addr. apply not_elem_of_app. split; [apply (bool_decide_unpack _); vm_compute; exact I|].
    intros Hin%list_elem_of_In. pose proof (fmt_dec_digits port) as Hd. rewrite forallb_forall in Hd.
    specialize (Hd _ Hin). discriminate Hd. }
  split_and!.
  - by apply read_ready_line.
  - pose proof (proj1 (dial_endpoint $"http" addr [] ltac:(by left) Hslash ltac:(by left))) as Hd.
    rewrite app_nil_r in Hd. exact Hd.
  - pose proof (proj2 (dial_endpoint $"http" addr [] ltac:(by left) Hslash ltac:(by left))) as Hd.
    rewrite app_nil_r in Hd. exact Hd.
Qed.

(** The Greeter service: a countdown yields [from], [from - 1], ... and 0; [concat] joins the
    texts or gives the first error, and [chat] echoes up to the first error. *)
Theorem greeter_contract (from : N) (texts : list str) (tail : list (result TonicStatus str)) (err : option TonicStatus)
  (Htail : match err with Some e => exists rest, tail = Err e :: rest | None => tail = [] end) :
  (length (countdown from) = S (N.to_nat from)
   /\ forall i : nat, (i <= N.to_nat from)%nat -> countdown from !! i = Some (Ok (from - N.of_nat i)))
  /\ greeter_concat (map Ok texts ++ tail) = match err with Some e => Err e | None => Ok (join $" " texts) end
  /\ greeter_chat (map Ok texts ++ tail)
     = map (fun t => Ok ($"echo: " ++ t)) texts ++ match err with Some e => [Err e] | None => [] end.
Proof.
  split_and!.
  - unfold countdown. by rewrite length_map, length_rev, length_seq.
  - intros i Hi. unfold countdown. rewrite list_lookup_fmap, rev_seq_lookup by done. cbn. do 2 f_equal. lia.
  - unfold greeter_concat.
    assert (forall parts, concat_loop (map Ok texts ++ tail) parts = match err with Some e => Err e | None => Ok (parts ++ texts) end) as ->;
      [|by destruct err].
    induction texts as [|t texts IH]; intros parts; cbn [map app concat_loop].
    + destruct err; [by destruct Htail as [rest ->]|]. rewrite Htail. cbn. by rewrite app_nil_r.
    + cbn [mbind result_bind]. rewrite IH. by rewrite <- app_assoc.
  - induction texts as [|t texts IH]; cbn [map app greeter_chat]; [|by rewrite IH].
    destruct err; [by destruct Htail as [rest ->]|]. by rewrite Htail.
Qed.

(** ** Witnesses *)

Definition demo_env (name : str) : option str := if bool_decide (name = $"SCHEMA") then Some $"reflection" else None.

Lemma proxy_env_schema_witness :
  exists listen config, proxy_main (R := Flat.reflect) demo_env (fun s => Ok s) (fun _ => Ok uri_default) (fun _ => Err []) = Ok (listen, config)
    /\ bool_decide (demo_env $"SCHEMA" = Some $"reflection") = true.
Proof.
  destruct (proxy_env_schema (H := AssocHttp.http) (T := AssocHttp.tonic) (R := Flat.reflect) demo_env (fun s => Ok s)
    (fun _ => Ok uri_default) (fun _ => Err []) (fun _ => Err []) None eq_refl eq_refl eq_refl ltac:(discriminate))
    as (listen & config & Hmain & _).
  exists listen, config. split; [exact Hmain|vm_compute; reflexivity].
Defined.

Lemma ready_line_dialed_witness :
  exists url, read_listening [Ok $"building"; Ok $"LISTENING http://127.0.0.1:8080"] = Ok url /\ dial_ws_url url = $"ws://127.0.0.1:8080".
Proof.
  destruct (ready_line_dialed 8080 [$"building"] [] ltac:(repeat constructor)) as (url & Hread & Hdial & _).
  exists url. split; [exact Hread|exact Hdial].
Defined.

Lemma greeter_contract_witness : greeter_concat [Ok $"a"; Ok $"b"] = Ok $"a b".
Proof. exact (proj1 (proj2 (greeter_contract 0 [$"a"; $"b"] [] None eq_refl))). Defined.
