(* ===== verification/StubDemo.v ===== *)
(** * The stub client demo ([rust/examples/tonic-stub-client/src/main.rs])

    [main] as a computation that prints: its text so far, and whether it goes on, fails or
    panics. The generated stub is a record of its five methods; [client_over] is the stub of
    [greeter.proto] over a transport's calls, and [TonicTunnel] is that transport. The three
    text messages share one encoding (a string in field 1), the three numeric ones another. *)
From S2P Require Import Prelude RustStd Http Metadata GrpcFraming ClientMetadata ClientStatus ClientCalls ClientTyped WsCodec.
From S2P Require Import Base64Std TonicService Server EndToEnd TonicTunnel Examples.

(** ** Printing *)

Section printing.
Context {H : Http}.

Inductive DemoError : Type :=
| EStatus (st : TStatus)
| EMetadata
| EMessage (e : str).

Definition io (A : Type) : Type := str * run (result DemoError A).
#[global] Instance io_ret : MRet io := fun A a => ([], Done (Ok a)).
#[global] Instance io_bind : MBind io := fun A B f m =>
  match m.2 with
  | Done (Ok a) => let '(out, r) := f a in (m.1 ++ out, r)
  | Done (Err e) => (m.1, Done (Err e))
  | Panic => (m.1, Panic)
  end.
Definition print (text : str) : io unit := (text, Done (Ok tt)).
Definition println (text : str) : io unit := print (text ++ [x0a]).
Definition from_result {E A} (into : E -> DemoError) (r : result E A) : io A :=
  ([], Done (map_err into r)).
Definition or_panic {A} (o : option A) : io A := ([], match o with Some a => Done (Ok a) | None => Panic end).
End printing.
Abbreviation checked r := (from_result EStatus r).

Section demo.
Context {H : Http} {T : Tonic H}.

(** The generated client; a streamed response is what its [next] gives until [None]. *)
Record GreeterClient : Type := mkGreeterClient {
  gc_say_hello : MetadataMap -> str -> result TStatus str;
  gc_sleep : option duration -> N -> result TStatus str;
  gc_countdown : N -> result TStatus (list (result TStatus N));
  gc_concat : list str -> result TStatus str;
  gc_chat : list str -> result TStatus (list (result TStatus str))
}.

(** [{:?}] of a string and of a [tonic::Code], and [Display] of an error. *)
Context (fmt_debug : str -> str) (fmt_code : Z -> str) (display : DemoError -> str).

(** The [while let] loops over a response stream. *)
Fixpoint print_each {A} (show : A -> str) (stream : list (result TStatus A)) : io unit :=
  match stream with
  | [] => mret tt
  | item :: stream' => a ← checked item; _ ← print ($" " ++ show a); print_each show stream'
  end.

(** [run] once it has a URL. *)
Definition demo (greeter : GreeterClient) (base_url : str) : io unit :=
  _ ← println ($"connected to " ++ base_url ++ [x0a]);
  reply ← checked (gc_say_hello greeter md_new $"world");
  _ ← println ($"[unary]         SayHello -> " ++ fmt_debug reply);
  ticks ← checked (gc_countdown greeter 3);
  _ ← print $"[server-stream] Countdown(3) ->";
  _ ← print_each fmt_dec ticks;
  _ ← println [];
  joined ← checked (gc_concat greeter [$"real"; $"HTTP/2"; $"in"; $"a"; $"browser"]);
  _ ← println ($"[client-stream] Concat -> " ++ fmt_debug joined);
  chat ← checked (gc_chat greeter [$"hi"; $"again"]);
  _ ← print $"[bidi]          Chat ->";
  _ ← print_each fmt_debug chat;
  _ ← println [];
  status ← or_panic (match gc_sleep greeter (Some (from_millis 200)) 5000 with Err st => Some st | Ok _ => None end);
  _ ← println ($"[deadline]      Sleep(5s) -> " ++ fmt_code (t_code status) ++ $": " ++ t_message status);
  id_value ← from_result (fun _ => EMetadata) (ok_or tt (ascii_value $"abc-123"));
  id_key ← or_panic (ascii_key $"x-request-id");
  trace_key ← or_panic (binary_key $"x-trace-bin");
  let metadata := md_append_bin (md_append md_new id_key id_value) trace_key (binary_value [x00; x01; xfa]) in
  reply ← checked (gc_say_hello greeter metadata $"metadata");
  _ ← println ($"[metadata]      SayHello -> " ++ fmt_debug reply);
  println ([x0a] ++ $"Demo complete. ✅").

(** [spawn_greeter_server]: [spawned] is the child's output, read line by line. *)
Definition spawn_greeter_server (spawned : result str (list (result str str))) : io str :=
  _ ← println $"no URL given — building and starting example-greeter-server…";
  lines ← from_result EMessage spawned;
  from_result EMessage (read_listening lines).

(** [run], on the arguments of the process. *)
Definition run_demo (greeter : str -> GreeterClient) (args : list str) (spawned : result str (list (result str str))) : io unit :=
  base_url ← match args !! 1%nat with
             | Some url => mret url
             | None => spawn_greeter_server spawned
             end;
  demo (greeter base_url) base_url.

(** [main]: what it writes to its outputs, and its exit code; [None] when it panics. *)
Definition main (greeter : str -> GreeterClient) (args : list str) (spawned : result str (list (result str str)))
  : str * str * option N :=
  let '(out, r) := run_demo greeter args spawned in
  match r with
  | Done (Ok _) => (out, [], Some 0)
  | Done (Err e) => (out, $"error: " ++ display e ++ [x0a], Some 1)
  | Panic => (out, [], None)
  end.
End demo.

(** ** The generated stub, and the service *)

Section greeter.
Context {H : Http} {T : Tonic H} {S : Stub} {PT : Prost str} {PN : Prost N} (decode_failed : str -> TStatus).

Definition method (name : str) : str := $"/greeter.v1.Greeter/" ++ name.
Definition decoded {A} `{Prost A} (b : bytes) : result TStatus A := map_err decode_failed (prost_decode b).
Definition decoded_stream {A} `{Prost A} (o : Received) : list (result TStatus A) :=
  map decoded o.1 ++ match o.2 with Some st => [Err st] | None => [] end.

(** [GreeterClient] over a transport, by path, metadata, deadline and encoded messages. *)
Definition client_over (call : str -> HeaderMap -> option duration -> list bytes -> result TStatus Received) : GreeterClient :=
  let no_metadata := md_into_headers md_new in
  mkGreeterClient
    (fun md name => o ← call (method $"SayHello") (md_into_headers md) None [encode_to_vec name]; b ← single o; decoded b)
    (fun timeout millis => o ← call (method $"Sleep") no_metadata timeout [encode_to_vec millis]; b ← single o; decoded b)
    (fun from => o ← call (method $"Countdown") no_metadata None [encode_to_vec from]; Ok (decoded_stream o))
    (fun texts => o ← call (method $"Concat") no_metadata None (map encode_to_vec texts); b ← single o; decoded b)
    (fun texts => o ← call (method $"Chat") no_metadata None (map encode_to_vec texts); Ok (decoded_stream o)).

Definition ok_status : TStatus := t_new Code.Ok [].

(** The handlers of [GreeterSvc] on the messages of a request, to their end. *)
Definition replies (rs : list bytes) : result TStatus (list bytes * TStatus) := Ok (rs, ok_status).
Definition greeter_service (path : str) (ms : list bytes) : option (result TStatus (list bytes * TStatus)) :=
  if decide (path = method $"SayHello") then
    m ← head ms; name ← ok (prost_decode m);
    text ← ok (say_hello name); Some (replies [encode_to_vec text])
  else if decide (path = method $"Sleep") then
    m ← head ms; millis ← ok (prost_decode m);
    text ← ok (sleep millis).2; Some (replies [encode_to_vec text])
  else if decide (path = method $"Countdown") then
    m ← head ms; from ← ok (prost_decode m);
    ticks ← mapM ok (countdown from); Some (replies (map encode_to_vec ticks))
  else if decide (path = method $"Concat") then
    texts ← mapM (fun m => ok (prost_decode m)) ms;
    text ← ok (greeter_concat (map Ok texts)); Some (replies [encode_to_vec text])
  else if decide (path = method $"Chat") then
    texts ← mapM (fun m => ok (prost_decode m)) ms;
    echoes ← mapM ok (greeter_chat (map Ok texts)); Some (replies (map encode_to_vec echoes))
  else None.
End greeter.

(** What the demo prints at [base_url], when its slow call ends with [st]. *)
Definition transcript {H : Http} (fmt_debug : str -> str) (fmt_code : Z -> str) (base_url : str) (st : TStatus) : str :=
  let line s := s ++ [x0a] in
  line ($"connected to " ++ base_url ++ [x0a])
  ++ line ($"[unary]         SayHello -> " ++ fmt_debug $"Hello, world!")
  ++ line $"[server-stream] Countdown(3) -> 3 2 1 0"
  ++ line ($"[client-stream] Concat -> " ++ fmt_debug $"real HTTP/2 in a browser")
  ++ line ($"[bidi]          Chat -> " ++ fmt_debug $"echo: hi" ++ $" " ++ fmt_debug $"echo: again")
  ++ line ($"[deadline]      Sleep(5s) -> " ++ fmt_code (t_code st) ++ $": " ++ t_message st)
  ++ line ($"[metadata]      SayHello -> " ++ fmt_debug $"Hello, metadata!")
  ++ line ([x0a] ++ $"Demo complete. ✅").

(** ** Lemmas *)

Section printing_facts.
Context {H : Http}.

Lemma io_then {A C} (m : io A) (f : A -> io C) o1 a o2 r :
  m = (o1, Done (Ok a)) -> f a = (o2, r) -> m ≫= f = (o1 ++ o2, r).
Proof. intros -> Hf. unfold mbind, io_bind. cbn [fst snd]. by rewrite Hf. Qed.

Lemma print_each_ok {A} (show : A -> str) (l : list A) :
  print_each show (map Ok l) = (concat (map (fun a => $" " ++ show a) l), Done (Ok tt)).
Proof.
  induction l as [|a l IH]; [done|]. cbn [map print_each].
  unfold mbind, io_bind, from_result, print. cbn [fst snd map_err]. by rewrite IH.
Qed.

(** The server's readiness line, behind whatever it prints before. *)
Lemma spawn_reads port before after :
  Forall (fun line => starts_with $"LISTENING " line = false) before ->
  spawn_greeter_server (H := H) (Ok (map Ok (before ++ ready_line ($"127.0.0.1:" ++ fmt_dec port) :: after)))
  = ($"no URL given — building and starting example-greeter-server…" ++ [x0a], Done (Ok ($"http://" ++ $"127.0.0.1:" ++ fmt_dec port))).
Proof.
  intros Hbefore. unfold spawn_greeter_server, println, print, from_result, mbind, io_bind. cbn [fst snd map_err].
  by rewrite read_ready_line, app_nil_r.
Qed.
End printing_facts.

Section facts.
Context {H : Http} {T : Tonic H} {S : Stub} {SL : StubLaws S} {PT : Prost str} {PN : Prost N} (decode_failed : str -> TStatus).
Context (Htext : forall s : str, prost_decode (encode_to_vec s) = Ok s)
  (Hnum : forall n, n <= u32_max -> prost_decode (encode_to_vec n) = Ok n).

Ltac at_method := unfold greeter_service; repeat (rewrite decide_False by discriminate); rewrite decide_True by done.

Lemma service_say_hello (name : str) :
  greeter_service (method $"SayHello") [encode_to_vec name] = Some (replies [encode_to_vec ($"Hello, " ++ name ++ $"!")]).
Proof. at_method. cbn [head mbind option_bind]. by rewrite Htext. Qed.

Lemma service_sleep (millis : N) :
  millis <= u32_max -> greeter_service (method $"Sleep") [encode_to_vec millis] = Some (replies [encode_to_vec $"awake"]).
Proof. intros Hm. at_method. cbn [head mbind option_bind]. by rewrite Hnum. Qed.

Lemma service_countdown (from : N) :
  from <= u32_max ->
  greeter_service (method $"Countdown") [encode_to_vec from]
  = Some (replies (map (fun i => encode_to_vec (N.of_nat i)) (rev (seq 0 (Datatypes.S (N.to_nat from)))))).
Proof.
  intros Hf. at_method. cbn [head mbind option_bind]. rewrite Hnum by done. cbn [ok mbind option_bind]. unfold countdown.
  assert (forall l : list nat, mapM ok (map (fun i => Ok (N.of_nat i) : result TonicStatus N) l) = Some (map N.of_nat l)) as ->.
  { induction l as [|i l IH]; [done|]. cbn. by rewrite IH. }
  cbn [mbind option_bind]. by rewrite map_map.
Qed.

Lemma decode_texts (texts : list str) : mapM (fun m => ok (prost_decode (M := str) m)) (map encode_to_vec texts) = Some texts.
Proof. induction texts as [|t texts IH]; [done|]. cbn [map mapM]. rewrite Htext. cbn. by rewrite IH. Qed.

Lemma service_concat (texts : list str) :
  greeter_service (method $"Concat") (map encode_to_vec texts) = Some (replies [encode_to_vec (join $" " texts)]).
Proof.
  at_method. rewrite decode_texts. cbn [mbind option_bind]. unfold greeter_concat.
  assert (forall parts, concat_loop (map Ok texts) parts = Ok (parts ++ texts)) as ->; [|done].
  induction texts as [|t texts IH]; intros parts; cbn [map concat_loop mbind result_bind]; [by rewrite app_nil_r|].
  by rewrite IH, <- app_assoc.
Qed.

Lemma service_chat (texts : list str) :
  greeter_service (method $"Chat") (map encode_to_vec texts) = Some (replies (map (fun t => encode_to_vec ($"echo: " ++ t)) texts)).
Proof.
  at_method. rewrite decode_texts. cbn [mbind option_bind].
  assert (mapM ok (greeter_chat (map Ok texts)) = Some (map (fun t => $"echo: " ++ t) texts)) as ->.
  { induction texts as [|t texts IH]; [done|]. cbn [map greeter_chat mapM ok mbind option_bind]. by rewrite IH. }
  cbn [mbind option_bind]. by rewrite map_map.
Qed.

(** A transport that answers every call but the slow one as the service does. *)
Context (call : str -> HeaderMap -> option duration -> list bytes -> result TStatus Received) (ok_metadata : HeaderMap -> Prop)
  (ok_message : bytes -> Prop).
Definition answers : Prop := forall path md ms rs,
  ok_metadata md -> path <> method $"Sleep" -> Forall ok_message ms -> Forall ok_message rs ->
  greeter_service path ms = Some (replies rs) ->
  call path md None ms = Ok (rs, None).
Context (Hcall : answers).
Let client : GreeterClient := client_over decode_failed call.

Lemma client_say_hello md (name : str) :
  ok_metadata (md_into_headers md) -> ok_message (encode_to_vec name) -> ok_message (encode_to_vec ($"Hello, " ++ name ++ $"!")) ->
  gc_say_hello client md name = Ok ($"Hello, " ++ name ++ $"!").
Proof.
  intros Hmd Hm Hr. cbn [gc_say_hello client client_over].
  rewrite (Hcall (method $"SayHello") _ [encode_to_vec name] [_] Hmd ltac:(discriminate) ltac:(by constructor) ltac:(by constructor) (service_say_hello name)).
  cbn [mbind result_bind]. rewrite single_message. cbn [mbind result_bind]. unfold decoded. by rewrite Htext.
Qed.

Lemma client_countdown from :
  ok_metadata (md_into_headers md_new) -> ok_message (encode_to_vec from) -> (forall n, n <= from -> ok_message (encode_to_vec n)) ->
  from <= u32_max ->
  gc_countdown client from = Ok (map (fun i => Ok (N.of_nat i)) (rev (seq 0 (Datatypes.S (N.to_nat from))))).
Proof.
  intros Hmd Hm Hr Hf. cbn [gc_countdown client client_over].
  assert (Forall ok_message (map (fun i => encode_to_vec (N.of_nat i)) (rev (seq 0 (Datatypes.S (N.to_nat from)))))) as Hrs.
  { apply Forall_map, Forall_forall. intros i Hi%list_elem_of_In%in_rev%in_seq. apply Hr. lia. }
  rewrite (Hcall (method $"Countdown") _ [encode_to_vec from] _ Hmd ltac:(discriminate) ltac:(by constructor) Hrs (service_countdown from Hf)).
  cbn [mbind result_bind]. unfold decoded_stream. cbn [fst snd]. rewrite app_nil_r, map_map. f_equal.
  apply map_ext_in. intros i [_ Hi]%in_rev%in_seq. unfold decoded. by rewrite Hnum by lia.
Qed.

Lemma client_concat (texts : list str) :
  ok_metadata (md_into_headers md_new) -> Forall (fun t => ok_message (encode_to_vec t)) texts ->
  ok_message (encode_to_vec (join $" " texts)) ->
  gc_concat client texts = Ok (join $" " texts).
Proof.
  intros Hmd Hm Hr. cbn [gc_concat client client_over].
  rewrite (Hcall (method $"Concat") _ (map encode_to_vec texts) [_] Hmd ltac:(discriminate) ltac:(by apply Forall_map) ltac:(by constructor) (service_concat texts)).
  cbn [mbind result_bind]. rewrite single_message. cbn [mbind result_bind]. unfold decoded. by rewrite Htext.
Qed.

Lemma client_chat (texts : list str) :
  ok_metadata (md_into_headers md_new) -> Forall (fun t => ok_message (encode_to_vec t)) texts ->
  Forall (fun t => ok_message (encode_to_vec ($"echo: " ++ t))) texts ->
  gc_chat client texts = Ok (map (fun t => Ok ($"echo: " ++ t)) texts).
Proof.
  intros Hmd Hm Hr. cbn [gc_chat client client_over].
  rewrite (Hcall (method $"Chat") _ (map encode_to_vec texts) (map (fun t => encode_to_vec ($"echo: " ++ t)) texts) Hmd ltac:(discriminate) ltac:(by apply Forall_map) ltac:(by apply Forall_map) (service_chat texts)).
  cbn [mbind result_bind]. unfold decoded_stream. cbn [fst snd]. rewrite app_nil_r, map_map. f_equal.
  apply map_ext. intros t. unfold decoded. by rewrite Htext.
Qed.

(** The demo over such a transport. *)
Lemma demo_runs fmt_debug fmt_code base_url st id_value id_key trace_key :
  ascii_value $"abc-123" = Some id_value -> ascii_key $"x-request-id" = Some id_key -> binary_key $"x-trace-bin" = Some trace_key ->
  ok_metadata (md_into_headers md_new) ->
  ok_metadata (md_into_headers (md_append_bin (md_append md_new id_key id_value) trace_key (binary_value [x00; x01; xfa]))) ->
  (forall t : str, blen t <= 64 -> ok_message (encode_to_vec t)) -> (forall n, n <= 5000 -> ok_message (encode_to_vec n)) ->
  call (method $"Sleep") (md_into_headers md_new) (Some (from_millis 200)) [encode_to_vec 5000] = Err st ->
  demo fmt_debug fmt_code client base_url = (transcript fmt_debug fmt_code base_url st, Done (Ok tt)).
Proof.
  intros Hv Hk Hb Hmd1 Hmd2 Htexts Hnums Hsleep. unfold demo.
  rewrite client_say_hello by (done || by apply Htexts).
  rewrite client_countdown by (done || (intros; apply Hnums; lia) || by apply Hnums).
  rewrite client_concat by (done || (by repeat constructor; apply Htexts) || by apply Htexts).
  rewrite client_chat by (done || by repeat constructor; apply Htexts).
  assert (gc_sleep client (Some (from_millis 200)) 5000 = Err st) as ->
    by (cbn [gc_sleep client client_over]; by rewrite Hsleep).
  rewrite Hv, Hk, Hb. set (md := md_append_bin _ _ _) in *.
  change (map (fun i => Ok (N.of_nat i)) (rev (seq 0 (Datatypes.S (N.to_nat 3))))) with (map (@Ok TStatus N) [3; 2; 1; 0]).
  change (map (fun t => Ok ($"echo: " ++ t)) [$"hi"; $"again"]) with (map (@Ok TStatus str) [$"echo: hi"; $"echo: again"]).
  unfold mbind, io_bind, println, print, from_result, or_panic. cbn [fst snd map_err ok_or].
  rewrite client_say_hello, !print_each_ok by (done || by apply Htexts). cbn [fst snd map_err].
  change (concat (map (fun a => $" " ++ fmt_dec a) [3; 2; 1; 0])) with $" 3 2 1 0". cbn [concat map].
  f_equal. unfold transcript.
  change $"[server-stream] Countdown(3) -> 3 2 1 0" with ($"[server-stream] Countdown(3) ->" ++ $" 3 2 1 0").
  change $"[bidi]          Chat -> " with ($"[bidi]          Chat ->" ++ $" ").
  rewrite <- !app_assoc, !app_nil_l. reflexivity.
Qed.
End facts.

(** ** Properties *)


(** ** Witnesses *)

Module DemoInstance.
#[local] Existing Instance AssocHttp.http.

(** Strings as they are, numbers big-endian. *)
#[export] Instance text : Prost str := {| encode_to_vec s := s; prost_decode b := Ok b |}.
#[export] Instance number : Prost N := {|
  encode_to_vec n := be32 n;
  prost_decode b := match b with [a; b; c; d] => Ok (u32_be a b c d) | _ => Err $"not a number" end
|}.
Definition greeter : Service := Demo.service (fun path ms =>
  match greeter_service path ms with Some (Ok (rs, _)) => Some rs | _ => None end).
Definition cut : bytes -> list bytes := map (fun b => [b]).
Definition late : Wire := mkWire [($"grpc-status", $"4")] [] None.
Definition opened (path : str) : bool := bool_decide (path <> method $"Sleep").

(** A body whose chunks are there when it is polled. *)
Definition polls_of (w : Wire) : list polled :=
  map (fun c => mkPolled false (Ready (Some (Ok c)))) (w_chunks w) ++ [mkPolled false (Ready None)].
Definition ps (path : str) (md : list (str * str)) (timeout : option duration) (ms : list bytes) : list polled :=
  match to_wire_headers (request_head (Stub := Demo.stub) md timeout) with
  | Ok wire =>
      match call_answer (S := Demo.stub) (V := greeter) 100 cut late false path ms wire with
      | Done w => polls_of w
      | Panic => []
      end
  | Err _ => []
  end.

Lemma polls_of_deliver w : delivers w (polls_of w).
Proof.
  unfold polls_of, delivers. split.
  - rewrite forallb_app. cbn [forallb timer_ready negb andb]. rewrite andb_true_r.
    induction (w_chunks w) as [|c cs IH]; [done|]. cbn. exact IH.
  - rewrite omap_app. f_equal. induction (w_chunks w) as [|c cs IH]; [done|]. cbn. by f_equal.
Qed.

Lemma service_replies path hs ms r : greeter_service path ms = Some r -> handle (Service := greeter) path hs ms = r.
Proof.
  intros Hr. cbn [handle greeter Demo.service]. unfold Demo.handled. rewrite Hr.
  unfold greeter_service in Hr. by repeat case_decide; simplify_option_eq.
Qed.
End DemoInstance.

