(* ===== verification/TestEcho.v ===== *)
(** * The test upstream ([rust/crates/testecho/src/lib.rs])

    The Echo service the tests put behind the proxy, and the reflection service that answers
    with raw descriptor bytes. A stream is the list of what it yields. Binding sockets and the
    tonic server around the services are I/O; the generated types are [pb] and [reflect_pb]. *)
From S2P Require Import Prelude RustStd ClientStatus Reflection HttpBuild Transcode WsCodec ReflectLoad.

(** ** The Echo service *)

(** [struct EchoSvc]: [cancel_tx], the signals it was sent, and [flaky_remaining], an atomic
    [u32]. *)
Record EchoSvc : Type := mkEchoSvc { cancel_tx : option nat; flaky_remaining : N }.

(** [EchoSvc::default], [with_cancel], [flaky]. *)
Definition echo_default : EchoSvc := mkEchoSvc None 0.
Definition with_cancel : EchoSvc := mkEchoSvc (Some 0%nat) 0.
Definition flaky (fail_times : N) : EchoSvc := mkEchoSvc None fail_times.

Definition echo_unary (message : str) : result TonicStatus str := Ok message.

(** [stream]; [chat] has the same body. *)
Fixpoint echo_stream (inbound : list (result TonicStatus str)) : list (result TonicStatus str) :=
  match inbound with
  | [] => []
  | Ok message :: inbound' => Ok message :: echo_stream inbound'
  | Err e :: _ => [Err e]
  end.

Definition echo_chat (inbound : list (result TonicStatus str)) : list (result TonicStatus str) := echo_stream inbound.

(** [sleep]: how long it sleeps, and its answer. *)
Definition echo_sleep (millis : N) : duration * result TonicStatus str := (from_millis millis, Ok $"awake").

(** [flaky_unary]: one [fetch_update], then the answer it decides. *)
Definition flaky_unary (self : EchoSvc) (message : str) : result TonicStatus str * EchoSvc :=
  if 0 <? flaky_remaining self then
    (Err (mkTonicStatus Code.Unavailable $"flaky: transient failure"),
     mkEchoSvc (cancel_tx self) (flaky_remaining self - 1))
  else (Ok message, self).

Definition echo_repeat (message : str) (count : N) : list (result TonicStatus str) :=
  repeat (Ok message) (N.to_nat count).

(** [hang]: the stream yields once, then is pending for ever; [None] is [Poll::Pending]. *)
Definition hang_poll (started : bool) : option (result TonicStatus str) * bool :=
  (if started then None else Some (Ok $"started"), true).
(** [CancelGuard::drop], with the stream that holds it, polled or not. *)
Definition hang_drop (self : EchoSvc) : EchoSvc := mkEchoSvc (S <$> cancel_tx self) (flaky_remaining self).

(** A run of [flaky_unary] calls, in the order their [fetch_update]s take effect. *)
Fixpoint flaky_calls (self : EchoSvc) (messages : list str) : list (result TonicStatus str) * EchoSvc :=
  match messages with
  | [] => ([], self)
  | message :: messages' =>
      let '(r, self) := flaky_unary self message in
      let '(rs, self) := flaky_calls self messages' in (r :: rs, self)
  end.

(** ** The reflection service *)

Record RawReflection : Type := mkRawReflection { rr_files : list bytes; rr_services : list str }.

Inductive MessageRequest : Type :=
| ListServices
| FileRequest (r : request)
| OtherRequest.

Inductive MessageResponse : Type :=
| RList (services : list str)
| RFiles (files : list bytes)
| RError (error_code : Z) (error_message : str).

Definition reflection_response (self : RawReflection) (req : MessageRequest) : MessageResponse :=
  match req with
  | ListServices => RList (rr_services self)
  | FileRequest _ => RFiles (rr_files self)
  | OtherRequest => RError 12 $"unimplemented"
  end.

(** [server_reflection_info] *)
Fixpoint server_reflection_info (self : RawReflection) (inbound : list (result TonicStatus MessageRequest))
  : list (result TonicStatus MessageResponse) :=
  match inbound with
  | [] => []
  | Ok req :: inbound' => Ok (reflection_response self req) :: server_reflection_info self inbound'
  | Err e :: _ => [Err e]
  end.

(** [spawn_with_reflection]: the service it registers, panicking on a set that does not split. *)
Definition spawn_with_reflection (descriptor_set : bytes) : run RawReflection :=
  files ← split_files descriptor_set; Done (mkRawReflection files [$"echo.v1.Echo"]).

(** How the loader reads a response: for a file, and for the list of services. *)
Definition as_file_response (r : MessageResponse) : message_response :=
  match r with
  | RFiles files => FileDescriptorResponse files
  | RError code message => ErrorResponse (Code.from_i32 code) message
  | RList _ => OtherResponse
  end.
Definition as_list_response (r : MessageResponse) : list_response :=
  match r with
  | RList names => ListServicesResponse names
  | RError code message => ListErrorResponse (Code.from_i32 code) message
  | RFiles _ => ListOtherResponse
  end.

(** What a stream that sent [reqs] receives. *)
Definition file_answers (self : RawReflection) (reqs : list request) : list (result TonicStatus message_response) :=
  map (fun r => match r with Ok m => Ok (as_file_response m) | Err e => Err e end)
    (server_reflection_info self (map (fun r => Ok (FileRequest r)) reqs)).
Definition list_answer (self : RawReflection) : result TonicStatus (option list_response) :=
  match server_reflection_info self [Ok ListServices] with
  | Ok m :: _ => Ok (Some (as_list_response m))
  | Err e :: _ => Err e
  | [] => Ok None
  end.

(** ** Lemmas *)

(** A flaky service fails as often as it was told to, whatever is asked, and then echoes. *)
Lemma flaky_calls_spec self messages :
  let n := N.to_nat (flaky_remaining self) in
  flaky_calls self messages
  = (repeat (Err (mkTonicStatus Code.Unavailable $"flaky: transient failure")) (n `min` length messages)
       ++ map Ok (drop n messages),
     mkEchoSvc (cancel_tx self) (flaky_remaining self - N.of_nat (length messages))).
Proof.
  revert self. induction messages as [|m ms IH]; intros [tx k]; cbn [flaky_calls flaky_remaining cancel_tx length].
  - rewrite drop_nil, Nat.min_0_r, N.sub_0_r. done.
  - unfold flaky_unary. cbn [flaky_remaining cancel_tx]. destruct (N.ltb_spec 0 k) as [Hk|Hk]; rewrite IH; cbn [flaky_remaining cancel_tx].
    + destruct (N.to_nat k) as [|n] eqn:Hn; [lia|]. replace (N.to_nat (k - 1)) with n by lia.
      cbn [Nat.min repeat drop app]. do 2 f_equal. lia.
    + replace k with 0 by lia. cbn [Nat.min N.to_nat repeat app]. rewrite !drop_0. done.
Qed.

(** Every file of a set is no longer than the set. *)
Lemma split_files_len set raws r : split_files set = Done raws -> r ∈ raws -> blen r <= blen set.
Proof.
  assert (forall l len shift n rest, split_len l len shift = Done (n, rest) -> blen rest <= blen l) as Hlen.
  { induction l as [|b l IH]; intros len shift n rest; cbn [split_len]; [done|]. case_match; [done|].
    case_match; [intros [= _ <-]|intros Hr; specialize (IH _ _ _ _ Hr)]; rewrite blen_cons; lia. }
  unfold split_files. generalize (length set) as fuel. intros fuel. revert set raws.
  induction fuel as [|fuel IH]; intros [|tag set] raws; cbn [split_files_fuel]; try done;
    try (intros [= <-]; by intros ?%elem_of_nil).
  case_decide; [|done]. destruct (split_len set 0 0) as [[n rest]|] eqn:Hs; [|done]. cbn [mbind run_bind].
  apply Hlen in Hs. destruct (N.ltb_spec (blen rest) n); [done|].
  destruct (split_files_fuel fuel (bdrop n rest)) as [out|] eqn:Ho; [|done]. cbn [mbind run_bind].
  intros [= <-] [->|Hr]%elem_of_cons; rewrite blen_cons.
  - rewrite blen_btake by done. lia.
  - specialize (IH _ _ Ho Hr). rewrite blen_bdrop in IH. lia.
Qed.

Section serve.
Context (file_meta : bytes -> result TonicStatus (str * list str)).

(** A raw file under its name, and a list of them. *)
Definition name_of (r : bytes) : str := match file_meta r with Ok (n, _) => n | Err _ => [] end.
Definition file_of (r : bytes) : RawFile :=
  mkRawFile r (match file_meta r with Ok (_, ds) => ds | Err _ => [] end).
Definition indexed (fs : gmap str RawFile) (raws : list bytes) : gmap str RawFile :=
  foldl (fun fs r => <[name_of r := file_of r]> fs) fs raws.

Lemma meta_of r : Prelude.is_ok (file_meta r) = true -> file_meta r = Ok (name_of r, deps (file_of r)).
Proof. unfold name_of, file_of. by destruct (file_meta r) as [[n ds]|]. Qed.

Lemma indexed_lookup raws fs n :
  NoDup (map name_of raws) ->
  indexed fs raws !! n = match filter (fun r => name_of r = n) raws with r :: _ => Some (file_of r) | [] => fs !! n end.
Proof.
  revert fs. induction raws as [|r raws IH]; intros fs Hnd; [done|]. cbn [map] in Hnd. apply NoDup_cons in Hnd as [Hr Hnd].
  unfold indexed in *. cbn [foldl]. rewrite IH by done. rewrite filter_cons.
  destruct (decide (name_of r = n)) as [<-|Hne].
  - destruct (filter _ raws) as [|r' l] eqn:Hf; [by rewrite lookup_insert_eq|].
    exfalso. apply Hr. assert (r' ∈ filter (fun r' => name_of r' = name_of r) raws) as Hin by (rewrite Hf; by left).
    apply list_elem_of_filter in Hin as [<- Hin]. by apply list_elem_of_fmap_2.
  - destruct (filter _ raws); [by rewrite lookup_insert_ne|done].
Qed.

Lemma indexed_spec raws n f :
  NoDup (map name_of raws) ->
  indexed ∅ raws !! n = Some f <-> exists r, r ∈ raws /\ name_of r = n /\ f = file_of r.
Proof.
  intros Hnd. rewrite indexed_lookup by done. split.
  - destruct (filter _ raws) as [|r l] eqn:Hf; [by rewrite lookup_empty|]. intros [= <-]. exists r.
    assert (r ∈ filter (fun r => name_of r = n) raws) as Hin by (rewrite Hf; by left).
    apply list_elem_of_filter in Hin as [? ?]. done.
  - intros (r & Hr & Hn & ->). destruct (filter _ raws) as [|r' l] eqn:Hf.
    + exfalso. assert (r ∈ filter (fun r => name_of r = n) raws) as Hin by (by apply list_elem_of_filter). rewrite Hf in Hin.
      by apply elem_of_nil in Hin.
    + assert (r' ∈ filter (fun r => name_of r = n) raws) as Hin by (rewrite Hf; by left).
      apply list_elem_of_filter in Hin as [Hn' Hin]. do 2 f_equal.
      apply (list_elem_of_lookup_1) in Hr as [i Hi], Hin as [j Hj].
      assert (i = j) as ->; [|congruence].
      apply (NoDup_lookup (map name_of raws) i j n); [done|..]; rewrite list_lookup_fmap, ?Hi, ?Hj; cbn; by f_equal.
Qed.

(** Loading raw files that all parse puts them in the map, and loading them again changes
    nothing once their dependencies are files or were requested. *)
Lemma add_deps_files ds d : files (foldl add_dep d ds) = files d.
Proof. revert d. induction ds as [|x ds IH]; intros d; [done|]. cbn [foldl]. rewrite IH. unfold add_dep. by case_decide. Qed.

Lemma add_raws_files raws d :
  Forall (fun r => Prelude.is_ok (file_meta r) = true) raws ->
  exists d', add_raws file_meta d raws = Ok d' /\ files d' = indexed (files d) raws.
Proof.
  intros Hok. revert d. induction Hok as [|r raws Hr _ IH]; intros d; [by exists d|].
  cbn [add_raws]. unfold add_raw. rewrite (meta_of r Hr). cbn [mbind result_bind].
  match goal with |- context [add_raws file_meta ?d0 raws] => destruct (IH d0) as (d' & Ha & Hf) end.
  exists d'. split; [done|]. rewrite Hf. cbn [files]. rewrite add_deps_files. done.
Qed.

Definition known (raws : list bytes) (d : Driver) : Prop :=
  Forall (fun r => Prelude.is_ok (file_meta r) = true /\ files d !! name_of r = Some (file_of r)
    /\ forall x, x ∈ deps (file_of r) -> x ∈ dom (files d) \/ x ∈ requested d) raws.

Lemma add_deps_known ds d :
  (forall x, x ∈ ds -> x ∈ dom (files d) \/ x ∈ requested d) -> foldl add_dep d ds = d.
Proof.
  induction ds as [|x ds IH]; intros Hx; [done|]. cbn [foldl]. unfold add_dep at 2.
  rewrite decide_False; [apply IH; intros y Hy; apply Hx; by right|].
  intros [Hn Hr]. destruct (Hx x) as [[f Hf]%elem_of_dom|]; [by left|congruence|done].
Qed.

Lemma add_raws_known raws d : known raws d -> add_raws file_meta d raws = Ok d.
Proof.
  intros Hk. induction Hk as [|r raws (Hok & Hf & Hd) _ IH]; [done|]. cbn [add_raws]. unfold add_raw.
  rewrite (meta_of r Hok). cbn [mbind result_bind]. rewrite add_deps_known by done.
  replace (<[name_of r:=mkRawFile r (deps (file_of r))]> (files d)) with (files d); [by destruct d|].
  symmetry. apply insert_id. by rewrite Hf.
Qed.

Lemma drive_known raws d :
  known raws d ->
  drive file_meta (repeat (Ok (FileDescriptorResponse raws)) (pending d)) d = Ok (mkDriver (files d) (requested d) 0 (sent d)).
Proof.
  destruct d as [fs rq p st]. cbn [pending files requested sent]. revert fs rq st.
  induction p as [|p IH]; intros fs rq st Hk; [done|]. cbn [repeat drive pending files requested sent].
  rewrite add_raws_known by done. cbn [mbind result_bind]. by apply IH.
Qed.

Lemma file_answers_files self reqs : file_answers self reqs = repeat (Ok (FileDescriptorResponse (rr_files self))) (length reqs).
Proof. unfold file_answers. induction reqs as [|r reqs IH]; [done|]. cbn. by f_equal. Qed.

(** A stream to the reflection service: its answers to the requests sent drive the loader to
    the end, with every file. *)
Lemma reflection_stream self symbol :
  Forall (fun r => Prelude.is_ok (file_meta r) = true) (rr_files self) -> NoDup (map name_of (rr_files self)) ->
  exists d, drive file_meta (file_answers self (sent d)) (fetch_init symbol) = Ok d
    /\ pending d = 0%nat /\ files d = indexed ∅ (rr_files self).
Proof.
  intros Hok Hnd. set (raws := rr_files self) in *.
  set (d1 := mkDriver ∅ ∅ 0 [FileContainingSymbol symbol]).
  destruct (add_raws_files raws d1 Hok) as (d2 & Ha & Hf). cbn [files d1] in Hf.
  assert (driver_inv file_meta d1 1) as Hi1.
  { destruct (fetch_init_inv file_meta symbol) as [I1 I2 I3 I4 I5]. by split. }
  destruct (add_raws_spec file_meta raws d1 1 d2 Hi1 Ha) as ([I1 I2 I3 _ _] & _ & _).
  assert (known raws d2) as Hk.
  { apply Forall_forall. intros r Hr. rewrite Forall_forall in Hok. split; [by apply Hok|].
    assert (files d2 !! name_of r = Some (file_of r)) as Hl by (rewrite Hf; apply indexed_spec; [done|by exists r]).
    split; [done|]. intros x Hx. by apply (I3 (name_of r) (file_of r)). }
  exists (mkDriver (files d2) (requested d2) 0 (sent d2)). split_and!; [|done|done].
  cbn [sent]. rewrite file_answers_files. fold raws. rewrite I1. cbn [Nat.add repeat drive fetch_init pending files requested sent].
  fold d1. rewrite Ha. cbn [mbind result_bind]. by apply drive_known.
Qed.
End serve.

(** ** Properties *)

(** C28: Reflection round trip. When the test upstream serves a descriptor set (whose files parse
    and have distinct names), the loader's stream to it runs to its end, and [load_all] builds
    the transcoder of a descriptor set that holds exactly the files of the original, in bytes. *)
Theorem reflection_serves_the_set {R : Reflect} (display : TranscodeError -> str)
  (file_meta : bytes -> result TonicStatus (str * list str)) (set : bytes) (raws : list bytes)
  (Hset : split_files set = Done raws) (Hne : set <> []) (Hlen : blen set < two64)
  (Hmeta : Forall (fun r => Prelude.is_ok (file_meta r) = true) raws) (Hnames : NoDup (map (name_of file_meta) raws)) :
  exists self d out,
    spawn_with_reflection set = Done self
    /\ drive file_meta (file_answers self (sent d)) (fetch_init $"echo.v1.Echo") = Ok d /\ pending d = 0%nat
    /\ (forall v1alpha,
          load_all display (list_services (Ok tt) (list_answer self)) v1alpha
            (fun _ => fetch file_meta (Ok tt) (file_answers self (sent d)))
          = map_err (fun e => mkTonicStatus Code.Internal ($"build descriptor pool: " ++ display e))
              (from_file_descriptor_set (file_set (files d))))
    /\ split_files (file_set (files d)) = Done out /\ out ≡ₚ raws.
Proof.
  destruct (reflection_stream file_meta (mkRawReflection raws [$"echo.v1.Echo"]) $"echo.v1.Echo" Hmeta Hnames) as (d & Hd & Hp & Hf).
  cbn [rr_files] in Hf. exists (mkRawReflection raws [$"echo.v1.Echo"]), d, (map (raw_of (files d)) (topo (fun name _ => name) (files d))).
  assert (forall r, r ∈ raws -> files d !! name_of file_meta r = Some (file_of file_meta r)) as Hfiles.
  { intros r Hr. rewrite Hf. apply indexed_spec; [done|]. by exists r. }
  assert (raws <> []) as Hraws.
  { intros ->. destruct set as [|t set]; [done|]. unfold split_files in Hset. cbn [length split_files_fuel] in Hset.
    case_decide; [|done]. destruct (split_len set 0 0) as [[n rest]|]; [|done]. cbn [mbind run_bind] in Hset.
    destruct (_ <? _); [done|]. by destruct (split_files_fuel _ _). }
  assert (fetch file_meta (Ok tt) (file_answers (mkRawReflection raws [$"echo.v1.Echo"]) (sent d)) $"echo.v1.Echo" = Ok (files d)) as Hfetch
    by (unfold fetch; cbn [mbind result_bind]; by rewrite Hd).
  split_and!.
  - unfold spawn_with_reflection. by rewrite Hset.
  - done.
  - done.
  - intros v1alpha. unfold load_all, list_services, list_answer. cbn [mbind result_bind server_reflection_info reflection_response as_list_response rr_services foldl].
    rewrite Hfetch, (right_id_L ∅ (∪)). rewrite decide_False; [done|]. intros He.
    destruct raws as [|r raws]; [done|]. specialize (Hfiles r (list_elem_of_here _ _)). by rewrite He, lookup_empty in Hfiles.
  - apply split_file_set. intros n f. rewrite Hf. intros (r & Hr & _ & ->)%indexed_spec; [|done].
    pose proof (split_files_len set raws r Hset Hr). cbn. lia.
  - rewrite (proj1 (topo_names (files d))).
    transitivity (map (raw_of (files d)) (map (name_of file_meta) raws)).
    + apply fmap_Permutation, NoDup_Permutation; [apply NoDup_elements|done|]. intros n.
      rewrite elem_of_elements, elem_of_dom, list_elem_of_fmap. split.
      * intros [f Hl]. rewrite Hf in Hl. apply indexed_spec in Hl as (r & Hr & <- & _); [|done]. by exists r.
      * intros (r & -> & Hr). exists (file_of file_meta r). by apply Hfiles.
    + rewrite map_map. erewrite map_ext_in; [by rewrite map_id|]. intros r Hr%list_elem_of_In.
      unfold raw_of. by rewrite Hfiles.
Qed.

(** ** Witnesses *)

Lemma reflection_serves_the_set_witness :
  let set := file_set {[ $"a" := mkRawFile $"ab" [$"b"]; $"b" := mkRawFile $"b" [] ]} in
  exists out, split_files set = Done [$"b"; $"ab"] /\ out ≡ₚ [$"b"; $"ab"]
    /\ exists d, split_files (file_set (files d)) = Done out.
Proof.
  intros set.
  assert (split_files set = Done [$"b"; $"ab"]) as Hs by (vm_compute; reflexivity).
  destruct (reflection_serves_the_set (R := Flat.reflect) (fun _ => []) byte_meta set [$"b"; $"ab"] Hs
    ltac:(vm_compute; discriminate) ltac:(vm_compute; reflexivity) ltac:(repeat constructor))
    as (self & d & out & _ & _ & _ & _ & Ho & Hp).
  - apply (bool_decide_unpack _). vm_compute. exact I.
  - exists out. split_and!; [exact Hs|exact Hp|by exists d].
Defined.
