(* ===== verification/Conformance.v ===== *)
(** * The conformance service ([rust/examples/conformance-server/src/main.rs])

    The service the conformance cases drive: what a request's [ResponseDefinition] makes each
    handler answer. The messages are those of [conformance/proto/conformance.proto]; the three
    request messages with a payload and a definition have the same fields and are one record,
    and its [Metadatum] is that of the frames. A handler's answer comes with the delays it
    sleeps; a response stream is the list of what it does. *)
From S2P Require Import Prelude RustStd Http Metadata ClientStatus.

(** [MetadataMap::insert] and [insert_bin]: the key's values are replaced. *)
Class TonicInsert (H : Http) (T : Tonic H) : Type := {
  md_insert : MetadataMap -> str -> AsciiValue -> MetadataMap;
  md_insert_bin : MetadataMap -> str -> BinaryValue -> MetadataMap
}.
Class TonicInsertLaws (H : Http) (T : Tonic H) (I : TonicInsert H T) : Prop := {
  iter_insert m k v k' :
    entries_of k' (md_iter (md_insert m k v)) = if decide (k = k') then [KvAscii k v] else entries_of k' (md_iter m);
  iter_insert_bin m k v k' :
    entries_of k' (md_iter (md_insert_bin m k v)) = if decide (k = k') then [KvBinary k v] else entries_of k' (md_iter m)
}.

(** ** Messages *)

Record StreamMessage : Type := mkStreamMessage { sm_payload : bytes; sm_delay_ms : N }.
Record ResponseDefinition : Type := mkResponseDefinition {
  rd_status_code : N;
  rd_status_message : str;
  rd_headers : list Metadatum;
  rd_trailers : list Metadatum;
  rd_payload : bytes;
  rd_stream_messages : list StreamMessage;
  rd_delay_ms : N;
  rd_oversize_response_bytes : N
}.
Definition rd_default : ResponseDefinition := mkResponseDefinition 0 [] [] [] [] [] 0 0.

(** [UnaryRequest], [ClientStreamRequest] and [BidiStreamRequest]. *)
Record PayloadRequest : Type := mkPayloadRequest {
  req_payload : bytes;
  req_definition : option ResponseDefinition
}.

Record RequestInfo : Type := mkRequestInfo {
  ri_request_headers : list Metadatum;
  ri_timeout_millis : N;
  ri_json : bool
}.
Record ConformancePayload : Type := mkConformancePayload {
  cp_payload : bytes;
  cp_request_info : option RequestInfo
}.
Record ClientStreamResponse : Type := mkClientStreamResponse {
  csr_payload : option ConformancePayload;
  csr_received_count : N;
  csr_received_bytes : N
}.
Record RestUnaryRequest : Type := mkRestUnaryRequest { ru_payload : str; ru_status_code : N; ru_status_message : str }.
Record RestStreamRequest : Type := mkRestStreamRequest { rs_payload : str; rs_count : N; rs_status_code : N }.

Section service.
Context {H : Http} {T : Tonic H} {I : TonicInsert H T}.

(** ** Metadata *)

Definition is_reserved_key (key : str) : bool :=
  match header_name key with Some n => is_denied n | None => false end.

(** The loop body of [metadata_to_conformance]. *)
Definition conformance_entry (kv : KeyAndValueRef AsciiValue BinaryValue) : option Metadatum :=
  match kv with
  | KvAscii key value =>
      if is_reserved_key key then None else (fun s => mkMetadatum key (Some (AsciiVal s))) <$> ascii_to_str value
  | KvBinary key value =>
      if is_reserved_key key then None else (fun b => mkMetadatum key (Some (BinVal b))) <$> binary_to_bytes value
  end.
Definition metadata_to_conformance (meta : MetadataMap) : list Metadatum := omap conformance_entry (md_iter meta).

(** The loop body of [conformance_to_metadata]. *)
Definition insert_metadatum (md : MetadataMap) (m : Metadatum) : MetadataMap :=
  match value m with
  | Some (AsciiVal s) =>
      match ascii_key (key m), ascii_value s with Some k, Some v => md_insert md k v | _, _ => md end
  | Some (BinVal b) => match binary_key (key m) with Some k => md_insert_bin md k (binary_value b) | None => md end
  | None => md
  end.
Definition conformance_to_metadata (items : list Metadatum) : MetadataMap := foldl insert_metadatum md_new items.

Definition observed_timeout_millis (meta : MetadataMap) : run N :=
  d ← parse_grpc_timeout (md_into_headers meta);
  Done (match d with
        | Some d => if as_millis d <=? u32_max then as_millis d else u32_max
        | None => 0
        end).

Definition request_info_from (meta : MetadataMap) : run RequestInfo :=
  millis ← observed_timeout_millis meta; Done (mkRequestInfo (metadata_to_conformance meta) millis false).

(** ** Responses *)

(** [tonic::Status] with its metadata; [as i32] of a [u32] wraps. *)
Record MdStatus : Type := mkMdStatus { ms_code : Code.t; ms_message : str; ms_metadata : MetadataMap }.
Definition as_i32 (n : N) : Z := if n <? 2147483648 then Z.of_N n else (Z.of_N n - 4294967296)%Z.

Definition make_status (rd : ResponseDefinition) : MdStatus :=
  mkMdStatus (Code.from_i32 (as_i32 (rd_status_code rd))) (rd_status_message rd)
    (conformance_to_metadata (rd_trailers rd)).

Definition build_payload (rd : ResponseDefinition) (req_payload : bytes) : bytes :=
  if 0 <? rd_oversize_response_bytes rd then repeat x00 (N.to_nat (rd_oversize_response_bytes rd))
  else if nonempty (rd_payload rd) then rd_payload rd
  else req_payload.

(** [maybe_delay]: the sleeps it makes. *)
Definition maybe_delay (delay_ms : N) : list N := if 0 <? delay_ms then [delay_ms] else [].

(** What a response stream does, up to its end. *)
Inductive stream_event : Type :=
| Slept (ms : N)
| Yield (r : result MdStatus ConformancePayload).

(** [Err::<(), Status>(..)?] when the status is not OK. *)
Definition status_event (code : N) (status : MdStatus) : list stream_event :=
  if code =? 0 then [] else [Yield (Err status)].

(** ** Handlers *)

(** [unary]: the sleeps, and the answer with its initial metadata. *)
Definition unary (meta : MetadataMap) (req : PayloadRequest)
  : run (list N * result MdStatus (MetadataMap * ConformancePayload)) :=
  request_info ← request_info_from meta;
  let rd := default rd_default (req_definition req) in
  Done (maybe_delay (rd_delay_ms rd),
    if rd_status_code rd =? 0 then
      Ok (conformance_to_metadata (rd_headers rd),
          mkConformancePayload (build_payload rd (req_payload req)) (Some request_info))
    else Err (make_status rd)).

(** [server_stream]: its metadata and its stream, which tells the request info first. *)
Fixpoint stream_messages (sms : list StreamMessage) (info : option RequestInfo) : list stream_event :=
  match sms with
  | [] => []
  | sm :: sms' =>
      map Slept (maybe_delay (sm_delay_ms sm)) ++ Yield (Ok (mkConformancePayload (sm_payload sm) info))
      :: stream_messages sms' None
  end.
Definition server_stream (meta : MetadataMap) (definition : option ResponseDefinition)
  : run (MetadataMap * list stream_event) :=
  request_info ← request_info_from meta;
  let rd := default rd_default definition in
  Done (conformance_to_metadata (rd_headers rd),
    stream_messages (rd_stream_messages rd) (Some request_info) ++ status_event (rd_status_code rd) (make_status rd)).

(** The loop of [client_stream]: [rd] once the first message came, the counts saturating. *)
Fixpoint client_loop (inbound : list (result MdStatus PayloadRequest)) (first : bool)
    (rd : option ResponseDefinition) (received_count received_bytes : N)
  : result MdStatus (option ResponseDefinition * N * N) :=
  match inbound with
  | [] => Ok (rd, received_count, received_bytes)
  | Err e :: _ => Err e
  | Ok msg :: inbound' =>
      client_loop inbound' false (if first then req_definition msg else rd)
        (N.min u32_max (received_count + 1)) (N.min u64_max (received_bytes + blen (req_payload msg)))
  end.
Definition client_stream (meta : MetadataMap) (inbound : list (result MdStatus PayloadRequest))
  : run (list N * result MdStatus (MetadataMap * ClientStreamResponse)) :=
  request_info ← request_info_from meta;
  Done (match client_loop inbound true None 0 0 with
        | Err e => ([], Err e)
        | Ok (rd, received_count, received_bytes) =>
            let rd := default rd_default rd in
            (maybe_delay (rd_delay_ms rd),
             if rd_status_code rd =? 0 then
               let payload := if nonempty (rd_payload rd) then rd_payload rd else [] in
               Ok (conformance_to_metadata (rd_headers rd),
                   mkClientStreamResponse (Some (mkConformancePayload payload (Some request_info)))
                     received_count received_bytes)
             else Err (make_status rd))
        end).

(** The stream of [bidi_stream]. *)
Fixpoint bidi_loop (inbound : list (result MdStatus PayloadRequest)) (first : bool) (rd : ResponseDefinition)
    (request_info : RequestInfo) : list stream_event :=
  match inbound with
  | [] => status_event (rd_status_code rd) (make_status rd)
  | Err e :: _ => [Yield (Err e)]
  | Ok msg :: inbound' =>
      let rd := if first then default rd_default (req_definition msg) else rd in
      Yield (Ok (mkConformancePayload (req_payload msg) (if first then Some request_info else None)))
      :: bidi_loop inbound' false rd request_info
  end.
Definition bidi_stream (meta : MetadataMap) (inbound : list (result MdStatus PayloadRequest)) : run (list stream_event) :=
  request_info ← request_info_from meta; Done (bidi_loop inbound true rd_default request_info).

Definition rest_unary (meta : MetadataMap) (req : RestUnaryRequest) : run (result MdStatus ConformancePayload) :=
  request_info ← request_info_from meta;
  Done (if ru_status_code req =? 0 then Ok (mkConformancePayload (ru_payload req) (Some request_info))
        else Err (mkMdStatus (Code.from_i32 (as_i32 (ru_status_code req))) (ru_status_message req) md_new)).

Definition rest_server_stream (meta : MetadataMap) (req : RestStreamRequest) : run (list stream_event) :=
  request_info ← request_info_from meta;
  Done (map (fun i => Yield (Ok (mkConformancePayload (rs_payload req) (if i =? 0 then Some request_info else None))))
          (map N.of_nat (seq 0 (N.to_nat (rs_count req))))
        ++ status_event (rs_status_code req)
             (mkMdStatus (Code.from_i32 (as_i32 (rs_status_code req))) [] md_new)).
End service.
Arguments stream_event H T : clear implicits.
Arguments MdStatus H T : clear implicits.

(** ** What the streams promise *)

(** The messages a stream yields, and the sum of the payload bytes of a list of requests. *)
Definition payloads {H : Http} {T : Tonic H} (evs : list (stream_event H T)) : list ConformancePayload :=
  omap (fun e => match e with Yield (Ok p) => Some p | _ => None end) evs.
Definition payload_bytes (reqs : list PayloadRequest) : N := foldr (fun r n => blen (req_payload r) + n) 0 reqs.

(** One payload per item, the first of them with the request info. *)
Definition answers_of {A} (payload : A -> bytes) (info : RequestInfo) (l : list A) : list ConformancePayload :=
  match l with
  | [] => []
  | x :: l' => mkConformancePayload (payload x) (Some info) :: map (fun x => mkConformancePayload (payload x) None) l'
  end.

(** The definition a stream of requests carries: its first request's. *)
Definition first_definition (reqs : list PayloadRequest) : ResponseDefinition :=
  default rd_default (r ← head reqs; req_definition r).

(** How a request stream ends: at its end, or with an error and nothing after it. *)
Definition ends_with {E A} (tail : list (result E A)) (err : option E) : Prop :=
  match err with Some e => exists rest, tail = Err e :: rest | None => tail = [] end.

(** ** Lemmas *)

Section facts.
Context {H : Http} {T : Tonic H} {I : TonicInsert H T}.

Lemma as_i32_zero n : n < two32 -> as_i32 n = 0%Z <-> n = 0.
Proof. unfold as_i32, two32. intros Hn. destruct (N.ltb_spec n 2147483648); lia. Qed.

Lemma code_ok z : Code.from_i32 z = Code.Ok <-> z = 0%Z.
Proof.
  split; [|by intros ->]. destruct z as [|p|p]; [done| |done].
  do 5 (destruct p as [p|p|]; try done).
Qed.

(** A status that is not zero is never sent as OK. *)
Lemma make_status_not_ok rd : rd_status_code rd < two32 -> rd_status_code rd <> 0 -> ms_code (make_status rd) <> Code.Ok.
Proof. intros Hn Hz Hc. cbn in Hc. apply code_ok, (as_i32_zero _ Hn) in Hc. done. Qed.

Lemma bidi_loop_rest reqs tail err rd info :
  ends_with tail err ->
  bidi_loop (I := I) (map Ok reqs ++ tail) false rd info
  = map (fun r => Yield (Ok (mkConformancePayload (req_payload r) None))) reqs
    ++ match err with Some e => [Yield (Err e)] | None => status_event (rd_status_code rd) (make_status rd) end.
Proof.
  intros Ht. induction reqs as [|r reqs IH]; cbn [map app bidi_loop]; [|by rewrite IH].
  destruct err as [e|]; [by destruct Ht as [rest ->]|by rewrite Ht].
Qed.

Lemma bidi_loop_spec reqs tail err info :
  ends_with tail err ->
  bidi_loop (I := I) (map Ok reqs ++ tail) true rd_default info
  = map (fun p => Yield (Ok p)) (answers_of req_payload info reqs)
    ++ match err with
       | Some e => [Yield (Err e)]
       | None => status_event (rd_status_code (first_definition reqs)) (make_status (first_definition reqs))
       end.
Proof.
  intros Ht. destruct reqs as [|r reqs]; cbn [map app bidi_loop answers_of].
  - destruct err as [e|]; [by destruct Ht as [rest ->]|by rewrite Ht].
  - rewrite (bidi_loop_rest reqs tail err) by done. by rewrite map_map.
Qed.

Lemma payloads_app evs1 evs2 : payloads (evs1 ++ evs2) = payloads (T := T) evs1 ++ payloads evs2.
Proof. unfold payloads. by rewrite omap_app. Qed.
Lemma payloads_yield ps : payloads (T := T) (map (fun p => Yield (Ok p)) ps) = ps.
Proof. induction ps as [|p ps IH]; [done|]. cbn. by f_equal. Qed.
Lemma payloads_slept ms : payloads (T := T) (map Slept ms) = [].
Proof. by induction ms. Qed.
Lemma payloads_status n st : payloads (T := T) (status_event n st) = [].
Proof. unfold status_event. by destruct (n =? 0). Qed.

Lemma stream_messages_rest sms :
  payloads (T := T) (stream_messages sms None) = map (fun sm => mkConformancePayload (sm_payload sm) None) sms.
Proof.
  induction sms as [|sm sms IH]; [done|]. cbn [stream_messages]. rewrite payloads_app, payloads_slept. cbn. by f_equal.
Qed.
Lemma stream_messages_payloads sms info :
  payloads (T := T) (stream_messages sms (Some info)) = answers_of sm_payload info sms.
Proof.
  destruct sms as [|sm sms]; [done|]. cbn [stream_messages]. rewrite payloads_app, payloads_slept. cbn. f_equal.
  apply stream_messages_rest.
Qed.

Lemma client_loop_rest reqs tail (err : option (MdStatus H T)) rd n b :
  ends_with tail err -> n <= u32_max -> b <= u64_max ->
  client_loop (map Ok reqs ++ tail) false rd n b
  = match err with
    | Some e => Err e
    | None => Ok (rd, N.min u32_max (n + blen reqs), N.min u64_max (b + payload_bytes reqs))
    end.
Proof.
  intros Ht. revert n b. induction reqs as [|r reqs IH]; intros n b Hn Hb; cbn [map app client_loop payload_bytes foldr].
  - destruct err as [e|]; [by destruct Ht as [rest ->]|]. rewrite Ht. cbn [client_loop]. rewrite blen_nil, !N.add_0_r, !N.min_r by done. done.
  - rewrite IH by apply N.le_min_l. rewrite blen_cons. fold (payload_bytes reqs). destruct err; [done|].
    assert (forall M x y z, N.min M (N.min M (x + y) + z) = N.min M (x + (y + z))) as Hmin by lia.
    rewrite !Hmin. by rewrite (N.add_comm 1).
Qed.

Lemma client_loop_spec reqs tail (err : option (MdStatus H T)) :
  ends_with tail err ->
  client_loop (map Ok reqs ++ tail) true None 0 0
  = match err with
    | Some e => Err e
    | None => Ok (r ← head reqs; req_definition r, N.min u32_max (blen reqs), N.min u64_max (payload_bytes reqs))
    end.
Proof.
  intros Ht. destruct reqs as [|r reqs]; cbn [map app client_loop payload_bytes foldr head].
  - destruct err as [e|]; [by destruct Ht as [rest ->]|]. by rewrite Ht.
  - rewrite (client_loop_rest reqs tail err) by (done || apply N.le_min_l). rewrite blen_cons. fold (payload_bytes reqs).
    destruct err; [done|]. cbn [mbind option_bind].
    assert (forall M y z, N.min M (N.min M (0 + y) + z) = N.min M (y + z)) as Hmin by lia.
    rewrite !Hmin. by rewrite (N.add_comm 1).
Qed.
End facts.

(** ** Properties *)


(** ** Concrete instance *)

Definition replace_entry (m : list (KeyAndValueRef str bytes)) (e : KeyAndValueRef str bytes) : list (KeyAndValueRef str bytes) :=
  filter (fun e' => kv_name e' <> kv_name e) m ++ [e].

#[export] Instance assoc_insert : TonicInsert AssocHttp.http AssocHttp.tonic :=
  @Build_TonicInsert AssocHttp.http AssocHttp.tonic
    (fun m k v => replace_entry m (KvAscii k v)) (fun m k v => replace_entry m (KvBinary k v)).

#[global] Instance assoc_insert_laws : TonicInsertLaws AssocHttp.http AssocHttp.tonic assoc_insert.
Proof.
  assert (forall m e k, entries_of k (replace_entry m e) = if decide (kv_name e = k) then [e] else entries_of k m) as Hr.
  { intros m e k. unfold replace_entry, entries_of. rewrite filter_app, filter_cons, list_filter_filter.
    destruct (decide (kv_name e = k)) as [<-|Hne]; cbn [app].
    - enough (filter (fun x => kv_name x = kv_name e /\ kv_name x <> kv_name e) m = []) as -> by done.
      induction m as [|x m IH]; [done|]. rewrite filter_cons, decide_False by naive_solver. done.
    - rewrite filter_nil, app_nil_r. apply list_filter_iff. naive_solver. }
  split; intros; apply Hr.
Qed.

Definition demo_info : RequestInfo := mkRequestInfo [mkMetadatum $"x-a" (Some (AsciiVal $"1"))] 0 false.

Definition demo_meta : @MetadataMap AssocHttp.http AssocHttp.tonic :=
  [KvAscii $"x-a" ($"1" : str); KvAscii $"te" ($"trailers" : str)] : list (KeyAndValueRef str bytes).

