(* ===== verification/ConformanceDriver.v ===== *)
(** * The conformance driver ([rust/examples/conformance-driver/src/cases.rs], [run.rs], [main.rs])

    The case model, the native runner and the matcher. Reading a case from YAML is third-party
    code; the client the driver runs is a record of its four call shapes ([ClientCalls] models
    them), the generated codec is the class [Pb], and [fmt_debug] is Rust's [{:?}] of a string. *)
From S2P Require Import Prelude RustStd Http Metadata Framing ClientMetadata ClientStatus ClientCodec ClientState ClientCalls Conformance.

(** ** Cases ([cases.rs]) *)

Inductive Rpc : Set := Unary | ServerStream | ClientStream | BidiStream.
#[global] Instance Rpc_eq_dec : EqDecision Rpc.
Proof. solve_decision. Defined.

Record BytesSpec : Type := mkBytesSpec { bs_text : option str; bs_b64 : option str; bs_zeros : option N }.
Record CaseMetadatum : Type := mkCaseMetadatum { cm_key : str; cm_ascii : option str; cm_b64 : option str }.
Record Requires : Type := mkRequires { rq_max_message_bytes : option N; rq_transcoder : option bool }.
Record StreamMessageSpec : Type := mkStreamMessageSpec { sp_payload : option BytesSpec; sp_delay_ms : option N }.
Record ResponseDefinitionSpec : Type := mkResponseDefinitionSpec {
  ds_status_code : option N;
  ds_status_message : option str;
  ds_headers : option (list CaseMetadatum);
  ds_trailers : option (list CaseMetadatum);
  ds_payload : option BytesSpec;
  ds_stream_messages : option (list StreamMessageSpec);
  ds_delay_ms : option N;
  ds_oversize_response_bytes : option N
}.
Record Message : Type := mkMessage {
  msg_payload : option BytesSpec;
  msg_response_definition : option ResponseDefinitionSpec
}.
Record StatusExpect : Type := mkStatusExpect {
  se_code : option Z;
  se_message_contains : option str;
  se_not_ok : option bool
}.
Record RequestInfoMatcher : Type := mkRequestInfoMatcher {
  im_request_headers_contain : option (list CaseMetadatum);
  im_timeout_present : option bool;
  im_json : option bool
}.
Record PayloadMatcher : Type := mkPayloadMatcher {
  pm_payload : option BytesSpec;
  pm_request_info : option RequestInfoMatcher
}.
(** [http_status], [raw_body] and [raw_messages] are for REST cases, and never read here. *)
Record Expect : Type := mkExpect {
  ex_http_status : option N;
  ex_status : option StatusExpect;
  ex_response : option PayloadMatcher;
  ex_messages : option (list PayloadMatcher);
  ex_message_count : option N;
  ex_received_count : option N;
  ex_headers_contain : option (list CaseMetadatum);
  ex_trailers_contain : option (list CaseMetadatum);
  ex_raw_body : option str;
  ex_raw_messages : option (list str)
}.
(** [rest] is read for its presence only, [transports] never. *)
Record Case : Type := mkCase {
  c_name : str;
  c_rpc : Rpc;
  c_rest : bool;
  c_codecs : option (list str);
  c_transports : option (list str);
  c_timeout_millis : option N;
  c_header_timeout_millis : option N;
  c_request_metadata : option (list CaseMetadatum);
  c_requires : option Requires;
  c_request : option Message;
  c_requests : option (list Message);
  c_cancel_after_messages : option N;
  c_expect : Expect
}.

Definition requires_key (self : Case) : str :=
  let parts :=
    match c_requires self with
    | Some r =>
        match rq_max_message_bytes r with Some max => [$"max:" ++ fmt_dec max] | None => [] end
        ++ (if decide (rq_transcoder r = Some false) then [$"notranscoder"] else [])
    | None => []
    end in
  match parts with [] => $"default" | _ => join $"," parts end.

Definition covers_proto (self : Case) : bool :=
  match c_codecs self with Some codecs => existsb (fun c => bool_decide (c = $"proto")) codecs | None => true end.

(** The generated codec ([prost]) of the messages, at both ends. *)
Class Pb : Type := {
  enc_request : PayloadRequest -> bytes;                     (** [UnaryRequest], [ClientStreamRequest], [BidiStreamRequest] *)
  enc_server_stream_request : option ResponseDefinition -> bytes;
  dec_request : bytes -> option PayloadRequest;
  enc_payload : ConformancePayload -> bytes;
  dec_payload : bytes -> option ConformancePayload;
  dec_client_stream_response : bytes -> option ClientStreamResponse
}.

Class PbLaws (P : Pb) : Prop := {
  request_roundtrip r : dec_request (enc_request r) = Some r;
  payload_roundtrip p : dec_payload (enc_payload p) = Some p
}.

(** [client.unary(..)] and its siblings. *)
Record Client : Type := mkClient {
  call_unary : str -> bytes -> CallOptions -> result Status UnaryResponse;
  call_server_streaming : str -> bytes -> CallOptions -> result Status Streaming;
  call_client_streaming : str -> list bytes -> CallOptions -> result Status UnaryResponse;
  call_bidi_streaming : str -> list bytes -> CallOptions -> result Status Streaming
}.

Section driver.
Context {B : Base64} {P : Pb} (percent_decode_utf8 : str -> option str) (fmt_debug : str -> str).

Definition to_vec (self : BytesSpec) : run bytes :=
  match bs_text self with
  | Some t => Done t
  | None =>
      match bs_b64 self with
      | Some b => match b64_decode b with Some raw => Done raw | None => Panic end
      | None => Done (match bs_zeros self with Some n => repeat x00 (N.to_nat n) | None => [] end)
      end
  end.
(** [spec.map(|p| p.to_vec()).unwrap_or_default()] *)
Definition opt_vec (spec : option BytesSpec) : run bytes :=
  match spec with Some s => to_vec s | None => Done [] end.

(** ** Building the request ([run.rs]) *)

Definition SERVICE : str := $"/grpc.webnext.conformance.v1.ConformanceService".

Inductive Value : Type :=
| VAscii (s : str)
| VBinary (b : bytes).

(** The pair one metadatum of the case gives. *)
Definition metadata_pair (m : CaseMetadatum) : run (list (str * Value)) :=
  match cm_ascii m, cm_b64 m with
  | Some v, _ => Done [(cm_key m, VAscii v)]
  | _, Some b => match b64_decode b with Some raw => Done [(cm_key m, VBinary raw)] | None => Panic end
  | _, _ => Done []
  end.
Definition request_metadata_pairs (c : Case) : run (list (str * Value)) :=
  pairs ← run_map metadata_pair (default [] (c_request_metadata c));
  Done (concat pairs
        ++ match c_header_timeout_millis c with
           | Some ms => [($"grpc-timeout", VAscii (fmt_dec ms ++ $"m"))]
           | None => []
           end).

Definition insert_value (md : ClientMetadata.Metadata) (p : str * Value) : ClientMetadata.Metadata :=
  match p.2 with VAscii v => insert md p.1 v | VBinary raw => insert_bin md p.1 raw end.
Definition request_metadata (c : Case) : run ClientMetadata.Metadata :=
  pairs ← request_metadata_pairs c; Done (foldl insert_value md_empty pairs).

Definition call_options (c : Case) : run CallOptions :=
  md ← request_metadata c;
  let opts := with_metadata co_default md in
  Done (match c_timeout_millis c with Some ms => with_timeout opts (from_millis ms) | None => opts end).

Definition pb_metadatum (m : CaseMetadatum) : run Metadatum :=
  match cm_ascii m, cm_b64 m with
  | Some v, _ => Done (mkMetadatum (cm_key m) (Some (AsciiVal v)))
  | _, Some b =>
      match b64_decode b with Some raw => Done (mkMetadatum (cm_key m) (Some (BinVal raw))) | None => Panic end
  | _, _ => Done (mkMetadatum (cm_key m) None)
  end.
Definition pb_metadata (l : list CaseMetadatum) : run (list Metadatum) := run_map pb_metadatum l.

Definition stream_message_of (m : StreamMessageSpec) : run StreamMessage :=
  payload ← opt_vec (sp_payload m); Done (mkStreamMessage payload (default 0 (sp_delay_ms m))).
Definition definition_of (spec : option ResponseDefinitionSpec) : run (option ResponseDefinition) :=
  match spec with
  | None => Done None
  | Some s =>
      headers ← pb_metadata (default [] (ds_headers s));
      trailers ← pb_metadata (default [] (ds_trailers s));
      payload ← opt_vec (ds_payload s);
      stream_messages ← run_map stream_message_of (default [] (ds_stream_messages s));
      Done (Some (mkResponseDefinition (default 0 (ds_status_code s)) (default [] (ds_status_message s))
        headers trailers payload stream_messages (default 0 (ds_delay_ms s)) (default 0 (ds_oversize_response_bytes s))))
  end.
Definition request_definition (request : option Message) : run (option ResponseDefinition) :=
  definition_of (r ← request; msg_response_definition r).

(** The requests of a streaming call: only the first has its definition. *)
Fixpoint stream_requests (first : bool) (requests : list Message) : run (list PayloadRequest) :=
  match requests with
  | [] => Done []
  | r :: requests' =>
      payload ← opt_vec (msg_payload r);
      definition ← (if first then definition_of (msg_response_definition r) else Done None);
      rest ← stream_requests false requests';
      Done (mkPayloadRequest payload definition :: rest)
  end.

(** ** Running *)

Record Outcome : Type := mkOutcome {
  o_headers : ClientMetadata.Metadata;
  o_trailers : ClientMetadata.Metadata;
  o_messages : list ConformancePayload;
  o_response : option ConformancePayload;
  o_received_count : option N;
  o_status : Status
}.
(** [Outcome::default()] *)
Definition outcome_default : Outcome :=
  mkOutcome md_empty md_empty [] None None (new Code.Unknown $"no status observed").
(** [Err(status) => Outcome { trailers, status, .. }] *)
Definition outcome_failed (status : Status) : Outcome :=
  mkOutcome md_empty (ClientStatus.metadata status) [] None None status.

(** The loop of [drain]; [None] when the fuel runs out. *)
Fixpoint drain_loop (fuel : nat) (c : Case) (hdrs : ClientMetadata.Metadata) (messages : list ConformancePayload)
    (stream : Streaming) : option Outcome :=
  match fuel with
  | O => None
  | S fuel =>
      match message stream with
      | (Ok (Some bytes), stream) =>
          let messages := match dec_payload bytes with Some m => messages ++ [m] | None => messages end in
          match c_cancel_after_messages c with
          | Some n =>
              if n <=? blen messages then
                Some (mkOutcome hdrs md_empty messages None None (new Code.Cancelled $"cancelled by client"))
              else drain_loop fuel c hdrs messages stream
          | None => drain_loop fuel c hdrs messages stream
          end
      | (Ok None, stream) =>
          let status := status percent_decode_utf8 stream in
          Some (mkOutcome hdrs (ClientStatus.metadata status) messages None None status)
      | (Err status, _) => Some (mkOutcome hdrs (ClientStatus.metadata status) messages None None status)
      end
  end.
Definition drain (fuel : nat) (stream : result Status Streaming) (c : Case) : option Outcome :=
  match stream with
  | Ok s => drain_loop fuel c (headers s) [] s
  | Err status => Some (outcome_failed status)
  end.

Definition run_unary (client : Client) (c : Case) : run Outcome :=
  payload ← opt_vec (r ← c_request c; msg_payload r);
  definition ← request_definition (c_request c);
  opts ← call_options c;
  Done (match call_unary client (SERVICE ++ $"/Unary") (enc_request (mkPayloadRequest payload definition)) opts with
        | Ok response =>
            mkOutcome (ur_headers response) (ur_trailers response) [] (dec_payload (ur_message response)) None
              (new Code.Ok [])
        | Err status => outcome_failed status
        end).

Definition run_server_stream (fuel : nat) (client : Client) (c : Case) : run (option Outcome) :=
  definition ← request_definition (c_request c);
  opts ← call_options c;
  Done (drain fuel (call_server_streaming client (SERVICE ++ $"/ServerStream") (enc_server_stream_request definition) opts) c).

Definition run_client_stream (client : Client) (c : Case) : run Outcome :=
  requests ← stream_requests true (default [] (c_requests c));
  opts ← call_options c;
  Done (match call_client_streaming client (SERVICE ++ $"/ClientStream") (map enc_request requests) opts with
        | Ok response =>
            let decoded := dec_client_stream_response (ur_message response) in
            mkOutcome (ur_headers response) (ur_trailers response) [] (d ← decoded; csr_payload d)
              (csr_received_count <$> decoded) (new Code.Ok [])
        | Err status => outcome_failed status
        end).

Definition run_bidi_stream (fuel : nat) (client : Client) (c : Case) : run (option Outcome) :=
  requests ← stream_requests true (default [] (c_requests c));
  opts ← call_options c;
  Done (drain fuel (call_bidi_streaming client (SERVICE ++ $"/BidiStream") (map enc_request requests) opts) c).

Definition run_case (fuel : nat) (client : Client) (c : Case) : run (option Outcome) :=
  match c_rpc c with
  | Unary => Some <$> run_unary client c
  | ServerStream => run_server_stream fuel client c
  | ClientStream => Some <$> run_client_stream client c
  | BidiStream => run_bidi_stream fuel client c
  end.

(** ** Asserting *)

(** Text in a report: [{:?}] of an optional string, and of the code's enumeration. *)
Definition fmt_opt (o : option str) : str :=
  match o with Some s => $"Some(" ++ fmt_debug s ++ $")" | None => $"None" end.
Definition fmt_code (c : Code.t) : str :=
  match c with
  | Code.Ok => $"Ok" | Code.Cancelled => $"Cancelled" | Code.Unknown => $"Unknown"
  | Code.InvalidArgument => $"InvalidArgument" | Code.DeadlineExceeded => $"DeadlineExceeded"
  | Code.NotFound => $"NotFound" | Code.AlreadyExists => $"AlreadyExists"
  | Code.PermissionDenied => $"PermissionDenied" | Code.ResourceExhausted => $"ResourceExhausted"
  | Code.FailedPrecondition => $"FailedPrecondition" | Code.Aborted => $"Aborted"
  | Code.OutOfRange => $"OutOfRange" | Code.Unimplemented => $"Unimplemented" | Code.Internal => $"Internal"
  | Code.Unavailable => $"Unavailable" | Code.DataLoss => $"DataLoss" | Code.Unauthenticated => $"Unauthenticated"
  end.
Definition fmt_Z (z : Z) : str := if (z <? 0)%Z then $"-" ++ fmt_dec (Z.to_N (- z)) else fmt_dec (Z.to_N z).
Definition fmt_bool (b : bool) : str := if b then $"true" else $"false".

(** [char::is_control], over the bytes of valid UTF-8: U+0000-1F, U+7F-9F. *)
Fixpoint has_control (s : str) : bool :=
  match s with
  | [] => false
  | b :: s' =>
      (bN b <? 0x20) || (bN b =? 0x7F)
      || match s' with b' :: _ => (bN b =? 0xC2) && (bN b' <? 0xA0) | [] => false end
      || has_control s'
  end.
Definition render (b : bytes) : str :=
  if utf8_valid b && negb (has_control b) && (blen b <=? 64) then fmt_debug b
  else $"<" ++ fmt_dec (blen b) ++ $" bytes>".

Definition header_matches (h : Metadatum) (want : CaseMetadatum) : bool :=
  if negb (bool_decide (to_ascii_lowercase (key h) = to_ascii_lowercase (cm_key want))) then false
  else match cm_ascii want, cm_b64 want, value h with
  | Some v, _, Some (AsciiVal got) => bool_decide (got = v)
  | _, Some b, Some (BinVal got) => match b64_decode b with Some w => bool_decide (w = got) | None => false end
  | None, None, _ => true
  | _, _, _ => false
  end.

(** The failures about the request the server saw. *)
Definition check_headers_seen (label : str) (info : option RequestInfo) (want : list CaseMetadatum) : list str :=
  flat_map (fun m =>
    if decide ((fun i => existsb (fun h => header_matches h m) (ri_request_headers i)) <$> info <> Some true) then
      [label ++ $": server did not report request header " ++ fmt_debug (cm_key m)]
    else []) want.
Definition check_flag (label what : str) (want : option bool) (got : bool) : list str :=
  match want with
  | Some want =>
      if bool_decide (got = want) then []
      else [label ++ $": " ++ what ++ $" want " ++ fmt_bool want ++ $", got " ++ fmt_bool got]
  | None => []
  end.
Definition check_request_info (label : str) (matcher : RequestInfoMatcher) (info : option RequestInfo) : list str :=
  check_headers_seen label info (default [] (im_request_headers_contain matcher))
  ++ check_flag label $"timeout_present" (im_timeout_present matcher)
       (default false ((fun i => 0 <? ri_timeout_millis i) <$> info))
  ++ check_flag label $"json" (im_json matcher) (default false (ri_json <$> info)).

Definition check_payload (label : str) (matcher : PayloadMatcher) (got : option ConformancePayload) : run (list str) :=
  match got with
  | None => Done [label ++ $": no payload received"]
  | Some got =>
      payload_fails ←
        match pm_payload matcher with
        | Some spec =>
            want ← to_vec spec;
            Done (if bool_decide (cp_payload got = want) then []
                  else [label ++ $" payload: want " ++ render want ++ $", got " ++ render (cp_payload got)])
        | None => Done []
        end;
      Done (payload_fails
            ++ match pm_request_info matcher with
               | Some ri => check_request_info label ri (cp_request_info got)
               | None => []
               end)
  end.

(** One turn of the loop of [check_metadata]. *)
Definition check_metadatum (label : str) (got : ClientMetadata.Metadata) (m : CaseMetadatum) : run (list str) :=
  match cm_ascii m, cm_b64 m with
  | Some v, _ =>
      Done (if bool_decide (get got (cm_key m) = Some v) then []
            else [label ++ $"[" ++ cm_key m ++ $"]: want " ++ fmt_debug v ++ $", got " ++ fmt_opt (get got (cm_key m))])
  | _, Some b =>
      match b64_decode b with
      | None => Panic
      | Some expected =>
          Done (if bool_decide (get_bin got (cm_key m) = Some expected) then []
                else [label ++ $"[" ++ cm_key m ++ $"]: want " ++ render expected ++ $", got "
                      ++ match get_bin got (cm_key m) with Some raw => render raw | None => $"nothing" end])
      end
  | _, _ =>
      Done (if bool_decide (get got (cm_key m) = None /\ get_bin got (cm_key m) = None)
            then [label ++ $"[" ++ cm_key m ++ $"]: missing"] else [])
  end.
Definition check_metadata (label : str) (want : option (list CaseMetadatum)) (got : ClientMetadata.Metadata) : run (list str) :=
  fails ← run_map (check_metadatum label got) (default [] want); Done (concat fails).

Definition check_status (want : StatusExpect) (got : Status) : list str :=
  (if decide (se_not_ok want = Some true) then
     if is_ok got then [$"expected a non-OK status, got OK"] else []
   else match se_code want with
   | Some code =>
       if bool_decide (Code.to_Z (ClientStatus.code got) = code) then []
       else [$"status: want " ++ fmt_Z code ++ $", got " ++ fmt_Z (Code.to_Z (ClientStatus.code got)) ++ $" ("
             ++ fmt_code (ClientStatus.code got) ++ $": " ++ [x22] ++ ClientStatus.message got ++ [x22] ++ $")"]
   | None => []
   end)
  ++ match se_message_contains want with
     | Some sub =>
         if contains sub (ClientStatus.message got) then []
         else [$"status message: want it to contain " ++ fmt_debug sub ++ $", got " ++ fmt_debug (ClientStatus.message got)]
     | None => []
     end.

(** The [messages] of a case: [want] is matched from the [i]-th message on. *)
Fixpoint check_each (i : nat) (want : list PayloadMatcher) (got : list ConformancePayload) : run (list str) :=
  match want with
  | [] => Done []
  | m :: want' =>
      fails ← check_payload ($"messages[" ++ fmt_dec (N.of_nat i) ++ $"]") m (got !! i);
      rest ← check_each (S i) want' got;
      Done (fails ++ rest)
  end.

Definition check_messages (want : option (list PayloadMatcher)) (got : list ConformancePayload) : run (list str) :=
  match want with
  | None => Done []
  | Some want =>
      fails ← check_each 0 want got;
      Done ((if blen got <? blen want then
               [$"messages: want at least " ++ fmt_dec (blen want) ++ $", got " ++ fmt_dec (blen got)] else []) ++ fails)
  end.

Definition check_counts (e : Expect) (o : Outcome) : list str :=
  match ex_message_count e with
  | Some n =>
      if blen (o_messages o) =? n then []
      else [$"message_count: want " ++ fmt_dec n ++ $", got " ++ fmt_dec (blen (o_messages o))]
  | None => []
  end
  ++ match ex_received_count e with
     | Some n =>
         match o_received_count o with
         | Some got =>
             if got =? n then [] else [$"received_count: want " ++ fmt_dec n ++ $", got " ++ fmt_dec got]
         | None => [$"received_count: want " ++ fmt_dec n ++ $", but none was reported"]
         end
     | None => []
     end.

Definition check (c : Case) (o : Outcome) : run (list str) :=
  let e := c_expect c in
  response ← match ex_response e with Some m => check_payload $"response" m (o_response o) | None => Done [] end;
  messages ← check_messages (ex_messages e) (o_messages o);
  headers ← check_metadata $"headers" (ex_headers_contain e) (o_headers o);
  trailers ← check_metadata $"trailers" (ex_trailers_contain e) (o_trailers o);
  Done (match ex_status e with Some want => check_status want (o_status o) | None => [] end
        ++ response ++ messages ++ check_counts e o ++ headers ++ trailers).

(** ** The run ([main.rs]) *)

(** [stubs::skip_reason] ([stubs.rs]), and [skip_reason]. *)
Definition stubs_skip_reason (c : Case) : option str :=
  match c_header_timeout_millis c with
  | Some _ =>
      Some $"server-enforced deadline — the adapter arms a local timer from `grpc-timeout`, so the client would end the call regardless of the server"
  | None => None
  end.
Definition skip_reason (c : Case) (profile : str) (stubs : bool) : option str :=
  if c_rest c then Some $"REST case — driven by a raw HTTP client, not a grpc-webnext one"
  else if negb (covers_proto c) then Some $"json-only case — this client has no JSON codec (h2ts is binary)"
  else if negb (bool_decide (requires_key c = profile)) then
    Some ($"needs server profile " ++ fmt_debug (requires_key c) ++ $", this run is " ++ fmt_debug profile)
  else if stubs then stubs_skip_reason c
  else None.
End driver.

(** ** Lemmas: the matcher *)

Section matcher.
Context {B : Base64} (fmt_debug : str -> str).

(** What a case expects of a status, of the request the server reports, of a payload and of
    metadata. *)
Definition status_met (want : StatusExpect) (got : Status) : Prop :=
  (if decide (se_not_ok want = Some true) then is_ok got = false
   else forall code, se_code want = Some code -> Code.to_Z (ClientStatus.code got) = code)
  /\ forall sub, se_message_contains want = Some sub -> exists a b, ClientStatus.message got = a ++ sub ++ b.

Definition info_met (m : RequestInfoMatcher) (info : option RequestInfo) : Prop :=
  (forall ms want, im_request_headers_contain m = Some ms -> want ∈ ms ->
     exists i h, info = Some i /\ h ∈ ri_request_headers i /\ header_matches h want = true)
  /\ (forall b, im_timeout_present m = Some b -> (b = true <-> exists i, info = Some i /\ 0 < ri_timeout_millis i))
  /\ (forall b, im_json m = Some b -> (b = true <-> exists i, info = Some i /\ ri_json i = true)).

Definition payload_met (m : PayloadMatcher) (got : option ConformancePayload) : Prop :=
  exists p, got = Some p
    /\ (forall spec, pm_payload m = Some spec -> to_vec spec = Done (cp_payload p))
    /\ (forall ri, pm_request_info m = Some ri -> info_met ri (cp_request_info p)).

Definition metadatum_met (got : ClientMetadata.Metadata) (m : CaseMetadatum) : Prop :=
  match cm_ascii m, cm_b64 m with
  | Some v, _ => get got (cm_key m) = Some v
  | None, Some b => exists raw, b64_decode b = Some raw /\ get_bin got (cm_key m) = Some raw
  | None, None => ~ (get got (cm_key m) = None /\ get_bin got (cm_key m) = None)
  end.

Record met (e : Expect) (o : Outcome) : Prop := {
  met_status want : ex_status e = Some want -> status_met want (o_status o);
  met_response m : ex_response e = Some m -> payload_met m (o_response o);
  met_messages ms i m : ex_messages e = Some ms -> ms !! i = Some m -> payload_met m (o_messages o !! i);
  met_message_count n : ex_message_count e = Some n -> blen (o_messages o) = n;
  met_received_count n : ex_received_count e = Some n -> o_received_count o = Some n;
  met_headers ms m : ex_headers_contain e = Some ms -> m ∈ ms -> metadatum_met (o_headers o) m;
  met_trailers ms m : ex_trailers_contain e = Some ms -> m ∈ ms -> metadatum_met (o_trailers o) m
}.

Lemma guard_nil {A} (b : bool) (x : A) l : (if b then [] else x :: l) = [] <-> b = true.
Proof. by destruct b. Qed.

Lemma bind_done_nil {A C} (m : run A) (f : A -> run (list C)) (P : A -> Prop) :
  (forall a, m = Done a -> f a = Done [] <-> P a) ->
  (a ← m; f a) = Done [] <-> exists a, m = Done a /\ P a.
Proof.
  intros Hf. destruct m as [a|]; cbn [mbind run_bind].
  - rewrite (Hf a eq_refl). split; [by exists a|by intros (? & [= <-] & ?)].
  - split; [done|by intros (? & ? & _)].
Qed.

Lemma run_map_nil {A C} (f : A -> run (list C)) l :
  (fails ← run_map f l; Done (concat fails)) = Done [] <-> forall x, x ∈ l -> f x = Done [].
Proof.
  induction l as [|x l IH]; [split; [by intros _ ? ?%elem_of_nil|done]|].
  setoid_rewrite elem_of_cons. cbn [run_map]. destruct (f x) as [y|] eqn:Hx; cbn [mbind run_bind].
  - destruct (run_map f l) as [ys|]; cbn [mbind run_bind concat] in *.
    + destruct y; cbn [app].
      * rewrite IH. split; [intros Hl z [->|Hz]; [done|by apply Hl]|intros Hl z Hz; apply Hl; by right].
      * split; [done|]. intros Hl. specialize (Hl x (or_introl eq_refl)). congruence.
    + split; [done|]. intros Hl. apply IH. intros z Hz. apply Hl. by right.
  - split; [done|]. intros Hl. specialize (Hl x (or_introl eq_refl)). congruence.
Qed.

Lemma check_metadatum_met label got m : check_metadatum fmt_debug label got m = Done [] <-> metadatum_met got m.
Proof.
  unfold check_metadatum, metadatum_met. destruct (cm_ascii m) as [v|].
  - case_bool_decide; by split.
  - destruct (cm_b64 m) as [b|].
    + destruct (b64_decode b) as [raw|]; [|split; [done|by intros (? & ? & _)]].
      transitivity (get_bin got (cm_key m) = Some raw).
      * case_bool_decide; by split.
      * split; [by exists raw|by intros (? & [= <-] & ?)].
    + case_bool_decide; by split.
Qed.

Lemma check_metadata_met label want got :
  check_metadata fmt_debug label want got = Done []
  <-> forall ms m, want = Some ms -> m ∈ ms -> metadatum_met got m.
Proof.
  unfold check_metadata. rewrite run_map_nil. setoid_rewrite check_metadatum_met. destruct want as [ms|]; cbn [default].
  - split; [by intros Hl ? m [= <-]; apply Hl|intros Hl m; by apply Hl].
  - split; [done|by intros _ ? ?%elem_of_nil].
Qed.

Lemma check_status_met want got : check_status fmt_debug want got = [] <-> status_met want got.
Proof.
  unfold check_status, status_met. split.
  - intros [Hc Hm]%app_eq_nil. split.
    + case_decide; [by destruct (is_ok got)|]. intros code Hcode. rewrite Hcode in Hc. by apply guard_nil, bool_decide_eq_true in Hc.
    + intros sub Hsub. rewrite Hsub in Hm. by apply guard_nil, contains_spec in Hm.
  - intros [Hc Hm]. apply app_nil. split.
    + case_decide; [by rewrite Hc|]. destruct (se_code want) as [code|]; [|done]. by apply guard_nil, bool_decide_eq_true, Hc.
    + destruct (se_message_contains want) as [sub|]; [|done]. by apply guard_nil, contains_spec, Hm.
Qed.

Lemma flat_map_nil {A C} (f : A -> list C) l : flat_map f l = [] <-> forall x, x ∈ l -> f x = [].
Proof.
  induction l as [|x l IH]; cbn [flat_map]; [split; [by intros _ ? ?%elem_of_nil|done]|].
  rewrite app_nil, IH. setoid_rewrite elem_of_cons. split; [by intros [Hx Hl] z [->|Hz]; auto|]. intros Hl. auto.
Qed.

Lemma check_flag_met label what want (got : bool) P :
  (got = true <-> P) -> check_flag label what want got = [] <-> forall b, want = Some b -> (b = true <-> P).
Proof.
  intros HP. unfold check_flag. destruct want as [b|]; [|by split].
  rewrite guard_nil, bool_decide_eq_true. split; [by intros -> ? [= <-]|].
  intros Hb. specialize (Hb b eq_refl). destruct got, b; intuition congruence.
Qed.

Lemma check_request_info_met label m info : check_request_info fmt_debug label m info = [] <-> info_met m info.
Proof.
  unfold check_request_info, info_met. rewrite !app_nil. f_equiv; [|f_equiv].
  - unfold check_headers_seen. rewrite flat_map_nil.
    assert (forall want, (if decide ((fun i => existsb (fun h => header_matches h want) (ri_request_headers i)) <$> info <> Some true)
        then [label ++ $": server did not report request header " ++ fmt_debug (cm_key want)] else []) = []
      <-> exists i h, info = Some i /\ h ∈ ri_request_headers i /\ header_matches h want = true) as Hone.
    { intros want. case_decide as Hd.
      - split; [done|]. intros (i & h & -> & Hh & Hm). destruct Hd. cbn. f_equal. apply existsb_exists.
        exists h. split; [by apply list_elem_of_In|done].
      - split; [intros _|done]. destruct info as [i|]; cbn in Hd; [|discriminate].
        injection Hd as (h & Hh%list_elem_of_In & Hm)%existsb_exists. by exists i, h. }
    setoid_rewrite Hone. destruct (im_request_headers_contain m) as [ms|]; cbn [default].
    + split; [by intros Hl ? want [= <-]; apply Hl|intros Hl want; by apply Hl].
    + split; [done|by intros _ ? ?%elem_of_nil].
  - apply check_flag_met. destruct info as [i|]; cbn; [|split; [done|by intros (? & [=] & _)]].
    rewrite N.ltb_lt. split; [by exists i|by intros (? & [= <-] & ?)].
  - apply check_flag_met. destruct info as [i|]; cbn; [|split; [done|by intros (? & [=] & _)]].
    split; [by exists i|by intros (? & [= <-] & ?)].
Qed.

Lemma check_payload_met label m got : check_payload fmt_debug label m got = Done [] <-> payload_met m got.
Proof.
  unfold check_payload, payload_met. destruct got as [p|]; [|split; [done|by intros (? & [=] & _)]].
  transitivity ((forall spec, pm_payload m = Some spec -> to_vec spec = Done (cp_payload p))
    /\ forall ri, pm_request_info m = Some ri -> info_met ri (cp_request_info p)).
  2: { split; [by exists p|by intros (? & [= <-] & ?)]. }
  assert (forall l, Done (l ++ match pm_request_info m with
      | Some ri => check_request_info fmt_debug label ri (cp_request_info p) | None => [] end) = Done []
    <-> l = [] /\ forall ri, pm_request_info m = Some ri -> info_met ri (cp_request_info p)) as Hri.
  { intros l. transitivity (l = [] /\ match pm_request_info m with
      | Some ri => check_request_info fmt_debug label ri (cp_request_info p) | None => [] end = []).
    { rewrite <- app_nil. split; [by intros [= Hl]|by intros ->]. }
    f_equiv. destruct (pm_request_info m) as [ri|]; [|by split]. rewrite check_request_info_met.
    split; [by intros ? ? [= <-]|by auto]. }
  destruct (pm_payload m) as [spec|]; cbn [mbind run_bind].
  - destruct (to_vec spec) as [want|] eqn:Hw; cbn [mbind run_bind].
    + rewrite Hri, guard_nil, bool_decide_eq_true. f_equiv. split; [by intros -> ? [= <-]|].
      intros Hs. specialize (Hs spec eq_refl). congruence.
    + split; [done|]. intros [Hs _]. specialize (Hs spec eq_refl). congruence.
  - rewrite Hri. f_equiv. by split.
Qed.

Lemma check_each_met i want got :
  check_each fmt_debug i want got = Done [] <-> forall j m, want !! j = Some m -> payload_met m (got !! (i + j)%nat).
Proof.
  revert i. induction want as [|m want IH]; intros i; cbn [check_each]; [by split|].
  set (label := $"messages[" ++ _). destruct (check_payload fmt_debug label m (got !! i)) as [fails|] eqn:Hc; cbn [mbind run_bind].
  - transitivity (fails = [] /\ check_each fmt_debug (S i) want got = Done []).
    { destruct (check_each fmt_debug (S i) want got) as [rest|]; cbn [mbind run_bind]; [|by split; [|intros []]].
      split; [by intros [= [-> ->]%app_eq_nil]|by intros [-> [= ->]]]. }
    rewrite IH. split.
    + intros [-> Hr] [|j] m'; cbn [lookup list_lookup]; [intros [= <-]|intros Hj].
      * rewrite Nat.add_0_r. by apply (check_payload_met label).
      * replace (i + S j)%nat with (S i + j)%nat by lia. by apply Hr.
    + intros Hl. split.
      * specialize (Hl 0%nat m eq_refl). rewrite Nat.add_0_r in Hl. apply (check_payload_met label) in Hl. congruence.
      * intros j m' Hj. replace (S i + j)%nat with (i + S j)%nat by lia. by apply Hl.
  - split; [done|]. intros Hl. specialize (Hl 0%nat m eq_refl). rewrite Nat.add_0_r in Hl. apply (check_payload_met label) in Hl. congruence.
Qed.

Lemma check_messages_met want got :
  check_messages fmt_debug want got = Done []
  <-> forall ms i m, want = Some ms -> ms !! i = Some m -> payload_met m (got !! i).
Proof.
  unfold check_messages. destruct want as [ms|]; [|by split].
  pose proof (check_each_met 0 ms got) as He. destruct (check_each fmt_debug 0 ms got) as [fails|]; cbn [mbind run_bind].
  - split.
    + intros [= [Hn ->]%app_eq_nil] ? i m [= <-] Hm. by apply (proj1 He eq_refl).
    + intros Hl. assert (Done fails = Done []) as [= ->] by (apply He; intros i m Hm; by eapply Hl). rewrite app_nil_r.
      destruct (N.ltb_spec (blen got) (blen ms)) as [Hlt|]; [|done]. exfalso.
      unfold blen in Hlt. destruct (ms !! length got) as [m|] eqn:Hm; [|apply lookup_ge_None in Hm; lia].
      destruct (Hl ms (length got) m eq_refl Hm) as (p & Hp & _). apply lookup_lt_Some in Hp. lia.
  - split; [done|]. intros Hl. apply He. intros i m Hm. by eapply Hl.
Qed.

Lemma check_counts_met e o :
  check_counts e o = []
  <-> (forall n, ex_message_count e = Some n -> blen (o_messages o) = n)
      /\ (forall n, ex_received_count e = Some n -> o_received_count o = Some n).
Proof.
  unfold check_counts. rewrite app_nil. f_equiv.
  - destruct (ex_message_count e) as [n|]; [|by split]. rewrite guard_nil, N.eqb_eq. split; [by intros ? ? [= <-]|auto].
  - destruct (ex_received_count e) as [n|]; [|by split]. destruct (o_received_count o) as [got|].
    + rewrite guard_nil, N.eqb_eq. split; [by intros -> ? [= <-]|]. intros Hn. specialize (Hn n eq_refl). congruence.
    + split; [done|]. intros Hn. specialize (Hn n eq_refl). congruence.
Qed.
End matcher.

(** ** Lemmas: the run *)

Section runs.
Context {B : Base64} {P : Pb} (percent_decode_utf8 : str -> option str).

(** The messages the driver has when it stops reading, and whether it cancelled. *)
Fixpoint read_upto (cancel : option N) (acc : list ConformancePayload) (ms : list bytes) : list ConformancePayload * bool :=
  match ms with
  | [] => (acc, false)
  | m :: ms' =>
      let acc := match dec_payload m with Some p => acc ++ [p] | None => acc end in
      if (match cancel with Some n => n <=? blen acc | None => false end) then (acc, true) else read_upto cancel acc ms'
  end.

(** The outcome of reading a stream that delivers [ms] and then [st]. *)
Definition read_outcome (cancel : option N) (hdrs : ClientMetadata.Metadata) (acc : list ConformancePayload)
    (ms : list bytes) (st : Status) : Outcome :=
  let '(out, cancelled) := read_upto cancel acc ms in
  if cancelled then mkOutcome hdrs md_empty out None None (new Code.Cancelled $"cancelled by client")
  else mkOutcome hdrs (ClientStatus.metadata st) out None None st.

Lemma drain_finish fuel c hdrs acc s ms st s' :
  finish percent_decode_utf8 fuel s = Some (ms, st, s') ->
  drain_loop percent_decode_utf8 fuel c hdrs acc s = Some (read_outcome (c_cancel_after_messages c) hdrs acc ms st).
Proof.
  revert acc s ms. induction fuel as [|fuel IH]; intros acc s ms; [done|]. cbn [finish drain_loop].
  destruct (message s) as [[[m|]|e] s1].
  - destruct (finish percent_decode_utf8 fuel s1) as [[[ms1 st1] s1']|] eqn:Hf; [|done]. intros [= <- <- <-].
    unfold read_outcome. cbn [read_upto]. cbv zeta. set (acc' := match dec_payload m with Some p => acc ++ [p] | None => acc end).
    specialize (IH acc' s1 ms1 Hf). unfold read_outcome in IH. destruct (c_cancel_after_messages c) as [n|].
    + by destruct (n <=? blen acc').
    + done.
  - by intros [= <- <- <-].
  - by intros [= <- <- <-].
Qed.

(** When every message decodes, the driver stops at the point asked for, one message at least. *)
Lemma read_upto_all {PL : PbLaws P} cancel acc ps :
  read_upto cancel acc (map enc_payload ps)
  = match cancel with
    | Some n =>
        let k := N.to_nat (N.max 1 (n - blen acc)) in
        if decide (k <= length ps)%nat then (acc ++ take k ps, true) else (acc ++ ps, false)
    | None => (acc ++ ps, false)
    end.
Proof.
  revert acc. induction ps as [|p ps IH]; intros acc; cbn [map read_upto].
  - destruct cancel as [n|]; [|by rewrite app_nil_r]. rewrite app_nil_r. cbn zeta. rewrite decide_False; [done|cbn; lia].
  - rewrite payload_roundtrip, IH. destruct cancel as [n|]; [|by rewrite <- app_assoc]. cbn zeta.
    rewrite blen_app. change (blen [p]) with 1. cbn [length].
    destruct (N.leb_spec n (blen acc + 1)).
    + replace (N.to_nat (N.max 1 (n - blen acc))) with 1%nat by lia. rewrite decide_True by lia. cbn [take]. by rewrite firstn_O.
    + destruct (N.to_nat (N.max 1 (n - blen acc))) as [|k] eqn:Hk; [lia|].
      replace (N.to_nat (N.max 1 (n - (blen acc + 1)))) with k by lia. cbn [take].
      rewrite <- !app_assoc. cbn [app]. do 2 case_decide; try lia; done.
Qed.

(** A response stream whose body is framed payloads, in any chunks, read by the driver. *)
Lemma drain_framed {PL : PbLaws P} c resp opts datas ps k :
  co_max_message_bytes opts = None -> rs_body resp = map Ok datas ->
  concat datas = concat (map encode_message (map enc_payload ps)) ->
  Forall (fun p => blen (enc_payload p) < two32) ps ->
  drain percent_decode_utf8 (S (length ps) + k) (Ok (streaming_new resp opts None)) c
  = Some (read_outcome (c_cancel_after_messages c) (ClientMetadata.from_headers (rs_headers resp)) []
      (map enc_payload ps) (trailers_status percent_decode_utf8 (rs_trailers resp))).
Proof.
  intros Hmax Hb Hbytes Hlen.
  pose proof (finish_spec percent_decode_utf8 (rs_body resp) (ClientMetadata.from_headers (rs_headers resp))
    (rs_trailers resp) None [] None eq_refl) as Hf.
  rewrite Hb, cut_none in Hf. cbn [app] in Hf. rewrite Hbytes, parse_frames in Hf by (apply Forall_map; eapply Forall_impl; [exact Hlen|]; by intros ? ?).
  destruct Hf as (s' & _ & Hf). specialize (Hf k). rewrite length_map in Hf.
  unfold drain, streaming_new, deframer_new. rewrite Hmax, Hb. cbn [headers].
  rewrite (drain_finish _ _ _ _ _ _ _ _ Hf). done.
Qed.

Lemma call_options_max c opts : call_options c = Done opts -> co_max_message_bytes opts = None.
Proof.
  unfold call_options. destruct (request_metadata c) as [md|]; [|done]. cbn [mbind run_bind].
  intros [= <-]. by destruct (c_timeout_millis c).
Qed.
End runs.

(** ** Properties *)

(** The driver's verdict is exact: it reports no failure just when the outcome meets every
    expectation of the case. *)
Theorem verdict_exact {B : Base64} (fmt_debug : str -> str) (c : Case) (o : Outcome) :
  check fmt_debug c o = Done [] <-> met (c_expect c) o.
Proof.
  unfold check. set (e := c_expect c).
  pose proof (check_messages_met fmt_debug (ex_messages e) (o_messages o)) as Hms.
  pose proof (check_metadata_met fmt_debug $"headers" (ex_headers_contain e) (o_headers o)) as Hh.
  pose proof (check_metadata_met fmt_debug $"trailers" (ex_trailers_contain e) (o_trailers o)) as Ht.
  pose proof (check_counts_met e o) as Hc.
  assert (match ex_response e with Some m => check_payload fmt_debug $"response" m (o_response o) | None => Done [] end = Done []
    <-> forall m, ex_response e = Some m -> payload_met m (o_response o)) as Hr.
  { destruct (ex_response e) as [m|]; [|by split]. rewrite check_payload_met. split; [by intros ? ? [= <-]|auto]. }
  assert (match ex_status e with Some want => check_status fmt_debug want (o_status o) | None => [] end = []
    <-> forall want, ex_status e = Some want -> status_met want (o_status o)) as Hs.
  { destruct (ex_status e) as [want|]; [|by split]. rewrite check_status_met. split; [by intros ? ? [= <-]|auto]. }
  transitivity ((match ex_status e with Some want => check_status fmt_debug want (o_status o) | None => [] end) = []
    /\ match ex_response e with Some m => check_payload fmt_debug $"response" m (o_response o) | None => Done [] end = Done []
    /\ check_messages fmt_debug (ex_messages e) (o_messages o) = Done [] /\ check_counts e o = []
    /\ check_metadata fmt_debug $"headers" (ex_headers_contain e) (o_headers o) = Done []
    /\ check_metadata fmt_debug $"trailers" (ex_trailers_contain e) (o_trailers o) = Done []).
  - destruct (match ex_response e with Some _ => _ | None => _ end) as [r|]; [|by split; [|intros (_ & ? & _)]].
    destruct (check_messages _ _ _) as [ms|]; [|by split; [|intros (_ & _ & ? & _)]].
    destruct (check_metadata _ $"headers" _ _) as [hs|]; [|by split; [|intros (_ & _ & _ & _ & ? & _)]].
    destruct (check_metadata _ $"trailers" _ _) as [ts|]; [|by split; [|intros (_ & _ & _ & _ & _ & ?)]].
    cbn [mbind run_bind]. split.
    + intros [= (-> & (-> & (-> & (-> & [-> ->]%app_nil)%app_nil)%app_nil)%app_nil)%app_nil]. done.
    + by intros (-> & [= ->] & [= ->] & -> & [= ->] & [= ->]).
  - rewrite Hs, Hr, Hms, Hc, Hh, Ht. split.
    + intros (? & ? & ? & [? ?] & ? & ?). by split.
    + intros []. by split_and!.
Qed.


(** ** Concrete instance and witnesses *)

(** A codec of the messages, from stdpp's [encode]. *)
Module CaseCodec.
#[export] Instance StreamMessage_eq_dec : EqDecision StreamMessage.
Proof. solve_decision. Defined.
#[export] Instance StreamMessage_countable : Countable StreamMessage.
Proof.
  apply (inj_countable' (fun m => (sm_payload m, sm_delay_ms m))
    (fun x => mkStreamMessage x.1 x.2)).
  by intros [].
Defined.
#[export] Instance ResponseDefinition_eq_dec : EqDecision ResponseDefinition.
Proof. solve_decision. Defined.
#[export] Instance ResponseDefinition_countable : Countable ResponseDefinition.
Proof.
  apply (inj_countable' (fun m => (rd_status_code m, rd_status_message m, rd_headers m, rd_trailers m, rd_payload m, rd_stream_messages m, rd_delay_ms m, rd_oversize_response_bytes m))
    (fun x => mkResponseDefinition x.1.1.1.1.1.1.1 x.1.1.1.1.1.1.2 x.1.1.1.1.1.2 x.1.1.1.1.2 x.1.1.1.2 x.1.1.2 x.1.2 x.2)).
  by intros [].
Defined.
#[export] Instance PayloadRequest_eq_dec : EqDecision PayloadRequest.
Proof. solve_decision. Defined.
#[export] Instance PayloadRequest_countable : Countable PayloadRequest.
Proof.
  apply (inj_countable' (fun m => (req_payload m, req_definition m))
    (fun x => mkPayloadRequest x.1 x.2)).
  by intros [].
Defined.
#[export] Instance RequestInfo_eq_dec : EqDecision RequestInfo.
Proof. solve_decision. Defined.
#[export] Instance RequestInfo_countable : Countable RequestInfo.
Proof.
  apply (inj_countable' (fun m => (ri_request_headers m, ri_timeout_millis m, ri_json m))
    (fun x => mkRequestInfo x.1.1 x.1.2 x.2)).
  by intros [].
Defined.
#[export] Instance ConformancePayload_eq_dec : EqDecision ConformancePayload.
Proof. solve_decision. Defined.
#[export] Instance ConformancePayload_countable : Countable ConformancePayload.
Proof.
  apply (inj_countable' (fun m => (cp_payload m, cp_request_info m))
    (fun x => mkConformancePayload x.1 x.2)).
  by intros [].
Defined.
#[export] Instance ClientStreamResponse_eq_dec : EqDecision ClientStreamResponse.
Proof. solve_decision. Defined.
#[export] Instance ClientStreamResponse_countable : Countable ClientStreamResponse.
Proof.
  apply (inj_countable' (fun m => (csr_payload m, csr_received_count m, csr_received_bytes m))
    (fun x => mkClientStreamResponse x.1.1 x.1.2 x.2)).
  by intros [].
Defined.

Definition to_bytes {A} `{Countable A} (a : A) : bytes := TrailerCodec.bits (encode a).
Definition of_bytes {A} `{Countable A} (b : bytes) : option A := decode (TrailerCodec.unbits b).

Lemma of_to_bytes {A} `{Countable A} (a : A) : of_bytes (to_bytes a) = Some a.
Proof. unfold of_bytes, to_bytes. by rewrite TrailerCodec.unbits_bits, decode_encode. Qed.

#[export] Instance pb : Pb := {|
  enc_request := to_bytes;
  enc_server_stream_request := to_bytes;
  dec_request := of_bytes;
  enc_payload := to_bytes;
  dec_payload := of_bytes;
  dec_client_stream_response := of_bytes
|}.
#[export] Instance pb_laws : PbLaws pb.
Proof. split; intros; apply of_to_bytes. Qed.
End CaseCodec.

Definition demo_case : Case :=
  mkCase $"echo" BidiStream false None None None None None None None
    (Some [mkMessage (Some (mkBytesSpec (Some $"a") None None)) None; mkMessage (Some (mkBytesSpec (Some $"b") None None)) None])
    None
    (mkExpect None (Some (mkStatusExpect (Some 0%Z) None None)) None
       (Some [mkPayloadMatcher (Some (mkBytesSpec (Some $"a") None None)) None; mkPayloadMatcher (Some (mkBytesSpec (Some $"b") None None)) None])
       (Some 2) None None None None None).

Definition demo_requests : list PayloadRequest := [mkPayloadRequest $"a" None; mkPayloadRequest $"b" None].
Definition demo_answers : list ConformancePayload := answers_of req_payload demo_info demo_requests.
Definition demo_body : bytes := concat (map encode_message (map (enc_payload (Pb := CaseCodec.pb)) demo_answers)).
Definition demo_response : ClientCalls.Response :=
  ClientCalls.mkResponse 200 [] [] [Ok (btake 3 demo_body); Ok (bdrop 3 demo_body)] (Some [($"grpc-status", $"0")]).
Definition demo_client : Client :=
  mkClient (fun _ _ _ => Err (new Code.Internal [])) (fun _ _ _ => Err (new Code.Internal []))
    (fun _ _ _ => Err (new Code.Internal [])) (fun _ _ opts => Ok (streaming_new (B := plain64) demo_response opts None)).

