(* ===== verification/StubRunner.v ===== *)
(** * The tonic stub runner of the conformance driver ([rust/examples/conformance-driver/src/stubs.rs])

    The same cases through tonic's generated stubs. The stubs are a record of their four
    calls: a request is its metadata, its timeout and its message, a response stream the list
    of what it yields and then its trailers. *)
From S2P Require Import Prelude RustStd Http Metadata ClientMetadata ClientStatus Conformance ConformanceDriver.

Section stubs.
Context {H : Http} {T : Tonic H} {I : TonicInsert H T} {B : Base64}.

(** [tonic::Request], as far as the runner sets it. *)
Record StubRequest (M : Type) : Type := mkStubRequest {
  sr_metadata : MetadataMap;
  sr_timeout : option duration;
  sr_message : M
}.
Arguments mkStubRequest {M} sr_metadata sr_timeout sr_message.

(** A streaming response: its metadata, what the stream yields, and its trailers. *)
Record StubStream : Type := mkStubStream {
  ss_metadata : MetadataMap;
  ss_items : list (result (MdStatus H T) ConformancePayload);
  ss_trailers : result (MdStatus H T) (option MetadataMap)
}.

Record Stub : Type := mkStub {
  stub_unary : StubRequest PayloadRequest -> result (MdStatus H T) (MetadataMap * ConformancePayload);
  stub_server_stream : StubRequest (option ResponseDefinition) -> result (MdStatus H T) StubStream;
  stub_client_stream : StubRequest (list PayloadRequest) -> result (MdStatus H T) (MetadataMap * ClientStreamResponse);
  stub_bidi_stream : StubRequest (list PayloadRequest) -> result (MdStatus H T) StubStream
}.

(** ** The request *)

Definition insert_pair (md : MetadataMap) (p : str * Value) : MetadataMap :=
  match p.2 with
  | VAscii v => match ascii_key p.1, ascii_value v with Some k, Some v => md_insert md k v | _, _ => md end
  | VBinary raw => match binary_key p.1 with Some k => md_insert_bin md k (binary_value raw) | None => md end
  end.
Definition stub_request {M} (c : Case) (message : M) : run (StubRequest M) :=
  pairs ← request_metadata_pairs c;
  Done (mkStubRequest (foldl insert_pair md_new pairs) (from_millis <$> c_timeout_millis c) message).

(** ** The outcome *)

Definition outcome_entry (out : ClientMetadata.Metadata) (kv : KeyAndValueRef AsciiValue BinaryValue) : ClientMetadata.Metadata :=
  match kv with
  | KvAscii key value => match ascii_to_str value with Some v => append out key v | None => out end
  | KvBinary key value => match binary_to_bytes value with Some raw => insert_bin out key raw | None => out end
  end.
Definition metadata_of (map : MetadataMap) : ClientMetadata.Metadata := foldl outcome_entry md_empty (md_iter map).

(** [code_of] is the identity: both enumerations have gRPC's codes. *)
Definition failed (status : MdStatus H T) : Outcome :=
  mkOutcome md_empty (metadata_of (ms_metadata status)) [] None None (new (ms_code status) (ms_message status)).

Fixpoint stub_drain_loop (c : Case) (hdrs : ClientMetadata.Metadata) (trailers : result (MdStatus H T) (option MetadataMap))
    (messages : list ConformancePayload) (items : list (result (MdStatus H T) ConformancePayload)) : Outcome :=
  match items with
  | Ok message :: items' =>
      let messages := messages ++ [message] in
      match c_cancel_after_messages c with
      | Some n =>
          if n <=? blen messages then
            mkOutcome hdrs md_empty messages None None (new Code.Cancelled $"cancelled by client")
          else stub_drain_loop c hdrs trailers messages items'
      | None => stub_drain_loop c hdrs trailers messages items'
      end
  | [] =>
      mkOutcome hdrs (match trailers with Ok (Some map) => metadata_of map | _ => md_empty end) messages None None
        (new Code.Ok [])
  | Err status :: _ =>
      let outcome := failed status in
      mkOutcome hdrs (o_trailers outcome) messages (o_response outcome) (o_received_count outcome) (o_status outcome)
  end.
Definition stub_drain (response : StubStream) (c : Case) : Outcome :=
  stub_drain_loop c (metadata_of (ss_metadata response)) (ss_trailers response) [] (ss_items response).

Definition stub_run_unary (stub : Stub) (c : Case) : run Outcome :=
  payload ← opt_vec (r ← c_request c; msg_payload r);
  definition ← request_definition (c_request c);
  request ← stub_request c (mkPayloadRequest payload definition);
  Done (match stub_unary stub request with
        | Ok (meta, response) =>
            let metadata := metadata_of meta in
            mkOutcome metadata metadata [] (Some response) None (new Code.Ok [])
        | Err status => failed status
        end).

Definition stub_run_server_stream (stub : Stub) (c : Case) : run Outcome :=
  definition ← request_definition (c_request c);
  request ← stub_request c definition;
  Done (match stub_server_stream stub request with Ok response => stub_drain response c | Err status => failed status end).

Definition stub_run_client_stream (stub : Stub) (c : Case) : run Outcome :=
  messages ← stream_requests true (default [] (c_requests c));
  request ← stub_request c messages;
  Done (match stub_client_stream stub request with
        | Ok (meta, decoded) =>
            let metadata := metadata_of meta in
            mkOutcome metadata metadata [] (csr_payload decoded) (Some (csr_received_count decoded)) (new Code.Ok [])
        | Err status => failed status
        end).

Definition stub_run_bidi_stream (stub : Stub) (c : Case) : run Outcome :=
  messages ← stream_requests true (default [] (c_requests c));
  request ← stub_request c messages;
  Done (match stub_bidi_stream stub request with Ok response => stub_drain response c | Err status => failed status end).

Definition stub_run_case (stub : Stub) (c : Case) : run Outcome :=
  match c_rpc c with
  | Unary => stub_run_unary stub c
  | ServerStream => stub_run_server_stream stub c
  | ClientStream => stub_run_client_stream stub c
  | BidiStream => stub_run_bidi_stream stub c
  end.
End stubs.

(** ** Lemmas *)

Section facts.
Context {H : Http} {T : Tonic H} {B : Base64} {P : Pb} {PL : PbLaws P}.

(** How a stream ends, for tonic and for the native client. *)
Definition same_end (items : list (result (MdStatus H T) ConformancePayload)) (st : Status) : Prop :=
  match items with
  | [] => ClientStatus.code st = Code.Ok
  | Err s :: _ => ms_code s = ClientStatus.code st /\ ms_message s = ClientStatus.message st
  | Ok _ :: _ => False
  end.

Lemma stub_drain_agrees c hdrs trailers acc ps ending st nhdrs :
  same_end ending st ->
  let native := read_outcome (c_cancel_after_messages c) nhdrs acc (map enc_payload ps) st in
  let stub := stub_drain_loop c hdrs trailers acc (map Ok ps ++ ending) in
  o_messages stub = o_messages native
  /\ ClientStatus.code (o_status stub) = ClientStatus.code (o_status native)
  /\ (ClientStatus.code (o_status native) <> Code.Ok -> ClientStatus.message (o_status stub) = ClientStatus.message (o_status native)).
Proof.
  intros He. revert acc. induction ps as [|p ps IH]; intros acc; cbn [map app stub_drain_loop].
  - unfold read_outcome. cbn [read_upto]. destruct ending as [|[q|s] ending]; [|done|].
    + cbn in He |- *. split_and!; [done|by rewrite He|]. intros Hc. by rewrite He in Hc.
    + destruct He as [Hc Hm]. cbn. split_and!; [done|done|done].
  - unfold read_outcome in *. cbn [read_upto]. rewrite payload_roundtrip. specialize (IH (acc ++ [p])).
    cbv zeta in *. destruct (c_cancel_after_messages c) as [n|]; [|exact IH].
    destruct (n <=? blen (acc ++ [p])); [by split_and!|exact IH].
Qed.
End facts.

(** ** Properties *)

(** The two modes agree on a stream. When the stub's stream yields the payloads whose
    encodings the native client reads, and both end alike, the two runners observe the same
    messages and the same status code, and the same status message unless it is OK. *)
Theorem modes_agree {H : Http} {T : Tonic H} {P : Pb} {PL : PbLaws P} (c : Case) (response : StubStream)
  (hdrs : ClientMetadata.Metadata) (ps : list ConformancePayload) (ending : list (result (MdStatus H T) ConformancePayload)) (st : Status)
  (Hitems : ss_items response = map Ok ps ++ ending) (Hend : same_end ending st) :
  let native := read_outcome (c_cancel_after_messages c) hdrs [] (map enc_payload ps) st in
  let stub := stub_drain response c in
  o_messages stub = o_messages native
  /\ ClientStatus.code (o_status stub) = ClientStatus.code (o_status native)
  /\ (ClientStatus.code (o_status native) <> Code.Ok -> ClientStatus.message (o_status stub) = ClientStatus.message (o_status native)).
Proof. intros native stub. unfold stub, stub_drain. rewrite Hitems. by apply stub_drain_agrees. Qed.
