(* ===== verification/DriverMain.v ===== *)
(** * The conformance driver's entry point ([rust/examples/conformance-driver/src/main.rs])

    The command line, the loop over the suites and its report. Reading a file and parsing its
    YAML, the WebSocket handshake and the client over a tunnel are functions; the [n]-th
    connection attempt is told from the others, so that every case may meet another server. *)
From S2P Require Import Prelude RustStd Http Metadata ClientMetadata ClientStatus ClientState ClientCalls ClientTyped.
From S2P Require Import Conformance ConformanceDriver StubRunner.

(** ** The command line *)

Record Args : Type := mkArgs {
  a_base_url : str;
  a_profile : str;
  a_stubs : bool;
  a_files : list str
}.

Definition label (self : Args) : str := if a_stubs self then $"proto/h2ts+tonic" else $"proto/h2ts".

(** The loop of [parse_args] over the arguments that are left. *)
Fixpoint parse_loop (it : list str) (base_url : option str) (profile : str) (stubs : bool) (files : list str)
  : run (option str * str * bool * list str) :=
  match it with
  | [] => Done (base_url, profile, stubs, files)
  | arg :: it' =>
      if decide (arg = $"--base-url") then
        match it' with
        | v :: it'' => parse_loop it'' (Some v) profile stubs files
        | [] => parse_loop it' None profile stubs files
        end
      else if decide (arg = $"--profile") then
        match it' with
        | v :: it'' => parse_loop it'' base_url v stubs files
        | [] => Panic
        end
      else if decide (arg = $"--stubs") then parse_loop it' base_url profile true files
      else parse_loop it' base_url profile stubs (files ++ [arg])
  end.
Definition parse_args (argv : list str) : run Args :=
  '(base_url, profile, stubs, files) ← parse_loop argv None $"default" false [];
  match base_url with
  | Some base_url => Done (mkArgs base_url profile stubs files)
  | None => Panic
  end.

(** ** The run *)

Record SuiteFile : Type := mkSuiteFile { sf_suite : str; sf_cases : list Case }.

(** The three counters of [drive]. *)
Inductive Verdict : Set := Passed | Failed | Skipped.
#[global] Instance Verdict_eq_dec : EqDecision Verdict.
Proof. solve_decision. Defined.
Definition tag (v : Verdict) : str :=
  match v with Passed => $"PASS" | Failed => $"FAIL" | Skipped => $"SKIP" end.

Section main.
Context {H : Http} {T : Tonic H} {I : TonicInsert H T} {B : Base64} {P : Pb}.
Context (percent_decode_utf8 : str -> option str) (fmt_debug : str -> str).
(** [read_to_string] of a path, and [serde_yaml::from_str]. *)
Context (read_to_string : str -> option str) (from_str : str -> option SuiteFile).
(** The handshake of the [n]-th attempt, the client over its socket, and its stubs. *)
Context {Socket : Type} (into_client_request : str -> result str unit)
  (connect_async : nat -> str -> result str Socket)
  (over_transport : Socket -> str -> Client) (into_tonic : Client -> Stub (H := H) (T := T)).

(** [dial]: the subprotocol it asks for is the engine's constant, part of [connect_async], and
    the byte streams over the socket are [ClientTyped.reader] and [ClientTyped.pump], part of
    [over_transport]. *)
Definition dial (attempt : nat) (base_url : str) : result str Client :=
  let ws_url := dial_ws_url base_url in
  let authority := dial_authority base_url in
  _ ← into_client_request ws_url;
  ws ← connect_async attempt ws_url;
  Ok (over_transport ws authority).

(** One case of the loop: its verdict, the lines it prints, and the connections made so far.
    The outer option is the fuel of the native runner. *)
Definition run_one (fuel : nat) (args : Args) (attempt : nat) (suite : str) (c : Case)
  : run (option (Verdict * list str * nat)) :=
  let id := suite ++ $"/" ++ c_name c in
  let line (v : Verdict) := tag v ++ $" " ++ id ++ $" [" ++ label args ++ $"]" in
  match skip_reason fmt_debug c (a_profile args) (a_stubs args) with
  | Some reason => Done (Some (Skipped, [line Skipped ++ $" — " ++ reason], attempt))
  | None =>
      match dial attempt (a_base_url args) with
      | Err e => Done (Some (Failed, [line Failed; $"      could not open the tunnel: " ++ e], S attempt))
      | Ok client =>
          outcome ← (if a_stubs args then Some <$> stub_run_case (into_tonic client) c
                     else run_case percent_decode_utf8 fuel client c);
          match outcome with
          | None => Done None
          | Some outcome =>
              fails ← check fmt_debug c outcome;
              Done (Some (match fails with
                          | [] => (Passed, [line Passed], S attempt)
                          | _ => (Failed, line Failed :: map (fun f => $"      " ++ f) fails, S attempt)
                          end))
          end
      end
  end.

(** What the loop has so far: the counters, the lines printed and the connections made. *)
Record Tally : Type := mkTally {
  t_passed : N;
  t_failed : N;
  t_skipped : N;
  t_out : list str;
  t_attempts : nat
}.
Definition tally_start : Tally := mkTally 0 0 0 [] 0.
Definition record (t : Tally) (v : Verdict) (lines : list str) (attempts : nat) : Tally :=
  mkTally (match v with Passed => t_passed t + 1 | _ => t_passed t end)
    (match v with Failed => t_failed t + 1 | _ => t_failed t end)
    (match v with Skipped => t_skipped t + 1 | _ => t_skipped t end)
    (t_out t ++ lines) attempts.

(** The inner loop of [drive], over the cases of a suite, and the outer one. *)
Fixpoint drive_cases (fuel : nat) (args : Args) (suite : str) (cases : list Case) (t : Tally) : run (option Tally) :=
  match cases with
  | [] => Done (Some t)
  | c :: cases' =>
      one ← run_one fuel args (t_attempts t) suite c;
      match one with
      | None => Done None
      | Some (v, lines, attempts) => drive_cases fuel args suite cases' (record t v lines attempts)
      end
  end.
Fixpoint drive_suites (fuel : nat) (args : Args) (suites : list SuiteFile) (t : Tally) : run (option Tally) :=
  match suites with
  | [] => Done (Some t)
  | s :: suites' =>
      t ← drive_cases fuel args (sf_suite s) (sf_cases s) t;
      match t with None => Done None | Some t => drive_suites fuel args suites' t end
  end.

(** A suite file; one that cannot be read, or is not a suite, panics. *)
Definition load (p : str) : run SuiteFile :=
  match read_to_string p with
  | Some text => match from_str text with Some s => Done s | None => Panic end
  | None => Panic
  end.

Definition summary (args : Args) (passed failed skipped : N) : list str :=
  [[]; fmt_dec passed ++ $" passed, " ++ fmt_dec failed ++ $" failed, " ++ fmt_dec skipped
       ++ $" skipped  (rust client driver, " ++ label args ++ $")"].

(** [drive]: what it returns, and the lines of its standard output. *)
Definition drive (fuel : nat) (args : Args) : run (option (N * list str)) :=
  suites ← run_map load (a_files args);
  t ← drive_suites fuel args suites tally_start;
  Done (match t with
        | Some t => Some (t_failed t, t_out t ++ summary args (t_passed t) (t_failed t) (t_skipped t))
        | None => None
        end).

(** [main]: the exit code, the lines of standard output, those of standard error. *)
Definition main (fuel : nat) (argv : list str) : run (option (N * list str * list str)) :=
  args ← parse_args argv;
  r ← drive fuel args;
  Done (match r with
        | Some (failed, out) =>
            Some (if 0 <? failed then (1, out, [[]; fmt_dec failed ++ $" case(s) FAILED"]) else (0, out, []))
        | None => None
        end).
End main.

(** ** The command line's reading *)

(** The options a command line is made of, and how they are written. *)
Inductive Opt : Type :=
| OBaseUrl (v : str)
| OProfile (v : str)
| OStubs
| OFile (p : str).
Definition render (o : Opt) : list str :=
  match o with
  | OBaseUrl v => [$"--base-url"; v]
  | OProfile v => [$"--profile"; v]
  | OStubs => [$"--stubs"]
  | OFile p => [p]
  end.
Definition well_formed (o : Opt) : Prop :=
  match o with OFile p => p <> $"--base-url" /\ p <> $"--profile" /\ p <> $"--stubs" | _ => True end.

Definition base_urls : list Opt -> list str := omap (fun o => match o with OBaseUrl v => Some v | _ => None end).
Definition profiles : list Opt -> list str := omap (fun o => match o with OProfile v => Some v | _ => None end).
Definition file_names : list Opt -> list str := omap (fun o => match o with OFile p => Some p | _ => None end).
Definition wants_stubs : list Opt -> bool := existsb (fun o => match o with OStubs => true | _ => false end).

Lemma last_default {A} (x : A) d l : default d (last (x :: l)) = default x (last l).
Proof. rewrite last_cons. by destruct (last l). Qed.

Lemma parse_loop_render opts tail base profile stubs files :
  Forall well_formed opts ->
  parse_loop (flat_map render opts ++ tail) base profile stubs files
  = parse_loop tail (match last (base_urls opts) with Some v => Some v | None => base end)
      (default profile (last (profiles opts))) (stubs || wants_stubs opts) (files ++ file_names opts).
Proof.
  revert base profile stubs files. induction opts as [|o opts IH]; intros base profile stubs files Hwf.
  - cbn. by rewrite orb_false_r, app_nil_r.
  - apply Forall_cons in Hwf as [Ho Hwf]. unfold base_urls, profiles, file_names, wants_stubs in *.
    destruct o as [v|v| |p]; cbn [flat_map render app parse_loop omap list_omap existsb].
    + rewrite decide_True by done. rewrite IH by done. f_equal. rewrite last_cons. by destruct (last _).
    + rewrite decide_False by discriminate. rewrite decide_True by done. rewrite IH by done. f_equal.
      symmetry. apply last_default.
    + rewrite !decide_False by discriminate. rewrite decide_True by done. rewrite IH by done. by rewrite orb_true_r.
    + destruct Ho as (H1 & H2 & H3). rewrite !decide_False by done. rewrite IH by done. by rewrite <- app_assoc.
Qed.

(** Every command line is options, then at most a flag whose value is missing. *)
Lemma read_options argv : exists opts tail,
  Forall well_formed opts /\ argv = flat_map render opts ++ tail /\ tail ∈ [[]; [$"--base-url"]; [$"--profile"]].
Proof.
  induction argv as [argv IH] using (induction_ltof1 _ length); unfold ltof in IH.
  assert (forall o rest, well_formed o -> argv = render o ++ rest -> exists opts tail,
    Forall well_formed opts /\ argv = flat_map render opts ++ tail /\ tail ∈ [[]; [$"--base-url"]; [$"--profile"]]) as Hcons.
  { intros o rest Ho Hargv. destruct (IH rest) as (opts & tail & Hwf & Hr & Ht).
    { rewrite Hargv, length_app. destruct o; cbn; lia. }
    exists (o :: opts), tail. split; [by constructor|]. split; [|done]. by rewrite Hargv, Hr, app_assoc. }
  destruct argv as [|arg rest]; [exists [], []; split; [done|]; split; [done|by left]|].
  destruct (decide (arg = $"--stubs")) as [->|Hs]; [by apply (Hcons OStubs rest)|].
  destruct (decide (arg = $"--base-url")) as [->|Hb].
  { destruct rest as [|v rest]; [|by apply (Hcons (OBaseUrl v) rest)].
    exists [], [$"--base-url"]. split; [done|]. split; [done|]. right. by left. }
  destruct (decide (arg = $"--profile")) as [->|Hp].
  { destruct rest as [|v rest]; [|by apply (Hcons (OProfile v) rest)].
    exists [], [$"--profile"]. split; [done|]. split; [done|]. right. right. by left. }
  by apply (Hcons (OFile arg) rest).
Qed.

(** ** Cases the runners cannot panic on *)

Definition is_done {A} (r : run A) : bool := match r with Done _ => true | Panic => false end.

Lemma is_done_bind {A C} (m : run A) (f : A -> run C) :
  is_done m = true -> (forall a, is_done (f a) = true) -> is_done (a ← m; f a) = true.
Proof. destruct m; cbn; auto. Qed.
Lemma is_done_map {A C} (f : A -> run C) l : Forall (fun x => is_done (f x) = true) l -> is_done (run_map f l) = true.
Proof.
  induction 1 as [|x l Hx _ IH]; [done|]. cbn [run_map]. apply is_done_bind; [done|]. intros y. by apply is_done_bind.
Qed.
Lemma is_done_inv {A} (r : run A) : is_done r = true -> exists a, r = Done a.
Proof. destruct r as [a|]; [by exists a|done]. Qed.

(** The byte values and the metadata of a case. *)
Definition opt_list {A} (o : option A) : list A := match o with Some x => [x] | None => [] end.
Definition message_bytes (m : Message) : list BytesSpec :=
  opt_list (msg_payload m)
  ++ match msg_response_definition m with
     | Some d => opt_list (ds_payload d) ++ omap sp_payload (default [] (ds_stream_messages d))
     | None => []
     end.
Definition message_metadata (m : Message) : list CaseMetadatum :=
  match msg_response_definition m with
  | Some d => default [] (ds_headers d) ++ default [] (ds_trailers d)
  | None => []
  end.
Definition case_messages (c : Case) : list Message := opt_list (c_request c) ++ default [] (c_requests c).
Definition case_matchers (c : Case) : list PayloadMatcher :=
  opt_list (ex_response (c_expect c)) ++ default [] (ex_messages (c_expect c)).

Section spelling.
Context {B : Base64}.

(** Every base64 text the runners read in the case is valid. *)
Definition bytes_spelled (s : BytesSpec) : Prop := is_done (to_vec s) = true.
Definition metadatum_spelled (m : CaseMetadatum) : Prop := is_done (metadata_pair m) = true.
Definition message_spelled (m : Message) : Prop :=
  Forall bytes_spelled (message_bytes m) /\ Forall metadatum_spelled (message_metadata m).
Record well_spelled (c : Case) : Prop := {
  spelled_request : Forall metadatum_spelled (default [] (c_request_metadata c));
  spelled_messages : Forall message_spelled (case_messages c);
  spelled_matchers : Forall bytes_spelled (omap pm_payload (case_matchers c));
  spelled_headers : Forall metadatum_spelled (default [] (ex_headers_contain (c_expect c)));
  spelled_trailers : Forall metadatum_spelled (default [] (ex_trailers_contain (c_expect c)))
}.

Lemma opt_vec_done (spec : option BytesSpec) : Forall bytes_spelled (opt_list spec) -> is_done (opt_vec spec) = true.
Proof. destruct spec; [|done]. by intros [? _]%Forall_cons. Qed.

Lemma definition_done (m : Message) : message_spelled m -> is_done (definition_of (msg_response_definition m)) = true.
Proof.
  unfold message_spelled, message_bytes, message_metadata. destruct (msg_response_definition m) as [d|]; [|done].
  intros [[_ [Hp Hs]%Forall_app]%Forall_app [Hh Ht]%Forall_app]. cbn [definition_of].
  assert (forall l, Forall metadatum_spelled l -> is_done (pb_metadata l) = true) as Hmd.
  { intros l Hl. apply is_done_map. eapply Forall_impl; [exact Hl|]. intros x. unfold metadatum_spelled, metadata_pair, pb_metadatum.
    destruct (cm_ascii x), (cm_b64 x) as [b|]; try done. by destruct (b64_decode b). }
  apply is_done_bind; [by apply Hmd|]. intros ?. apply is_done_bind; [by apply Hmd|]. intros ?.
  apply is_done_bind; [by apply opt_vec_done|]. intros ?. apply is_done_bind; [|done].
  apply is_done_map. revert Hs. generalize (default [] (ds_stream_messages d)). intros l Hs. induction l as [|sm l IH]; [done|].
  cbn [omap list_omap] in Hs. constructor.
  - apply is_done_bind; [|done]. apply opt_vec_done. destruct (sp_payload sm); [|done]. cbn. by apply Forall_cons in Hs as [? _]; constructor.
  - apply IH. destruct (sp_payload sm); [|done]. by apply Forall_cons in Hs as [_ ?].
Qed.

Lemma message_payload_done m : message_spelled m -> is_done (opt_vec (msg_payload m)) = true.
Proof. intros [[Hp _]%Forall_app _]. by apply opt_vec_done. Qed.

Lemma stream_requests_done first ms : Forall message_spelled ms -> is_done (stream_requests first ms) = true.
Proof.
  intros Hms. revert first. induction Hms as [|m ms Hm _ IH]; intros first; [done|]. cbn [stream_requests].
  apply is_done_bind; [by apply message_payload_done|]. intros ?. apply is_done_bind.
  { destruct first; [by apply definition_done|done]. }
  intros ?. by apply is_done_bind.
Qed.

Lemma pairs_done c : well_spelled c -> is_done (request_metadata_pairs c) = true.
Proof. intros Hc. apply is_done_bind; [|done]. apply is_done_map. apply (spelled_request c Hc). Qed.
Lemma options_done c : well_spelled c -> is_done (call_options c) = true.
Proof. intros Hc. apply is_done_bind; [|done]. apply is_done_bind; [by apply pairs_done|done]. Qed.

Lemma request_message_done c : well_spelled c ->
  is_done (opt_vec (r ← c_request c; msg_payload r)) = true /\ is_done (request_definition (c_request c)) = true.
Proof.
  intros Hc. pose proof (spelled_messages c Hc) as [Hr _]%Forall_app.
  destruct (c_request c) as [m|]; [|done]. apply Forall_cons in Hr as [Hm _].
  split; [by apply message_payload_done|]. by apply definition_done.
Qed.
Lemma requests_done c : well_spelled c -> is_done (stream_requests true (default [] (c_requests c))) = true.
Proof. intros Hc. apply stream_requests_done. by pose proof (spelled_messages c Hc) as [_ ?]%Forall_app. Qed.

Lemma check_payload_done fmt_debug label m got :
  Forall bytes_spelled (opt_list (pm_payload m)) -> is_done (check_payload fmt_debug label m got) = true.
Proof.
  intros Hm. unfold check_payload. destruct got as [p|]; [|done]. apply is_done_bind; [|done].
  destruct (pm_payload m) as [spec|]; [|done]. apply Forall_cons in Hm as [Hs _]. by apply is_done_bind.
Qed.
Lemma check_metadata_done fmt_debug label want got :
  Forall metadatum_spelled (default [] want) -> is_done (check_metadata fmt_debug label want got) = true.
Proof.
  intros Hw. apply is_done_bind; [|done]. apply is_done_map. eapply Forall_impl; [exact Hw|]. intros m.
  unfold metadatum_spelled, metadata_pair, check_metadatum. destruct (cm_ascii m), (cm_b64 m) as [b|]; try done. by destruct (b64_decode b).
Qed.

Lemma check_done fmt_debug c o : well_spelled c -> is_done (check fmt_debug c o) = true.
Proof.
  intros [_ _ Hm Hh Ht]. unfold case_matchers in Hm. rewrite omap_app in Hm. apply Forall_app in Hm as [Hr Hms].
  unfold check. apply is_done_bind.
  { destruct (ex_response (c_expect c)) as [m|]; [|done]. apply check_payload_done. cbn in Hr. by destruct (pm_payload m). }
  intros ?. apply is_done_bind.
  { unfold check_messages. destruct (ex_messages (c_expect c)) as [want|]; [|done]. apply is_done_bind; [|done].
    generalize 0%nat. cbn [default] in Hms. induction want as [|m want IH]; intros i; [done|]. cbn [check_each].
    assert (Forall bytes_spelled (opt_list (pm_payload m)) /\ Forall bytes_spelled (omap pm_payload want)) as [Hm Hw].
    { cbn in Hms. destruct (pm_payload m); [|done]. apply Forall_cons in Hms as [? ?]. split; [by constructor|done]. }
    apply is_done_bind; [by apply check_payload_done|]. intros ?. apply is_done_bind; [by apply IH|done]. }
  intros ?. apply is_done_bind; [by apply check_metadata_done|]. intros ?. by apply is_done_bind; [apply check_metadata_done|].
Qed.
End spelling.

(** ** The loop *)

Section loop.
Context {H : Http} {T : Tonic H} {I : TonicInsert H T} {B : Base64} {P : Pb}.
Context (percent_decode_utf8 : str -> option str) (fmt_debug : str -> str).
Context {Socket : Type} (into_client_request : str -> result str unit)
  (connect_async : nat -> str -> result str Socket)
  (over_transport : Socket -> str -> Client) (into_tonic : Client -> Stub (H := H) (T := T)) (args : Args).

Abbreviation dialed n := (dial into_client_request connect_async over_transport n (a_base_url args)).
Abbreviation one fuel n suite c :=
  (run_one percent_decode_utf8 fmt_debug into_client_request connect_async over_transport into_tonic fuel args n suite c).

Lemma drain_total stream c : exists n o, forall k, drain percent_decode_utf8 (n + k) stream c = Some o.
Proof.
  destruct stream as [s|e]; [|by exists 0%nat, (outcome_failed e)].
  destruct (finish_total percent_decode_utf8 s) as (n & ms & st & s' & Hn). exists n. eexists. intros k. cbn [drain].
  exact (drain_finish percent_decode_utf8 _ _ _ _ _ _ _ _ (Hn k)).
Qed.

(** Enough fuel, the case runs to an outcome. *)
Lemma run_case_total client c :
  well_spelled c -> exists n o, forall k, run_case percent_decode_utf8 (n + k) client c = Done (Some o).
Proof.
  intros Hc. destruct (is_done_inv _ (options_done c Hc)) as [opts Hopts].
  destruct (request_message_done c Hc) as [[payload Hpay]%is_done_inv [definition Hdef]%is_done_inv].
  destruct (is_done_inv _ (requests_done c Hc)) as [reqs Hreqs].
  unfold run_case, run_unary, run_server_stream, run_client_stream, run_bidi_stream.
  destruct (c_rpc c); rewrite ?Hopts, ?Hpay, ?Hdef, ?Hreqs; cbn [mbind run_bind]; rewrite ?Hopts; cbn [mbind run_bind].
  - exists 0%nat. eexists. by intros k.
  - destruct (drain_total (call_server_streaming client (SERVICE ++ $"/ServerStream") (enc_server_stream_request definition) opts) c)
      as (n & o & Hn). exists n, o. intros k. by rewrite Hn.
  - exists 0%nat. eexists. by intros k.
  - destruct (drain_total (call_bidi_streaming client (SERVICE ++ $"/BidiStream") (map enc_request reqs) opts) c)
      as (n & o & Hn). exists n, o. intros k. by rewrite Hn.
Qed.

Lemma stub_request_done {M} c (m : M) : well_spelled c -> is_done (stub_request c m) = true.
Proof. intros Hc. by apply is_done_bind; [apply pairs_done|]. Qed.

Lemma stub_run_case_total stub c : well_spelled c -> exists o, stub_run_case stub c = Done o.
Proof.
  intros Hc. apply is_done_inv. destruct (request_message_done c Hc) as [Hpay Hdef]. pose proof (requests_done c Hc) as Hreqs.
  unfold stub_run_case, stub_run_unary, stub_run_server_stream, stub_run_client_stream, stub_run_bidi_stream.
  destruct (c_rpc c); repeat (apply is_done_bind; [first [done | by apply stub_request_done]|intros ?]); done.
Qed.

(** What a case's run observes. *)
Definition outcome_of (fuel : nat) (client : Client) (c : Case) : run (option Outcome) :=
  if a_stubs args then Some <$> stub_run_case (into_tonic client) c else run_case percent_decode_utf8 fuel client c.

Lemma outcome_total client c : well_spelled c -> exists n o, forall k, outcome_of (n + k) client c = Done (Some o).
Proof.
  intros Hc. unfold outcome_of. destruct (a_stubs args); [|by apply run_case_total].
  destruct (stub_run_case_total (into_tonic client) c Hc) as [o Ho]. exists 0%nat, o. intros k. by rewrite Ho.
Qed.

(** The verdict a case deserves, whose connection is the [n]-th attempt: skipped for a reason,
    failed when no tunnel opens, and else passed when what is observed meets the case. *)
Definition judged (n : nat) (c : Case) (v : Verdict) : Prop :=
  match skip_reason fmt_debug c (a_profile args) (a_stubs args) with
  | Some _ => v = Skipped
  | None =>
      match dialed n with
      | Err _ => v = Failed
      | Ok client =>
          v <> Skipped
          /\ exists fuel o, outcome_of fuel client c = Done (Some o) /\ (v = Passed <-> met (c_expect c) o)
      end
  end.

(** The lines of a case: its verdict and id first, then what went wrong. *)
Definition reported (suite : str) (c : Case) (v : Verdict) (lines : list str) : Prop :=
  exists reason more,
    lines = (tag v ++ $" " ++ (suite ++ $"/" ++ c_name c) ++ $" [" ++ label args ++ $"]" ++ reason) :: more
    /\ (reason <> [] -> v = Skipped) /\ (more <> [] <-> v = Failed).

Lemma run_one_total n suite c : well_spelled c -> exists m v lines, judged n c v /\ reported suite c v lines
  /\ forall k, one (m + k) n suite c = Done (Some (v, lines, match v with Skipped => n | _ => S n end)).
Proof.
  intros Hc. unfold judged, run_one, reported. destruct (skip_reason fmt_debug c _ _) as [reason|].
  { exists 0%nat, Skipped. eexists. split; [done|]. split; [|by intros k].
    exists ($" — " ++ reason), []. split; [by rewrite <- !app_assoc|]. split; [done|]. by split. }
  destruct (dialed n) as [client|e].
  2: { exists 0%nat, Failed. eexists. split; [done|]. split; [|by intros k].
       exists [], [$"      could not open the tunnel: " ++ e]. rewrite app_nil_r. split; [done|]. by split. }
  destruct (outcome_total client c Hc) as (m & o & Hm). unfold outcome_of in Hm.
  pose proof (verdict_exact fmt_debug c o) as Hmet. destruct (is_done_inv _ (check_done fmt_debug c o Hc)) as [fails Hf].
  assert (forall k, outcome_of (m + k) client c = Done (Some o)) as Ho by exact Hm.
  destruct fails as [|f fails]; [exists m, Passed|exists m, Failed]; eexists.
  all: split; [|split; [|intros k; rewrite Hm; cbn [mbind run_bind]; rewrite Hf; done]].
  1,3: split; [done|]; exists (m + 0)%nat, o; split; [apply Ho|]; by rewrite <- Hmet, Hf.
  all: eexists [], _; rewrite app_nil_r; split; [done|]; by split.
Qed.

(** The cases in order, each judged at its own attempt and reported. *)
Inductive judged_run : nat -> list (str * Case) -> list (Verdict * list str) -> Prop :=
| judged_nil n : judged_run n [] []
| judged_cons n suite c v lines cs vs :
    judged n c v -> reported suite c v lines -> judged_run (match v with Skipped => n | _ => S n end) cs vs ->
    judged_run n ((suite, c) :: cs) ((v, lines) :: vs).

Definition count (v : Verdict) (vs : list (Verdict * list str)) : N :=
  blen (filter (fun x => x.1 = v) vs).
Definition attempts_of (vs : list (Verdict * list str)) : nat := length (filter (fun x => x.1 <> Skipped) vs).
Definition tally_with (t : Tally) (vs : list (Verdict * list str)) : Tally :=
  mkTally (t_passed t + count Passed vs) (t_failed t + count Failed vs) (t_skipped t + count Skipped vs)
    (t_out t ++ flat_map snd vs) (t_attempts t + attempts_of vs).

Lemma count_cons v x vs : count v (x :: vs) = (if decide (x.1 = v) then 1 else 0) + count v vs.
Proof. unfold count, blen. rewrite filter_cons. destruct (decide (x.1 = v)); cbn [length]; lia. Qed.
Lemma attempts_cons x vs : attempts_of (x :: vs) = ((if decide (x.1 = Skipped) then 0 else 1) + attempts_of vs)%nat.
Proof. unfold attempts_of. rewrite filter_cons. by repeat case_decide. Qed.

Lemma tally_nil t : tally_with t [] = t.
Proof. destruct t. unfold tally_with, count, attempts_of. cbn. by rewrite !N.add_0_r, app_nil_r, Nat.add_0_r. Qed.
Lemma tally_record t v lines vs :
  tally_with (record t v lines (match v with Skipped => t_attempts t | _ => S (t_attempts t) end)) vs
  = tally_with t ((v, lines) :: vs).
Proof.
  unfold tally_with, record. rewrite !count_cons, attempts_cons. cbn [fst flat_map snd t_passed t_failed t_skipped t_out t_attempts].
  rewrite <- app_assoc. destruct v; repeat case_decide; try done; f_equal; lia.
Qed.
Lemma tally_app t vs vs' : tally_with t (vs ++ vs') = tally_with (tally_with t vs) vs'.
Proof.
  unfold tally_with, count, attempts_of, blen. cbn -[N.of_nat N.add]. rewrite !filter_app, !length_app, flat_map_app.
  f_equal; first [lia | by rewrite <- app_assoc].
Qed.

Lemma judged_app n cs vs cs' vs' :
  judged_run n cs vs -> judged_run (n + attempts_of vs) cs' vs' -> judged_run n (cs ++ cs') (vs ++ vs').
Proof.
  induction 1 as [n|n suite c v lines cs vs Hj Hr _ IH]; intros Hrest; [by rewrite Nat.add_0_r in Hrest|].
  cbn [app]. constructor; [done..|]. apply IH. rewrite attempts_cons in Hrest. cbn [fst] in Hrest.
  destruct v; case_decide; try done; cbn in Hrest; by rewrite ?Nat.add_succ_r in Hrest.
Qed.

Lemma drive_cases_total suite cs t : Forall well_spelled cs -> exists m vs,
  judged_run (t_attempts t) (map (pair suite) cs) vs
  /\ forall k, drive_cases percent_decode_utf8 fmt_debug into_client_request connect_async over_transport into_tonic
      (m + k) args suite cs t = Done (Some (tally_with t vs)).
Proof.
  intros Hcs. revert t. induction Hcs as [|c cs Hc _ IH]; intros t.
  { exists 0%nat, []. split; [constructor|]. intros k. by rewrite tally_nil. }
  destruct (run_one_total (t_attempts t) suite c Hc) as (m & v & lines & Hj & Hr & Hm).
  set (n' := match v with Skipped => t_attempts t | _ => S (t_attempts t) end) in Hm.
  destruct (IH (record t v lines n')) as (m' & vs & Hjs & Hm').
  exists (m + m')%nat, ((v, lines) :: vs). split; [by constructor|]. intros k. cbn [drive_cases].
  rewrite <- Nat.add_assoc, Hm. cbn [mbind run_bind]. replace (m + (m' + k))%nat with (m' + (m + k))%nat by lia.
  rewrite Hm'. do 2 f_equal. apply tally_record.
Qed.

(** The cases of the suites, each with its suite's name. *)
Definition cases_of (suites : list SuiteFile) : list (str * Case) :=
  flat_map (fun s => map (pair (sf_suite s)) (sf_cases s)) suites.

Lemma drive_suites_total suites t : Forall (fun x => well_spelled x.2) (cases_of suites) -> exists m vs,
  judged_run (t_attempts t) (cases_of suites) vs
  /\ forall k, drive_suites percent_decode_utf8 fmt_debug into_client_request connect_async over_transport into_tonic
      (m + k) args suites t = Done (Some (tally_with t vs)).
Proof.
  revert t. induction suites as [|s suites IH]; intros t Hcs.
  { exists 0%nat, []. split; [constructor|]. intros k. by rewrite tally_nil. }
  apply Forall_app in Hcs as [Hs Hrest]. apply Forall_map in Hs. rewrite map_map, map_id in Hs.
  destruct (drive_cases_total (sf_suite s) (sf_cases s) t Hs) as (m & vs & Hj & Hm).
  destruct (IH (tally_with t vs) Hrest) as (m' & vs' & Hj' & Hm').
  exists (m + m')%nat, (vs ++ vs'). split; [by apply judged_app|]. intros k. cbn [drive_suites].
  rewrite <- Nat.add_assoc, Hm. cbn [mbind run_bind]. replace (m + (m' + k))%nat with (m' + (m + k))%nat by lia.
  rewrite Hm'. by rewrite tally_app.
Qed.

Lemma judged_length n cs vs : judged_run n cs vs -> length vs = length cs.
Proof. induction 1; cbn; congruence. Qed.
End loop.

Lemma counts_all vs : count Passed vs + count Failed vs + count Skipped vs = blen vs.
Proof.
  induction vs as [|[v lines] vs IH]; [done|]. rewrite !count_cons. unfold blen in *. cbn [fst length].
  destruct v; repeat case_decide; try done; lia.
Qed.
Lemma count_zero v vs : count v vs = 0 <-> Forall (fun x => x.1 <> v) vs.
Proof.
  induction vs as [|[v' lines] vs IH]; [by split|]. rewrite count_cons, Forall_cons, <- IH. cbn [fst].
  case_decide; split; try lia; naive_solver lia.
Qed.

(** ** Properties *)

(** The command line is read to its end. It is options, then at most one flag without its
    value; with such a flag, or without a base URL, the driver panics before it runs anything, and
    otherwise it has the last base URL, the last profile or [default], whether stubs were asked
    for, and every other argument as a file, in order. *)
Theorem parse_args_exact (argv : list str) : exists opts tail,
  Forall well_formed opts /\ argv = flat_map render opts ++ tail /\ tail ∈ [[]; [$"--base-url"]; [$"--profile"]]
  /\ parse_args argv
     = match tail, last (base_urls opts) with
       | [], Some base_url =>
           Done (mkArgs base_url (default $"default" (last (profiles opts))) (wants_stubs opts) (file_names opts))
       | _, _ => Panic
       end.
Proof.
  destruct (read_options argv) as (opts & tail & Hwf & -> & Ht). exists opts, tail. split; [done|]. split; [done|]. split; [done|].
  unfold parse_args. rewrite parse_loop_render by done.
  apply elem_of_cons in Ht as [->|[->| ->%list_elem_of_singleton]%elem_of_cons].
  - cbn. by destruct (last (base_urls opts)).
  - cbn [parse_loop]. by rewrite decide_True.
  - cbn [parse_loop]. rewrite decide_False by discriminate. by rewrite decide_True.
Qed.

(** C32: A run of the driver is exact and always ends. Over suites whose base64 is valid it
    judges every case in order, each over a connection of its own: skipped when the driver has a
    reason, failed when no tunnel opens, and else passed just when what it observes meets every
    expectation. It prints each verdict with the case's id and a summary whose counts add up,
    and exits with 0 just when no case failed. *)
Theorem driver_run_exact {H : Http} {T : Tonic H} {I : TonicInsert H T} {B : Base64} {P : Pb}
  (percent_decode_utf8 : str -> option str) (fmt_debug : str -> str) (read_to_string : str -> option str)
  (from_str : str -> option SuiteFile) {Socket : Type} (into_client_request : str -> result str unit)
  (connect_async : nat -> str -> result str Socket) (over_transport : Socket -> str -> Client)
  (into_tonic : Client -> Stub (H := H) (T := T)) (argv : list str) (args : Args) (suites : list SuiteFile)
  (Hargs : parse_args argv = Done args) (Hload : run_map (load read_to_string from_str) (a_files args) = Done suites)
  (Hspelled : Forall (fun x => well_spelled x.2) (cases_of suites)) :
  exists fuel vs,
    judged_run percent_decode_utf8 fmt_debug into_client_request connect_async over_transport into_tonic args 0
      (cases_of suites) vs
    /\ count Passed vs + count Failed vs + count Skipped vs = blen (cases_of suites)
    /\ forall k, exists code err,
      main percent_decode_utf8 fmt_debug read_to_string from_str into_client_request connect_async over_transport
        into_tonic (fuel + k) argv
      = Done (Some (code, flat_map snd vs ++ summary args (count Passed vs) (count Failed vs) (count Skipped vs), err))
      /\ (code = 0 <-> Forall (fun x => x.1 <> Failed) vs).
Proof.
  destruct (drive_suites_total percent_decode_utf8 fmt_debug into_client_request connect_async over_transport into_tonic args
    suites tally_start Hspelled) as (fuel & vs & Hj & Hm).
  exists fuel, vs. split; [done|]. split; [rewrite counts_all; unfold blen; f_equal; by eapply judged_length|].
  intros k. unfold main, drive. rewrite Hargs. cbn [mbind run_bind]. rewrite Hload. cbn [mbind run_bind].
  rewrite Hm. cbn [mbind run_bind tally_with tally_start t_failed t_passed t_skipped t_out app].
  rewrite !N.add_0_l. pose proof (count_zero Failed vs) as Hz. destruct (N.ltb_spec 0 (count Failed vs)).
  - exists 1. eexists. split; [done|]. rewrite <- Hz. split; lia.
  - exists 0. eexists. split; [done|]. rewrite <- Hz. split; lia.
Qed.

(** ** Witnesses *)

Definition demo_argv : list str := [$"--profile"; $"default"; $"cases.yaml"; $"--base-url"; $"http://127.0.0.1:1"].
Definition demo_rest : Case :=
  mkCase $"rest" Unary true None None None None None None None None None
    (mkExpect None None None None None None None None None None).
Definition demo_suite : SuiteFile := mkSuiteFile $"streams" [demo_case; demo_rest; demo_case].
Definition demo_down : MdStatus AssocHttp.http AssocHttp.tonic := mkMdStatus Code.Unavailable [] md_new.
Definition demo_stub : Stub (H := AssocHttp.http) (T := AssocHttp.tonic) :=
  mkStub (fun _ => Err demo_down) (fun _ => Err demo_down) (fun _ => Err demo_down) (fun _ => Err demo_down).

Lemma demo_spelled (B : Base64) : Forall (fun x => well_spelled x.2) (cases_of [demo_suite]).
Proof. repeat constructor. Qed.

(** A server that answers the first connection, and no other: one case passes, the REST case is
    skipped, and the third fails. *)
Lemma driver_run_exact_witness : exists fuel vs,
  map fst vs = [Passed; Skipped; Failed]
  /\ exists code err,
    main (H := AssocHttp.http) (T := AssocHttp.tonic) (I := assoc_insert) (B := plain64) (P := CaseCodec.pb)
      Some (fun s => s) (fun _ => Some []) (fun _ => Some demo_suite) (fun _ => Ok tt)
      (fun n _ => match n with O => Ok tt | S _ => Err $"refused" end) (fun _ _ => demo_client) (fun _ => demo_stub)
      fuel demo_argv
    = Done (Some (code, flat_map snd vs ++ summary (mkArgs $"http://127.0.0.1:1" $"default" false [$"cases.yaml"]) 1 1 1, err)) /\ code <> 0.
Proof.
  destruct (driver_run_exact (H := AssocHttp.http) (T := AssocHttp.tonic) (I := assoc_insert) (B := plain64) (P := CaseCodec.pb)
    Some (fun s => s) (fun _ => Some []) (fun _ => Some demo_suite) (fun _ => Ok tt)
    (fun n _ => match n with O => Ok tt | S _ => Err $"refused" end) (fun _ _ => demo_client) (fun _ => demo_stub)
    demo_argv (mkArgs $"http://127.0.0.1:1" $"default" false [$"cases.yaml"]) [demo_suite] eq_refl eq_refl (demo_spelled plain64))
    as (fuel & vs & Hj & _ & Hm).
  inversion Hj as [|n s c v1 l1 cs vs1 J1 R1 Hj1]; subst. inversion Hj1 as [|n2 s2 c2 v2 l2 cs2 vs2 J2 R2 Hj2]; subst.
  inversion Hj2 as [|n3 s3 c3 v3 l3 cs3 vs3 J3 R3 Hj3]; subst. inversion Hj3; subst.
  assert (v1 = Passed) as ->.
  { destruct J1 as (Hs & m & o & Ho & Hmet). apply Hmet. apply (verdict_exact (fun s => s)).
    destruct m as [|[|[|m]]]; vm_compute in Ho; try discriminate. injection Ho as <-. vm_compute. reflexivity. }
  assert (v2 = Skipped) as -> by exact J2. assert (v3 = Failed) as -> by exact J3.
  exists fuel. eexists. split; [|destruct (Hm 0%nat) as (code & err & Hrun & Hcode); exists code, err].
  2: rewrite Nat.add_0_r in Hrun; split; [exact Hrun|].
  - reflexivity.
  - intros Hc. apply Hcode in Hc. apply Forall_cons in Hc as [_ Hc]. apply Forall_cons in Hc as [_ Hc].
    apply Forall_cons in Hc as [Hc _]. by apply Hc.
Defined.
