(* ===== verification/ServerTests.v ===== *)
(** * The framing and metadata tests of the server library

    The tests in [rust/crates/grpc-webnext/tests/] that need no socket ([grpc_framing_unit.rs],
    [framing_unit.rs], [metadata_unit.rs]), as computations on the model: a test is the
    conjunction of its assertions, in order. Header maps are the instance of [Http.v], metadata
    maps the one of [Base64Std.v] with tonic's unpadded base64; the codec of [Trailer] is the
    instance of [Framing.v]. *)
From S2P Require Import Prelude RustStd Http GrpcFraming Metadata Framing ClientMetadata Base64Std.
#[local] Existing Instance AssocHttp.http.
#[local] Existing Instance Std64.tonic64.

Abbreviation assert_eq a b := (bool_decide (a = b)).

(** ** [grpc_framing_unit.rs] *)

Definition frames_and_deframes : bool :=
  let joined := frame $"hello" ++ frame $"world" in
  assert_eq (deframe_all joined) [$"hello"; $"world"].

Definition deframer_handles_split_chunks : bool :=
  let framed := frame $"chunky" in
  let d := Deframer.push Deframer.new (btake 3 framed) in
  let '(early, d) := Deframer.next_message d in
  let d := Deframer.push d (bdrop 3 framed) in
  let '(message, d) := Deframer.next_message d in
  assert_eq early None && assert_eq message (Some $"chunky") && assert_eq (Deframer.next_message d).1 None.

(** ** [framing_unit.rs] *)

Abbreviation encode_body := (encode_response_body TrailerCodec.enc).
Abbreviation decode_body := (decode_response_body TrailerCodec.dec).

Definition round_trips_message_and_trailer : bool :=
  let trailer := mkTrailer 0 $"OK" [mkMetadatum $"x-custom" (Some (AsciiVal $"v"))] in
  match decode_body (encode_body $"hello world" trailer) 1024 with
  | Ok (message, got) =>
      assert_eq message $"hello world" && assert_eq (status_message got) $"OK" && assert_eq (length (trailers got)) 1%nat
  | Err _ => false
  end.

Definition enforces_size_limit : bool :=
  match decode_body (encode_body (replicate 100 x00) (mkTrailer 0 [] [])) 10 with
  | Err (TooLarge limit) => limit =? 10
  | _ => false
  end.

Definition detects_truncation : bool :=
  match decode_body [x00; x00; x00; x05; x01; x02] 1024 with Err (Truncated _ _) => true | _ => false end.

(** ** [metadata_unit.rs] *)

Definition parses_timeout_units : bool :=
  let gives h d := match parse_grpc_timeout h with Done got => assert_eq got (Some d) | Panic => false end in
  let h := hm_insert hm_new $"grpc-timeout" $"100m" in
  gives h (from_millis 100) && gives (hm_insert h $"grpc-timeout" $"5S") (from_secs 5).

Definition drops_denied_headers : bool :=
  let h := hm_insert (hm_insert hm_new $"content-type" $"x") $"x-custom" $"v" in
  let back := md_into_headers (request_headers_to_metadata h) in
  assert_eq (hm_get back $"content-type") None && contains_key back $"x-custom".

Definition binary_metadata_round_trips_through_headers : bool :=
  let raw := [x01; x02; x03; x04] in
  let items := [mkMetadatum $"x-ascii" (Some (AsciiVal $"plain")); mkMetadatum $"x-blob-bin" (Some (BinVal raw))] in
  let md := metadata_vec_to_metadata items in
  let find k := (m ← List.find (fun m => assert_eq (key m) k) (metadata_to_vec md); value m) in
  assert_eq (hm_get (md_into_headers md) $"x-blob-bin") (Some $"AQIDBA")
  && assert_eq (find $"x-ascii") (Some (AsciiVal $"plain"))
  && assert_eq (find $"x-blob-bin") (Some (BinVal raw)).

(** Every test of the three files passes. *)
Theorem server_tests_pass :
  frames_and_deframes = true /\ deframer_handles_split_chunks = true /\ round_trips_message_and_trailer = true
  /\ enforces_size_limit = true /\ detects_truncation = true /\ parses_timeout_units = true
  /\ drops_denied_headers = true /\ binary_metadata_round_trips_through_headers = true.
Proof. vm_compute. auto 10. Qed.
