(* ===== verification/ClientTests.v ===== *)
(** * The unit tests of the wasm client and of the conformance driver

    The tests inside [rust/crates/grpc-webnext-client/src/] ([url.rs], [state.rs], [codec.rs],
    [metadata.rs], [status.rs], [client.rs], [tonic_service.rs]) and
    [rust/examples/conformance-driver/src/cases.rs], as computations on the model: a test is
    the conjunction of its assertions, in order. Base64 is the standard alphabet of
    [Base64Std.v], header maps are the instance of [Http.v]; a case read from YAML is the
    record it denotes. *)
From S2P Require Import Prelude RustStd Http Metadata ClientMetadata Base64Std ClientStatus ClientCodec ClientState ClientCalls TonicService.
From S2P Require Import Conformance ConformanceDriver.
Import Std64.

Abbreviation assert_eq a b := (bool_decide (a = b)).
Definition is_err {E A} (r : result E A) : bool := match r with Ok _ => false | Err _ => true end.
Definition is_none {A} (o : option A) : bool := match o with Some _ => false | None => true end.

(** ** [url.rs] *)

Definition maps_scheme_and_extracts_authority : bool :=
  forallb (fun '(input, ws, authority) => assert_eq (ok (websocket_url input)) (Some (ws, authority))) [
    ($"http://localhost:8080", $"ws://localhost:8080", $"localhost:8080");
    ($"https://api.example.com", $"wss://api.example.com", $"api.example.com");
    ($"https://api.example.com/grpc/", $"wss://api.example.com/grpc", $"api.example.com");
    ($"http://127.0.0.1:8080/a/b", $"ws://127.0.0.1:8080/a/b", $"127.0.0.1:8080");
    ($"ws://localhost:9090", $"ws://localhost:9090", $"localhost:9090");
    ($"wss://api.example.com", $"wss://api.example.com", $"api.example.com")
  ].

Definition rejects_a_url_it_cannot_map : bool :=
  is_err (websocket_url $"localhost:8080") && is_err (websocket_url $"ftp://host") && is_err (websocket_url []).

Definition a_trailing_slash_does_not_become_an_empty_path_segment : bool :=
  assert_eq (ok (websocket_url $"https://host/")) (Some ($"wss://host", $"host")).

Theorem url_tests_pass :
  maps_scheme_and_extracts_authority = true /\ rejects_a_url_it_cannot_map = true
  /\ a_trailing_slash_does_not_become_an_empty_path_segment = true.
Proof. vm_compute. auto. Qed.

(** ** [state.rs] *)

(** What the receiver of channel [i] collects once the watch is dropped. *)
Definition collect (self : StateWatch) (i : nat) : option (list ConnectivityState) := sent <$> channels self !! i.

Definition starts_idle : bool := assert_eq (sw_get sw_default) Idle.

Definition watchers_see_transitions_but_not_repeats : bool :=
  let '(watch, seen) := sw_watch sw_default in
  let watch := sw_set watch Connecting in
  let watch := sw_set watch Connecting in
  let watch := sw_set watch ClientState.Ready in
  let watch := sw_set watch Idle in
  assert_eq (collect watch seen) (Some [Connecting; ClientState.Ready; Idle]).

Definition a_watcher_added_later_sees_only_what_follows : bool :=
  let watch := sw_set sw_default ClientState.Ready in
  let '(watch, late) := sw_watch watch in
  let watch := sw_set watch Idle in
  assert_eq (collect watch late) (Some [Idle]).

Definition a_dropped_watcher_does_not_accumulate : bool :=
  let '(watch, seen) := sw_watch sw_default in
  let watch := drop_rx watch seen in
  let watch := sw_set watch Connecting in
  let watch := sw_set watch ClientState.Ready in
  negb (nonempty (watchers watch)).

Theorem state_tests_pass :
  starts_idle = true /\ watchers_see_transitions_but_not_repeats = true
  /\ a_watcher_added_later_sees_only_what_follows = true /\ a_dropped_watcher_does_not_accumulate = true.
Proof. vm_compute. auto. Qed.

(** ** [codec.rs] *)

Definition round_trips_one_message : bool :=
  let '(r, d) := push (deframer_new None) (encode_message $"hello") in
  assert_eq r (Ok [$"hello"]) && (pending d =? 0).

Fixpoint push_bytes (d : ClientCodec.t) (chunk : bytes) : bool * ClientCodec.t :=
  match chunk with
  | [] => (true, d)
  | b :: chunk' =>
      let '(r, d) := push d [b] in
      let '(all, d) := push_bytes d chunk' in (assert_eq r (Ok []) && all, d)
  end.
Definition reassembles_across_chunk_boundaries : bool :=
  let framed := encode_message $"hello" in
  let '(nothing_yet, d) := push_bytes (deframer_new None) (btake (blen framed - 1) framed) in
  nothing_yet && assert_eq (push d (bdrop (blen framed - 1) framed)).1 (Ok [$"hello"]).

Definition yields_several_messages_from_one_chunk : bool :=
  let chunk := encode_message $"a" ++ encode_message $"bb" ++ encode_message $"ccc" in
  assert_eq (push (deframer_new None) chunk).1 (Ok [$"a"; $"bb"; $"ccc"]).

Definition empty_messages_are_messages : bool :=
  assert_eq (push (deframer_new None) (encode_message [])).1 (Ok [[]]).

Definition a_partial_message_is_visible_as_pending : bool :=
  let '(r, d) := push (deframer_new None) (btake 7 (encode_message $"hello")) in
  assert_eq r (Ok []) && (pending d =? 7).

Definition rejects_a_compressed_frame_rather_than_mis_reading_it : bool :=
  match (push (deframer_new None) (<[0%nat := x01]> (encode_message $"hello"))).1 with
  | Err err => assert_eq (code err) Code.Unimplemented
  | Ok _ => false
  end.

Definition enforces_the_size_limit_before_buffering_the_body : bool :=
  match (push (deframer_new (Some 4)) (encode_message $"too long")).1 with
  | Err err => assert_eq (code err) Code.ResourceExhausted
  | Ok _ => false
  end.

Theorem codec_tests_pass :
  round_trips_one_message = true /\ reassembles_across_chunk_boundaries = true
  /\ yields_several_messages_from_one_chunk = true /\ empty_messages_are_messages = true
  /\ a_partial_message_is_visible_as_pending = true
  /\ rejects_a_compressed_frame_rather_than_mis_reading_it = true
  /\ enforces_the_size_limit_before_buffering_the_body = true.
Proof. vm_compute. auto 10. Qed.

(** ** [metadata.rs] *)

Definition bin_values_are_base64_on_the_wire : bool :=
  assert_eq (to_headers (insert_bin md_empty $"x-trace-bin" [x00; x01; x02; xff])) [($"x-trace-bin", $"AAEC/w==")].

Definition bin_values_round_trip : bool :=
  let md := insert (insert_bin md_empty $"x-trace-bin" [x00; x01; x02; xff]) $"x-ascii" $"plain" in
  let back := ClientMetadata.from_headers (to_headers md) in
  assert_eq (get_bin back $"x-trace-bin") (Some [x00; x01; x02; xff]) && assert_eq (get back $"x-ascii") (Some $"plain").

Definition unpadded_base64_decodes_too : bool :=
  assert_eq (get_bin (ClientMetadata.from_headers [($"x-t-bin", $"AAEC")]) $"x-t-bin") (Some [x00; x01; x02]).

Definition undecodable_bin_is_kept_as_ascii_not_dropped : bool :=
  assert_eq (get (ClientMetadata.from_headers [($"x-t-bin", $"!!!not base64!!!")]) $"x-t-bin") (Some $"!!!not base64!!!").

Definition framing_and_pseudo_headers_are_not_call_metadata : bool :=
  let md := ClientMetadata.from_headers
              [($":status", $"200"); ($"content-type", $"application/grpc"); ($"x-real", $"yes")] in
  (len md =? 1) && assert_eq (get md $"x-real") (Some $"yes").

Definition keys_are_case_insensitive : bool :=
  let md := insert md_empty $"X-Mixed-Case" $"v" in
  assert_eq (get md $"x-mixed-case") (Some $"v") && ClientMetadata.is_empty (remove md $"X-MIXED-CASE").

Theorem metadata_tests_pass :
  bin_values_are_base64_on_the_wire = true /\ bin_values_round_trip = true /\ unpadded_base64_decodes_too = true
  /\ undecodable_bin_is_kept_as_ascii_not_dropped = true
  /\ framing_and_pseudo_headers_are_not_call_metadata = true /\ keys_are_case_insensitive = true.
Proof. vm_compute. auto 10. Qed.

(** ** [status.rs] *)

(** [percent_decode_str(..).decode_utf8().ok()]: an escape that is not two hex digits stays. *)
Fixpoint unescape (s : bytes) : bytes :=
  match s with
  | "%"%byte :: (h1 :: h2 :: s') as t =>
      match to_digit 16 h1, to_digit 16 h2 with
      | Some a, Some b => byte_of_N (a * 16 + b) :: unescape s'
      | _, _ => "%"%byte :: unescape t
      end
  | c :: s' => c :: unescape s'
  | [] => []
  end.
Definition decode_utf8 (s : str) : option str := from_utf8 (unescape s).
#[local] Definition from_headers := ClientStatus.from_headers decode_utf8.

Definition no_grpc_status_is_none : bool := is_none (from_headers [($"content-type", $"application/grpc")]).

Definition reads_code_and_percent_decoded_message : bool :=
  match from_headers [($"grpc-status", $"9"); ($"grpc-message", $"not%20ready%3A%20try%20later")] with
  | Some s => assert_eq (code s) Code.FailedPrecondition && assert_eq (ClientStatus.message s) $"not ready: try later"
  | None => false
  end.

Definition keeps_trailing_metadata_but_not_the_status_itself : bool :=
  match from_headers [($"grpc-status", $"0"); ($"grpc-message", $"ok"); ($"x-trailer", $"value")] with
  | Some s =>
      assert_eq (get (metadata s) $"x-trailer") (Some $"value")
      && is_none (get (metadata s) $"grpc-status") && is_none (get (metadata s) $"grpc-message")
  | None => false
  end.

Definition unrecognized_codes_are_unknown_not_an_error : bool :=
  forallb (fun raw => assert_eq (code <$> from_headers [($"grpc-status", raw)]) (Some Code.Unknown))
    [$"99"; $"-1"; $"banana"; []].

Definition undecodable_message_is_passed_through : bool :=
  assert_eq (ClientStatus.message <$> from_headers [($"grpc-status", $"2"); ($"grpc-message", $"%ZZ")]) (Some $"%ZZ").

Theorem status_tests_pass :
  no_grpc_status_is_none = true /\ reads_code_and_percent_decoded_message = true
  /\ keeps_trailing_metadata_but_not_the_status_itself = true
  /\ unrecognized_codes_are_unknown_not_an_error = true /\ undecodable_message_is_passed_through = true.
Proof. vm_compute. auto 10. Qed.

(** ** [client.rs] *)

Definition a_sub_millisecond_timeout_never_becomes_zero : bool :=
  (options_millis (from_micros 1) =? 1) && (options_millis (from_millis 250) =? 250).

Theorem client_tests_pass : a_sub_millisecond_timeout_never_becomes_zero = true.
Proof. vm_compute. reflexivity. Qed.

(** ** [tonic_service.rs] *)

#[local] Existing Instance AssocHttp.http.

(** [headers] of the tests: every name and value is legal. *)
Definition headers (pairs : list (str * str)) : HeaderMap := foldl append_valid hm_new pairs.

Definition every_grpc_timeout_unit_is_understood : bool :=
  forallb (fun case => assert_eq (grpc_timeout (headers [($"grpc-timeout", case.1)])) (Some case.2)) [
    ($"100n", from_nanos 100); ($"100u", from_micros 100); ($"100m", from_millis 100);
    ($"2S", from_secs 2); ($"2M", from_secs 120); ($"2H", from_secs 7200)
  ].

Definition a_missing_or_malformed_timeout_leaves_the_call_unbounded : bool :=
  is_none (grpc_timeout (headers []))
  && forallb (fun raw => is_none (grpc_timeout (headers [($"grpc-timeout", raw)])))
       [[]; $"m"; $"100"; $"100x"; $"-1S"; $"abcS"].

Definition tonics_own_encoding_round_trips : bool :=
  assert_eq (grpc_timeout (headers [($"grpc-timeout", $"500000u")])) (Some (from_millis 500)).

(** tonic writes a [-bin] value into its headers as base64 without padding. *)
Definition headers_convert_and_binary_metadata_survives_as_base64 : bool :=
  let into_headers := headers [($"x-request-id", $"abc-123"); ($"x-trace-bin", trim_end "="%byte (b64_encode [x00; x01; xfa]))] in
  match to_wire_headers into_headers with
  | Ok wire =>
      bool_decide (($"x-request-id", $"abc-123") ∈ wire)
      && match find (fun h => assert_eq h.1 $"x-trace-bin") wire with
         | Some (_, encoded) => assert_eq (b64_decode_no_pad encoded) (Some [x00; x01; xfa])
         | None => false
         end
  | Err _ => false
  end.

Definition a_non_ascii_metadata_value_is_refused_rather_than_mangled : bool :=
  match to_wire_headers (hm_append hm_new $"x-bad" [xff; xfe]) with
  | Err error => assert_eq (t_code error) (Code.to_Z Code.Internal) && contains $"x-bad" (t_message error)
  | Ok _ => false
  end.

Definition a_status_carries_its_code_message_and_metadata_into_tonic : bool :=
  let metadata := insert_bin (insert md_empty $"x-detail" $"quota-exhausted") $"x-detail-bin" [x00; x01; xfa] in
  let status := from_status (mkStatus Code.FailedPrecondition $"no" metadata) in
  assert_eq (t_code status) (Code.to_Z Code.FailedPrecondition) && assert_eq (t_message status) $"no"
  && assert_eq (hm_get (t_metadata status) $"x-detail") (Some $"quota-exhausted")
  && assert_eq (v ← hm_get (t_metadata status) $"x-detail-bin"; b64_decode v) (Some [x00; x01; xfa]).

Theorem tonic_tests_pass :
  every_grpc_timeout_unit_is_understood = true
  /\ a_missing_or_malformed_timeout_leaves_the_call_unbounded = true /\ tonics_own_encoding_round_trips = true
  /\ headers_convert_and_binary_metadata_survives_as_base64 = true
  /\ a_non_ascii_metadata_value_is_refused_rather_than_mangled = true
  /\ a_status_carries_its_code_message_and_metadata_into_tonic = true.
Proof. vm_compute. auto 10. Qed.

(** ** [cases.rs] *)

Definition byte_values_decode_in_all_three_spellings : bool :=
  let decodes s want := match to_vec s with Done b => assert_eq b want | Panic => false end in
  decodes (mkBytesSpec (Some $"hi") None None) $"hi"
  && decodes (mkBytesSpec None (Some $"AAEC") None) [x00; x01; x02]
  && decodes (mkBytesSpec None None (Some 3)) [x00; x00; x00]
  && decodes (mkBytesSpec None None None) [].

(** [base], with what a test adds to it. *)
Definition case (requires : option Requires) (codecs : option (list str)) : Case :=
  mkCase $"n" Unary false codecs None None None None requires None None None
    (mkExpect None (Some (mkStatusExpect (Some 0%Z) None None)) None None None None None None None None).

Definition requires_key_matches_the_typescript_harness : bool :=
  assert_eq (requires_key (case None None)) $"default"
  && assert_eq (requires_key (case (Some (mkRequires (Some 64) None)) None)) $"max:64"
  && assert_eq (requires_key (case (Some (mkRequires None (Some false))) None)) $"notranscoder"
  && assert_eq (requires_key (case (Some (mkRequires None (Some true))) None)) $"default".

Definition codec_selection_defaults_to_covering_proto : bool :=
  covers_proto (case None None) && covers_proto (case None (Some [$"proto"]))
  && covers_proto (case None (Some [$"proto"; $"json"])) && negb (covers_proto (case None (Some [$"json"]))).

Theorem cases_tests_pass :
  byte_values_decode_in_all_three_spellings = true /\ requires_key_matches_the_typescript_harness = true
  /\ codec_selection_defaults_to_covering_proto = true.
Proof. vm_compute. auto. Qed.
